(* ===== verification/_CoqProject ===== *)
-Q . S2P
Prelude.v
Types.v
Storage.v
Timing.v
Node.v
Handlers.v
Replication.v
LogSpec.v
AppendSpec.v
AppendProtocol.v
CommitSpec.v
SnapshotSpec.v
CatchUp.v
ApplyLoop.v
Recovery.v
Replica.v
Delivery.v
Durability.v
VoteSafety.v
Cluster.v
Utf8.v
Json.v
GoStrings.v
GoJson.v
KvStore.v
KvService.v
KvEngine.v
KvSpec.v
KvReplica.v
JsonStorage.v
Transport.v
KvClient.v
AppConfig.v
Admin.v
RaftSpec.v
Network.v
Refinement.v
Simulation.v
SimElection.v
RaftSafety.v
AdminRows.v
AdminTable.v
AdminScreen.v
Cli.v
Process.v
Metrics.v
