(* ===== verification/Prelude.v ===== *)
(** * consensus-lab: a verification development (root file)

    consensus-lab is a replicated key-value store on Raft, written in Go.  A
    node process ([cmd/node], [internal/app]) runs a Raft node
    ([internal/consensus/raft]) with its storage, a key-value service
    ([internal/service], [internal/kv]) that proposes commands to the node and
    applies what the node delivers, and the gRPC servers of both
    ([internal/transport]).  A command-line client ([cmd/client]) talks to the
    key-value servers and shows a table of the admin reports of the nodes.

    This file is the prelude: [int64] arithmetic ([i64], [+!], [-!]), panics
    ([outcome]), Go errors ([error], [result]), slices with Go's index panics
    ([zget], [slice_from], [slice_to]), record update and the shared tactics.

    ** How the code is modelled

    Go code under a lock is a function from the state to the new state: a Go
    struct is a record with the field names of the code, [Ret]/[Panic] an
    expression that may index out of range, [Val]/[Err] a Go error result.
    Code that releases a lock in the middle is cut there into several
    functions, and the goroutines are the interleavings of the pieces, as step
    relations.  Maps are stdpp's [gmap]; where Go iterates over a map in an
    unspecified order the model takes the order of [elements] or the property
    holds for every order, as the definition says.

    ** Files and sources

    The Raft node ([internal/consensus/raft]):
    - Types: [types.go] and the messages; Storage: [storage.go] (class
      [Storage], its laws [StorageContract]) and [storage_memory.go];
      JsonStorage: [storage_json.go], the files written system call by system
      call; Timing: [metrics_timing.go]; Node: [node.go], [tracing.go],
      [NewNode];
    - Handlers: [rpc_handlers.go], [consensus.go], the locked sections of
      [snapshot.go], [replication.go]; Replication: [election.go] and the
      leader's half of replication; ApplyLoop: [apply.go] as a machine with a
      program counter; Transport: [internal/transport/grpc/raft]; Admin:
      [admin.go] and [internal/transport/grpc/admin].

    Its correctness: LogSpec (the reference [merge]), AppendSpec,
    AppendProtocol, CommitSpec, SnapshotSpec, CatchUp are about one or two
    nodes; Recovery and Durability about crashes; Replica and Delivery about
    the handlers and the apply loop of a replica in every interleaving;
    VoteSafety and Cluster about elections among replicas on an adversarial
    network; RaftSpec is the abstract protocol and its safety, Network the
    replicas that replicate a log to each other, Refinement, Simulation and
    SimElection the simulation between them, RaftSafety what follows.

    The key-value service: Utf8, Json and GoJson are the part of
    [encoding/json] the program relies on; KvStore: [internal/kv]; KvService:
    [internal/service/kv.go] over the class [Consensus]; KvEngine: the Raft
    node as an instance of it; KvSpec: the service against the replay of the
    log; KvReplica: node, apply loop and service together; KvClient:
    [internal/transport/grpc/kv].

    The processes: GoStrings: the string functions of the Go library;
    AppConfig: [internal/app/config.go]; Process: the rest of [internal/app],
    [cmd/node/main.go], the life of a node; AdminRows, AdminTable,
    AdminScreen: [cmd/client/admin.go]; Cli: [cmd/client/main.go]; Metrics:
    [internal/observability/metrics].

    ** What the theorems show

    - C1 to C4 (RaftSafety): the network implements the abstract protocol;
      state machine safety, leader completeness and log matching across
      elections, replication, crashes and restarts.
    - C5 to C7 (Cluster): election safety under any requests, reordering,
      duplication, storage failures and crashes; every leader has a quorum;
      votes are durable; a cluster of one member never has a leader
      ([single_node_no_leader]).
    - C8 to C11, C13 and C14 (AppendProtocol): what every AppendEntries
      leaves, and that it keeps the committed entries when the request
      contradicts none of them; what a success and a rejection mean, the
      requests a leader builds, one round for a peer, and the race that makes
      the leader panic.
    - C12 (CatchUp): the progress a leader records after an exchange, and the
      agreement of the two logs up to there.
    - C15 to C20 (CommitSpec, SnapshotSpec, CatchUp): the commit rule,
      proposals, backing off, compaction, snapshots of the leader, and that
      a follower is brought up to date in a bounded number of exchanges.
    - C21 to C26 (Durability, Delivery): crash recovery, a crash inside a
      compaction, the order and completeness of delivery, when the apply loop
      panics, and the entry a failed compaction loses.
    - C27 to C33 (KvStore, KvSpec, KvReplica): snapshots and commands read
      back as written, the store is the replay of the committed log, waiters
      are woken, and two ways in which [waitApplied] goes wrong.
    - C34 to C40: what the JSON storage keeps of the contract whichever system
      call fails; an RPC is the call of the handler, errors as statuses; the
      leader search of the client; the configuration, setting by setting; a
      node process starts without a panic and closes what it opened, two
      failures apart ([metrics_failure_leaks], [tracing_failure_leaks]); the
      admin report, field by field; the admin screen, whatever it is sent.
    Besides these, AppConfig shows that the peer map is exactly the listed
    peers ([peer_addr_map_exact]), and Cli that a batch prints one numbered
    record per request ([batch_output]) and that the client leaves nothing
    open ([run_closes]), and Metrics that no report panics, that counters only
    grow and that a second registration reuses the first one's collectors.

    ** Bounds and fuel

    The invariant [wf] asks that the last index is below the largest
    [int64]; terms are bounded in the same way where they are incremented.
    Durations, times and lengths are [Z].  [advanceLoop] runs on the number of
    indices between the candidate and the commit index, which is the number
    of turns of the loop ([advanceLoop_spec]); [applyRun] and [catchUp] take
    their fuel as an argument and C25 and C20 say how much is enough;
    [rune_count_from] consumes a byte per unit; the parser of Json takes the
    length of its text.

    ** Assumptions

    Named hypotheses and class instances stand for what is not under src/:
    the laws of a storage ([StorageContract], with instances for
    [InMemoryStorage] and for [FaultyStorage], which adds failing writes to
    it; the JSON storage has no instance but the theorem C34, which excepts
    an empty log at base 0; [ReliableStorage] where writes succeed), gRPC (an RPC is
    answered by the handler or fails), [rand.Perm] (any permutation), lipgloss
    (class [Terminal]: a style takes no column), a Prometheus registry (class
    [RegistererLaws], with an instance), and the functions that answer for the
    operating system in [World] and [call].

    ** Not modelled

    The calls of the metrics from the node and the service are left out of
    their definitions: nothing reads them back.  Timers are left to the
    scheduler: every order of timeouts is allowed.  Loggers and spans have no
    effect on the state.  The generated gRPC stubs, the registration of
    handlers on the servers, the HTTP handlers of pprof, and the top-level
    flags of the client are calls into libraries.  The Network has no log
    compaction (the default, [SnapshotEvery = 0]); compaction and snapshots
    are in the results about one replica.  [strings.ToLower] is modelled on
    ASCII letters. *)

From Stdlib Require Export ZArith Lia.
From stdpp Require Export base tactics list gmap strings numbers option.

Declare Scope go_scope.
Delimit Scope go_scope with go.
Open Scope go_scope.
Open Scope Z_scope.

(** ** Machine integers

    Go's [int64] is a [Z] kept in range by [i64], the two's complement
    wrap-around; [+!] and [-!] are Go's [+] and [-] on [int64]. *)

Notation min_int64 := (-9223372036854775808).
Notation max_int64 := 9223372036854775807.

Definition i64 (z : Z) : Z :=
  (z + 9223372036854775808) mod 18446744073709551616 - 9223372036854775808.

Definition in_i64 (z : Z) : Prop := min_int64 ≤ z ≤ max_int64.

Notation "x +! y" := (i64 (x + y)) (at level 50, left associativity) : go_scope.
Notation "x -! y" := (i64 (x - y)) (at level 50, left associativity) : go_scope.

Lemma i64_small z : in_i64 z → i64 z = z.
Proof. unfold in_i64, i64. intros. rewrite Z.mod_small; lia. Qed.

Lemma i64_range z : in_i64 (i64 z).
Proof.
  unfold in_i64, i64.
  pose proof (Z.mod_pos_bound (z + 9223372036854775808) 18446744073709551616). lia.
Qed.

Lemma i64_add_l a b : i64 (i64 a + b) = i64 (a + b).
Proof.
  unfold i64. f_equal.
  replace ((a + 9223372036854775808) mod 18446744073709551616 - 9223372036854775808
           + b + 9223372036854775808)
    with ((a + 9223372036854775808) mod 18446744073709551616 + b) by lia.
  rewrite Zplus_mod_idemp_l. f_equal. lia.
Qed.

Lemma i64_sub_l a b : i64 (i64 a - b) = i64 (a - b).
Proof. rewrite <- !Z.add_opp_r. apply i64_add_l. Qed.

#[global] Opaque i64.

(** [i64_norm] removes every wrap-around whose argument [lia] can bound. *)
Ltac i64_norm :=
  repeat (rewrite ?i64_add_l, ?i64_sub_l in *;
          match goal with
          | |- context [i64 ?z] => rewrite (i64_small z) by (unfold in_i64 in *; lia)
          | H : context [i64 ?z] |- _ =>
              rewrite (i64_small z) in H by (unfold in_i64 in *; lia)
          end).

(** [zbool] turns the boolean comparisons of the code into propositions. *)
Ltac zbool :=
  repeat match goal with
  | H : (_ <? _) = true |- _ => apply Z.ltb_lt in H
  | H : (_ <? _) = false |- _ => apply Z.ltb_ge in H
  | H : (_ <=? _) = true |- _ => apply Z.leb_le in H
  | H : (_ <=? _) = false |- _ => apply Z.leb_gt in H
  | H : (_ =? _) = true |- _ => apply Z.eqb_eq in H
  | H : (_ =? _) = false |- _ => apply Z.eqb_neq in H
  | H : (_ >? _) = _ |- _ => rewrite Z.gtb_ltb in H
  | H : (_ >=? _) = _ |- _ => rewrite Z.geb_leb in H
  | H : negb _ = true |- _ => apply negb_true_iff in H
  | H : negb _ = false |- _ => apply negb_false_iff in H
  | H : (_ && _)%bool = true |- _ => apply andb_true_iff in H as [? ?]
  | H : (_ || _)%bool = false |- _ => apply orb_false_iff in H as [? ?]
  end.

(** ** Outcomes

    A Go function that may panic (an index or a slice bound out of range, a
    nil map or pointer) returns an [outcome]; an operation with an [error]
    result returns a [result]. *)

Inductive outcome (A : Type) : Type :=
  | Ret (a : A)
  | Panic.
Arguments Ret {A} a.
Arguments Panic {A}.

#[export] Instance outcome_ret : MRet outcome := @Ret.
#[export] Instance outcome_bind : MBind outcome := λ A B f m,
  match m with Ret a => f a | Panic => Panic end.
#[export] Instance outcome_fmap : FMap outcome := λ A B f m,
  match m with Ret a => Ret (f a) | Panic => Panic end.

Lemma outcome_bind_Ret {A B} (f : A → outcome B) (m : outcome A) b :
  m ≫= f = Ret b ↔ ∃ a, m = Ret a ∧ f a = Ret b.
Proof. destruct m; simpl; naive_solver. Qed.

(** [binv] inverts the binds that returned. *)
Ltac binv :=
  repeat match goal with
  | H : mbind _ _ = Ret _ |- _ => apply outcome_bind_Ret in H as (? & ? & ?)
  | H : (let '(_, _) := ?p in _) = Ret _ |- _ => destruct p eqn:?
  | H : Ret _ = Ret _ |- _ => injection H as H; subst
  end; simplify_eq/=.

Definition panics {A} (m : outcome A) : Prop := m = Panic.

(** ** Record update

    [r <| f := v |>] is [r] with field [f] set to [v], for every field that
    has a [SetField] instance. *)

Class SetField {R T : Type} (proj : R → T) := set_field : (T → T) → R → R.
#[global] Arguments set_field {R T} proj {_} _ _ /.

Notation "r <| f := v |>" := (set_field f (λ _, v) r)
  (at level 40, f at level 0, left associativity,
   format "r  <| f  :=  v |>") : go_scope.

(** ** Slices

    Go slices are lists; [zlen], [zget], [slice_from] and [slice_to] are
    [len(s)], [s[i]], [s[a:]] and [s[:b]], the last three panicking out of
    range.  ([s[:b]] with [len(s) < b <= cap(s)] does not occur in the code
    and is a panic here.) *)

Definition zlen {A} (l : list A) : Z := Z.of_nat (length l).

Definition zget {A} (l : list A) (i : Z) : outcome A :=
  if i <? 0 then Panic else
  match l !! Z.to_nat i with Some x => Ret x | None => Panic end.

Definition slice_from {A} (l : list A) (a : Z) : outcome (list A) :=
  if (a <? 0) || (zlen l <? a) then Panic else Ret (drop (Z.to_nat a) l).

Definition slice_to {A} (l : list A) (b : Z) : outcome (list A) :=
  if (b <? 0) || (zlen l <? b) then Panic else Ret (take (Z.to_nat b) l).

Section slices.
Context {A : Type}.
Implicit Types (l : list A) (x : A) (i : Z).

Lemma zlen_nonneg l : 0 ≤ zlen l.
Proof. unfold zlen. lia. Qed.

Lemma zlen_nil : zlen (@nil A) = 0.
Proof. done. Qed.

Lemma zlen_cons x l : zlen (x :: l) = 1 + zlen l.
Proof. unfold zlen. simpl. lia. Qed.

Lemma zlen_app l1 l2 : zlen (l1 ++ l2) = zlen l1 + zlen l2.
Proof. unfold zlen. rewrite length_app. lia. Qed.

Lemma zlen_take l i : 0 ≤ i ≤ zlen l → zlen (take (Z.to_nat i) l) = i.
Proof. unfold zlen. intros. rewrite length_take. lia. Qed.

Lemma zlen_drop l i : 0 ≤ i ≤ zlen l → zlen (drop (Z.to_nat i) l) = zlen l - i.
Proof. unfold zlen. intros. rewrite length_drop. lia. Qed.

Lemma zget_Ret l i x : zget l i = Ret x ↔ 0 ≤ i ∧ l !! Z.to_nat i = Some x.
Proof.
  unfold zget. destruct (Z.ltb_spec i 0); [naive_solver lia|].
  destruct (l !! Z.to_nat i); naive_solver.
Qed.

Lemma zget_Panic l i : zget l i = Panic ↔ i < 0 ∨ zlen l ≤ i.
Proof.
  unfold zget, zlen. destruct (Z.ltb_spec i 0); [naive_solver lia|].
  destruct (l !! Z.to_nat i) eqn:E.
  - apply lookup_lt_Some in E. split; [done|lia].
  - apply lookup_ge_None in E. split; [lia|done].
Qed.

Lemma zget_in_range l i : 0 ≤ i < zlen l → ∃ x, zget l i = Ret x.
Proof.
  intros H. destruct (zget l i) eqn:E; [by eexists|].
  apply zget_Panic in E. lia.
Qed.

Lemma slice_from_Ret l i : 0 ≤ i ≤ zlen l → slice_from l i = Ret (drop (Z.to_nat i) l).
Proof.
  unfold slice_from. intros. destruct (Z.ltb_spec i 0); [lia|].
  destruct (Z.ltb_spec (zlen l) i); [lia|done].
Qed.

Lemma slice_to_Ret l i : 0 ≤ i ≤ zlen l → slice_to l i = Ret (take (Z.to_nat i) l).
Proof.
  unfold slice_to. intros. destruct (Z.ltb_spec i 0); [lia|].
  destruct (Z.ltb_spec (zlen l) i); [lia|done].
Qed.

Lemma slice_from_Panic l i : slice_from l i = Panic ↔ i < 0 ∨ zlen l < i.
Proof.
  unfold slice_from. destruct (Z.ltb_spec i 0); [naive_solver|].
  destruct (Z.ltb_spec (zlen l) i); simpl; naive_solver lia.
Qed.
End slices.

(** ** Errors of the program *)

Inductive error : Type :=
  | ErrNilStorage
  | ErrNilLogger
  | ErrNodeDegraded
  | ErrSnapshotBeyondLog (index last : Z)
  | ErrStorage (msg : string).

#[export] Instance error_eq_dec : EqDecision error.
Proof. solve_decision. Defined.

Inductive result (A : Type) : Type :=
  | Val (a : A)
  | Err (e : error).
Arguments Val {A} a.
Arguments Err {A} e.

(** ** Maps with Go's zero-value reads *)

(** [m[k]] on a Go map: the zero value for an absent key. *)
Definition map_get `{Countable K} {V} (zero : V) (k : K) (m : gmap K V) : V :=
  default zero (m !! k).

Lemma map_get_insert `{Countable K} {V} (z v : V) (k : K) m :
  map_get z k (<[k:=v]> m) = v.
Proof. unfold map_get. by rewrite lookup_insert_eq. Qed.

Lemma map_get_insert_ne `{Countable K} {V} (z v : V) (k k' : K) m :
  k ≠ k' → map_get z k' (<[k:=v]> m) = map_get z k' m.
Proof. intros. unfold map_get. by rewrite lookup_insert_ne. Qed.

(** ** Hint database of the development *)

Create HintDb raft.
#[export] Hint Resolve zlen_nonneg i64_range : raft.
#[export] Hint Rewrite @zlen_nil @zlen_cons @zlen_app @map_get_insert : raft.

(** [split_ifs] case-splits every [if] and [match] of the hypotheses and the
    goal, turning the code's tests into propositions. *)
Ltac split_ifs := repeat (case_match; simplify_eq/=); zbool.
