(* ===== verification/Types.v ===== *)
(** * Types: the data of the Raft package

    The roles, log entries, RPC requests and responses, hard state and
    snapshots of [internal/consensus/raft/types.go], the persistent state of
    [storage.go] and the apply message of [internal/consensus/consensus.go].
    [[]byte] payloads are [list Byte.byte]; Go's [int64] fields are [Z] (the
    wrap-around is written out at the operations); an empty string is Go's
    zero string. *)

From Stdlib Require Import Strings.Byte.
From S2P Require Import Prelude.
Open Scope Z_scope.

Notation bytes := (list byte).

#[export] Instance byte_eq_dec : EqDecision byte := Byte.byte_eq_dec.

Inductive Role : Type := Follower | Candidate | Leader.

#[export] Instance Role_eq_dec : EqDecision Role.
Proof. solve_decision. Defined.

Definition role_eqb (a b : Role) : bool := bool_decide (a = b).

Inductive NodeStatus : Type := NodeStatusHealthy | NodeStatusDegraded.

#[export] Instance NodeStatus_eq_dec : EqDecision NodeStatus.
Proof. solve_decision. Defined.

(** [EntryType] is a [uint8]; [EntryCommand] is its only named value. *)
Definition EntryCommand : Z := 0.

Record ClusterConfig : Type := mkClusterConfig { Members : list string }.

Module LogEntry.
Record t : Type := mk { Term : Z; Type_ : Z; Command : bytes }.
End LogEntry.
Notation LogEntry := LogEntry.t.

Module AppendEntriesRequest.
Record t : Type := mk {
  Term : Z;
  LeaderID : string;
  PrevLogIndex : Z;
  PrevLogTerm : Z;
  Entries : list LogEntry;
  LeaderCommit : Z }.
End AppendEntriesRequest.
Notation AppendEntriesRequest := AppendEntriesRequest.t.

Module AppendEntriesResponse.
Record t : Type := mk {
  Term : Z;
  Success : bool;
  ConflictTerm : Z;
  ConflictIndex : Z }.
End AppendEntriesResponse.
Notation AppendEntriesResponse := AppendEntriesResponse.t.

Module HardState.
Record t : Type := mk {
  CurrentTerm : Z;
  VotedFor : string;
  CommitIndex : Z;
  Config : ClusterConfig }.
End HardState.
Notation HardState := HardState.t.

Module RequestVoteRequest.
Record t : Type := mk {
  Term : Z;
  CandidateID : string;
  LastLogIndex : Z;
  LastLogTerm : Z }.
End RequestVoteRequest.
Notation RequestVoteRequest := RequestVoteRequest.t.

Module RequestVoteResponse.
Record t : Type := mk { Term : Z; VoteGranted : bool }.
End RequestVoteResponse.
Notation RequestVoteResponse := RequestVoteResponse.t.

Module Snapshot.
Record t : Type := mk {
  LastIncludedIndex : Z;
  LastIncludedTerm : Z;
  Config : ClusterConfig;
  Data : bytes }.
End Snapshot.
Notation Snapshot := Snapshot.t.

Module InstallSnapshotRequest.
Record t : Type := mk {
  Term : Z;
  LeaderID : string;
  LastIncludedIndex : Z;
  LastIncludedTerm : Z;
  Config : ClusterConfig;
  Data : bytes }.
End InstallSnapshotRequest.
Notation InstallSnapshotRequest := InstallSnapshotRequest.t.

Module InstallSnapshotResponse.
Record t : Type := mk { Term : Z }.
End InstallSnapshotResponse.
Notation InstallSnapshotResponse := InstallSnapshotResponse.t.

(** [PersistentState] of [storage.go]: what [Storage.Load] returns. *)
Module PersistentState.
Record t : Type := mk {
  Hard : HardState;
  LogBase : Z;
  Snap : option Snapshot;
  Log : list LogEntry }.
End PersistentState.
Notation PersistentState := PersistentState.t.

(** [ApplyMsg] of [internal/consensus/consensus.go]. *)
Module ApplyMsg.
Record t : Type := mk {
  CommandValid : bool;
  Command : bytes;
  CommandIndex : Z;
  SnapshotValid : bool;
  Snapshot : bytes;
  SnapshotIndex : Z }.

(** The two literals the apply loop builds; the fields it does not name
    are Go's zero values. *)
Definition of_command (cmd : bytes) (idx : Z) : t := mk true cmd idx false [] 0.
Definition of_snapshot (data : bytes) (idx : Z) : t := mk false [] 0 true data idx.
End ApplyMsg.
Notation ApplyMsg := ApplyMsg.t.

#[export] Instance LogEntry_eq_dec : EqDecision LogEntry.
Proof. solve_decision. Defined.
#[export] Instance RequestVoteRequest_eq_dec : EqDecision RequestVoteRequest.
Proof. solve_decision. Defined.
#[export] Instance RequestVoteResponse_eq_dec : EqDecision RequestVoteResponse.
Proof. solve_decision. Defined.

(** [cloneLogEntries] of [node.go]: a deep copy, the identity on values
    ([nil] for an empty slice, which is the same list). *)
Definition cloneLogEntries (src : list LogEntry) : list LogEntry :=
  if bool_decide (src = []) then [] else
  (λ e, LogEntry.mk (LogEntry.Term e) (LogEntry.Type_ e) (LogEntry.Command e)) <$> src.

#[global] Arguments cloneLogEntries : simpl never.

Lemma cloneLogEntries_id src : cloneLogEntries src = src.
Proof.
  unfold cloneLogEntries. case_bool_decide; [done|].
  transitivity (id <$> src); [|apply list_fmap_id].
  apply list_fmap_ext. intros ? [] ?. done.
Qed.
#[export] Hint Rewrite cloneLogEntries_id : raft.
