(* ===== verification/Storage.v ===== *)
(** * Storage: the persistence interface and its in-memory implementation

    [Storage] is the Go interface of [internal/consensus/raft/storage.go];
    its methods take the storage and return the new one with Go's [error].
    [StorageContract] is what the node relies on: the abstract contents of a
    storage is a [PersistentState], a method that returns no error performs
    the documented update of the contents, and a method that returns an error
    leaves the contents either as they were or updated (a failed write may or
    may not have reached the disk).  [InMemoryStorage] ([storage_memory.go])
    implements it, and so does [FaultyStorage], which wraps any storage with
    a script of write failures of both kinds. *)

From S2P Require Import Prelude Types.
Open Scope Z_scope.

(** ** The interface *)

Class Storage (S : Type) := {
  Load : S → result PersistentState;
  SaveHardState : HardState → S → S * option error;
  AppendLog : list LogEntry → S → S * option error;
  TruncateLog : Z → S → S * option error;
  SetLog : Z → list LogEntry → S → S * option error;
  SaveSnapshot : Snapshot → S → S * option error }.

(** ** The abstract contents and its updates *)

Module Disk.
Import PersistentState.

Definition save_hard (hs : HardState) (d : PersistentState) : PersistentState :=
  mk hs (LogBase d) (Snap d) (Log d).
Definition append_log (es : list LogEntry) (d : PersistentState) : PersistentState :=
  mk (Hard d) (LogBase d) (Snap d) (Log d ++ es).
(** Keeps the first [keepN] entries, [keepN] clamped to the log. *)
Definition truncate_log (keepN : Z) (d : PersistentState) : PersistentState :=
  mk (Hard d) (LogBase d) (Snap d) (take (Z.to_nat keepN) (Log d)).
Definition set_log (base : Z) (es : list LogEntry) (d : PersistentState) : PersistentState :=
  mk (Hard d) base (Snap d) es.
Definition save_snapshot (s : Snapshot) (d : PersistentState) : PersistentState :=
  mk (Hard d) (LogBase d) (Some s) (Log d).
Definition empty : PersistentState :=
  mk (HardState.mk 0 "" 0 (mkClusterConfig [])) 0 None [].
End Disk.

(** [writes c op upd]: the call [op] performs [upd] on the contents, or fails
    having performed it or not. *)
Definition writes {S} (contents : S → PersistentState)
    (op : S → S * option error) (upd : PersistentState → PersistentState) : Prop :=
  ∀ s, match op s with
       | (s', None) => contents s' = upd (contents s)
       | (s', Some _) => contents s' = contents s ∨ contents s' = upd (contents s)
       end.

Class StorageContract (S : Type) `{Storage S} := {
  contents : S → PersistentState;
  contract_load s : Load s = Val (contents s);
  contract_save_hard hs : writes contents (SaveHardState hs) (Disk.save_hard hs);
  contract_append es : writes contents (AppendLog es) (Disk.append_log es);
  contract_truncate k : writes contents (TruncateLog k) (Disk.truncate_log k);
  contract_set_log b es : writes contents (SetLog b es) (Disk.set_log b es);
  contract_save_snapshot sn : writes contents (SaveSnapshot sn) (Disk.save_snapshot sn) }.

(** ** InMemoryStorage *)

Module InMemoryStorage.
Record t : Type := mk {
  hard : HardState;
  logBase : Z;
  log : list LogEntry;
  snap : option Snapshot }.

Definition NewInMemoryStorage : t :=
  mk (HardState.mk 0 "" 0 (mkClusterConfig [])) 0 [] None.

Definition Load (s : t) : result PersistentState :=
  let snap :=
    match snap s with
    | Some sn => Some (Snapshot.mk (Snapshot.LastIncludedIndex sn)
                         (Snapshot.LastIncludedTerm sn) (Snapshot.Config sn)
                         ([] ++ Snapshot.Data sn))
    | None => None
    end in
  Val (PersistentState.mk (hard s) (logBase s) snap (cloneLogEntries (log s))).

Definition SaveHardState (state : HardState) (s : t) : t * option error :=
  (mk state (logBase s) (log s) (snap s), None).

Definition AppendLog (entries : list LogEntry) (s : t) : t * option error :=
  if zlen entries =? 0 then (s, None) else
  (mk (hard s) (logBase s) (log s ++ cloneLogEntries entries) (snap s), None).

Definition TruncateLog (keepN : Z) (s : t) : t * option error :=
  let keepN := if keepN <? 0 then 0 else keepN in
  let keepN := if zlen (log s) <? keepN then zlen (log s) else keepN in
  (mk (hard s) (logBase s) (take (Z.to_nat keepN) (log s)) (snap s), None).

Definition SetLog (baseIndex : Z) (entries : list LogEntry) (s : t) : t * option error :=
  (mk (hard s) baseIndex (cloneLogEntries entries) (snap s), None).

Definition SaveSnapshot (sn : Snapshot) (s : t) : t * option error :=
  let cp := Snapshot.mk (Snapshot.LastIncludedIndex sn)
              (Snapshot.LastIncludedTerm sn) (Snapshot.Config sn)
              ([] ++ Snapshot.Data sn) in
  (mk (hard s) (logBase s) (log s) (Some cp), None).
End InMemoryStorage.

#[export] Instance InMemoryStorage_storage : Storage InMemoryStorage.t := {
  Load := InMemoryStorage.Load;
  SaveHardState := InMemoryStorage.SaveHardState;
  AppendLog := InMemoryStorage.AppendLog;
  TruncateLog := InMemoryStorage.TruncateLog;
  SetLog := InMemoryStorage.SetLog;
  SaveSnapshot := InMemoryStorage.SaveSnapshot }.

Definition memory_contents (s : InMemoryStorage.t) : PersistentState :=
  PersistentState.mk (InMemoryStorage.hard s) (InMemoryStorage.logBase s)
    (InMemoryStorage.snap s) (InMemoryStorage.log s).

Lemma snapshot_copy (sn : Snapshot) :
  Snapshot.mk (Snapshot.LastIncludedIndex sn) (Snapshot.LastIncludedTerm sn)
    (Snapshot.Config sn) ([] ++ Snapshot.Data sn) = sn.
Proof. by destruct sn. Qed.

Lemma memory_load s : InMemoryStorage.Load s = Val (memory_contents s).
Proof.
  unfold InMemoryStorage.Load, memory_contents. rewrite cloneLogEntries_id.
  destruct (InMemoryStorage.snap s) as [sn|]; [|done].
  by rewrite snapshot_copy.
Qed.

Lemma memory_append es :
  writes memory_contents (InMemoryStorage.AppendLog es) (Disk.append_log es).
Proof.
  intros s. unfold InMemoryStorage.AppendLog, memory_contents, Disk.append_log.
  destruct (Z.eqb_spec (zlen es) 0) as [E|_]; simpl; [|by rewrite cloneLogEntries_id].
  assert (es = []) as -> by (destruct es; unfold zlen in E; simpl in E; [done|lia]).
  by rewrite app_nil_r.
Qed.

Lemma memory_truncate k :
  writes memory_contents (InMemoryStorage.TruncateLog k) (Disk.truncate_log k).
Proof.
  intros s. unfold InMemoryStorage.TruncateLog, memory_contents, Disk.truncate_log; simpl.
  f_equal. set (l := InMemoryStorage.log s).
  destruct (Z.ltb_spec k 0).
  - replace (Z.to_nat k) with 0%nat by lia.
    destruct (Z.ltb_spec (zlen l) 0); [pose proof (zlen_nonneg l); lia|done].
  - destruct (Z.ltb_spec (zlen l) k); [|done].
    unfold zlen in *. rewrite Nat2Z.id, !take_ge; [done|lia..].
Qed.

Lemma memory_set_log b es :
  writes memory_contents (InMemoryStorage.SetLog b es) (Disk.set_log b es).
Proof.
  intros s. unfold InMemoryStorage.SetLog, memory_contents, Disk.set_log; simpl.
  by rewrite cloneLogEntries_id.
Qed.

Lemma memory_save_snapshot sn :
  writes memory_contents (InMemoryStorage.SaveSnapshot sn) (Disk.save_snapshot sn).
Proof.
  intros s. unfold InMemoryStorage.SaveSnapshot. by rewrite snapshot_copy.
Qed.

#[export] Instance InMemoryStorage_contract : StorageContract InMemoryStorage.t.
Proof.
  refine {| contents := memory_contents |}.
  - apply memory_load.
  - done.
  - apply memory_append.
  - apply memory_truncate.
  - apply memory_set_log.
  - apply memory_save_snapshot.
Defined.

(** ** A storage whose writes may fail

    [script] says, call by call, whether the next write succeeds, fails
    without effect, or fails after taking effect; an exhausted script means
    success.  It is an adversary for the theorems about storage errors. *)

Inductive fault : Type := WriteOk | FailBefore | FailAfter.

Record FaultyStorage (S : Type) : Type := mkFaulty { inner : S; script : list fault }.
Arguments mkFaulty {S} inner script.
Arguments inner {S} f.
Arguments script {S} f.

Definition faulty_write {S} (op : S → S * option error) (f : FaultyStorage S)
    : FaultyStorage S * option error :=
  let '(s', e) := op (inner f) in
  match script f with
  | [] => (mkFaulty s' [], e)
  | WriteOk :: k => (mkFaulty s' k, e)
  | FailBefore :: k => (mkFaulty (inner f) k, Some (ErrStorage "injected"))
  | FailAfter :: k => (mkFaulty s' k, Some (ErrStorage "injected"))
  end.

#[export] Instance FaultyStorage_storage {S} `{Storage S} : Storage (FaultyStorage S) := {
  Load f := Load (inner f);
  SaveHardState hs := faulty_write (SaveHardState hs);
  AppendLog es := faulty_write (AppendLog es);
  TruncateLog k := faulty_write (TruncateLog k);
  SetLog b es := faulty_write (SetLog b es);
  SaveSnapshot sn := faulty_write (SaveSnapshot sn) }.

Lemma faulty_write_writes {S} (c : S → PersistentState) op upd :
  writes c op upd → writes (λ f, c (inner f)) (faulty_write op) upd.
Proof.
  intros Hw f. unfold faulty_write. specialize (Hw (inner f)).
  destruct (op (inner f)) as [s' e]. destruct e, (script f) as [|[] ?]; naive_solver.
Qed.

#[export] Instance FaultyStorage_contract {S} `{StorageContract S} :
  StorageContract (FaultyStorage S).
Proof.
  refine {| contents f := contents (inner f) |}.
  - intros f. apply (contract_load (inner f)).
  - intros. apply faulty_write_writes, contract_save_hard.
  - intros. apply faulty_write_writes, contract_append.
  - intros. apply faulty_write_writes, contract_truncate.
  - intros. apply faulty_write_writes, contract_set_log.
  - intros. apply faulty_write_writes, contract_save_snapshot.
Defined.
