(* ===== verification/Timing.v ===== *)
(** * Timing: the latency bookkeeping of [metrics_timing.go]

    [startSeenAt] and [commitSeenAt] map log indices to the times at which a
    command was started and seen committed.  Times are nanoseconds, [0] is
    Go's zero time.  A function that reports durations to the metrics sink
    returns them, oldest index first, next to the new map. *)

From S2P Require Import Prelude.
Open Scope Z_scope.

(** [metrics_timing.go: recordStartSeenLocked].  The maps are never nil on a
    node built by [NewNode], so the [make] of the code is the empty map. *)
Definition recordStartSeen (index now : Z) (m : gmap Z Z) : gmap Z Z :=
  if index <=? 0 then m else
  match m !! index with
  | Some _ => m
  | None => <[index := now]> m
  end.

(** [metrics_timing.go: observeStartToCommitRangeLocked]. *)
Definition observe_one (now : Z) (acc : list Z * gmap Z Z) (idx : Z) : list Z * gmap Z Z :=
  let '(obs, m) := acc in
  match m !! idx with
  | Some ts =>
      (if negb (ts =? 0) && negb (now <? ts) then obs ++ [now - ts] else obs,
       delete idx m)
  | None => (obs, m)
  end.

Definition observeStartToCommitRange (prevCommit newCommit now : Z) (m : gmap Z Z)
    : list Z * gmap Z Z :=
  if (newCommit <=? prevCommit) || bool_decide (m = ∅) then ([], m) else
  foldl (observe_one now) ([], m) (seqZ (prevCommit + 1) (newCommit - prevCommit)).

(** [metrics_timing.go: recordCommitSeenRangeLocked]. *)
Definition recordCommitSeenRange (prevCommit newCommit now : Z) (m : gmap Z Z) : gmap Z Z :=
  if newCommit <=? prevCommit then m else
  foldl (λ m idx, match m !! idx with Some _ => m | None => <[idx := now]> m end)
    m (seqZ (prevCommit + 1) (newCommit - prevCommit)).

(** [metrics_timing.go: observeCommitToApplyLocked]: the observed duration,
    if any, and the two maps. *)
Definition observeCommitToApply (appliedIndex now : Z) (commitSeenAt startSeenAt : gmap Z Z)
    : option Z * gmap Z Z * gmap Z Z :=
  if (appliedIndex <=? 0) || bool_decide (commitSeenAt = ∅)
  then (None, commitSeenAt, startSeenAt) else
  let obs :=
    match commitSeenAt !! appliedIndex with
    | Some ts => if negb (ts =? 0) && negb (now <? ts) then Some (now - ts) else None
    | None => None
    end in
  (obs,
   filter (λ '(idx, _), ¬ idx ≤ appliedIndex) commitSeenAt,
   filter (λ '(idx, _), ¬ idx ≤ appliedIndex) startSeenAt).

Section timing.
Implicit Types (m : gmap Z Z) (idx : Z).

Lemma foldl_observe_lookup now l acc idx :
  (foldl (observe_one now) acc l).2 !! idx =
    if bool_decide (idx ∈ l) then None else acc.2 !! idx.
Proof.
  revert acc. induction l as [|i l IH]; intros [obs m]; simpl; [done|].
  rewrite IH. destruct (m !! i) eqn:E; simpl; repeat case_bool_decide;
    try set_solver.
  - assert (idx = i) as -> by set_solver. by rewrite lookup_delete_eq.
  - by rewrite lookup_delete_ne by set_solver.
Qed.

Lemma elem_of_commit_range a b idx :
  idx ∈ seqZ (a + 1) (b - a) ↔ a < idx ≤ b.
Proof. rewrite elem_of_seqZ. lia. Qed.

Lemma foldl_record_lookup now l m idx :
  foldl (λ m i, match m !! i with Some _ => m | None => <[i := now]> m end) m l !! idx =
    match m !! idx with
    | Some ts => Some ts
    | None => if bool_decide (idx ∈ l) then Some now else None
    end.
Proof.
  revert m. induction l as [|i l IH]; intros m; simpl.
  { by destruct (m !! idx). }
  rewrite IH. destruct (m !! i) eqn:E; [|destruct (decide (idx = i)) as [->|]].
  - destruct (m !! idx) eqn:?; [done|]. repeat case_bool_decide; set_solver.
  - rewrite lookup_insert_eq, E, bool_decide_true; [done|set_solver].
  - rewrite lookup_insert_ne by done. destruct (m !! idx); [done|].
    repeat case_bool_decide; set_solver.
Qed.
End timing.
