(* ===== verification/Node.v ===== *)
(** * Node: the state of a Raft replica, its construction and its helpers

    The [Node] record of [internal/consensus/raft/node.go], [NewNode], the
    log accessors, the persistence helpers and the notification channels.

    Correspondence with the Go struct: [peers] is the key set of the peer map
    (the clients are the network, see the Cluster file); the three one-slot
    notification channels are booleans (the slot is full); [storage] is [None]
    for a nil interface; maps read Go's zero value for an absent key
    ([map_get]).  The mutex, the wait group, the cancel function, the logger,
    the tracer, the metrics sink and the timer factories carry no protocol
    state and are not fields; [applyCh] is in the state of the apply loop. *)

From S2P Require Import Prelude Types Storage Timing.
Open Scope Z_scope.

(** ** The Node struct *)

Record Node {S : Type} : Type := mkNode {
  id : string;
  peers : gset string;
  storage : option S;
  role : Role;
  currentTerm : Z;
  votedFor : string;
  degraded : bool;
  log : list LogEntry;
  snapshotIndex : Z;
  snapshotTerm : Z;
  snapshot : option Snapshot;
  pendingSnapshot : option Snapshot;
  commitIndex : Z;
  lastApplied : Z;
  lastAppliedAt : Z;
  startSeenAt : gmap Z Z;
  commitSeenAt : gmap Z Z;
  config : ClusterConfig;
  nextIndex : gmap string Z;
  matchIndex : gmap string Z;
  replicateInFlight : gmap string bool;
  replicatePending : gmap string bool;
  electionTimeoutResetCh : bool;
  applyNotifyCh : bool;
  replicateNotifyCh : bool }.
Arguments Node S : clear implicits.
Arguments mkNode {S}.

Section setters.
Context {S : Type}.
Implicit Types n : Node S.
#[export] Instance set_storage : SetField (@storage S) := λ f n,
  {| id := id n; peers := peers n; storage := f (storage n); role := role n;
     currentTerm := currentTerm n; votedFor := votedFor n; degraded := degraded n; log
     := log n; snapshotIndex := snapshotIndex n; snapshotTerm := snapshotTerm n;
     snapshot := snapshot n; pendingSnapshot := pendingSnapshot n; commitIndex :=
     commitIndex n; lastApplied := lastApplied n; lastAppliedAt := lastAppliedAt n;
     startSeenAt := startSeenAt n; commitSeenAt := commitSeenAt n; config := config n;
     nextIndex := nextIndex n; matchIndex := matchIndex n; replicateInFlight :=
     replicateInFlight n; replicatePending := replicatePending n;
     electionTimeoutResetCh := electionTimeoutResetCh n; applyNotifyCh :=
     applyNotifyCh n; replicateNotifyCh := replicateNotifyCh n |}.
#[export] Instance set_role : SetField (@role S) := λ f n,
  {| id := id n; peers := peers n; storage := storage n; role := f (role n);
     currentTerm := currentTerm n; votedFor := votedFor n; degraded := degraded n; log
     := log n; snapshotIndex := snapshotIndex n; snapshotTerm := snapshotTerm n;
     snapshot := snapshot n; pendingSnapshot := pendingSnapshot n; commitIndex :=
     commitIndex n; lastApplied := lastApplied n; lastAppliedAt := lastAppliedAt n;
     startSeenAt := startSeenAt n; commitSeenAt := commitSeenAt n; config := config n;
     nextIndex := nextIndex n; matchIndex := matchIndex n; replicateInFlight :=
     replicateInFlight n; replicatePending := replicatePending n;
     electionTimeoutResetCh := electionTimeoutResetCh n; applyNotifyCh :=
     applyNotifyCh n; replicateNotifyCh := replicateNotifyCh n |}.
#[export] Instance set_currentTerm : SetField (@currentTerm S) := λ f n,
  {| id := id n; peers := peers n; storage := storage n; role := role n; currentTerm
     := f (currentTerm n); votedFor := votedFor n; degraded := degraded n; log := log
     n; snapshotIndex := snapshotIndex n; snapshotTerm := snapshotTerm n; snapshot :=
     snapshot n; pendingSnapshot := pendingSnapshot n; commitIndex := commitIndex n;
     lastApplied := lastApplied n; lastAppliedAt := lastAppliedAt n; startSeenAt :=
     startSeenAt n; commitSeenAt := commitSeenAt n; config := config n; nextIndex :=
     nextIndex n; matchIndex := matchIndex n; replicateInFlight := replicateInFlight
     n; replicatePending := replicatePending n; electionTimeoutResetCh :=
     electionTimeoutResetCh n; applyNotifyCh := applyNotifyCh n; replicateNotifyCh :=
     replicateNotifyCh n |}.
#[export] Instance set_votedFor : SetField (@votedFor S) := λ f n,
  {| id := id n; peers := peers n; storage := storage n; role := role n; currentTerm
     := currentTerm n; votedFor := f (votedFor n); degraded := degraded n; log := log
     n; snapshotIndex := snapshotIndex n; snapshotTerm := snapshotTerm n; snapshot :=
     snapshot n; pendingSnapshot := pendingSnapshot n; commitIndex := commitIndex n;
     lastApplied := lastApplied n; lastAppliedAt := lastAppliedAt n; startSeenAt :=
     startSeenAt n; commitSeenAt := commitSeenAt n; config := config n; nextIndex :=
     nextIndex n; matchIndex := matchIndex n; replicateInFlight := replicateInFlight
     n; replicatePending := replicatePending n; electionTimeoutResetCh :=
     electionTimeoutResetCh n; applyNotifyCh := applyNotifyCh n; replicateNotifyCh :=
     replicateNotifyCh n |}.
#[export] Instance set_degraded : SetField (@degraded S) := λ f n,
  {| id := id n; peers := peers n; storage := storage n; role := role n; currentTerm
     := currentTerm n; votedFor := votedFor n; degraded := f (degraded n); log := log
     n; snapshotIndex := snapshotIndex n; snapshotTerm := snapshotTerm n; snapshot :=
     snapshot n; pendingSnapshot := pendingSnapshot n; commitIndex := commitIndex n;
     lastApplied := lastApplied n; lastAppliedAt := lastAppliedAt n; startSeenAt :=
     startSeenAt n; commitSeenAt := commitSeenAt n; config := config n; nextIndex :=
     nextIndex n; matchIndex := matchIndex n; replicateInFlight := replicateInFlight
     n; replicatePending := replicatePending n; electionTimeoutResetCh :=
     electionTimeoutResetCh n; applyNotifyCh := applyNotifyCh n; replicateNotifyCh :=
     replicateNotifyCh n |}.
#[export] Instance set_log : SetField (@log S) := λ f n,
  {| id := id n; peers := peers n; storage := storage n; role := role n; currentTerm
     := currentTerm n; votedFor := votedFor n; degraded := degraded n; log := f (log
     n); snapshotIndex := snapshotIndex n; snapshotTerm := snapshotTerm n; snapshot :=
     snapshot n; pendingSnapshot := pendingSnapshot n; commitIndex := commitIndex n;
     lastApplied := lastApplied n; lastAppliedAt := lastAppliedAt n; startSeenAt :=
     startSeenAt n; commitSeenAt := commitSeenAt n; config := config n; nextIndex :=
     nextIndex n; matchIndex := matchIndex n; replicateInFlight := replicateInFlight
     n; replicatePending := replicatePending n; electionTimeoutResetCh :=
     electionTimeoutResetCh n; applyNotifyCh := applyNotifyCh n; replicateNotifyCh :=
     replicateNotifyCh n |}.
#[export] Instance set_snapshotIndex : SetField (@snapshotIndex S) := λ f n,
  {| id := id n; peers := peers n; storage := storage n; role := role n; currentTerm
     := currentTerm n; votedFor := votedFor n; degraded := degraded n; log := log n;
     snapshotIndex := f (snapshotIndex n); snapshotTerm := snapshotTerm n; snapshot :=
     snapshot n; pendingSnapshot := pendingSnapshot n; commitIndex := commitIndex n;
     lastApplied := lastApplied n; lastAppliedAt := lastAppliedAt n; startSeenAt :=
     startSeenAt n; commitSeenAt := commitSeenAt n; config := config n; nextIndex :=
     nextIndex n; matchIndex := matchIndex n; replicateInFlight := replicateInFlight
     n; replicatePending := replicatePending n; electionTimeoutResetCh :=
     electionTimeoutResetCh n; applyNotifyCh := applyNotifyCh n; replicateNotifyCh :=
     replicateNotifyCh n |}.
#[export] Instance set_snapshotTerm : SetField (@snapshotTerm S) := λ f n,
  {| id := id n; peers := peers n; storage := storage n; role := role n; currentTerm
     := currentTerm n; votedFor := votedFor n; degraded := degraded n; log := log n;
     snapshotIndex := snapshotIndex n; snapshotTerm := f (snapshotTerm n); snapshot :=
     snapshot n; pendingSnapshot := pendingSnapshot n; commitIndex := commitIndex n;
     lastApplied := lastApplied n; lastAppliedAt := lastAppliedAt n; startSeenAt :=
     startSeenAt n; commitSeenAt := commitSeenAt n; config := config n; nextIndex :=
     nextIndex n; matchIndex := matchIndex n; replicateInFlight := replicateInFlight
     n; replicatePending := replicatePending n; electionTimeoutResetCh :=
     electionTimeoutResetCh n; applyNotifyCh := applyNotifyCh n; replicateNotifyCh :=
     replicateNotifyCh n |}.
#[export] Instance set_snapshot : SetField (@snapshot S) := λ f n,
  {| id := id n; peers := peers n; storage := storage n; role := role n; currentTerm
     := currentTerm n; votedFor := votedFor n; degraded := degraded n; log := log n;
     snapshotIndex := snapshotIndex n; snapshotTerm := snapshotTerm n; snapshot := f
     (snapshot n); pendingSnapshot := pendingSnapshot n; commitIndex := commitIndex n;
     lastApplied := lastApplied n; lastAppliedAt := lastAppliedAt n; startSeenAt :=
     startSeenAt n; commitSeenAt := commitSeenAt n; config := config n; nextIndex :=
     nextIndex n; matchIndex := matchIndex n; replicateInFlight := replicateInFlight
     n; replicatePending := replicatePending n; electionTimeoutResetCh :=
     electionTimeoutResetCh n; applyNotifyCh := applyNotifyCh n; replicateNotifyCh :=
     replicateNotifyCh n |}.
#[export] Instance set_pendingSnapshot : SetField (@pendingSnapshot S) := λ f n,
  {| id := id n; peers := peers n; storage := storage n; role := role n; currentTerm
     := currentTerm n; votedFor := votedFor n; degraded := degraded n; log := log n;
     snapshotIndex := snapshotIndex n; snapshotTerm := snapshotTerm n; snapshot :=
     snapshot n; pendingSnapshot := f (pendingSnapshot n); commitIndex := commitIndex
     n; lastApplied := lastApplied n; lastAppliedAt := lastAppliedAt n; startSeenAt :=
     startSeenAt n; commitSeenAt := commitSeenAt n; config := config n; nextIndex :=
     nextIndex n; matchIndex := matchIndex n; replicateInFlight := replicateInFlight
     n; replicatePending := replicatePending n; electionTimeoutResetCh :=
     electionTimeoutResetCh n; applyNotifyCh := applyNotifyCh n; replicateNotifyCh :=
     replicateNotifyCh n |}.
#[export] Instance set_commitIndex : SetField (@commitIndex S) := λ f n,
  {| id := id n; peers := peers n; storage := storage n; role := role n; currentTerm
     := currentTerm n; votedFor := votedFor n; degraded := degraded n; log := log n;
     snapshotIndex := snapshotIndex n; snapshotTerm := snapshotTerm n; snapshot :=
     snapshot n; pendingSnapshot := pendingSnapshot n; commitIndex := f (commitIndex
     n); lastApplied := lastApplied n; lastAppliedAt := lastAppliedAt n; startSeenAt
     := startSeenAt n; commitSeenAt := commitSeenAt n; config := config n; nextIndex
     := nextIndex n; matchIndex := matchIndex n; replicateInFlight :=
     replicateInFlight n; replicatePending := replicatePending n;
     electionTimeoutResetCh := electionTimeoutResetCh n; applyNotifyCh :=
     applyNotifyCh n; replicateNotifyCh := replicateNotifyCh n |}.
#[export] Instance set_lastApplied : SetField (@lastApplied S) := λ f n,
  {| id := id n; peers := peers n; storage := storage n; role := role n; currentTerm
     := currentTerm n; votedFor := votedFor n; degraded := degraded n; log := log n;
     snapshotIndex := snapshotIndex n; snapshotTerm := snapshotTerm n; snapshot :=
     snapshot n; pendingSnapshot := pendingSnapshot n; commitIndex := commitIndex n;
     lastApplied := f (lastApplied n); lastAppliedAt := lastAppliedAt n; startSeenAt
     := startSeenAt n; commitSeenAt := commitSeenAt n; config := config n; nextIndex
     := nextIndex n; matchIndex := matchIndex n; replicateInFlight :=
     replicateInFlight n; replicatePending := replicatePending n;
     electionTimeoutResetCh := electionTimeoutResetCh n; applyNotifyCh :=
     applyNotifyCh n; replicateNotifyCh := replicateNotifyCh n |}.
#[export] Instance set_lastAppliedAt : SetField (@lastAppliedAt S) := λ f n,
  {| id := id n; peers := peers n; storage := storage n; role := role n; currentTerm
     := currentTerm n; votedFor := votedFor n; degraded := degraded n; log := log n;
     snapshotIndex := snapshotIndex n; snapshotTerm := snapshotTerm n; snapshot :=
     snapshot n; pendingSnapshot := pendingSnapshot n; commitIndex := commitIndex n;
     lastApplied := lastApplied n; lastAppliedAt := f (lastAppliedAt n); startSeenAt
     := startSeenAt n; commitSeenAt := commitSeenAt n; config := config n; nextIndex
     := nextIndex n; matchIndex := matchIndex n; replicateInFlight :=
     replicateInFlight n; replicatePending := replicatePending n;
     electionTimeoutResetCh := electionTimeoutResetCh n; applyNotifyCh :=
     applyNotifyCh n; replicateNotifyCh := replicateNotifyCh n |}.
#[export] Instance set_startSeenAt : SetField (@startSeenAt S) := λ f n,
  {| id := id n; peers := peers n; storage := storage n; role := role n; currentTerm
     := currentTerm n; votedFor := votedFor n; degraded := degraded n; log := log n;
     snapshotIndex := snapshotIndex n; snapshotTerm := snapshotTerm n; snapshot :=
     snapshot n; pendingSnapshot := pendingSnapshot n; commitIndex := commitIndex n;
     lastApplied := lastApplied n; lastAppliedAt := lastAppliedAt n; startSeenAt := f
     (startSeenAt n); commitSeenAt := commitSeenAt n; config := config n; nextIndex :=
     nextIndex n; matchIndex := matchIndex n; replicateInFlight := replicateInFlight
     n; replicatePending := replicatePending n; electionTimeoutResetCh :=
     electionTimeoutResetCh n; applyNotifyCh := applyNotifyCh n; replicateNotifyCh :=
     replicateNotifyCh n |}.
#[export] Instance set_commitSeenAt : SetField (@commitSeenAt S) := λ f n,
  {| id := id n; peers := peers n; storage := storage n; role := role n; currentTerm
     := currentTerm n; votedFor := votedFor n; degraded := degraded n; log := log n;
     snapshotIndex := snapshotIndex n; snapshotTerm := snapshotTerm n; snapshot :=
     snapshot n; pendingSnapshot := pendingSnapshot n; commitIndex := commitIndex n;
     lastApplied := lastApplied n; lastAppliedAt := lastAppliedAt n; startSeenAt :=
     startSeenAt n; commitSeenAt := f (commitSeenAt n); config := config n; nextIndex
     := nextIndex n; matchIndex := matchIndex n; replicateInFlight :=
     replicateInFlight n; replicatePending := replicatePending n;
     electionTimeoutResetCh := electionTimeoutResetCh n; applyNotifyCh :=
     applyNotifyCh n; replicateNotifyCh := replicateNotifyCh n |}.
#[export] Instance set_config : SetField (@config S) := λ f n,
  {| id := id n; peers := peers n; storage := storage n; role := role n; currentTerm
     := currentTerm n; votedFor := votedFor n; degraded := degraded n; log := log n;
     snapshotIndex := snapshotIndex n; snapshotTerm := snapshotTerm n; snapshot :=
     snapshot n; pendingSnapshot := pendingSnapshot n; commitIndex := commitIndex n;
     lastApplied := lastApplied n; lastAppliedAt := lastAppliedAt n; startSeenAt :=
     startSeenAt n; commitSeenAt := commitSeenAt n; config := f (config n); nextIndex
     := nextIndex n; matchIndex := matchIndex n; replicateInFlight :=
     replicateInFlight n; replicatePending := replicatePending n;
     electionTimeoutResetCh := electionTimeoutResetCh n; applyNotifyCh :=
     applyNotifyCh n; replicateNotifyCh := replicateNotifyCh n |}.
#[export] Instance set_nextIndex : SetField (@nextIndex S) := λ f n,
  {| id := id n; peers := peers n; storage := storage n; role := role n; currentTerm
     := currentTerm n; votedFor := votedFor n; degraded := degraded n; log := log n;
     snapshotIndex := snapshotIndex n; snapshotTerm := snapshotTerm n; snapshot :=
     snapshot n; pendingSnapshot := pendingSnapshot n; commitIndex := commitIndex n;
     lastApplied := lastApplied n; lastAppliedAt := lastAppliedAt n; startSeenAt :=
     startSeenAt n; commitSeenAt := commitSeenAt n; config := config n; nextIndex := f
     (nextIndex n); matchIndex := matchIndex n; replicateInFlight := replicateInFlight
     n; replicatePending := replicatePending n; electionTimeoutResetCh :=
     electionTimeoutResetCh n; applyNotifyCh := applyNotifyCh n; replicateNotifyCh :=
     replicateNotifyCh n |}.
#[export] Instance set_matchIndex : SetField (@matchIndex S) := λ f n,
  {| id := id n; peers := peers n; storage := storage n; role := role n; currentTerm
     := currentTerm n; votedFor := votedFor n; degraded := degraded n; log := log n;
     snapshotIndex := snapshotIndex n; snapshotTerm := snapshotTerm n; snapshot :=
     snapshot n; pendingSnapshot := pendingSnapshot n; commitIndex := commitIndex n;
     lastApplied := lastApplied n; lastAppliedAt := lastAppliedAt n; startSeenAt :=
     startSeenAt n; commitSeenAt := commitSeenAt n; config := config n; nextIndex :=
     nextIndex n; matchIndex := f (matchIndex n); replicateInFlight :=
     replicateInFlight n; replicatePending := replicatePending n;
     electionTimeoutResetCh := electionTimeoutResetCh n; applyNotifyCh :=
     applyNotifyCh n; replicateNotifyCh := replicateNotifyCh n |}.
#[export] Instance set_replicateInFlight : SetField (@replicateInFlight S) := λ f n,
  {| id := id n; peers := peers n; storage := storage n; role := role n; currentTerm
     := currentTerm n; votedFor := votedFor n; degraded := degraded n; log := log n;
     snapshotIndex := snapshotIndex n; snapshotTerm := snapshotTerm n; snapshot :=
     snapshot n; pendingSnapshot := pendingSnapshot n; commitIndex := commitIndex n;
     lastApplied := lastApplied n; lastAppliedAt := lastAppliedAt n; startSeenAt :=
     startSeenAt n; commitSeenAt := commitSeenAt n; config := config n; nextIndex :=
     nextIndex n; matchIndex := matchIndex n; replicateInFlight := f
     (replicateInFlight n); replicatePending := replicatePending n;
     electionTimeoutResetCh := electionTimeoutResetCh n; applyNotifyCh :=
     applyNotifyCh n; replicateNotifyCh := replicateNotifyCh n |}.
#[export] Instance set_replicatePending : SetField (@replicatePending S) := λ f n,
  {| id := id n; peers := peers n; storage := storage n; role := role n; currentTerm
     := currentTerm n; votedFor := votedFor n; degraded := degraded n; log := log n;
     snapshotIndex := snapshotIndex n; snapshotTerm := snapshotTerm n; snapshot :=
     snapshot n; pendingSnapshot := pendingSnapshot n; commitIndex := commitIndex n;
     lastApplied := lastApplied n; lastAppliedAt := lastAppliedAt n; startSeenAt :=
     startSeenAt n; commitSeenAt := commitSeenAt n; config := config n; nextIndex :=
     nextIndex n; matchIndex := matchIndex n; replicateInFlight := replicateInFlight
     n; replicatePending := f (replicatePending n); electionTimeoutResetCh :=
     electionTimeoutResetCh n; applyNotifyCh := applyNotifyCh n; replicateNotifyCh :=
     replicateNotifyCh n |}.
#[export] Instance set_electionTimeoutResetCh : SetField (@electionTimeoutResetCh S) := λ f n,
  {| id := id n; peers := peers n; storage := storage n; role := role n; currentTerm
     := currentTerm n; votedFor := votedFor n; degraded := degraded n; log := log n;
     snapshotIndex := snapshotIndex n; snapshotTerm := snapshotTerm n; snapshot :=
     snapshot n; pendingSnapshot := pendingSnapshot n; commitIndex := commitIndex n;
     lastApplied := lastApplied n; lastAppliedAt := lastAppliedAt n; startSeenAt :=
     startSeenAt n; commitSeenAt := commitSeenAt n; config := config n; nextIndex :=
     nextIndex n; matchIndex := matchIndex n; replicateInFlight := replicateInFlight
     n; replicatePending := replicatePending n; electionTimeoutResetCh := f
     (electionTimeoutResetCh n); applyNotifyCh := applyNotifyCh n; replicateNotifyCh
     := replicateNotifyCh n |}.
#[export] Instance set_applyNotifyCh : SetField (@applyNotifyCh S) := λ f n,
  {| id := id n; peers := peers n; storage := storage n; role := role n; currentTerm
     := currentTerm n; votedFor := votedFor n; degraded := degraded n; log := log n;
     snapshotIndex := snapshotIndex n; snapshotTerm := snapshotTerm n; snapshot :=
     snapshot n; pendingSnapshot := pendingSnapshot n; commitIndex := commitIndex n;
     lastApplied := lastApplied n; lastAppliedAt := lastAppliedAt n; startSeenAt :=
     startSeenAt n; commitSeenAt := commitSeenAt n; config := config n; nextIndex :=
     nextIndex n; matchIndex := matchIndex n; replicateInFlight := replicateInFlight
     n; replicatePending := replicatePending n; electionTimeoutResetCh :=
     electionTimeoutResetCh n; applyNotifyCh := f (applyNotifyCh n); replicateNotifyCh
     := replicateNotifyCh n |}.
#[export] Instance set_replicateNotifyCh : SetField (@replicateNotifyCh S) := λ f n,
  {| id := id n; peers := peers n; storage := storage n; role := role n; currentTerm
     := currentTerm n; votedFor := votedFor n; degraded := degraded n; log := log n;
     snapshotIndex := snapshotIndex n; snapshotTerm := snapshotTerm n; snapshot :=
     snapshot n; pendingSnapshot := pendingSnapshot n; commitIndex := commitIndex n;
     lastApplied := lastApplied n; lastAppliedAt := lastAppliedAt n; startSeenAt :=
     startSeenAt n; commitSeenAt := commitSeenAt n; config := config n; nextIndex :=
     nextIndex n; matchIndex := matchIndex n; replicateInFlight := replicateInFlight
     n; replicatePending := replicatePending n; electionTimeoutResetCh :=
     electionTimeoutResetCh n; applyNotifyCh := applyNotifyCh n; replicateNotifyCh :=
     f (replicateNotifyCh n) |}.
End setters.

Section node.
Context {S : Type} `{Storage S}.
Implicit Types n : Node S.

(** ** Log accessors *)

(** [node.go: lastLogIndexLocked]. *)
Definition lastLogIndex n : Z := snapshotIndex n +! zlen (log n).

(** [node.go: lastLogTermLocked]. *)
Definition lastLogTerm n : Z :=
  match list.last (log n) with
  | None => snapshotTerm n
  | Some e => LogEntry.Term e
  end.

(** [node.go: entryAtLocked]: panics outside the non-compacted range. *)
Definition entryAt (raftIndex : Z) n : outcome LogEntry :=
  zget (log n) (raftIndex -! snapshotIndex n -! 1).

(** [node.go: firstIndexOfTermLocked]: the loop, at slice position [i]. *)
Fixpoint first_index_from (snapIdx term i : Z) (l : list LogEntry) : Z :=
  match l with
  | [] => 0
  | entry :: l' =>
      if LogEntry.Term entry =? term then snapIdx +! (i + 1)
      else first_index_from snapIdx term (i + 1) l'
  end.

Definition firstIndexOfTerm (term : Z) n : Z :=
  first_index_from (snapshotIndex n) term 0 (log n).

(** [node.go: lastIndexOfTermLocked]: the loop, over positions below [k]. *)
Fixpoint last_index_below (snapIdx term : Z) (l : list LogEntry) (k : nat) : Z :=
  match k with
  | O => 0
  | Datatypes.S i =>
      match l !! i with
      | Some entry =>
          if LogEntry.Term entry =? term then snapIdx +! (Z.of_nat i + 1)
          else last_index_below snapIdx term l i
      | None => last_index_below snapIdx term l i
      end
  end.

Definition lastIndexOfTerm (term : Z) n : Z :=
  last_index_below (snapshotIndex n) term (log n) (length (log n)).

(** [node.go: quorumSize]. *)
Definition quorumSize n : Z := zlen (Members (config n)) / 2 + 1.

(** ** Notification channels: a send that is dropped when the slot is full *)

(** [apply.go: notifyApply]. *)
Definition notifyApply n : Node S := n <| applyNotifyCh := true |>.
(** [replication.go: notifyReplicate]. *)
Definition notifyReplicate n : Node S := n <| replicateNotifyCh := true |>.
(** [rpc_handlers.go: resetElectionTimeout]. *)
Definition resetElectionTimeout n : Node S := n <| electionTimeoutResetCh := true |>.

(** ** Degraded mode *)

(** [node.go: markDegradedLocked]. *)
Definition markDegraded (err : option error) n : Node S :=
  match err with
  | None => n
  | Some _ => if degraded n then n else n <| degraded := true |>
  end.

(** [node.go: Status]. *)
Definition Status n : NodeStatus :=
  if degraded n then NodeStatusDegraded else NodeStatusHealthy.

(** ** Persistence helpers *)

(** A storage call made by the node: nothing happens on a nil storage. *)
Definition with_storage (op : S → S * option error) n : Node S * option error :=
  match storage n with
  | None => (n, None)
  | Some s => let '(s', err) := op s in (n <| storage := Some s' |>, err)
  end.

(** [node.go: persistHardStateLocked]. *)
Definition persistHardState n : Node S * option error :=
  with_storage (SaveHardState
    (HardState.mk (currentTerm n) (votedFor n) (commitIndex n) (config n))) n.

(** [node.go: persistAppendLogLocked]. *)
Definition persistAppendLog (entries : list LogEntry) n : Node S * option error :=
  with_storage (AppendLog entries) n.

(** [node.go: persistTruncateLogLocked]. *)
Definition persistTruncateLog (fromIndex : Z) n : Node S * option error :=
  let keepN := fromIndex -! snapshotIndex n -! 1 in
  let keepN := if keepN <? 0 then 0 else keepN in
  with_storage (TruncateLog keepN) n.

(** [node.go: persistSnapshotLocked]. *)
Definition persistSnapshot (snap : Snapshot) n : Node S * option error :=
  with_storage (SaveSnapshot snap) n.

(** [node.go: persistCompactLogLocked]. *)
Definition persistCompactLog n : Node S * option error :=
  with_storage (SetLog (snapshotIndex n) (log n)) n.

(** The [tracePersist...] wrappers of [tracing.go] add a span around the
    call. *)
Definition tracePersistHardState n := persistHardState n.
Definition tracePersistAppendLog entries n := persistAppendLog entries n.
Definition tracePersistTruncateLog fromIndex n := persistTruncateLog fromIndex n.
Definition tracePersistSnapshot snap n := persistSnapshot snap n.

(** ** Construction *)

(** [node.go: normalizePeers], on the key set of the peer map. *)
Definition normalizePeers (selfID : string) (ps : gset string) : gset string :=
  filter (λ p, p ≠ selfID) ps.

(** The part of [NewNode] before [storage.Load]: the node literal. *)
Definition blank_node (self : string) (ps : gset string) (st : S) : Node S :=
  {| id := self; peers := normalizePeers self ps; storage := Some st;
     role := Follower; currentTerm := 0; votedFor := ""; degraded := false;
     log := []; snapshotIndex := 0; snapshotTerm := 0; snapshot := None;
     pendingSnapshot := None; commitIndex := 0; lastApplied := 0;
     lastAppliedAt := 0; startSeenAt := ∅; commitSeenAt := ∅;
     config := mkClusterConfig []; nextIndex := ∅; matchIndex := ∅;
     replicateInFlight := ∅; replicatePending := ∅;
     electionTimeoutResetCh := false; applyNotifyCh := false;
     replicateNotifyCh := false |}.

(** Restoring the configuration (lines 139-149): the persisted one, or self
    and the peers.  Go ranges over the peer map in an unspecified order; the
    model takes the order of [elements]. *)
Definition restore_config (ps : PersistentState) n : Node S :=
  let cfg := HardState.Config (PersistentState.Hard ps) in
  if bool_decide (Members cfg = [])
  then n <| config := mkClusterConfig (id n :: elements (peers n)) |>
  else n <| config := cfg |>.

(** Restoring the snapshot (lines 151-165). *)
Definition restore_snapshot (ps : PersistentState) n : Node S :=
  match PersistentState.Snap ps with
  | None => n
  | Some sn =>
      let n := n <| snapshotIndex := Snapshot.LastIncludedIndex sn |>
                 <| snapshotTerm := Snapshot.LastIncludedTerm sn |>
                 <| snapshot := Some sn |>
                 <| pendingSnapshot := Some sn |>
                 <| commitIndex := Snapshot.LastIncludedIndex sn |>
                 <| lastApplied := Snapshot.LastIncludedIndex sn |> in
      if bool_decide (Members (Snapshot.Config sn) = []) then n
      else n <| config := Snapshot.Config sn |>
  end.

(** Trimming the stored log (lines 167-176). *)
Definition stale_count (snapIdx : Z) (ps : PersistentState) : Z :=
  let staleCount := snapIdx -! PersistentState.LogBase ps in
  let staleCount := if staleCount <? 0 then 0 else staleCount in
  if zlen (PersistentState.Log ps) <? staleCount
  then zlen (PersistentState.Log ps) else staleCount.

Definition restore_log (ps : PersistentState) n : outcome (Node S) :=
  tail ← slice_from (PersistentState.Log ps) (stale_count (snapshotIndex n) ps);
  Ret (n <| log := cloneLogEntries tail |>).

(** Clamping the commit index (lines 178-186). *)
Definition clamp_commit n : Node S :=
  let n := if commitIndex n <? snapshotIndex n
           then n <| commitIndex := snapshotIndex n |> else n in
  if lastLogIndex n <? commitIndex n
  then n <| commitIndex := lastLogIndex n |> else n.

(** [node.go: NewNode]; [logger] says whether a logger is given. *)
Definition NewNode (self : string) (ps : gset string) (st : option S) (logger : bool)
    : outcome (result (Node S)) :=
  match st with
  | None => Ret (Err ErrNilStorage)
  | Some st =>
      if negb logger then Ret (Err ErrNilLogger) else
      let n := blank_node self ps st in
      match Load st with
      | Err e => Ret (Err e)
      | Val pst =>
          let hs := PersistentState.Hard pst in
          let n := n <| currentTerm := HardState.CurrentTerm hs |>
                     <| votedFor := HardState.VotedFor hs |>
                     <| commitIndex := HardState.CommitIndex hs |> in
          let n := restore_config pst n in
          let n := restore_snapshot pst n in
          n ← restore_log pst n;
          Ret (Val (clamp_commit n))
      end
  end.

(** ** Lemmas shared by the components *)

Lemma with_storage_spec op n :
  ∃ st e, with_storage op n = (n <| storage := st |>, e) ∧
    (storage n = None → st = None ∧ e = None) ∧
    (∀ s, storage n = Some s → ∃ s', st = Some s' ∧ op s = (s', e)).
Proof.
  unfold with_storage. destruct (storage n) as [s|] eqn:E.
  - destruct (op s) as [s' e] eqn:Eop. exists (Some s'), e. naive_solver.
  - exists None, None. split; [|naive_solver].
    f_equal. destruct n; simpl in *. by rewrite E.
Qed.

(** [with_storage] changes no field but the storage. *)
Lemma with_storage_frame op n n' e :
  with_storage op n = (n', e) → ∃ st, n' = n <| storage := st |>.
Proof. destruct (with_storage_spec op n) as (st & e' & -> & _). naive_solver. Qed.

End node.

#[global] Arguments markDegraded : simpl never.
#[global] Arguments with_storage : simpl never.
