(* ===== verification/Handlers.v ===== *)
(** * Handlers: the operations of a Raft node

    One definition per operation of [rpc_handlers.go], [snapshot.go],
    [consensus.go], [replication.go] and [election.go], each a function on
    the [Node] record: what the Go code does while it holds [n.mu].  An
    operation that indexes the log returns an [outcome] (it may panic); an
    operation with a Go [error] result returns a [result].  Code that holds
    the lock several times is split at the unlocks, and the network call
    between two locked sections is the caller's: [sendAppendEntries] takes
    what the RPC returned. *)

From S2P Require Import Prelude Types Storage Timing Node.
Open Scope Z_scope.

Section handlers.
Context {S : Type} `{Storage S}.
Implicit Types n : Node S.

(** ** RequestVote (rpc_handlers.go) *)

(** The up-to-date check of a vote (lines 78-82). *)
Definition upToDate (req : RequestVoteRequest) n : bool :=
  let lastTerm := lastLogTerm n in
  let lastIndex := lastLogIndex n in
  (lastTerm <? RequestVoteRequest.LastLogTerm req)
  || ((RequestVoteRequest.LastLogTerm req =? lastTerm)
      && (lastIndex <=? RequestVoteRequest.LastLogIndex req)).

(** The vote itself, once the terms agree (lines 76-112). *)
Definition grantVote (req : RequestVoteRequest) n
    : Node S * result RequestVoteResponse :=
  let cand := RequestVoteRequest.CandidateID req in
  if (bool_decide (votedFor n = "") || bool_decide (votedFor n = cand)) && upToDate req n
  then
    let prevVotedFor := votedFor n in
    let n := n <| votedFor := cand |> in
    match tracePersistHardState n with
    | (n, Some err) => (n <| votedFor := prevVotedFor |>, Err err)
    | (n, None) =>
        (resetElectionTimeout n, Val (RequestVoteResponse.mk (currentTerm n) true))
    end
  else (n, Val (RequestVoteResponse.mk (currentTerm n) false)).

Definition HandleRequestVote (req : RequestVoteRequest) n
    : Node S * result RequestVoteResponse :=
  if degraded n then (n, Err ErrNodeDegraded) else
  if RequestVoteRequest.Term req <? currentTerm n then
    (n, Val (RequestVoteResponse.mk (currentTerm n) false))
  else if currentTerm n <? RequestVoteRequest.Term req then
    let prevTerm := currentTerm n in
    let prevVotedFor := votedFor n in
    let prevRole := role n in
    let n := n <| currentTerm := RequestVoteRequest.Term req |>
               <| votedFor := "" |> <| role := Follower |> in
    match tracePersistHardState n with
    | (n, Some err) =>
        (n <| currentTerm := prevTerm |> <| votedFor := prevVotedFor |>
           <| role := prevRole |>, Err err)
    | (n, None) => grantVote req n
    end
  else grantVote req n.

(** ** AppendEntries (rpc_handlers.go) *)

(** The term update shared by AppendEntries and InstallSnapshot (lines
    154-164 and 346-356): adopt a newer term, or roll back and fail. *)
Definition adoptTerm (reqTerm : Z) n : Node S * option error :=
  if currentTerm n <? reqTerm then
    let prevTerm := currentTerm n in
    let prevVotedFor := votedFor n in
    let n := n <| currentTerm := reqTerm |> <| votedFor := "" |> in
    match tracePersistHardState n with
    | (n, Some err) =>
        (n <| currentTerm := prevTerm |> <| votedFor := prevVotedFor |>, Some err)
    | (n, None) => (n, None)
    end
  else (n, None).

(** The consistency check of PrevLogIndex (lines 170-225): [None] when it
    passes, otherwise the conflict term and index of the rejection. *)
Definition checkPrev (req : AppendEntriesRequest) n : outcome (option (Z * Z)) :=
  let prev := AppendEntriesRequest.PrevLogIndex req in
  if lastLogIndex n <? prev then Ret (Some (0, lastLogIndex n +! 1))
  else if snapshotIndex n <? prev then
    e ← entryAt prev n;
    if LogEntry.Term e =? AppendEntriesRequest.PrevLogTerm req then Ret None
    else Ret (Some (LogEntry.Term e, firstIndexOfTerm (LogEntry.Term e) n))
  else if prev =? snapshotIndex n then
    if AppendEntriesRequest.PrevLogTerm req =? snapshotTerm n then Ret None
    else Ret (Some (0, snapshotIndex n +! 1))
  else Ret None.

(** The entry loop (lines 227-261) from position [i], with the entries still
    to be processed. *)
Fixpoint appendLoop (prev i : Z) (entries : list LogEntry) n
    : outcome (Node S * option error) :=
  match entries with
  | [] => Ret (n, None)
  | entry :: rest =>
      let index := prev +! i +! 1 in
      if index <=? snapshotIndex n then appendLoop prev (i + 1) rest n
      else if lastLogIndex n <? index then
        let appendEntries := cloneLogEntries entries in
        match tracePersistAppendLog appendEntries n with
        | (n, Some err) => Ret (n, Some err)
        | (n, None) => Ret (n <| log := log n ++ appendEntries |>, None)
        end
      else
        e ← entryAt index n;
        if LogEntry.Term e =? LogEntry.Term entry then appendLoop prev (i + 1) rest n
        else
          match tracePersistTruncateLog index n with
          | (n, Some err) => Ret (n, Some err)
          | (n, None) =>
              kept ← slice_to (log n) (index -! snapshotIndex n -! 1);
              let n := n <| log := kept |> in
              let appendEntries := cloneLogEntries entries in
              match tracePersistAppendLog appendEntries n with
              | (n, Some err) => Ret (n, Some err)
              | (n, None) => Ret (n <| log := log n ++ appendEntries |>, None)
              end
          end
  end.

(** The commit index of the leader (lines 272-292). *)
Definition followCommit (leaderCommit now : Z) n : Node S * option error :=
  if commitIndex n <? leaderCommit then
    let prevCommit := commitIndex n in
    let lastIndex := lastLogIndex n in
    let n := n <| commitIndex :=
                    if leaderCommit <? lastIndex then leaderCommit else lastIndex |> in
    match tracePersistHardState n with
    | (n, Some err) => (n, Some err)
    | (n, None) =>
        let n := n <| commitSeenAt :=
                        recordCommitSeenRange prevCommit (commitIndex n) now
                          (commitSeenAt n) |> in
        (notifyApply n, None)
    end
  else (n, None).

Definition HandleAppendEntries (now : Z) (req : AppendEntriesRequest) n
    : outcome (Node S * result AppendEntriesResponse) :=
  if degraded n then Ret (n, Err ErrNodeDegraded) else
  if AppendEntriesRequest.Term req <? currentTerm n then
    Ret (n, Val (AppendEntriesResponse.mk (currentTerm n) false 0 0))
  else
    match adoptTerm (AppendEntriesRequest.Term req) n with
    | (n, Some err) => Ret (n, Err err)
    | (n, None) =>
        let n := resetElectionTimeout (n <| role := Follower |>) in
        conflict ← checkPrev req n;
        match conflict with
        | Some (conflictTerm, conflictIndex) =>
            Ret (n, Val (AppendEntriesResponse.mk (currentTerm n) false
                           conflictTerm conflictIndex))
        | None =>
            '(n, err) ← appendLoop (AppendEntriesRequest.PrevLogIndex req) 0
                          (AppendEntriesRequest.Entries req) n;
            match err with
            | Some err => Ret (n, Err err)
            | None =>
                match followCommit (AppendEntriesRequest.LeaderCommit req) now n with
                | (n, Some err) => Ret (n, Err err)
                | (n, None) =>
                    Ret (n, Val (AppendEntriesResponse.mk (currentTerm n) true 0 0))
                end
            end
        end
    end.

(** ** InstallSnapshot (rpc_handlers.go, snapshot.go) *)

(** The log kept by [applySnapshotLocked] (lines 14-22). *)
Definition retainedLog (snap : Snapshot) n : outcome (list LogEntry) :=
  if Snapshot.LastIncludedIndex snap <? lastLogIndex n then
    let cutIdx := Snapshot.LastIncludedIndex snap -! snapshotIndex n in
    if 0 <? cutIdx then slice_from (log n) cutIdx else Ret (log n)
  else Ret [].

(** The stages of [snapshot.go: applySnapshotLocked]: the snapshot becomes the
    log base (lines 24-26), the commit index covers it (28-30), its
    configuration is adopted and saved, best effort (32-35), and it is left
    for the apply loop (39-41). *)
Definition setSnapshot (snap : Snapshot) (log' : list LogEntry) n : Node S :=
  n <| log := log' |>
    <| snapshotIndex := Snapshot.LastIncludedIndex snap |>
    <| snapshotTerm := Snapshot.LastIncludedTerm snap |>
    <| snapshot := Some snap |>.

Definition coverCommit (snap : Snapshot) n : Node S :=
  if commitIndex n <? Snapshot.LastIncludedIndex snap
  then n <| commitIndex := Snapshot.LastIncludedIndex snap |> else n.

Definition adoptConfig (snap : Snapshot) n : Node S :=
  if bool_decide (Members (Snapshot.Config snap) = []) then n
  else (persistHardState (n <| config := Snapshot.Config snap |>)).1.

Definition markPending (snap : Snapshot) n : Node S :=
  if lastApplied n <? Snapshot.LastIncludedIndex snap
  then n <| pendingSnapshot := Some snap |> else n.

(** [snapshot.go: applySnapshotLocked]. *)
Definition applySnapshot (snap : Snapshot) n : outcome (Node S) :=
  log' ← retainedLog snap n;
  Ret (persistCompactLog
         (markPending snap (adoptConfig snap (coverCommit snap
            (setSnapshot snap log' n))))).1.

Definition HandleInstallSnapshot (req : InstallSnapshotRequest) n
    : outcome (Node S * result InstallSnapshotResponse) :=
  if degraded n then Ret (n, Err ErrNodeDegraded) else
  if InstallSnapshotRequest.Term req <? currentTerm n then
    Ret (n, Val (InstallSnapshotResponse.mk (currentTerm n)))
  else
    match adoptTerm (InstallSnapshotRequest.Term req) n with
    | (n, Some err) => Ret (n, Err err)
    | (n, None) =>
        let n := resetElectionTimeout (n <| role := Follower |>) in
        let resp := InstallSnapshotResponse.mk (currentTerm n) in
        let idx := InstallSnapshotRequest.LastIncludedIndex req in
        let term := InstallSnapshotRequest.LastIncludedTerm req in
        if idx <? snapshotIndex n then Ret (n, Val resp)
        else if (idx =? snapshotIndex n) && (term =? snapshotTerm n) then Ret (n, Val resp)
        else
          let snap := Snapshot.mk idx term (InstallSnapshotRequest.Config req)
                        (InstallSnapshotRequest.Data req) in
          match tracePersistSnapshot snap n with
          | (n, Some err) => Ret (n, Err err)
          | (n, None) =>
              n ← applySnapshot snap n;
              Ret (notifyApply n, Val resp)
          end
    end.

(** ** Commit advancement (replication.go) *)

(** The replicas counted for [candidate]: the leader itself and the peers
    whose [matchIndex] reaches it. *)
Definition replicaVotes (candidate : Z) n : Z :=
  1 + Z.of_nat (size (filter (λ p, candidate ≤ map_get 0 p (matchIndex n)) (peers n))).

(** The loop of [advanceCommitIndexLocked]: the first committable index at or
    below [candidate], the fuel counting the iterations left. *)
Fixpoint advanceLoop (fuel : nat) (candidate : Z) n : outcome (option Z) :=
  match fuel with
  | O => Ret None
  | Datatypes.S fuel =>
      if commitIndex n <? candidate then
        e ← entryAt candidate n;
        if negb (LogEntry.Term e =? currentTerm n)
        then advanceLoop fuel (candidate -! 1) n
        else if quorumSize n <=? replicaVotes candidate n then Ret (Some candidate)
        else advanceLoop fuel (candidate -! 1) n
      else Ret None
  end.

Definition advanceCommitIndex (now : Z) n : outcome (Node S * bool) :=
  let lastIndex := lastLogIndex n in
  found ← advanceLoop (Z.to_nat (lastIndex - commitIndex n)) lastIndex n;
  match found with
  | None => Ret (n, false)
  | Some candidate =>
      let prevCommit := commitIndex n in
      let n := n <| commitIndex := candidate |> in
      let n := n <| startSeenAt :=
                      (observeStartToCommitRange prevCommit candidate now
                         (startSeenAt n)).2 |>
                 <| commitSeenAt :=
                      recordCommitSeenRange prevCommit candidate now (commitSeenAt n) |> in
      match persistHardState n with
      | (n, Some err) => Ret (markDegraded (Some err) n, false)
      | (n, None) => Ret (n, true)
      end
  end.

(** ** The client entry points (consensus.go) *)

(** [consensus.go: StartCommand]: the index and whether the node is leader. *)
Definition StartCommand (now : Z) (cmd : bytes) n : outcome (Node S * (Z * bool)) :=
  if degraded n || negb (role_eqb (role n) Leader) then Ret (n, (0, false)) else
  let entry := LogEntry.mk (currentTerm n) EntryCommand ([] ++ cmd) in
  let prevLogLen := zlen (log n) in
  let n := n <| log := log n ++ [entry] |> in
  match persistAppendLog [entry] n with
  | (n, Some _) =>
      log' ← slice_to (log n) prevLogLen;
      Ret (n <| log := log' |>, (0, false))
  | (n, None) =>
      let index := lastLogIndex n in
      let n := n <| startSeenAt := recordStartSeen index now (startSeenAt n) |>
                 <| matchIndex := <[id n := index]> (matchIndex n) |>
                 <| nextIndex := <[id n := index +! 1]> (nextIndex n) |> in
      '(n, advanced) ← advanceCommitIndex now n;
      let n := if (advanced : bool) then notifyApply n else n in
      Ret (notifyReplicate n, (index, true))
  end.

(** [consensus.go: IsLeader]. *)
Definition IsLeader n : bool := role_eqb (role n) Leader.

(** [consensus.go: Snapshot]: local log compaction. *)
Definition TakeSnapshot (index : Z) (data : bytes) n : outcome (Node S * option error) :=
  if index <=? snapshotIndex n then Ret (n, None) else
  if lastLogIndex n <? index
  then Ret (n, Some (ErrSnapshotBeyondLog index (lastLogIndex n))) else
  e ← entryAt index n;
  let snap := Snapshot.mk index (LogEntry.Term e) (config n) ([] ++ data) in
  match persistSnapshot snap n with
  | (n, Some err) => Ret (n, Some err)
  | (n, None) =>
      let cutIdx := index -! snapshotIndex n in
      log' ← slice_from (log n) cutIdx;
      let n := n <| log := log' |>
                 <| snapshotIndex := Snapshot.LastIncludedIndex snap |>
                 <| snapshotTerm := Snapshot.LastIncludedTerm snap |>
                 <| snapshot := Some snap |> in
      Ret ((persistCompactLog n).1, None)
  end.

End handlers.
