(* ===== verification/Replication.v ===== *)
(** * Replication and elections: the role loops of a Raft node

    The locked sections of [election.go] (follower timeout, candidate, vote
    counting), [replication.go] (building AppendEntries, handling its
    response) and [snapshot.go] (building InstallSnapshot, handling its
    response).  An outgoing RPC ends with two locked sections, the handling of
    its response ([onAppendResponse], [onInstallResponse]) and the deferred
    cleanup ([finishRPC], [finishInstall]), which are separate steps of the
    Cluster, Replica and Network files; [sendAppendEntries] and
    [sendInstallSnapshot] run them one after the other.  What an RPC returned is an [rpc_result]: a transport error, a
    nil response, or a response. *)

From S2P Require Import Prelude Types Storage Timing Node Handlers.
Open Scope Z_scope.

Inductive rpc_result (A : Type) : Type :=
  | RpcError
  | RpcNil
  | RpcOk (resp : A).
Arguments RpcError {A}.
Arguments RpcNil {A}.
Arguments RpcOk {A} resp.

(** The local variables of one run of [runCandidate]. *)
Module Campaign.
Record t : Type := mk {
  term : Z;
  lastLogIndex : Z;
  lastLogTerm : Z;
  votes : Z;
  majority : Z }.
End Campaign.
Notation Campaign := Campaign.t.

(** What [runLeader] does for one peer in one round. *)
Inductive leader_action : Type :=
  | StepDown
  | Skip
  | SendSnapshot (req : InstallSnapshotRequest)
  | SendEntries (req : AppendEntriesRequest).

Section replication.
Context {S : Type} `{Storage S}.
Implicit Types n : Node S.

(** ** Elections (election.go) *)

(** [runFollower], the reset branch: the signal is consumed (line 21). *)
Definition onElectionReset n : Node S := n <| electionTimeoutResetCh := false |>.

(** [runFollower], the timeout branch (lines 29-37). *)
Definition onElectionTimeout n : Node S := n <| role := Candidate |>.

(** [runCandidate] up to the vote requests (lines 43-74): no campaign when
    the hard state cannot be saved.  The unlocked read of the configuration
    at line 71 is taken at the unlock. *)
Definition startCampaign n : Node S * option Campaign :=
  let prevTerm := currentTerm n in
  let prevVotedFor := votedFor n in
  let n := n <| currentTerm := currentTerm n +! 1 |> in
  let term := currentTerm n in
  let n := n <| votedFor := id n |> in
  match tracePersistHardState n with
  | (n, Some err) =>
      let n := markDegraded (Some err) n in
      (n <| currentTerm := prevTerm |> <| votedFor := prevVotedFor |>
         <| role := Follower |>, None)
  | (n, None) =>
      (n, Some (Campaign.mk term (lastLogIndex n) (lastLogTerm n) 1 (quorumSize n)))
  end.

(** The request sent to every peer (lines 96-101). *)
Definition voteRequest (c : Campaign) n : RequestVoteRequest :=
  RequestVoteRequest.mk (Campaign.term c) (id n)
    (Campaign.lastLogIndex c) (Campaign.lastLogTerm c).

(** Lines 184-190: taking office. *)
Definition becomeLeader n : Node S :=
  let n := n <| role := Leader |> in
  let n := n <| nextIndex := <[id n := lastLogIndex n +! 1]> (nextIndex n) |>
             <| matchIndex := <[id n := 0]> (matchIndex n) |> in
  foldr (λ peerID n,
           n <| nextIndex := <[peerID := lastLogIndex n +! 1]> (nextIndex n) |>
             <| matchIndex := <[peerID := 0]> (matchIndex n) |>)
        n (elements (peers n)).

(** One vote response (lines 138-197): the campaign goes on, or is over. *)
Definition onVoteResponse (resp : RequestVoteResponse) (c : Campaign) n
    : Node S * option Campaign :=
  if currentTerm n <? RequestVoteResponse.Term resp then
    let n := n <| currentTerm := RequestVoteResponse.Term resp |>
               <| votedFor := "" |> <| role := Follower |> in
    let '(n, err) := tracePersistHardState n in
    (markDegraded err n, None)
  else if negb (role_eqb (role n) Candidate) then (n, None)
  else
    let votes := if RequestVoteResponse.VoteGranted resp
                 then Campaign.votes c + 1 else Campaign.votes c in
    if Campaign.majority c <=? votes then (becomeLeader n, None)
    else (n, Some (Campaign.mk (Campaign.term c) (Campaign.lastLogIndex c)
                     (Campaign.lastLogTerm c) votes (Campaign.majority c))).

(** ** AppendEntries, leader side (replication.go) *)

(** [replication.go: appendEntriesRequestForPeer]: [(req, ok)]. *)
Definition appendEntriesRequestForPeer (peerID : string) n
    : outcome (Node S * (option AppendEntriesRequest * bool)) :=
  if negb (role_eqb (role n) Leader) then Ret (n, (None, false)) else
  if map_get false peerID (replicateInFlight n) then
    Ret (n <| replicatePending := <[peerID := true]> (replicatePending n) |>, (None, true))
  else
    let n := n <| replicateInFlight := <[peerID := true]> (replicateInFlight n) |> in
    let next := map_get 0 peerID (nextIndex n) in
    let next := if next <? 1 then 1 else next in
    let prevLogIndex := next -! 1 in
    prevLogTerm ←
      (if snapshotIndex n <? prevLogIndex then
         e ← entryAt prevLogIndex n; Ret (LogEntry.Term e)
       else if prevLogIndex =? snapshotIndex n then Ret (snapshotTerm n)
       else Ret 0);
    entries ←
      (if next <=? lastLogIndex n
       then slice_from (log n) (next -! snapshotIndex n -! 1) else Ret []);
    Ret (n, (Some (AppendEntriesRequest.mk (currentTerm n) (id n) prevLogIndex prevLogTerm
                     entries (commitIndex n)), true)).

(** The deferred cleanup of [sendAppendEntries] and [sendInstallSnapshot]. *)
Definition finishRPC (peerID : string) n : Node S :=
  let n := n <| replicateInFlight := <[peerID := false]> (replicateInFlight n) |> in
  if map_get false peerID (replicatePending n)
  then notifyReplicate (n <| replicatePending := <[peerID := false]> (replicatePending n) |>)
  else n.

(** The same cleanup in [snapshot.go], which clears the pending flag even
    when it is not set. *)
Definition finishInstall (peerID : string) n : Node S :=
  let n := n <| replicateInFlight := <[peerID := false]> (replicateInFlight n) |> in
  let pending := map_get false peerID (replicatePending n) in
  let n := n <| replicatePending := <[peerID := false]> (replicatePending n) |> in
  if pending then notifyReplicate n else n.

(** Stepping down on a higher term in a response. *)
Definition stepDown (term : Z) n : Node S :=
  let n := n <| currentTerm := term |> <| votedFor := "" |> <| role := Follower |> in
  let '(n, err) := tracePersistHardState n in
  markDegraded err n.

(** The new [nextIndex] of a peer that rejected (lines 216-241). *)
Definition conflictNext (resp : AppendEntriesResponse) (prevNext : Z) n : Z :=
  let ct := AppendEntriesResponse.ConflictTerm resp in
  let ci := AppendEntriesResponse.ConflictIndex resp in
  if 0 <? ct then
    let idx := lastIndexOfTerm ct n in
    if 0 <? idx then idx +! 1
    else if 0 <? ci then ci
    else if 1 <? prevNext then prevNext -! 1 else prevNext
  else if 0 <? ci then ci
  else if 1 <? prevNext then prevNext -! 1
  else 1.

Definition backoffNext (resp : AppendEntriesResponse) (prevNext : Z) n : Z :=
  let next := conflictNext resp prevNext n in
  let next := if next <? 1 then 1 else next in
  if (prevNext <=? next) && (1 <? prevNext) then prevNext -! 1 else next.

(** The progress of a peer that acknowledged (lines 259-265). *)
Definition recordProgress (peerID : string) (match_ : Z) n : Node S :=
  let n := if map_get 0 peerID (matchIndex n) <? match_
           then n <| matchIndex := <[peerID := match_]> (matchIndex n) |> else n in
  let next := match_ +! 1 in
  if map_get 0 peerID (nextIndex n) <? next
  then n <| nextIndex := <[peerID := next]> (nextIndex n) |> else n.

(** The response handling of [sendAppendEntries] (lines 184-294). *)
Definition onAppendResponse (now : Z) (peerID : string) (req : AppendEntriesRequest)
    (resp : AppendEntriesResponse) n : outcome (Node S) :=
  if currentTerm n <? AppendEntriesResponse.Term resp
  then Ret (stepDown (AppendEntriesResponse.Term resp) n)
  else if negb (role_eqb (role n) Leader) then Ret n
  else if negb (AppendEntriesRequest.Term req =? currentTerm n) then Ret n
  else if negb (AppendEntriesResponse.Success resp) then
    let next := backoffNext resp (map_get 0 peerID (nextIndex n)) n in
    Ret (notifyReplicate (n <| nextIndex := <[peerID := next]> (nextIndex n) |>))
  else
    let match_ := AppendEntriesRequest.PrevLogIndex req
                  +! zlen (AppendEntriesRequest.Entries req) in
    let n := recordProgress peerID match_ n in
    '(n, advanced) ← advanceCommitIndex now n;
    let n := if (advanced : bool) then notifyApply n else n in
    Ret (if bool_decide (AppendEntriesRequest.Entries req = []) then n
         else notifyReplicate n).

(** [replication.go: sendAppendEntries], given what the RPC returned. *)
Definition sendAppendEntries (now : Z) (peerID : string) (req : AppendEntriesRequest)
    (rpc : rpc_result AppendEntriesResponse) n : outcome (Node S) :=
  n ← match rpc with
      | RpcOk resp => onAppendResponse now peerID req resp n
      | RpcError | RpcNil => Ret n
      end;
  Ret (finishRPC peerID n).

(** ** InstallSnapshot, leader side (snapshot.go) *)

(** [snapshot.go: installSnapshotRequestForPeer]: [(req, ok)]; a nil
    [n.snapshot] is dereferenced, hence the panic. *)
Definition installSnapshotRequestForPeer (peerID : string) n
    : outcome (Node S * (option InstallSnapshotRequest * bool)) :=
  if negb (role_eqb (role n) Leader) then Ret (n, (None, false)) else
  if (snapshotIndex n =? 0) || (snapshotIndex n <? map_get 0 peerID (nextIndex n))
  then Ret (n, (None, true)) else
  if map_get false peerID (replicateInFlight n) then
    Ret (n <| replicatePending := <[peerID := true]> (replicatePending n) |>, (None, true))
  else
    let n := n <| replicateInFlight := <[peerID := true]> (replicateInFlight n) |> in
    match snapshot n with
    | None => Panic
    | Some sn =>
        Ret (n, (Some (InstallSnapshotRequest.mk (currentTerm n) (id n)
                         (Snapshot.LastIncludedIndex sn) (Snapshot.LastIncludedTerm sn)
                         (Snapshot.Config sn) ([] ++ Snapshot.Data sn)), true))
    end.

(** The response handling of [sendInstallSnapshot] (lines 145-181). *)
Definition onInstallResponse (peerID : string) (req : InstallSnapshotRequest)
    (resp : InstallSnapshotResponse) n : Node S :=
  if currentTerm n <? InstallSnapshotResponse.Term resp
  then stepDown (InstallSnapshotResponse.Term resp) n
  else if negb (role_eqb (role n) Leader)
          || negb (InstallSnapshotRequest.Term req =? currentTerm n) then n
  else notifyReplicate
         (recordProgress peerID (InstallSnapshotRequest.LastIncludedIndex req) n).

Definition sendInstallSnapshot (peerID : string) (req : InstallSnapshotRequest)
    (rpc : rpc_result InstallSnapshotResponse) n : Node S :=
  let n := match rpc with
           | RpcOk resp => onInstallResponse peerID req resp n
           | RpcError | RpcNil => n
           end in
  finishInstall peerID n.

(** ** The replication round (replication.go: runLeader, lines 29-49)

    The two locked sections of one peer, with what other goroutines do to
    the node between them. *)
Definition replicatePeerWith (between : Node S → Node S) (peerID : string) n
    : outcome (Node S * leader_action) :=
  '(n, (snapReq, ok)) ← installSnapshotRequestForPeer peerID n;
  if negb (ok : bool) then Ret (n, StepDown) else
  match snapReq with
  | Some req => Ret (n, SendSnapshot req)
  | None =>
      '(n, (req, ok)) ← appendEntriesRequestForPeer peerID (between n);
      if negb (ok : bool) then Ret (n, StepDown) else
      match req with
      | Some req => Ret (n, SendEntries req)
      | None => Ret (n, Skip)
      end
  end.

(** The round without interference. *)
Definition replicatePeer (peerID : string) n : outcome (Node S * leader_action) :=
  replicatePeerWith (λ n, n) peerID n.

(** The loop over the peers: it ends early when the node is no longer
    leader. *)
Fixpoint leaderRound (ps : list string) n
    : outcome (Node S * list (string * leader_action)) :=
  match ps with
  | [] => Ret (n, [])
  | p :: ps =>
      '(n, act) ← replicatePeer p n;
      match act with
      | StepDown => Ret (n, [(p, StepDown)])
      | _ => '(n, acts) ← leaderRound ps n; Ret (n, (p, act) :: acts)
      end
  end.

End replication.
