(* ===== verification/LogSpec.v ===== *)
(** * LogSpec: the logical log and the AppendEntries entry loop

    [merge] is the reference definition of what a follower's log becomes when
    it receives entries from a given index on; [log_at] is a log by Raft
    index.  The lemmas say index by index what [merge] keeps, replaces and
    adds.  The AppendSpec file shows that [appendLoop] computes it. *)

From S2P Require Import Prelude Types Storage Timing Node Handlers.
Open Scope Z_scope.

(** ** The reference merge *)

(** [merge snap idx es l]: the log [l] (whose first entry has index
    [snap + 1]) after receiving the entries [es] from index [idx] on. *)
Fixpoint merge (snap idx : Z) (es l : list LogEntry) : list LogEntry :=
  match es with
  | [] => l
  | e :: es' =>
      if idx <=? snap then merge snap (idx + 1) es' l
      else
        match l !! Z.to_nat (idx - snap - 1) with
        | Some x => if LogEntry.Term x =? LogEntry.Term e then merge snap (idx + 1) es' l
                    else take (Z.to_nat (idx - snap - 1)) l ++ es
        | None => take (Z.to_nat (idx - snap - 1)) l ++ es
        end
  end.

(** The entry of a log of base [snap] at Raft index [i]. *)
Definition log_at (snap : Z) (l : list LogEntry) (i : Z) : option LogEntry :=
  if i <=? snap then None else l !! Z.to_nat (i - snap - 1).

Section merge.
Implicit Types (l es : list LogEntry) (snap idx i : Z).

Lemma log_at_Some snap l i x :
  log_at snap l i = Some x → snap < i ≤ snap + zlen l.
Proof.
  unfold log_at, zlen. intros H. case_match; zbool; [done|].
  apply lookup_lt_Some in H. lia.
Qed.

Lemma log_at_is_Some snap l i : snap < i ≤ snap + zlen l → is_Some (log_at snap l i).
Proof.
  unfold log_at, zlen. intros. destruct (Z.leb_spec i snap); [lia|].
  apply lookup_lt_is_Some. lia.
Qed.

Lemma log_at_take snap l i k :
  i ≤ k → log_at snap (take (Z.to_nat (k - snap)) l) i = log_at snap l i.
Proof.
  unfold log_at. intros. destruct (Z.leb_spec i snap); [done|].
  apply lookup_take_lt. lia.
Qed.

Lemma log_at_app_l snap l1 l2 i :
  i ≤ snap + zlen l1 → log_at snap (l1 ++ l2) i = log_at snap l1 i.
Proof.
  unfold log_at, zlen. intros. destruct (Z.leb_spec i snap); [done|].
  apply lookup_app_l. lia.
Qed.

Lemma log_at_app_r snap l1 l2 i :
  snap + zlen l1 < i →
  log_at snap (l1 ++ l2) i = l2 !! Z.to_nat (i - snap - zlen l1 - 1).
Proof.
  unfold log_at, zlen. intros. destruct (Z.leb_spec i snap); [lia|].
  rewrite lookup_app_r by lia. f_equal. lia.
Qed.

(** An entry of [es] that the log already holds, or that its base covers. *)
Definition held snap l i (e : LogEntry) : Prop :=
  snap < i → ∃ x, log_at snap l i = Some x ∧ LogEntry.Term x = LogEntry.Term e.

(** What [merge] does: either every entry is held and the log stays, or the
    log is cut at the first entry that is not and the rest is appended. *)
Lemma merge_shape snap idx es l :
  idx ≤ snap + zlen l + 1 →
  (merge snap idx es l = l ∧
   ∀ j e, es !! j = Some e → held snap l (idx + Z.of_nat j) e) ∨
  ∃ k : nat, let d := idx + Z.of_nat k in
    (k < length es)%nat ∧ snap < d ≤ snap + zlen l + 1 ∧
    merge snap idx es l = take (Z.to_nat (d - snap - 1)) l ++ drop k es ∧
    (∀ j e, (j < k)%nat → es !! j = Some e → held snap l (idx + Z.of_nat j) e) ∧
    (∀ x e, log_at snap l d = Some x → es !! k = Some e →
            LogEntry.Term x ≠ LogEntry.Term e).
Proof.
  revert idx. induction es as [|e es IH]; intros idx Hidx; simpl.
  { left. split; [done|]. intros j e Hj. by rewrite lookup_nil in Hj. }
  (* the recursive case: the head is held *)
  assert (held snap l idx e → idx + 1 ≤ snap + zlen l + 1 →
    (merge snap (idx + 1) es l = l ∧
     ∀ j e', (e :: es) !! j = Some e' → held snap l (idx + Z.of_nat j) e') ∨
    ∃ k : nat, let d := idx + Z.of_nat k in
      (k < Datatypes.S (length es))%nat ∧ snap < d ≤ snap + zlen l + 1 ∧
      merge snap (idx + 1) es l = take (Z.to_nat (d - snap - 1)) l ++ drop k (e :: es) ∧
      (∀ j e', (j < k)%nat → (e :: es) !! j = Some e' → held snap l (idx + Z.of_nat j) e') ∧
      (∀ x e', log_at snap l d = Some x → (e :: es) !! k = Some e' →
               LogEntry.Term x ≠ LogEntry.Term e')) as Hrec.
  { intros Hheld Hle. destruct (IH (idx + 1) Hle) as [[Hm Hall]|(k & Hk & Hd & Hm & Hall & Hc)].
    - left. split; [done|]. intros [|j] e' Hj; simpl in Hj.
      + simplify_eq. by rewrite Z.add_0_r.
      + replace (idx + Z.of_nat (Datatypes.S j)) with (idx + 1 + Z.of_nat j) by lia. eauto.
    - right. exists (Datatypes.S k). cbv zeta.
      replace (idx + Z.of_nat (Datatypes.S k)) with (idx + 1 + Z.of_nat k) by lia.
      split_and!; [lia|lia|lia|done| |done].
      intros [|j] e' Hjk Hj; simpl in Hj.
      + simplify_eq. by rewrite Z.add_0_r.
      + replace (idx + Z.of_nat (Datatypes.S j)) with (idx + 1 + Z.of_nat j) by lia.
        apply Hall; [lia|done]. }
  destruct (Z.leb_spec idx snap).
  { apply Hrec; [intros ?; lia|pose proof (zlen_nonneg l); lia]. }
  assert (log_at snap l idx = l !! Z.to_nat (idx - snap - 1)) as Hat.
  { unfold log_at. by rewrite (proj2 (Z.leb_gt _ _)) by done. }
  destruct (l !! Z.to_nat (idx - snap - 1)) as [x|] eqn:Ex;
    [destruct (Z.eqb_spec (LogEntry.Term x) (LogEntry.Term e))|].
  - apply log_at_Some in Hat as ?. apply Hrec; [|lia]. intros _. eauto.
  - right. exists 0%nat. cbv zeta. rewrite !Z.add_0_r. split_and!; [lia|lia|lia|done|lia|].
    intros x' e' Hx' [= <-]. congruence.
  - right. exists 0%nat. cbv zeta. rewrite !Z.add_0_r. split_and!; [lia|lia|lia|done|lia|].
    intros x' e' Hx'. congruence.
Qed.

(** ** The log after a merge, index by index *)

Lemma merge_below snap idx es l i :
  idx ≤ snap + zlen l + 1 → i < idx →
  log_at snap (merge snap idx es l) i = log_at snap l i.
Proof.
  intros Hidx Hi. destruct (merge_shape snap idx es l Hidx) as
    [[-> _]|(k & Hk & Hd & -> & _ & _)]; [done|].
  rewrite log_at_app_l by (rewrite zlen_take; lia).
  replace (idx + Z.of_nat k - snap - 1) with ((idx + Z.of_nat k - 1) - snap) by lia.
  apply log_at_take. lia.
Qed.

(** Every received entry beyond the base is in the log, up to an entry of
    the same term that was already there. *)
Lemma merge_received snap idx es l (j : nat) e :
  idx ≤ snap + zlen l + 1 → es !! j = Some e → snap < idx + Z.of_nat j →
  ∃ x, log_at snap (merge snap idx es l) (idx + Z.of_nat j) = Some x ∧
    LogEntry.Term x = LogEntry.Term e ∧
    (x = e ∨ log_at snap l (idx + Z.of_nat j) = Some x).
Proof.
  intros Hidx Hj Hs. destruct (merge_shape snap idx es l Hidx) as
    [[-> Hall]|(k & Hk & Hd & -> & Hall & _)].
  { destruct (Hall j e Hj Hs) as (x & Hx & ?). eauto. }
  destruct (decide (j < k)%nat).
  - destruct (Hall j e ltac:(done) Hj Hs) as (x & Hx & ?).
    rewrite log_at_app_l by (rewrite zlen_take; lia).
    replace (idx + Z.of_nat k - snap - 1) with ((idx + Z.of_nat k - 1) - snap) by lia.
    rewrite log_at_take by lia. eauto.
  - rewrite log_at_app_r by (rewrite zlen_take; lia). rewrite zlen_take by lia.
    rewrite lookup_drop. exists e. split; [|eauto]. rewrite <- Hj. f_equal. lia.
Qed.

(** Nothing is lost unless a received entry conflicts with the log. *)
Lemma merge_keeps snap idx es l i x :
  idx ≤ snap + zlen l + 1 →
  (∀ j e y, es !! j = Some e → log_at snap l (idx + Z.of_nat j) = Some y →
            idx + Z.of_nat j ≤ i → LogEntry.Term y = LogEntry.Term e) →
  log_at snap l i = Some x → log_at snap (merge snap idx es l) i = Some x.
Proof.
  intros Hidx Hagree Hx. apply log_at_Some in Hx as Hi.
  destruct (merge_shape snap idx es l Hidx) as
    [[-> _]|(k & Hk & Hd & -> & _ & Hc)]; [done|].
  destruct (decide (i < idx + Z.of_nat k)).
  - rewrite log_at_app_l by (rewrite zlen_take; lia).
    replace (idx + Z.of_nat k - snap - 1) with ((idx + Z.of_nat k - 1) - snap) by lia.
    rewrite log_at_take by lia. done.
  - exfalso. destruct (lookup_lt_is_Some_2 es k Hk) as [e He].
    destruct (log_at_is_Some snap l (idx + Z.of_nat k)) as [y Hy]; [lia|].
    apply (Hc y e Hy He). eapply Hagree; eauto. lia.
Qed.

(** The last index after a merge. *)
Lemma merge_length snap idx es l :
  0 ≤ snap → idx ≤ snap + zlen l + 1 →
  (merge snap idx es l = l ∨
   snap + zlen (merge snap idx es l) = idx + zlen es - 1) ∧
  idx + zlen es - 1 ≤ Z.max snap (snap + zlen (merge snap idx es l)).
Proof.
  intros Hs Hidx. destruct (merge_shape snap idx es l Hidx) as
    [[-> Hall]|(k & Hk & Hd & -> & _ & _)].
  - split; [by left|].
    destruct (decide (idx + zlen es - 1 ≤ snap)); [lia|].
    destruct (decide (zlen es = 0)) as [E|E]; [pose proof (zlen_nonneg l); lia|].
    assert (0 < length es)%nat by (unfold zlen in E; lia).
    destruct (lookup_lt_is_Some_2 es (length es - 1)) as [e He]; [lia|].
    destruct (Hall _ e He) as (x & Hx & _); unfold zlen in *; [lia|].
    apply log_at_Some in Hx. unfold zlen in Hx. lia.
  - rewrite zlen_app, zlen_take by lia. unfold zlen in *. rewrite length_drop.
    split; [right|]; lia.
Qed.
End merge.
