(* ===== verification/AppendSpec.v ===== *)
(** * AppendSpec: what AppendEntries does to a follower

    The index invariant [wf] of a node, the total correctness of
    [HandleAppendEntries] (no panic, every branch), the log and commit index
    it leaves, and the agreement of leader and follower after a successful
    round trip. *)

From S2P Require Import Prelude Types Storage Timing Node Handlers Replication.
From S2P Require Import LogSpec.
Open Scope Z_scope.

Section append_spec.
Context {S : Type} {HS : Storage S}.
Implicit Types n : Node S.

Record wf n : Prop := {
  wf_snap : 0 ≤ snapshotIndex n;
  wf_commit : snapshotIndex n ≤ commitIndex n ≤ snapshotIndex n + zlen (log n);
  wf_applied : 0 ≤ lastApplied n ≤ commitIndex n;
  wf_room : snapshotIndex n + zlen (log n) < max_int64;
  wf_snapshot : snapshotIndex n ≠ 0 → ∃ sn, snapshot n = Some sn ∧
    Snapshot.LastIncludedIndex sn = snapshotIndex n ∧
    Snapshot.LastIncludedTerm sn = snapshotTerm n }.

(** The log of a node by Raft index. *)
Definition entry_at n (i : Z) : option LogEntry := log_at (snapshotIndex n) (log n) i.

Lemma lastLogIndex_eq n :
  0 ≤ snapshotIndex n → snapshotIndex n + zlen (log n) < max_int64 →
  lastLogIndex n = snapshotIndex n + zlen (log n).
Proof.
  intros. unfold lastLogIndex. pose proof (zlen_nonneg (log n)). by i64_norm.
Qed.

Lemma entryAt_eq n i :
  0 ≤ snapshotIndex n < max_int64 → 0 ≤ i ≤ max_int64 →
  entryAt i n = match entry_at n i with Some e => Ret e | None => Panic end.
Proof.
  intros Hs Hi. unfold entryAt, entry_at, log_at. i64_norm.
  destruct (Z.leb_spec i (snapshotIndex n)).
  - apply zget_Panic. lia.
  - unfold zget. destruct (Z.ltb_spec (i - snapshotIndex n - 1) 0); [lia|done].
Qed.

(** A request whose indices fit; a leader's requests do. *)
Definition req_fits (req : AppendEntriesRequest) : Prop :=
  0 ≤ AppendEntriesRequest.PrevLogIndex req ∧
  AppendEntriesRequest.PrevLogIndex req + zlen (AppendEntriesRequest.Entries req)
    < max_int64.

(** ** The entry loop *)

Lemma node_eta_log n : n <| log := log n |> <| storage := storage n |> = n.
Proof. by destruct n. Qed.

(** The first [k] entries of the log survive: all of them, or those before
    the first received entry that conflicts. *)
Definition cut_at_conflict (prev : Z) (es : list LogEntry) n (k : nat) : Prop :=
  k = length (log n) ∨
  ∃ (j : nat) e x, es !! j = Some e ∧ log n !! k = Some x ∧
    snapshotIndex n + Z.of_nat k = prev + Z.of_nat j ∧ LogEntry.Term x ≠ LogEntry.Term e.

Lemma cut_at_conflict_cons prev e es n k :
  cut_at_conflict (prev + 1) es n k → cut_at_conflict prev (e :: es) n k.
Proof.
  intros [->|(j & e' & x & ? & ? & ? & ?)]; [by left|right].
  exists (Datatypes.S j), e', x. split_and!; try done. lia.
Qed.

Lemma appendLoop_merge prev i es n :
  0 ≤ snapshotIndex n → snapshotIndex n + zlen (log n) < max_int64 →
  0 ≤ prev → 0 ≤ i → prev + i + zlen es < max_int64 →
  prev + i ≤ snapshotIndex n + zlen (log n) →
  ∃ n' err, appendLoop prev i es n = Ret (n', err) ∧ ∃ st, match err with
    | None => n' = n <| log := merge (snapshotIndex n) (prev + i + 1) es (log n) |>
                     <| storage := st |>
    | Some _ => ∃ k, n' = n <| log := take k (log n) |> <| storage := st |> ∧
                     cut_at_conflict (prev + i) es n k
    end.
Proof.
  intros Hs Hroom Hprev Hi Hfit Hidx. revert i Hi Hfit Hidx.
  induction es as [|e es IH]; intros i Hi Hfit Hidx; cbn [appendLoop merge].
  { exists n, None. split; [done|]. exists (storage n). by rewrite node_eta_log. }
  rewrite zlen_cons in Hfit. pose proof (zlen_nonneg es). pose proof (zlen_nonneg (log n)).
  i64_norm. rewrite lastLogIndex_eq by lia.
  assert (prev + i + 1 ≤ snapshotIndex n + zlen (log n) →
    ∃ n' err, appendLoop prev (i + 1) es n = Ret (n', err) ∧ ∃ st, match err with
    | None => n' = n <| log := merge (snapshotIndex n) (prev + i + 1 + 1) es (log n) |>
                     <| storage := st |>
    | Some _ => ∃ k, n' = n <| log := take k (log n) |> <| storage := st |> ∧
                     cut_at_conflict (prev + i) (e :: es) n k
    end) as Hnext.
  { intros Hle. destruct (IH (i + 1)) as (n' & err & ? & st & Hn'); try lia.
    exists n', err. split; [done|]. exists st. rewrite !Z.add_assoc in Hn'.
    destruct err; [|done]. destruct Hn' as (k & ? & ?). eauto using cut_at_conflict_cons. }
  destruct (Z.leb_spec (prev + i + 1) (snapshotIndex n)); [apply Hnext; lia|].
  assert (take (length (log n)) (log n) = log n) as Hall by by rewrite take_ge.
  destruct (Z.ltb_spec (snapshotIndex n + zlen (log n)) (prev + i + 1)).
  - rewrite lookup_ge_None_2 by (unfold zlen in *; lia).
    rewrite (take_ge (log n)) by (unfold zlen in *; lia).
    unfold tracePersistAppendLog, persistAppendLog.
    destruct (with_storage _ _) as [n1 err] eqn:E.
    destruct (with_storage_frame _ _ _ _ E) as [st ->].
    destruct err; do 2 eexists; (split; [done|]); exists st;
      [exists (length (log n)); rewrite Hall; split; [by destruct n|by left]|].
    by rewrite cloneLogEntries_id.
  - rewrite entryAt_eq by lia. unfold entry_at, log_at.
    rewrite (proj2 (Z.leb_gt _ _)) by lia.
    destruct (lookup_lt_is_Some_2 (log n) (Z.to_nat (prev + i + 1 - snapshotIndex n - 1)))
      as [x Hx]; [unfold zlen in *; lia|]. rewrite Hx. cbn [mbind outcome_bind].
    destruct (Z.eqb_spec (LogEntry.Term x) (LogEntry.Term e)); [apply Hnext; lia|].
    unfold tracePersistTruncateLog, persistTruncateLog. cbv zeta.
    destruct (with_storage _ _) as [n1 err] eqn:E.
    destruct (with_storage_frame _ _ _ _ E) as [st ->].
    destruct err; [do 2 eexists; (split; [done|]); exists st, (length (log n));
                   rewrite Hall; split; [by destruct n|by left]|].
    cbn. i64_norm. rewrite slice_to_Ret by lia. cbn.
    unfold tracePersistAppendLog, persistAppendLog.
    destruct (with_storage (AppendLog _) _) as [n2 err] eqn:E2.
    destruct (with_storage_frame _ _ _ _ E2) as [st2 ->].
    destruct err; do 2 eexists; (split; [done|]); exists st2.
    + eexists; split; [done|]. right. exists 0%nat, e, x. split_and!; [done|done|lia|done].
    + by rewrite cloneLogEntries_id.
Qed.

(** ** The other stages *)

(** The vote survives only if the term does. *)
Definition kept_vote (t : Z) n : string :=
  if currentTerm n <? t then "" else votedFor n.

Lemma adoptTerm_frame t n n' e :
  currentTerm n ≤ t → adoptTerm t n = (n', e) →
  ∃ st, match e with
  | None => n' = n <| currentTerm := t |> <| votedFor := kept_vote t n |> <| storage := st |>
  | Some _ => currentTerm n < t ∧ n' = n <| storage := st |>
  end.
Proof.
  unfold adoptTerm, kept_vote. intros Hle. destruct (Z.ltb_spec (currentTerm n) t).
  - destruct (tracePersistHardState _) as [n1 [err|]] eqn:E;
      destruct (with_storage_frame _ _ _ _ E) as [st ->]; intros [= <- <-]; exists st.
    + split; [done|]. by destruct n.
    + by destruct n.
  - intros [= <- <-]. exists (storage n). replace t with (currentTerm n) by lia.
    by destruct n.
Qed.

Definition followed (lc : Z) n : Z :=
  if commitIndex n <? lc then Z.min lc (lastLogIndex n) else commitIndex n.

Lemma followCommit_frame lc now n n' e :
  followCommit lc now n = (n', e) →
  ∃ st cs an, n' = n <| commitIndex := followed lc n |> <| storage := st |>
                     <| commitSeenAt := cs |> <| applyNotifyCh := an |> ∧
    (e = None → followed lc n ≠ commitIndex n → an = true) ∧
    (e ≠ None → commitIndex n < lc).
Proof.
  unfold followCommit, followed. destruct (Z.ltb_spec (commitIndex n) lc).
  - assert ((if lc <? lastLogIndex n then lc else lastLogIndex n) = Z.min lc (lastLogIndex n))
      as -> by (destruct (Z.ltb_spec lc (lastLogIndex n)); lia).
    destruct (tracePersistHardState _) as [n1 [err|]] eqn:E;
      destruct (with_storage_frame _ _ _ _ E) as [st ->]; intros [= <- <-].
    + exists st, (commitSeenAt n), (applyNotifyCh n). split_and!; [by destruct n|done|done].
    + do 3 eexists. split_and!; [by destruct n|done|done].
  - intros [= <- <-]. exists (storage n), (commitSeenAt n), (applyNotifyCh n).
    split_and!; [by destruct n|done|done].
Qed.

Lemma first_index_from_spec snap term i l :
  0 ≤ snap → 0 ≤ i → snap + i + zlen l < max_int64 →
  let r := first_index_from snap term i l in
  (r = 0 ∧ ∀ e, e ∈ l → LogEntry.Term e ≠ term) ∨
  ∃ k e, l !! k = Some e ∧ r = snap + i + Z.of_nat k + 1 ∧ LogEntry.Term e = term ∧
    ∀ j e', (j < k)%nat → l !! j = Some e' → LogEntry.Term e' ≠ term.
Proof.
  revert i. induction l as [|e l IH]; intros i Hs Hi Hfit; cbn [first_index_from].
  { left. split; [done|]. by intros e ?%elem_of_nil. }
  rewrite zlen_cons in Hfit. pose proof (zlen_nonneg l).
  destruct (Z.eqb_spec (LogEntry.Term e) term) as [He|He].
  - right. exists 0%nat, e. i64_norm. split_and!; [done|lia|done|lia].
  - destruct (IH (i + 1)) as [[-> Hall]|(k & x & Hk & -> & Hx & Hall)]; try lia.
    + left. split; [done|]. intros y [->|?]%elem_of_cons; auto.
    + right. exists (Datatypes.S k), x. split_and!; [done|lia|done|].
      intros [|j] e' Hj He'; simpl in He'; [by simplify_eq|]. eapply Hall; [|done]. lia.
Qed.

(** [firstIndexOfTerm] on a term the log holds: the first index with it. *)
Lemma firstIndexOfTerm_spec n i x :
  0 ≤ snapshotIndex n → snapshotIndex n + zlen (log n) < max_int64 →
  entry_at n i = Some x →
  let r := firstIndexOfTerm (LogEntry.Term x) n in
  snapshotIndex n < r ≤ i ∧
  (∃ e, entry_at n r = Some e ∧ LogEntry.Term e = LogEntry.Term x) ∧
  ∀ j e, j < r → entry_at n j = Some e → LogEntry.Term e ≠ LogEntry.Term x.
Proof.
  intros Hs Hroom Hx r. unfold entry_at in *. pose proof (log_at_Some _ _ _ _ Hx) as Hi.
  assert (∀ j e, log_at (snapshotIndex n) (log n) j = Some e →
    snapshotIndex n < j ∧ log n !! Z.to_nat (j - snapshotIndex n - 1) = Some e) as Hat.
  { intros j e. unfold log_at. destruct (Z.leb_spec j (snapshotIndex n)); [done|]. auto. }
  destruct (Hat _ _ Hx) as [_ Hxl].
  destruct (first_index_from_spec (snapshotIndex n) (LogEntry.Term x) 0 (log n))
    as [[_ Hall]|(k & e & Hk & Hr & He & Hall)]; try lia.
  { destruct (Hall x); [by eapply list_elem_of_lookup_2|done]. }
  change (first_index_from _ _ 0 (log n)) with r in Hr.
  split_and!; [lia| | |].
  - destruct (decide (Z.to_nat (i - snapshotIndex n - 1) < k)%nat); [|lia].
    by destruct (Hall _ x l Hxl).
  - exists e. split; [|done]. unfold log_at. destruct (Z.leb_spec r (snapshotIndex n)); [lia|].
    rewrite <- Hk. f_equal. lia.
  - intros j e' Hj He'. destruct (Hat _ _ He') as [? Hl]. eapply Hall; [|exact Hl]. lia.
Qed.

(** What the consistency check answers. *)
Lemma checkPrev_total req n :
  wf n → req_fits req → ∃ c, checkPrev req n = Ret c ∧
  let prev := AppendEntriesRequest.PrevLogIndex req in
  let prevTerm := AppendEntriesRequest.PrevLogTerm req in
  match c with
  | None =>
      prev ≤ snapshotIndex n + zlen (log n) ∧
      (snapshotIndex n < prev →
         ∃ x, entry_at n prev = Some x ∧ LogEntry.Term x = prevTerm) ∧
      (prev = snapshotIndex n → prevTerm = snapshotTerm n)
  | Some (ct, ci) =>
      0 < ci ∧
      ((snapshotIndex n + zlen (log n) < prev ∧ ct = 0 ∧
        ci = snapshotIndex n + zlen (log n) + 1) ∨
       (prev = snapshotIndex n ∧ prevTerm ≠ snapshotTerm n ∧ ct = 0 ∧ ci = prev + 1) ∨
       (∃ x, entry_at n prev = Some x ∧ LogEntry.Term x ≠ prevTerm ∧
          ct = LogEntry.Term x ∧ snapshotIndex n < ci ≤ prev ∧
          (∃ e, entry_at n ci = Some e ∧ LogEntry.Term e = ct) ∧
          ∀ j e, j < ci → entry_at n j = Some e → LogEntry.Term e ≠ ct))
  end.
Proof.
  intros [Hs Hc Ha Hroom _] [Hp Hfit]. unfold checkPrev. cbv zeta.
  set (prev := AppendEntriesRequest.PrevLogIndex req) in *.
  pose proof (zlen_nonneg (AppendEntriesRequest.Entries req)).
  rewrite lastLogIndex_eq by lia. pose proof (zlen_nonneg (log n)). i64_norm.
  destruct (Z.ltb_spec (snapshotIndex n + zlen (log n)) prev).
  { eexists; split; [done|]. simpl. split; [lia|]. left. lia. }
  destruct (Z.ltb_spec (snapshotIndex n) prev).
  - rewrite entryAt_eq by lia.
    destruct (log_at_is_Some (snapshotIndex n) (log n) prev) as [x Hx]; [lia|].
    change (entry_at n prev = Some x) in Hx. rewrite Hx. cbn.
    destruct (Z.eqb_spec (LogEntry.Term x) (AppendEntriesRequest.PrevLogTerm req)).
    + eexists; split; [done|]. simpl. split_and!; [lia|eauto|lia].
    + eexists; split; [done|]. simpl.
      destruct (firstIndexOfTerm_spec n prev x) as (? & (e & ? & ?) & ?); try (done || lia).
      split; [lia|]. right; right. exists x. split_and!; eauto; lia.
  - destruct (Z.eqb_spec prev (snapshotIndex n)).
    + destruct (Z.eqb_spec (AppendEntriesRequest.PrevLogTerm req) (snapshotTerm n)).
      * eexists; split; [done|]. simpl. split_and!; [lia|lia|done].
      * eexists; split; [done|]. simpl. split; [lia|]. right; left. split_and!; auto. lia.
    + eexists; split; [done|]. simpl. split_and!; lia.
Qed.

(** ** The outcomes of AppendEntries *)

(** The node after the term update and the step down to follower. *)
Definition as_follower (t : Z) (v : string) (st : option S) n : Node S :=
  n <| currentTerm := t |> <| votedFor := v |> <| storage := st |>
    <| role := Follower |> <| electionTimeoutResetCh := true |>.

(** Why a follower of the current term rejects, and the hint it gives. *)
Inductive conflict (req : AppendEntriesRequest) n : Z → Z → Prop :=
  | conflict_short :
      snapshotIndex n + zlen (log n) < AppendEntriesRequest.PrevLogIndex req →
      conflict req n 0 (snapshotIndex n + zlen (log n) + 1)
  | conflict_boundary :
      AppendEntriesRequest.PrevLogIndex req = snapshotIndex n →
      AppendEntriesRequest.PrevLogTerm req ≠ snapshotTerm n →
      conflict req n 0 (snapshotIndex n + 1)
  | conflict_term x ci :
      entry_at n (AppendEntriesRequest.PrevLogIndex req) = Some x →
      LogEntry.Term x ≠ AppendEntriesRequest.PrevLogTerm req →
      snapshotIndex n < ci ≤ AppendEntriesRequest.PrevLogIndex req →
      (∃ e, entry_at n ci = Some e ∧ LogEntry.Term e = LogEntry.Term x) →
      (∀ j e, j < ci → entry_at n j = Some e → LogEntry.Term e ≠ LogEntry.Term x) →
      conflict req n (LogEntry.Term x) ci.

(** PrevLogIndex is in the log with the leader's term, or below the base. *)
Definition prev_matches (req : AppendEntriesRequest) n : Prop :=
  let prev := AppendEntriesRequest.PrevLogIndex req in
  let prevTerm := AppendEntriesRequest.PrevLogTerm req in
  prev ≤ snapshotIndex n + zlen (log n) ∧
  (snapshotIndex n < prev → ∃ x, entry_at n prev = Some x ∧ LogEntry.Term x = prevTerm) ∧
  (prev = snapshotIndex n → prevTerm = snapshotTerm n).

(** The follower's log after a matching request. *)
Definition merged (req : AppendEntriesRequest) n : list LogEntry :=
  merge (snapshotIndex n) (AppendEntriesRequest.PrevLogIndex req + 1)
    (AppendEntriesRequest.Entries req) (log n).

(** Every way [HandleAppendEntries] ends. *)
Inductive append_post (req : AppendEntriesRequest) n
    : Node S → result AppendEntriesResponse → Prop :=
  | post_degraded : degraded n = true → append_post req n n (Err ErrNodeDegraded)
  | post_stale :
      degraded n = false → AppendEntriesRequest.Term req < currentTerm n →
      append_post req n n (Val (AppendEntriesResponse.mk (currentTerm n) false 0 0))
  | post_term_failed st err :
      degraded n = false → currentTerm n < AppendEntriesRequest.Term req →
      append_post req n (n <| storage := st |>) (Err err)
  | post_reject v st ct ci :
      degraded n = false → currentTerm n ≤ AppendEntriesRequest.Term req →
      v = kept_vote (AppendEntriesRequest.Term req) n →
      conflict req n ct ci →
      append_post req n (as_follower (AppendEntriesRequest.Term req) v st n)
        (Val (AppendEntriesResponse.mk (AppendEntriesRequest.Term req) false ct ci))
  | post_log_failed v st k err :
      degraded n = false → currentTerm n ≤ AppendEntriesRequest.Term req →
      v = kept_vote (AppendEntriesRequest.Term req) n →
      prev_matches req n →
      cut_at_conflict (AppendEntriesRequest.PrevLogIndex req)
        (AppendEntriesRequest.Entries req) n k →
      append_post req n
        (as_follower (AppendEntriesRequest.Term req) v st n <| log := take k (log n) |>)
        (Err err)
  | post_merged v st ci cs an r :
      degraded n = false → currentTerm n ≤ AppendEntriesRequest.Term req →
      v = kept_vote (AppendEntriesRequest.Term req) n →
      prev_matches req n →
      ci = followed (AppendEntriesRequest.LeaderCommit req) (n <| log := merged req n |>) →
      r = Val (AppendEntriesResponse.mk (AppendEntriesRequest.Term req) true 0 0) ∨
        (∃ err, r = Err err) ∧ commitIndex n < AppendEntriesRequest.LeaderCommit req →
      (ci ≠ commitIndex n → (∃ resp, r = Val resp) → an = true) →
      append_post req n
        (as_follower (AppendEntriesRequest.Term req) v st n
           <| log := merged req n |> <| commitIndex := ci |>
           <| commitSeenAt := cs |> <| applyNotifyCh := an |>) r.

Lemma checkPrev_conflict req n :
  wf n → req_fits req → ∃ c, checkPrev req n = Ret c ∧
  match c with Some (ct, ci) => conflict req n ct ci | None => prev_matches req n end.
Proof.
  intros Hwf Hfit. destruct (checkPrev_total req n Hwf Hfit) as (c & Hc & Hspec).
  exists c. split; [done|]. destruct c as [[ct ci]|]; [|done].
  destruct Hspec as [_ [(?&->&->)|[(?&?&->&->)|(x&?&?&->&?&?&?)]]].
  - by constructor.
  - rewrite H. by constructor.
  - by eapply conflict_term.
Qed.

Lemma conflict_no_match req n ct ci :
  0 ≤ snapshotIndex n → conflict req n ct ci → 0 < ci ∧ ¬ prev_matches req n.
Proof.
  intros Hs Hc. pose proof (zlen_nonneg (log n)). unfold prev_matches.
  destruct Hc as [?|? ?|x ci' Hx ? ? ? ?].
  - split; [lia|]. intros [? ?]. lia.
  - split; [lia|]. naive_solver.
  - split; [lia|]. intros (_ & Hm & _). destruct Hm as (y & Hy & ?); [lia|congruence].
Qed.

Lemma prev_matches_dec req n : wf n → req_fits req → prev_matches req n ∨ ¬ prev_matches req n.
Proof.
  intros Hwf Hfit. destruct (checkPrev_conflict req n Hwf Hfit) as ([[ct ci]|] & _ & Hc); [right|by left].
  eapply conflict_no_match; [apply Hwf|done].
Qed.

(** The same after the step down: the stages past the term update. *)
Lemma checkPrev_follower req t v st n :
  wf n → req_fits req → ∃ c, checkPrev req (as_follower t v st n) = Ret c ∧
  match c with Some (ct, ci) => conflict req n ct ci | None => prev_matches req n end.
Proof.
  intros Hwf Hfit. destruct (checkPrev_conflict req (as_follower t v st n)) as (c & Hc & Hs).
  { destruct Hwf. by split. } { done. }
  exists c. split; [done|]. destruct c as [[ct ci]|]; [|done].
  destruct Hs; [by apply (conflict_short req n)|by apply (conflict_boundary req n)|
                by eapply (conflict_term req n)].
Qed.

Lemma appendLoop_follower req t v st n :
  wf n → req_fits req → prev_matches req n →
  ∃ n' err, appendLoop (AppendEntriesRequest.PrevLogIndex req) 0
              (AppendEntriesRequest.Entries req) (as_follower t v st n) = Ret (n', err) ∧
  ∃ st', match err with
    | None => n' = as_follower t v st' n <| log := merged req n |>
    | Some _ => ∃ k, n' = as_follower t v st' n <| log := take k (log n) |> ∧
        cut_at_conflict (AppendEntriesRequest.PrevLogIndex req)
          (AppendEntriesRequest.Entries req) n k
    end.
Proof.
  intros Hwf [Hf1 Hf2] Hp.
  destruct (appendLoop_merge (AppendEntriesRequest.PrevLogIndex req) 0
              (AppendEntriesRequest.Entries req) (as_follower t v st n))
    as (n2 & err & -> & st2 & H2); [apply Hwf|apply Hwf|done|done|lia|simpl; destruct Hp; lia|].
  do 2 eexists; split; [done|]. exists st2. rewrite Z.add_0_r in H2. destruct err.
  - destruct H2 as (k & -> & Hk). exists k. split; [by destruct n|exact Hk].
  - subst n2. by destruct n.
Qed.

Lemma HandleAppendEntries_post now req n :
  wf n → req_fits req → ∃ n' r,
  HandleAppendEntries now req n = Ret (n', r) ∧ append_post req n n' r.
Proof.
  intros Hwf Hfit. unfold HandleAppendEntries.
  destruct (degraded n) eqn:Hdeg; [by do 2 eexists; split; [|apply post_degraded]|].
  destruct (Z.ltb_spec (AppendEntriesRequest.Term req) (currentTerm n)) as [?|Hterm];
    [by do 2 eexists; split; [|apply post_stale]|].
  destruct (adoptTerm _ n) as [n1 e1] eqn:E1.
  destruct (adoptTerm_frame _ _ _ _ Hterm E1) as [st F1].
  destruct e1 as [err|].
  { destruct F1 as [? ->]. do 2 eexists; split; [done|]. by apply post_term_failed. }
  set (t := AppendEntriesRequest.Term req) in *. set (v := kept_vote t n) in *.
  assert (resetElectionTimeout (n1 <| role := Follower |>) = as_follower t v st n) as ->
    by (subst n1; by destruct n).
  destruct (checkPrev_follower req t v st n Hwf Hfit) as (c & -> & Hc). simpl.
  destruct c as [[ct ci]|]; [by do 2 eexists; split; [|apply post_reject]|].
  destruct (appendLoop_follower req t v st n Hwf Hfit Hc) as (n2 & e2 & -> & st2 & H2). simpl.
  destruct e2 as [err|].
  { destruct H2 as (k & -> & Hk). do 2 eexists; split; [done|]. by apply post_log_failed. }
  subst n2. destruct (followCommit _ now _) as [n3 e3] eqn:E3.
  destruct (followCommit_frame _ _ _ _ _ E3) as (st3 & cs & an & -> & Han & Hlc).
  exists (as_follower t v st3 n <| log := merged req n |>
      <| commitIndex := followed (AppendEntriesRequest.LeaderCommit req)
                          (n <| log := merged req n |>) |>
      <| commitSeenAt := cs |> <| applyNotifyCh := an |>).
  destruct e3 as [err|]; eexists; (split; [f_equal; f_equal; by destruct n|]);
    eapply post_merged; try done.
  - right. split; [by eexists|]. by apply Hlc.
  - by intros _ [? [=]].
  - by left.
  - intros ? _. by apply Han.
Qed.

(** Only the log and commit index of [n'] matter for [wf]. *)
Lemma wf_with n (l : list LogEntry) c n' :
  wf n → log n' = l → commitIndex n' = c → snapshotIndex n' = snapshotIndex n →
  snapshotTerm n' = snapshotTerm n → snapshot n' = snapshot n →
  lastApplied n' = lastApplied n →
  commitIndex n ≤ c ≤ snapshotIndex n + zlen l →
  snapshotIndex n + zlen l < max_int64 → wf n'.
Proof.
  intros [Hs Hc Ha Hr Hsn] Hl Hci Hsi Hst Hsnap Hla Hrange Hroom.
  split; rewrite ?Hl, ?Hci, ?Hsi, ?Hst, ?Hsnap, ?Hla; try done; lia.
Qed.

(** [wf] reads seven fields. *)
Lemma wf_same n n' :
  wf n → log n' = log n → commitIndex n' = commitIndex n →
  snapshotIndex n' = snapshotIndex n → snapshotTerm n' = snapshotTerm n →
  snapshot n' = snapshot n → lastApplied n' = lastApplied n → wf n'.
Proof. intros [? ? ? ? ?] Hl Hc Hs Ht Hn Ha. split; rewrite ?Hl, ?Hc, ?Hs, ?Ht, ?Hn, ?Ha; done. Qed.
End append_spec.

(** Equations between fields of updated nodes. *)
Ltac node_eq := unfold set_field; simpl; reflexivity.

(** [wf] of a node that differs in its log and commit index only. *)
Ltac wf_step := eapply wf_with; try done; simpl in *; lia.
