(* ===== verification/AppendProtocol.v ===== *)
(** * AppendProtocol: what a successful AppendEntries establishes

    The theorems about one AppendEntries exchange: every outcome keeps the
    follower's invariant, and its committed prefix if the request contradicts
    none of it; an acknowledged request is in the follower's log, a rejection
    carries a usable hint, and the leader builds the request from its log (or
    panics, when the peer's next index is below the snapshot).  That leader
    and follower agree afterwards is in the CatchUp file, with what the leader
    records. *)

From S2P Require Import Prelude Types Storage Timing Node Handlers Replication.
From S2P Require Import LogSpec AppendSpec.
Open Scope Z_scope.

Section append_protocol.
Context {S : Type} {HS : Storage S}.
Implicit Types n : Node S.

(** No received entry contradicts a committed entry: what Raft's log matching
    and leader completeness guarantee of a leader's request. *)
Definition no_committed_conflict (req : AppendEntriesRequest) n : Prop :=
  ∀ (j : nat) e x,
    AppendEntriesRequest.Entries req !! j = Some e →
    entry_at n (AppendEntriesRequest.PrevLogIndex req + Z.of_nat j + 1) = Some x →
    AppendEntriesRequest.PrevLogIndex req + Z.of_nat j + 1 ≤ commitIndex n →
    LogEntry.Term x = LogEntry.Term e.

(** The entries up to [c] are the same in both logs. *)
Definition same_upto (c : Z) n n' : Prop :=
  snapshotIndex n' = snapshotIndex n ∧
  ∀ i, i ≤ c → entry_at n' i = entry_at n i.

Lemma entry_at_lookup n k x :
  log n !! k = Some x → entry_at n (snapshotIndex n + Z.of_nat k + 1) = Some x.
Proof.
  intros Hk. unfold entry_at, log_at.
  destruct (Z.leb_spec (snapshotIndex n + Z.of_nat k + 1) (snapshotIndex n)); [lia|].
  rewrite <- Hk. f_equal. lia.
Qed.

Section prefix.
Context (req : AppendEntriesRequest) (n : Node S).
Context (Hwf : wf n) (Hfit : req_fits req) (Hok : no_committed_conflict req n).
Context (Hprev : prev_matches req n).

Lemma cut_keeps_committed k :
  cut_at_conflict (AppendEntriesRequest.PrevLogIndex req)
    (AppendEntriesRequest.Entries req) n k →
  commitIndex n ≤ snapshotIndex n + Z.of_nat k ∧ (k ≤ length (log n))%nat.
Proof.
  intros [->|(j & e & x & Hj & Hk & Hjk & Hne)].
  - split; [apply Hwf|done].
  - apply lookup_lt_Some in Hk as Hlt. split; [|lia].
    destruct (decide (commitIndex n ≤ snapshotIndex n + Z.of_nat k)); [done|].
    apply entry_at_lookup in Hk. destruct Hne. eapply Hok; [exact Hj| |lia].
    rewrite <- Hk. f_equal. lia.
Qed.

Lemma merged_keeps_committed i :
  i ≤ commitIndex n → log_at (snapshotIndex n) (merged req n) i = entry_at n i.
Proof.
  intros Hi. destruct Hwf as [? Hc ? ? ?]. destruct Hprev as [Hp _].
  destruct (entry_at n i) as [x|] eqn:Hx.
  - apply merge_keeps; [lia| |done]. intros j e y Hj Hy Hle.
    eapply Hok; [exact Hj| |lia]. rewrite <- Hy. f_equal. lia.
  - unfold entry_at, log_at in *. destruct (Z.leb_spec i (snapshotIndex n)); [done|].
    apply lookup_ge_None in Hx. unfold zlen in *. lia.
Qed.

Lemma merged_covers :
  commitIndex n ≤ snapshotIndex n + zlen (merged req n) < max_int64.
Proof.
  destruct Hwf as [? Hc ? Hroom ?]. destruct Hprev as [Hp _]. destruct Hfit as [? ?].
  destruct (merge_length (snapshotIndex n) (AppendEntriesRequest.PrevLogIndex req + 1)
    (AppendEntriesRequest.Entries req) (log n)) as [[Heq|Heq] _]; try lia;
    fold (merged req n) in Heq.
  - rewrite Heq. lia.
  - split; [|lia].
    destruct (decide (commitIndex n = snapshotIndex n)) as [->|];
      [pose proof (zlen_nonneg (merged req n)); lia|].
    destruct (log_at_is_Some (snapshotIndex n) (log n) (commitIndex n)) as [x Hx]; [lia|].
    fold (entry_at n (commitIndex n)) in Hx. rewrite <- merged_keeps_committed in Hx by lia.
    apply log_at_Some in Hx. lia.
Qed.
End prefix.

Lemma followed_range lc n :
  wf n → commitIndex n ≤ followed lc n ≤ snapshotIndex n + zlen (log n).
Proof.
  intros [? ? ? ? ?]. unfold followed. rewrite lastLogIndex_eq by lia.
  destruct (Z.ltb_spec (commitIndex n) lc); lia.
Qed.

Lemma log_at_take_k snap (l : list LogEntry) k i :
  i ≤ snap + Z.of_nat k → log_at snap (take k l) i = log_at snap l i.
Proof.
  intros. rewrite <- (log_at_take snap l i (snap + Z.of_nat k)) by lia. do 2 f_equal. lia.
Qed.

(** What every outcome leaves of a well-formed node. *)
Lemma append_post_invariant req n n' r :
  wf n → req_fits req → no_committed_conflict req n →
  append_post req n n' r →
  wf n' ∧ same_upto (commitIndex n) n n' ∧ commitIndex n ≤ commitIndex n' ∧
  currentTerm n ≤ currentTerm n' ∧ lastApplied n' = lastApplied n.
Proof.
  intros Hwf Hfit Hok Hpost. pose proof Hwf as [Hs Hc Ha Hr Hsn].
  destruct Hpost as [|? ?|? ? ? ?|v st ct ci ? ? ? ?|v st k err ? ? ? Hp Hk|
                     v st ci cs an r ? ? ? Hp Hci ? ?].
  1,2,3: split_and!; [wf_step|done|simpl; lia|simpl; lia|done].
  - split_and!; [wf_step|done|simpl; lia|simpl; lia|done].
  - destruct (cut_keeps_committed req n Hwf Hok k Hk) as [? ?].
    assert (zlen (take k (log n)) = Z.of_nat k) as Hlen
      by (unfold zlen; rewrite length_take; lia).
    unfold zlen in Hr. split_and!; [|split; [done|]|simpl; lia|simpl; lia|done].
    + apply (wf_with n (take k (log n)) (commitIndex n)); try done; rewrite Hlen; lia.
    + intros i Hi. unfold entry_at; simpl. apply log_at_take_k. lia.
  - pose proof (merged_covers req n Hwf Hfit Hok Hp) as Hcov.
    assert (wf (n <| log := merged req n |>)) as Hwfm by (apply (wf_with n (merged req n) (commitIndex n)); try done; lia).
    pose proof (followed_range (AppendEntriesRequest.LeaderCommit req) _ Hwfm) as Hf.
    rewrite <- Hci in Hf. simpl in Hf.
    split_and!; [|split; [done|]|simpl; lia|simpl; lia|done].
    + wf_step.
    + intros i Hi. unfold entry_at; simpl. by apply merged_keeps_committed.
Qed.

(** What it leaves without the hypothesis on the entries. *)
Lemma append_post_frame req n n' r :
  append_post req n n' r →
  currentTerm n ≤ currentTerm n' ∧ lastApplied n' = lastApplied n ∧
  snapshotIndex n' = snapshotIndex n.
Proof. destruct 1; simpl; split_and!; (done || lia). Qed.

(** ** The log after an acknowledged request *)

Lemma append_post_success req n n' resp :
  append_post req n n' (Val resp) → AppendEntriesResponse.Success resp = true →
  prev_matches req n ∧ currentTerm n ≤ AppendEntriesRequest.Term req ∧
  role n' = Follower ∧ currentTerm n' = AppendEntriesRequest.Term req ∧
  snapshotIndex n' = snapshotIndex n ∧ log n' = merged req n ∧
  commitIndex n' =
    followed (AppendEntriesRequest.LeaderCommit req) (n <| log := merged req n |>) ∧
  (commitIndex n' ≠ commitIndex n → applyNotifyCh n' = true).
Proof.
  intros Hpost Hs. inversion Hpost; subst; try done.
  destruct H4 as [[= ->]|[[err [=]] _]]. split_and!; try done.
  intros Hne. simpl in *. eauto.
Qed.

(** The log of a follower that acknowledged, index by index. *)
Definition log_received req n n' : Prop :=
  let prev := AppendEntriesRequest.PrevLogIndex req in
  (∀ i, i ≤ prev → entry_at n' i = entry_at n i) ∧
  (∀ (j : nat) e, AppendEntriesRequest.Entries req !! j = Some e →
     snapshotIndex n < prev + Z.of_nat j + 1 →
     ∃ x, entry_at n' (prev + Z.of_nat j + 1) = Some x ∧
          LogEntry.Term x = LogEntry.Term e ∧
          (x = e ∨ entry_at n (prev + Z.of_nat j + 1) = Some x)) ∧
  (∀ i x, entry_at n i = Some x →
     (∀ (j : nat) e y, AppendEntriesRequest.Entries req !! j = Some e →
        entry_at n (prev + Z.of_nat j + 1) = Some y → prev + Z.of_nat j + 1 ≤ i →
        LogEntry.Term y = LogEntry.Term e) →
     entry_at n' i = Some x).

Lemma merged_received req n n' :
  prev_matches req n → snapshotIndex n' = snapshotIndex n → log n' = merged req n →
  log_received req n n'.
Proof.
  intros [Hp _] Hs Hl. unfold log_received, entry_at. rewrite Hs, Hl. unfold merged.
  split_and!.
  - intros i Hi. apply merge_below; lia.
  - intros j e Hj Hsn.
    replace (AppendEntriesRequest.PrevLogIndex req + Z.of_nat j + 1) with
      (AppendEntriesRequest.PrevLogIndex req + 1 + Z.of_nat j) in * by lia.
    apply merge_received; [lia|done|done].
  - intros i x Hx Hag. apply merge_keeps; [lia| |done].
    intros j e y Hj Hy Hle. eapply Hag; [done| |lia]. rewrite <- Hy. f_equal. lia.
Qed.

(** ** The leader's request *)

(** The next index the builder uses: at least 1. *)
Definition nextFor (p : string) n : Z := Z.max 1 (map_get 0 p (nextIndex n)).

(** The request of a leader for a peer whose next index is [next]. *)
Definition request_for (p : string) n (next : Z) (req : AppendEntriesRequest) : Prop :=
  AppendEntriesRequest.Term req = currentTerm n ∧
  AppendEntriesRequest.LeaderID req = id n ∧
  AppendEntriesRequest.PrevLogIndex req = next - 1 ∧
  AppendEntriesRequest.LeaderCommit req = commitIndex n ∧
  AppendEntriesRequest.Entries req = drop (Z.to_nat (next - snapshotIndex n - 1)) (log n) ∧
  (next - 1 = snapshotIndex n → AppendEntriesRequest.PrevLogTerm req = snapshotTerm n) ∧
  (∀ x, entry_at n (next - 1) = Some x → AppendEntriesRequest.PrevLogTerm req = LogEntry.Term x).

Lemma appendEntriesRequestForPeer_spec p n :
  wf n → map_get 0 p (nextIndex n) ≤ max_int64 →
  role n = Leader → map_get false p (replicateInFlight n) = false →
  let next := nextFor p n in
  if bool_decide (snapshotIndex n < next ≤ snapshotIndex n + zlen (log n) + 1) then
    ∃ req, appendEntriesRequestForPeer p n =
      Ret (n <| replicateInFlight := <[p := true]> (replicateInFlight n) |>, (Some req, true)) ∧
      request_for p n next req
  else appendEntriesRequestForPeer p n = Panic.
Proof.
  intros [Hs Hc Ha Hr _] Hmax Hrole Hfl next. unfold appendEntriesRequestForPeer.
  rewrite Hrole, Hfl. change (negb (role_eqb Leader Leader)) with false. cbv iota.
  simpl nextIndex.
  assert ((if map_get 0 p (nextIndex n) <? 1 then 1 else map_get 0 p (nextIndex n)) = next) as ->
    by (unfold next, nextFor; destruct (Z.ltb_spec (map_get 0 p (nextIndex n)) 1); lia).
  assert (1 ≤ next ≤ max_int64) as Hn by (unfold next, nextFor; lia).
  clearbody next. pose proof (zlen_nonneg (log n)).
  set (n1 := n <| replicateInFlight := _ |>).
  assert (lastLogIndex n1 = snapshotIndex n + zlen (log n)) as ->
    by by apply (lastLogIndex_eq n1).
  change (snapshotIndex n1) with (snapshotIndex n).
  change (log n1) with (log n). change (snapshotTerm n1) with (snapshotTerm n).
  i64_norm.
  case_bool_decide as Hin.
  - assert ((if next <=? snapshotIndex n + zlen (log n)
             then slice_from (log n) (next - snapshotIndex n - 1) else Ret []) =
            Ret (drop (Z.to_nat (next - snapshotIndex n - 1)) (log n))) as ->.
    { destruct (Z.leb_spec next (snapshotIndex n + zlen (log n))).
      - apply slice_from_Ret. lia.
      - rewrite drop_ge; [done|unfold zlen in *; lia]. }
    destruct (Z.ltb_spec (snapshotIndex n) (next - 1)).
    + rewrite entryAt_eq by (simpl; lia). change (entry_at n1) with (entry_at n).
      destruct (log_at_is_Some (snapshotIndex n) (log n) (next - 1)) as [x Hx]; [lia|].
      change (entry_at n (next - 1) = Some x) in Hx. rewrite Hx. simpl.
      eexists; split; [done|]. split_and!; try done; simpl; [lia|]. intros y Hy. congruence.
    + destruct (Z.eqb_spec (next - 1) (snapshotIndex n)); [|lia]. simpl.
      eexists; split; [done|]. split_and!; try done; simpl.
      intros x Hx%log_at_Some. lia.
  - assert (next ≤ snapshotIndex n ∨ snapshotIndex n + zlen (log n) + 1 < next) as [?|?] by lia.
    + destruct (Z.ltb_spec (snapshotIndex n) (next - 1)); [lia|].
      destruct (Z.eqb_spec (next - 1) (snapshotIndex n)); [lia|]. simpl.
      destruct (Z.leb_spec next (snapshotIndex n + zlen (log n))); [|lia].
      by rewrite (proj2 (slice_from_Panic _ _)) by lia.
    + destruct (Z.ltb_spec (snapshotIndex n) (next - 1)); [|lia].
      rewrite entryAt_eq by (simpl; lia). change (entry_at n1) with (entry_at n).
      unfold entry_at, log_at. destruct (Z.leb_spec (next - 1) (snapshotIndex n)); [lia|].
      by rewrite lookup_ge_None_2 by (unfold zlen in *; lia).
Qed.

(** ** Agreement *)

(** Raft's log matching between two replicas: logs that share the term of an
    entry agree up to it. *)
Definition log_match n1 n2 : Prop :=
  ∀ i x y, entry_at n1 i = Some x → entry_at n2 i = Some y →
    LogEntry.Term x = LogEntry.Term y →
    ∀ j x' y', j ≤ i → entry_at n1 j = Some x' → entry_at n2 j = Some y' → x' = y'.

Definition agree_upto (c : Z) n1 n2 : Prop :=
  ∀ i x y, i ≤ c → entry_at n1 i = Some x → entry_at n2 i = Some y → x = y.

Lemma request_entry p n next req i x :
  snapshotIndex n < next → request_for p n next req → next ≤ i →
  entry_at n i = Some x →
  AppendEntriesRequest.Entries req !! Z.to_nat (i - next) = Some x.
Proof.
  intros Hn (_ & _ & _ & _ & -> & _) Hi Hx. unfold entry_at, log_at in Hx.
  destruct (Z.leb_spec i (snapshotIndex n)); [lia|]. rewrite lookup_drop, <- Hx. f_equal. lia.
Qed.

Lemma received_agree p L F F' next req :
  snapshotIndex L < next ≤ snapshotIndex L + zlen (log L) + 1 →
  request_for p L next req → log_match L F →
  snapshotIndex F' = snapshotIndex F → prev_matches req F → log_received req F F' →
  agree_upto (AppendEntriesRequest.PrevLogIndex req
              + zlen (AppendEntriesRequest.Entries req)) L F'.
Proof.
  intros Hn Hreq Hm Hs (Hp & Hpt & _) (Hbelow & Hrec & _) i x y Hi Hx Hy.
  pose proof Hreq as (_ & _ & Hprev & _ & _ & _ & Hterm). rewrite Hprev in *.
  destruct (decide (i ≤ next - 1)).
  - rewrite Hbelow in Hy by done. apply log_at_Some in Hx as ?, Hy as ?.
    destruct (log_at_is_Some (snapshotIndex L) (log L) (next - 1)) as [z Hz];
      [lia|].
    destruct Hpt as (w & Hw & Hwt); [lia|].
    eapply (Hm (next - 1) z w); [done|done| |done|done|done].
    rewrite Hwt. symmetry. by apply Hterm.
  - pose proof (request_entry p L next req i x (proj1 Hn) Hreq ltac:(lia) Hx) as He.
    apply log_at_Some in Hy as Hyi. rewrite Hs in Hyi.
    destruct (Hrec _ _ He) as (z & Hz & Hzt & Hzo); [lia|].
    replace (next - 1 + Z.of_nat (Z.to_nat (i - next)) + 1) with i in * by lia.
    assert (y = z) as -> by congruence.
    destruct Hzo as [->|Hold]; [done|].
    eapply (Hm i x z); [done|done|done| |done|done]. lia.
Qed.

(** ** One peer in one round of [runLeader] *)

(** [next] positions a leader may hold for a peer. *)
Definition next_ok (p : string) n : Prop :=
  map_get 0 p (nextIndex n) ≤ snapshotIndex n + zlen (log n) + 1.

Lemma next_ok_range p n : wf n → next_ok p n →
  map_get 0 p (nextIndex n) ≤ max_int64 ∧
  nextFor p n ≤ snapshotIndex n + zlen (log n) + 1.
Proof.
  unfold next_ok, nextFor. intros [? ? ? ? _] ?. pose proof (zlen_nonneg (log n)). lia.
Qed.

(** The snapshot decision of a leader. *)
Lemma installSnapshotRequestForPeer_spec p n :
  wf n → role n = Leader →
  if bool_decide (snapshotIndex n = 0 ∨ snapshotIndex n < map_get 0 p (nextIndex n)) then
    installSnapshotRequestForPeer p n = Ret (n, (None, true))
  else if map_get false p (replicateInFlight n) then
    installSnapshotRequestForPeer p n =
      Ret (n <| replicatePending := <[p := true]> (replicatePending n) |>, (None, true))
  else ∃ req, installSnapshotRequestForPeer p n =
      Ret (n <| replicateInFlight := <[p := true]> (replicateInFlight n) |>, (Some req, true)) ∧
      InstallSnapshotRequest.Term req = currentTerm n ∧
      InstallSnapshotRequest.LastIncludedIndex req = snapshotIndex n ∧
      InstallSnapshotRequest.LastIncludedTerm req = snapshotTerm n.
Proof.
  intros Hwf Hrole. unfold installSnapshotRequestForPeer. rewrite Hrole.
  change (negb (role_eqb Leader Leader)) with false. cbv iota.
  case_bool_decide as Hc.
  - destruct Hc as [->|?]; [done|].
    by rewrite (proj2 (Z.ltb_lt _ _)), orb_true_r by done.
  - destruct (Z.eqb_spec (snapshotIndex n) 0); [naive_solver|].
    destruct (Z.ltb_spec (snapshotIndex n) (map_get 0 p (nextIndex n))); [naive_solver|].
    simpl. destruct (map_get false p (replicateInFlight n)); [done|].
    destruct (wf_snapshot _ Hwf) as (sn & Hsn & ? & ?); [done|]. rewrite Hsn. eauto 10.
Qed.

Lemma replicatePeer_spec p n :
  wf n → next_ok p n → role n = Leader →
  ∃ n' act, replicatePeer p n = Ret (n', act) ∧
    match act with
    | StepDown => False
    | Skip => map_get false p (replicateInFlight n) = true ∧
              map_get false p (replicatePending n') = true
    | SendSnapshot req =>
        nextFor p n ≤ snapshotIndex n ∧
        InstallSnapshotRequest.Term req = currentTerm n ∧
        InstallSnapshotRequest.LastIncludedIndex req = snapshotIndex n ∧
        InstallSnapshotRequest.LastIncludedTerm req = snapshotTerm n
    | SendEntries req =>
        snapshotIndex n < nextFor p n ∧ request_for p n (nextFor p n) req
    end.
Proof.
  intros Hwf Hok Hrole. destruct (next_ok_range p n Hwf Hok) as [Hmax Hnx].
  pose proof (installSnapshotRequestForPeer_spec p n Hwf Hrole) as Hi.
  unfold replicatePeer, replicatePeerWith. pose proof (wf_snap _ Hwf).
  case_bool_decide as Hc.
  - rewrite Hi. simpl. destruct (map_get false p (replicateInFlight n)) eqn:Hfl.
    + unfold appendEntriesRequestForPeer. rewrite Hrole, Hfl. simpl.
      do 2 eexists; split; [done|]. split; [done|]. simpl. by rewrite map_get_insert.
    + pose proof (appendEntriesRequestForPeer_spec p n Hwf Hmax Hrole Hfl) as Ha.
      cbv zeta in Ha.
      rewrite bool_decide_eq_true_2 in Ha by (unfold nextFor in *; lia).
      destruct Ha as (req & -> & Hreq). simpl. do 2 eexists; split; [done|].
      split; [unfold nextFor; lia|done].
  - destruct (map_get false p (replicateInFlight n)) eqn:Hfl.
    + rewrite Hi. simpl. unfold appendEntriesRequestForPeer. simpl. rewrite Hrole, Hfl. simpl.
      do 2 eexists; split; [done|]. split; [done|]. simpl. by rewrite map_get_insert.
    + destruct Hi as (req & -> & ? & ? & ?). simpl. do 2 eexists; split; [done|].
      split_and!; try done. unfold nextFor. lia.
Qed.

End append_protocol.

(** ** The theorems *)

Section theorems.
Context {S : Type} {HS : Storage S}.
Implicit Types n : Node S.

(** C8. [HandleAppendEntries] is total on a well-formed node: for every request
    whose last index stays below the largest [int64], and whichever storage
    write fails, it returns without a panic, the term does not go back, and
    the applied index and the snapshot are untouched.  If moreover no received
    entry contradicts an entry the node has committed, it leaves a well-formed
    node whose committed entries are the same and whose commit index did not
    go back.  Without that hypothesis the handler truncates committed entries;
    [request_no_conflict] of the Simulation file shows that no request a
    leader of a reachable network builds is of that kind. *)
Theorem append_entries_invariant now req n :
  wf n → req_fits req →
  ∃ n' r, HandleAppendEntries now req n = Ret (n', r) ∧
    currentTerm n ≤ currentTerm n' ∧ lastApplied n' = lastApplied n ∧
    snapshotIndex n' = snapshotIndex n ∧
    (no_committed_conflict req n →
       wf n' ∧ same_upto (commitIndex n) n n' ∧ commitIndex n ≤ commitIndex n').
Proof.
  intros Hwf Hfit. destruct (HandleAppendEntries_post now req n Hwf Hfit) as (n' & r & Hop & Hpost).
  destruct (append_post_frame req n n' r Hpost) as (? & ? & ?).
  exists n', r. split_and!; try done. intros Hok.
  destruct (append_post_invariant req n n' r Hwf Hfit Hok Hpost) as (? & ? & ? & _). done.
Qed.

(** C9. An acknowledged AppendEntries: the follower's log is the reference
    merge of its old log with the received entries, so it is unchanged up to
    PrevLogIndex, holds every received entry beyond its snapshot, and loses an
    entry only to a conflict; the node is a follower of the leader's term, and
    its commit index is [min LeaderCommit lastIndex], never lower than before,
    with the apply loop woken when it moved. *)
Theorem append_entries_success now req n n' resp :
  wf n → req_fits req →
  HandleAppendEntries now req n = Ret (n', Val resp) →
  AppendEntriesResponse.Success resp = true →
  role n' = Follower ∧ currentTerm n' = AppendEntriesRequest.Term req ∧
  currentTerm n ≤ AppendEntriesRequest.Term req ∧
  log n' = merge (snapshotIndex n) (AppendEntriesRequest.PrevLogIndex req + 1)
             (AppendEntriesRequest.Entries req) (log n) ∧
  log_received req n n' ∧
  (commitIndex n' = if commitIndex n <? AppendEntriesRequest.LeaderCommit req
                    then Z.min (AppendEntriesRequest.LeaderCommit req) (lastLogIndex n')
                    else commitIndex n) ∧
  (commitIndex n' ≠ commitIndex n → applyNotifyCh n' = true).
Proof.
  intros Hwf Hfit Hop Hs. destruct (HandleAppendEntries_post now req n Hwf Hfit) as (? & ? & E & Hp).
  rewrite Hop in E. injection E as <- <-.
  destruct (append_post_success _ _ _ _ Hp Hs) as (Hpm & ? & ? & ? & Hsi & Hl & Hc & ?).
  split_and!; try done; [by apply merged_received|].
  rewrite Hc. unfold followed, lastLogIndex; simpl. by rewrite Hl, Hsi.
Qed.

(** C10. A rejection of the current term names a conflict the leader can use:
    the log is too short and the hint is its end, or the snapshot boundary has
    another term, or the entry at PrevLogIndex has another term and the hint
    is that term with its first index in the log.  The hint is positive and
    the log, the snapshot and the commit index are unchanged. *)
Theorem append_entries_reject now req n n' resp :
  wf n → req_fits req →
  HandleAppendEntries now req n = Ret (n', Val resp) →
  AppendEntriesResponse.Success resp = false →
  log n' = log n ∧ snapshotIndex n' = snapshotIndex n ∧ commitIndex n' = commitIndex n ∧
  (AppendEntriesRequest.Term req < currentTerm n ∧ n' = n ∧
     AppendEntriesResponse.Term resp = currentTerm n ∨
   AppendEntriesResponse.Term resp = AppendEntriesRequest.Term req ∧
     0 < AppendEntriesResponse.ConflictIndex resp ∧ ¬ prev_matches req n ∧
     conflict req n (AppendEntriesResponse.ConflictTerm resp)
                    (AppendEntriesResponse.ConflictIndex resp)).
Proof.
  intros Hwf Hfit Hop Hs. destruct (HandleAppendEntries_post now req n Hwf Hfit) as (? & ? & E & Hp).
  rewrite Hop in E. injection E as <- <-.
  inversion Hp; subst; try done; [by split_and!; auto| |destruct H4 as [[= ->]|[[? [=]] _]]; done].
  match goal with Hc : conflict _ _ _ _ |- _ =>
    destruct (conflict_no_match _ _ _ _ (wf_snap _ Hwf) Hc) as [? ?] end.
  split_and!; try done. by right.
Qed.

(** C11. The request a leader builds: when the peer's next index lies beyond the
    snapshot, the request carries the leader's term, the index and term of the
    entry before it and the whole rest of the log; when it does not, or when
    it is more than one past the log, the builder panics on a slice bound. *)
Theorem append_request_correct p n :
  wf n → map_get 0 p (nextIndex n) ≤ max_int64 →
  role n = Leader → map_get false p (replicateInFlight n) = false →
  let next := nextFor p n in
  if bool_decide (snapshotIndex n < next ≤ snapshotIndex n + zlen (log n) + 1) then
    ∃ req, appendEntriesRequestForPeer p n =
      Ret (n <| replicateInFlight := <[p := true]> (replicateInFlight n) |>, (Some req, true)) ∧
      request_for p n next req
  else appendEntriesRequestForPeer p n = Panic.
Proof. apply appendEntriesRequestForPeer_spec. Qed.

(** C13. One peer in one round of [runLeader], undisturbed: no panic; a peer
    behind the snapshot gets the snapshot, one beyond it the rest of the log,
    and a peer with a request in flight is marked pending. *)
Theorem replicate_peer_total p n :
  wf n → next_ok p n → role n = Leader →
  ∃ n' act, replicatePeer p n = Ret (n', act) ∧
    match act with
    | StepDown => False
    | Skip => map_get false p (replicateInFlight n) = true ∧
              map_get false p (replicatePending n') = true
    | SendSnapshot req =>
        nextFor p n ≤ snapshotIndex n ∧
        InstallSnapshotRequest.Term req = currentTerm n ∧
        InstallSnapshotRequest.LastIncludedIndex req = snapshotIndex n ∧
        InstallSnapshotRequest.LastIncludedTerm req = snapshotTerm n
    | SendEntries req =>
        snapshotIndex n < nextFor p n ∧ request_for p n (nextFor p n) req
    end.
Proof. apply replicatePeer_spec. Qed.

(** C14. The two locked sections of a round do not compose: if a peer behind
    the snapshot has a request in flight, and that request's goroutine ends
    (clearing the in-flight flag) between [installSnapshotRequestForPeer] and
    [appendEntriesRequestForPeer], the leader panics. *)
Theorem replicate_peer_race p req n :
  wf n → role n = Leader → 0 < snapshotIndex n →
  map_get 0 p (nextIndex n) ≤ snapshotIndex n →
  map_get false p (replicateInFlight n) = true →
  replicatePeerWith (sendInstallSnapshot p req RpcError) p n = Panic.
Proof.
  intros Hwf Hrole Hs Hn Hfl. unfold replicatePeerWith.
  pose proof (installSnapshotRequestForPeer_spec p n Hwf Hrole) as Hi.
  rewrite bool_decide_eq_false_2, Hfl in Hi by lia. rewrite Hi. simpl.
  unfold sendInstallSnapshot, finishInstall. simpl. rewrite map_get_insert.
  set (n1 := notifyReplicate _).
  assert (wf n1) as Hwf1 by by destruct Hwf.
  pose proof (appendEntriesRequestForPeer_spec p n1 Hwf1) as Ha.
  cbv zeta in Ha.
  rewrite bool_decide_eq_false_2 in Ha by (unfold nextFor; simpl; lia).
  destruct Hwf as [? ? ? ? _]. pose proof (zlen_nonneg (log n)).
  rewrite Ha; [done|simpl; lia|done|simpl; by rewrite map_get_insert].
Qed.

End theorems.

(** ** Witnesses

    A leader of term 2 with three entries and a follower with a conflicting
    second entry; the follower rejects the first request and acknowledges the
    one sent after backing off. *)

Module Demo.
Definition e (t : Z) : LogEntry := LogEntry.mk t EntryCommand [].

Definition leader (next : Z) : Node InMemoryStorage.t :=
  blank_node "a" {["b"]} InMemoryStorage.NewInMemoryStorage
    <| role := Leader |> <| currentTerm := 2 |> <| log := [e 1; e 2; e 2] |>
    <| commitIndex := 1 |> <| config := mkClusterConfig ["a"; "b"] |>
    <| nextIndex := {["b" := next]} |>.

Definition follower : Node InMemoryStorage.t :=
  blank_node "b" {["a"]} InMemoryStorage.NewInMemoryStorage
    <| currentTerm := 1 |> <| log := [e 1; e 1] |> <| commitIndex := 1 |>
    <| config := mkClusterConfig ["a"; "b"] |>.

Definition request (next : Z) : AppendEntriesRequest :=
  match appendEntriesRequestForPeer "b" (leader next) with
  | Ret (_, (Some req, _)) => req
  | _ => AppendEntriesRequest.mk 0 "" 0 0 [] 0
  end.

(** A leader that compacted its log up to index 2. *)
Definition compacted : Node InMemoryStorage.t :=
  leader 1 <| log := [e 2] |> <| snapshotIndex := 2 |> <| snapshotTerm := 2 |>
    <| snapshot := Some (Snapshot.mk 2 2 (mkClusterConfig ["a"; "b"]) []) |>
    <| commitIndex := 2 |> <| replicateInFlight := {["b" := true]} |>.

Definition succeeded (o : outcome (Node InMemoryStorage.t * result AppendEntriesResponse))
    : option bool :=
  match o with
  | Ret (_, Val resp) => Some (AppendEntriesResponse.Success resp)
  | _ => None
  end.

Lemma succeeded_inv o b :
  succeeded o = Some b →
  ∃ n' resp, o = Ret (n', Val resp) ∧ AppendEntriesResponse.Success resp = b.
Proof. destruct o as [[? [resp|?]]|]; intros [= <-]; eauto. Qed.

Lemma success_2 : succeeded (HandleAppendEntries 0 (request 2) follower) = Some true.
Proof. by vm_compute. Qed.
Lemma failure_3 : succeeded (HandleAppendEntries 0 (request 3) follower) = Some false.
Proof. by vm_compute. Qed.
Lemma merge_2 : merge 0 (AppendEntriesRequest.PrevLogIndex (request 2) + 1)
  (AppendEntriesRequest.Entries (request 2)) (log follower) = [e 1; e 2; e 2].
Proof. by vm_compute. Qed.

Lemma leader_wf next : wf (leader next).
Proof. by split; vm_compute. Qed.
Lemma follower_wf : wf follower.
Proof. by split; vm_compute. Qed.
Lemma compacted_wf : wf compacted.
Proof. split; try by vm_compute. intros _. by eexists. Qed.
Lemma request_fits : req_fits (request 2).
Proof. by split; vm_compute. Qed.
Lemma request_fits' : req_fits (request 3).
Proof. by split; vm_compute. Qed.

Lemma entry_at_cases (n : Node InMemoryStorage.t) i x :
  entry_at n i = Some x → snapshotIndex n = 0 → 1 ≤ i ∧ log n !! Z.to_nat (i - 1) = Some x.
Proof.
  intros Hx Hs. unfold entry_at, log_at in Hx. rewrite Hs in Hx.
  destruct (Z.leb_spec i 0); [done|]. split; [lia|]. rewrite <- Hx. f_equal. lia.
Qed.

Lemma no_conflict : no_committed_conflict (request 2) follower.
Proof.
  intros j e' x Hj Hx Hc. exfalso.
  change (AppendEntriesRequest.PrevLogIndex (request 2)) with 1 in Hc.
  change (commitIndex follower) with 1 in Hc. lia.
Qed.

Lemma matching : log_match (leader 2) follower.
Proof.
  intros i x y Hx Hy Ht j x' y' Hj Hx' Hy'.
  apply entry_at_cases in Hx as [? Hx], Hy as [? Hy], Hx' as [? Hx'], Hy' as [? Hy']; try done.
  simpl in *.
  assert (i ≤ 2) as Hi by (apply lookup_lt_Some in Hy; simpl in Hy; lia).
  assert (i = 1 ∨ i = 2) as [-> | ->] by lia;
    simpl in *; simplify_eq.
  assert (j = 1) as -> by lia. simpl in *. congruence.
Qed.
End Demo.

Lemma append_entries_invariant_witness :
  ∃ n' r, HandleAppendEntries 0 (Demo.request 2) Demo.follower = Ret (n', r) ∧
    wf n' ∧ same_upto 1 Demo.follower n' ∧ 1 ≤ commitIndex n' ∧
    1 ≤ currentTerm n' ∧ lastApplied n' = 0.
Proof.
  destruct (append_entries_invariant 0 (Demo.request 2) Demo.follower Demo.follower_wf
    Demo.request_fits) as (n' & r & H1 & H2 & H3 & _ & H4).
  destruct (H4 Demo.no_conflict) as (H5 & H6 & H7).
  exists n', r. split_and!; [exact H1|exact H5|exact H6|exact H7|exact H2|exact H3].
Defined.

Lemma append_entries_success_witness :
  ∃ n' resp, HandleAppendEntries 0 (Demo.request 2) Demo.follower = Ret (n', Val resp) ∧
    role n' = Follower ∧ log n' = [Demo.e 1; Demo.e 2; Demo.e 2].
Proof.
  destruct (Demo.succeeded_inv _ _ Demo.success_2) as (n' & resp & E & Hs).
  exists n', resp. split; [exact E|].
  destruct (append_entries_success 0 (Demo.request 2) Demo.follower n' resp
    Demo.follower_wf Demo.request_fits E Hs) as (H1 & _ & _ & H3 & _).
  split; [exact H1|]. rewrite H3. exact Demo.merge_2.
Defined.

Lemma append_entries_reject_witness :
  ∃ n' resp, HandleAppendEntries 0 (Demo.request 3) Demo.follower = Ret (n', Val resp) ∧ log n' = log Demo.follower.
Proof.
  destruct (Demo.succeeded_inv _ _ Demo.failure_3) as (n' & resp & E & Hs).
  exists n', resp. split; [exact E|].
  apply (append_entries_reject 0 (Demo.request 3) Demo.follower n' resp
    Demo.follower_wf Demo.request_fits' E Hs).
Defined.

Lemma append_request_correct_witness :
  (∃ n' req, appendEntriesRequestForPeer "b" (Demo.leader 2) = Ret (n', (Some req, true)) ∧
     request_for "b" (Demo.leader 2) 2 req) ∧
  appendEntriesRequestForPeer "b" (Demo.leader 5) = Panic.
Proof.
  pose proof (append_request_correct "b" (Demo.leader 2) (Demo.leader_wf 2)
    ltac:(by vm_compute) eq_refl ltac:(by vm_compute)) as H2.
  pose proof (append_request_correct "b" (Demo.leader 5) (Demo.leader_wf 5)
    ltac:(by vm_compute) eq_refl ltac:(by vm_compute)) as H5.
  cbv zeta in H2, H5. rewrite bool_decide_eq_true_2 in H2 by by vm_compute.
  rewrite bool_decide_eq_false_2 in H5 by (intros [_ H]; vm_compute in H; by apply H).
  destruct H2 as (req & H & Hr). split; [do 2 eexists; split; [exact H|exact Hr]|exact H5].
Defined.

Lemma replicate_peer_total_witness :
  ∃ n' req, replicatePeer "b" (Demo.leader 2) = Ret (n', SendEntries req) ∧
    request_for "b" (Demo.leader 2) 2 req.
Proof.
  destruct (replicate_peer_total "b" (Demo.leader 2)) as (n' & act & H1 & H2);
    [apply Demo.leader_wf|by vm_compute|done|].
  destruct act; try (vm_compute in H1; discriminate).
  do 2 eexists. split; [exact H1|]. apply H2.
Defined.

Lemma replicate_peer_race_witness :
  replicatePeerWith (sendInstallSnapshot "b" (InstallSnapshotRequest.mk 2 "a" 2 2
    (mkClusterConfig []) []) RpcError) "b" Demo.compacted = Panic.
Proof.
  apply replicate_peer_race; try by vm_compute. apply Demo.compacted_wf.
Defined.
