(* ===== verification/CommitSpec.v ===== *)
(** * CommitSpec: the leader's commit rule, proposals and peer progress

    [advanceCommitIndexLocked] against its specification ([committable]),
    [StartCommand] on every branch, the back-off of [nextIndex] after a
    rejection and the progress recorded after a success. *)

From S2P Require Import Prelude Types Storage Timing Node Handlers Replication.
From S2P Require Import LogSpec AppendSpec AppendProtocol.
Open Scope Z_scope.

Section commit.
Context {S : Type} {HS : Storage S}.
Implicit Types n : Node S.

(** Raft's commit rule: an entry of the current term on a majority. *)
Definition committable n (c : Z) : Prop :=
  ∃ e, entry_at n c = Some e ∧ LogEntry.Term e = currentTerm n ∧
       quorumSize n ≤ replicaVotes c n.

(** The replicas counted for [c]: the leader and the peers that acknowledged. *)
Definition acked (c : Z) n : gset string :=
  {[id n]} ∪ filter (λ p, c ≤ map_get 0 p (matchIndex n)) (peers n).

Lemma replicaVotes_acked c n :
  id n ∉ peers n → replicaVotes c n = Z.of_nat (size (acked c n)).
Proof.
  intros Hid. unfold replicaVotes, acked.
  rewrite size_union, size_singleton; [lia|]. set_solver.
Qed.

Lemma entryAt_in_log n c :
  wf n → snapshotIndex n < c ≤ snapshotIndex n + zlen (log n) →
  ∃ e, entry_at n c = Some e ∧ entryAt c n = Ret e.
Proof.
  intros [Hs ? ? Hr ?] Hc. destruct (log_at_is_Some (snapshotIndex n) (log n) c) as [e He]; [lia|].
  exists e. split; [done|]. rewrite entryAt_eq by lia. unfold entry_at. by rewrite He.
Qed.

(** The loop finds the largest committable index above the commit index. *)
Lemma advanceLoop_spec fuel c n :
  wf n → c ≤ snapshotIndex n + zlen (log n) → c - commitIndex n ≤ Z.of_nat fuel →
  ∃ r, advanceLoop fuel c n = Ret r ∧
    match r with
    | Some c' => commitIndex n < c' ≤ c ∧ committable n c' ∧
                 ∀ j, c' < j ≤ c → ¬ committable n j
    | None => ∀ j, commitIndex n < j ≤ c → ¬ committable n j
    end.
Proof.
  intros Hwf. revert c. induction fuel as [|fuel IH]; intros c Hc Hfuel; simpl.
  { exists None. split; [done|]. lia. }
  destruct (Z.ltb_spec (commitIndex n) c); [|exists None; split; [done|lia]].
  pose proof Hwf as [Hs Hci ? Hr ?].
  destruct (entryAt_in_log n c Hwf) as (e & He & ->); [lia|]. simpl.
  assert (¬ committable n c → ∃ r, advanceLoop fuel (c -! 1) n = Ret r ∧
    match r with
    | Some c' => commitIndex n < c' ≤ c ∧ committable n c' ∧
                 ∀ j, c' < j ≤ c → ¬ committable n j
    | None => ∀ j, commitIndex n < j ≤ c → ¬ committable n j
    end) as Hnext.
  { intros Hno. i64_norm. destruct (IH (c - 1)) as (r & -> & Hr'); [lia|lia|].
    exists r. split; [done|]. destruct r as [c'|].
    - destruct Hr' as (? & ? & Hmax). split_and!; [lia|lia|done|].
      intros j Hj. destruct (decide (j = c)) as [->|]; [done|apply Hmax; lia].
    - intros j Hj. destruct (decide (j = c)) as [->|]; [done|apply Hr'; lia]. }
  destruct (Z.eqb_spec (LogEntry.Term e) (currentTerm n)) as [Ht|Ht]; simpl.
  - destruct (Z.leb_spec (quorumSize n) (replicaVotes c n)).
    + exists (Some c). split; [done|]. split_and!; [lia|lia|by exists e|]. intros j Hj. lia.
    + apply Hnext. intros (e' & He' & _ & Hq). lia.
  - apply Hnext. intros (e' & He' & Ht' & _). congruence.
Qed.

(** What [advanceCommitIndexLocked] does to the node: nothing, or it moves
    the commit index to [c], with the latency maps, and saves it. *)
Definition committed (c now : Z) (st : option S) n : Node S :=
  n <| commitIndex := c |>
    <| startSeenAt := (observeStartToCommitRange (commitIndex n) c now (startSeenAt n)).2 |>
    <| commitSeenAt := recordCommitSeenRange (commitIndex n) c now (commitSeenAt n) |>
    <| storage := st |>.

Lemma advanceCommitIndex_spec now n :
  wf n → ∃ n' b, advanceCommitIndex now n = Ret (n', b) ∧
    ((n' = n ∧ b = false ∧
      ∀ j, commitIndex n < j ≤ snapshotIndex n + zlen (log n) → ¬ committable n j) ∨
     (∃ c st, commitIndex n < c ≤ snapshotIndex n + zlen (log n) ∧ committable n c ∧
      (∀ j, c < j ≤ snapshotIndex n + zlen (log n) → ¬ committable n j) ∧
      (b = true ∧ n' = committed c now st n ∨
       b = false ∧ n' = committed c now st n <| degraded := true |>))).
Proof.
  intros Hwf. pose proof Hwf as [Hs Hci ? Hr ?]. unfold advanceCommitIndex. cbv zeta.
  rewrite lastLogIndex_eq by done.
  destruct (advanceLoop_spec (Z.to_nat (snapshotIndex n + zlen (log n) - commitIndex n))
    (snapshotIndex n + zlen (log n)) n Hwf) as (r & -> & Hspec); [lia|lia|]. simpl.
  destruct r as [c|]; [|by do 2 eexists; split; [|left]].
  destruct Hspec as (? & ? & ?).
  destruct (persistHardState _) as [n1 err] eqn:E.
  destruct (with_storage_frame _ _ _ _ E) as [st ->].
  destruct err as [err|]; do 2 eexists; (split; [done|]);
    right; exists c, st; (split_and!; [lia|lia|done|done|]).
  - right. split; [done|]. unfold markDegraded; simpl.
    destruct (degraded n) eqn:Hd; [|done]. by destruct n; simpl in *; subst.
  - by left.
Qed.

Lemma committed_wf c now st n :
  wf n → commitIndex n < c ≤ snapshotIndex n + zlen (log n) → wf (committed c now st n).
Proof. intros Hwf Hc. pose proof Hwf as [? ? ? ? ?]. wf_step. Qed.

(** ** Proposals *)

(** The leader's log and progress with a proposed entry. *)
Definition proposed (now : Z) (cmd : bytes) (st : option S) n : Node S :=
  let index := snapshotIndex n + zlen (log n) + 1 in
  n <| log := log n ++ [LogEntry.mk (currentTerm n) EntryCommand cmd] |>
    <| storage := st |>
    <| startSeenAt := recordStartSeen index now (startSeenAt n) |>
    <| matchIndex := <[id n := index]> (matchIndex n) |>
    <| nextIndex := <[id n := index + 1]> (nextIndex n) |>.

(** Every way [StartCommand] ends. *)
Inductive start_post now cmd n : Node S → Z * bool → Prop :=
  | start_refused :
      degraded n = true ∨ role n ≠ Leader → start_post now cmd n n (0, false)
  | start_failed st :
      degraded n = false → role n = Leader →
      start_post now cmd n (n <| storage := st |>) (0, false)
  | start_pending st n' :
      degraded n = false → role n = Leader →
      let p := proposed now cmd st n in
      n' = notifyReplicate p →
      (∀ j, commitIndex p < j ≤ snapshotIndex p + zlen (log p) → ¬ committable p j) →
      start_post now cmd n n' (snapshotIndex n + zlen (log n) + 1, true)
  | start_committed st st' c n' :
      degraded n = false → role n = Leader →
      let p := proposed now cmd st n in
      commitIndex p < c ≤ snapshotIndex p + zlen (log p) → committable p c →
      (n' = notifyReplicate (notifyApply (committed c now st' p)) ∨
       n' = notifyReplicate (committed c now st' p <| degraded := true |>)) →
      start_post now cmd n n' (snapshotIndex n + zlen (log n) + 1, true).

Lemma proposed_wf now cmd st n :
  wf n → snapshotIndex n + zlen (log n) + 1 < max_int64 → wf (proposed now cmd st n).
Proof.
  intros Hwf Hroom. pose proof Hwf as [? ? ? ? ?].
  apply (wf_with n (log n ++ [LogEntry.mk (currentTerm n) EntryCommand cmd]) (commitIndex n));
    try done; rewrite zlen_app; change (zlen [_]) with 1; lia.
Qed.

(** What a client relies on, of any node with the proposed log. *)
Lemma proposed_client now cmd st n (m n' : Node S) :
  let p := proposed now cmd st n in
  let index := snapshotIndex n + zlen (log n) + 1 in
  wf m → index < max_int64 → 0 ≤ snapshotIndex n →
  log m = log p → snapshotIndex m = snapshotIndex p → matchIndex m = matchIndex p →
  log n' = log m → commitIndex n' = commitIndex m → snapshotIndex n' = snapshotIndex m →
  snapshotTerm n' = snapshotTerm m → snapshot n' = snapshot m →
  lastApplied n' = lastApplied m → matchIndex n' = matchIndex m →
  replicateNotifyCh n' = true →
  wf n' ∧
  (true = true → index = lastLogIndex n' ∧ replicateNotifyCh n' = true ∧
   entry_at n' index = Some (LogEntry.mk (currentTerm n) EntryCommand cmd) ∧
   map_get 0 (id n) (matchIndex n') = index ∧
   ∀ i, i < index → entry_at n' i = entry_at n i) ∧
  (true = false → log n' = log n ∧ commitIndex n' = commitIndex n).
Proof.
  intros p index Hwf Hroom Hs0 Hpl Hps Hpm Hl Hc Hs Ht Hsn Ha Hm Hr.
  split; [by apply (wf_same m)|]. split; [|done]. intros _.
  pose proof (zlen_nonneg (log n)). rewrite Hpl in Hl. rewrite Hps in Hs. rewrite Hpm in Hm.
  assert (zlen (log p) = zlen (log n) + 1) as Hlen by (simpl; rewrite zlen_app; done).
  unfold entry_at. rewrite Hs, Hl, Hm. simpl. split_and!; [|done| |by rewrite map_get_insert|].
  - unfold lastLogIndex. rewrite Hs, Hl, Hlen. change (snapshotIndex p) with (snapshotIndex n).
    unfold index in *. i64_norm. lia.
  - rewrite log_at_app_r by lia. by replace (Z.to_nat _) with 0%nat by lia.
  - intros i Hi. apply log_at_app_l. lia.
Qed.

Lemma StartCommand_post now cmd n :
  wf n → snapshotIndex n + zlen (log n) + 1 < max_int64 →
  ∃ n' r, StartCommand now cmd n = Ret (n', r) ∧ start_post now cmd n n' r.
Proof.
  intros Hwf Hroom. pose proof Hwf as [Hs ? ? Hr ?]. pose proof (zlen_nonneg (log n)).
  unfold StartCommand.
  destruct (degraded n) eqn:Hd; simpl; [do 2 eexists; split; [done|]; apply start_refused; auto|].
  destruct (role_eqb (role n) Leader) eqn:Hrole; simpl;
    [|do 2 eexists; split; [done|]; apply start_refused; right; intros E; by rewrite E in Hrole].
  assert (role n = Leader) as Hl by (by destruct (role n)).
  destruct (persistAppendLog _ _) as [n1 err] eqn:E.
  destruct (with_storage_frame _ _ _ _ E) as [st ->]. destruct err as [err|].
  { simpl. rewrite slice_to_Ret by (rewrite zlen_app; change (zlen [_]) with 1; lia). simpl.
    do 2 eexists; split; [done|].
    replace (take _ (log n ++ _)) with (log n)
      by (unfold zlen; by rewrite Nat2Z.id, take_app_length).
    match goal with |- start_post _ _ _ ?m _ =>
      replace m with (n <| storage := st |>) by by destruct n end.
    by apply start_failed. }
  assert (zlen (log n ++ [LogEntry.mk (currentTerm n) EntryCommand cmd]) = zlen (log n) + 1)
    as Hlen by (rewrite zlen_app; change (zlen [_]) with 1; lia).
  match goal with |- context [recordStartSeen (lastLogIndex ?m) _ _] =>
    assert (lastLogIndex m = snapshotIndex n + zlen (log n) + 1) as Hidx end.
  { unfold lastLogIndex; simpl. rewrite Hlen. i64_norm. lia. }
  rewrite !Hidx. i64_norm.
  match goal with |- context [advanceCommitIndex now ?m] =>
    change m with (proposed now cmd st n) end.
  destruct (advanceCommitIndex_spec now _ (proposed_wf now cmd st n Hwf Hroom))
    as (n2 & b & -> & Hpost). simpl. do 2 eexists; split; [done|].
  destruct Hpost as [(-> & -> & Hno)|(c & st2 & Hc & Hcm & _ & [[-> ->]|[-> ->]])].
  - by apply (start_pending now cmd n st).
  - apply (start_committed now cmd n st st2 c); try done. by left.
  - apply (start_committed now cmd n st st2 c); try done. by right.
Qed.

(** ** Peer progress *)

Lemma last_index_below_spec snap term l k :
  0 ≤ snap → snap + zlen l < max_int64 → (k ≤ length l)%nat →
  let r := last_index_below snap term l k in
  (r = 0 ∧ ∀ i e, (i < k)%nat → l !! i = Some e → LogEntry.Term e ≠ term) ∨
  ∃ i e, (i < k)%nat ∧ l !! i = Some e ∧ LogEntry.Term e = term ∧ r = snap + Z.of_nat i + 1 ∧
    ∀ j e', (i < j < k)%nat → l !! j = Some e' → LogEntry.Term e' ≠ term.
Proof.
  intros Hs Hroom. induction k as [|k IH]; intros Hk; simpl; [left; split; [done|lia]|].
  destruct (lookup_lt_is_Some_2 l k) as [e He]; [lia|]. rewrite He.
  destruct (Z.eqb_spec (LogEntry.Term e) term) as [Ht|Ht].
  - right. exists k, e. unfold zlen in *. i64_norm. split_and!; [lia|done|done|lia|lia].
  - destruct IH as [[-> Hno]|(i & x & ? & ? & ? & -> & Hno)]; [lia| |].
    + left. split; [done|]. intros i x Hi Hx.
      destruct (decide (i = k)) as [->|]; [congruence|]. apply (Hno i x); [lia|done].
    + right. exists i, x. split_and!; [lia|done|done|done|]. intros j y Hj Hy.
      destruct (decide (j = k)) as [->|]; [congruence|]. apply (Hno j y); [lia|done].
Qed.

(** [lastIndexOfTermLocked]: the last index of a term, 0 when it is absent. *)
Lemma lastIndexOfTerm_spec term n :
  0 ≤ snapshotIndex n → snapshotIndex n + zlen (log n) < max_int64 →
  let r := lastIndexOfTerm term n in
  (r = 0 ∧ ∀ i e, entry_at n i = Some e → LogEntry.Term e ≠ term) ∨
  (∃ e, entry_at n r = Some e ∧ LogEntry.Term e = term) ∧ 0 < r ∧
  ∀ j e, r < j → entry_at n j = Some e → LogEntry.Term e ≠ term.
Proof.
  intros Hs Hroom r. unfold entry_at, log_at.
  destruct (last_index_below_spec (snapshotIndex n) term (log n) (length (log n)))
    as [[Hr Hno]|(i & e & Hi & He & Ht & Hr & Hno)]; try done; fold (lastIndexOfTerm term n) in Hr;
    fold r in Hr; rewrite Hr.
  - left. split; [done|]. intros j e Hj. destruct (Z.leb_spec j (snapshotIndex n)); [done|].
    apply (Hno (Z.to_nat (j - snapshotIndex n - 1)) e); [|done]. by apply lookup_lt_Some in Hj.
  - right. split_and!; [|lia|].
    + exists e. split; [|done]. destruct (Z.leb_spec (snapshotIndex n + Z.of_nat i + 1) (snapshotIndex n)); [lia|].
      rewrite <- He. f_equal. lia.
    + intros j x Hj Hx. destruct (Z.leb_spec j (snapshotIndex n)); [done|].
      apply (Hno (Z.to_nat (j - snapshotIndex n - 1)) x); [|done].
      apply lookup_lt_Some in Hx as ?. lia.
Qed.

Lemma conflictNext_pos resp prev n :
  1 < prev → in_i64 prev →
  let r := backoffNext resp prev n in
  1 ≤ r < prev ∧ (1 ≤ conflictNext resp prev n < prev → r = conflictNext resp prev n).
Proof.
  intros Hprev Hi. unfold backoffNext. unfold in_i64 in Hi. i64_norm.
  destruct (Z.ltb_spec (conflictNext resp prev n) 1).
  - destruct (Z.leb_spec prev 1); [lia|]. simpl. lia.
  - destruct (Z.leb_spec prev (conflictNext resp prev n)); simpl; [|lia].
    destruct (Z.ltb_spec 1 prev); simpl; lia.
Qed.

(** What a rejection tells the leader about a peer whose next index is [next]:
    where the leader's own log leaves the follower's conflicting term, else the
    conflict index itself, else the entry before. *)
Inductive hint (resp : AppendEntriesResponse) (next : Z) n : Z → Prop :=
  | hint_term i e :
      0 < AppendEntriesResponse.ConflictTerm resp →
      entry_at n i = Some e → LogEntry.Term e = AppendEntriesResponse.ConflictTerm resp →
      (∀ j e', i < j → entry_at n j = Some e' →
         LogEntry.Term e' ≠ AppendEntriesResponse.ConflictTerm resp) →
      hint resp next n (i + 1)
  | hint_index :
      (0 < AppendEntriesResponse.ConflictTerm resp → ∀ j e, entry_at n j = Some e →
         LogEntry.Term e ≠ AppendEntriesResponse.ConflictTerm resp) →
      0 < AppendEntriesResponse.ConflictIndex resp →
      hint resp next n (AppendEntriesResponse.ConflictIndex resp)
  | hint_none :
      (0 < AppendEntriesResponse.ConflictTerm resp → ∀ j e, entry_at n j = Some e →
         LogEntry.Term e ≠ AppendEntriesResponse.ConflictTerm resp) →
      AppendEntriesResponse.ConflictIndex resp ≤ 0 →
      hint resp next n (next - 1).

Lemma conflictNext_hint resp next n :
  wf n → in_i64 next →
  ∃ h, hint resp next n h ∧
    (conflictNext resp next n = h ∨ next ≤ 1 ∧ conflictNext resp next n ≤ 1 ∧ h ≤ 0).
Proof.
  intros [Hs _ _ Hroom _] Hi. unfold in_i64 in Hi.
  assert ((0 < AppendEntriesResponse.ConflictTerm resp → ∀ j e, entry_at n j = Some e →
             LogEntry.Term e ≠ AppendEntriesResponse.ConflictTerm resp) →
    ∀ c, (c = if 0 <? AppendEntriesResponse.ConflictIndex resp
              then AppendEntriesResponse.ConflictIndex resp
              else if 1 <? next then next -! 1 else next) ∨
         (c = if 0 <? AppendEntriesResponse.ConflictIndex resp
              then AppendEntriesResponse.ConflictIndex resp
              else if 1 <? next then next -! 1 else 1) →
    ∃ h, hint resp next n h ∧ (c = h ∨ next ≤ 1 ∧ c ≤ 1 ∧ h ≤ 0)) as Hfall.
  { intros Hno c Hc. destruct (Z.ltb_spec 0 (AppendEntriesResponse.ConflictIndex resp)).
    - eexists. split; [by apply hint_index|naive_solver].
    - eexists. split; [by apply hint_none|].
      destruct (Z.ltb_spec 1 next); [left; i64_norm; naive_solver|right; lia]. }
  unfold conflictNext. destruct (Z.ltb_spec 0 (AppendEntriesResponse.ConflictTerm resp)) as [Hct|Hct].
  - destruct (lastIndexOfTerm_spec (AppendEntriesResponse.ConflictTerm resp) n Hs Hroom)
      as [[-> Hno]|((x & Hx & Hxt) & Hpos & Hl)]; [apply Hfall; [done|by left]|].
    rewrite (proj2 (Z.ltb_lt _ _)) by done. eexists. split; [by eapply hint_term|].
    left. apply log_at_Some in Hx. i64_norm. lia.
  - apply Hfall; [lia|by right].
Qed.

Lemma backoffNext_hint resp next n :
  wf n → in_i64 next →
  ∃ h, hint resp next n h ∧ let r := backoffNext resp next n in
    1 ≤ r ∧ (1 < next → r = Z.min h (next - 1) ∧ r < next) ∧ (next ≤ 1 → r = Z.max 1 h).
Proof.
  intros Hwf Hi. destruct (conflictNext_hint resp next n Hwf Hi) as (h & Hh & Hc).
  exists h. split; [done|]. assert (1 < next → 1 ≤ h) as Hpos.
  { destruct Hh as [i e ? Hx ? ?|? ?|? ?]; [|lia..]. apply log_at_Some in Hx.
    pose proof (wf_snap _ Hwf). lia. }
  unfold backoffNext. unfold in_i64 in Hi. i64_norm.
  destruct (Z.ltb_spec (conflictNext resp next n) 1).
  - destruct (Z.leb_spec next 1); simpl; [|lia].
    destruct (Z.ltb_spec 1 next); simpl; lia.
  - destruct (Z.leb_spec next (conflictNext resp next n)), (Z.ltb_spec 1 next); simpl; i64_norm; lia.
Qed.

(** The progress recorded for a peer only grows, and other peers keep theirs. *)
Lemma recordProgress_spec p m n :
  m < max_int64 → - max_int64 ≤ m →
  map_get 0 p (matchIndex (recordProgress p m n)) = Z.max m (map_get 0 p (matchIndex n)) ∧
  map_get 0 p (nextIndex (recordProgress p m n)) = Z.max (m + 1) (map_get 0 p (nextIndex n)) ∧
  ∀ q, q ≠ p →
    map_get 0 q (matchIndex (recordProgress p m n)) = map_get 0 q (matchIndex n) ∧
    map_get 0 q (nextIndex (recordProgress p m n)) = map_get 0 q (nextIndex n).
Proof.
  intros Hm1 Hm2. unfold recordProgress. i64_norm.
  destruct (Z.ltb_spec (map_get 0 p (matchIndex n)) m); simpl;
    (destruct (Z.ltb_spec (map_get 0 p (nextIndex n)) (m + 1)); simpl;
     rewrite ?map_get_insert; (split_and!; [lia|lia|]); intros q Hq;
     rewrite ?map_get_insert_ne by done; done).
Qed.

End commit.

(** ** The theorems *)

Section theorems.
Context {S : Type} {HS : Storage S}.
Implicit Types n : Node S.

(** C15. The commit rule: [advanceCommitIndexLocked] returns on every
    well-formed node (its loop needs no more iterations than there are
    uncommitted entries) and moves the commit index exactly to the largest
    index above it whose entry is of the current term and which a majority of
    the configuration holds, the leader counting itself once; without such an
    index nothing changes, and a failed save degrades the node. *)
Theorem commit_rule now n :
  wf n → id n ∉ peers n →
  ∃ n' b, advanceCommitIndex now n = Ret (n', b) ∧ wf n' ∧ log n' = log n ∧
    (commitIndex n' = commitIndex n ∧ n' = n ∧ b = false ∧
       (∀ j, commitIndex n < j ≤ snapshotIndex n + zlen (log n) → ¬ committable n j) ∨
     commitIndex n < commitIndex n' ≤ snapshotIndex n + zlen (log n) ∧
       (∃ e, entry_at n (commitIndex n') = Some e ∧ LogEntry.Term e = currentTerm n) ∧
       zlen (Members (config n)) < 2 * Z.of_nat (size (acked (commitIndex n') n)) ∧
       (∀ j, commitIndex n' < j ≤ snapshotIndex n + zlen (log n) → ¬ committable n j) ∧
       (b = true ∨ degraded n' = true)).
Proof.
  intros Hwf Hid. destruct (advanceCommitIndex_spec now n Hwf) as (n' & b & -> & Hpost).
  exists n', b. split; [done|].
  destruct Hpost as [(-> & -> & Hno)|(c & st & Hc & (e & He & Ht & Hq) & Hmax & Hn')];
    [by split_and!; try done; left|].
  rewrite replicaVotes_acked in Hq by done.
  assert (zlen (Members (config n)) < 2 * Z.of_nat (size (acked c n))).
  { unfold quorumSize in Hq. pose proof (Z.div_mod (zlen (Members (config n))) 2).
    pose proof (Z.mod_pos_bound (zlen (Members (config n))) 2). lia. }
  pose proof (committed_wf c now st n Hwf Hc) as Hwf'.
  destruct Hn' as [[-> ->]|[-> ->]].
  - split_and!; [done|done|]. right. simpl. split_and!; eauto; lia.
  - split_and!; [by destruct Hwf'|done|]. right. simpl. split_and!; eauto; lia.
Qed.

(** C16. [StartCommand] on every branch: a node that is degraded or not the
    leader refuses and is unchanged; if the storage refuses the entry, the log
    is rolled back; otherwise the entry of the current term is the last of the
    log, its index is returned, it is the leader's own match index, the
    replication loop is woken, and the commit index moved only by the commit
    rule.  It never panics and keeps the node well formed. *)
Theorem start_command_total now cmd n :
  wf n → snapshotIndex n + zlen (log n) + 1 < max_int64 →
  ∃ n' r, StartCommand now cmd n = Ret (n', r) ∧ start_post now cmd n n' r ∧ wf n' ∧
    (r.2 = true →
       r.1 = lastLogIndex n' ∧ replicateNotifyCh n' = true ∧
       entry_at n' r.1 = Some (LogEntry.mk (currentTerm n) EntryCommand cmd) ∧
       map_get 0 (id n) (matchIndex n') = r.1 ∧
       ∀ i, i < r.1 → entry_at n' i = entry_at n i) ∧
    (r.2 = false → log n' = log n ∧ commitIndex n' = commitIndex n).
Proof.
  intros Hwf Hroom. destruct (StartCommand_post now cmd n Hwf Hroom) as (n' & r & -> & Hpost).
  exists n', r. split; [done|]. split; [done|].
  destruct Hpost as [?|st ? ?|st n' ? ? p -> Hno|st st' c n' ? ? p Hc Hcm Hn'].
  - split_and!; done.
  - split_and!; [apply (wf_same n); [done|node_eq..]|done|done].
  - apply (proposed_client now cmd st n p);
      [by apply proposed_wf|done|apply Hwf|subst p; node_eq..].
  - pose proof (committed_wf c now st' p (proposed_wf now cmd st n Hwf Hroom) Hc) as Hwfc.
    destruct Hn' as [-> | ->]; (apply (proposed_client now cmd st n (committed c now st' p));
      [done|done|apply Hwf|subst p; node_eq..]).
Qed.

(** C17. Backing off.  A leader handles a rejection of a request of its own
    term: nothing but the peer's next index changes, and the replication loop
    is woken.  With [h] the hint ([hint], read off the response and the
    leader's log: one past the last entry of the follower's conflicting term,
    else the follower's conflict index, else one less than before), a next
    index above 1 becomes [min h (next - 1)], at least 1, so it strictly
    decreases; one that is at most 1 becomes [max 1 h], which may be larger:
    a follower with a snapshot asks for the index after it. *)
Theorem backoff_progress now p req resp n :
  wf n → role n = Leader → AppendEntriesRequest.Term req = currentTerm n →
  AppendEntriesResponse.Term resp ≤ currentTerm n →
  AppendEntriesResponse.Success resp = false →
  let next := map_get 0 p (nextIndex n) in
  in_i64 next →
  ∃ h r, hint resp next n h ∧
    onAppendResponse now p req resp n =
      Ret (n <| nextIndex := <[p := r]> (nextIndex n) |> <| replicateNotifyCh := true |>) ∧
    1 ≤ r ∧
    (1 < next → r = Z.min h (next - 1) ∧ r < next) ∧
    (next ≤ 1 → r = Z.max 1 h).
Proof.
  intros Hwf Hr Ht Hle Hs next Hi. destruct (backoffNext_hint resp next n Hwf Hi) as (h & Hh & Hb).
  exists h, (backoffNext resp next n). split; [done|]. split; [|done].
  unfold onAppendResponse. rewrite (proj2 (Z.ltb_ge _ _)) by done. by rewrite Hr, Ht, Z.eqb_refl, Hs.
Qed.

End theorems.

(** ** Witnesses: the leader of [Demo], whose follower acknowledged index 3 *)

Definition demo_acked : Node InMemoryStorage.t :=
  Demo.leader 4 <| matchIndex := {["b" := 3]} |>.

Lemma demo_acked_wf : wf demo_acked.
Proof. by split; vm_compute. Qed.

Lemma commit_rule_witness :
  ∃ n' b, advanceCommitIndex 7 demo_acked = Ret (n', b) ∧ wf n' ∧
    log n' = log demo_acked.
Proof.
  destruct (commit_rule 7 demo_acked demo_acked_wf) as (n' & b & H1 & H2 & H3 & _).
  - by vm_compute.
  - exists n', b. split_and!; [exact H1|exact H2|exact H3].
Defined.

Lemma start_command_total_witness :
  ∃ n' r, StartCommand 7 [Byte.x41] demo_acked = Ret (n', r) ∧ wf n'.
Proof.
  destruct (start_command_total 7 [Byte.x41] demo_acked demo_acked_wf)
    as (n' & r & H1 & _ & H2 & _).
  - by vm_compute.
  - exists n', r. split; [exact H1|exact H2].
Defined.

(** The follower's second entry has term 1: the leader goes back to index 2. *)
Lemma backoff_progress_witness :
  ∃ h r, hint (AppendEntriesResponse.mk 2 false 1 1) 4 demo_acked h ∧
    onAppendResponse 0 "b" (AppendEntriesRequest.mk 2 "a" 3 2 [] 1)
      (AppendEntriesResponse.mk 2 false 1 1) demo_acked =
      Ret (demo_acked <| nextIndex := {["b" := r]} |> <| replicateNotifyCh := true |>) ∧
    1 ≤ r < 4.
Proof.
  destruct (backoff_progress 0 "b" (AppendEntriesRequest.mk 2 "a" 3 2 [] 1)
    (AppendEntriesResponse.mk 2 false 1 1) demo_acked demo_acked_wf)
    as (h & r & H1 & H2 & H3 & H4 & _); [done|done|by vm_compute|done|by vm_compute|].
  exists h, r. split_and!; [exact H1|exact H2|exact H3|apply H4; by vm_compute].
Defined.
