(* ===== verification/SnapshotSpec.v ===== *)
(** * SnapshotSpec: local compaction and snapshots from the leader

    [Snapshot] of [consensus.go] and [HandleInstallSnapshot] on every branch:
    neither panics on a well-formed node, the logical log above the snapshot
    is unchanged, and the node stays well formed. *)

From S2P Require Import Prelude Types Storage Timing Node Handlers Replication.
From S2P Require Import LogSpec AppendSpec AppendProtocol.
Open Scope Z_scope.

Section snapshot.
Context {S : Type} {HS : Storage S}.
Implicit Types n : Node S.

(** A log cut at its front, by index. *)
Lemma log_at_drop snap k (l : list LogEntry) i :
  snap ≤ k → k < i →
  log_at k (drop (Z.to_nat (k - snap)) l) i = log_at snap l i.
Proof.
  intros Hk Hi. unfold log_at. destruct (Z.leb_spec i k), (Z.leb_spec i snap); try lia.
  rewrite lookup_drop. f_equal. lia.
Qed.

(** ** Local compaction *)

(** The node after [Snapshot(index, data)]. *)
Definition compactedTo (index term : Z) (data : bytes) (st : option S) n : Node S :=
  n <| log := drop (Z.to_nat (index - snapshotIndex n)) (log n) |>
    <| snapshotIndex := index |> <| snapshotTerm := term |>
    <| snapshot := Some (Snapshot.mk index term (config n) data) |>
    <| storage := st |>.

Lemma TakeSnapshot_post index data n :
  wf n → index ≤ max_int64 →
  ∃ n' err, TakeSnapshot index data n = Ret (n', err) ∧
    if index <=? snapshotIndex n then n' = n ∧ err = None
    else if snapshotIndex n + zlen (log n) <? index then
      n' = n ∧ err = Some (ErrSnapshotBeyondLog index (snapshotIndex n + zlen (log n)))
    else ∃ st, (∃ e, err = Some e ∧ n' = n <| storage := st |>) ∨
      err = None ∧ ∃ e, entry_at n index = Some e ∧
        n' = compactedTo index (LogEntry.Term e) data st n.
Proof.
  intros Hwf Hi. pose proof Hwf as [Hs ? ? Hr _]. unfold TakeSnapshot.
  rewrite lastLogIndex_eq by done.
  destruct (Z.leb_spec index (snapshotIndex n)); [by eauto 10|].
  destruct (Z.ltb_spec (snapshotIndex n + zlen (log n)) index); [by eauto 10|].
  destruct (log_at_is_Some (snapshotIndex n) (log n) index) as [e He]; [lia|].
  rewrite entryAt_eq by lia. unfold entry_at at 1. rewrite He. simpl.
  destruct (persistSnapshot _ n) as [n1 err] eqn:E.
  destruct (with_storage_frame _ _ _ _ E) as [st ->].
  destruct err as [err|]; [do 2 eexists; split; [done|]; exists st; left; eauto|].
  simpl. i64_norm. rewrite slice_from_Ret by lia. simpl. unfold persistCompactLog.
  destruct (with_storage _ _) as [n2 err2] eqn:E2.
  destruct (with_storage_frame _ _ _ _ E2) as [st2 ->].
  do 2 eexists; split; [done|]. exists st2. right. split; [done|]. exists e. split; [done|].
  unfold compactedTo, set_field; simpl. reflexivity.
Qed.

Lemma compactedTo_wf index term data st n :
  wf n → snapshotIndex n < index ≤ commitIndex n → wf (compactedTo index term data st n).
Proof.
  intros [Hs Hc Ha Hr _] Hi. unfold compactedTo, set_field.
  split; simpl; try rewrite zlen_drop by lia; [lia|lia|lia|lia|].
  intros _. by eexists.
Qed.

(** ** Snapshots from the leader *)

(** The log [applySnapshotLocked] keeps. *)
Definition logAbove (idx : Z) n : list LogEntry :=
  if idx <? snapshotIndex n + zlen (log n)
  then drop (Z.to_nat (idx - snapshotIndex n)) (log n) else [].

Lemma retainedLog_eq snap n :
  wf n → snapshotIndex n ≤ Snapshot.LastIncludedIndex snap < max_int64 →
  retainedLog snap n = Ret (logAbove (Snapshot.LastIncludedIndex snap) n).
Proof.
  intros [Hs ? ? Hr _] Hi. unfold retainedLog, logAbove. rewrite lastLogIndex_eq by done.
  destruct (Z.ltb_spec (Snapshot.LastIncludedIndex snap) (snapshotIndex n + zlen (log n))); [|done].
  i64_norm. destruct (Z.ltb_spec 0 (Snapshot.LastIncludedIndex snap - snapshotIndex n)).
  - apply slice_from_Ret. lia.
  - by replace (Z.to_nat _) with 0%nat by lia.
Qed.

(** What a node has after [applySnapshotLocked]; the storage is whatever the
    best-effort writes left. *)
Record snapshot_applied (snap : Snapshot) n n' : Prop := {
  sa_log : log n' = logAbove (Snapshot.LastIncludedIndex snap) n;
  sa_index : snapshotIndex n' = Snapshot.LastIncludedIndex snap;
  sa_term : snapshotTerm n' = Snapshot.LastIncludedTerm snap;
  sa_snapshot : snapshot n' = Some snap;
  sa_commit : commitIndex n' = Z.max (commitIndex n) (Snapshot.LastIncludedIndex snap);
  sa_config : config n' = if bool_decide (Members (Snapshot.Config snap) = [])
                          then config n else Snapshot.Config snap;
  sa_pending : pendingSnapshot n' = if lastApplied n <? Snapshot.LastIncludedIndex snap
                                    then Some snap else pendingSnapshot n;
  sa_applied : lastApplied n' = lastApplied n;
  sa_role : role n' = role n;
  sa_current : currentTerm n' = currentTerm n;
  sa_vote : votedFor n' = votedFor n;
  sa_degraded : degraded n' = degraded n }.

Lemma applySnapshot_spec snap n :
  wf n → snapshotIndex n ≤ Snapshot.LastIncludedIndex snap < max_int64 →
  ∃ n', applySnapshot snap n = Ret n' ∧ snapshot_applied snap n n'.
Proof.
  intros Hwf Hi. unfold applySnapshot. rewrite retainedLog_eq by done. simpl.
  set (n1 := setSnapshot snap _ n). set (n2 := coverCommit snap n1).
  set (n3 := adoptConfig snap n2). set (n4 := markPending snap n3).
  eexists; split; [done|].
  assert (∃ st, n3 = n2 <| config := if bool_decide (Members (Snapshot.Config snap) = [])
                          then config n else Snapshot.Config snap |> <| storage := st |>)
    as [st3 E3].
  { unfold n3, adoptConfig. assert (config n2 = config n) as Hc
      by (unfold n2, coverCommit; by case_match).
    case_bool_decide; [exists (storage n2); rewrite <- Hc; by destruct n2|].
    unfold persistHardState. destruct (with_storage _ _) as [m err] eqn:E.
    destruct (with_storage_frame _ _ _ _ E) as [st ->]. by exists st. }
  assert (∃ st, (persistCompactLog n4).1 = n4 <| storage := st |>) as [st5 E5].
  { unfold persistCompactLog. destruct (with_storage _ _) as [m err] eqn:E.
    destruct (with_storage_frame _ _ _ _ E) as [st ->]. by exists st. }
  rewrite E5. clear E5. unfold n4, markPending. rewrite E3. clear n4 n3 E3.
  unfold n2, coverCommit, n1, setSnapshot, set_field. simpl.
  destruct (Z.ltb_spec (commitIndex n) (Snapshot.LastIncludedIndex snap)); simpl;
    (destruct (Z.ltb_spec (lastApplied n) (Snapshot.LastIncludedIndex snap));
     simpl; split; simpl; try done; try lia).
  all: destruct (Z.ltb_spec (lastApplied n) (Snapshot.LastIncludedIndex snap)); done || lia.
Qed.

Lemma logAbove_length idx n :
  wf n → snapshotIndex n ≤ idx →
  idx + zlen (logAbove idx n) = Z.max idx (snapshotIndex n + zlen (log n)).
Proof.
  intros [Hs ? ? Hr _] Hi. unfold logAbove.
  destruct (Z.ltb_spec idx (snapshotIndex n + zlen (log n))).
  - rewrite zlen_drop by lia. lia.
  - change (zlen []) with 0. lia.
Qed.

Lemma logAbove_at idx n i :
  snapshotIndex n ≤ idx → idx < i → log_at idx (logAbove idx n) i = entry_at n i.
Proof.
  intros Hs Hi. unfold logAbove, entry_at.
  destruct (Z.ltb_spec idx (snapshotIndex n + zlen (log n))); [by apply log_at_drop|].
  symmetry. destruct (log_at (snapshotIndex n) (log n) i) eqn:E.
  - apply log_at_Some in E. lia.
  - unfold log_at. by destruct (i <=? idx).
Qed.

Lemma snapshot_applied_wf snap n n' :
  wf n → snapshotIndex n ≤ Snapshot.LastIncludedIndex snap < max_int64 →
  snapshot_applied snap n n' → wf n'.
Proof.
  intros Hwf Hi [Hl Hs Ht Hsn Hc _ _ Ha _ _ _ _].
  pose proof (logAbove_length (Snapshot.LastIncludedIndex snap) n Hwf ltac:(lia)) as Hlen.
  destruct Hwf as [? ? ? ? _]. split; rewrite ?Hl, ?Hs, ?Ht, ?Hsn, ?Hc, ?Ha; try lia.
  intros _. by eexists.
Qed.

(** The snapshot of a request. *)
Definition snapshot_of (req : InstallSnapshotRequest) : Snapshot :=
  Snapshot.mk (InstallSnapshotRequest.LastIncludedIndex req)
    (InstallSnapshotRequest.LastIncludedTerm req)
    (InstallSnapshotRequest.Config req) (InstallSnapshotRequest.Data req).

(** The follower already has this snapshot or a newer one. *)
Definition has_snapshot (req : InstallSnapshotRequest) n : Prop :=
  InstallSnapshotRequest.LastIncludedIndex req < snapshotIndex n ∨
  InstallSnapshotRequest.LastIncludedIndex req = snapshotIndex n ∧
  InstallSnapshotRequest.LastIncludedTerm req = snapshotTerm n.

#[export] Instance has_snapshot_dec req n : Decision (has_snapshot req n).
Proof. apply _. Defined.

(** Every way [HandleInstallSnapshot] ends. *)
Inductive install_post (req : InstallSnapshotRequest) n
    : Node S → result InstallSnapshotResponse → Prop :=
  | ipost_degraded : degraded n = true → install_post req n n (Err ErrNodeDegraded)
  | ipost_stale :
      degraded n = false → InstallSnapshotRequest.Term req < currentTerm n →
      install_post req n n (Val (InstallSnapshotResponse.mk (currentTerm n)))
  | ipost_failed n' err :
      degraded n = false → currentTerm n ≤ InstallSnapshotRequest.Term req →
      log n' = log n → commitIndex n' = commitIndex n →
      snapshotIndex n' = snapshotIndex n → snapshotTerm n' = snapshotTerm n →
      snapshot n' = snapshot n → lastApplied n' = lastApplied n →
      pendingSnapshot n' = pendingSnapshot n → currentTerm n ≤ currentTerm n' →
      install_post req n n' (Err err)
  | ipost_ignored v st :
      degraded n = false → currentTerm n ≤ InstallSnapshotRequest.Term req →
      has_snapshot req n →
      install_post req n (as_follower (InstallSnapshotRequest.Term req) v st n)
        (Val (InstallSnapshotResponse.mk (InstallSnapshotRequest.Term req)))
  | ipost_installed v st n' :
      degraded n = false → currentTerm n ≤ InstallSnapshotRequest.Term req →
      ¬ has_snapshot req n →
      snapshot_applied (snapshot_of req)
        (as_follower (InstallSnapshotRequest.Term req) v st n) n' →
      install_post req n (notifyApply n')
        (Val (InstallSnapshotResponse.mk (InstallSnapshotRequest.Term req))).

Lemma HandleInstallSnapshot_post req n :
  wf n → InstallSnapshotRequest.LastIncludedIndex req < max_int64 →
  ∃ n' r, HandleInstallSnapshot req n = Ret (n', r) ∧ install_post req n n' r.
Proof.
  intros Hwf Hfit. unfold HandleInstallSnapshot.
  destruct (degraded n) eqn:Hdeg; [by do 2 eexists; split; [|apply ipost_degraded]|].
  destruct (Z.ltb_spec (InstallSnapshotRequest.Term req) (currentTerm n)) as [?|Hterm];
    [by do 2 eexists; split; [|apply ipost_stale]|].
  destruct (adoptTerm _ n) as [n1 e1] eqn:E1.
  destruct (adoptTerm_frame _ _ _ _ Hterm E1) as [st F1].
  destruct e1 as [err|].
  { destruct F1 as [? ->]. do 2 eexists; split; [done|]. by apply ipost_failed. }
  set (t := InstallSnapshotRequest.Term req) in *. set (v := kept_vote t n) in *.
  assert (resetElectionTimeout (n1 <| role := Follower |>) = as_follower t v st n) as ->
    by (subst n1; by destruct n).
  simpl snapshotIndex. simpl snapshotTerm.
  destruct (Z.ltb_spec (InstallSnapshotRequest.LastIncludedIndex req) (snapshotIndex n)).
  { do 2 eexists; split; [done|]. apply ipost_ignored; [done|done|by left]. }
  destruct ((_ =? _) && (_ =? _)) eqn:Hsame.
  { zbool. do 2 eexists; split; [done|]. apply ipost_ignored; [done|done|by right]. }
  assert (¬ has_snapshot req n) as Hno.
  { intros [?|[? ?]]; [lia|]. apply andb_false_iff in Hsame as [?|?]; zbool; lia. }
  fold (snapshot_of req).
  destruct (tracePersistSnapshot _ _) as [n2 err] eqn:E2.
  destruct (with_storage_frame _ _ _ _ E2) as [st2 ->]. destruct err as [err|].
  { do 2 eexists; split; [done|]. by apply ipost_failed. }
  assert (as_follower t v st n <| storage := st2 |> = as_follower t v st2 n) as ->
    by by destruct n.
  destruct (applySnapshot_spec (snapshot_of req) (as_follower t v st2 n)) as (n3 & -> & Happ);
    [apply (wf_same n); [done|node_eq..]|simpl; lia|].
  simpl. do 2 eexists; split; [done|]. by eapply ipost_installed.
Qed.

End snapshot.

(** ** The theorems *)

Section theorems.
Context {S : Type} {HS : Storage S}.
Implicit Types n : Node S.

Lemma compactedTo_lastTerm index e data st n :
  snapshotIndex n < index → entry_at n index = Some e →
  lastLogTerm (compactedTo index (LogEntry.Term e) data st n) = lastLogTerm n.
Proof.
  intros Hi He. pose proof He as He'. apply log_at_Some in He'.
  unfold entry_at, log_at in He. destruct (Z.leb_spec index (snapshotIndex n)); [lia|].
  unfold lastLogTerm. simpl. unfold zlen in He'.
  destruct (decide (index = snapshotIndex n + Z.of_nat (length (log n)))) as [->|].
  - rewrite drop_ge by lia. simpl. rewrite last_lookup.
    replace (pred (length (log n))) with
      (Z.to_nat (snapshotIndex n + Z.of_nat (length (log n)) - snapshotIndex n - 1)) by lia.
    by rewrite He.
  - rewrite !last_lookup, length_drop, lookup_drop.
    replace (Z.to_nat _ + _)%nat with (pred (length (log n))) by lia.
    by destruct (lookup_lt_is_Some_2 (log n) (pred (length (log n)))) as [x ->]; [lia|].
Qed.

Lemma HandleInstallSnapshot_facts req n :
  wf n → InstallSnapshotRequest.LastIncludedIndex req < max_int64 →
  ∃ n' r, HandleInstallSnapshot req n = Ret (n', r) ∧ wf n' ∧
    currentTerm n ≤ currentTerm n' ∧ commitIndex n ≤ commitIndex n' ∧
    lastApplied n' = lastApplied n ∧
    (∀ i, snapshotIndex n' < i → entry_at n' i = entry_at n i) ∧
    (∀ resp, r = Val resp → InstallSnapshotResponse.Term resp = InstallSnapshotRequest.Term req →
       currentTerm n ≤ InstallSnapshotRequest.Term req →
       role n' = Follower ∧ currentTerm n' = InstallSnapshotRequest.Term req ∧
       InstallSnapshotRequest.LastIncludedIndex req ≤ snapshotIndex n' ∧
       (¬ has_snapshot req n →
          snapshot n' = Some (snapshot_of req) ∧
          snapshotIndex n' = InstallSnapshotRequest.LastIncludedIndex req ∧
          commitIndex n' = Z.max (commitIndex n) (snapshotIndex n') ∧
          applyNotifyCh n' = true ∧
          (lastApplied n < snapshotIndex n' → pendingSnapshot n' = Some (snapshot_of req)))).
Proof.
  intros Hwf Hfit. destruct (HandleInstallSnapshot_post req n Hwf Hfit) as (n' & r & -> & Hpost).
  exists n', r. split; [done|]. destruct Hpost as
    [|? ?|m err ? ? Hl Hc Hsi Hst Hsn Hla _ Ht|v st ? ? Hhas|v st m ? ? Hno Happ].
  - by split_and!.
  - split_and!; try done. intros resp [= <-] E ?. simpl in E. lia.
  - split_and!; [by apply (wf_same n)|done|lia|done| |done].
    intros i _. unfold entry_at. by rewrite Hl, Hsi.
  - split_and!; [apply (wf_same n); [done|node_eq..]|simpl; lia|done|done|done|].
    intros resp [= <-] _ _. simpl. split_and!; [done|done|destruct Hhas; lia|done].
  - set (f := as_follower (InstallSnapshotRequest.Term req) v st n) in *.
    assert (wf f) as Hwff by (apply (wf_same n); [done|node_eq..]).
    assert (snapshotIndex n ≤ InstallSnapshotRequest.LastIncludedIndex req) as Hle.
    { destruct (decide (InstallSnapshotRequest.LastIncludedIndex req < snapshotIndex n)); [|lia].
      destruct Hno. by left. }
    pose proof (snapshot_applied_wf (snapshot_of req) f m Hwff (conj Hle Hfit) Happ) as Hwfm.
    destruct Happ as [Hl Hsi Hst Hsn Hc _ Hp Ha Hro Hcu _ _]. simpl in *.
    split_and!; [apply (wf_same m); [done|node_eq..]|lia|lia|done| |].
    + intros i Hi. rewrite Hsi in Hi. unfold entry_at; simpl. rewrite Hl, Hsi.
      by apply (logAbove_at _ f).
    + intros resp [= <-] _ _. split_and!; [done|done|lia|]. intros _.
      rewrite Hsi. split_and!; try done. intros Hlt. rewrite Hp.
      by rewrite (proj2 (Z.ltb_lt _ _)) by done.
Qed.

(** C18. Local compaction keeps the log: for an index that is committed,
    [Snapshot] never panics; the entries above the new snapshot index, the
    last index and term that elections compare, the commit index and the
    well-formedness are unchanged; when it returns no error the snapshot
    covers the index and carries the term of its entry, the current
    configuration and the given data. *)
Theorem take_snapshot_preserves_log index data n :
  wf n → index ≤ commitIndex n →
  ∃ n' err, TakeSnapshot index data n = Ret (n', err) ∧ wf n' ∧
    (∀ i, snapshotIndex n' < i → entry_at n' i = entry_at n i) ∧
    snapshotIndex n' + zlen (log n') = snapshotIndex n + zlen (log n) ∧
    lastLogTerm n' = lastLogTerm n ∧ commitIndex n' = commitIndex n ∧
    (err = None → index ≤ snapshotIndex n' ∧
       (snapshotIndex n < index → ∃ e, entry_at n index = Some e ∧
          snapshot n' = Some (Snapshot.mk index (LogEntry.Term e) (config n) data) ∧
          snapshotIndex n' = index ∧ snapshotTerm n' = LogEntry.Term e)) ∧
    (err ≠ None → log n' = log n ∧ snapshotIndex n' = snapshotIndex n).
Proof.
  intros Hwf Hi. pose proof Hwf as [Hs Hc ? Hr _].
  destruct (TakeSnapshot_post index data n Hwf) as (n' & err & -> & Hpost); [lia|].
  exists n', err. split; [done|]. destruct (Z.leb_spec index (snapshotIndex n)).
  { destruct Hpost as [-> ->]. split_and!; try done. intros _. split; [done|lia]. }
  destruct (Z.ltb_spec (snapshotIndex n + zlen (log n)) index); [lia|].
  destruct Hpost as (st & [(e & -> & ->)|(-> & e & He & ->)]).
  { split_and!; try done. apply (wf_same n); [done|node_eq..]. }
  pose proof (compactedTo_wf index (LogEntry.Term e) data st n Hwf ltac:(lia)) as Hwf'.
  pose proof (compactedTo_lastTerm index e data st n ltac:(lia) He) as Hlast.
  split_and!; [done| | |done|done| |done].
  - intros i Hgt. unfold entry_at, compactedTo in *. simpl in *. apply log_at_drop; lia.
  - unfold compactedTo, set_field; simpl. rewrite zlen_drop by lia. lia.
  - intros _. unfold compactedTo, set_field; simpl. split; [lia|]. intros _. by exists e.
Qed.

(** C19. [HandleInstallSnapshot] on a well-formed node, whichever storage
    write fails: it never panics and leaves a well-formed node whose term and
    commit index did not go back and whose log above its snapshot is the old
    one.  When it answers in the request's term, the node is a follower of
    that term whose snapshot covers the requested index; a new snapshot also
    raises the commit index to it, and is left pending for the apply loop
    unless it was applied already. *)
Theorem install_snapshot_total req n :
  wf n → InstallSnapshotRequest.LastIncludedIndex req < max_int64 →
  ∃ n' r, HandleInstallSnapshot req n = Ret (n', r) ∧ wf n' ∧
    currentTerm n ≤ currentTerm n' ∧ commitIndex n ≤ commitIndex n' ∧
    lastApplied n' = lastApplied n ∧
    (∀ i, snapshotIndex n' < i → entry_at n' i = entry_at n i) ∧
    (∀ resp, r = Val resp → InstallSnapshotResponse.Term resp = InstallSnapshotRequest.Term req →
       currentTerm n ≤ InstallSnapshotRequest.Term req →
       role n' = Follower ∧ currentTerm n' = InstallSnapshotRequest.Term req ∧
       InstallSnapshotRequest.LastIncludedIndex req ≤ snapshotIndex n' ∧
       (¬ has_snapshot req n →
          snapshot n' = Some (snapshot_of req) ∧
          snapshotIndex n' = InstallSnapshotRequest.LastIncludedIndex req ∧
          commitIndex n' = Z.max (commitIndex n) (snapshotIndex n') ∧
          applyNotifyCh n' = true ∧
          (lastApplied n < snapshotIndex n' → pendingSnapshot n' = Some (snapshot_of req)))).
Proof. apply HandleInstallSnapshot_facts. Qed.

End theorems.

(** ** Witnesses *)

Lemma take_snapshot_preserves_log_witness :
  ∃ n' err, TakeSnapshot 1 [Byte.x41] (Demo.leader 2) = Ret (n', err) ∧ wf n' ∧
    lastLogTerm n' = lastLogTerm (Demo.leader 2).
Proof.
  destruct (take_snapshot_preserves_log 1 [Byte.x41] (Demo.leader 2) (Demo.leader_wf 2))
    as (n' & err & H1 & H2 & _ & _ & H3 & _); [by vm_compute|].
  exists n', err. split_and!; [exact H1|exact H2|exact H3].
Defined.

Lemma install_snapshot_total_witness :
  ∃ n' r, HandleInstallSnapshot
      (InstallSnapshotRequest.mk 2 "a" 5 2 (mkClusterConfig []) [Byte.x41]) Demo.follower =
      Ret (n', r) ∧ wf n'.
Proof.
  destruct (install_snapshot_total
    (InstallSnapshotRequest.mk 2 "a" 5 2 (mkClusterConfig []) [Byte.x41]) Demo.follower
    Demo.follower_wf) as (n' & r & H1 & H2 & _); [by vm_compute|].
  exists n', r. split; [exact H1|exact H2].
Defined.
