(* ===== verification/CatchUp.v ===== *)
(** * CatchUp: a leader brings a follower up to date

    [catchUp] composes the leader's replication round, the follower's
    handlers and the leader's response handling into the exchange that goes
    on until the follower acknowledges.  With a storage whose writes do not
    fail it ends after at most [nextIndex + 1] exchanges, whatever the logs:
    a rejection lowers [nextIndex], and a peer behind the snapshot receives
    the snapshot and acknowledges the next request.  One acknowledged exchange
    by itself, whatever the storage, makes the logs agree up to the match
    index the leader records. *)

From S2P Require Import Prelude Types Storage Timing Node Handlers Replication.
From S2P Require Import LogSpec AppendSpec AppendProtocol CommitSpec SnapshotSpec.
Open Scope Z_scope.

(** A storage that performs every write. *)
Class ReliableStorage (S : Type) `{Storage S} : Prop := {
  reliable_hard h s : (SaveHardState h s).2 = None;
  reliable_append es s : (AppendLog es s).2 = None;
  reliable_truncate k s : (TruncateLog k s).2 = None;
  reliable_set_log b es s : (SetLog b es s).2 = None;
  reliable_snapshot sn s : (SaveSnapshot sn s).2 = None }.

#[export] Instance InMemoryStorage_reliable : ReliableStorage InMemoryStorage.t.
Proof.
  split; try done. intros es s. simpl. unfold InMemoryStorage.AppendLog. by case_match.
Qed.

Section exchange.
Context {S : Type} {HS : Storage S}.

(** What the RPC returned, from what the handler did. *)
Definition rpc_of {A} (r : result A) : rpc_result A :=
  match r with Val resp => RpcOk resp | Err _ => RpcError end.

(** The exchange between the leader [L] and the peer [p], whose node is [F],
    over a network that delivers; the flag says that [F] acknowledged. *)
Fixpoint catchUp (fuel : nat) (now : Z) (p : string) (L F : Node S)
    : outcome (Node S * Node S * bool) :=
  match fuel with
  | O => Ret (L, F, false)
  | Datatypes.S fuel =>
      '(L, act) ← replicatePeer p L;
      match act with
      | SendEntries req =>
          '(F, r) ← HandleAppendEntries now req F;
          L ← sendAppendEntries now p req (rpc_of r) L;
          match r with
          | Val resp => if AppendEntriesResponse.Success resp then Ret (L, F, true)
                        else catchUp fuel now p L F
          | Err _ => Ret (L, F, false)
          end
      | SendSnapshot req =>
          '(F, r) ← HandleInstallSnapshot req F;
          let L := sendInstallSnapshot p req (rpc_of r) L in
          match r with
          | Val _ => catchUp fuel now p L F
          | Err _ => Ret (L, F, false)
          end
      | StepDown | Skip => Ret (L, F, false)
      end
  end.

End exchange.

(** ** Handlers over a reliable storage *)

Section reliable.
Context {S : Type} {HS : Storage S} {HR : ReliableStorage S}.
Implicit Types n : Node S.

Lemma with_storage_reliable op n n' e :
  (∀ s, (op s).2 = None) → with_storage op n = (n', e) → e = None.
Proof.
  unfold with_storage. intros Hop. destruct (storage n) as [s|]; [|by intros [= _ <-]].
  specialize (Hop s). destruct (op s). by intros [= _ <-].
Qed.

Lemma adoptTerm_reliable t n n' e : adoptTerm t n = (n', e) → e = None.
Proof.
  unfold adoptTerm. case_match; [|by intros [= _ <-]].
  destruct (tracePersistHardState _) as [m err] eqn:E.
  apply with_storage_reliable in E as ->; [|intros; apply reliable_hard]. by intros [= _ <-].
Qed.

Lemma appendLoop_reliable prev i es n n' e :
  appendLoop prev i es n = Ret (n', e) → e = None.
Proof.
  revert i n. induction es as [|x es IH]; intros i n; simpl; [by intros [= _ <-]|].
  case_match; [apply IH|].
  case_match.
  { destruct (tracePersistAppendLog _ _) as [m err] eqn:E.
    apply with_storage_reliable in E as ->; [|intros; apply reliable_append].
    by intros [= _ <-]. }
  destruct (entryAt _ n) as [y|]; [|done]. simpl. case_match; [apply IH|].
  destruct (tracePersistTruncateLog _ _) as [m err] eqn:E.
  apply with_storage_reliable in E as ->; [|intros; apply reliable_truncate].
  destruct (slice_to _ _) as [l|]; [|done]. simpl.
  destruct (tracePersistAppendLog _ _) as [m' err] eqn:E.
  apply with_storage_reliable in E as ->; [|intros; apply reliable_append]. by intros [= _ <-].
Qed.

Lemma followCommit_reliable lc now n n' e : followCommit lc now n = (n', e) → e = None.
Proof.
  unfold followCommit. case_match; [|by intros [= _ <-]].
  destruct (tracePersistHardState _) as [m err] eqn:E.
  apply with_storage_reliable in E as ->; [|intros; apply reliable_hard]. by intros [= _ <-].
Qed.

Lemma HandleAppendEntries_reliable now req n n' r :
  degraded n = false → HandleAppendEntries now req n = Ret (n', r) → ∃ resp, r = Val resp.
Proof.
  unfold HandleAppendEntries. intros ->. case_match; [intros [= _ <-]; eauto|].
  destruct (adoptTerm _ n) as [n1 e1] eqn:E1. rewrite (adoptTerm_reliable _ _ _ _ E1).
  destruct (checkPrev _ _) as [[[ct ci]|]|]; [simpl; intros [= _ <-]; eauto| |done]. simpl.
  destruct (appendLoop _ _ _ _) as [[n2 e2]|] eqn:E2; [|done]. simpl.
  rewrite (appendLoop_reliable _ _ _ _ _ _ E2).
  destruct (followCommit _ _ _) as [n3 e3] eqn:E3.
  rewrite (followCommit_reliable _ _ _ _ _ E3). intros [= _ <-]. eauto.
Qed.

Lemma HandleInstallSnapshot_reliable req n n' r :
  degraded n = false → HandleInstallSnapshot req n = Ret (n', r) → ∃ resp, r = Val resp.
Proof.
  unfold HandleInstallSnapshot. intros ->. case_match; [intros [= _ <-]; eauto|].
  destruct (adoptTerm _ n) as [n1 e1] eqn:E1. rewrite (adoptTerm_reliable _ _ _ _ E1).
  case_match; [intros [= _ <-]; eauto|]. case_match; [intros [= _ <-]; eauto|].
  destruct (tracePersistSnapshot _ _) as [n2 e2] eqn:E2.
  rewrite (with_storage_reliable _ _ _ _ (λ _, reliable_snapshot _ _) E2).
  destruct (applySnapshot _ _) as [n3|]; [|done]. simpl. intros [= _ <-]. eauto.
Qed.
End reliable.

(** ** The leader's side of an exchange *)

Section leader.
Context {S : Type} {HS : Storage S}.
Implicit Types (n L F : Node S) (p : string).

(** Two states of a leader that differ in bookkeeping only. *)
Record alike L L' : Prop := {
  al_log : log L' = log L;
  al_snap : snapshotIndex L' = snapshotIndex L;
  al_snap_term : snapshotTerm L' = snapshotTerm L;
  al_snapshot : snapshot L' = snapshot L;
  al_applied : lastApplied L' = lastApplied L;
  al_role : role L' = role L;
  al_term : currentTerm L' = currentTerm L }.

Lemma alike_wf L L' : wf L → alike L L' → commitIndex L' = commitIndex L → wf L'.
Proof. intros Hwf [] Hc. by apply (wf_same L). Qed.

Lemma finishRPC_facts p n :
  alike n (finishRPC p n) ∧ commitIndex (finishRPC p n) = commitIndex n ∧
  nextIndex (finishRPC p n) = nextIndex n ∧ matchIndex (finishRPC p n) = matchIndex n ∧
  map_get false p (replicateInFlight (finishRPC p n)) = false.
Proof.
  unfold finishRPC. simpl.
  destruct (map_get false p (replicatePending n)); simpl;
    (split_and!; [by split|done|done|done|by rewrite map_get_insert]).
Qed.

Lemma finishInstall_facts p n :
  alike n (finishInstall p n) ∧ commitIndex (finishInstall p n) = commitIndex n ∧
  nextIndex (finishInstall p n) = nextIndex n ∧ matchIndex (finishInstall p n) = matchIndex n ∧
  map_get false p (replicateInFlight (finishInstall p n)) = false.
Proof.
  unfold finishInstall. simpl.
  destruct (map_get false p (replicatePending n)); simpl;
    (split_and!; [by split|done|done|done|by rewrite map_get_insert]).
Qed.

(** The first half of a round, for a peer with nothing in flight. *)
Lemma replicatePeer_send p n :
  wf n → next_ok p n → role n = Leader → map_get false p (replicateInFlight n) = false →
  let n1 := n <| replicateInFlight := <[p := true]> (replicateInFlight n) |> in
  if bool_decide (snapshotIndex n < nextFor p n) then
    ∃ req, replicatePeer p n = Ret (n1, SendEntries req) ∧ request_for p n (nextFor p n) req
  else ∃ req, replicatePeer p n = Ret (n1, SendSnapshot req) ∧
    InstallSnapshotRequest.Term req = currentTerm n ∧
    InstallSnapshotRequest.LastIncludedIndex req = snapshotIndex n ∧
    InstallSnapshotRequest.LastIncludedTerm req = snapshotTerm n.
Proof.
  intros Hwf Hok Hrole Hfl n1. destruct (next_ok_range p n Hwf Hok) as [Hmax Hnx].
  pose proof (installSnapshotRequestForPeer_spec p n Hwf Hrole) as Hi.
  pose proof (appendEntriesRequestForPeer_spec p n Hwf Hmax Hrole Hfl) as Ha. cbv zeta in Ha.
  pose proof (wf_snap _ Hwf). unfold replicatePeer, replicatePeerWith.
  destruct (decide (snapshotIndex n < nextFor p n)) as [Hc|Hc];
    [rewrite bool_decide_eq_true_2 by done|rewrite bool_decide_eq_false_2 by done].
  - rewrite bool_decide_eq_true_2 in Hi by (unfold nextFor in Hc; lia). rewrite Hi. simpl.
    rewrite bool_decide_eq_true_2 in Ha by lia. destruct Ha as (req & -> & Hreq).
    simpl. eauto.
  - rewrite bool_decide_eq_false_2, Hfl in Hi by (unfold nextFor in Hc; lia).
    destruct Hi as (req & -> & Hreq). simpl. eauto.
Qed.

Lemma sendAppendEntries_reject now p req resp L :
  role L = Leader → AppendEntriesRequest.Term req = currentTerm L →
  AppendEntriesResponse.Term resp ≤ currentTerm L →
  AppendEntriesResponse.Success resp = false →
  ∃ L', sendAppendEntries now p req (RpcOk resp) L = Ret L' ∧ alike L L' ∧
    commitIndex L' = commitIndex L ∧
    nextIndex L' = <[p := backoffNext resp (map_get 0 p (nextIndex L)) L]> (nextIndex L) ∧
    map_get false p (replicateInFlight L') = false.
Proof.
  intros Hr Ht Hle Hs. unfold sendAppendEntries, onAppendResponse.
  rewrite (proj2 (Z.ltb_ge _ _)) by done. rewrite Hr, Ht, Z.eqb_refl, Hs.
  eexists; split; [done|].
  match goal with |- alike _ (finishRPC p ?m) ∧ _ =>
    destruct (finishRPC_facts p m) as ([] & Hc & Hn & _ & Hf) end.
  split_and!; [by split|done|done|done].
Qed.

Lemma recordProgress_alike p m n :
  alike n (recordProgress p m n) ∧ commitIndex (recordProgress p m n) = commitIndex n.
Proof. unfold recordProgress. simpl. repeat (case_match; simpl); by split. Qed.

Lemma onAppendResponse_accept now p req resp L :
  wf L → role L = Leader → AppendEntriesRequest.Term req = currentTerm L →
  AppendEntriesResponse.Term resp ≤ currentTerm L →
  AppendEntriesResponse.Success resp = true → req_fits req →
  let m := AppendEntriesRequest.PrevLogIndex req + zlen (AppendEntriesRequest.Entries req) in
  ∃ L', onAppendResponse now p req resp L = Ret L' ∧ alike L L' ∧
    map_get 0 p (matchIndex L') = Z.max m (map_get 0 p (matchIndex L)) ∧
    map_get 0 p (nextIndex L') = Z.max (m + 1) (map_get 0 p (nextIndex L)) ∧
    ∀ q, q ≠ p →
      map_get 0 q (matchIndex L') = map_get 0 q (matchIndex L) ∧
      map_get 0 q (nextIndex L') = map_get 0 q (nextIndex L).
Proof.
  intros Hwf Hr Ht Hle Hs [Hf1 Hf2] m. unfold onAppendResponse.
  rewrite (proj2 (Z.ltb_ge _ _)) by done. rewrite Hr, Ht, Z.eqb_refl, Hs. cbn [role_eqb negb].
  pose proof (zlen_nonneg (AppendEntriesRequest.Entries req)). i64_norm. fold m.
  destruct (recordProgress_alike p m L) as [Hal Hc].
  pose proof (alike_wf _ _ Hwf Hal Hc) as Hwf1.
  pose proof (recordProgress_spec p m L ltac:(lia) ltac:(lia)) as Hm.
  destruct (advanceCommitIndex_spec now _ Hwf1) as (n2 & b & -> & Hpost). simpl.
  eexists; split; [done|]. set (k := if bool_decide _ then _ else _).
  assert (alike (recordProgress p m L) k ∧ matchIndex k = matchIndex (recordProgress p m L) ∧
          nextIndex k = nextIndex (recordProgress p m L)) as ([] & -> & ->).
  { destruct Hpost as [(-> & -> & _)|(c & st & _ & _ & _ & [[-> ->]|[-> ->]])];
      subst k; case_match; by split_and!. }
  split; [|done]. destruct Hal. split; congruence.
Qed.

Lemma sendAppendEntries_accept now p req resp L :
  wf L → role L = Leader → AppendEntriesRequest.Term req = currentTerm L →
  AppendEntriesResponse.Term resp ≤ currentTerm L →
  AppendEntriesResponse.Success resp = true → req_fits req →
  let m := AppendEntriesRequest.PrevLogIndex req + zlen (AppendEntriesRequest.Entries req) in
  ∃ L', sendAppendEntries now p req (RpcOk resp) L = Ret L' ∧ alike L L' ∧
    m ≤ map_get 0 p (matchIndex L').
Proof.
  intros Hwf Hr Ht Hle Hs Hfit m. unfold sendAppendEntries.
  destruct (onAppendResponse_accept now p req resp L) as (L1 & -> & [] & Hm & _); try done.
  simpl. eexists; split; [done|]. destruct (finishRPC_facts p L1) as ([] & _ & _ & -> & _).
  split; [split; congruence|lia].
Qed.

(** A follower that acknowledges answers in the request's term. *)
Lemma success_term req n n' resp :
  append_post req n n' (Val resp) → AppendEntriesResponse.Success resp = true →
  AppendEntriesResponse.Term resp = AppendEntriesRequest.Term req.
Proof.
  intros Hpost Hs. inversion Hpost; subst; try done.
  match goal with Hv : Val _ = _ ∨ _ |- _ => by destruct Hv as [[= ->]|[[? [=]] _]] end.
Qed.

Lemma sendInstallSnapshot_ok p req resp L :
  role L = Leader → InstallSnapshotRequest.Term req = currentTerm L →
  InstallSnapshotResponse.Term resp ≤ currentTerm L →
  - max_int64 ≤ InstallSnapshotRequest.LastIncludedIndex req < max_int64 →
  let L' := sendInstallSnapshot p req (RpcOk resp) L in
  alike L L' ∧ commitIndex L' = commitIndex L ∧
  map_get false p (replicateInFlight L') = false ∧
  map_get 0 p (nextIndex L') =
    Z.max (InstallSnapshotRequest.LastIncludedIndex req + 1) (map_get 0 p (nextIndex L)).
Proof.
  intros Hr Ht Hle Hi. unfold sendInstallSnapshot, onInstallResponse.
  rewrite (proj2 (Z.ltb_ge _ _)) by done. rewrite Hr, Ht, Z.eqb_refl. change (negb true) with false.
  change (negb (role_eqb Leader Leader) || false) with false. cbv iota zeta.
  set (m := InstallSnapshotRequest.LastIncludedIndex req) in *.
  destruct (recordProgress_alike p m L) as [Hal Hc].
  destruct (recordProgress_spec p m L) as (_ & Hn & _); [lia|lia|].
  destruct (finishInstall_facts p (notifyReplicate (recordProgress p m L)))
    as (Hal2 & Hc2 & Hn2 & _ & Hf).
  split_and!; [|by rewrite Hc2|done|by rewrite Hn2; simpl].
  destruct Hal, Hal2. simpl in *. split; congruence.
Qed.

End leader.

(** ** Catching up *)

Section catch_up.
Context {S : Type} {HS : Storage S} {HR : ReliableStorage S}.
Implicit Types (n L F : Node S) (p : string).

(** A log that starts at index 0 has no base term. *)
Definition base_ok n : Prop := snapshotIndex n = 0 → snapshotTerm n = 0.

(** The follower can take part: not degraded, of a term the leader leads. *)
Record ready L F : Prop := {
  rd_wf : wf F;
  rd_base : base_ok F;
  rd_degraded : degraded F = false;
  rd_term : currentTerm F ≤ currentTerm L }.

(** The leader may address [p]. *)
Record leads p L : Prop := {
  ld_wf : wf L;
  ld_base : base_ok L;
  ld_role : role L = Leader;
  ld_next : next_ok p L;
  ld_flight : map_get false p (replicateInFlight L) = false }.

(** What the exchange achieves. *)
Definition caught_up p L F L' F' : Prop :=
  let last := snapshotIndex L + zlen (log L) in
  last ≤ map_get 0 p (matchIndex L') ∧ log L' = log L ∧ snapshotIndex L' = snapshotIndex L ∧
  last ≤ snapshotIndex F' + zlen (log F') ∧
  (log_match L F → agree_upto last L F').

(** Catching up from a later state of the exchange. *)
Lemma caught_up_via p L L1 F F1 L' F' :
  alike L L1 → (∀ i, snapshotIndex F1 < i → entry_at F1 i = entry_at F i) →
  caught_up p L1 F1 L' F' → caught_up p L F L' F'.
Proof.
  intros [Hl Hs _ _ _ _ _] Hent (H1 & H2 & H3 & H4 & H5).
  assert (∀ i, entry_at L1 i = entry_at L i) as HL by (intros i; unfold entry_at; by rewrite Hl, Hs).
  rewrite Hl, Hs in *. split_and!; [done|done|done|done|].
  intros Hm i x y Hi Hx Hy. rewrite <- HL in Hx. eapply H5; [|done|done|done].
  intros j a b Ha Hb Hab k a' b' Hk Ha' Hb'. rewrite HL in Ha, Ha'.
  apply log_at_Some in Hb as ?, Hb' as ?.
  rewrite Hent in Hb, Hb' by lia. eapply (Hm j a b); eauto.
Qed.

Lemma built_request_fits p L req :
  wf L → snapshotIndex L < nextFor p L ≤ snapshotIndex L + zlen (log L) + 1 →
  request_for p L (nextFor p L) req →
  req_fits req ∧ AppendEntriesRequest.PrevLogIndex req + zlen (AppendEntriesRequest.Entries req)
                 = snapshotIndex L + zlen (log L).
Proof.
  intros [? ? ? ? _] Hn (_ & _ & Hp & _ & He & _). unfold req_fits.
  rewrite Hp, He, zlen_drop by lia. unfold nextFor in *. lia.
Qed.

(** The builder returned a request: it is the one for the next index. *)
Lemma built_request p L L' req :
  wf L → next_ok p L →
  appendEntriesRequestForPeer p L = Ret (L', (Some req, true)) →
  snapshotIndex L < nextFor p L ∧ request_for p L (nextFor p L) req.
Proof.
  intros HL Hok Hb. destruct (next_ok_range p L HL Hok) as [Hmax _].
  assert (role L = Leader ∧ map_get false p (replicateInFlight L) = false) as [Hr Hfl].
  { revert Hb. unfold appendEntriesRequestForPeer. destruct (role L); try done.
    by destruct (map_get false p (replicateInFlight L)). }
  pose proof (appendEntriesRequestForPeer_spec p L HL Hmax Hr Hfl) as Hspec. cbv zeta in Hspec.
  case_bool_decide as Hin; rewrite Hb in Hspec; [|done].
  destruct Hspec as (req' & [= _ <-] & Hreq). split; [apply Hin|done].
Qed.

(** A follower that acknowledged reaches the last index of the request. *)
Lemma acknowledged_covers req F F' :
  wf F → req_fits req → prev_matches req F →
  snapshotIndex F' = snapshotIndex F → log F' = merged req F →
  AppendEntriesRequest.PrevLogIndex req + zlen (AppendEntriesRequest.Entries req)
    ≤ Z.max (snapshotIndex F') (lastLogIndex F').
Proof.
  intros [? ? ? ? _] [? ?] [? _] Hsi Hl. unfold lastLogIndex. rewrite Hsi, Hl.
  destruct (merge_length (snapshotIndex F) (AppendEntriesRequest.PrevLogIndex req + 1)
    (AppendEntriesRequest.Entries req) (log F)) as [Hlen Hle]; try lia.
  fold (merged req F) in Hlen, Hle. pose proof (zlen_nonneg (merged req F)).
  assert (snapshotIndex F + zlen (merged req F) < max_int64) by (destruct Hlen as [->|]; lia).
  i64_norm. lia.
Qed.

(** An exchange the follower accepts. *)
Lemma catchUp_accept fuel now p L F req :
  leads p L → ready L F → snapshotIndex L < nextFor p L →
  replicatePeer p L = Ret (L <| replicateInFlight := <[p := true]> (replicateInFlight L) |>,
                           SendEntries req) →
  request_for p L (nextFor p L) req → prev_matches req F →
  ∃ L' F', catchUp (Datatypes.S fuel) now p L F = Ret (L', F', true) ∧ caught_up p L F L' F'.
Proof.
  intros [Hwf Hb Hr Hok Hfl] [HF HbF Hd Ht] Hn Hrep Hreq Hpm.
  destruct (next_ok_range p L Hwf Hok) as [Hmax Hnx].
  destruct (built_request_fits p L req Hwf (conj Hn Hnx) Hreq) as [Hfit Hm].
  pose proof Hreq as (Hterm & _).
  destruct (HandleAppendEntries_post now req F HF Hfit) as (F' & r & Hop & Hpost).
  destruct (HandleAppendEntries_reliable now req F F' r Hd Hop) as [resp ->].
  assert (AppendEntriesResponse.Success resp = true ∧
          AppendEntriesResponse.Term resp = currentTerm L) as [Hs Hrt].
  { inversion Hpost; subst; simpl in *.
    - lia.
    - match goal with Hc : conflict _ _ _ _ |- _ =>
        destruct Hc as [?|? ?|? ? He ? ? ? ?] end; destruct Hpm as (? & Hpm1 & Hpm2); [lia|naive_solver|].
      exfalso. destruct Hpm1 as (y & Hy & ?); [lia|congruence].
    - match goal with Hv : Val _ = _ ∨ _ |- _ => destruct Hv as [[= ->]|[[? [=]] _]] end. done. }
  set (L1 := L <| replicateInFlight := _ |>) in *.
  assert (wf L1) as Hwf1 by (apply (wf_same L); [done|node_eq..]).
  destruct (sendAppendEntries_accept now p req resp L1 Hwf1 Hr Hterm) as (L' & HL' & Hal & Hmi);
    [simpl; lia|done|done|].
  exists L', F'. split.
  { cbn [catchUp]. rewrite Hrep. cbn [mbind outcome_bind]. rewrite Hop.
    cbn [mbind outcome_bind rpc_of]. rewrite HL'. cbn [mbind outcome_bind]. by rewrite Hs. }
  destruct (append_post_success _ _ _ _ Hpost Hs) as (_ & _ & _ & _ & HsF & HlF & _).
  destruct Hal as [Hl Hsn _ _ _ _ _].
  unfold caught_up. split_and!; [lia|done|done| |].
  - rewrite HsF, HlF. destruct HF as [? ? ? ? _]. destruct Hpm as [? _].
    destruct (merge_length (snapshotIndex F) (AppendEntriesRequest.PrevLogIndex req + 1)
      (AppendEntriesRequest.Entries req) (log F)) as [_ Hle]; try lia.
    fold (merged req F) in Hle. pose proof (zlen_nonneg (merged req F)). lia.
  - intros Hlm. rewrite <- Hm. eapply received_agree; eauto. by apply merged_received.
Qed.

(** An exchange the follower rejects. *)
Lemma rejected now p L F req F' r :
  leads p L → ready L F → snapshotIndex L < nextFor p L →
  request_for p L (nextFor p L) req → ¬ prev_matches req F →
  HandleAppendEntries now req F = Ret (F', r) →
  let L1 := L <| replicateInFlight := <[p := true]> (replicateInFlight L) |> in
  ∃ resp L', r = Val resp ∧ AppendEntriesResponse.Success resp = false ∧
    sendAppendEntries now p req (RpcOk resp) L1 = Ret L' ∧
    leads p L' ∧ ready L' F' ∧ alike L L' ∧ nextFor p L' < nextFor p L ∧
    log F' = log F ∧ snapshotIndex F' = snapshotIndex F.
Proof.
  intros [Hwf Hb Hr Hok Hfl] [HF HbF Hd Ht] Hn Hreq Hpm Hop L1.
  destruct (next_ok_range p L Hwf Hok) as [Hmax Hnx].
  destruct (built_request_fits p L req Hwf (conj Hn Hnx) Hreq) as [Hfit Hm].
  pose proof Hreq as (Hterm & _ & Hprev & _ & _ & Hpt & _).
  pose proof (wf_snap _ Hwf). pose proof (wf_snap _ HF). pose proof (zlen_nonneg (log F)).
  assert (1 < nextFor p L) as Hgt.
  { destruct (decide (1 < nextFor p L)) as [?|Hle]; [done|]. destruct Hpm.
    assert (nextFor p L = 1 ∧ snapshotIndex L = 0) as [E1 E2] by (unfold nextFor in *; lia).
    unfold prev_matches. rewrite Hprev, E1. split_and!; [lia|lia|].
    intros E. rewrite Hpt by lia. rewrite (Hb E2), (HbF (eq_sym E)). done. }
  assert (map_get 0 p (nextIndex L) = nextFor p L) as Enx by (unfold nextFor in *; lia).
  destruct (HandleAppendEntries_post now req F HF Hfit) as (? & ? & E & Hpost).
  rewrite Hop in E. injection E as <- <-.
  destruct (HandleAppendEntries_reliable now req F F' r Hd Hop) as [resp ->].
  inversion Hpost; subst; try (done || lia).
  set (resp := AppendEntriesResponse.mk _ _ _ _) in *.
  destruct (conflictNext_pos resp (nextFor p L) L1 Hgt) as [Hback _].
  { unfold in_i64. lia. }
  destruct (sendAppendEntries_reject now p req resp L1) as (L' & HL' & [Hl Hs Hst Hsn Hla Hro Hcu]
    & Hci & Hni & Hif); [done|done|simpl; lia|done|].
  change (nextIndex L1) with (nextIndex L) in Hni. rewrite Enx in Hni.
  assert (nextFor p L' = backoffNext resp (nextFor p L) L1) as Hnew
    by (unfold nextFor at 1; rewrite Hni, map_get_insert; lia).
  exists resp, L'. split_and!; [done|done|done| | |by split|lia|done|done].
  - split; [by apply (wf_same L)|unfold base_ok; by rewrite Hs, Hst|by rewrite Hro| |done].
    unfold next_ok. rewrite Hni, map_get_insert, Hl, Hs. simpl. lia.
  - split; [apply (wf_same F); [done|node_eq..]|done|done|]. rewrite Hcu. simpl. lia.
Qed.

(** A snapshot sent to a peer behind the leader's snapshot. *)
Lemma snapshot_sent p L F req F' r :
  leads p L → ready L F → nextFor p L ≤ snapshotIndex L →
  InstallSnapshotRequest.Term req = currentTerm L →
  InstallSnapshotRequest.LastIncludedIndex req = snapshotIndex L →
  InstallSnapshotRequest.LastIncludedTerm req = snapshotTerm L →
  HandleInstallSnapshot req F = Ret (F', r) →
  let L1 := L <| replicateInFlight := <[p := true]> (replicateInFlight L) |> in
  ∃ resp, r = Val resp ∧
    let L' := sendInstallSnapshot p req (RpcOk resp) L1 in
    leads p L' ∧ ready L' F' ∧ alike L L' ∧ nextFor p L' = snapshotIndex L + 1 ∧
    snapshotIndex L ≤ snapshotIndex F' ∧
    (snapshotIndex L = snapshotIndex F' → snapshotTerm L = snapshotTerm F') ∧
    (∀ i, snapshotIndex F' < i → entry_at F' i = entry_at F i).
Proof.
  intros [Hwf Hb Hr Hok Hfl] [HF HbF Hd Ht] Hn Hterm Hidx Hst Hop L1.
  destruct (next_ok_range p L Hwf Hok) as [Hmax Hnx].
  pose proof Hwf as [Hs ? ? Hroom _]. pose proof (zlen_nonneg (log L)).
  destruct (HandleInstallSnapshot_reliable req F F' r Hd Hop) as [resp ->].
  destruct (HandleInstallSnapshot_facts req F HF) as (? & ? & E & HwfF & _ & _ & _ & Hent & _);
    [lia|]. rewrite Hop in E. injection E as <- <-.
  destruct (HandleInstallSnapshot_post req F HF) as (? & ? & E & Hpost); [lia|].
  rewrite Hop in E. injection E as <- <-.
  assert (InstallSnapshotResponse.Term resp = currentTerm L ∧ degraded F' = false ∧
    currentTerm F' = currentTerm L ∧ snapshotIndex L ≤ snapshotIndex F' ∧
    (snapshotIndex L = snapshotIndex F' → snapshotTerm L = snapshotTerm F'))
    as (Hrt & HdF & HcF & HsF & HtF).
  { inversion Hpost as [|? ?|? ? ? ? Hl Hc Hsi Hsti Hsn Hla _ Hct|v st ? ? Hhas|v st m ? ? Hno Happ];
      subst; try lia; simpl in *.
    - unfold has_snapshot in Hhas. split_and!; [done|done|done|lia|].
      intros ?. destruct Hhas as [?|[? ?]]; [lia|congruence].
    - pose proof (sa_index _ _ _ Happ) as Hi. pose proof (sa_term _ _ _ Happ) as Hit.
      pose proof (sa_current _ _ _ Happ) as Hcu. simpl in *.
      split_and!; [done| |congruence|lia|congruence].
      by rewrite (sa_degraded _ _ _ Happ). }
  exists resp. split; [done|].
  destruct (sendInstallSnapshot_ok p req resp L1) as ([Hl Hsi Hsti Hsn Hla Hro Hcu] & Hci & Hif & Hni);
    [done|done|simpl; lia|lia|].
  simpl in Hl, Hsi, Hsti, Hsn, Hla, Hro, Hcu, Hci, Hni.
  assert (nextFor p (sendInstallSnapshot p req (RpcOk resp) L1) = snapshotIndex L + 1) as Hnew
    by (unfold nextFor in *; rewrite Hni; lia).
  split_and!; [| |by split|done|done|done|done].
  - split; [by apply (wf_same L)|unfold base_ok; by rewrite Hsi, Hsti|by rewrite Hro| |done].
    unfold next_ok. rewrite Hni, Hl, Hsi. unfold nextFor in *. lia.
  - split; [done| |done|rewrite Hcu; simpl; lia].
    intros E0. rewrite <- HtF by lia. apply Hb. lia.
Qed.

(** The exchange ends, by induction on the next index. *)
Lemma catchUp_spec fuel now p L F :
  leads p L → ready L F → nextFor p L < Z.of_nat fuel →
  ∃ L' F', catchUp fuel now p L F = Ret (L', F', true) ∧ caught_up p L F L' F'.
Proof.
  revert L F. induction fuel as [|fuel IH]; intros L F HL HF Hfuel;
    [unfold nextFor in Hfuel; lia|].
  pose proof HL as [Hwf Hb Hr Hok Hfl]. pose proof HF as [HwfF HbF Hd Ht].
  pose proof (replicatePeer_send p L Hwf Hok Hr Hfl) as Hrep. cbv zeta in Hrep.
  destruct (next_ok_range p L Hwf Hok) as [Hmax Hnx].
  case_bool_decide as Hn; destruct Hrep as (req & Hrep & Hreq).
  - destruct (built_request_fits p L req Hwf (conj Hn Hnx) Hreq) as [Hfit _].
    destruct (prev_matches_dec req F HwfF Hfit) as [Hpm|Hpm]; [by eapply catchUp_accept|].
    destruct (HandleAppendEntries_post now req F HwfF Hfit) as (F1 & r & Hop & _).
    destruct (rejected now p L F req F1 r HL HF Hn Hreq Hpm Hop)
      as (resp & L1 & -> & Hs & Hsend & HL1 & HF1 & Hal & Hlt & HlF & HsF).
    destruct (IH L1 F1 HL1 HF1) as (L' & F' & Hrun & Hcu); [lia|].
    exists L', F'. split.
    { cbn [catchUp]. rewrite Hrep. cbn [mbind outcome_bind]. rewrite Hop.
      cbn [mbind outcome_bind rpc_of]. rewrite Hsend. cbn [mbind outcome_bind]. by rewrite Hs. }
    apply (caught_up_via p L L1 F F1); [done| |done]. intros i _. unfold entry_at. by rewrite HlF, HsF.
  - destruct Hreq as (Hterm & Hidx & Hst).
    destruct (HandleInstallSnapshot_facts req F HwfF) as (F1 & r & Hop & _).
    { destruct Hwf as [? ? ? ? _]. pose proof (zlen_nonneg (log L)). lia. }
    destruct (snapshot_sent p L F req F1 r HL HF ltac:(lia) Hterm Hidx Hst Hop)
      as (resp & -> & HL1 & HF1 & Hal & Hnew & HsF & HtF & Hent).
    destruct fuel as [|fuel]; [unfold nextFor in Hfuel; lia|].
    set (L1 := sendInstallSnapshot p req (RpcOk resp) _) in *.
    pose proof HL1 as [Hwf1 _ Hr1 Hok1 Hfl1]. pose proof Hal as [_ Hs1 Ht1 _ _ _ _].
    pose proof (replicatePeer_send p L1 Hwf1 Hok1 Hr1 Hfl1) as Hrep1. cbv zeta in Hrep1.
    rewrite bool_decide_eq_true_2 in Hrep1 by lia. destruct Hrep1 as (req1 & Hrep1 & Hreq1).
    pose proof Hreq1 as (_ & _ & Hp1 & _ & _ & Hpt1 & _).
    destruct (catchUp_accept fuel now p L1 F1 req1) as (L' & F' & Hrun & Hcu); try done; [lia| |].
    { unfold prev_matches. rewrite Hp1, Hnew. pose proof (zlen_nonneg (log F1)).
      split_and!; [lia|lia|]. intros E. rewrite Hpt1 by lia. rewrite Ht1. apply HtF. lia. }
    exists L', F'. split.
    { cbn [catchUp]. rewrite Hrep. cbn [mbind outcome_bind]. rewrite Hop.
      cbn [mbind outcome_bind rpc_of]. exact Hrun. }
    by apply (caught_up_via p L L1 F F1).
Qed.

End catch_up.

(** C20. Replication converges: a leader whose next index for a peer is [k]
    needs at most [k + 1] exchanges, snapshots included, until the peer
    acknowledges, however the two logs differ.  The leader has then recorded a
    match index at least its last index and kept its own log, the follower's
    log reaches that far, and if the logs matched in Raft's sense before they
    now agree up to it. *)
Theorem replication_converges {S} {HS : Storage S} {HR : ReliableStorage S}
    fuel now p (L F : Node S) :
  leads p L → ready L F → nextFor p L < Z.of_nat fuel →
  ∃ L' F', catchUp fuel now p L F = Ret (L', F', true) ∧ caught_up p L F L' F'.
Proof. apply catchUp_spec. Qed.

(** C12. What one AppendEntries exchange establishes, and that the leader
    records exactly that.  Leader [L] (well formed, its next index for [p] at
    most one past its log) builds a request, the well-formed follower [F], whose
    log matches [L]'s in Raft's sense, acknowledges it, and the response reaches
    the leader in a later state [L1] of the same term.  The leader then raises
    [matchIndex[p]] to the last index [m] of the log the request was built from,
    [nextIndex[p]] to [m + 1], neither ever going down, and no other peer's;
    the follower holds every index up to [m] (or its snapshot covers it), and
    up to [m] the two logs have the same entries. *)
Theorem replication_agreement {S} {HS : Storage S}
    now now' p (L L' L1 F F' : Node S) req resp :
  wf L → wf F → next_ok p L → log_match L F →
  appendEntriesRequestForPeer p L = Ret (L', (Some req, true)) →
  HandleAppendEntries now req F = Ret (F', Val resp) →
  AppendEntriesResponse.Success resp = true →
  wf L1 → role L1 = Leader → currentTerm L1 = currentTerm L →
  let m := snapshotIndex L + zlen (log L) in
  m ≤ Z.max (snapshotIndex F') (lastLogIndex F') ∧ agree_upto m L F' ∧
  ∃ L2, onAppendResponse now' p req resp L1 = Ret L2 ∧ log L2 = log L1 ∧
    map_get 0 p (matchIndex L2) = Z.max m (map_get 0 p (matchIndex L1)) ∧
    map_get 0 p (nextIndex L2) = Z.max (m + 1) (map_get 0 p (nextIndex L1)) ∧
    ∀ q, q ≠ p →
      map_get 0 q (matchIndex L2) = map_get 0 q (matchIndex L1) ∧
      map_get 0 q (nextIndex L2) = map_get 0 q (nextIndex L1).
Proof.
  intros HL HF Hok Hm Hb Hop Hs HL1 Hr1 Ht1 m.
  destruct (next_ok_range p L HL Hok) as [Hmax Hnx].
  destruct (built_request p L L' req HL Hok Hb) as (Hn & Hreq).
  destruct (built_request_fits p L req HL (conj Hn Hnx) Hreq) as [Hfit Em]. fold m in Em.
  pose proof Hreq as (Ht & _).
  destruct (HandleAppendEntries_post now req F HF Hfit) as (? & ? & E & Hp).
  rewrite Hop in E. injection E as <- <-.
  destruct (append_post_success _ _ _ _ Hp Hs) as (Hpm & _ & _ & _ & Hsi & Hl & _ & _).
  split_and!.
  - rewrite <- Em. by apply (acknowledged_covers req F F').
  - rewrite <- Em. eapply received_agree; eauto. by apply merged_received.
  - destruct (onAppendResponse_accept now' p req resp L1) as (L2 & Hr & [Hl2] & Hacc);
      [done|done|congruence|rewrite (success_term _ _ _ _ Hp Hs); lia|done|done|].
    exists L2. cbv zeta in Hacc. rewrite Em in Hacc. by split_and!; try apply Hacc.
Qed.

(** The leader of [Demo], one index too far, and the conflicting follower. *)
Lemma replication_converges_witness :
  ∃ L' F', catchUp 4 0 "b" (Demo.leader 3) Demo.follower = Ret (L', F', true) ∧
    caught_up "b" (Demo.leader 3) Demo.follower L' F'.
Proof.
  apply (replication_converges 4 0 "b" (Demo.leader 3) Demo.follower).
  - split; [apply Demo.leader_wf|done|done|by vm_compute|by vm_compute].
  - split; [apply Demo.follower_wf|done|done|by vm_compute].
  - by vm_compute.
Defined.

Lemma replication_agreement_witness :
  ∃ F' resp L2, HandleAppendEntries 0 (Demo.request 2) Demo.follower = Ret (F', Val resp) ∧
    agree_upto 3 (Demo.leader 2) F' ∧
    onAppendResponse 0 "b" (Demo.request 2) resp (Demo.leader 2) = Ret L2 ∧
    map_get 0 "b" (matchIndex L2) = 3.
Proof.
  destruct (Demo.succeeded_inv _ _ Demo.success_2) as (n' & resp & E & Hs).
  destruct (replication_agreement 0 0 "b" (Demo.leader 2)
    (Demo.leader 2 <| replicateInFlight := {["b" := true]} |>) (Demo.leader 2)
    Demo.follower n' (Demo.request 2) resp (Demo.leader_wf 2) Demo.follower_wf)
    as (_ & H1 & L2 & H2 & _ & H3 & _);
    [by vm_compute|apply Demo.matching|vm_compute; reflexivity|exact E|exact Hs
    |apply Demo.leader_wf|done|done|].
  exists n', resp, L2. split_and!; [exact E|exact H1|exact H2|exact H3].
Defined.
