(* ===== verification/ApplyLoop.v ===== *)
(** * ApplyLoop: delivering committed entries and snapshots

    [runApplyLoop] of [apply.go] as a step machine: [apply_pc] is where the
    goroutine is between two locked sections, and [applyStep] runs it to the
    next such point.  Other goroutines run between two steps.  A send on
    [applyCh] is the message a step returns; [Cancel] is the [ctx.Done()]
    branch of the three selects. *)

From S2P Require Import Prelude Types Storage Timing Node Handlers.
Open Scope Z_scope.

Inductive apply_pc : Type :=
  | AwaitNotify                               (* the select of lines 21-25 *)
  | CheckPending                              (* line 30 *)
  | SendingSnapshot (snap : Snapshot)         (* the select of lines 53-64 *)
  | SentSnapshot (snap : Snapshot)            (* line 68 *)
  | CheckEntry                                (* line 81 *)
  | SendingEntry (index : Z) (e : LogEntry)   (* the select of lines 112-129 *)
  | SentEntry                                 (* line 123 *)
  | Stopped.

Inductive apply_event : Type := Proceed | Cancel.

Section apply.
Context {S : Type} `{Storage S}.
Implicit Types n : Node S.

(** Lines 72-75 and 124-127, after a message was sent. *)
Definition noteApplied (now : Z) n : Node S :=
  let '(_, commitSeen, startSeen) :=
    observeCommitToApply (lastApplied n) now (commitSeenAt n) (startSeenAt n) in
  n <| lastAppliedAt := now |> <| commitSeenAt := commitSeen |>
    <| startSeenAt := startSeen |>.

(** Lines 81-96: the next entry to apply, if any. *)
Definition takeEntry n : outcome (apply_pc * Node S) :=
  if commitIndex n <=? lastApplied n then Ret (AwaitNotify, n) else
  let next := lastApplied n +! 1 in
  if lastLogIndex n <? next then Ret (AwaitNotify, n) else
  e ← entryAt next n;
  Ret (SendingEntry next e, n <| lastApplied := next |>).

Definition applyStep (ev : apply_event) (now : Z) (pc : apply_pc) n
    : outcome (apply_pc * Node S * option ApplyMsg) :=
  match pc, ev with
  | AwaitNotify, Cancel | SendingSnapshot _, Cancel | SendingEntry _ _, Cancel =>
      Ret (Stopped, n, None)
  | AwaitNotify, Proceed =>
      if applyNotifyCh n then Ret (CheckPending, n <| applyNotifyCh := false |>, None)
      else Ret (AwaitNotify, n, None)
  | CheckPending, _ =>
      match pendingSnapshot n with
      | None => Ret (CheckEntry, n, None)
      | Some snap => Ret (SendingSnapshot snap, n <| pendingSnapshot := None |>, None)
      end
  | SendingSnapshot snap, Proceed =>
      Ret (SentSnapshot snap, n,
           Some (ApplyMsg.of_snapshot ([] ++ Snapshot.Data snap)
                   (Snapshot.LastIncludedIndex snap)))
  | SentSnapshot snap, _ =>
      let n := if lastApplied n <? Snapshot.LastIncludedIndex snap
               then n <| lastApplied := Snapshot.LastIncludedIndex snap |> else n in
      Ret (CheckPending, noteApplied now n, None)
  | CheckEntry, _ => '(pc, n) ← takeEntry n; Ret (pc, n, None)
  | SendingEntry index e, Proceed =>
      Ret (SentEntry, n,
           Some (ApplyMsg.of_command ([] ++ LogEntry.Command e) index))
  | SentEntry, _ => Ret (CheckEntry, noteApplied now n, None)
  | Stopped, _ => Ret (Stopped, n, None)
  end.

(** [applyRun fuel]: the loop running alone for [fuel] steps, with the
    messages it sends. *)
Fixpoint applyRun (fuel : nat) (now : Z) (pc : apply_pc) n
    : outcome (apply_pc * Node S * list ApplyMsg) :=
  match fuel with
  | O => Ret (pc, n, [])
  | Datatypes.S fuel =>
      '(pc, n, msg) ← applyStep Proceed now pc n;
      '(pc, n, msgs) ← applyRun fuel now pc n;
      Ret (pc, n, option_list msg ++ msgs)
  end.

(** ** What a step changes *)

Lemma noteApplied_frame now n :
  ∃ cs ss, noteApplied now n =
    n <| lastAppliedAt := now |> <| commitSeenAt := cs |> <| startSeenAt := ss |>.
Proof.
  unfold noteApplied.
  destruct (observeCommitToApply _ _ _ _) as [[o cs] ss]. by exists cs, ss.
Qed.

Lemma takeEntry_frame n pc n' :
  takeEntry n = Ret (pc, n') →
  n' = n ∧ pc = AwaitNotify ∨
  ∃ e, n' = n <| lastApplied := lastApplied n +! 1 |> ∧
       pc = SendingEntry (lastApplied n +! 1) e ∧ entryAt (lastApplied n +! 1) n = Ret e ∧
       lastApplied n < commitIndex n.
Proof.
  unfold takeEntry. destruct (Z.leb_spec (commitIndex n) (lastApplied n));
    [intros [= <- <-]; auto|]. cbv zeta.
  case_match; [intros [= <- <-]; auto|].
  destruct (entryAt _ n) as [e|]; [|done]. cbn [mbind outcome_bind]. intros [= <- <-].
  right. by exists e.
Qed.

End apply.
