(* ===== verification/Recovery.v ===== *)
(** * Recovery: what a restart finds on disk

    [synced] says that the storage holds the node's term, vote, log and
    snapshot.  Over a storage whose writes succeed every locked section of a
    node keeps it, and [NewNode] on such a storage rebuilds the node.
    [recorded] is the weaker relation a crash in the middle of a compaction
    leaves (the new snapshot saved, the log not yet cut); [NewNode] rebuilds
    the node from it as well. *)

From S2P Require Import Prelude Types Storage Timing Node Handlers Replication.
From S2P Require Import LogSpec AppendSpec AppendProtocol CommitSpec SnapshotSpec.
From S2P Require Import CatchUp ApplyLoop.
Open Scope Z_scope.

Section recovery.
Context {S : Type} {HS : Storage S} {HC : StorageContract S}.
Implicit Types (n m : Node S) (d : PersistentState).

(** What the node's storage holds. *)
Definition disk_of n : option PersistentState := contents <$> storage n.

(** The snapshot fields of a node agree with each other. *)
Definition snapshot_ok n : Prop :=
  match snapshot n with
  | None => snapshotIndex n = 0 ∧ snapshotTerm n = 0
  | Some sn => Snapshot.LastIncludedIndex sn = snapshotIndex n ∧
               Snapshot.LastIncludedTerm sn = snapshotTerm n
  end.

(** The log part of the disk, and the whole of it. *)
Definition log_synced d n : Prop :=
  PersistentState.LogBase d = snapshotIndex n ∧ PersistentState.Log d = log n ∧
  PersistentState.Snap d = snapshot n.
Definition hard_synced d n : Prop :=
  HardState.CurrentTerm (PersistentState.Hard d) = currentTerm n ∧
  HardState.VotedFor (PersistentState.Hard d) = votedFor n.
Definition synced n : Prop :=
  ∃ d, disk_of n = Some d ∧ log_synced d n ∧ hard_synced d n.

(** The disk determines the node's term, vote, snapshot and log, possibly
    with entries below the snapshot that compaction has not removed. *)
Definition recorded d n : Prop :=
  hard_synced d n ∧ PersistentState.Snap d = snapshot n ∧ snapshot_ok n ∧
  0 ≤ PersistentState.LogBase d ≤ snapshotIndex n ∧
  log n = drop (Z.to_nat (snapshotIndex n - PersistentState.LogBase d)) (PersistentState.Log d).

Lemma synced_recorded d n :
  0 ≤ snapshotIndex n → snapshot_ok n → log_synced d n → hard_synced d n → recorded d n.
Proof.
  intros Hs Hok (Hb & Hl & Hsn) Hh. unfold recorded. rewrite Hb, Hl.
  split_and!; try done; try lia. by rewrite Z.sub_diag.
Qed.

(** ** NewNode *)

(** The commit index a restart begins with. *)
Definition recovered_commit d n : Z :=
  match snapshot n with
  | Some _ => snapshotIndex n
  | None => Z.min (Z.max (HardState.CommitIndex (PersistentState.Hard d)) (snapshotIndex n))
                  (snapshotIndex n + zlen (log n))
  end.

Lemma restore_log_recorded d n m :
  wf n → recorded d n → snapshotIndex m = snapshotIndex n →
  restore_log d m = Ret (m <| log := log n |>).
Proof.
  intros [Hs ? ? Hr _] (_ & _ & _ & Hb & Hl) Hm. unfold restore_log, stale_count. rewrite Hm.
  i64_norm. pose proof (zlen_nonneg (PersistentState.Log d)).
  destruct (Z.ltb_spec (snapshotIndex n - PersistentState.LogBase d) 0); [lia|].
  destruct (Z.ltb_spec (zlen (PersistentState.Log d)) (snapshotIndex n - PersistentState.LogBase d)).
  - rewrite slice_from_Ret by lia. simpl. rewrite cloneLogEntries_id, Hl.
    unfold zlen in *. rewrite !drop_ge by lia. done.
  - rewrite slice_from_Ret by lia. simpl. by rewrite cloneLogEntries_id, Hl.
Qed.

(** The fields [restore_snapshot] sets. *)
Lemma restore_snapshot_recorded d n (m : Node S) :
  recorded d n → snapshotIndex m = 0 → snapshotTerm m = 0 → snapshot m = None →
  lastApplied m = 0 →
  let r := restore_snapshot d m in
  snapshotIndex r = snapshotIndex n ∧ snapshotTerm r = snapshotTerm n ∧
  snapshot r = snapshot n ∧ lastApplied r = snapshotIndex n ∧
  pendingSnapshot r = match snapshot n with Some sn => Some sn | None => pendingSnapshot m end ∧
  commitIndex r = match snapshot n with Some _ => snapshotIndex n | None => commitIndex m end ∧
  currentTerm r = currentTerm m ∧ votedFor r = votedFor m ∧ role r = role m ∧
  degraded r = degraded m ∧ storage r = storage m ∧ id r = id m.
Proof.
  intros (_ & Hsn & Hok & _) H1 H2 H3 H4. unfold restore_snapshot. rewrite Hsn.
  unfold snapshot_ok in Hok. destruct (snapshot n) as [sn|] eqn:E.
  - destruct Hok as [Hi Ht]. case_bool_decide; simpl; rewrite ?Hi, ?Ht; by split_and!.
  - destruct Hok as [-> ->]. cbv zeta. by split_and!.
Qed.

Lemma clamp_commit_spec (m : Node S) c :
  0 ≤ snapshotIndex m → snapshotIndex m + zlen (log m) < max_int64 →
  c = Z.min (Z.max (commitIndex m) (snapshotIndex m)) (snapshotIndex m + zlen (log m)) →
  clamp_commit m = m <| commitIndex := c |>.
Proof.
  intros Hs Hr ->. pose proof (zlen_nonneg (log m)). unfold clamp_commit.
  destruct (Z.ltb_spec (commitIndex m) (snapshotIndex m)).
  - change (lastLogIndex (m <| commitIndex := snapshotIndex m |>)) with (lastLogIndex m).
    rewrite lastLogIndex_eq by done. simpl. destruct (Z.ltb_spec (snapshotIndex m + zlen (log m)) (snapshotIndex m)); [lia|].
    f_equal. rewrite Z.max_r, Z.min_l by lia. done.
  - rewrite lastLogIndex_eq by done.
    destruct (Z.ltb_spec (snapshotIndex m + zlen (log m)) (commitIndex m)).
    + rewrite Z.max_l, Z.min_r by lia. done.
    + rewrite Z.max_l, Z.min_l by lia. by destruct m.
Qed.

Lemma NewNode_recorded i ps s n :
  wf n → recorded (contents s) n →
  ∃ n', NewNode i ps (Some s) true = Ret (Val n') ∧
    currentTerm n' = currentTerm n ∧ votedFor n' = votedFor n ∧ log n' = log n ∧
    snapshotIndex n' = snapshotIndex n ∧ snapshotTerm n' = snapshotTerm n ∧
    snapshot n' = snapshot n ∧ lastApplied n' = snapshotIndex n ∧
    pendingSnapshot n' = snapshot n ∧ commitIndex n' = recovered_commit (contents s) n ∧
    role n' = Follower ∧ degraded n' = false ∧ storage n' = Some s ∧ id n' = i.
Proof.
  intros Hwf Hrec. pose proof Hrec as ([Ht Hv] & _). unfold NewNode. simpl.
  rewrite contract_load. cbv zeta.
  match goal with |- context [restore_snapshot _ ?m] =>
    destruct (restore_snapshot_recorded (contents s) n m Hrec) as
      (Hi & Hst & Hsn & Hla & Hp & Hc & Hcu & Hvo & Hro & Hd & Hsto & Hid) end;
    [unfold restore_config; by case_match..|].
  set (m := restore_snapshot _ _) in *.
  rewrite (restore_log_recorded _ n m) by done. cbn [mbind outcome_bind].
  pose proof Hwf as [Hs ? ? Hr _]. pose proof (zlen_nonneg (log n)).
  rewrite (clamp_commit_spec _ (recovered_commit (contents s) n)).
  - eexists; split; [done|]. unfold set_field; simpl.
    rewrite Hi, Hst, Hsn, Hla, Hp, Hcu, Hvo, Hro, Hd, Hsto, Hid.
    rewrite <- Ht, <- Hv. unfold restore_config.
    split_and!; try done; repeat (case_match; try done).
  - simpl. by rewrite Hi.
  - simpl. by rewrite Hi.
  - simpl. rewrite Hi, Hc. unfold recovered_commit. destruct (snapshot n); [lia|].
    f_equal. f_equal. unfold restore_config. by case_match.
Qed.

End recovery.

(** ** Every locked section keeps the storage in step *)

Section durable.
Context {S : Type} {HS : Storage S} {HC : StorageContract S} {HR : ReliableStorage S}.
Implicit Types (n m : Node S) (d : PersistentState).

(** A write of a reliable storage, on the abstract disk. *)
Lemma with_storage_disk op upd n n' e :
  writes contents op upd → (∀ s, (op s).2 = None) → with_storage op n = (n', e) →
  e = None ∧ ∃ st, n' = n <| storage := st |> ∧
    ∀ d, disk_of n = Some d → disk_of n' = Some (upd d).
Proof.
  intros Hw Hr E. split; [by eapply with_storage_reliable|].
  revert E. unfold with_storage, disk_of. destruct (storage n) as [s|] eqn:Es.
  - specialize (Hw s). specialize (Hr s). destruct (op s) as [s' e']. simpl in Hr. subst e'.
    intros [= <- <-]. exists (Some s'). split; [done|]. simpl. intros d [= <-]. by rewrite Hw.
  - intros [= <- <-]. exists None. split; [|done]. destruct n; simpl in *; by subst.
Qed.

(** The fields [synced] reads. *)
Record same_durable n m : Prop := {
  sd_log : log m = log n; sd_index : snapshotIndex m = snapshotIndex n;
  sd_snapshot : snapshot m = snapshot n; sd_term : currentTerm m = currentTerm n;
  sd_vote : votedFor m = votedFor n; sd_storage : storage m = storage n }.

Lemma synced_same n m : same_durable n m → synced n → synced m.
Proof.
  intros [Hl Hi Hs Ht Hv Hst] (d & Hd & (Hb & Hlog & Hsn) & (Hct & Hvo)). exists d.
  unfold disk_of, log_synced, hard_synced in *. rewrite Hst, Hl, Hi, Hs, Ht, Hv. by split_and!.
Qed.

(** Saving the hard state settles the term and the vote. *)
Lemma synced_persistHard d n n' e :
  disk_of n = Some d → log_synced d n → persistHardState n = (n', e) → e = None ∧ synced n'.
Proof.
  intros Hd Hlog E. unfold persistHardState in E.
  destruct (with_storage_disk _ _ _ _ _ (contract_save_hard _) (reliable_hard _) E)
    as (-> & st & -> & Hdisk). split; [done|].
  exists (Disk.save_hard (HardState.mk (currentTerm n) (votedFor n) (commitIndex n) (config n)) d).
  split; [by apply Hdisk|]. by split.
Qed.

(** The same, from a node that differs in its term, vote or commit index. *)
Lemma synced_persist_of n m n' e :
  synced n → log m = log n → snapshotIndex m = snapshotIndex n → snapshot m = snapshot n →
  storage m = storage n → persistHardState m = (n', e) → e = None ∧ synced n'.
Proof.
  intros (d & Hd & (Hb & Hl & Hs) & _) Hml Hmi Hms Hst E.
  apply (synced_persistHard d m n' e); [|split_and!; congruence|done].
  unfold disk_of in *. by rewrite Hst.
Qed.

(** [E] is the call that saved the hard state of an update of [n]. *)
Ltac persisted n Hs E Hm :=
  let K := fresh in
  pose proof (λ H1 H2 H3 H4, synced_persist_of n _ _ _ Hs H1 H2 H3 H4 E) as K;
  destruct (K eq_refl eq_refl eq_refl eq_refl) as [-> Hm]; clear K.

Lemma synced_grantVote req n n' r : synced n → grantVote req n = (n', r) → synced n'.
Proof.
  intros Hs. unfold grantVote. case_match; [|by intros [= <- _]].
  destruct (tracePersistHardState _) as [m err] eqn:E.
  persisted n Hs E Hm.
  intros [= <- _]. by apply (synced_same m).
Qed.

Lemma synced_HandleRequestVote req n n' r :
  synced n → HandleRequestVote req n = (n', r) → synced n'.
Proof.
  intros Hs. unfold HandleRequestVote. do 2 (case_match; [by intros [= <- _]|]).
  case_match; [|by apply synced_grantVote].
  destruct (tracePersistHardState _) as [m err] eqn:E.
  persisted n Hs E Hm.
  by apply synced_grantVote.
Qed.

Lemma synced_adoptTerm t n n' e : synced n → adoptTerm t n = (n', e) → synced n'.
Proof.
  intros Hs. unfold adoptTerm. case_match; [|by intros [= <- _]].
  destruct (tracePersistHardState _) as [m err] eqn:E.
  persisted n Hs E Hm.
  by intros [= <- _].
Qed.

(** Appending to the log and to the disk. *)
Lemma synced_append es n n' e :
  synced n → persistAppendLog es n = (n', e) →
  e = None ∧ synced (n' <| log := log n' ++ es |>) ∧ ∃ st, n' = n <| storage := st |>.
Proof.
  intros (d & Hd & (Hb & Hl & Hs) & Hh) E.
  destruct (with_storage_disk _ _ _ _ _ (contract_append _) (reliable_append _) E)
    as (-> & st & -> & Hdisk). split_and!; [done| |by eexists].
  exists (Disk.append_log es d). split; [by apply Hdisk|]. simpl. split; [|done].
  split_and!; [done|simpl; by rewrite Hl|done].
Qed.

Lemma synced_truncate b kept n n' e :
  synced n → slice_to (log n) b = Ret kept →
  with_storage (TruncateLog (if b <? 0 then 0 else b)) n = (n', e) →
  e = None ∧ synced (n' <| log := kept |>) ∧ ∃ st, n' = n <| storage := st |>.
Proof.
  intros (d & Hd & (Hb & Hl & Hs) & Hh) Hk E.
  unfold slice_to in Hk. destruct (Z.ltb_spec b 0); [done|]. simpl in Hk.
  destruct (Z.ltb_spec (zlen (log n)) b); [done|]. injection Hk as <-.
  destruct (with_storage_disk _ _ _ _ _ (contract_truncate _) (reliable_truncate _) E)
    as (-> & st & -> & Hdisk). split_and!; [done| |by eexists].
  exists (Disk.truncate_log b d). split; [by apply Hdisk|]. simpl. split; [|done].
  split_and!; [done|simpl; by rewrite Hl|done].
Qed.

Lemma synced_appendLoop prev i es n n' e :
  synced n → appendLoop prev i es n = Ret (n', e) → synced n'.
Proof.
  revert i n. induction es as [|x es IH]; intros i n Hs; cbn [appendLoop]; [by intros [= <- _]|].
  cbv zeta. case_match; [by apply IH|]. case_match.
  { destruct (tracePersistAppendLog _ _) as [m err] eqn:E.
    destruct (synced_append _ _ _ _ Hs E) as (-> & Hm & _). by intros [= <- _]. }
  destruct (entryAt _ n) as [y|]; [|done]. cbn [mbind outcome_bind]. case_match; [by apply IH|].
  destruct (tracePersistTruncateLog _ _) as [m err] eqn:E. unfold tracePersistTruncateLog,
    persistTruncateLog in E. cbv zeta in E.
  assert (err = None) as -> by (eapply with_storage_reliable; [|exact E]; apply reliable_truncate).
  destruct (with_storage_frame _ _ _ _ E) as [st Hm]. subst m.
  destruct (slice_to _ _) as [kept|] eqn:Hk; [|done]. cbn [mbind outcome_bind].
  destruct (synced_truncate _ kept n _ _ Hs Hk E) as (_ & Hm & _).
  destruct (tracePersistAppendLog _ _) as [m' err] eqn:E2.
  destruct (synced_append _ _ _ _ Hm E2) as (-> & Hm' & _). by intros [= <- _].
Qed.

Lemma synced_followCommit lc now n n' e :
  synced n → followCommit lc now n = (n', e) → synced n'.
Proof.
  intros Hs. unfold followCommit. case_match; [|by intros [= <- _]].
  destruct (tracePersistHardState _) as [m err] eqn:E.
  persisted n Hs E Hm.
  intros [= <- _]. by apply (synced_same m).
Qed.

Lemma synced_HandleAppendEntries now req n n' r :
  synced n → HandleAppendEntries now req n = Ret (n', r) → synced n'.
Proof.
  intros Hs. unfold HandleAppendEntries. do 2 (case_match; [by intros [= <- _]|]).
  destruct (adoptTerm _ n) as [n1 e1] eqn:E1. pose proof (synced_adoptTerm _ _ _ _ Hs E1) as H1.
  destruct e1; [by intros [= <- _]|]. cbv zeta.
  assert (synced (resetElectionTimeout (n1 <| role := Follower |>))) as H2
    by by apply (synced_same n1).
  destruct (checkPrev _ _) as [[[ct ci]|]|]; [by intros [= <- _]| |done].
  cbn [mbind outcome_bind].
  destruct (appendLoop _ _ _ _) as [[n2 e2]|] eqn:E2; [|done]. cbn [mbind outcome_bind].
  pose proof (synced_appendLoop _ _ _ _ _ _ H2 E2) as H3.
  destruct e2; [by intros [= <- _]|].
  destruct (followCommit _ _ _) as [n3 e3] eqn:E3.
  pose proof (synced_followCommit _ _ _ _ _ H3 E3) as H4. destruct e3; by intros [= <- _].
Qed.

(** The snapshot and the compacted log. *)
Lemma synced_compact d n :
  disk_of n = Some d → PersistentState.Snap d = snapshot n → hard_synced d n →
  synced (persistCompactLog n).1.
Proof.
  intros Hd Hs Hh. unfold persistCompactLog. destruct (with_storage _ n) as [n' e] eqn:E.
  destruct (with_storage_disk _ _ _ _ _ (contract_set_log _ _) (reliable_set_log _ _) E)
    as (-> & st & -> & Hdisk).
  exists (Disk.set_log (snapshotIndex n) (log n) d). split; [by apply Hdisk|]. by split.
Qed.

(** The disk after [SaveSnapshot] and before the log is cut. *)
Definition mid_install (snap : Snapshot) n : Prop :=
  ∃ d, disk_of n = Some d ∧ PersistentState.Snap d = Some snap ∧
       snapshot n = Some snap ∧ hard_synced d n.

Lemma mid_adoptConfig snap n : mid_install snap n → mid_install snap (adoptConfig snap n).
Proof.
  intros Hm. unfold adoptConfig. case_bool_decide; [done|].
  destruct Hm as (d & Hd & Hs & Hsn & Hh).
  set (n1 := n <| config := Snapshot.Config snap |>).
  assert (disk_of n1 = Some d ∧ snapshot n1 = Some snap) as [Hd1 Hs1] by done. clearbody n1.
  destruct (persistHardState n1) as [m e] eqn:E. unfold persistHardState in E.
  destruct (with_storage_disk _ _ _ _ _ (contract_save_hard _) (reliable_hard _) E)
    as (-> & st & -> & Hdisk).
  eexists. split; [exact (Hdisk d Hd1)|]. split; [exact Hs|]. split; [exact Hs1|]. by split.
Qed.

Lemma mid_same snap n m :
  mid_install snap n → snapshot m = snapshot n → currentTerm m = currentTerm n →
  votedFor m = votedFor n → storage m = storage n → mid_install snap m.
Proof.
  intros (d & Hd & Hs & Hsn & [Ht Hv]) H1 H2 H3 H4. exists d.
  unfold disk_of, hard_synced in *. rewrite H1, H2, H3, H4. by split_and!.
Qed.

Lemma synced_mid snap n : mid_install snap n → synced (persistCompactLog n).1.
Proof. intros (d & Hd & Hs & Hsn & Hh). apply (synced_compact d); congruence. Qed.

Lemma synced_applySnapshot snap n n' d :
  disk_of n = Some d → PersistentState.Snap d = Some snap → hard_synced d n →
  applySnapshot snap n = Ret n' → synced n'.
Proof.
  intros Hd Hsn Hh. unfold applySnapshot.
  destruct (retainedLog snap n) as [l|]; [|done]. cbn [mbind outcome_bind]. intros [= <-].
  apply (synced_mid snap).
  assert (mid_install snap (adoptConfig snap (coverCommit snap (setSnapshot snap l n)))) as Hm.
  { apply mid_adoptConfig. exists d. unfold coverCommit. case_match; by split_and!. }
  revert Hm. generalize (adoptConfig snap (coverCommit snap (setSnapshot snap l n))).
  intros m Hm. unfold markPending. case_match; [by apply (mid_same snap m)|done].
Qed.

Lemma synced_HandleInstallSnapshot req n n' r :
  synced n → HandleInstallSnapshot req n = Ret (n', r) → synced n'.
Proof.
  intros Hs. unfold HandleInstallSnapshot. do 2 (case_match; [by intros [= <- _]|]).
  destruct (adoptTerm _ n) as [n1 e1] eqn:E1. pose proof (synced_adoptTerm _ _ _ _ Hs E1) as H1.
  destruct e1; [by intros [= <- _]|]. cbv zeta.
  assert (synced (resetElectionTimeout (n1 <| role := Follower |>))) as H2
    by by apply (synced_same n1).
  do 2 (case_match; [by intros [= <- _]|]).
  destruct (tracePersistSnapshot _ _) as [n2 e2] eqn:E2.
  destruct (with_storage_disk _ _ _ _ _ (contract_save_snapshot _) (reliable_snapshot _) E2)
    as (-> & st & -> & Hdisk).
  destruct H2 as (d & Hd & _ & Hh).
  destruct (applySnapshot _ _) as [n3|] eqn:E3; [|done]. cbn [mbind outcome_bind].
  intros [= <- _]. apply (synced_same n3); [done|].
  eapply synced_applySnapshot; [by apply Hdisk|done|exact Hh|exact E3].
Qed.

Lemma synced_TakeSnapshot index data n n' e :
  synced n → TakeSnapshot index data n = Ret (n', e) → synced n'.
Proof.
  intros Hs. unfold TakeSnapshot. do 2 (case_match; [by intros [= <- _]|]).
  destruct (entryAt index n) as [x|]; [|done]. cbn [mbind outcome_bind].
  destruct (persistSnapshot _ n) as [n1 e1] eqn:E1.
  destruct (with_storage_disk _ _ _ _ _ (contract_save_snapshot _) (reliable_snapshot _) E1)
    as (-> & st & -> & Hdisk).
  destruct Hs as (d & Hd & _ & Hh). apply Hdisk in Hd. clear E1 Hdisk.
  assert (hard_synced (Disk.save_snapshot (Snapshot.mk index (LogEntry.Term x) (config n)
    ([] ++ data)) d) (n <| storage := st |>)) as Hh1 by exact Hh.
  revert Hd Hh1. generalize (n <| storage := st |>). intros m Hd Hh1.
  destruct (slice_from _ _) as [l|]; [|done]. cbn [mbind outcome_bind].
  match goal with |- Ret ((persistCompactLog ?a).1, _) = _ → _ =>
    pose proof (synced_compact _ a Hd eq_refl Hh1) as Hf; destruct (persistCompactLog a) end.
  by intros [= <- _].
Qed.

Lemma synced_advanceCommitIndex now n n' b :
  synced n → advanceCommitIndex now n = Ret (n', b) → synced n'.
Proof.
  intros Hs. unfold advanceCommitIndex.
  destruct (advanceLoop _ _ _) as [[c|]|]; [|by intros [= <- _]|done]. cbn [mbind outcome_bind].
  destruct (persistHardState _) as [m e] eqn:E.
  persisted n Hs E Hm.
  by intros [= <- _].
Qed.

Lemma synced_StartCommand now cmd n n' r :
  synced n → StartCommand now cmd n = Ret (n', r) → synced n'.
Proof.
  intros Hs. unfold StartCommand. case_match; [by intros [= <- _]|].
  destruct (persistAppendLog _ _) as [m err] eqn:E.
  assert (synced m ∧ err = None) as [Hm ->].
  { destruct Hs as (d & Hd & (Hb & Hl & Hsn) & Hh). unfold persistAppendLog in E.
    destruct (with_storage_disk _ _ _ _ _ (contract_append _) (reliable_append _) E)
      as (-> & st & -> & Hdisk). split; [|done]. eexists. split; [by apply Hdisk|]. split; [|exact Hh].
    split_and!; [done|simpl; by rewrite Hl|done]. }
  destruct (advanceCommitIndex _ _) as [[n2 b]|] eqn:E2; [|done]. cbn [mbind outcome_bind].
  intros [= <- _]. clear E. apply synced_advanceCommitIndex in E2; [|by apply (synced_same m)].
  destruct b; by apply (synced_same n2).
Qed.

Lemma synced_startCampaign n n' c : synced n → startCampaign n = (n', c) → synced n'.
Proof.
  intros Hs. unfold startCampaign. cbv zeta.
  destruct (tracePersistHardState _) as [m err] eqn:E. persisted n Hs E Hm.
  by intros [= <- _].
Qed.

Lemma synced_stepDown t n : synced n → synced (stepDown t n).
Proof.
  intros Hs. unfold stepDown. cbv zeta.
  destruct (tracePersistHardState _) as [m err] eqn:E. by persisted n Hs E Hm.
Qed.

Lemma becomeLeader_durable n : same_durable n (becomeLeader n).
Proof.
  unfold becomeLeader. set (n1 := _ <| matchIndex := _ |>).
  assert (same_durable n n1) as H1 by done. clearbody n1.
  induction (elements (peers n1)) as [|p l IH]; [done|]. simpl.
  destruct IH. by split.
Qed.

Lemma synced_onVoteResponse resp c n n' c' :
  synced n → onVoteResponse resp c n = (n', c') → synced n'.
Proof.
  intros Hs. unfold onVoteResponse. case_match.
  { cbv zeta. destruct (tracePersistHardState _) as [m err] eqn:E. persisted n Hs E Hm.
    by intros [= <- _]. }
  case_match; [by intros [= <- _]|]. cbv zeta.
  case_match; intros [= <- _]; [|done]. by eapply synced_same; [apply becomeLeader_durable|].
Qed.

Lemma synced_recordProgress p k n : synced n → synced (recordProgress p k n).
Proof. intros Hs. unfold recordProgress. cbv zeta. repeat case_match; by apply (synced_same n). Qed.

Lemma synced_finish p n : synced n → synced (finishRPC p n) ∧ synced (finishInstall p n).
Proof.
  intros Hs. unfold finishRPC, finishInstall. cbv zeta.
  split; case_match; by apply (synced_same n).
Qed.

Lemma synced_onAppendResponse now p req resp n n' :
  synced n → onAppendResponse now p req resp n = Ret n' → synced n'.
Proof.
  intros Hs. unfold onAppendResponse.
  case_match; [intros [= <-]; by apply synced_stepDown|].
  do 2 (case_match; [by intros [= <-]|]). cbv zeta.
  case_match; [intros [= <-]; by apply (synced_same n)|].
  destruct (advanceCommitIndex _ _) as [[n2 b]|] eqn:E2; [|done]. cbn [mbind outcome_bind].
  apply synced_advanceCommitIndex in E2; [|by apply synced_recordProgress].
  intros [= <-]. destruct b; case_match; by apply (synced_same n2).
Qed.

Lemma synced_onInstallResponse p req resp n :
  synced n → synced (onInstallResponse p req resp n).
Proof.
  intros Hs. unfold onInstallResponse. case_match; [by apply synced_stepDown|].
  case_match; [done|]. eapply synced_same; [|by apply synced_recordProgress]. by split.
Qed.

Lemma synced_requests p n n' r r' :
  synced n →
  (appendEntriesRequestForPeer p n = Ret (n', r) → synced n') ∧
  (installSnapshotRequestForPeer p n = Ret (n', r') → synced n').
Proof.
  intros Hs. split.
  - unfold appendEntriesRequestForPeer. case_match; [by intros [= <- _]|].
    case_match; [intros [= <- _]; by apply (synced_same n)|]. cbv zeta.
    set (n1 := _ <| replicateInFlight := _ |>).
    assert (synced n1) as H1 by by apply (synced_same n). clearbody n1.
    intros Hop. apply outcome_bind_Ret in Hop as (? & _ & Hop).
    apply outcome_bind_Ret in Hop as (? & _ & Hop). by injection Hop as <- _.
  - unfold installSnapshotRequestForPeer. case_match; [by intros [= <- _]|].
    case_match; [by intros [= <- _]|].
    case_match; [intros [= <- _]; by apply (synced_same n)|]. cbv zeta.
    case_match; [|done]. intros [= <- _]. by apply (synced_same n).
Qed.

Lemma synced_applyStep ev now pc n pc' n' msg :
  synced n → applyStep ev now pc n = Ret (pc', n', msg) → synced n'.
Proof.
  intros Hs. unfold applyStep.
  destruct pc; try (destruct ev; intros [= _ <- _]; done).
  - destruct ev; [|by intros [= _ <- _]].
    case_match; intros [= _ <- _]; [by apply (synced_same n)|done].
  - case_match; intros [= _ <- _]; [by apply (synced_same n)|done].
  - cbv zeta. match goal with |- context [noteApplied now ?a] =>
      assert (synced a) as H1 by (case_match; [by apply (synced_same n)|done]);
      revert H1; generalize a end.
    intros n1 H1. destruct (noteApplied_frame now n1) as (cs & ss & ->).
    intros [= _ <- _]. by apply (synced_same n1).
  - destruct (takeEntry n) as [[pc1 n1]|] eqn:E; [|done]. cbn [mbind outcome_bind].
    intros [= _ <- _]. apply takeEntry_frame in E as [[-> _]|(e & -> & _)]; [done|].
    by apply (synced_same n).
  - destruct (noteApplied_frame now n) as (cs & ss & ->). intros [= _ <- _].
    by apply (synced_same n).
Qed.

End durable.
