(* ===== verification/Replica.v ===== *)
(** * Replica: one replica, its handlers and its apply loop interleaved

    [handler] is one locked section of a node: an RPC handler, a client call,
    an election step, or one half of an outgoing RPC, with what its caller
    guarantees.  [machine] is a node with the program counter of its apply
    loop and the messages sent so far; a step is a handler or a step of the
    apply loop.  The invariant gives, for every interleaving: the node stays
    well formed, its storage in step, and the messages are the committed
    commands in order, without gaps or repetitions. *)

From S2P Require Import Prelude Types Storage Timing Node Handlers Replication.
From S2P Require Import LogSpec AppendSpec AppendProtocol CommitSpec SnapshotSpec.
From S2P Require Import CatchUp ApplyLoop Recovery.
Open Scope Z_scope.

Section handlers.
Context {S : Type} {HS : Storage S}.
Implicit Types (n m : Node S).

Inductive handler : Node S → Node S → Prop :=
  | h_vote req n n' r : HandleRequestVote req n = (n', r) → handler n n'
  | h_append now req n n' r :
      req_fits req → no_committed_conflict req n →
      HandleAppendEntries now req n = Ret (n', r) → handler n n'
  | h_install req n n' r :
      InstallSnapshotRequest.LastIncludedIndex req < max_int64 →
      HandleInstallSnapshot req n = Ret (n', r) → handler n n'
  | h_start now cmd n n' r :
      snapshotIndex n + zlen (log n) + 1 < max_int64 →
      StartCommand now cmd n = Ret (n', r) → handler n n'
  | h_snapshot index data n n' e :
      index ≤ lastApplied n → TakeSnapshot index data n = Ret (n', e) → handler n n'
  | h_campaign n n' c : startCampaign n = (n', c) → handler n n'
  | h_vote_response resp c n n' c' : onVoteResponse resp c n = (n', c') → handler n n'
  | h_timeout n : handler n (onElectionTimeout n)
  | h_reset n : handler n (onElectionReset n)
  | h_run n : handler n (notifyApply n)   (* [node.go: Run], line 214 *)
  | h_append_request p n n' r : appendEntriesRequestForPeer p n = Ret (n', r) → handler n n'
  | h_install_request p n n' r : installSnapshotRequestForPeer p n = Ret (n', r) → handler n n'
  | h_append_response now p req resp n n' :
      onAppendResponse now p req resp n = Ret n' → handler n n'
  | h_append_finish p n : handler n (finishRPC p n)
  | h_install_response p req resp n : handler n (onInstallResponse p req resp n)
  | h_install_finish p n : handler n (finishInstall p n).

(** ** Sections that leave the log and the apply state alone *)

Record quiet n m : Prop := {
  q_log : log m = log n; q_commit : commitIndex m = commitIndex n;
  q_index : snapshotIndex m = snapshotIndex n; q_term : snapshotTerm m = snapshotTerm n;
  q_snapshot : snapshot m = snapshot n; q_applied : lastApplied m = lastApplied n;
  q_pending : pendingSnapshot m = pendingSnapshot n }.

#[export] Instance quiet_refl : Reflexive quiet.
Proof. by split. Qed.
#[export] Instance quiet_trans : Transitive quiet.
Proof. intros a b c [] []. split; congruence. Qed.

Lemma quiet_storage st n : quiet n (n <| storage := st |>).
Proof. by split. Qed.

Lemma quiet_with_storage op n n' e : with_storage op n = (n', e) → quiet n n'.
Proof. intros E. destruct (with_storage_frame _ _ _ _ E) as [st ->]. by split. Qed.

Lemma quiet_persist m n n' e :
  quiet m n → tracePersistHardState n = (n', e) → quiet m n'.
Proof. intros Hq E. etrans; [exact Hq|]. by eapply quiet_with_storage. Qed.

(** [E] saved the hard state of an update of [n]. *)
Ltac quiet_save n E :=
  let K := fresh in
  pose proof (λ H, quiet_persist n _ _ _ H E) as K; specialize (K ltac:(by split));
  clear E; destruct K.

Lemma quiet_grantVote req n n' r : grantVote req n = (n', r) → quiet n n'.
Proof.
  unfold grantVote. case_match; [|by intros [= <- _]].
  destruct (tracePersistHardState _) as [m [err|]] eqn:E; quiet_save n E; intros [= <- _]; by split.
Qed.

Lemma quiet_HandleRequestVote req n n' r : HandleRequestVote req n = (n', r) → quiet n n'.
Proof.
  unfold HandleRequestVote. do 2 (case_match; [by intros [= <- _]|]).
  case_match; [|by apply quiet_grantVote].
  destruct (tracePersistHardState _) as [m [err|]] eqn:E; quiet_save n E; [intros [= <- _]; by split|].
  intros Hg%quiet_grantVote. etrans; [|exact Hg]. by split.
Qed.

Lemma quiet_startCampaign n n' c : startCampaign n = (n', c) → quiet n n'.
Proof.
  unfold startCampaign. cbv zeta.
  destruct (tracePersistHardState _) as [m [err|]] eqn:E; quiet_save n E; intros [= <- _];
    unfold markDegraded; [case_match|]; by split.
Qed.

Lemma quiet_markDegraded err n : quiet n (markDegraded err n).
Proof. unfold markDegraded. repeat case_match; by split. Qed.

Lemma quiet_stepDown t n : quiet n (stepDown t n).
Proof.
  unfold stepDown. cbv zeta. destruct (tracePersistHardState _) as [m err] eqn:E.
  etrans; [|apply quiet_markDegraded]. quiet_save n E. by split.
Qed.

Lemma quiet_becomeLeader n : quiet n (becomeLeader n).
Proof.
  unfold becomeLeader. set (n1 := _ <| matchIndex := _ |>).
  assert (quiet n n1) as H1 by by split. clearbody n1.
  induction (elements (peers n1)) as [|p l IH]; [done|]. cbn [foldr].
  etrans; [exact IH|]. by split.
Qed.

Lemma quiet_onVoteResponse resp c n n' c' : onVoteResponse resp c n = (n', c') → quiet n n'.
Proof.
  unfold onVoteResponse. case_match.
  { cbv zeta. destruct (tracePersistHardState _) as [m err] eqn:E. intros [= <- _].
    etrans; [|apply quiet_markDegraded]. quiet_save n E. by split. }
  case_match; [by intros [= <- _]|]. cbv zeta.
  case_match; intros [= <- _]; [apply quiet_becomeLeader|done].
Qed.

Lemma quiet_recordProgress p k n : quiet n (recordProgress p k n).
Proof. unfold recordProgress. cbv zeta. repeat case_match; by split. Qed.

Lemma quiet_finish p n : quiet n (finishRPC p n) ∧ quiet n (finishInstall p n).
Proof. unfold finishRPC, finishInstall. cbv zeta. split; case_match; by split. Qed.

Lemma quiet_onInstallResponse p req resp n : quiet n (onInstallResponse p req resp n).
Proof.
  unfold onInstallResponse.
  case_match; [apply quiet_stepDown|]. case_match; [done|].
  etrans; [apply quiet_recordProgress|]. by split.
Qed.

Lemma quiet_appendEntriesRequestForPeer p n n' r :
  appendEntriesRequestForPeer p n = Ret (n', r) → quiet n n'.
Proof.
  unfold appendEntriesRequestForPeer. case_match; [by intros [= <- _]|].
  case_match; [intros [= <- _]; by split|]. cbv zeta.
  set (n1 := _ <| replicateInFlight := _ |>).
  assert (quiet n n1) as H1 by by split. clearbody n1.
  intros Hop. apply outcome_bind_Ret in Hop as (? & _ & Hop).
  apply outcome_bind_Ret in Hop as (? & _ & Hop). by injection Hop as <- _.
Qed.

Lemma quiet_installSnapshotRequestForPeer p n n' r :
  installSnapshotRequestForPeer p n = Ret (n', r) → quiet n n'.
Proof.
  unfold installSnapshotRequestForPeer. do 2 (case_match; [by intros [= <- _]|]).
  case_match; [intros [= <- _]; by split|]. cbv zeta.
  case_match; [|done]. intros [= <- _]. by split.
Qed.

(** ** What a section may do to the log and the apply state *)

Record effect n m : Prop := {
  ef_wf : wf m;
  ef_ok : snapshot_ok n → snapshot_ok m;
  ef_commit : commitIndex n ≤ commitIndex m;
  ef_applied : lastApplied m = lastApplied n;
  ef_index : snapshotIndex n ≤ snapshotIndex m;
  ef_entries i : snapshotIndex m < i ≤ commitIndex n → entry_at m i = entry_at n i;
  ef_pending :
    pendingSnapshot m = pendingSnapshot n ∧
      (snapshotIndex m = snapshotIndex n ∨ snapshotIndex m ≤ lastApplied n) ∨
    ∃ s, pendingSnapshot m = Some s ∧ Snapshot.LastIncludedIndex s = snapshotIndex m ∧
         lastApplied n < snapshotIndex m }.

Lemma effect_same_log n m :
  wf m → log m = log n → snapshotIndex m = snapshotIndex n → snapshotTerm m = snapshotTerm n →
  snapshot m = snapshot n → lastApplied m = lastApplied n →
  pendingSnapshot m = pendingSnapshot n → commitIndex n ≤ commitIndex m → effect n m.
Proof.
  intros Hwf Hl Hi Ht Hs Ha Hp Hc. split; try done; [|lia| |].
  - unfold snapshot_ok. by rewrite Hs, Hi, Ht.
  - intros i _. unfold entry_at. by rewrite Hl, Hi.
  - left. split; [done|]. by left.
Qed.

Lemma quiet_effect n m : wf n → quiet n m → effect n m.
Proof.
  intros Hwf [Hl Hc Hi Ht Hs Ha Hp]. apply effect_same_log; try done; [by apply (wf_same n)|lia].
Qed.

Lemma effect_quiet n m k : effect n m → quiet m k → effect n k.
Proof.
  intros [Hwf Hok Hc Ha Hi He Hp] [Hl' Hc' Hi' Ht' Hs' Ha' Hp'].
  split; rewrite ?Hc', ?Ha', ?Hi', ?Hp'; try done; [by apply (wf_same m)| |].
  - intros Hn. specialize (Hok Hn). unfold snapshot_ok in *. by rewrite Hs', Hi', Ht'.
  - intros i Hle. rewrite <- He by done. unfold entry_at. by rewrite Hl', Hi'.
Qed.

Lemma quiet_effect_l n m k : quiet n m → effect m k → effect n k.
Proof.
  intros [Hl Hc Hi Ht Hs Ha Hp] [Hwf Hok Hc' Ha' Hi' He' Hp'].
  rewrite Hc, Hi, Ha, Hp in *. split; try done.
  - intros Hn. apply Hok. unfold snapshot_ok in *. by rewrite Hs, Hi, Ht.
  - intros i Hle. rewrite He' by done. unfold entry_at. by rewrite Hl, Hi.
Qed.

Lemma effect_append now req n n' r :
  wf n → req_fits req → no_committed_conflict req n →
  HandleAppendEntries now req n = Ret (n', r) → effect n n'.
Proof.
  intros Hwf Hfit Hno Hop.
  destruct (HandleAppendEntries_post now req n Hwf Hfit) as (? & ? & E & Hpost).
  rewrite Hop in E. injection E as <- <-.
  destruct (append_post_invariant req n n' r Hwf Hfit Hno Hpost) as (Hwf' & [Hi He] & Hc & _ & Ha).
  assert (pendingSnapshot n' = pendingSnapshot n ∧ snapshot n' = snapshot n ∧
          snapshotTerm n' = snapshotTerm n) as (Hp & Hs & Ht) by (destruct Hpost; done).
  split; try done; [|lia| |].
  - unfold snapshot_ok. by rewrite Hs, Hi, Ht.
  - intros i Hle. apply He. lia.
  - left. split; [done|]. by left.
Qed.

(** Moving the commit index after an effect. *)
Lemma effect_committed c now st n m :
  effect n m → commitIndex m < c ≤ snapshotIndex m + zlen (log m) →
  effect n (committed c now st m).
Proof.
  intros [Hwf Hok Hc Ha Hi He Hp] Hcp. pose proof (committed_wf c now st m Hwf Hcp) as Hwfc.
  assert (log (committed c now st m) = log m ∧
    snapshotIndex (committed c now st m) = snapshotIndex m ∧
    snapshotTerm (committed c now st m) = snapshotTerm m ∧
    snapshot (committed c now st m) = snapshot m ∧
    lastApplied (committed c now st m) = lastApplied m ∧
    pendingSnapshot (committed c now st m) = pendingSnapshot m ∧
    commitIndex (committed c now st m) = c) as (H1 & H2 & H3 & H4 & H5 & H6 & H7) by done.
  revert Hwfc H1 H2 H3 H4 H5 H6 H7. generalize (committed c now st m). intros k Hwfc H1 H2 H3 H4 H5 H6 H7.
  split; rewrite ?H2, ?H5, ?H6, ?H7; try done; [|lia|].
  - intros Hn. specialize (Hok Hn). unfold snapshot_ok in *. by rewrite H4, H2, H3.
  - intros i Hle. rewrite <- He by done. unfold entry_at. by rewrite H1, H2.
Qed.

Lemma effect_refl n : wf n → effect n n.
Proof. intros Hwf. by apply quiet_effect. Qed.

Lemma effect_advance now n n' b :
  wf n → advanceCommitIndex now n = Ret (n', b) → effect n n'.
Proof.
  intros Hwf Hop. destruct (advanceCommitIndex_spec now n Hwf) as (? & ? & E & Hpost).
  rewrite Hop in E. injection E as <- <-.
  destruct Hpost as [(-> & _)|(c & st & Hc & _ & _ & Hn')]; [by apply effect_refl|].
  pose proof (effect_committed c now st n n (effect_refl n Hwf) Hc) as He.
  revert He Hn'. generalize (committed c now st n). intros k He [[_ ->]|[_ ->]]; [done|].
  apply (effect_quiet _ _ _ He). by split.
Qed.

Lemma effect_proposed now cmd st n :
  wf n → snapshotIndex n + zlen (log n) + 1 < max_int64 → effect n (proposed now cmd st n).
Proof.
  intros Hwf Hroom. pose proof (proposed_wf now cmd st n Hwf Hroom) as Hwfp.
  pose proof Hwf as [Hs Hc ? ? ?].
  split; [exact Hwfp|intros H; exact H|simpl; lia|done|simpl; lia| |left; split; [done|by left]].
  intros i Hi. unfold entry_at. simpl. apply log_at_app_l. simpl in Hi. lia.
Qed.

Lemma effect_start now cmd n n' r :
  wf n → snapshotIndex n + zlen (log n) + 1 < max_int64 →
  StartCommand now cmd n = Ret (n', r) → effect n n'.
Proof.
  intros Hwf Hroom Hop. destruct (StartCommand_post now cmd n Hwf Hroom) as (? & ? & E & Hpost).
  rewrite Hop in E. injection E as <- <-.
  destruct Hpost as [?|st ? ?|st n' ? ? p -> _|st st' c n' ? ? p Hcp _ Hn'].
  - by apply effect_refl.
  - apply quiet_effect; [done|]. by split.
  - pose proof (effect_proposed now cmd st n Hwf Hroom) as He. fold p in He.
    clearbody p. apply (effect_quiet _ _ _ He). by split.
  - pose proof (effect_proposed now cmd st n Hwf Hroom) as He. fold p in He. clearbody p.
    apply (effect_committed c now st') in He; [|done].
    revert He Hn'. generalize (committed c now st' p).
    intros k He [-> | ->]; apply (effect_quiet _ _ _ He); by split.
Qed.

Lemma effect_snapshot index data n n' e :
  wf n → index ≤ lastApplied n → TakeSnapshot index data n = Ret (n', e) → effect n n'.
Proof.
  intros Hwf Hi Hop. pose proof Hwf as [Hs Hc Ha Hr _].
  destruct (TakeSnapshot_post index data n Hwf) as (? & ? & E & Hpost); [lia|].
  rewrite Hop in E. injection E as <- <-.
  destruct (Z.leb_spec index (snapshotIndex n)); [destruct Hpost as [-> _]; by apply quiet_effect|].
  destruct (Z.ltb_spec (snapshotIndex n + zlen (log n)) index); [lia|].
  destruct Hpost as (st & [(err & _ & ->)|(_ & x & Hx & ->)]).
  - apply quiet_effect; [done|]. by split.
  - pose proof (compactedTo_wf index (LogEntry.Term x) data st n Hwf ltac:(lia)) as Hwf'.
    unfold compactedTo, set_field in *; simpl in *. split; simpl; try done; [lia| |].
    + intros i Hle. unfold entry_at; simpl. apply log_at_drop; lia.
    + left. split; [done|]. by right.
Qed.

Lemma effect_install req n n' r :
  wf n → InstallSnapshotRequest.LastIncludedIndex req < max_int64 →
  HandleInstallSnapshot req n = Ret (n', r) → effect n n'.
Proof.
  intros Hwf Hfit Hop. destruct (HandleInstallSnapshot_post req n Hwf Hfit) as (? & ? & E & Hpost).
  rewrite Hop in E. injection E as <- <-.
  destruct (HandleInstallSnapshot_facts req n Hwf Hfit) as (? & ? & E & Hwf' & _ & Hc & Ha & He & _).
  rewrite Hop in E. injection E as <- <-.
  destruct Hpost as [|? ?|m err ? ? Hl Hc' Hsi Hst Hsn Hla Hpe Ht|v st ? ? Hhas|v st m ? ? Hno Happ].
  - by apply quiet_effect.
  - by apply quiet_effect.
  - apply effect_same_log; try done; rewrite Hc'; done.
  - by apply effect_same_log.
  - set (f := as_follower (InstallSnapshotRequest.Term req) v st n) in *.
    assert (snapshotIndex n ≤ InstallSnapshotRequest.LastIncludedIndex req) as Hle.
    { destruct (decide (InstallSnapshotRequest.LastIncludedIndex req < snapshotIndex n)); [|lia].
      destruct Hno. by left. }
    destruct Happ as [Hl Hi Ht Hsn Hcm _ Hp Hla _ _ _ _]. simpl in *.
    split; try done; [|simpl; lia| |].
    + intros _. unfold snapshot_ok. simpl. by rewrite Hsn, Hi, Ht.
    + intros i Hi'. apply He. simpl in *. lia.
    + simpl. rewrite Hp, Hi.
      destruct (Z.ltb_spec (lastApplied n) (InstallSnapshotRequest.LastIncludedIndex req)).
      * right. by eexists.
      * left. split; [done|]. right. lia.
Qed.

Lemma effect_onAppendResponse now p req resp n n' :
  wf n → onAppendResponse now p req resp n = Ret n' → effect n n'.
Proof.
  intros Hwf. unfold onAppendResponse.
  case_match; [intros [= <-]; apply quiet_effect; [done|apply quiet_stepDown]|].
  do 2 (case_match; [intros [= <-]; by apply quiet_effect|]). cbv zeta.
  case_match; [intros [= <-]; apply quiet_effect; [done|by split]|].
  pose proof (quiet_recordProgress p (AppendEntriesRequest.PrevLogIndex req
    +! zlen (AppendEntriesRequest.Entries req)) n) as Hq. revert Hq.
  generalize (recordProgress p (AppendEntriesRequest.PrevLogIndex req
    +! zlen (AppendEntriesRequest.Entries req)) n). intros k Hq.
  destruct (advanceCommitIndex now k) as [[k2 b]|] eqn:E2; [|done]. cbn [mbind outcome_bind].
  assert (wf k) as Hwfk by (destruct Hq; by apply (wf_same n)).
  pose proof (quiet_effect_l _ _ _ Hq (effect_advance _ _ _ _ Hwfk E2)) as He.
  intros [= <-]. apply (effect_quiet _ _ _ He). destruct b; case_match; by split.
Qed.

Lemma handler_effect n n' : wf n → handler n n' → effect n n'.
Proof.
  intros Hwf Hh. destruct Hh.
  - by eapply quiet_effect, quiet_HandleRequestVote.
  - by eapply effect_append.
  - by eapply effect_install.
  - by eapply effect_start.
  - by eapply effect_snapshot.
  - by eapply quiet_effect, quiet_startCampaign.
  - by eapply quiet_effect, quiet_onVoteResponse.
  - apply quiet_effect; [done|]. by split.
  - apply quiet_effect; [done|]. by split.
  - apply quiet_effect; [done|]. by split.
  - by eapply quiet_effect, quiet_appendEntriesRequestForPeer.
  - by eapply quiet_effect, quiet_installSnapshotRequestForPeer.
  - by eapply effect_onAppendResponse.
  - apply quiet_effect; [done|apply quiet_finish].
  - apply quiet_effect; [done|apply quiet_onInstallResponse].
  - apply quiet_effect; [done|apply quiet_finish].
Qed.

End handlers.
