(* ===== verification/Delivery.v ===== *)
(** * Delivery: what the state machine receives

    The apply loop of a replica interleaved with its handlers ([machine],
    [mstep]): the messages sent are the committed commands in index order,
    without gaps or repetitions, a snapshot standing for the commands it
    covers; the loop panics exactly when a snapshot from the leader is
    installed while it is between two entries; undisturbed, it delivers
    everything committed. *)

From S2P Require Import Prelude Types Storage Timing Node Handlers Replication.
From S2P Require Import LogSpec AppendSpec AppendProtocol CommitSpec SnapshotSpec.
From S2P Require Import CatchUp ApplyLoop Recovery Replica.
Open Scope Z_scope.

Record machine (S : Type) : Type := mkMachine {
  mpc : apply_pc;
  mnode : Node S;
  sent : list ApplyMsg }.
Arguments mkMachine {S}.
Arguments mpc {S}.
Arguments mnode {S}.
Arguments sent {S}.

(** [delivered base l k]: [l] takes a state machine from index [base] to
    index [k], commands one by one, a snapshot jumping forward. *)
Inductive delivered (base : Z) : list ApplyMsg → Z → Prop :=
  | d_start : delivered base [] base
  | d_command l k cmd :
      delivered base l k → delivered base (l ++ [ApplyMsg.of_command cmd (k + 1)]) (k + 1)
  | d_snapshot l k data idx :
      delivered base l k → k ≤ idx →
      delivered base (l ++ [ApplyMsg.of_snapshot data idx]) idx.

Section delivery.
Context {S : Type} {HS : Storage S}.
Implicit Types (n m : Node S) (M : machine S).

Inductive mstep : machine S → machine S → Prop :=
  | m_handler pc n n' l :
      handler n n' → mstep (mkMachine pc n l) (mkMachine pc n' l)
  | m_apply ev now pc n l pc' n' msg :
      applyStep ev now pc n = Ret (pc', n', msg) →
      mstep (mkMachine pc n l) (mkMachine pc' n' (l ++ option_list msg)).

(** A node as [NewNode] leaves it, its apply loop about to start. *)
Definition fresh n : Prop :=
  wf n ∧ snapshot_ok n ∧ lastApplied n = snapshotIndex n ∧ pendingSnapshot n = snapshot n.

(** The messages sent so far reach [k]: in which relation to [lastApplied]. *)
Definition reached (pc : apply_pc) n (k : Z) : Prop :=
  match pc with
  | AwaitNotify | CheckPending | CheckEntry | SentEntry => k = lastApplied n
  | SendingSnapshot s =>
      k = lastApplied n ∧ lastApplied n ≤ Snapshot.LastIncludedIndex s ≤ snapshotIndex n
  | SentSnapshot s =>
      k = Snapshot.LastIncludedIndex s ∧
      lastApplied n ≤ Snapshot.LastIncludedIndex s ≤ snapshotIndex n
  | SendingEntry i e =>
      lastApplied n = i ∧ k = i - 1 ∧ i ≤ commitIndex n ∧ ∀ x, entry_at n i = Some x → x = e
  | Stopped => k ≤ lastApplied n
  end.

(** The snapshot the loop still has to record, if any. *)
Definition in_hand (pc : apply_pc) : option Snapshot :=
  match pc with SendingSnapshot s | SentSnapshot s => Some s | _ => None end.

Definition in_entries (pc : apply_pc) : bool :=
  match pc with CheckEntry | SendingEntry _ _ | SentEntry => true | _ => false end.

(** The pending snapshot is ahead of the loop, and the log base is never
    ahead of the loop without a snapshot that will carry it there. *)
Definition pending_ok (pc : apply_pc) n : Prop :=
  (∀ s, pendingSnapshot n = Some s →
     lastApplied n ≤ Snapshot.LastIncludedIndex s ≤ snapshotIndex n ∧
     (in_entries pc = true → lastApplied n < Snapshot.LastIncludedIndex s) ∧
     ∀ s0, in_hand pc = Some s0 →
       Snapshot.LastIncludedIndex s0 ≤ Snapshot.LastIncludedIndex s) ∧
  (pc = Stopped ∨ snapshotIndex n ≤ lastApplied n ∨
   (∃ s, pendingSnapshot n = Some s ∧ Snapshot.LastIncludedIndex s = snapshotIndex n) ∨
   (∃ s, in_hand pc = Some s ∧ Snapshot.LastIncludedIndex s = snapshotIndex n)).

(** The commands sent are committed, and are the ones in the log. *)
Definition contents_ok n (l : list ApplyMsg) : Prop :=
  ∀ msg, msg ∈ l → ApplyMsg.CommandValid msg = true →
    ApplyMsg.CommandIndex msg ≤ commitIndex n ∧
    ∀ e, entry_at n (ApplyMsg.CommandIndex msg) = Some e →
         LogEntry.Command e = ApplyMsg.Command msg.

Record minv (base : Z) M : Prop := {
  mi_wf : wf (mnode M);
  mi_ok : snapshot_ok (mnode M);
  mi_sent : ∃ k, delivered base (sent M) k ∧ reached (mpc M) (mnode M) k;
  mi_pending : pending_ok (mpc M) (mnode M);
  mi_contents : contents_ok (mnode M) (sent M) }.

(** ** A handler keeps the invariant *)

Lemma reached_effect pc n m k :
  wf n → effect n m → reached pc n k → reached pc m k.
Proof.
  intros Hwf [Hwf' _ Hc Ha Hi He _] Hr. destruct pc; simpl in *; rewrite ?Ha; try done.
  - destruct Hr as [? ?]. split; [done|lia].
  - destruct Hr as [? ?]. split; [done|lia].
  - destruct Hr as (? & ? & ? & Hx). split_and!; [done|done|lia|]. intros x Hm.
    pose proof (log_at_Some _ _ _ _ Hm). apply Hx. rewrite <- Hm. symmetry. apply He. lia.
Qed.

Lemma contents_effect n m l : effect n m → contents_ok n l → contents_ok m l.
Proof.
  intros [_ _ Hc _ _ He _] Hl msg Hin Hv. destruct (Hl msg Hin Hv) as [Hle Hcmd].
  split; [lia|]. intros e Hm. apply Hcmd. pose proof (log_at_Some _ _ _ _ Hm).
  rewrite <- Hm. symmetry. apply He. lia.
Qed.

Lemma in_hand_reached pc n k s :
  reached pc n k → in_hand pc = Some s →
  lastApplied n ≤ Snapshot.LastIncludedIndex s ≤ snapshotIndex n.
Proof. destruct pc; simpl; intros Hr [= <-]; apply Hr. Qed.

Lemma pending_effect pc n m k :
  effect n m → reached pc n k → pending_ok pc n → pending_ok pc m.
Proof.
  intros [_ _ _ Ha Hi _ Hp] Hr [Hpend Hbase].
  destruct Hp as [[Hp Hidx]|(s & Hp & Hs & Hlt)].
  - split.
    + intros s Hs. rewrite Hp in Hs. destruct (Hpend s Hs) as (? & Hent & Hh).
      rewrite Ha. split_and!; [lia|lia|done|done].
    + destruct Hidx as [Hidx|Hidx]; [|right; left; lia]. rewrite Ha, Hidx, Hp. done.
  - split.
    + intros s' Hs'. rewrite Hp in Hs'. injection Hs' as <-. rewrite Ha.
      split_and!; [lia|lia|lia|]. intros s0 Hs0. pose proof (in_hand_reached _ _ _ _ Hr Hs0). lia.
    + right; right; left. by exists s.
Qed.

Lemma minv_effect base pc n n' l :
  effect n n' → minv base (mkMachine pc n l) → minv base (mkMachine pc n' l).
Proof.
  intros He [Hwf Hok (k & Hd & Hr) Hp Hc]. simpl in *. split; simpl.
  - apply He.
  - by apply (ef_ok _ _ He).
  - exists k. eauto using reached_effect.
  - eauto using pending_effect.
  - eauto using contents_effect.
Qed.

Lemma minv_quiet base pc n n' l :
  quiet n n' → minv base (mkMachine pc n l) → minv base (mkMachine pc n' l).
Proof.
  intros Hq Hm. eapply minv_effect; [|exact Hm]. apply quiet_effect; [apply Hm|done].
Qed.

(** ** A step of the apply loop keeps the invariant *)

(** A change of the program counter only. *)
Lemma minv_pc base pc pc' n l :
  (∀ k, reached pc n k → reached pc' n k) → in_hand pc' = None →
  (in_entries pc' = true → in_entries pc = true ∨ pendingSnapshot n = None) →
  (in_hand pc = None ∨ pc' = Stopped) → (pc = Stopped → pc' = Stopped) →
  minv base (mkMachine pc n l) → minv base (mkMachine pc' n l).
Proof.
  intros Hr Hh He Hn Hst [Hwf Hok (k & Hd & Hk) [Hp Hb] Hc]. simpl in *. split; simpl; try done.
  - eauto.
  - split.
    + intros s Hs. destruct (Hp s Hs) as (? & Hi & _). split_and!; [lia|lia| |].
      * intros Hin. destruct (He Hin) as [?|?]; [by apply Hi|congruence].
      * intros s0. by rewrite Hh.
    + destruct Hn as [Hn| ->]; [|by left]. destruct Hb as [->|[?|[?|(s & Hs & _)]]].
      * left. by apply Hst.
      * by right; left.
      * by right; right; left.
      * congruence.
Qed.

Lemma minv_take_pending base n l s :
  pendingSnapshot n = Some s → minv base (mkMachine CheckPending n l) →
  minv base (mkMachine (SendingSnapshot s) (n <| pendingSnapshot := None |>) l).
Proof.
  intros Hs [Hwf Hok (k & Hd & Hk) [Hp Hb] Hc]. simpl in *.
  destruct (Hp s Hs) as (? & _ & _). split; simpl; try done.
  - apply (wf_same n); [done|node_eq..].
  - exists k. split; [done|]. simpl. split; [done|lia].
  - split; [by intros s0 [=]|]. simpl. destruct Hb as [?|[?|[(s' & Hs' & ?)|(s' & ? & _)]]]; [done| | |done].
    + by right; left.
    + right; right; right. exists s. split; [done|]. congruence.
Qed.

Lemma minv_send_snapshot base n l s :
  minv base (mkMachine (SendingSnapshot s) n l) →
  minv base (mkMachine (SentSnapshot s) n
    (l ++ [ApplyMsg.of_snapshot (Snapshot.Data s) (Snapshot.LastIncludedIndex s)])).
Proof.
  intros [Hwf Hok (k & Hd & [-> Hk]) [Hp Hb] Hc]. simpl in *. split; simpl; try done.
  - exists (Snapshot.LastIncludedIndex s). split; [|done]. apply d_snapshot with (lastApplied n); [done|lia].
  - split; [done|]. simpl in *. destruct Hb as [?|?]; [done|by right].
  - intros msg [Hin| ->%list_elem_of_singleton]%elem_of_app Hv; [by apply Hc|done].
Qed.

Lemma minv_record_snapshot base n l s :
  minv base (mkMachine (SentSnapshot s) n l) →
  minv base (mkMachine CheckPending
    (if lastApplied n <? Snapshot.LastIncludedIndex s
     then n <| lastApplied := Snapshot.LastIncludedIndex s |> else n) l).
Proof.
  intros [Hwf Hok (k & Hd & [-> Hk]) [Hp Hb] Hc]. simpl in *.
  set (n' := if _ <? _ then _ else n).
  assert (lastApplied n' = Snapshot.LastIncludedIndex s ∧ log n' = log n ∧
    commitIndex n' = commitIndex n ∧ snapshotIndex n' = snapshotIndex n ∧
    snapshotTerm n' = snapshotTerm n ∧ snapshot n' = snapshot n ∧
    pendingSnapshot n' = pendingSnapshot n) as (Ha & Hl & Hci & Hi & Ht & Hsn & Hpe).
  { unfold n'. destruct (Z.ltb_spec (lastApplied n) (Snapshot.LastIncludedIndex s)); [done|].
    split_and!; [lia|done..]. }
  clearbody n'. destruct Hwf as [? ? ? ? ?]. split; simpl.
  - split; rewrite ?Ha, ?Hl, ?Hci, ?Hi, ?Ht, ?Hsn; try done; lia.
  - unfold snapshot_ok in *. by rewrite Hsn, Hi, Ht.
  - exists (Snapshot.LastIncludedIndex s). by split.
  - split; rewrite ?Hpe, ?Ha, ?Hi.
    + intros s' Hs'. destruct (Hp s' Hs') as (? & _ & Hh). specialize (Hh s eq_refl).
      split_and!; [lia|lia|done|done].
    + right. destruct Hb as [?|[?|[?|(s' & [= <-] & ?)]]]; [done|left; lia|by right; left|left; lia].
  - intros msg Hin Hv. rewrite Hci. unfold entry_at. rewrite Hl, Hi. by apply Hc.
Qed.

Lemma minv_take_entry base n l pc n' :
  takeEntry n = Ret (pc, n') → minv base (mkMachine CheckEntry n l) →
  minv base (mkMachine pc n' l).
Proof.
  intros Htake Hm. apply takeEntry_frame in Htake as [[-> ->]|(e & -> & -> & He & Hlt)].
  { apply (minv_pc _ CheckEntry); try done. by left. }
  destruct Hm as [Hwf Hok (k & Hd & Hk) [Hp Hb] Hc]. simpl in *. subst k.
  destruct Hwf as [Hs Hci Ha Hr Hsn]. revert He. i64_norm. intros He.
  rewrite entryAt_eq in He by lia.
  destruct (entry_at n (lastApplied n + 1)) as [x|] eqn:Ex; [|done]. injection He as ->.
  pose proof (log_at_Some _ _ _ _ Ex) as Hrange.
  assert (pendingSnapshot n = None) as Hnone.
  { destruct (pendingSnapshot n) as [s|] eqn:Es; [|done].
    destruct (Hp s eq_refl) as (? & Hlt' & _). specialize (Hlt' eq_refl). lia. }
  split; simpl.
  - split; simpl; try done; lia.
  - done.
  - exists (lastApplied n). split; [done|]. split_and!; [done|lia|lia|].
    intros y Hy. change (entry_at n (lastApplied n + 1) = Some y) in Hy. congruence.
  - split; simpl; [by rewrite Hnone|]. right; left. lia.
  - done.
Qed.

Lemma minv_send_entry base n l i e :
  minv base (mkMachine (SendingEntry i e) n l) →
  minv base (mkMachine SentEntry n (l ++ [ApplyMsg.of_command (LogEntry.Command e) i])).
Proof.
  intros [Hwf Hok (k & Hd & Hi & -> & Hle & Hx) [Hp Hb] Hc]. simpl in *. split; simpl; try done.
  - exists i. split; [|done]. replace i with (i - 1 + 1) by lia. by apply d_command.
  - split; [|destruct Hb; [done|by right]]. intros s Hs. destruct (Hp s Hs) as (? & ? & _). split_and!; [lia|lia|done|done].
  - intros msg [Hin| ->%list_elem_of_singleton]%elem_of_app Hv; [by apply Hc|].
    simpl. split; [done|]. intros x Hat. by rewrite (Hx x Hat).
Qed.

Lemma quiet_noteApplied now n : quiet n (noteApplied now n).
Proof. destruct (noteApplied_frame now n) as (cs & ss & ->). by split. Qed.

(** Only the program counter moves, from [pc]. *)
Ltac move_pc pc :=
  apply (minv_pc _ pc); [first [done|simpl; lia]|done|first [done|by left|by right]
                        |first [by left|by right]|done|].

Lemma minv_apply base ev now pc n l pc' n' msg :
  applyStep ev now pc n = Ret (pc', n', msg) →
  minv base (mkMachine pc n l) → minv base (mkMachine pc' n' (l ++ option_list msg)).
Proof.
  intros Hop Hm. destruct pc; simpl in Hop.
  - destruct ev; [case_match|]; injection Hop as <- <- <-; rewrite app_nil_r.
    + move_pc AwaitNotify. eapply minv_quiet; [|exact Hm]. by split.
    + done.
    + by move_pc AwaitNotify.
  - case_match; injection Hop as <- <- <-; rewrite app_nil_r; [by apply minv_take_pending|].
    by move_pc CheckPending.
  - destruct ev; injection Hop as <- <- <-; [by apply minv_send_snapshot|]. rewrite app_nil_r.
    by move_pc (SendingSnapshot snap).
  - injection Hop as <- <- <-. rewrite app_nil_r.
    eapply minv_quiet; [apply quiet_noteApplied|]. by apply minv_record_snapshot.
  - destruct (takeEntry n) as [[pc1 n1]|] eqn:E; [|done]. injection Hop as <- <- <-.
    rewrite app_nil_r. by eapply minv_take_entry.
  - destruct ev; injection Hop as <- <- <-; [by apply minv_send_entry|]. rewrite app_nil_r.
    by move_pc (SendingEntry index e).
  - injection Hop as <- <- <-. rewrite app_nil_r. move_pc SentEntry.
    eapply minv_quiet; [apply quiet_noteApplied|exact Hm].
  - injection Hop as <- <- <-. by rewrite app_nil_r.
Qed.

Lemma minv_fresh n : fresh n → minv (lastApplied n) (mkMachine AwaitNotify n []).
Proof.
  intros (Hwf & Hok & Ha & Hp). split; simpl; try done.
  - exists (lastApplied n). split; [constructor|done].
  - split; [|right; left; lia]. rewrite Hp. intros s Hs. unfold snapshot_ok in Hok.
    rewrite Hs in Hok. split_and!; [lia|lia|done|done].
  - intros msg Hin. by apply elem_of_nil in Hin.
Qed.

Lemma minv_reachable n M :
  fresh n → rtc mstep (mkMachine AwaitNotify n []) M → minv (lastApplied n) M.
Proof.
  intros Hf Hr. pose proof (minv_fresh n Hf) as Hm. revert Hm.
  generalize (lastApplied n). intros base. induction Hr as [M|M1 M2 M3 Hs Hr IH]; [done|].
  intros Hm. apply IH. destruct Hs as [pc a b l Hh|ev now pc a l pc' b msg Hop].
  - eapply minv_effect; [|exact Hm]. apply handler_effect; [apply Hm|done].
  - by eapply minv_apply.
Qed.

(** ** Panics *)

Lemma takeEntry_panics n :
  wf n → takeEntry n = Panic ↔ lastApplied n < snapshotIndex n.
Proof.
  intros [Hs Hc Ha Hr _]. unfold takeEntry.
  destruct (Z.leb_spec (commitIndex n) (lastApplied n)); [split; [done|lia]|]. cbv zeta.
  rewrite lastLogIndex_eq by lia. i64_norm.
  destruct (Z.ltb_spec (snapshotIndex n + zlen (log n)) (lastApplied n + 1)); [lia|].
  rewrite entryAt_eq by lia.
  destruct (entry_at n (lastApplied n + 1)) as [e|] eqn:E.
  - apply log_at_Some in E. split; [done|lia].
  - split; [|done]. intros _. unfold entry_at in E.
    destruct (decide (lastApplied n < snapshotIndex n)); [done|].
    destruct (log_at_is_Some (snapshotIndex n) (log n) (lastApplied n + 1)); [lia|congruence].
Qed.

Lemma applyStep_panics base ev now M :
  minv base M →
  applyStep ev now (mpc M) (mnode M) = Panic ↔
  mpc M = CheckEntry ∧ pendingSnapshot (mnode M) ≠ None.
Proof.
  destruct M as [pc n l]. intros [Hwf Hok _ [Hp Hb] _]. simpl in *.
  assert (pc = CheckEntry → (takeEntry n = Panic ↔ pendingSnapshot n ≠ None)) as Hce.
  { intros ->. rewrite takeEntry_panics by done. split.
    - intros Hlt Hn. destruct Hb as [?|[?|[(s & Hs & _)|(s & ? & _)]]]; [done|lia|congruence|done].
    - destruct (pendingSnapshot n) as [s|]; [|done]. intros _.
      destruct (Hp s eq_refl) as (? & Hlt & _). specialize (Hlt eq_refl). lia. }
  destruct pc; simpl; try (split; [by repeat case_match|by intros [? _]]).
  specialize (Hce eq_refl).
  destruct (takeEntry n) as [[pc1 n1]|]; simpl; naive_solver.
Qed.

(** ** Draining *)

(** The command messages for the indices in [(a, b]]. *)
Definition commands n (a b : Z) : list ApplyMsg :=
  omap (λ i, (λ e, ApplyMsg.of_command (LogEntry.Command e) i) <$> entry_at n i)
       (seqZ (a + 1) (b - a)).

Lemma commands_quiet n m a b :
  log m = log n → snapshotIndex m = snapshotIndex n → commands m a b = commands n a b.
Proof. intros Hl Hs. unfold commands, entry_at. by rewrite Hl, Hs. Qed.

Lemma commands_cons n a b e :
  a < b → entry_at n (a + 1) = Some e →
  commands n a b = ApplyMsg.of_command (LogEntry.Command e) (a + 1) :: commands n (a + 1) b.
Proof.
  intros Hab He. unfold commands. rewrite seqZ_cons by lia. simpl. rewrite He. simpl.
  f_equal. f_equal. f_equal; lia.
Qed.

Lemma applyRun_S fuel now pc n :
  applyRun (Datatypes.S fuel) now pc n =
    '(pc, n, msg) ← applyStep Proceed now pc n;
    '(pc, n, msgs) ← applyRun fuel now pc n;
    Ret (pc, n, option_list msg ++ msgs).
Proof. done. Qed.

Lemma applyStep_take ev now n :
  applyStep ev now CheckEntry n = '(pc, n) ← takeEntry n; Ret (pc, n, None).
Proof. by destruct ev. Qed.

Lemma applyRun_idle fuel now n :
  applyNotifyCh n = false → applyRun fuel now AwaitNotify n = Ret (AwaitNotify, n, []).
Proof. intros Hn. induction fuel as [|fuel IH]; [done|].
  cbn [applyRun applyStep]. rewrite Hn. cbn [mbind outcome_bind]. by rewrite IH.
Qed.

(** What a drain leaves alone. *)
Definition drained n m : Prop :=
  lastApplied m = commitIndex n ∧ commitIndex m = commitIndex n ∧ log m = log n ∧
  snapshotIndex m = snapshotIndex n ∧ pendingSnapshot m = pendingSnapshot n.

Lemma drain_entries now k fuel n :
  wf n → snapshotIndex n ≤ lastApplied n → applyNotifyCh n = false →
  commitIndex n - lastApplied n = Z.of_nat k → (3 * k + 1 ≤ fuel)%nat →
  ∃ m, applyRun fuel now CheckEntry n =
    Ret (AwaitNotify, m, commands n (lastApplied n) (commitIndex n)) ∧ drained n m.
Proof.
  revert fuel n. induction k as [|k IH]; intros fuel n Hwf Hle Hnf Hk Hfuel.
  - destruct fuel as [|fuel]; [lia|]. simpl. unfold takeEntry.
    rewrite (proj2 (Z.leb_le _ _)) by lia. simpl.
    rewrite applyRun_idle by done. simpl.
    exists n. split; [|by split_and!; try done; lia].
    unfold commands. by replace (commitIndex n - lastApplied n) with 0 by lia.
  - destruct fuel as [|[|[|fuel]]]; try lia. pose proof Hwf as [Hs Hc Ha Hr Hsn].
    destruct (log_at_is_Some (snapshotIndex n) (log n) (lastApplied n + 1)) as [e He]; [lia|].
    fold (entry_at n (lastApplied n + 1)) in He.
    assert (takeEntry n = Ret (SendingEntry (lastApplied n + 1) e,
      n <| lastApplied := lastApplied n + 1 |>)) as Htake.
    { unfold takeEntry. rewrite (proj2 (Z.leb_gt _ _)) by lia. cbv zeta.
      rewrite lastLogIndex_eq by lia. i64_norm. rewrite (proj2 (Z.ltb_ge _ _)) by lia.
      rewrite entryAt_eq by lia. by rewrite He. }
    rewrite applyRun_S, applyStep_take, Htake. cbn [mbind outcome_bind].
    do 2 (rewrite applyRun_S; cbn [applyStep mbind outcome_bind]).
    set (n1 := n <| lastApplied := lastApplied n + 1 |>) in *.
    destruct (noteApplied_frame now n1) as (cs & ss & ->).
    set (n2 := n1 <| lastAppliedAt := now |> <| commitSeenAt := cs |> <| startSeenAt := ss |>).
    assert (log n2 = log n ∧ commitIndex n2 = commitIndex n ∧ snapshotIndex n2 = snapshotIndex n ∧
      snapshotTerm n2 = snapshotTerm n ∧ snapshot n2 = snapshot n ∧
      lastApplied n2 = lastApplied n + 1 ∧ pendingSnapshot n2 = pendingSnapshot n ∧
      applyNotifyCh n2 = false) as (H1 & H2 & H3 & H4 & H5 & H6 & H7 & H8) by done.
    clearbody n2. clear n1 Htake.
    destruct (IH fuel n2) as (m & Hrun & Hd); [|lia|done|lia|lia|].
    { split; rewrite ?H1, ?H2, ?H3, ?H4, ?H5, ?H6; try done; lia. }
    exists m. rewrite Hrun. cbn [mbind outcome_bind option_list app].
    rewrite (commands_cons n _ _ e) by (done || lia).
    rewrite (commands_quiet n n2) by done. rewrite H2, H6. split; [done|].
    unfold drained in *. by rewrite H1, H2, H3, H7 in Hd.
Qed.

(** A run of the loop alone is a run of the machine. *)
Lemma applyRun_steps fuel now pc n pc' n' msgs l :
  applyRun fuel now pc n = Ret (pc', n', msgs) →
  rtc mstep (mkMachine pc n l) (mkMachine pc' n' (l ++ msgs)).
Proof.
  revert pc n l msgs. induction fuel as [|fuel IH]; intros pc n l msgs.
  - intros [= <- <- <-]. by rewrite app_nil_r.
  - rewrite applyRun_S. destruct (applyStep _ _ _ _) as [[[pc1 n1] msg]|] eqn:E; [|done].
    cbn [mbind outcome_bind]. destruct (applyRun fuel _ _ _) as [[[pc2 n2] msgs']|] eqn:Er; [|done].
    cbn [mbind outcome_bind]. intros [= <- <- <-]. rewrite app_assoc.
    eapply rtc_l; [by eapply m_apply|]. by apply IH.
Qed.

(** From the entry loop on, for a node that differs in [lastApplied]. *)
Lemma drain_from now k fuel n m :
  wf n → log m = log n → commitIndex m = commitIndex n → snapshotIndex m = snapshotIndex n →
  snapshotTerm m = snapshotTerm n → snapshot m = snapshot n → pendingSnapshot m = None →
  applyNotifyCh m = false → 0 ≤ k → snapshotIndex n ≤ k ≤ commitIndex n → lastApplied m = k →
  3 * (commitIndex n - k) + 2 ≤ Z.of_nat fuel →
  ∃ m', applyRun fuel now CheckPending m = Ret (AwaitNotify, m', commands n k (commitIndex n)) ∧
        lastApplied m' = commitIndex n ∧ pendingSnapshot m' = None.
Proof.
  intros Hwf Hl Hc Hs Ht Hsn Hp Hn Hk0 Hk Ha Hfuel. destruct fuel as [|fuel]; [lia|].
  rewrite applyRun_S. cbn [applyStep]. rewrite Hp. cbn [mbind outcome_bind].
  destruct (drain_entries now (Z.to_nat (commitIndex n - k)) fuel m) as (m' & Hrun & Hd);
    [|lia|done|lia|lia|].
  { destruct Hwf as [? ? ? ? ?]. split; rewrite ?Hl, ?Hc, ?Hs, ?Ht, ?Hsn, ?Ha; try done; lia. }
  exists m'. rewrite Hrun. cbn [mbind outcome_bind option_list app].
  rewrite (commands_quiet n m), Ha, Hc by done. destruct Hd as (Hd & _ & _ & _ & Hdp).
  by rewrite Hd, Hc, Hdp, Hp.
Qed.

Lemma drain now fuel n l base :
  minv base (mkMachine AwaitNotify n l) → applyNotifyCh n = true →
  3 * (commitIndex n - lastApplied n) + 6 ≤ Z.of_nat fuel →
  ∃ m, applyRun fuel now AwaitNotify n = Ret (AwaitNotify, m,
      match pendingSnapshot n with
      | None => commands n (lastApplied n) (commitIndex n)
      | Some s =>
          ApplyMsg.of_snapshot (Snapshot.Data s) (Snapshot.LastIncludedIndex s)
            :: commands n (Snapshot.LastIncludedIndex s) (commitIndex n)
      end) ∧ lastApplied m = commitIndex n ∧ pendingSnapshot m = None.
Proof.
  intros [Hwf _ _ [Hp Hb] _] Hn Hfuel. simpl in *. pose proof Hwf as [Hs Hc Ha Hr Hsn].
  destruct fuel as [|fuel]; [lia|]. rewrite applyRun_S. cbn [applyStep]. rewrite Hn.
  cbn [mbind outcome_bind]. set (n1 := n <| applyNotifyCh := false |>).
  destruct (pendingSnapshot n) as [s|] eqn:Es.
  - destruct (Hp s eq_refl) as (Hrange & _ & _).
    do 3 (destruct fuel as [|fuel]; [lia|]). rewrite applyRun_S; cbn [applyStep].
    change (pendingSnapshot n1) with (pendingSnapshot n). rewrite Es.
    cbn [mbind outcome_bind]. set (n2 := n1 <| pendingSnapshot := None |>).
    do 2 (rewrite applyRun_S; cbn [applyStep mbind outcome_bind]). cbv zeta.
    change (lastApplied n2) with (lastApplied n).
    set (n3 := if _ <? _ then _ else n2).
    destruct (noteApplied_frame now n3) as (cs & ss & ->).
    set (n4 := n3 <| lastAppliedAt := now |> <| commitSeenAt := cs |> <| startSeenAt := ss |>).
    assert (log n4 = log n ∧ commitIndex n4 = commitIndex n ∧ snapshotIndex n4 = snapshotIndex n ∧
      snapshotTerm n4 = snapshotTerm n ∧ snapshot n4 = snapshot n ∧ pendingSnapshot n4 = None ∧
      applyNotifyCh n4 = false ∧ lastApplied n4 = Snapshot.LastIncludedIndex s)
      as (? & ? & ? & ? & ? & ? & ? & ?).
    { unfold n4, n3. destruct (Z.ltb_spec (lastApplied n) (Snapshot.LastIncludedIndex s));
        split_and!; try done. simpl. lia. }
    clearbody n4. clear n3 n2 n1.
    destruct (drain_from now (Snapshot.LastIncludedIndex s) fuel n n4) as (m & -> & ? & ?);
      try done; [lia| |lia|by exists m].
    destruct Hb as [?|[?|[(s' & [= <-] & ?)|(s' & ? & _)]]]; [done|lia|lia|done].
  - destruct (drain_from now (lastApplied n) fuel n n1) as (m & -> & ? & ?); try done;
      [lia| |lia|by exists m].
    destruct Hb as [?|[?|[(s' & ? & ?)|(s' & ? & _)]]]; [done|lia|done|done].
Qed.

End delivery.

(** ** The theorems *)

Section theorems.
Context {S : Type} {HS : Storage S}.
Implicit Types (n : Node S) (M : machine S).

(** C23. The state machine of a replica receives the committed commands in
    order: from a fresh node, however the handlers and the apply loop
    interleave and whatever fails, the messages sent take it from the node's
    snapshot index up, command [i + 1] right after index [i] and a snapshot
    only forward, never past the commit index; and every command sent for an
    index the log still holds is the command of that entry. *)
Theorem apply_in_order n M :
  fresh n → rtc mstep (mkMachine AwaitNotify n []) M →
  wf (mnode M) ∧
  (∃ k, delivered (snapshotIndex n) (sent M) k ∧ k ≤ commitIndex (mnode M)) ∧
  (∀ msg, msg ∈ sent M → ApplyMsg.CommandValid msg = true →
     ApplyMsg.CommandIndex msg ≤ commitIndex (mnode M) ∧
     ∀ e, entry_at (mnode M) (ApplyMsg.CommandIndex msg) = Some e →
          LogEntry.Command e = ApplyMsg.Command msg).
Proof.
  intros Hf Hr. pose proof Hf as (_ & _ & Ha & _). rewrite <- Ha.
  destruct (minv_reachable n M Hf Hr) as [Hwf _ (k & Hd & Hk) _ Hc].
  split_and!; [done| |done]. exists k. split; [done|].
  destruct Hwf as [? ? ? ? _]. destruct (mpc M); simpl in Hk; lia.
Qed.

(** C24. The only panic of the apply loop: in a reachable state it panics
    exactly when it is about to take the next entry while a snapshot is
    pending, that is, when [HandleInstallSnapshot] moved the log base past
    [lastApplied] between two entries of the inner loop, which does not look
    at [pendingSnapshot]. *)
Theorem apply_panics_iff n M ev now :
  fresh n → rtc mstep (mkMachine AwaitNotify n []) M →
  applyStep ev now (mpc M) (mnode M) = Panic ↔
  mpc M = CheckEntry ∧ pendingSnapshot (mnode M) ≠ None.
Proof. intros Hf Hr. by eapply applyStep_panics, minv_reachable. Qed.

(** C25. Draining: once notified and undisturbed, the apply loop delivers the
    pending snapshot, if any, and then every committed command after it, in
    order, records the commit index as applied and goes back to waiting, in
    at most [3 * (commitIndex - lastApplied) + 6] steps. *)
Theorem apply_drains n M fuel now :
  fresh n → rtc mstep (mkMachine AwaitNotify n []) M →
  mpc M = AwaitNotify → applyNotifyCh (mnode M) = true →
  3 * (commitIndex (mnode M) - lastApplied (mnode M)) + 6 ≤ Z.of_nat fuel →
  ∃ m, applyRun fuel now AwaitNotify (mnode M) = Ret (AwaitNotify, m,
      match pendingSnapshot (mnode M) with
      | None => commands (mnode M) (lastApplied (mnode M)) (commitIndex (mnode M))
      | Some s =>
          ApplyMsg.of_snapshot (Snapshot.Data s) (Snapshot.LastIncludedIndex s)
            :: commands (mnode M) (Snapshot.LastIncludedIndex s) (commitIndex (mnode M))
      end) ∧ lastApplied m = commitIndex (mnode M) ∧ pendingSnapshot m = None.
Proof.
  intros Hf Hr Hpc Hn Hfuel. pose proof (minv_reachable n M Hf Hr) as Hm.
  destruct M as [pc m l]. simpl in *. subst pc. by eapply drain.
Qed.

End theorems.

(** ** Witnesses: the follower of [Demo], with one committed entry *)

Lemma demo_fresh : fresh Demo.follower.
Proof. split; [apply Demo.follower_wf|done]. Qed.

Definition demo_notified : machine InMemoryStorage.t :=
  mkMachine AwaitNotify (notifyApply Demo.follower) [].

Lemma demo_notified_reachable :
  rtc mstep (mkMachine AwaitNotify Demo.follower []) demo_notified.
Proof. apply rtc_once, m_handler, h_run. Qed.

Definition demo_entries : Node InMemoryStorage.t := Demo.follower <| applyNotifyCh := false |>.

Lemma demo_entries_reachable :
  rtc mstep (mkMachine AwaitNotify Demo.follower []) (mkMachine CheckEntry demo_entries []).
Proof.
  etrans; [apply demo_notified_reachable|].
  apply (applyRun_steps 2 0 _ _ _ _ [] []). by vm_compute.
Qed.

Definition demo_snapshot : InstallSnapshotRequest :=
  InstallSnapshotRequest.mk 2 "a" 5 2 (mkClusterConfig []) [Byte.x41].

(** The snapshot arrives between two entries. *)
Lemma demo_race :
  ∃ n', rtc mstep (mkMachine AwaitNotify Demo.follower []) (mkMachine CheckEntry n' []) ∧
    pendingSnapshot n' = Some (snapshot_of demo_snapshot).
Proof.
  assert (match HandleInstallSnapshot demo_snapshot demo_entries with
          | Ret (n', _) => bool_decide (Snapshot.LastIncludedIndex <$> pendingSnapshot n' = Some 5)
          | Panic => false end = true) as Hb by by vm_compute.
  destruct (HandleInstallSnapshot demo_snapshot demo_entries) as [[n' r]|] eqn:E; [|done].
  exists n'. split.
  - eapply rtc_r; [apply demo_entries_reachable|]. apply m_handler.
    by apply (h_install demo_snapshot _ _ r).
  - destruct (HandleInstallSnapshot_facts demo_snapshot demo_entries)
      as (? & ? & E' & _ & _ & _ & Ha & _ & Hv); [by split; vm_compute|done|].
    rewrite E in E'. injection E' as <- <-.
    destruct r as [resp|err]; [|by vm_compute in E].
    destruct (Hv resp eq_refl) as (_ & _ & _ & Hnew).
    + by vm_compute in E; injection E as _ <-.
    + by vm_compute.
    + apply Hnew; [intros [?|[? _]]; by vm_compute in H|]. apply bool_decide_eq_true_1 in Hb.
      destruct (Hnew) as (_ & -> & _); [intros [?|[? _]]; by vm_compute in H|]. by vm_compute.
Qed.

Lemma apply_in_order_witness :
  ∃ M, rtc mstep (mkMachine AwaitNotify Demo.follower []) M ∧
    sent M = [ApplyMsg.of_command [] 1] ∧ wf (mnode M).
Proof.
  destruct (applyRun 9 0 AwaitNotify (mnode demo_notified)) as [[[pc n'] msgs]|] eqn:E;
    [|by vm_compute in E].
  assert (rtc mstep (mkMachine AwaitNotify Demo.follower []) (mkMachine pc n' msgs)) as Hr.
  { etrans; [apply demo_notified_reachable|]. by apply (applyRun_steps 9 0 _ _ _ _ _ []). }
  exists (mkMachine pc n' msgs). split; [exact Hr|]. split.
  - vm_compute in E. by injection E as _ _ <-.
  - apply (apply_in_order Demo.follower (mkMachine pc n' msgs) demo_fresh Hr).
Defined.

Lemma apply_panics_iff_witness :
  ∃ n', rtc mstep (mkMachine AwaitNotify Demo.follower []) (mkMachine CheckEntry n' []) ∧
    applyStep Proceed 0 CheckEntry n' = Panic.
Proof.
  destruct demo_race as (n' & Hr & Hp). exists n'. split; [exact Hr|].
  apply (apply_panics_iff Demo.follower (mkMachine CheckEntry n' []) Proceed 0 demo_fresh Hr).
  simpl. split; [done|]. by rewrite Hp.
Defined.

Lemma apply_drains_witness :
  ∃ m, applyRun 9 0 AwaitNotify (mnode demo_notified) =
    Ret (AwaitNotify, m, commands Demo.follower 0 1) ∧ lastApplied m = 1.
Proof.
  destruct (apply_drains Demo.follower demo_notified 9 0 demo_fresh demo_notified_reachable
    eq_refl eq_refl) as (m & H1 & H2 & _); [by vm_compute|].
  exists m. split; [exact H1|exact H2].
Defined.
