(* ===== verification/Durability.v ===== *)
(** * Durability: a replica across crashes

    Over a storage that performs its writes, every reachable state of a
    replica has its term, vote, log and snapshot on disk, so a crash between
    two locked sections loses nothing; a crash inside a compaction, between
    saving the snapshot and cutting the log, loses nothing either.  What a
    failed best-effort write leaves behind is the exception. *)

From S2P Require Import Prelude Types Storage Timing Node Handlers Replication.
From S2P Require Import LogSpec AppendSpec AppendProtocol CommitSpec SnapshotSpec.
From S2P Require Import CatchUp ApplyLoop Recovery Replica Delivery.
Open Scope Z_scope.

Section durability.
Context {S : Type} {HS : Storage S} {HC : StorageContract S}.
Implicit Types (n m : Node S) (d : PersistentState).

(** [n'] is [n] after a restart. *)
Record restarted n n' : Prop := {
  rs_term : currentTerm n' = currentTerm n;
  rs_vote : votedFor n' = votedFor n;
  rs_log : log n' = log n;
  rs_index : snapshotIndex n' = snapshotIndex n;
  rs_snap_term : snapshotTerm n' = snapshotTerm n;
  rs_snapshot : snapshot n' = snapshot n;
  rs_role : role n' = Follower;
  rs_degraded : degraded n' = false;
  rs_fresh : fresh n' }.

Lemma NewNode_restarted i ps s n :
  wf n → recorded (contents s) n →
  ∃ n', NewNode i ps (Some s) true = Ret (Val n') ∧ restarted n n' ∧
        storage n' = Some s ∧ commitIndex n' = recovered_commit (contents s) n.
Proof.
  intros Hwf Hrec.
  destruct (NewNode_recorded i ps s n Hwf Hrec) as (n' & -> & Ht & Hv & Hl & Hi & Hst & Hsn &
    Ha & Hp & Hc & Hr & Hd & Hs & _).
  exists n'. split; [done|]. split; [|done].
  destruct Hrec as (_ & _ & Hok & _). destruct Hwf as [? ? ? Hroom Hw].
  pose proof (zlen_nonneg (log n)).
  split; try done. split_and!.
  - assert (snapshotIndex n ≤ commitIndex n' ≤ snapshotIndex n + zlen (log n)) as Hcr.
    { rewrite Hc. unfold recovered_commit. destruct (snapshot n); lia. }
    split; rewrite ?Hl, ?Hi, ?Hst, ?Hsn, ?Ha; try done; lia.
  - unfold snapshot_ok in *. by rewrite Hsn, Hi, Hst.
  - by rewrite Ha, Hi.
  - by rewrite Hp, Hsn.
Qed.

Lemma handler_synced {HR : ReliableStorage S} n n' : handler n n' → synced n → synced n'.
Proof.
  intros Hh Hs. destruct Hh.
  - by eapply synced_HandleRequestVote.
  - by eapply synced_HandleAppendEntries.
  - by eapply synced_HandleInstallSnapshot.
  - by eapply synced_StartCommand.
  - by eapply synced_TakeSnapshot.
  - by eapply synced_startCampaign.
  - by eapply synced_onVoteResponse.
  - by apply (synced_same n).
  - by apply (synced_same n).
  - by apply (synced_same n).
  - by apply (proj1 (synced_requests p n n' r (None, true) Hs)).
  - by apply (proj2 (synced_requests p n n' (None, true) r Hs)).
  - by eapply synced_onAppendResponse.
  - by apply synced_finish.
  - by apply synced_onInstallResponse.
  - by apply synced_finish.
Qed.

Lemma mstep_synced {HR : ReliableStorage S} (M M' : machine S) :
  rtc mstep M M' → synced (mnode M) → synced (mnode M').
Proof.
  induction 1 as [|M1 M2 M3 Hstep _ IH]; [done|]. intros Hs. apply IH.
  destruct Hstep; simpl in *; [by eapply handler_synced|by eapply synced_applyStep].
Qed.

(** C21. A restart finds everything: from any reachable state of a replica
    whose storage performs its writes, whatever handlers and apply steps led
    there, [NewNode] on the surviving storage returns a healthy follower with
    the same term, vote, log and snapshot, ready to replay: its commit and
    applied indices start at the snapshot, or, without a snapshot, the commit
    index is the persisted one and replay starts from index 0. *)
Theorem crash_recovery {HR : ReliableStorage S} i ps n (M : machine S) :
  fresh n → synced n → rtc mstep (mkMachine AwaitNotify n []) M →
  ∃ s n', storage (mnode M) = Some s ∧ NewNode i ps (Some s) true = Ret (Val n') ∧
    restarted (mnode M) n' ∧ synced n' ∧
    commitIndex n' = recovered_commit (contents s) (mnode M) ∧
    (snapshot n' = None → lastApplied n' = 0).
Proof.
  intros Hf Hsy Hr. destruct (minv_reachable n M Hf Hr) as [Hwf Hok _ _ _].
  destruct (mstep_synced _ _ Hr Hsy) as (d & Hd & Hl & Hh).
  unfold disk_of in Hd. destruct (storage (mnode M)) as [s|] eqn:Es; [|done].
  injection Hd as <-. exists s.
  destruct (NewNode_restarted i ps s (mnode M) Hwf) as (n' & Hnew & Hre & Hst & Hc).
  { apply synced_recorded; try done. apply Hwf. }
  exists n'. split_and!; [done|done|done| |done|].
  - exists (contents s). destruct Hre, Hl as (? & ? & ?), Hh. unfold disk_of.
    rewrite Hst. split; [done|]. unfold log_synced, hard_synced. split_and!; congruence.
  - intros Hn. destruct Hre as [_ _ _ _ _ _ _ _ (_ & Hok' & Ha & _)].
    unfold snapshot_ok in Hok'. rewrite Hn in Hok'. lia.
Qed.

(** C22. A crash inside a compaction: [Snapshot] saves the snapshot and then
    replaces the stored log; if the process dies between the two, [NewNode]
    drops the stale entries and returns the node that the finished compaction
    would have left. *)
Theorem compaction_crash_safe i ps index data st n s s' e :
  wf n → snapshot_ok n → storage n = Some s → log_synced (contents s) n →
  hard_synced (contents s) n → snapshotIndex n < index ≤ commitIndex n →
  entry_at n index = Some e →
  SaveSnapshot (Snapshot.mk index (LogEntry.Term e) (config n) data) s = (s', None) →
  ∃ n', NewNode i ps (Some s') true = Ret (Val n') ∧
        restarted (compactedTo index (LogEntry.Term e) data st n) n' ∧
        commitIndex n' = index ∧ ∀ j, index < j → entry_at n' j = entry_at n j.
Proof.
  intros Hwf Hok Hst (Hb & Hl & Hsn) Hh Hi He Hsave.
  pose proof (contract_save_snapshot (Snapshot.mk index (LogEntry.Term e) (config n) data) s) as Hw.
  rewrite Hsave in Hw. pose proof (wf_snap _ Hwf).
  set (c := compactedTo index (LogEntry.Term e) data st n).
  pose proof (compactedTo_wf index (LogEntry.Term e) data st n Hwf Hi) as Hwfc. fold c in Hwfc.
  assert (recorded (contents s') c) as Hrec.
  { rewrite Hw. split_and!; [exact Hh|done|by split|simpl; lia|simpl; lia|].
    simpl. by rewrite Hb, Hl. }
  destruct (NewNode_restarted i ps s' c Hwfc Hrec) as (n' & Hnew & Hre & _ & Hc).
  exists n'. split_and!; [done|done|by rewrite Hc|].
  intros j Hj. destruct Hre as [_ _ Hlog Hidx _ _ _ _ _]. unfold entry_at. rewrite Hlog, Hidx.
  apply log_at_drop; lia.
Qed.

End durability.

(** ** Witnesses *)

Definition demo_storage : InMemoryStorage.t :=
  InMemoryStorage.mk (HardState.mk 1 "" 1 (mkClusterConfig ["a"; "b"])) 0
    [Demo.e 1; Demo.e 1] None.

Definition demo_stored : Node InMemoryStorage.t :=
  Demo.follower <| storage := Some demo_storage |>.

Lemma demo_stored_fresh : fresh demo_stored.
Proof. split; [by split; vm_compute|done]. Qed.

Lemma demo_stored_synced : synced demo_stored.
Proof. by exists (contents demo_storage). Qed.

Lemma crash_recovery_witness :
  ∃ s n', NewNode "b" {["a"]} (Some s) true = Ret (Val n') ∧
    restarted (onElectionTimeout demo_stored) n'.
Proof.
  destruct (crash_recovery "b" {["a"]} demo_stored
    (mkMachine AwaitNotify (onElectionTimeout demo_stored) [])
    demo_stored_fresh demo_stored_synced) as (s & n' & _ & H1 & H2 & _).
  - apply rtc_once, m_handler, h_timeout.
  - exists s, n'. split; [exact H1|exact H2].
Defined.

Lemma compaction_crash_safe_witness :
  ∃ s' n', NewNode "b" {["a"]} (Some s') true = Ret (Val n') ∧ commitIndex n' = 1.
Proof.
  destruct (compaction_crash_safe "b" {["a"]} 1 [Byte.x41] None demo_stored demo_storage
    (SaveSnapshot (Snapshot.mk 1 1 (config demo_stored) [Byte.x41]) demo_storage).1 (Demo.e 1))
    as (n' & H1 & _ & H2 & _).
  - apply demo_stored_fresh.
  - done.
  - done.
  - done.
  - done.
  - by split; vm_compute.
  - done.
  - done.
  - eexists _, n'. split; [exact H1|exact H2].
Defined.

(** ** A best-effort write that failed *)

(** A follower with four entries, two of them committed and applied; its next
    write succeeds, the one after fails, and all later ones succeed. *)
Definition flaky : Node (FaultyStorage InMemoryStorage.t) :=
  blank_node "b" {["a"]}
    (mkFaulty (InMemoryStorage.mk (HardState.mk 1 "" 2 (mkClusterConfig ["a"; "b"])) 0
       [Demo.e 1; Demo.e 1; Demo.e 1; Demo.e 1] None) [WriteOk; FailBefore])
    <| currentTerm := 1 |> <| log := [Demo.e 1; Demo.e 1; Demo.e 1; Demo.e 1] |>
    <| commitIndex := 2 |> <| lastApplied := 2 |> <| config := mkClusterConfig ["a"; "b"] |>.

(** The new leader replaces index 3. *)
Definition flaky_request : AppendEntriesRequest :=
  AppendEntriesRequest.mk 2 "a" 2 1 [Demo.e 2] 2.

(** C26. "Best-effort" compaction is not harmless: [Snapshot] ignores a failed
    [SetLog], so the stored log keeps its old base while the node counts from
    the new one; a later [TruncateLog] then cuts the stored log at the wrong
    entry.  Here the follower compacts to index 2 with the second write
    failing, then acknowledges an entry at index 3 with every write
    succeeding, and after a restart the acknowledged entry is gone. *)
Theorem failed_compaction_loses_entry :
  wf flaky ∧ synced flaky ∧
  ∃ n1 n2 n3 resp,
    TakeSnapshot 2 [] flaky = Ret (n1, None) ∧
    HandleAppendEntries 0 flaky_request n1 = Ret (n2, Val resp) ∧
    AppendEntriesResponse.Success resp = true ∧
    entry_at n2 3 = Some (Demo.e 2) ∧
    NewNode "b" {["a"]} (storage n2) true = Ret (Val n3) ∧
    snapshotIndex n3 = 2 ∧ log n3 = [].
Proof.
  split; [by split; vm_compute|]. split; [by eexists|].
  eexists _, _, _, _. split; [vm_compute; reflexivity|].
  split; [vm_compute; reflexivity|]. split; [reflexivity|].
  split; [vm_compute; reflexivity|]. split; [vm_compute; reflexivity|].
  split; reflexivity.
Qed.
