(* ===== verification/VoteSafety.v ===== *)
(** * VoteSafety: terms, votes and roles across every node operation

    [evolves N n n'] is what an operation may do to the part of a node that
    elections depend on: it forgets no vote, in memory or on disk ([covers]),
    it never lowers the term, it keeps a leader or a candidate in its term,
    and it keeps every configuration at [N] members.  Every handler of the
    node evolves it, whatever request or response it is given and however
    its storage calls fail; only taking office ([onVoteResponse]) and the
    election timeout do more. *)

From S2P Require Import Prelude Types Storage Timing Node Handlers Replication.
Open Scope Z_scope.

(** A pair of a term and a vote that accounts for a vote for [c] in term [t]. *)
Definition cov (t : Z) (c : string) (term : Z) (vote : string) : Prop :=
  t < term ∨ (t = term ∧ vote = c).

Section vote_safety.
Context {S : Type} {HS : Storage S} {HC : StorageContract S}.
Implicit Types n : Node S.

Definition disk_hard (s : S) : HardState := PersistentState.Hard (contents s).

Definition covers (t : Z) (c : string) n : Prop :=
  cov t c (currentTerm n) (votedFor n) ∧
  ∀ s, storage n = Some s →
    cov t c (HardState.CurrentTerm (disk_hard s)) (HardState.VotedFor (disk_hard s)).

(** A configuration of a cluster of [N] members, or an absent one. *)
Definition cfg_ok (N : Z) (cfg : ClusterConfig) : Prop :=
  Members cfg = [] ∨ zlen (Members cfg) = N.

Definition disk_cfg_ok (N : Z) (d : PersistentState) : Prop :=
  cfg_ok N (HardState.Config (PersistentState.Hard d)) ∧
  ∀ sn, PersistentState.Snap d = Some sn → cfg_ok N (Snapshot.Config sn).

Definition cfg_inv (N : Z) n : Prop :=
  zlen (Members (config n)) = N ∧
  ∀ s, storage n = Some s → disk_cfg_ok N (contents s).

Record evolves (N : Z) n n' : Prop := {
  ev_id : id n' = id n;
  ev_peers : peers n' = peers n;
  ev_storage : is_Some (storage n) → is_Some (storage n');
  ev_covers : ∀ t c, c ≠ "" → covers t c n → covers t c n';
  ev_term : currentTerm n ≤ currentTerm n';
  ev_leader : role n' = Leader → role n = Leader ∧ currentTerm n' = currentTerm n;
  ev_candidate : role n' = Candidate → role n = Candidate ∧ currentTerm n' = currentTerm n;
  ev_cfg : cfg_inv N n → cfg_inv N n' }.

#[export] Instance evolves_refl N : Reflexive (evolves N).
Proof. intros n. constructor; auto; lia. Qed.

#[export] Instance evolves_trans N : Transitive (evolves N).
Proof.
  intros n1 n2 n3 [] []. constructor; try (by auto); try lia; try congruence.
  - intros Hl. destruct (ev_leader1 Hl) as [? ?]. destruct ev_leader0; [done|]. split; [done|lia].
  - intros Hl. destruct (ev_candidate1 Hl) as [? ?]. destruct ev_candidate0; [done|]. split; [done|lia].
Qed.

(** Operations that touch none of the fields elections depend on. *)
Lemma evolves_frame N n n' :
  id n' = id n → peers n' = peers n → storage n' = storage n →
  currentTerm n' = currentTerm n → votedFor n' = votedFor n →
  role n' = role n → config n' = config n → evolves N n n'.
Proof.
  intros Hid Hp Hs Ht Hv Hr Hc.
  constructor; unfold covers, cfg_inv; rewrite ?Hid, ?Hp, ?Hs, ?Ht, ?Hv, ?Hr, ?Hc;
    auto; lia.
Qed.

(** What a storage call can have done to the contents. *)
Lemma with_storage_contents op upd n n' e :
  writes contents op upd → with_storage op n = (n', e) →
  ∃ st, n' = n <| storage := st |> ∧ (is_Some (storage n) → is_Some st) ∧
    ∀ s', st = Some s' → ∃ s, storage n = Some s ∧
      (contents s' = upd (contents s) ∨ (e ≠ None ∧ contents s' = contents s)).
Proof.
  intros Hw Hop. destruct (with_storage_spec op n) as (st & e' & Heq & HN & HSome).
  rewrite Heq in Hop. simplify_eq. exists st. split; [done|]. split.
  - intros [s E]. destruct (HSome s E) as (s' & -> & _). by eexists.
  - intros s' ->. destruct (storage n) as [s|]; [|naive_solver].
    exists s. split; [done|]. destruct (HSome s eq_refl) as (? & ? & Hop).
    simplify_eq. specialize (Hw s). rewrite Hop in Hw. destruct e; naive_solver.
Qed.

(** A call that updates neither the hard state nor, except for a
    configuration of [N] members, the snapshot. *)
Lemma evolves_write N op upd n n' e :
  writes contents op upd → with_storage op n = (n', e) →
  (∀ d, PersistentState.Hard (upd d) = PersistentState.Hard d) →
  (cfg_inv N n → ∀ d, disk_cfg_ok N d → disk_cfg_ok N (upd d)) →
  evolves N n n'.
Proof.
  intros Hw Hop Hh Hcfg.
  destruct (with_storage_contents _ _ _ _ _ Hw Hop) as (st & -> & HSome & Hst).
  constructor; simpl; auto; try lia.
  - intros t c _ [Hm Hd]. split; [done|]. simpl. intros s' E.
    destruct (Hst s' E) as (s & Es & Hc). specialize (Hd s Es).
    unfold disk_hard in *. destruct Hc as [->|[_ ->]]; rewrite ?Hh; done.
  - intros Hinv. split; [apply Hinv|]. simpl. intros s' E.
    destruct (Hst s' E) as (s & Es & Hc).
    pose proof (proj2 Hinv s Es). destruct Hc as [->|[_ ->]]; auto.
Qed.

(** Saving the hard state of [n], reached from [n0] in memory, and going on
    from [n''] with the resulting storage: covers a successful save and a
    rollback after a failed one. *)
Lemma evolves_saved N n0 n n' n'' e :
  persistHardState n = (n', e) →
  storage n = storage n0 → config n = config n0 →
  (∀ t c, c ≠ "" → cov t c (currentTerm n0) (votedFor n0) →
          cov t c (currentTerm n) (votedFor n)) →
  storage n'' = storage n' → id n'' = id n0 → peers n'' = peers n0 →
  config n'' = config n0 →
  (∀ t c, c ≠ "" → cov t c (currentTerm n0) (votedFor n0) →
          cov t c (currentTerm n'') (votedFor n'')) →
  currentTerm n0 ≤ currentTerm n'' →
  (role n'' = Leader → role n0 = Leader ∧ currentTerm n'' = currentTerm n0) →
  (role n'' = Candidate → role n0 = Candidate ∧ currentTerm n'' = currentTerm n0) →
  evolves N n0 n''.
Proof.
  intros Hop Hs Hc Hcov Hs'' Hid Hp Hc'' Hcov'' Ht Hl Hca.
  destruct (with_storage_contents _ _ _ _ _ (contract_save_hard _) Hop)
    as (st & -> & HSome & Hst). simpl in Hs''.
  constructor; auto.
  - rewrite Hs'', <- Hs. auto.
  - intros t c Hne [Hm Hd]. split; [auto|]. rewrite Hs''. intros s' E.
    destruct (Hst s' E) as (s & Es & [Hd'|[_ Hd']]); unfold disk_hard; rewrite Hd'.
    + simpl. auto.
    + apply Hd. congruence.
  - intros [Hlen Hdisk]. split; [congruence|]. rewrite Hs''. intros s' E.
    destruct (Hst s' E) as (s & Es & Hd').
    assert (disk_cfg_ok N (contents s)) as Hok by (apply Hdisk; congruence).
    destruct Hd' as [->|[_ ->]]; [|done]. split; simpl; [|apply Hok].
    right. congruence.
Qed.

Lemma evolves_persist N n n' e : persistHardState n = (n', e) → evolves N n n'.
Proof.
  intros Hop. destruct (with_storage_frame _ _ _ _ Hop) as [st Hst].
  eapply evolves_saved; eauto; subst n'; simpl; auto; lia.
Qed.

Lemma evolves_markDegraded N err n : evolves N n (markDegraded err n).
Proof. unfold markDegraded. split_ifs; try reflexivity; by apply evolves_frame. Qed.

(** ** The handlers *)

Ltac ev_frame := solve [reflexivity | by apply evolves_frame].

Lemma evolves_grantVote N req n n' r :
  grantVote req n = (n', r) → evolves N n n'.
Proof.
  unfold grantVote. intros Hop.
  destruct (_ && _)%bool eqn:Hg; simplify_eq; [|reflexivity].
  apply andb_true_iff in Hg as [Hv _].
  destruct (tracePersistHardState _) as [n1 e] eqn:E.
  destruct (with_storage_frame _ _ _ _ E) as [st Hst].
  assert (∀ t c, c ≠ "" → cov t c (currentTerm n) (votedFor n) →
            cov t c (currentTerm n) (RequestVoteRequest.CandidateID req)) as Hcov.
  { intros t c Hne [|[-> ?]]; [by left|]. right. split; [done|].
    apply orb_true_iff in Hv as [Hv|Hv]; apply bool_decide_eq_true in Hv; congruence. }
  destruct e; simplify_eq; (eapply evolves_saved; [exact E|..]); simpl; auto; lia.
Qed.

Lemma cov_newer t c T V T' V' : T < T' → cov t c T V → cov t c T' V'.
Proof. unfold cov. intuition lia. Qed.

Lemma evolves_HandleRequestVote N req n n' r :
  HandleRequestVote req n = (n', r) → evolves N n n'.
Proof.
  unfold HandleRequestVote. intros Hop.
  destruct (degraded n); simplify_eq; [reflexivity|].
  destruct (Z.ltb_spec (RequestVoteRequest.Term req) (currentTerm n));
    simplify_eq; [reflexivity|].
  destruct (Z.ltb_spec (currentTerm n) (RequestVoteRequest.Term req));
    [|by eapply evolves_grantVote].
  destruct (tracePersistHardState _) as [n1 e] eqn:E.
  destruct (with_storage_frame _ _ _ _ E) as [st Hst].
  destruct e as [err|]; simplify_eq.
  - eapply evolves_saved; [exact E|..]; simpl; eauto using cov_newer; lia.
  - etrans; [|by eapply evolves_grantVote].
    eapply evolves_saved; [exact E|..]; simpl; eauto using cov_newer; try lia; done.
Qed.

(** Adopting a term and becoming follower, or failing and rolling back. *)
Lemma evolves_adoptTerm N t n n' e :
  adoptTerm t n = (n', e) →
  match e with
  | Some _ => evolves N n n'
  | None => evolves N n (resetElectionTimeout (n' <| role := Follower |>))
  end.
Proof.
  unfold adoptTerm. intros Hop.
  destruct (Z.ltb_spec (currentTerm n) t); simplify_eq.
  2:{ constructor; simpl; auto; try done; lia. }
  destruct (tracePersistHardState _) as [n1 e1] eqn:E.
  destruct (with_storage_frame _ _ _ _ E) as [st Hst].
  destruct e1 as [err|]; simplify_eq;
    (eapply evolves_saved; [exact E|..]); simpl; eauto using cov_newer; try lia; done.
Qed.

Lemma evolves_append N es n n' e : tracePersistAppendLog es n = (n', e) → evolves N n n'.
Proof. intros. eapply evolves_write; eauto using contract_append. Qed.

Lemma evolves_truncate N i n n' e : tracePersistTruncateLog i n = (n', e) → evolves N n n'.
Proof. intros. eapply evolves_write; eauto using contract_truncate. Qed.

Lemma evolves_compact N n n' e : persistCompactLog n = (n', e) → evolves N n n'.
Proof. intros. eapply evolves_write; eauto using contract_set_log. Qed.

Lemma evolves_save_snapshot N sn n n' e :
  (cfg_inv N n → cfg_ok N (Snapshot.Config sn)) →
  tracePersistSnapshot sn n = (n', e) → evolves N n n'.
Proof.
  intros Hcfg Hop. eapply evolves_write; [apply contract_save_snapshot|exact Hop|done|].
  intros Hinv d [Hh _]. split; [done|]. simpl. intros ? [= <-]. auto.
Qed.

Lemma evolves_appendLoop N prev i es n n' e :
  appendLoop prev i es n = Ret (n', e) → evolves N n n'.
Proof.
  revert i n. induction es as [|x es IH]; intros i n Hop; simpl in Hop; simplify_eq;
    [reflexivity|].
  case_match; [by eauto|]. case_match.
  - destruct (tracePersistAppendLog _ _) as [n1 [err|]] eqn:E; simplify_eq;
      [by eapply evolves_append|].
    etrans; [by eapply evolves_append|ev_frame].
  - binv. case_match; [by eauto|].
    destruct (tracePersistTruncateLog _ _) as [n1 [err|]] eqn:E1; simplify_eq;
      [by eapply evolves_truncate|]. binv. case_match; simplify_eq.
    + etrans; [by eapply evolves_truncate|]. etrans; [|by eapply evolves_append]. ev_frame.
    + etrans; [by eapply evolves_truncate|].
      etrans; [|etrans; [by eapply evolves_append|]]; ev_frame.
Qed.

Lemma evolves_followCommit N lc now n n' e :
  followCommit lc now n = (n', e) → evolves N n n'.
Proof.
  unfold followCommit. intros Hop. case_match; simplify_eq; [|reflexivity].
  destruct (tracePersistHardState _) as [n1 [err|]] eqn:E; simplify_eq;
    (etrans; [|etrans; [by eapply evolves_persist|]]); ev_frame.
Qed.

Lemma evolves_HandleAppendEntries N now req n n' r :
  HandleAppendEntries now req n = Ret (n', r) → evolves N n n'.
Proof.
  unfold HandleAppendEntries. intros Hop.
  case_match; simplify_eq; [reflexivity|]. case_match; simplify_eq; [reflexivity|].
  destruct (adoptTerm _ _) as [n1 e1] eqn:E1. pose proof (evolves_adoptTerm N _ _ _ _ E1) as Ha.
  destruct e1; simplify_eq; [done|]. binv.
  case_match; simplify_eq; [by destruct p; simplify_eq|]. binv.
  etrans; [exact Ha|]. etrans; [by eapply evolves_appendLoop|].
  case_match; simplify_eq; [reflexivity|].
  destruct (followCommit _ _ _) as [n3 [err|]] eqn:E3; simplify_eq;
    by eapply evolves_followCommit.
Qed.

Lemma evolves_adoptConfig N sn n :
  cfg_ok N (Snapshot.Config sn) → evolves N n (adoptConfig sn n).
Proof.
  unfold adoptConfig. intros Hcfg. case_bool_decide as Hm; [reflexivity|].
  destruct Hcfg as [?|Hcfg]; [done|].
  destruct (persistHardState _) as [n1 e] eqn:E. simpl.
  etrans; [|by eapply evolves_persist].
  constructor; simpl; auto; try lia. intros [_ Hd]. by split.
Qed.

Lemma evolves_markPending N sn n : evolves N n (markPending sn n).
Proof. unfold markPending. case_match; ev_frame. Qed.

Lemma evolves_coverCommit N sn n : evolves N n (coverCommit sn n).
Proof. unfold coverCommit. case_match; ev_frame. Qed.

Lemma evolves_applySnapshot N sn n n' :
  cfg_ok N (Snapshot.Config sn) → applySnapshot sn n = Ret n' → evolves N n n'.
Proof.
  unfold applySnapshot. intros Hcfg Hop. apply outcome_bind_Ret in Hop as (l & _ & [= <-]).
  etrans; [|destruct (persistCompactLog _) as [n1 e] eqn:E; by eapply evolves_compact].
  etrans; [|apply evolves_markPending]. etrans; [|by apply evolves_adoptConfig].
  etrans; [|apply evolves_coverCommit]. ev_frame.
Qed.

Lemma evolves_HandleInstallSnapshot N req n n' r :
  cfg_ok N (InstallSnapshotRequest.Config req) →
  HandleInstallSnapshot req n = Ret (n', r) → evolves N n n'.
Proof.
  unfold HandleInstallSnapshot. intros Hcfg Hop.
  case_match; simplify_eq; [reflexivity|]. case_match; simplify_eq; [reflexivity|].
  destruct (adoptTerm _ _) as [n1 e1] eqn:E1. pose proof (evolves_adoptTerm N _ _ _ _ E1) as Ha.
  destruct e1; simplify_eq; [done|].
  case_match; simplify_eq; [done|]. case_match; simplify_eq; [done|].
  etrans; [exact Ha|].
  destruct (tracePersistSnapshot _ _) as [n2 [err|]] eqn:E2; simplify_eq;
    (etrans; [eapply evolves_save_snapshot; [|exact E2]; by intros _|]); [reflexivity|].
  binv. etrans; [eapply evolves_applySnapshot; [|eassumption]; done|ev_frame].
Qed.

Lemma evolves_advanceCommitIndex N now n n' b :
  advanceCommitIndex now n = Ret (n', b) → evolves N n n'.
Proof.
  unfold advanceCommitIndex. intros Hop. binv. case_match; simplify_eq; [|reflexivity].
  destruct (persistHardState _) as [n1 [err|]] eqn:E; simplify_eq;
    (etrans; [|etrans; [by eapply evolves_persist|]]);
    [ev_frame|apply evolves_markDegraded|ev_frame|reflexivity].
Qed.

Lemma evolves_StartCommand N now cmd n n' r :
  StartCommand now cmd n = Ret (n', r) → evolves N n n'.
Proof.
  unfold StartCommand. intros Hop. case_match; simplify_eq; [reflexivity|].
  destruct (persistAppendLog _ _) as [n1 [err|]] eqn:E; binv;
    (etrans; [|etrans; [by eapply evolves_append|]]); [ev_frame|ev_frame|ev_frame|].
  etrans; [|etrans; [by eapply evolves_advanceCommitIndex|case_match; ev_frame]]. ev_frame.
Qed.

Lemma evolves_TakeSnapshot N index data n n' e :
  TakeSnapshot index data n = Ret (n', e) → evolves N n n'.
Proof.
  unfold TakeSnapshot. intros Hop. case_match; simplify_eq; [reflexivity|].
  case_match; simplify_eq; [reflexivity|]. binv.
  match goal with E : persistSnapshot _ _ = (?n1, _) |- _ =>
    trans n1; [eapply (evolves_save_snapshot _ _ n); [|exact E]; intros [? _]; by right|]
  end.
  case_match; binv; [reflexivity|].
  match goal with |- evolves _ _ (persistCompactLog ?m).1 => trans m;
    [ev_frame|destruct (persistCompactLog m) eqn:?; by eapply evolves_compact] end.
Qed.

Lemma evolves_stepDown N t n :
  currentTerm n < t → evolves N n (stepDown t n).
Proof.
  unfold stepDown. intros Ht. destruct (tracePersistHardState _) as [n1 e] eqn:E.
  destruct (with_storage_frame _ _ _ _ E) as [st Hst].
  etrans; [|apply evolves_markDegraded].
  eapply evolves_saved; [exact E|..]; subst n1; simpl; eauto using cov_newer; try lia; done.
Qed.

Lemma evolves_recordProgress N p m n : evolves N n (recordProgress p m n).
Proof. unfold recordProgress. repeat case_match; ev_frame. Qed.

Lemma evolves_finishRPC N p n : evolves N n (finishRPC p n).
Proof. unfold finishRPC. case_match; ev_frame. Qed.

Lemma evolves_finishInstall N p n : evolves N n (finishInstall p n).
Proof. unfold finishInstall. case_match; ev_frame. Qed.

Lemma evolves_onAppendResponse N now p req resp n n' :
  onAppendResponse now p req resp n = Ret n' → evolves N n n'.
Proof.
  unfold onAppendResponse. intros Hop. case_match; zbool; simplify_eq; [by apply evolves_stepDown|].
  repeat (case_match; simplify_eq; [ev_frame|]). binv.
  etrans; [apply evolves_recordProgress|].
  etrans; [by eapply evolves_advanceCommitIndex|]. repeat case_match; ev_frame.
Qed.

Lemma evolves_onInstallResponse N p req resp n :
  evolves N n (onInstallResponse p req resp n).
Proof.
  unfold onInstallResponse. case_match; zbool; [by apply evolves_stepDown|].
  case_match; [reflexivity|]. etrans; [apply evolves_recordProgress|ev_frame].
Qed.

Lemma evolves_appendEntriesRequestForPeer N p n n' r :
  appendEntriesRequestForPeer p n = Ret (n', r) → evolves N n n'.
Proof.
  unfold appendEntriesRequestForPeer. intros Hop.
  repeat (case_match; simplify_eq; [ev_frame|]). binv. ev_frame.
Qed.

Lemma evolves_installSnapshotRequestForPeer N p n n' r :
  installSnapshotRequestForPeer p n = Ret (n', r) → evolves N n n'.
Proof.
  unfold installSnapshotRequestForPeer. intros Hop.
  repeat (case_match; simplify_eq; [ev_frame|]). case_match; simplify_eq. ev_frame.
Qed.

(** ** The candidate *)

Lemma evolves_startCampaign N n n' c :
  currentTerm n < max_int64 → in_i64 (currentTerm n) → role n ≠ Leader →
  startCampaign n = (n', c) →
  match c with
  | None => evolves N n n'
  | Some c =>
      evolves N n (n' <| role := Follower |>) ∧
      role n' = role n ∧ currentTerm n' = currentTerm n + 1 ∧ votedFor n' = id n ∧
      Campaign.term c = currentTerm n' ∧ Campaign.votes c = 1 ∧
      Campaign.majority c = quorumSize n ∧
      (∀ s, storage n' = Some s →
         HardState.CurrentTerm (disk_hard s) = currentTerm n' ∧
         HardState.VotedFor (disk_hard s) = id n)
  end.
Proof.
  unfold startCampaign. intros Hmax Hrange Hrole Hop.
  destruct (tracePersistHardState _) as [n1 e] eqn:E.
  destruct (with_storage_contents _ _ _ _ _ (contract_save_hard _) E)
    as (st & Hst & _ & Hd).
  simpl in *. i64_norm. destruct e as [err|]; simplify_eq.
  - eapply evolves_saved; [exact E|..]; simpl; i64_norm; unfold markDegraded;
      try (case_match; done); eauto using cov_newer; try lia; try done.
    intros. apply cov_newer with (currentTerm n) (votedFor n); [lia|done].
  - split; [|repeat split; auto].
    + eapply evolves_saved; [exact E|..]; simpl; i64_norm; try done; try lia;
        intros; apply cov_newer with (currentTerm n) (votedFor n); (lia || done).
    + unfold disk_hard. destruct (Hd s) as (? & _ & [->|[? _]]); done.
    + unfold disk_hard. destruct (Hd s) as (? & _ & [->|[? _]]); done.
Qed.

(** [becomeLeader] only sets the role and the progress maps. *)
Lemma becomeLeader_fields n :
  ∃ ni mi, becomeLeader n =
    n <| role := Leader |> <| nextIndex := ni |> <| matchIndex := mi |>.
Proof.
  unfold becomeLeader. cbv zeta.
  match goal with |- context [elements ?x] => generalize (elements x) end. intros l.
  induction l as [|p l (ni & mi & IH)]; cbn [foldr].
  - by exists (<[id n:=lastLogIndex n +! 1]> (nextIndex n)), (<[id n:=0]> (matchIndex n)).
  - rewrite IH. by exists (<[p:=lastLogIndex n +! 1]> ni), (<[p:=0]> mi).
Qed.

(** A response that does not win the election evolves the node; one that
    does only changes the role and the progress maps. *)
Lemma evolves_onVoteResponse N resp c n n' c' :
  onVoteResponse resp c n = (n', c') →
  (evolves N n n' ∧ (∀ c1, c' = Some c1 →
     n' = n ∧ role n = Candidate ∧ Campaign.term c1 = Campaign.term c ∧
     Campaign.majority c1 = Campaign.majority c ∧
     Campaign.votes c1 =
       Campaign.votes c + if RequestVoteResponse.VoteGranted resp then 1 else 0)) ∨
  (n' = becomeLeader n ∧ c' = None ∧ role n = Candidate ∧
   Campaign.majority c ≤
     Campaign.votes c + if RequestVoteResponse.VoteGranted resp then 1 else 0).
Proof.
  unfold onVoteResponse. intros Hop. case_match; zbool.
  { left. split; [|by destruct (tracePersistHardState _); simplify_eq].
    change (evolves N n n').
    pose proof (evolves_stepDown N (RequestVoteResponse.Term resp) n ltac:(done)) as Hs.
    unfold stepDown in Hs. destruct (tracePersistHardState _); by simplify_eq. }
  unfold role_eqb in Hop. case_bool_decide as Hr; simpl in Hop; [|left; simplify_eq; by split; [reflexivity|]].
  case_match; zbool; simplify_eq.
  - right. repeat split; auto. case_match; lia.
  - left. split; [reflexivity|]. intros ? [= <-]. repeat split; auto; simpl.
    case_match; lia.
Qed.

(** ** What a granted vote means *)

Lemma grantVote_granted req n n' resp :
  grantVote req n = (n', Val resp) → RequestVoteResponse.VoteGranted resp = true →
  (votedFor n = "" ∨ votedFor n = RequestVoteRequest.CandidateID req) ∧
  upToDate req n = true ∧
  currentTerm n' = currentTerm n ∧ votedFor n' = RequestVoteRequest.CandidateID req ∧
  RequestVoteResponse.Term resp = currentTerm n ∧
  electionTimeoutResetCh n' = true ∧
  ∀ s, storage n' = Some s →
    HardState.CurrentTerm (disk_hard s) = currentTerm n ∧
    HardState.VotedFor (disk_hard s) = RequestVoteRequest.CandidateID req.
Proof.
  unfold grantVote. intros Hop Hg.
  destruct (_ && _)%bool eqn:Hc; [|by simplify_eq].
  apply andb_true_iff in Hc as [Hv Hup].
  destruct (tracePersistHardState _) as [n1 [e|]] eqn:E; [done|].
  destruct (with_storage_contents _ _ _ _ _ (contract_save_hard _) E)
    as (st & -> & _ & Hd).
  simplify_eq/=. split.
  { apply orb_true_iff in Hv as [Hv|Hv]; apply bool_decide_eq_true in Hv; auto. }
  repeat split; auto; unfold disk_hard;
    destruct (Hd s) as (? & _ & [->|[? _]]); done.
Qed.

Lemma HandleRequestVote_granted req n n' resp :
  HandleRequestVote req n = (n', Val resp) → RequestVoteResponse.VoteGranted resp = true →
  currentTerm n ≤ RequestVoteRequest.Term req ∧
  (currentTerm n = RequestVoteRequest.Term req →
     votedFor n = "" ∨ votedFor n = RequestVoteRequest.CandidateID req) ∧
  upToDate req n = true ∧ degraded n = false ∧
  currentTerm n' = RequestVoteRequest.Term req ∧
  votedFor n' = RequestVoteRequest.CandidateID req ∧
  RequestVoteResponse.Term resp = RequestVoteRequest.Term req ∧
  electionTimeoutResetCh n' = true ∧
  ∀ s, storage n' = Some s →
    HardState.CurrentTerm (disk_hard s) = RequestVoteRequest.Term req ∧
    HardState.VotedFor (disk_hard s) = RequestVoteRequest.CandidateID req.
Proof.
  unfold HandleRequestVote. intros Hop Hg.
  destruct (degraded n); [done|].
  destruct (Z.ltb_spec (RequestVoteRequest.Term req) (currentTerm n)); [by simplify_eq|].
  destruct (Z.ltb_spec (currentTerm n) (RequestVoteRequest.Term req)).
  - destruct (tracePersistHardState _) as [n1 [e|]] eqn:E; [done|].
    destruct (with_storage_frame _ _ _ _ E) as [st ->].
    apply grantVote_granted in Hop as (? & ? & ? & ? & ? & ? & ?); [|done].
    simpl in *. repeat split; auto; try lia; naive_solver.
  - apply grantVote_granted in Hop as (? & ? & ? & ? & ? & ? & Hd); [|done].
    assert (currentTerm n = RequestVoteRequest.Term req) as <- by lia.
    repeat split; auto; try lia; by apply Hd.
Qed.

End vote_safety.
