(* ===== verification/Cluster.v ===== *)
(** * Cluster: the replicas together, and election safety

    A cluster is a set of replicas, each a [Node] with the program counter of
    its role loop ([node.go: run]), plus what is in flight between them: the
    RequestVote responses returned so far.  A step is one locked section of
    one replica, or a crash followed by [NewNode] on the surviving storage; the
    handling of a response and the deferred cleanup of its request are two
    sections, and two steps.
    The network is adversarial: RequestVote, AppendEntries and
    InstallSnapshot requests and the leader-side responses are arbitrary
    values, delivered in any order and any number of times; only a
    RequestVote response must have been produced by the replica it comes
    from, for that request.  Storage writes may fail at any point, with or
    without effect.

    Bounds: a campaign is only started while the term is below the largest
    [int64] (the code increments without a check); an InstallSnapshot request
    carries no configuration or one of the cluster's size (membership is
    static); a replica that panics takes no step other than the restart. *)

From S2P Require Import Prelude Types Storage Timing Node Handlers Replication.
From S2P Require Import ApplyLoop VoteSafety.
Open Scope Z_scope.

(** Where the role loop of a replica is. *)
Inductive loop_pc : Type :=
  | Dispatch                      (* about to read the role *)
  | AtFollower
  | AtCandidate                   (* in [runCandidate], before the lock *)
  | InCampaign (c : Campaign) (responded granted : gset string)
  | AtLeader.

Record Replica (S : Type) : Type := mkReplica { rnode : Node S; rloop : loop_pc }.
Arguments mkReplica {S}.
Arguments rnode {S}.
Arguments rloop {S}.

(** [votes] and [elected] are histories: the votes cast, as (term, voter,
    candidate), and the elections won, as (term, leader). *)
Record Cluster (S : Type) : Type := mkCluster {
  replicas : gmap string (Replica S);
  responses : list (string * RequestVoteRequest * RequestVoteResponse);
  votes : list (Z * string * string);
  elected : list (Z * string) }.
Arguments mkCluster {S}.
Arguments replicas {S}.
Arguments responses {S}.
Arguments votes {S}.
Arguments elected {S}.

Section cluster.
Context {S : Type} {HS : Storage S} {HC : StorageContract S}.
Context (members : gset string).
Implicit Types (n : Node S) (C : Cluster S) (i v p : string).

Definition N : Z := Z.of_nat (size members).

(** The operations that neither answer a vote nor run an election. *)
Inductive node_op : Node S → Node S → Prop :=
  | op_append now req n n' r :
      HandleAppendEntries now req n = Ret (n', r) → node_op n n'
  | op_install req n n' r :
      cfg_ok N (InstallSnapshotRequest.Config req) →
      HandleInstallSnapshot req n = Ret (n', r) → node_op n n'
  | op_start now cmd n n' r :
      StartCommand now cmd n = Ret (n', r) → node_op n n'
  | op_snapshot index data n n' e :
      TakeSnapshot index data n = Ret (n', e) → node_op n n'
  | op_install_request p n n' r :
      installSnapshotRequestForPeer p n = Ret (n', r) → node_op n n'
  | op_append_request p n n' r :
      appendEntriesRequestForPeer p n = Ret (n', r) → node_op n n'
  | op_append_response now p req resp n n' :
      onAppendResponse now p req resp n = Ret n' → node_op n n'
  | op_append_finish p n : node_op n (finishRPC p n)
  | op_install_response p req resp n : node_op n (onInstallResponse p req resp n)
  | op_install_finish p n : node_op n (finishInstall p n)
  | op_apply ev now pc n pc' n' msg :
      applyStep ev now pc n = Ret (pc', n', msg) → node_op n n'
  | op_reset n : node_op n (onElectionReset n).

Definition put i (R : Replica S) C : Cluster S :=
  mkCluster (<[i := R]> (replicas C)) (responses C) (votes C) (elected C).

Definition granted_vote v (req : RequestVoteRequest) (r : result RequestVoteResponse)
    : list (Z * string * string) :=
  match r with
  | Val resp => if RequestVoteResponse.VoteGranted resp
                then [(RequestVoteRequest.Term req, v, RequestVoteRequest.CandidateID req)]
                else []
  | Err _ => []
  end.

Definition returned v (req : RequestVoteRequest) (r : result RequestVoteResponse)
    : list (string * RequestVoteRequest * RequestVoteResponse) :=
  match r with Val resp => [(v, req, resp)] | Err _ => [] end.

(** [run]: the loop that dispatches on the role (lines 229-244). *)
Definition dispatch n : loop_pc :=
  match role n with
  | Follower => AtFollower
  | Candidate => AtCandidate
  | Leader => AtLeader
  end.

Inductive cstep : Cluster S → Cluster S → Prop :=
  | step_vote_request C v R req n' r :
      replicas C !! v = Some R →
      HandleRequestVote req (rnode R) = (n', r) →
      cstep C (mkCluster (<[v := mkReplica n' (rloop R)]> (replicas C))
                 (returned v req r ++ responses C)
                 (granted_vote v req r ++ votes C) (elected C))
  | step_node_op C i R n' :
      replicas C !! i = Some R → node_op (rnode R) n' →
      cstep C (put i (mkReplica n' (rloop R)) C)
  | step_dispatch C i R :
      replicas C !! i = Some R → rloop R = Dispatch → degraded (rnode R) = false →
      cstep C (put i (mkReplica (rnode R) (dispatch (rnode R))) C)
  | step_timeout C i R :
      replicas C !! i = Some R → rloop R = AtFollower →
      cstep C (put i (mkReplica (onElectionTimeout (rnode R)) Dispatch) C)
  | step_campaign_failed C i R n' :
      replicas C !! i = Some R → rloop R = AtCandidate →
      0 ≤ currentTerm (rnode R) < max_int64 →
      startCampaign (rnode R) = (n', None) →
      cstep C (put i (mkReplica n' Dispatch) C)
  | step_campaign C i R n' c :
      replicas C !! i = Some R → rloop R = AtCandidate →
      0 ≤ currentTerm (rnode R) < max_int64 →
      startCampaign (rnode R) = (n', Some c) →
      cstep C (mkCluster (<[i := mkReplica n' (InCampaign c ∅ ∅)]> (replicas C))
                 (responses C) ((Campaign.term c, i, i) :: votes C) (elected C))
  | step_vote_response C i R c responded granted p resp n' c' :
      replicas C !! i = Some R → rloop R = InCampaign c responded granted →
      p ∈ peers (rnode R) → p ∉ responded →
      (p, voteRequest c (rnode R), resp) ∈ responses C →
      onVoteResponse resp c (rnode R) = (n', c') →
      let granted' := if RequestVoteResponse.VoteGranted resp
                      then {[p]} ∪ granted else granted in
      let loop' := match c' with
                   | Some c1 => InCampaign c1 ({[p]} ∪ responded) granted'
                   | None => Dispatch
                   end in
      let won := match role (rnode R), role n' with
                 | Candidate, Leader => [(currentTerm n', i)]
                 | _, _ => []
                 end in
      cstep C (mkCluster (<[i := mkReplica n' loop']> (replicas C))
                 (responses C) (votes C) (won ++ elected C))
  | step_campaign_timeout C i R c responded granted :
      replicas C !! i = Some R → rloop R = InCampaign c responded granted →
      cstep C (put i (mkReplica (rnode R) Dispatch) C)
  | step_leader_done C i R :
      replicas C !! i = Some R → rloop R = AtLeader → role (rnode R) ≠ Leader →
      cstep C (put i (mkReplica (rnode R) Dispatch) C)
  | step_restart C i R n' :
      replicas C !! i = Some R →
      NewNode i members (storage (rnode R)) true = Ret (Val n') →
      cstep C (put i (mkReplica n' Dispatch) C).

(** The initial clusters: every member a fresh [NewNode] on a storage whose
    configurations are absent or of the cluster's size. *)
Definition initial C : Prop :=
  (∀ i R, replicas C !! i = Some R →
     i ∈ members ∧ rloop R = Dispatch ∧
     ∃ s, disk_cfg_ok N (contents s) ∧
          NewNode i members (Some s) true = Ret (Val (rnode R))) ∧
  responses C = [] ∧ votes C = [] ∧ elected C = [].

Inductive reachable : Cluster S → Prop :=
  | reach_init C : initial C → reachable C
  | reach_step C C' : reachable C → cstep C C' → reachable C'.

(** ** NewNode *)

Lemma NewNode_spec i s n :
  NewNode i members (Some s) true = Ret (Val n) →
  id n = i ∧ peers n = normalizePeers i members ∧ storage n = Some s ∧
  role n = Follower ∧
  currentTerm n = HardState.CurrentTerm (disk_hard s) ∧
  votedFor n = HardState.VotedFor (disk_hard s) ∧
  degraded n = false.
Proof.
  unfold NewNode, disk_hard. simpl. rewrite contract_load. intros Hop.
  apply outcome_bind_Ret in Hop as (m & Hm & [= <-]).
  unfold restore_log in Hm. apply outcome_bind_Ret in Hm as (t & _ & [= <-]).
  unfold clamp_commit, restore_snapshot, restore_config.
  repeat (case_match; simpl); auto 10.
Qed.

Lemma size_normalizePeers i :
  i ∈ members → size (normalizePeers i members) = (size members - 1)%nat.
Proof.
  intros Hi.
  assert (normalizePeers i members = members ∖ {[i]}) as ->.
  { apply set_eq. intros x. unfold normalizePeers. rewrite elem_of_filter. set_solver. }
  rewrite size_difference by set_solver. by rewrite size_singleton.
Qed.

Lemma NewNode_cfg i s n :
  i ∈ members → disk_cfg_ok N (contents s) →
  NewNode i members (Some s) true = Ret (Val n) → cfg_inv N n.
Proof.
  intros Hi Hok Hop.
  destruct (NewNode_spec _ _ _ Hop) as (_ & _ & Hs & _).
  split; [|rewrite Hs; by intros ? [= <-]].
  destruct Hok as [Hcfg Hsnap].
  assert (0 < size members)%nat.
  { destruct (decide (size members = 0%nat)) as [E|]; [|lia].
    apply size_empty_inv in E. set_solver. }
  unfold NewNode in Hop. simpl in Hop. rewrite contract_load in Hop.
  apply outcome_bind_Ret in Hop as (m & Hm & [= <-]).
  unfold restore_log in Hm. apply outcome_bind_Ret in Hm as (t & _ & [= <-]).
  assert (∀ m : Node S, config (clamp_commit m) = config m) as ->.
  { intros m. unfold clamp_commit. by repeat case_match. }
  simpl. unfold restore_snapshot.
  assert (zlen (Members (config (restore_config (contents s)
    (blank_node i members s <| currentTerm := HardState.CurrentTerm (PersistentState.Hard (contents s)) |>
     <| votedFor := HardState.VotedFor (PersistentState.Hard (contents s)) |>
     <| commitIndex := HardState.CommitIndex (PersistentState.Hard (contents s)) |>)))) = N) as Hc.
  { unfold restore_config. case_bool_decide as Hm; simpl.
    - unfold N, zlen. simpl. 
      change (length (elements (normalizePeers i members))) with (size (normalizePeers i members)).
      rewrite size_normalizePeers by done. lia.
    - by destruct Hcfg. }
  case_match eqn:Hsn; [|done]. case_bool_decide; [done|]. simpl.
  destruct (Hsnap _ eq_refl) as [?|?]; done.
Qed.

(** ** The invariant *)

Record replica_inv C i (R : Replica S) : Prop := {
  ri_member : i ∈ members;
  ri_id : id (rnode R) = i;
  ri_peers : peers (rnode R) = normalizePeers i members;
  ri_storage : is_Some (storage (rnode R));
  ri_cfg : cfg_inv N (rnode R);
  ri_votes : ∀ t c, c ≠ "" → (t, i, c) ∈ votes C → covers t c (rnode R);
  ri_leader : role (rnode R) = Leader → (currentTerm (rnode R), i) ∈ elected C;
  ri_loop :
    match rloop R with
    | Dispatch | AtLeader => True
    | AtFollower | AtCandidate => role (rnode R) ≠ Leader
    | InCampaign c responded granted =>
        role (rnode R) ≠ Leader ∧
        (role (rnode R) = Candidate → currentTerm (rnode R) = Campaign.term c) ∧
        granted ⊆ responded ∧ granted ⊆ peers (rnode R) ∧
        Campaign.votes c = 1 + Z.of_nat (size granted) ∧
        Campaign.majority c = N / 2 + 1 ∧
        (Campaign.term c, i, i) ∈ votes C ∧
        ∀ p, p ∈ granted → (Campaign.term c, p, i) ∈ votes C
    end }.

Record inv C : Prop := {
  inv_replicas : ∀ i R, replicas C !! i = Some R → replica_inv C i R;
  inv_unique : ∀ t v c c', c ≠ "" → c' ≠ "" →
    (t, v, c) ∈ votes C → (t, v, c') ∈ votes C → c = c';
  inv_responses : ∀ v req resp, (v, req, resp) ∈ responses C →
    RequestVoteResponse.VoteGranted resp = true →
    (RequestVoteRequest.Term req, v, RequestVoteRequest.CandidateID req) ∈ votes C;
  inv_elected : ∀ t i, (t, i) ∈ elected C →
    i ∈ members ∧
    ∃ Q : gset string, Q ⊆ members ∧ N / 2 + 1 ≤ Z.of_nat (size Q) ∧
      ∀ p, p ∈ Q → (t, p, i) ∈ votes C }.

(** The role loop of a replica whose node evolves without changing role. *)
Lemma replica_inv_evolves C i R n' :
  replica_inv C i R → evolves N (rnode R) n' → replica_inv C i (mkReplica n' (rloop R)).
Proof.
  intros [] []. constructor; simpl; try congruence; auto.
  - intros Hl. destruct (ev_leader Hl) as [? ->]. auto.
  - destruct (rloop R); auto; try (intros Hl; by apply ri_loop0, ev_leader).
    destruct ri_loop0 as (? & Hc & ?). rewrite ev_peers. split_and!; try tauto.
    intros Hcand. destruct (ev_candidate Hcand) as [? ->]. auto.
Qed.

(** The other replicas only see the histories grow. *)
Lemma replica_inv_grow C C' i R :
  replica_inv C i R →
  (∀ t c, c ≠ "" → (t, i, c) ∈ votes C' → (t, i, c) ∈ votes C) →
  (∀ x, x ∈ votes C → x ∈ votes C') →
  (∀ x, x ∈ elected C → x ∈ elected C') →
  replica_inv C' i R.
Proof.
  intros [] Hv Hgrow He. constructor; auto.
  destruct (rloop R); auto. naive_solver.
Qed.

Lemma inv_put C i R :
  inv C → replica_inv C i R → inv (put i R C).
Proof.
  intros [] HR. constructor; auto. intros j R' Hj. simpl in Hj.
  assert (replica_inv C j R') as HR'.
  { destruct (decide (i = j)) as [<-|]; simplify_map_eq; auto. }
  eapply replica_inv_grow; eauto.
Qed.

Lemma node_op_evolves n n' : node_op n n' → evolves N n n'.
Proof.
  destruct 1; eauto using evolves_HandleAppendEntries, evolves_HandleInstallSnapshot,
    evolves_StartCommand, evolves_TakeSnapshot, evolves_installSnapshotRequestForPeer,
    evolves_appendEntriesRequestForPeer, evolves_onAppendResponse, evolves_finishRPC,
    evolves_onInstallResponse, evolves_finishInstall.
  - unfold applyStep, takeEntry, noteApplied in *.
    repeat (case_match; binv); try reflexivity; by apply evolves_frame.
  - by apply evolves_frame.
Qed.

(** ** The steps preserve the invariant *)

Lemma covers_bound t c n : covers t c n → t ≤ currentTerm n.
Proof. intros [[?|[? ?]] _]; lia. Qed.

Lemma inv_vote_request C v R req n' r :
  inv C → replicas C !! v = Some R → HandleRequestVote req (rnode R) = (n', r) →
  inv (mkCluster (<[v := mkReplica n' (rloop R)]> (replicas C))
         (returned v req r ++ responses C)
         (granted_vote v req r ++ votes C) (elected C)).
Proof.
  intros [HRs Huniq Hresp Hel] HR Hop.
  pose proof (HRs v R HR) as HRv.
  pose proof (replica_inv_evolves C v R n' HRv (evolves_HandleRequestVote _ _ _ _ _ Hop)) as HRv'.
  set (C' := mkCluster _ _ _ _).
  assert (∀ x, x ∈ votes C → x ∈ votes C') as Hgrow by (intros; apply elem_of_app; auto).
  (* a new vote is a granted response of [v] *)
  assert (∀ t w c, (t, w, c) ∈ votes C' → (t, w, c) ∈ votes C ∨
    (w = v ∧ ∃ resp, r = Val resp ∧ RequestVoteResponse.VoteGranted resp = true ∧
       t = RequestVoteRequest.Term req ∧ c = RequestVoteRequest.CandidateID req)) as Hnew.
  { intros t w c [Hin|Hin]%elem_of_app; [|by left]. right.
    destruct r as [resp|e]; simpl in Hin; [|by apply elem_of_nil in Hin].
    case_match; [|by apply elem_of_nil in Hin].
    apply list_elem_of_singleton in Hin. simplify_eq. naive_solver. }
  assert (∀ c, c ≠ "" → ∀ resp, r = Val resp → RequestVoteResponse.VoteGranted resp = true →
    (RequestVoteRequest.Term req, v, c) ∈ votes C → c = RequestVoteRequest.CandidateID req)
    as Hsame.
  { intros c Hne resp -> Hg Hin.
    pose proof (HandleRequestVote_granted _ _ _ _ Hop Hg) as (? & Hold & _).
    destruct (ri_votes _ _ _ HRv _ _ Hne Hin) as [[?|[Heq Hc]] _]; [lia|].
    symmetry in Heq. destruct (Hold Heq); congruence. }
  constructor.
  - intros i R' Hi. simpl in Hi. destruct (decide (v = i)) as [<-|Hne].
    + rewrite lookup_insert_eq in Hi. simplify_eq. destruct HRv'. constructor; auto.
      * intros t c Hne [?|(_ & resp & -> & Hg & -> & ->)]%Hnew; [by auto|]. simpl.
        pose proof (HandleRequestVote_granted _ _ _ _ Hop Hg)
          as (_ & _ & _ & _ & Ht & Hv & _ & _ & Hd).
        split; [by right|]. intros s Hs. destruct (Hd s Hs) as [-> ->]. by right.
      * simpl. destruct (rloop R); auto. simpl in ri_loop0. naive_solver.
    + rewrite lookup_insert_ne in Hi by done. eapply replica_inv_grow; eauto.
      intros t c Hc [?|(-> & _)]%Hnew; done.
  - intros t w c c' Hc Hc' [H1|(-> & r1 & ? & ? & -> & ->)]%Hnew
      [H2|(? & r2 & ? & ? & ? & ?)]%Hnew; subst; eauto.
    symmetry. eauto.
  - intros w q resp [Hin|Hin]%elem_of_app Hg; apply elem_of_app; [left|right; by eauto].
    destruct r as [resp'|e]; simpl in Hin; [|by apply elem_of_nil in Hin].
    apply list_elem_of_singleton in Hin. simplify_eq. simpl. rewrite Hg.
    by apply list_elem_of_singleton.
  - intros t i (? & Q & ? & ? & HQ)%Hel. split; [done|]. exists Q. eauto.
Qed.

Lemma inv_campaign C i R n' c :
  "" ∉ members → inv C → replicas C !! i = Some R → rloop R = AtCandidate →
  0 ≤ currentTerm (rnode R) < max_int64 → startCampaign (rnode R) = (n', Some c) →
  inv (mkCluster (<[i := mkReplica n' (InCampaign c ∅ ∅)]> (replicas C))
         (responses C) ((Campaign.term c, i, i) :: votes C) (elected C)).
Proof.
  intros Hempty [HRs Huniq Hresp Hel] HR Hpc Hterm Hop.
  pose proof (HRs i R HR) as [Hm Hid Hp Hst Hcfg Hvotes Hlead Hloop].
  rewrite Hpc in Hloop.
  destruct (evolves_startCampaign N (rnode R) n' (Some c) ltac:(lia) ltac:(unfold in_i64; lia) Hloop Hop)
    as (Hev & Hrole & Ht & Hv & Hct & Hcv & Hmaj & Hdisk).
  assert (i ≠ "") as Hi by congruence.
  assert (∀ c', c' ≠ "" → (Campaign.term c, i, c') ∉ votes C) as Hfresh.
  { intros c' Hne Hin. apply Hvotes, covers_bound in Hin; [|done]. lia. }
  set (C' := mkCluster _ _ _ _).
  assert (∀ x, x ∈ votes C → x ∈ votes C') as Hgrow by (intros; by apply elem_of_cons; right).
  constructor.
  - intros j R' Hj. simpl in Hj. destruct (decide (i = j)) as [<-|Hne].
    + rewrite lookup_insert_eq in Hj. simplify_eq.
      destruct Hev; simpl in *. constructor; simpl; try congruence; auto.
      * intros t c' Hc' [Heq|Hin]%elem_of_cons.
        -- simplify_eq. split; [right; split; congruence|].
           intros s Hs. right. destruct (Hdisk s Hs). split; congruence.
        -- exact (ev_covers t c' Hc' (Hvotes t c' Hc' Hin)).
      * rewrite Hrole. split_and!; [done|congruence|done|apply empty_subseteq|done| | |].
        -- rewrite Hmaj. unfold quorumSize. by destruct Hcfg as [-> _].
        -- by apply elem_of_cons; left.
        -- intros p []%not_elem_of_empty.
    + rewrite lookup_insert_ne in Hj by done. eapply replica_inv_grow; eauto.
      intros t c' Hc' [?|?]%elem_of_cons; [congruence|done].
  - intros t v c1 c2 H1 H2 [?|Hin1]%elem_of_cons [?|Hin2]%elem_of_cons; simplify_eq; eauto.
    + by destruct (Hfresh c2 H2).
    + by destruct (Hfresh c1 H1).
  - intros v req resp Hin Hg. apply Hgrow. eauto.
  - intros t j (? & Q & ? & ? & HQ)%Hel. split; [done|]. exists Q. eauto.
Qed.

Definition counted (resp : RequestVoteResponse) p (granted : gset string) : gset string :=
  if RequestVoteResponse.VoteGranted resp then {[p]} ∪ granted else granted.

Lemma size_counted resp p granted :
  p ∉ granted →
  Z.of_nat (size (counted resp p granted)) =
    Z.of_nat (size granted) + if RequestVoteResponse.VoteGranted resp then 1 else 0.
Proof.
  intros Hp. unfold counted. case_match; [|lia].
  rewrite size_union by set_solver. rewrite size_singleton. lia.
Qed.

(** The campaign of [i] after one more response. *)
Lemma counted_votes C i R c responded granted p resp :
  inv C → replica_inv C i R → rloop R = InCampaign c responded granted →
  p ∈ peers (rnode R) → (p, voteRequest c (rnode R), resp) ∈ responses C →
  counted resp p granted ⊆ {[p]} ∪ responded ∧
  counted resp p granted ⊆ peers (rnode R) ∧
  ∀ q, q ∈ counted resp p granted → (Campaign.term c, q, i) ∈ votes C.
Proof.
  intros HI HR Hpc Hp Hin. destruct HR. rewrite Hpc in ri_loop0.
  destruct ri_loop0 as (_ & _ & Hsub & Hpe & _ & _ & _ & Hgr).
  unfold counted. destruct (RequestVoteResponse.VoteGranted resp) eqn:Hg;
    [|by split_and!; [set_solver|..]].
  split_and!; [set_solver|set_solver|].
  intros q [->%elem_of_singleton|Hq]%elem_of_union; [|by auto].
  pose proof (inv_responses _ HI _ _ _ Hin Hg) as Hv. simpl in Hv. congruence.
Qed.

Lemma quorum_of_campaign i (R : Replica S) granted :
  i ∈ members → peers (rnode R) = normalizePeers i members →
  granted ⊆ peers (rnode R) →
  {[i]} ∪ granted ⊆ members ∧
  Z.of_nat (size ({[i]} ∪ granted : gset string)) = 1 + Z.of_nat (size granted).
Proof.
  intros Hi Hp Hsub. rewrite Hp in Hsub.
  assert (∀ q, q ∈ granted → q ≠ i ∧ q ∈ members) as Hq.
  { intros q Hq%Hsub. unfold normalizePeers in Hq. by rewrite elem_of_filter in Hq. }
  split; [set_solver|].
  rewrite size_union by set_solver. rewrite size_singleton. lia.
Qed.

Lemma inv_vote_response C i R c responded granted p resp n' c' :
  inv C → replicas C !! i = Some R → rloop R = InCampaign c responded granted →
  p ∈ peers (rnode R) → p ∉ responded →
  (p, voteRequest c (rnode R), resp) ∈ responses C →
  onVoteResponse resp c (rnode R) = (n', c') →
  inv (mkCluster
    (<[i := mkReplica n' match c' with
                         | Some c1 => InCampaign c1 ({[p]} ∪ responded) (counted resp p granted)
                         | None => Dispatch
                         end]> (replicas C))
    (responses C) (votes C)
    (match role (rnode R), role n' with
     | Candidate, Leader => [(currentTerm n', i)]
     | _, _ => []
     end ++ elected C)).
Proof.
  intros HI HR Hpc Hp Hfresh Hin Hop.
  pose proof (inv_replicas _ HI i R HR) as HRi.
  pose proof (counted_votes _ _ _ _ _ _ _ _ HI HRi Hpc Hp Hin) as (Hc1 & Hc2 & Hc3).
  pose proof HI as [HRs Huniq Hresp Hel].
  pose proof HRi as [Hm Hid Hps Hst Hcfg Hvotes Hlead Hloop].
  rewrite Hpc in Hloop. destruct Hloop as (Hnl & Hterm & Hsub & Hpe & Hcv & Hmaj & Hself & Hgr).
  assert (p ∉ granted) as Hpg by set_solver.
  set (won := match role (rnode R) with Candidate => _ | _ => _ end).
  set (C' := mkCluster _ _ _ _).
  assert (∀ R', replica_inv C' i R' → (∀ t j, (t, j) ∈ won →
            ∃ Q : gset string, Q ⊆ members ∧ N / 2 + 1 ≤ Z.of_nat (size Q) ∧
              ∀ q, q ∈ Q → (t, q, j) ∈ votes C) → (∀ t j, (t, j) ∈ won → j = i) →
          inv (mkCluster (<[i := R']> (replicas C)) (responses C) (votes C) (won ++ elected C)))
    as Hwrap.
  { intros R' HR' Hwon Hj. constructor; auto.
    - intros j R'' Hlk. simpl in Hlk. destruct (decide (i = j)) as [<-|]; simplify_map_eq.
      + destruct HR'; by constructor.
      + eapply replica_inv_grow; eauto. intros; by apply elem_of_app; right.
    - intros t j [Hin'|Hin']%elem_of_app; [|by eauto].
      split; [by rewrite (Hj _ _ Hin')|eauto]. }
  destruct (evolves_onVoteResponse N _ _ _ _ _ Hop) as [[Hev Hgo]|(-> & -> & Hcand & Hwin)].
  - assert (won = []) as Hwon.
    { unfold won. destruct (role (rnode R)) eqn:?, (role n') eqn:Hl; try done.
      destruct (ev_leader _ _ _ Hev Hl). congruence. }
    apply Hwrap; rewrite ?Hwon; [|by intros ?? ?%elem_of_nil..].
    pose proof (replica_inv_evolves C i R n' HRi Hev) as [].
    destruct c' as [c1|]; [|by constructor; simpl in *; auto; intros; apply elem_of_app; right; auto].
    destruct (Hgo c1 eq_refl) as (-> & Hcd & Ht1 & Hm1 & Hv1).
    simpl in *. constructor; simpl; auto; [by intros; apply elem_of_app; right; auto|].
    rewrite Ht1, Hm1, Hv1, (size_counted _ _ _ Hpg), Hcv. split_and!; auto; lia.
  - destruct (becomeLeader_fields (rnode R)) as (ni & mi & Hbl).
    destruct (quorum_of_campaign i R (counted resp p granted) Hm Hps Hc2) as [HQ1 HQ2].
    rewrite size_counted in HQ2 by done.
    assert (won = [(Campaign.term c, i)]) as Hwon.
    { unfold won. rewrite Hcand, Hbl. simpl. by rewrite Hterm. }
    apply Hwrap; rewrite ?Hwon.
    + rewrite Hbl. constructor; simpl; auto.
      intros _. rewrite Hterm by done. rewrite Hwon. by apply elem_of_app; left; left.
    + intros t j [= -> ->]%list_elem_of_singleton.
      exists ({[i]} ∪ counted resp p granted). split_and!; [done|lia|].
      intros q [->%elem_of_singleton|?]%elem_of_union; auto.
    + intros t j ?%list_elem_of_singleton. by simplify_eq.
Qed.

Lemma inv_restart C i R n' :
  inv C → replicas C !! i = Some R →
  NewNode i members (storage (rnode R)) true = Ret (Val n') →
  inv (put i (mkReplica n' Dispatch) C).
Proof.
  intros HI HR Hop. apply inv_put; [done|].
  destruct (inv_replicas _ HI i R HR) as [Hm Hid Hps [s Hst] Hcfg Hvotes Hlead Hloop].
  rewrite Hst in Hop.
  destruct (NewNode_spec _ _ _ Hop) as (? & ? & Hs & Hr & Ht & Hv & _).
  constructor; simpl; auto.
  - eapply NewNode_cfg; eauto. by apply Hcfg.
  - intros t c Hne Hin. destruct (Hvotes t c Hne Hin) as [_ Hd]. specialize (Hd s Hst).
    split; [by rewrite Ht, Hv|]. rewrite Hs. by intros ? [= <-].
  - by rewrite Hr.
Qed.

Lemma inv_initial C : initial C → inv C.
Proof.
  intros (HRs & Hr & Hv & He). constructor; rewrite ?Hr, ?Hv, ?He.
  - intros i R HR. destruct (HRs i R HR) as (Hm & Hpc & s & Hok & Hop).
    destruct (NewNode_spec _ _ _ Hop) as (? & ? & Hs & Hrole & _).
    constructor; rewrite ?Hv, ?Hpc, ?Hs; auto.
    + by eapply NewNode_cfg.
    + by intros t c _ ?%elem_of_nil.
    + by rewrite Hrole.
  - by intros t v c c' _ _ ?%elem_of_nil.
  - by intros v req resp ?%elem_of_nil.
  - by intros t i ?%elem_of_nil.
Qed.

Lemma inv_step C C' : "" ∉ members → inv C → cstep C C' → inv C'.
Proof.
  intros Hempty HI Hstep. destruct Hstep.
  - by apply inv_vote_request.
  - apply inv_put; [done|].
    eapply replica_inv_evolves; [by apply inv_replicas|by apply node_op_evolves].
  - apply inv_put; [done|]. destruct (inv_replicas _ HI i R H). constructor; auto.
    simpl. unfold dispatch. by destruct (role (rnode R)).
  - apply inv_put; [done|].
    destruct (inv_replicas _ HI i R H) as [? ? ? ? ? ? ? Hl]. by constructor.
  - apply inv_put; [done|]. pose proof (inv_replicas _ HI i R H) as HR.
    pose proof (ri_loop _ _ _ HR) as Hl. rewrite H0 in Hl.
    pose proof (evolves_startCampaign N (rnode R) n' None ltac:(lia)
                  ltac:(unfold in_i64; lia) Hl H2) as Hev.
    destruct (replica_inv_evolves C i R n' HR Hev). by constructor.
  - by eapply inv_campaign.
  - by eapply inv_vote_response.
  - apply inv_put; [done|]. destruct (inv_replicas _ HI i R H). by constructor.
  - apply inv_put; [done|]. destruct (inv_replicas _ HI i R H). by constructor.
  - by eapply inv_restart.
Qed.

Lemma inv_reachable C : "" ∉ members → reachable C → inv C.
Proof. intros Hempty. induction 1; eauto using inv_initial, inv_step. Qed.

(** Two quorums of the members share a voter. *)
Lemma quorums_intersect (Q1 Q2 : gset string) :
  Q1 ⊆ members → Q2 ⊆ members →
  N / 2 + 1 ≤ Z.of_nat (size Q1) → N / 2 + 1 ≤ Z.of_nat (size Q2) →
  ∃ p, p ∈ Q1 ∧ p ∈ Q2.
Proof.
  intros H1 H2 S1 S2.
  destruct (decide (Q1 ∩ Q2 = ∅)) as [Hd|Hd].
  - assert (size (Q1 ∪ Q2) ≤ size members)%nat by (apply subseteq_size; set_solver).
    rewrite size_union in H by set_solver. unfold N in *.
    pose proof (Z_div_mod_eq_full (Z.of_nat (size members)) 2).
    pose proof (Z.mod_pos_bound (Z.of_nat (size members)) 2). lia.
  - apply set_choose_L in Hd as [p Hp]. exists p. set_solver.
Qed.

(** C5. Election safety: in every reachable cluster, whatever the interleaving
    of requests, responses, timeouts, crashes, restarts and storage failures,
    at most one node has ever been elected leader in a given term. *)
Theorem election_safety C t i j :
  "" ∉ members → reachable C →
  (t, i) ∈ elected C → (t, j) ∈ elected C → i = j.
Proof.
  intros Hempty Hrc Hi Hj. pose proof (inv_reachable C Hempty Hrc) as HI.
  destruct (inv_elected _ HI _ _ Hi) as (Hmi & Q1 & HQ1 & HS1 & HV1).
  destruct (inv_elected _ HI _ _ Hj) as (Hmj & Q2 & HQ2 & HS2 & HV2).
  destruct (quorums_intersect Q1 Q2) as (p & Hp1 & Hp2); auto.
  eapply (inv_unique _ HI t p); eauto; congruence.
Qed.

(** A cluster of one member never has a leader: the majority is only counted
    when the response of a peer arrives, and there is no peer. *)
Lemma single_node_no_leader C i R :
  i ≠ "" → members = {[i]} → reachable C → replicas C !! i = Some R → role (rnode R) ≠ Leader.
Proof.
  intros Hi Hm Hrc HR Hl. assert ("" ∉ members) as Hempty by set_solver.
  assert (∀ C, reachable C → elected C = []) as He.
  { clear C R Hrc HR Hl. induction 1 as [C (_ & _ & _ & ?)|C C' Hrc IH Hstep]; [done|].
    destruct Hstep; try done.
    match goal with HR : replicas C !! ?j = Some R, Hp : p ∈ peers _ |- _ =>
      pose proof (inv_replicas _ (inv_reachable C Hempty Hrc) j R HR) as HI end.
    rewrite (ri_peers _ _ _ HI) in H1. unfold normalizePeers in H1.
    apply elem_of_filter in H1 as [Hne Hp]. pose proof (ri_member _ _ _ HI) as Hmem.
    rewrite Hm, elem_of_singleton in Hp, Hmem. congruence. }
  pose proof (ri_leader _ _ _ (inv_replicas _ (inv_reachable C Hempty Hrc) i R HR) Hl) as H.
  rewrite He in H by done. by apply elem_of_nil in H.
Qed.

(** C6. A node that believes it is leader was elected, by the votes of a
    majority of the members, in the term it is in; so no two replicas are
    leaders of the same term at the same time. *)
Theorem leader_has_quorum C i R :
  "" ∉ members → reachable C → replicas C !! i = Some R → role (rnode R) = Leader →
  (currentTerm (rnode R), i) ∈ elected C ∧
  ∃ Q : gset string, Q ⊆ members ∧ N / 2 + 1 ≤ Z.of_nat (size Q) ∧
    ∀ p, p ∈ Q → (currentTerm (rnode R), p, i) ∈ votes C.
Proof.
  intros Hempty Hrc HR Hl. pose proof (inv_reachable C Hempty Hrc) as HI.
  pose proof (ri_leader _ _ _ (inv_replicas _ HI i R HR) Hl) as He.
  split; [done|]. by destruct (inv_elected _ HI _ _ He).
Qed.

(** C7. Durable votes: every vote a replica has cast in the history of the
    cluster is still accounted for in its memory and on its disk (its term is
    higher, or it is the same and the vote is for that candidate), and it has
    never voted for two candidates in one term. *)
Theorem votes_durable C v R t c c' :
  "" ∉ members → c ≠ "" → c' ≠ "" → reachable C → replicas C !! v = Some R →
  (t, v, c) ∈ votes C →
  covers t c (rnode R) ∧ ((t, v, c') ∈ votes C → c' = c).
Proof.
  intros Hempty Hc Hc' Hrc HR Hv. pose proof (inv_reachable C Hempty Hrc) as HI.
  split; [by eapply (ri_votes _ _ _ (inv_replicas _ HI v R HR))|].
  intros Hv'. by eapply (inv_unique _ HI t v).
Qed.

(** ** The steps as a function, for concrete runs *)

Inductive action : Type :=
  | ADispatch i
  | ATimeout i
  | ACampaign i
  | AVoteRequest v (req : RequestVoteRequest)
  | AVoteResponse i p (resp : RequestVoteResponse)
  | ARestart i.

Definition exec (a : action) C : option (Cluster S) :=
  match a with
  | ADispatch i =>
      R ← replicas C !! i;
      match rloop R, degraded (rnode R) with
      | Dispatch, false => Some (put i (mkReplica (rnode R) (dispatch (rnode R))) C)
      | _, _ => None
      end
  | ATimeout i =>
      R ← replicas C !! i;
      match rloop R with
      | AtFollower => Some (put i (mkReplica (onElectionTimeout (rnode R)) Dispatch) C)
      | _ => None
      end
  | ACampaign i =>
      R ← replicas C !! i;
      match rloop R with
      | AtCandidate =>
          if bool_decide (0 ≤ currentTerm (rnode R) < max_int64) then
            match startCampaign (rnode R) with
            | (n', Some c) =>
                Some (mkCluster (<[i := mkReplica n' (InCampaign c ∅ ∅)]> (replicas C))
                        (responses C) ((Campaign.term c, i, i) :: votes C) (elected C))
            | (n', None) => Some (put i (mkReplica n' Dispatch) C)
            end
          else None
      | _ => None
      end
  | AVoteRequest v req =>
      R ← replicas C !! v;
      let '(n', r) := HandleRequestVote req (rnode R) in
      Some (mkCluster (<[v := mkReplica n' (rloop R)]> (replicas C))
              (returned v req r ++ responses C)
              (granted_vote v req r ++ votes C) (elected C))
  | AVoteResponse i p resp =>
      R ← replicas C !! i;
      match rloop R with
      | InCampaign c responded granted =>
          if bool_decide (p ∈ peers (rnode R)) && bool_decide (p ∉ responded)
             && bool_decide ((p, voteRequest c (rnode R), resp) ∈ responses C)
          then
            let '(n', c') := onVoteResponse resp c (rnode R) in
            Some (mkCluster
              (<[i := mkReplica n' match c' with
                        | Some c1 => InCampaign c1 ({[p]} ∪ responded) (counted resp p granted)
                        | None => Dispatch
                        end]> (replicas C))
              (responses C) (votes C)
              (match role (rnode R), role n' with
               | Candidate, Leader => [(currentTerm n', i)]
               | _, _ => []
               end ++ elected C))
          else None
      | _ => None
      end
  | ARestart i =>
      R ← replicas C !! i;
      match NewNode i members (storage (rnode R)) true with
      | Ret (Val n') => Some (put i (mkReplica n' Dispatch) C)
      | _ => None
      end
  end.

Lemma exec_sound a C C' : exec a C = Some C' → cstep C C'.
Proof.
  destruct a; simpl; intros He; destruct (replicas C !! _) as [R|] eqn:HR; simpl in He;
    [|done| |done| |done| |done| |done| |done].
  - repeat case_match; simplify_eq. by apply step_dispatch.
  - repeat case_match; simplify_eq. by apply step_timeout.
  - destruct (rloop R) eqn:?; try done. case_bool_decide; [|done].
    destruct (startCampaign _) as [n' [c|]] eqn:?; simplify_eq;
      [by eapply step_campaign|by eapply step_campaign_failed].
  - destruct (HandleRequestVote _ _) eqn:?. simplify_eq. by eapply step_vote_request.
  - destruct (rloop R) eqn:?; try done. repeat case_bool_decide; try done. simpl in He.
    destruct (onVoteResponse _ _ _) eqn:?. simplify_eq. by eapply step_vote_response.
  - repeat case_match; simplify_eq. by eapply step_restart.
Qed.

Fixpoint exec_all (l : list action) C : option (Cluster S) :=
  match l with
  | [] => Some C
  | a :: l => C' ← exec a C; exec_all l C'
  end.

Lemma exec_all_reachable l C C' : reachable C → exec_all l C = Some C' → reachable C'.
Proof.
  revert C. induction l as [|a l IH]; intros C Hr He; simpl in He; [by simplify_eq|].
  destruct (exec a C) as [C1|] eqn:E; [|done]. simpl in He.
  eapply IH; [|exact He]. eapply reach_step; [exact Hr|by eapply exec_sound].
Qed.

End cluster.

(** ** A concrete run

    Three replicas on in-memory storages; [n1] times out, campaigns, and is
    elected in term 1 with the vote of [n2]. *)

Definition demo_members : gset string := {["n1"; "n2"; "n3"]}.

Lemma demo_no_empty_id : "" ∉ demo_members.
Proof. unfold demo_members. set_solver. Qed.

Definition demo_replica (i : string) : option (Replica InMemoryStorage.t) :=
  match NewNode i demo_members (Some InMemoryStorage.NewInMemoryStorage) true with
  | Ret (Val n) => Some (mkReplica n Dispatch)
  | _ => None
  end.

Definition demo_cluster : Cluster InMemoryStorage.t :=
  mkCluster (map_imap (λ i _, demo_replica i) (gset_to_gmap () demo_members)) [] [] [].

Lemma demo_initial : initial demo_members demo_cluster.
Proof.
  split; [|done]. intros i R HR. unfold demo_cluster in HR. simpl in HR.
  rewrite map_lookup_imap, lookup_gset_to_gmap in HR.
  destruct (decide (i ∈ demo_members)) as [Hi|Hi].
  - rewrite option_guard_True in HR by done. simpl in HR. unfold demo_replica in HR.
    repeat case_match; simplify_eq. split_and!; [done..|].
    exists InMemoryStorage.NewInMemoryStorage. split; [|done]. split; [by left|done].
  - by rewrite option_guard_False in HR by done.
Qed.

Definition demo_actions : list action :=
  [ADispatch "n1"; ATimeout "n1"; ADispatch "n1"; ACampaign "n1";
   AVoteRequest "n2" (RequestVoteRequest.mk 1 "n1" 0 0);
   AVoteResponse "n1" "n2" (RequestVoteResponse.mk 1 true)].

Lemma demo_run :
  ∃ C R, reachable demo_members C ∧ elected C = [(1, "n1")] ∧
    replicas C !! "n1" = Some R ∧ role (rnode R) = Leader ∧
    votes C = [(1, "n2", "n1"); (1, "n1", "n1")].
Proof.
  destruct (exec_all demo_members demo_actions demo_cluster) as [C|] eqn:E;
    [|by vm_compute in E].
  destruct (replicas C !! "n1") as [R|] eqn:HR.
  2:{ exfalso. revert HR. vm_compute in E. injection E as <-. by vm_compute. }
  exists C, R. split.
  { eapply exec_all_reachable; [|exact E]. apply reach_init, demo_initial. }
  vm_compute in E. injection E as <-. vm_compute in HR. injection HR as <-. done.
Qed.

Lemma election_safety_witness :
  ∃ C, reachable demo_members C ∧ (1, "n1") ∈ elected C ∧
    ∀ j, (1, j) ∈ elected C → "n1" = j.
Proof.
  destruct demo_run as (C & R & HC & He & _). exists C.
  assert ((1, "n1") ∈ elected C) as Hin by (rewrite He; by left).
  split_and!; [done|done|]. intros j Hj.
  apply (election_safety demo_members C 1 "n1" j); auto.
  apply demo_no_empty_id.
Defined.

Lemma leader_has_quorum_witness :
  ∃ C R, reachable demo_members C ∧ replicas C !! "n1" = Some R ∧
    role (rnode R) = Leader ∧ (currentTerm (rnode R), "n1") ∈ elected C.
Proof.
  destruct demo_run as (C & R & HC & He & HR & Hl & _). exists C, R.
  split_and!; [done|done|done|].
  apply (leader_has_quorum demo_members C "n1" R); auto.
  apply demo_no_empty_id.
Defined.

Lemma votes_durable_witness :
  ∃ C R, reachable demo_members C ∧ replicas C !! "n1" = Some R ∧
    covers 1 "n1" (rnode R).
Proof.
  destruct demo_run as (C & R & HC & He & HR & Hl & Hv). exists C, R.
  split_and!; [done|done|].
  apply (votes_durable demo_members C "n1" R 1 "n1" "n2"); auto using demo_no_empty_id; try done.
  rewrite Hv. by right; left.
Defined.
