(* ===== verification/Utf8.v ===== *)
(** * Utf8: bytes, integers and UTF-8

    Go strings are byte sequences; [encoding/json] reads them as UTF-8
    through [unicode/utf8].  [decode_rune] and [encode_rune] are
    [utf8.DecodeRune] and [utf8.EncodeRune]; [utf8] is the set of well-formed
    strings, the concatenations of encoded code points. *)

From Stdlib Require Import Strings.Byte.
From S2P Require Import Prelude Types.
Open Scope Z_scope.

(** ** Bytes as integers *)

Definition b2z (b : byte) : Z := Z.of_N (Byte.to_N b).

(** Go's [byte(z)]: the low eight bits. *)
Definition z2b (z : Z) : byte :=
  match Byte.of_N (Z.to_N (z mod 256)) with Some b => b | None => x00 end.

Lemma b2z_range b : 0 ≤ b2z b < 256.
Proof. unfold b2z. pose proof (Byte.to_N_bounded b). lia. Qed.

Lemma z2b_b2z b : z2b (b2z b) = b.
Proof.
  unfold z2b. rewrite Z.mod_small by apply b2z_range.
  unfold b2z. by rewrite N2Z.id, Byte.of_to_N.
Qed.

Lemma b2z_z2b z : 0 ≤ z < 256 → b2z (z2b z) = z.
Proof.
  intros Hz. unfold z2b. rewrite Z.mod_small by done.
  destruct (Byte.of_N (Z.to_N z)) as [b|] eqn:E.
  - apply Byte.to_of_N in E. unfold b2z. rewrite E. lia.
  - apply Byte.of_N_None_iff in E. lia.
Qed.

Lemma b2z_inj a b : b2z a = b2z b → a = b.
Proof. intros H. by rewrite <- (z2b_b2z a), H, z2b_b2z. Qed.

#[global] Opaque b2z z2b.

(** ** Runes *)

Definition RuneError : Z := 65533.

Definition surrogate (c : Z) : bool := (55296 <=? c) && (c <? 57344).

(** [utf8.ValidRune]. *)
Definition valid_rune (c : Z) : bool :=
  (0 <=? c) && (c <=? 1114111) && negb (surrogate c).

Definition encode_rune (c : Z) : bytes :=
  let c := if valid_rune c then c else RuneError in
  if c <? 128 then [z2b c]
  else if c <? 2048 then [z2b (192 + c / 64); z2b (128 + c mod 64)]
  else if c <? 65536 then
    [z2b (224 + c / 4096); z2b (128 + c / 64 mod 64); z2b (128 + c mod 64)]
  else
    [z2b (240 + c / 262144); z2b (128 + c / 4096 mod 64);
     z2b (128 + c / 64 mod 64); z2b (128 + c mod 64)].

Definition in_range (lo hi x : Z) : bool := (lo <=? x) && (x <=? hi).
Definition cont (x : Z) : bool := in_range 128 191 x.

(** The first rune of a string and its width in bytes; [(RuneError, 1)] on an
    ill-formed sequence, [(RuneError, 0)] on the empty string. *)
Definition decode_rune (p : bytes) : Z * nat :=
  match b2z <$> p with
  | [] => (RuneError, 0%nat)
  | b0 :: t =>
      if b0 <? 128 then (b0, 1%nat) else
      match t with
      | b1 :: t =>
          if in_range 194 223 b0 && cont b1
          then ((b0 - 192) * 64 + (b1 - 128), 2%nat)
          else
          match t with
          | b2 :: t =>
              if in_range 224 239 b0 && cont b2 &&
                 in_range (if b0 =? 224 then 160 else 128) (if b0 =? 237 then 159 else 191) b1
              then ((b0 - 224) * 4096 + (b1 - 128) * 64 + (b2 - 128), 3%nat)
              else
              match t with
              | b3 :: _ =>
                  if in_range 240 244 b0 && cont b2 && cont b3 &&
                     in_range (if b0 =? 240 then 144 else 128)
                              (if b0 =? 244 then 143 else 191) b1
                  then ((b0 - 240) * 262144 + (b1 - 128) * 4096
                        + (b2 - 128) * 64 + (b3 - 128), 4%nat)
                  else (RuneError, 1%nat)
              | [] => (RuneError, 1%nat)
              end
          | [] => (RuneError, 1%nat)
          end
      | [] => (RuneError, 1%nat)
      end
  end.

(** [zcases] decides the integer tests of a goal, [lia] closing the
    impossible branches. *)
Ltac zcases :=
  repeat match goal with
  | |- context [?a =? ?b] => destruct (Z.eqb_spec a b); try lia
  | |- context [?a <? ?b] => destruct (Z.ltb_spec a b); try lia
  | |- context [?a <=? ?b] => destruct (Z.leb_spec a b); try lia
  end; simpl.

Lemma valid_rune_spec c :
  valid_rune c = true → 0 ≤ c ≤ 1114111 ∧ ¬ (55296 ≤ c < 57344).
Proof.
  unfold valid_rune, surrogate. intros H. zbool.
  repeat match goal with H : (_ && _)%bool = false |- _ => apply andb_false_iff in H end.
  split; [lia|]. intros ?. destruct H0; zbool; lia.
Qed.

Lemma div64 x : x = x / 64 * 64 + x mod 64 ∧ 0 ≤ x mod 64 < 64.
Proof. pose proof (Z.div_mod x 64). pose proof (Z.mod_pos_bound x 64). lia. Qed.

Lemma decode_encode_rune c s :
  valid_rune c = true →
  decode_rune (encode_rune c ++ s) = (c, length (encode_rune c)).
Proof.
  intros Hv. unfold encode_rune. rewrite Hv. apply valid_rune_spec in Hv.
  pose proof (div64 c) as [E1 ?]. pose proof (div64 (c / 64)) as [E2 ?].
  pose proof (div64 (c / 4096)) as [E3 ?].
  rewrite (Z.div_div c 64 64) in E2 by lia. rewrite (Z.div_div c 4096 64) in E3 by lia.
  change (64 * 64) with 4096 in *. change (4096 * 64) with 262144 in *.
  generalize dependent (c mod 64). generalize dependent (c / 64 mod 64).
  generalize dependent (c / 4096 mod 64). generalize dependent (c / 262144).
  intros x3 r3 Hc3 ? r2 ? ? r1 ? ?.
  generalize dependent (c / 4096). intros x2 ? ?.
  generalize dependent (c / 64). intros x1 ? ?. subst x2 x1.
  destruct (Z.ltb_spec c 128); [|destruct (Z.ltb_spec c 2048); [|destruct (Z.ltb_spec c 65536)]];
    cbn [app length]; unfold decode_rune, cont, in_range;
    cbn [fmap list_fmap]; rewrite !b2z_z2b by lia; zcases; try (f_equal; lia).
Qed.

Lemma encode_rune_cons c : ∃ b s, encode_rune c = b :: s.
Proof. unfold encode_rune. repeat case_match; eauto. Qed.

Lemma encode_rune_length c : (1 ≤ length (encode_rune c))%nat.
Proof. destruct (encode_rune_cons c) as (?&?&->). simpl. lia. Qed.

(** The first byte of a multi-byte rune is not ASCII. *)
Lemma encode_rune_head c b s :
  valid_rune c = true → encode_rune c = b :: s → 128 ≤ c → 128 ≤ b2z b.
Proof.
  unfold encode_rune. intros Hv. rewrite Hv. apply valid_rune_spec in Hv.
  intros E ?. destruct (Z.ltb_spec c 128); [lia|].
  destruct (Z.ltb_spec c 2048); [|destruct (Z.ltb_spec c 65536)];
    injection E as <- <-; rewrite b2z_z2b; Z.to_euclidean_division_equations; lia.
Qed.

Lemma encode_rune_ascii c : 0 ≤ c < 128 → encode_rune c = [z2b c].
Proof.
  intros. unfold encode_rune.
  assert (valid_rune c = true) as ->.
  { unfold valid_rune, surrogate. zcases. }
  destruct (Z.ltb_spec c 128); [done|lia].
Qed.

Lemma encode_rune_byte b : b2z b < 128 → encode_rune (b2z b) = [b].
Proof.
  intros. rewrite encode_rune_ascii by (pose proof (b2z_range b); lia).
  by rewrite z2b_b2z.
Qed.

Lemma encode_rune_invalid c : valid_rune c = false → encode_rune c = encode_rune RuneError.
Proof. unfold encode_rune. by intros ->. Qed.

(** ** Well-formed strings *)

Inductive utf8 : bytes → Prop :=
  | utf8_nil : utf8 []
  | utf8_cons c s : valid_rune c = true → utf8 s → utf8 (encode_rune c ++ s).

Lemma utf8_rune c s : utf8 s → utf8 (encode_rune c ++ s).
Proof.
  intros. destruct (valid_rune c) eqn:E; [by apply utf8_cons|].
  rewrite (encode_rune_invalid _ E). by apply utf8_cons.
Qed.

Lemma utf8_ascii_cons b s : b2z b < 128 → utf8 s → utf8 (b :: s).
Proof.
  intros Hb ?. change (b :: s) with ([b] ++ s). rewrite <- encode_rune_byte by done.
  by apply utf8_rune.
Qed.

(** [ascii_only s] is a decidable sufficient condition. *)
Definition ascii_only (s : bytes) : bool := forallb (λ b, b2z b <? 128) s.

Lemma utf8_ascii s : ascii_only s = true → utf8 s.
Proof.
  induction s as [|b s IH]; simpl; intros H; [constructor|].
  apply andb_true_iff in H as [Hb Hs]. apply utf8_ascii_cons; [lia|auto].
Qed.

Lemma utf8_app s t : utf8 s → utf8 t → utf8 (s ++ t).
Proof. induction 1; intros; [done|]. rewrite <- app_assoc. by apply utf8_cons; auto. Qed.

Create HintDb utf8.
#[export] Hint Constructors utf8 : utf8.
#[export] Hint Resolve utf8_rune utf8_app utf8_ascii_cons utf8_ascii b2z_range : utf8.
