(* ===== verification/Json.v ===== *)
(** * Json: the part of [encoding/json] the program relies on

    JSON texts as [json.Marshal] prints them and [json.Unmarshal] reads them:
    commands and snapshots of the key-value store and the files of the JSON
    storage go through this codec.  [parse] accepts every JSON text Go accepts
    (white space, all escapes, surrogate pairs, numbers kept as literals, the
    nesting limit of 10000); [print] produces Go's compact output, with HTML
    escaping and ill-formed UTF-8 replaced by U+FFFD.  The main lemma is
    [parse_print]: reading back what was printed. *)

From Stdlib Require Import Strings.Byte Decimal DecimalFacts DecimalPos DecimalN.
From S2P Require Import Prelude Types Utf8.
Open Scope Z_scope.

(** ** Values *)

Inductive json : Type :=
  | JNull
  | JBool (b : bool)
  | JNum (lit : bytes)
  | JStr (s : bytes)
  | JArr (l : list json)
  | JObj (l : list (bytes * json)).

Section json_induction.
Context (P : json → Prop).
Context (Hnull : P JNull) (Hbool : ∀ b, P (JBool b)) (Hnum : ∀ l, P (JNum l))
  (Hstr : ∀ s, P (JStr s)) (Harr : ∀ l, Forall P l → P (JArr l))
  (Hobj : ∀ l, Forall (λ kv, P kv.2) l → P (JObj l)).

Fixpoint json_rect' (v : json) : P v.
Proof.
  destruct v as [|b|n|s|l|l]; [done..| |].
  - apply Harr. induction l; constructor; auto.
  - apply Hobj. induction l as [|[]]; constructor; auto.
Defined.
End json_induction.

Definition lit (s : string) : bytes := String.list_byte_of_string s.

(** ** Printing *)

Definition hex_digit (z : Z) : byte := z2b (if z <? 10 then 48 + z else 87 + z).

(** [\u00XX]. *)
Definition u_escape (z : Z) : bytes :=
  lit "\u" ++ [hex_digit (z / 4096 mod 16); hex_digit (z / 256 mod 16);
               hex_digit (z / 16 mod 16); hex_digit (z mod 16)].

(** The escapes of an ASCII byte, with [SetEscapeHTML] on as in [Marshal]. *)
Definition escape (b : byte) : bytes :=
  let z := b2z b in
  if (z =? 34) || (z =? 92) then [x5c; b]
  else if z =? 8 then lit "\b"
  else if z =? 12 then lit "\f"
  else if z =? 10 then lit "\n"
  else if z =? 13 then lit "\r"
  else if z =? 9 then lit "\t"
  else if (z <? 32) || (z =? 60) || (z =? 62) || (z =? 38) then u_escape z
  else [b].

Fixpoint print_chars (n : nat) (s : bytes) : bytes :=
  match n, s with
  | S n, b :: r =>
      if b2z b <? 128 then escape b ++ print_chars n r else
      let '(c, w) := decode_rune s in
      if (c =? RuneError) && (w =? 1)%nat then lit "\ufffd" ++ print_chars n r
      else if (c =? 8232) || (c =? 8233) then u_escape c ++ print_chars n (drop w s)
      else take w s ++ print_chars n (drop w s)
  | _, _ => []
  end.

Definition print_string (s : bytes) : bytes :=
  x22 :: print_chars (length s) s ++ [x22].

Fixpoint join (sep : byte) (l : list bytes) : bytes :=
  match l with
  | [] => []
  | [x] => x
  | x :: r => x ++ sep :: join sep r
  end.

Fixpoint print (v : json) : bytes :=
  match v with
  | JNull => lit "null"
  | JBool b => if b then lit "true" else lit "false"
  | JNum l => l
  | JStr s => print_string s
  | JArr l => x5b :: join x2c (map print l) ++ [x5d]
  | JObj l =>
      x7b :: join x2c (map (λ kv, print_string kv.1 ++ x3a :: print kv.2) l) ++ [x7d]
  end.

(** ** Reading *)

Definition is_ws (b : byte) : bool :=
  let z := b2z b in (z =? 32) || (z =? 9) || (z =? 10) || (z =? 13).

Fixpoint skip_ws (s : bytes) : bytes :=
  match s with b :: r => if is_ws b then skip_ws r else s | [] => [] end.

Definition unhex (b : byte) : option Z :=
  let z := b2z b in
  if in_range 48 57 z then Some (z - 48)
  else if in_range 97 102 z then Some (z - 87)
  else if in_range 65 70 z then Some (z - 55)
  else None.

Definition hex4 (s : bytes) : option (Z * bytes) :=
  match s with
  | a :: b :: c :: d :: r =>
      match unhex a, unhex b, unhex c, unhex d with
      | Some a, Some b, Some c, Some d => Some (((a * 16 + b) * 16 + c) * 16 + d, r)
      | _, _, _, _ => None
      end
  | _ => None
  end.

Definition unescape (b : byte) : option byte :=
  let z := b2z b in
  if (z =? 34) || (z =? 92) || (z =? 47) then Some b
  else if z =? 98 then Some x08
  else if z =? 102 then Some x0c
  else if z =? 110 then Some x0a
  else if z =? 114 then Some x0d
  else if z =? 116 then Some x09
  else None.

(** The low half of a surrogate pair whose high half is [u]. *)
Definition low_half (u : Z) (s : bytes) : option (Z * bytes) :=
  match s with
  | a :: b :: r =>
      if (b2z a =? 92) && (b2z b =? 117) then
        match hex4 r with
        | Some (v, r') =>
            if (u <? 56320) && (56320 <=? v) && (v <? 57344)
            then Some ((u - 55296) * 1024 + (v - 56320) + 65536, r') else None
        | None => None
        end
      else None
  | _ => None
  end.

(** The next character of a string: its bytes and what follows, or the
    closing quote. *)
Definition read_char (s : bytes) : option (option bytes * bytes) :=
  match s with
  | [] => None
  | b :: r =>
      if b2z b =? 34 then Some (None, r)
      else if b2z b =? 92 then
        match r with
        | e :: r =>
            if b2z e =? 117 then
              match hex4 r with
              | Some (u, r) =>
                  if surrogate u then
                    match low_half u r with
                    | Some (c, r) => Some (Some (encode_rune c), r)
                    | None => Some (Some (encode_rune RuneError), r)
                    end
                  else Some (Some (encode_rune u), r)
              | None => None
              end
            else
              match unescape e with
              | Some c => Some (Some [c], r)
              | None => None
              end
        | [] => None
        end
      else if b2z b <? 32 then None
      else if b2z b <? 128 then Some (Some [b], r)
      else let '(c, w) := decode_rune s in Some (Some (encode_rune c), drop w s)
  end.

Definition emit (out : bytes) (k : option (bytes * bytes)) : option (bytes * bytes) :=
  match k with Some (s, r) => Some (out ++ s, r) | None => None end.

(** The rest of a string after its opening quote: contents and what follows. *)
Fixpoint read_chars (n : nat) (s : bytes) : option (bytes * bytes) :=
  match n with
  | O => None
  | S n =>
      match read_char s with
      | Some (None, r) => Some ([], r)
      | Some (Some out, r) => emit out (read_chars n r)
      | None => None
      end
  end.

Definition read_string (s : bytes) : option (bytes * bytes) := read_chars (length s) s.

Definition is_digit (b : byte) : bool := in_range 48 57 (b2z b).

Fixpoint digits (s : bytes) : bytes * bytes :=
  match s with
  | b :: r => if is_digit b then let '(d, r') := digits r in (b :: d, r') else ([], s)
  | [] => ([], [])
  end.

Definition read_sign (s : bytes) : bytes * bytes :=
  match s with b :: r => if b2z b =? 45 then ([b], r) else ([], s) | [] => ([], []) end.

Definition read_int (s : bytes) : option (bytes * bytes) :=
  match s with
  | b :: r =>
      if b2z b =? 48 then Some ([b], r)
      else if in_range 49 57 (b2z b) then let '(d, r') := digits r in Some (b :: d, r')
      else None
  | [] => None
  end.

Definition read_frac (s : bytes) : option (bytes * bytes) :=
  match s with
  | b :: r =>
      if b2z b =? 46 then
        match digits r with ([], _) => None | (d, r') => Some (b :: d, r') end
      else Some ([], s)
  | [] => Some ([], [])
  end.

Definition read_exp (s : bytes) : option (bytes * bytes) :=
  match s with
  | b :: r =>
      if (b2z b =? 101) || (b2z b =? 69) then
        let '(sg, r) :=
          match r with
          | c :: r' => if (b2z c =? 43) || (b2z c =? 45) then ([c], r') else ([], r)
          | [] => ([], [])
          end in
        match digits r with ([], _) => None | (d, r') => Some (b :: sg ++ d, r') end
      else Some ([], s)
  | [] => Some ([], [])
  end.

(** A number literal at the head of [s]. *)
Definition read_number (s : bytes) : option (bytes * bytes) :=
  let '(sg, s) := read_sign s in
  match read_int s with
  | Some (i, s) =>
      match read_frac s with
      | Some (f, s) =>
          match read_exp s with Some (e, s) => Some (sg ++ i ++ f ++ e, s) | None => None end
      | None => None
      end
  | None => None
  end.

(** [prefix p s] is what follows [p] in [s]. *)
Fixpoint after (p s : bytes) : option bytes :=
  match p, s with
  | [], _ => Some s
  | a :: p, b :: s => if Byte.eqb a b then after p s else None
  | _, [] => None
  end.

Definition word (p : bytes) (v : json) (s : bytes) : option (json * bytes) :=
  match after p s with Some r => Some (v, r) | None => None end.

(** A value, the elements of an array and the members of an object; [n] is
    fuel, [d] the nesting levels still allowed. *)
Fixpoint read_value (n : nat) (d : Z) (s : bytes) : option (json * bytes) :=
  match n with
  | O => None
  | S n =>
      match skip_ws s with
      | [] => None
      | b :: r =>
          let z := b2z b in
          if z =? 34 then
            match read_string r with Some (c, r) => Some (JStr c, r) | None => None end
          else if z =? 91 then
            if d <=? 0 then None else
            match skip_ws r with
            | c :: r' =>
                if b2z c =? 93 then Some (JArr [], r') else
                match read_elems n (d - 1) r with
                | Some (l, r) => Some (JArr l, r) | None => None end
            | [] => None
            end
          else if z =? 123 then
            if d <=? 0 then None else
            match skip_ws r with
            | c :: r' =>
                if b2z c =? 125 then Some (JObj [], r') else
                match read_members n (d - 1) r with
                | Some (l, r) => Some (JObj l, r) | None => None end
            | [] => None
            end
          else if z =? 110 then word (lit "null") JNull (b :: r)
          else if z =? 116 then word (lit "true") (JBool true) (b :: r)
          else if z =? 102 then word (lit "false") (JBool false) (b :: r)
          else match read_number (b :: r) with
               | Some (l, r) => Some (JNum l, r) | None => None end
      end
  end
with read_elems (n : nat) (d : Z) (s : bytes) : option (list json * bytes) :=
  match n with
  | O => None
  | S n =>
      match read_value n d s with
      | Some (v, r) =>
          match skip_ws r with
          | c :: r =>
              if b2z c =? 93 then Some ([v], r)
              else if b2z c =? 44 then
                match read_elems n d r with
                | Some (l, r) => Some (v :: l, r) | None => None end
              else None
          | [] => None
          end
      | None => None
      end
  end
with read_members (n : nat) (d : Z) (s : bytes) : option (list (bytes * json) * bytes) :=
  match n with
  | O => None
  | S n =>
      match skip_ws s with
      | q :: r =>
          if negb (b2z q =? 34) then None else
          match read_string r with
          | Some (k, r) =>
              match skip_ws r with
              | c :: r =>
                  if negb (b2z c =? 58) then None else
                  match read_value n d r with
                  | Some (v, r) =>
                      match skip_ws r with
                      | c :: r =>
                          if b2z c =? 125 then Some ([(k, v)], r)
                          else if b2z c =? 44 then
                            match read_members n d r with
                            | Some (l, r) => Some ((k, v) :: l, r) | None => None end
                          else None
                      | [] => None
                      end
                  | None => None
                  end
              | [] => None
              end
          | None => None
          end
      | [] => None
      end
  end.

Definition max_nesting : Z := 10000.

(** A whole JSON text. *)
Definition parse (s : bytes) : option json :=
  match read_value (S (2 * length s)) max_nesting s with
  | Some (v, r) => match skip_ws r with [] => Some v | _ => None end
  | None => None
  end.

(** [q s] is [s] with its apostrophes turned into quotation marks. *)
Definition q (s : string) : bytes :=
  map (λ b, if Byte.eqb b x27 then x22 else b) (lit s).

Example parse_ex :
  parse (q " {'a' : [1, -2.5e3, 'x\u0041\n', null, true ] } ") =
  Some (JObj [(lit "a", JArr [JNum (lit "1"); JNum (lit "-2.5e3"); JStr (lit "xA" ++ [x0a]);
                              JNull; JBool true])]).
Proof. vm_compute. reflexivity. Qed.

Example print_ex :
  print (JObj [(lit "k<", JStr (lit "\" ++ [x0a; xff])); (lit "n", JArr [JNull; JNum (lit "7")])]) =
  q "{'k\u003c':'\\\n\ufffd','n':[null,7]}".
Proof. vm_compute. reflexivity. Qed.

(** ** Reading back what was printed *)

(** A printed value is followed by the end, a comma or a closing bracket. *)
Definition delim (rest : bytes) : Prop :=
  match rest with [] => True | b :: _ => b = x2c ∨ b = x5d ∨ b = x7d end.

Definition uint_lit (d : bytes) : Prop :=
  d = [x30] ∨ ∃ b ds, d = b :: ds ∧ in_range 49 57 (b2z b) = true ∧ forallb is_digit ds = true.

Definition int_lit (l : bytes) : Prop := uint_lit l ∨ ∃ d, l = x2d :: d ∧ uint_lit d.

(** The values [parse] reads back: strings are UTF-8, numbers are integer
    literals, nesting is at most [d]. *)
Inductive json_ok : Z → json → Prop :=
  | ok_null d : json_ok d JNull
  | ok_bool d b : json_ok d (JBool b)
  | ok_num d l : int_lit l → json_ok d (JNum l)
  | ok_str d s : utf8 s → json_ok d (JStr s)
  | ok_arr d l : 0 < d → Forall (json_ok (d - 1)) l → json_ok d (JArr l)
  | ok_obj d l : 0 < d → Forall (λ kv, utf8 kv.1 ∧ json_ok (d - 1) kv.2) l →
      json_ok d (JObj l).

Lemma digits_app ds rest :
  forallb is_digit ds = true → delim rest → digits (ds ++ rest) = (ds, rest).
Proof.
  intros Hds Hr. induction ds as [|b ds IH]; simpl in *.
  - destruct rest as [|b r]; [done|]. simpl in *. by destruct Hr as [-> | [-> | ->]].
  - apply andb_true_iff in Hds as [-> Hds]. by rewrite IH.
Qed.

Lemma read_number_uint d rest :
  uint_lit d → delim rest →
  read_int (d ++ rest) = Some (d, rest) ∧ read_frac rest = Some ([], rest) ∧
  read_exp rest = Some ([], rest).
Proof.
  intros Hd Hr. split.
  - destruct Hd as [-> | (b & ds & -> & Hb & Hds)]; [done|]. simpl. rewrite Hb.
    destruct (Z.eqb_spec (b2z b) 48) as [E|_]; [by rewrite E in Hb|].
    by rewrite digits_app.
  - destruct rest as [|b r]; [done|]. by destruct Hr as [-> | [-> | ->]].
Qed.

Lemma read_number_lit l rest :
  int_lit l → delim rest → read_number (l ++ rest) = Some (l, rest).
Proof.
  intros Hl Hr. unfold read_number.
  assert (∀ d sg, uint_lit d → read_sign (l ++ rest) = (sg, d ++ rest) → sg ++ d = l →
    (let '(sg, s) := read_sign (l ++ rest) in
     match read_int s with
     | Some (i, s) => match read_frac s with
       | Some (f, s) => match read_exp s with
         | Some (e, s) => Some (sg ++ i ++ f ++ e, s) | None => None end
       | None => None end
     | None => None end) = Some (l, rest)) as Hgo.
  { intros d sg Hd -> <-. destruct (read_number_uint d rest Hd Hr) as (-> & -> & ->).
    simpl. by rewrite app_nil_r. }
  destruct Hl as [Hu | (d & -> & Hd)]; [|by apply (Hgo d [x2d])].
  apply (Hgo l []); [done| |done].
  destruct Hu as [-> | (b & ds & -> & Hb & _)]; [done|]. simpl.
  destruct (Z.eqb_spec (b2z b) 45) as [E|_]; [by rewrite E in Hb|done].
Qed.

Lemma read_escape b t :
  (b2z b <? 128) = true → read_char (escape b ++ t) = Some (Some [b], t).
Proof.
  destruct b; intros H; first [vm_compute in H; discriminate H | vm_compute; reflexivity].
Qed.

Lemma read_separator c t :
  c = 8232 ∨ c = 8233 → read_char (u_escape c ++ t) = Some (Some (encode_rune c), t).
Proof. intros [-> | ->]; vm_compute; reflexivity. Qed.

Lemma encode_rune_wide c :
  valid_rune c = true → 128 ≤ c → (length (encode_rune c) =? 1)%nat = false.
Proof.
  intros Hv ?. unfold encode_rune. rewrite Hv.
  destruct (Z.ltb_spec c 128); [lia|]. by repeat case_match.
Qed.

(** The printed form of a rune that needs no escape is read back as it is. *)
Lemma read_rune c t :
  valid_rune c = true → 128 ≤ c →
  read_char (encode_rune c ++ t) = Some (Some (encode_rune c), t).
Proof.
  intros Hv Hc. pose proof (decode_encode_rune c t Hv) as Hd.
  destruct (encode_rune_cons c) as (b & s & E).
  pose proof (encode_rune_head c b s Hv E Hc) as Hb.
  unfold read_char. rewrite E in *. cbn [app] in *.
  rewrite !(proj2 (Z.eqb_neq (b2z b) _)) by lia. rewrite !(proj2 (Z.ltb_ge (b2z b) _)) by lia.
  rewrite Hd, E. cbn [length drop]. by rewrite drop_app_length.
Qed.

(** One step of the printer on a rune. *)
Definition print_rune (c : Z) : bytes :=
  if c <? 128 then escape (z2b c)
  else if (c =? 8232) || (c =? 8233) then u_escape c else encode_rune c.

Lemma print_chars_rune c m s :
  valid_rune c = true →
  print_chars (S m) (encode_rune c ++ s) = print_rune c ++ print_chars m s.
Proof.
  intros Hv. unfold print_rune. destruct (Z.ltb_spec c 128).
  - pose proof (valid_rune_spec _ Hv). rewrite encode_rune_ascii by lia. simpl.
    rewrite b2z_z2b by lia. destruct (Z.ltb_spec c 128); [done|lia].
  - pose proof (decode_encode_rune c s Hv) as Hd.
    pose proof (encode_rune_wide c Hv ltac:(lia)) as Hw.
    destruct (encode_rune_cons c) as (b & s' & E).
    pose proof (encode_rune_head c b s' Hv E ltac:(lia)) as Hb.
    cbn [print_chars]. rewrite E in *. cbn [app] in *.
    rewrite (proj2 (Z.ltb_ge (b2z b) _)) by lia.
    rewrite Hd, Hw, andb_false_r.
    replace (drop (length (b :: s')) (b :: s' ++ s)) with s
      by (cbn [length drop]; by rewrite drop_app_length).
    replace (take (length (b :: s')) (b :: s' ++ s)) with (b :: s')
      by (cbn [length take]; by rewrite take_app_length).
    by destruct ((c =? 8232) || (c =? 8233)).
Qed.

Lemma read_print_rune c t :
  valid_rune c = true → read_char (print_rune c ++ t) = Some (Some (encode_rune c), t).
Proof.
  intros Hv. unfold print_rune. pose proof (valid_rune_spec _ Hv). destruct (Z.ltb_spec c 128).
  - rewrite encode_rune_ascii by lia. apply read_escape.
    rewrite b2z_z2b by lia. by apply Z.ltb_lt.
  - destruct ((c =? 8232) || (c =? 8233)) eqn:E.
    + apply read_separator. apply orb_true_iff in E as [E|E]; zbool; auto.
    + by apply read_rune.
Qed.

Lemma print_rune_length c : valid_rune c = true → (1 ≤ length (print_rune c))%nat.
Proof.
  intros. unfold print_rune, escape, u_escape, lit.
  repeat case_match; simpl; try lia. apply encode_rune_length.
Qed.

Lemma read_print_chars s :
  utf8 s → ∀ m n rest, (length s ≤ m)%nat → (length (print_chars m s) < n)%nat →
  read_chars n (print_chars m s ++ x22 :: rest) = Some (s, rest).
Proof.
  induction 1 as [|c s Hc Hs IH]; intros m n rest Hm Hn.
  - destruct n; [lia|]. by destruct m.
  - rewrite length_app in Hm. pose proof (encode_rune_length c).
    destruct m as [|m]; [lia|]. rewrite print_chars_rune in * by done.
    rewrite length_app in Hn. pose proof (print_rune_length c Hc).
    destruct n as [|n]; [lia|].
    rewrite <- app_assoc. cbn [read_chars]. rewrite read_print_rune by done.
    rewrite IH by lia. done.
Qed.

Lemma read_print_string s rest :
  utf8 s → read_string (print_chars (length s) s ++ x22 :: rest) = Some (s, rest).
Proof.
  intros. apply read_print_chars; [done|lia|]. rewrite length_app. simpl. lia.
Qed.

Lemma skip_ws_head b r : is_ws b = false → skip_ws (b :: r) = b :: r.
Proof. simpl. by intros ->. Qed.

(** The first byte of a number literal selects the number branch. *)
Lemma int_lit_head l :
  int_lit l → ∃ b r, l = b :: r ∧ is_ws b = false ∧
    (b2z b =? 34) = false ∧ (b2z b =? 91) = false ∧ (b2z b =? 123) = false ∧
    (b2z b =? 110) = false ∧ (b2z b =? 116) = false ∧ (b2z b =? 102) = false ∧
    (b2z b =? 93) = false.
Proof.
  intros [[-> | (b & ds & -> & Hb & _)] | (d & -> & _)]; [by do 2 eexists| |by do 2 eexists].
  exists b, ds. unfold in_range in Hb. apply andb_true_iff in Hb as [??]. zbool.
  unfold is_ws. rewrite !(proj2 (Z.eqb_neq (b2z b) _)) by lia. done.
Qed.

(** A printed value starts with a byte that is neither white space nor a
    closing bracket. *)
Lemma print_head d v :
  json_ok d v → ∃ b r, print v = b :: r ∧ is_ws b = false ∧ (b2z b =? 93) = false.
Proof.
  destruct 1 as [|d b|d l Hl| | |]; try (by do 2 eexists).
  - destruct b; by do 2 eexists.
  - destruct (int_lit_head l Hl) as (b & r & E & ? & _ & _ & _ & _ & _ & _ & ?).
    by exists b, r.
Qed.

Definition reads (d : Z) (v : json) : Prop :=
  ∀ n rest, (length (print v) ≤ n)%nat → delim rest →
  read_value n d (print v ++ rest) = Some (v, rest).

Lemma reads_num d l : int_lit l → reads d (JNum l).
Proof.
  intros Hl n rest Hn Hr. pose proof (read_number_lit l rest Hl Hr) as Hread.
  destruct (int_lit_head l Hl) as (b & r & -> & Hws & H1 & H2 & H3 & H4 & H5 & H6 & _).
  simpl in Hn. destruct n as [|n]; [lia|]. cbn [print read_value app].
  rewrite skip_ws_head, H1, H2, H3, H4, H5, H6 by done.
  cbn [app] in Hread. by rewrite Hread.
Qed.

Lemma reads_str d s : utf8 s → reads d (JStr s).
Proof.
  intros Hs n rest Hn Hr. simpl in Hn. destruct n as [|n]; [lia|].
  cbn [print read_value print_string app].
  change (skip_ws (x22 :: ?t)) with (x22 :: t). cbn -[read_string print_chars].
  rewrite <- app_assoc. cbn [app]. by rewrite read_print_string.
Qed.

(** Elements separated by commas and closed by a bracket. *)
Lemma reads_elems d l n rest :
  l ≠ [] → Forall (json_ok d) l → Forall (reads d) l →
  (length (join x2c (map print l)) < n)%nat →
  read_elems n d (join x2c (map print l) ++ x5d :: rest) = Some (l, rest).
Proof.
  intros Hne Hok Hl. revert n Hne. induction Hl as [|v l Hv Hl IH]; intros n Hne Hn; [done|].
  inversion_clear Hok as [|?? Hokv Hokl]. destruct n as [|n]; [lia|].
  destruct l as [|v' l'].
  - simpl in Hn |- *. rewrite Hv; [|lia|by right; left]. done.
  - remember (v' :: l') as l eqn:El.
    assert (join x2c (map print (v :: l)) = print v ++ x2c :: join x2c (map print l)) as Ej
      by by subst l.
    rewrite Ej, length_app in *. simpl in Hn.
    rewrite <- app_assoc. cbn [read_elems app].
    rewrite Hv; [|lia|by left].
    change (skip_ws (x2c :: ?t)) with (x2c :: t). cbn -[read_elems join].
    rewrite IH; [done|done|by subst l|lia].
Qed.

(** Members likewise. *)
Definition print_member (kv : bytes * json) : bytes :=
  print_string kv.1 ++ x3a :: print kv.2.

Lemma print_member_eq k v :
  print_member (k, v) = x22 :: print_chars (length k) k ++ x22 :: x3a :: print v.
Proof. unfold print_member, print_string. cbn [fst snd app]. by rewrite <- app_assoc. Qed.

Lemma reads_members d l n rest :
  l ≠ [] → Forall (λ kv, utf8 kv.1 ∧ json_ok d kv.2) l → Forall (λ kv, reads d kv.2) l →
  (length (join x2c (map print_member l)) < n)%nat →
  read_members n d (join x2c (map print_member l) ++ x7d :: rest) = Some (l, rest).
Proof.
  intros Hne Hok Hl. revert n Hne.
  induction Hl as [|[k v] l Hv Hl IH]; intros n Hne Hn; [done|].
  inversion_clear Hok as [|?? [Hk Hokv] Hokl]. simpl in Hk, Hokv, Hv.
  destruct n as [|n]; [lia|].
  assert (∃ sep tail, join x2c (map print_member ((k, v) :: l)) ++ x7d :: rest =
      x22 :: print_chars (length k) k ++ x22 :: x3a :: print v ++ sep :: tail ∧
      (length (print v) ≤ n)%nat ∧
      ((l = [] ∧ sep = x7d ∧ tail = rest) ∨
       (l ≠ [] ∧ sep = x2c ∧ tail = join x2c (map print_member l) ++ x7d :: rest ∧
        (length (join x2c (map print_member l)) < n)%nat)))
    as (sep & tail & -> & Hlen & Hsep).
  { destruct l as [|kv' l'].
    - exists x7d, rest. cbn [map join] in *. rewrite print_member_eq in *.
      cbn [length] in Hn. rewrite length_app in Hn. cbn [length] in Hn.
      split; [|split; [lia|by left]]. cbn [app]. by rewrite <- !app_assoc.
    - remember (kv' :: l') as l eqn:El.
      exists x2c, (join x2c (map print_member l) ++ x7d :: rest).
      assert (join x2c (map print_member ((k, v) :: l)) =
        print_member (k, v) ++ x2c :: join x2c (map print_member l)) as Ej by by subst l.
      rewrite Ej, print_member_eq in *. rewrite length_app in Hn. cbn [length] in Hn.
      rewrite length_app in Hn. cbn [length] in Hn. split; [|split; [lia|]].
      + cbn [app]. by rewrite <- !app_assoc.
      + right. split_and!; [by subst l|done|done|lia]. }
  cbn [read_members]. change (skip_ws (x22 :: ?t)) with (x22 :: t). cbn [negb].
  change (b2z x22 =? 34) with true. cbn [negb].
  rewrite read_print_string by done.
  change (skip_ws (x3a :: ?t)) with (x3a :: t). change (b2z x3a =? 58) with true. cbn [negb].
  destruct Hsep as [(-> & -> & ->) | (? & -> & -> & ?)].
  - rewrite Hv; [done|lia|by right; right].
  - rewrite Hv; [|lia|by left].
    change (skip_ws (x2c :: ?t)) with (x2c :: t). cbn -[read_members join].
    rewrite IH; [done|done|done|lia].
Qed.

(** Opening a non-empty array or object. *)
Lemma read_open_array n d b t :
  0 < d → is_ws b = false → (b2z b =? 93) = false →
  read_value (S n) d (x5b :: b :: t) =
  match read_elems n (d - 1) (b :: t) with Some (l, r) => Some (JArr l, r) | None => None end.
Proof.
  intros Hd Hws Hb. cbn -[read_elems skip_ws]. rewrite (proj2 (Z.leb_gt d 0)) by done.
  change (skip_ws (x5b :: ?r)) with (x5b :: r). cbn -[read_elems skip_ws].
  by rewrite skip_ws_head, Hb by done.
Qed.

Lemma read_open_object n d t :
  0 < d →
  read_value (S n) d (x7b :: x22 :: t) =
  match read_members n (d - 1) (x22 :: t) with Some (l, r) => Some (JObj l, r) | None => None end.
Proof. intros Hd. cbn -[read_members]. by rewrite (proj2 (Z.leb_gt d 0)) by done. Qed.

Lemma read_empty n d rest :
  0 < d →
  read_value (S n) d (x5b :: x5d :: rest) = Some (JArr [], rest) ∧
  read_value (S n) d (x7b :: x7d :: rest) = Some (JObj [], rest).
Proof. intros Hd. cbn. by rewrite (proj2 (Z.leb_gt d 0)) by done. Qed.

Lemma read_print v : ∀ d, json_ok d v → reads d v.
Proof.
  induction v as [|b|l|s|l IH|l IH] using json_rect'; intros d Hok.
  - intros n rest Hn _. simpl in Hn. by destruct n; [lia|].
  - intros n rest Hn _. destruct b; simpl in Hn; by destruct n; [lia|].
  - inversion_clear Hok. by apply reads_num.
  - inversion_clear Hok. by apply reads_str.
  - inversion_clear Hok as [| | | |?? Hd Hl|]. intros n rest Hn Hr.
    simpl in Hn. rewrite length_app in Hn. simpl in Hn. destruct n as [|n]; [lia|].
    cbn [print app]. rewrite <- app_assoc. cbn [app].
    destruct l as [|v l]; [by apply read_empty|].
    assert (∃ b t, join x2c (map print (v :: l)) ++ x5d :: rest = b :: t ∧
      is_ws b = false ∧ (b2z b =? 93) = false) as (b & t & E & Hws & Hb).
    { inversion_clear Hl as [|?? Hv _]. destruct (print_head _ _ Hv) as (b & r & E & ? & ?).
      destruct l; simpl; rewrite E; by do 2 eexists. }
    rewrite E, read_open_array by done. rewrite <- E.
    rewrite reads_elems; [done|done|done| |lia].
    apply Forall_forall. rewrite Forall_forall in IH, Hl. auto.
  - inversion_clear Hok as [| | | | |?? Hd Hl]. intros n rest Hn Hr.
    simpl in Hn. rewrite length_app in Hn. simpl in Hn. destruct n as [|n]; [lia|].
    cbn [print app]. rewrite <- app_assoc. cbn [app].
    change (map _ l) with (map print_member l) in *.
    destruct l as [|kv l]; [by apply read_empty|].
    assert (∃ t, join x2c (map print_member (kv :: l)) ++ x7d :: rest = x22 :: t) as (t & E).
    { destruct l; by eexists. }
    rewrite E, read_open_object by done. rewrite <- E.
    rewrite reads_members; [done|done|done| |lia].
    apply Forall_forall. rewrite Forall_forall in IH, Hl. naive_solver.
Qed.

Lemma parse_print v : json_ok max_nesting v → parse (print v) = Some v.
Proof.
  intros Hok. unfold parse.
  pose proof (read_print v _ Hok (S (2 * length (print v))) [] ltac:(lia) I) as H.
  rewrite app_nil_r in H. by rewrite H.
Qed.

(** ** Every string that was read is UTF-8 *)

Inductive strings_ok : json → Prop :=
  | sok_null : strings_ok JNull
  | sok_bool b : strings_ok (JBool b)
  | sok_num l : strings_ok (JNum l)
  | sok_str s : utf8 s → strings_ok (JStr s)
  | sok_arr l : Forall strings_ok l → strings_ok (JArr l)
  | sok_obj l : Forall (λ kv, utf8 kv.1 ∧ strings_ok kv.2) l → strings_ok (JObj l).

Lemma encode_rune_utf8 c : utf8 (encode_rune c).
Proof. rewrite <- (app_nil_r (encode_rune c)). apply utf8_rune. constructor. Qed.

Lemma unescape_ascii e c : unescape e = Some c → utf8 [c].
Proof.
  intros H. apply utf8_ascii_cons; [|constructor]. revert H. unfold unescape.
  intros H. repeat case_match; simplify_eq; try done; zbool.
  repeat match goal with H : (_ || _)%bool = true |- _ => apply orb_true_iff in H as [H|H] end;
    zbool; lia.
Qed.

Lemma read_char_utf8 s o r : read_char s = Some (Some o, r) → utf8 o.
Proof.
  unfold read_char. intros H.
  repeat case_match; simplify_eq; eauto using encode_rune_utf8, unescape_ascii.
  zbool. apply utf8_ascii_cons; [done|constructor].
Qed.

Lemma read_chars_utf8 n s c r : read_chars n s = Some (c, r) → utf8 c.
Proof.
  revert s c r. induction n as [|n IH]; intros s c r; simpl; [done|].
  destruct (read_char s) as [[[o|] t]|] eqn:E; [|intros; simplify_eq; constructor|done].
  unfold emit. destruct (read_chars n t) as [[c' r']|] eqn:E'; [|done]. intros [= <- <-].
  apply utf8_app; [by eapply read_char_utf8|by eapply IH].
Qed.

Lemma read_ok n : ∀ d s,
  (∀ v r, read_value n d s = Some (v, r) → strings_ok v) ∧
  (∀ l r, read_elems n d s = Some (l, r) → Forall strings_ok l) ∧
  (∀ l r, read_members n d s = Some (l, r) → Forall (λ kv, utf8 kv.1 ∧ strings_ok kv.2) l).
Proof.
  induction n as [|n IH]; intros d s; [done|].
  assert (∀ d s v r, read_value n d s = Some (v, r) → strings_ok v) as IHv by apply IH.
  assert (∀ d s l r, read_elems n d s = Some (l, r) → Forall strings_ok l) as IHe by apply IH.
  assert (∀ d s l r, read_members n d s = Some (l, r) →
    Forall (λ kv, utf8 kv.1 ∧ strings_ok kv.2) l) as IHm by apply IH.
  clear IH. split_and!; intros v r; cbn [read_value read_elems read_members]; unfold word, read_string;
    intros H; repeat case_match; simplify_eq/=;
    repeat first [constructor | split]; eauto using read_chars_utf8.
Qed.

Lemma parse_strings_ok s v : parse s = Some v → strings_ok v.
Proof.
  unfold parse. intros H. repeat case_match; simplify_eq. by eapply (proj1 (read_ok _ _ _)).
Qed.
