(* ===== verification/GoStrings.v ===== *)
(** * GoStrings: the string functions the program calls

    Go strings are byte sequences, here [string]s of 8-bit characters.  This
    file has the functions of [strings] and [sort] the program uses:
    [sort.Strings], [strings.TrimSpace], [Fields], [Split], [Cut], [Join], [ToLower],
    [TrimPrefix], [Contains] and [ReplaceAll], with the lemmas the components share.
    White space is Unicode's; the letters [ToLower] changes are the ASCII
    ones. *)

From Stdlib Require Import Strings.String Strings.Ascii.
From stdpp Require Import sorting.
From S2P Require Import Prelude.
Open Scope Z_scope.

(** ** Ordering: bytewise, as Go compares strings *)

Definition string_le (a b : string) : Prop := String.leb a b = true.

#[export] Instance string_le_dec a b : Decision (string_le a b).
Proof. unfold string_le. apply _. Defined.

Lemma ascii_compare_spec a b :
  Ascii.compare a b = (Ascii.N_of_ascii a ?= Ascii.N_of_ascii b)%N.
Proof. done. Qed.

Lemma string_compare_trans a b c o :
  o ≠ Gt → String.compare a b ≠ Gt → String.compare b c = o → String.compare a c ≠ Gt.
Proof.
  intros Ho. revert b c. induction a as [|x a IH]; intros b c Hab Hbc.
  { destruct c; done. }
  destruct b as [|y b]; [done|]. destruct c as [|z c]; [by subst o|].
  simpl in *. rewrite ascii_compare_spec in *.
  destruct (N.compare_spec (Ascii.N_of_ascii x) (Ascii.N_of_ascii y)) as [E1|E1|E1]; [..|done];
    destruct (N.compare_spec (Ascii.N_of_ascii y) (Ascii.N_of_ascii z)) as [E2|E2|E2];
    try (by subst o);
    destruct (N.compare_spec (Ascii.N_of_ascii x) (Ascii.N_of_ascii z)) as [E3|E3|E3];
    try done; try lia; try (by eapply IH).
Qed.

#[export] Instance string_le_trans : Transitive string_le.
Proof.
  intros a b c. unfold string_le, String.leb. intros Hab Hbc.
  destruct (String.compare a c) eqn:E; [done..|]. exfalso.
  eapply (string_compare_trans a b c (String.compare b c)); [..|exact E];
    [by intros Hg; rewrite Hg in Hbc|by intros Hg; rewrite Hg in Hab|done].
Qed.

#[export] Instance string_le_total : Total string_le.
Proof. intros a b. apply String.leb_total. Qed.

#[export] Instance string_le_antisymm : AntiSymm (=) string_le.
Proof. intros a b. apply String.leb_antisym. Qed.

(** [sort.Strings]. *)
Definition sort_strings (l : list string) : list string := merge_sort string_le l.

Lemma sort_strings_perm l : sort_strings l ≡ₚ l.
Proof. apply merge_sort_Permutation. Qed.

Lemma sort_strings_sorted l : StronglySorted string_le (sort_strings l).
Proof. apply (StronglySorted_merge_sort _ _). Qed.

(** The order in which a map is iterated does not show after sorting. *)
#[export] Instance sort_strings_proper : Proper ((≡ₚ) ==> (=)) sort_strings.
Proof.
  intros l1 l2 Hl. apply (Sorted_unique string_le).
  - apply (Sorted_merge_sort _ _).
  - apply (Sorted_merge_sort _ _).
  - by rewrite !sort_strings_perm.
Qed.

Lemma elem_of_sort_strings x l : x ∈ sort_strings l ↔ x ∈ l.
Proof. by rewrite sort_strings_perm. Qed.

(** The keys of a map, sorted. *)
Definition sorted_keys {V} (m : gmap string V) : list string :=
  sort_strings (map_to_list m).*1.

Lemma elem_of_sorted_keys {V} (m : gmap string V) k : k ∈ sorted_keys m ↔ is_Some (m !! k).
Proof.
  unfold sorted_keys. rewrite elem_of_sort_strings, list_elem_of_fmap. split.
  - intros ([k' v] & -> & H). exists v. by apply elem_of_map_to_list.
  - intros [v Hv]. exists (k, v). split; [done|]. by apply elem_of_map_to_list.
Qed.

Lemma NoDup_sorted_keys {V} (m : gmap string V) : NoDup (sorted_keys m).
Proof. unfold sorted_keys. rewrite sort_strings_perm. apply NoDup_fst_map_to_list. Qed.

(** ** Characters *)

Definition code (a : ascii) : Z := Z.of_N (Ascii.N_of_ascii a).

(** The width in bytes of the white space ([unicode.IsSpace]) a string starts
    with; 0 when it starts with none.  In UTF-8 the white space beyond ASCII
    takes two bytes (U+0085, U+00A0) or three (U+1680, U+2000 to U+200A,
    U+2028, U+2029, U+202F, U+205F, U+3000). *)
Definition is_space (a : ascii) : bool :=
  let c := code a in (c =? 32) || ((9 <=? c) && (c <=? 13)).

Definition is_space2 (a b : ascii) : bool :=
  (code a =? 194) && ((code b =? 133) || (code b =? 160)).

Definition is_space3 (a b c : ascii) : bool :=
  let '(x, y, z) := (code a, code b, code c) in
  ((x =? 225) && (y =? 154) && (z =? 128)) ||
  ((x =? 226) && (y =? 128) &&
     (((128 <=? z) && (z <=? 138)) || (z =? 168) || (z =? 169) || (z =? 175))) ||
  ((x =? 226) && (y =? 129) && (z =? 159)) ||
  ((x =? 227) && (y =? 128) && (z =? 128)).

Definition white (s : string) : nat :=
  match s with
  | EmptyString => 0
  | String a t =>
      if is_space a then 1 else
      match t with
      | EmptyString => 0
      | String b u =>
          if is_space2 a b then 2 else
          match u with
          | EmptyString => 0
          | String c _ => if is_space3 a b c then 3 else 0
          end
      end
  end.

Definition lower (a : ascii) : ascii :=
  let c := code a in
  if (65 <=? c) && (c <=? 90) then Ascii.ascii_of_N (Z.to_N (c + 32)) else a.

Fixpoint to_lower (s : string) : string :=
  match s with EmptyString => "" | String a s => String (lower a) (to_lower s) end.

(** ** Trimming *)

(** Without the white space in front, [skip] bytes of it already seen. *)
Fixpoint trim_left_from (skip : nat) (s : string) : string :=
  match s with
  | EmptyString => ""
  | String a t =>
      match skip with
      | S k => trim_left_from k t
      | O => match white s with S k => trim_left_from k t | O => s end
      end
  end.

Definition trim_left (s : string) : string := trim_left_from 0 s.

(** Without the longest run of white space at the end. *)
Fixpoint trim_right (s : string) : string :=
  match s with
  | EmptyString => ""
  | String a t => if bool_decide (trim_left s = "") then "" else String a (trim_right t)
  end.

Definition trim_space (s : string) : string := trim_right (trim_left s).

Lemma white_length s : (white s ≤ String.length s)%nat.
Proof. destruct s as [|a [|b [|c s]]]; simpl; repeat case_match; lia. Qed.

(** No white space starts with an ASCII byte that is not one itself. *)
Lemma white_ascii a t : is_space a = false → code a < 128 → white (String a t) = 0%nat.
Proof.
  intros Ha Hc. cbn [white]. rewrite Ha. unfold is_space2, is_space3.
  assert (∀ k, 128 ≤ k → (code a =? k) = false) as Hk by (intros; apply Z.eqb_neq; lia).
  destruct t as [|b [|c u]]; [done|..]; rewrite !Hk by lia; done.
Qed.

Lemma white_app s t k : white s = S k → white (s ++ t) = S k.
Proof. destruct s as [|a [|b [|c s]]]; simpl; try done; repeat case_match; done. Qed.

Lemma white_trim_left_from k s : white (trim_left_from k s) = 0%nat.
Proof.
  revert k. induction s as [|a s IH]; intros [|k]; cbn [trim_left_from]; try done.
  destruct (white (String a s)) eqn:E; done.
Qed.

Lemma trim_left_fixed s : white s = 0%nat → trim_left s = s.
Proof. unfold trim_left. destruct s as [|a s]; cbn [trim_left_from]; [done|]. by intros ->. Qed.

Lemma trim_left_from_app k s t :
  (k ≤ String.length s)%nat → trim_left_from k s = "" → trim_left t = "" →
  trim_left_from k (s ++ t) = "".
Proof.
  intros Hk Hs Ht. revert k Hk Hs. induction s as [|a s IH]; intros k Hk Hs.
  { cbn in Hk. replace k with 0%nat by lia. done. }
  change (String a s ++ t)%string with (String a (s ++ t)).
  cbn [trim_left_from] in *. destruct k as [|k].
  - destruct (white (String a s)) as [|k] eqn:E; [done|].
    pose proof (white_length (String a s)) as Hl. rewrite E in Hl. simpl in Hl.
    apply (white_app _ t) in E. change (String a s ++ t)%string with (String a (s ++ t)) in E.
    rewrite E. apply IH; [lia|done].
  - simpl in Hk. apply IH; [lia|done].
Qed.

Lemma trim_right_app s : ∃ t, s = (trim_right s ++ t)%string ∧ trim_left t = "".
Proof.
  induction s as [|a s (t & IH & Ht)]; [by exists ""|]. cbn [trim_right].
  case_bool_decide as E; [by exists (String a s)|]. exists t. split; [|done].
  change (String a s = String a (trim_right s ++ t)%string). by rewrite <- IH.
Qed.

Lemma trim_left_trim_right s : trim_left (trim_right (trim_left s)) = trim_right (trim_left s).
Proof.
  apply trim_left_fixed. destruct (trim_right_app (trim_left s)) as (t & E & _).
  destruct (white (trim_right (trim_left s))) as [|k] eqn:W; [done|].
  apply (white_app _ t) in W. rewrite <- E in W. unfold trim_left in W.
  by rewrite white_trim_left_from in W.
Qed.

Lemma trim_right_idemp s : trim_right (trim_right s) = trim_right s.
Proof.
  induction s as [|a s IH]; [done|]. cbn [trim_right]. case_bool_decide as E; [done|].
  cbn [trim_right]. rewrite IH. rewrite bool_decide_eq_false_2; [done|]. intros E'. apply E.
  destruct (trim_right_app s) as (t & Es & Ht). rewrite Es.
  by apply (trim_left_from_app 0 (String a (trim_right s)) t); [lia|..].
Qed.

Lemma trim_space_idemp s : trim_space (trim_space s) = trim_space s.
Proof. unfold trim_space. by rewrite trim_left_trim_right, trim_right_idemp. Qed.

(** [strings.Fields]: the runs of other bytes between white space. *)
Definition starts_white (s : string) : bool :=
  match s with EmptyString => true | _ => negb (Nat.eqb (white s) 0) end.

Fixpoint Fields_from (skip : nat) (s : string) : list string :=
  match s with
  | EmptyString => []
  | String a t =>
      match skip with
      | S k => Fields_from k t
      | O =>
          match white s with
          | S k => Fields_from k t
          | O =>
              match Fields_from 0 t with
              | w :: ws => if starts_white t then String a "" :: w :: ws else String a w :: ws
              | [] => [String a ""]
              end
          end
      end
  end.

Definition Fields (s : string) : list string := Fields_from 0 s.

Example Fields_ex : Fields " a bc  d " = ["a"; "bc"; "d"].
Proof. reflexivity. Qed.

(** ** Splitting, with a one-byte separator *)

(** [strings.Cut(s, sep)]: before, after, found. *)
Fixpoint cut (sep : ascii) (s : string) : option (string * string) :=
  match s with
  | EmptyString => None
  | String a t =>
      if Ascii.eqb a sep then Some ("", t) else
      match cut sep t with Some (l, r) => Some (String a l, r) | None => None end
  end.

(** [strings.Split(s, sep)]: never empty. *)
Fixpoint split (sep : ascii) (s : string) : list string :=
  match s with
  | EmptyString => [""]
  | String a t =>
      if Ascii.eqb a sep then "" :: split sep t else
      match split sep t with
      | p :: ps => String a p :: ps
      | [] => [String a ""]
      end
  end.

(** [strings.Join(l, sep)]. *)
Definition join_with (sep : string) (l : list string) : string := String.concat sep l.

(** [strings.TrimPrefix] and [strings.HasPrefix]. *)
Fixpoint strip (p s : string) : option string :=
  match p, s with
  | EmptyString, _ => Some s
  | String a p, String b s => if Ascii.eqb a b then strip p s else None
  | _, EmptyString => None
  end.

Definition trim_prefix (s p : string) : string := default s (strip p s).

Lemma strip_app p s : strip p (p ++ s) = Some s.
Proof. induction p as [|a p IH]; simpl; [done|]. by rewrite Ascii.eqb_refl. Qed.

(** [strings.Contains]. *)
Fixpoint contains (s sub : string) : bool :=
  match strip sub s with
  | Some _ => true
  | None => match s with String _ t => contains t sub | EmptyString => false end
  end.

(** [strings.ReplaceAll] with one byte for another. *)
Fixpoint replace_all (a b : ascii) (s : string) : string :=
  match s with
  | EmptyString => ""
  | String c t => String (if Ascii.eqb c a then b else c) (replace_all a b t)
  end.

Definition newline : ascii := Ascii.ascii_of_N 10.
Definition nl : string := String newline "".

(** [len(s)] and [s[:n]]. *)
Definition str_len (s : string) : Z := Z.of_nat (String.length s).

Definition str_take (n : Z) (s : string) : outcome string :=
  if (n <? 0) || (str_len s <? n) then Panic
  else Ret (String.substring 0 (Z.to_nat n) s).

Lemma substring_length n s : (n ≤ String.length s)%nat → String.length (substring 0 n s) = n.
Proof.
  revert n. induction s as [|a s IH]; intros [|n] H; simpl in *; [done|lia|done|].
  by rewrite IH by lia.
Qed.

Lemma str_take_Ret n s :
  0 ≤ n ≤ str_len s → ∃ t, str_take n s = Ret t ∧ str_len t = n.
Proof.
  unfold str_take, str_len. intros H.
  destruct (Z.ltb_spec n 0); [lia|]. destruct (Z.ltb_spec (Z.of_nat (String.length s)) n); [lia|].
  eexists. split; [done|]. rewrite substring_length by lia. lia.
Qed.

Lemma str_len_app a b : str_len (a ++ b) = str_len a + str_len b.
Proof.
  unfold str_len. assert (String.length (a ++ b) = String.length a + String.length b)%nat; [|lia].
  induction a as [|x a IH]; simpl; [done|]. by rewrite IH.
Qed.

Lemma str_len_nonneg s : 0 ≤ str_len s.
Proof. unfold str_len. lia. Qed.
