(* ===== verification/GoJson.v ===== *)
(** * GoJson: Go values as JSON

    How [json.Marshal] prints and [json.Unmarshal] fills the Go types the
    program stores: strings, [int64], [uint8], [[]byte] (base64), slices,
    structs with named fields and maps from strings to strings.  A decoder
    takes the JSON value and the Go value being filled; like
    [json.Unmarshal] it goes on after a type mismatch and reports the error at
    the end. *)

From Stdlib Require Import Strings.Byte Decimal DecimalFacts DecimalPos DecimalN.
From S2P Require Import Prelude Types Utf8 Json.
Open Scope Z_scope.

(** ** Strings *)

Definition to_bytes (s : string) : bytes := String.list_byte_of_string s.
Definition of_bytes (s : bytes) : string := String.string_of_list_byte s.

Lemma of_to_bytes s : of_bytes (to_bytes s) = s.
Proof. apply String.string_of_list_byte_of_string. Qed.

Lemma to_of_bytes s : to_bytes (of_bytes s) = s.
Proof. apply String.list_byte_of_string_of_list_byte. Qed.

Definition utf8_string (s : string) : Prop := utf8 (to_bytes s).

Lemma utf8_string_ascii s : ascii_only (to_bytes s) = true → utf8_string s.
Proof. apply utf8_ascii. Qed.

(** ** Decoders *)

(** The filled value, and whether an error was recorded. *)
Definition decoder (A : Type) : Type := json → A → A * bool.

(** [json.Unmarshal(raw, &v)] with [v] zero before the call; [None] is a
    non-nil error, after which no caller looks at [v]. *)
Definition unmarshal {A} (d : decoder A) (zero : A) (raw : bytes) : option A :=
  match parse raw with
  | Some j => let '(a, err) := d j zero in if err then None else Some a
  | None => None
  end.

Definition dec_string : decoder string := λ j old,
  match j with
  | JStr s => (of_bytes s, false)
  | JNull => (old, false)
  | _ => (old, true)
  end.

(** Field names match up to case; the two non-ASCII runes that fold to ASCII
    letters are the Kelvin sign and the long s. *)
Fixpoint fold_name (s : bytes) : bytes :=
  match s with
  | a :: t =>
      match t with
      | b :: t2 =>
          if (b2z a =? 197) && (b2z b =? 191) then x53 :: fold_name t2 else
          match t2 with
          | c :: t3 =>
              if (b2z a =? 226) && (b2z b =? 132) && (b2z c =? 170)
              then x4b :: fold_name t3
              else (if in_range 97 122 (b2z a) then z2b (b2z a - 32) else a) :: fold_name t
          | [] => (if in_range 97 122 (b2z a) then z2b (b2z a - 32) else a) :: fold_name t
          end
      | [] => [if in_range 97 122 (b2z a) then z2b (b2z a - 32) else a]
      end
  | [] => []
  end.

Definition name_is (name : string) (key : bytes) : bool :=
  bool_decide (fold_name (lit name) = fold_name key).

(** [first_field fs key]: the setter of the field [key] names. *)
Definition fields (A : Type) : Type := list (string * decoder A).

Fixpoint first_field {A} (fs : fields A) (key : bytes) : option (decoder A) :=
  match fs with
  | (name, d) :: fs => if name_is name key then Some d else first_field fs key
  | [] => None
  end.

(** A decoder for one field of a struct. *)
Definition at_field {A B} (get : A → B) (set : B → A → A) (d : decoder B) : decoder A :=
  λ j a, let '(b, err) := d j (get a) in (set b a, err).

Definition dec_member {A} (fs : fields A) (acc : A * bool) (kv : bytes * json) : A * bool :=
  match first_field fs kv.1 with
  | Some d => let '(a, err) := d kv.2 acc.1 in (a, acc.2 || err)
  | None => acc
  end.

Definition dec_struct {A} (fs : fields A) : decoder A := λ j a,
  match j with
  | JObj l => fold_left (dec_member fs) l (a, false)
  | JNull => (a, false)
  | _ => (a, true)
  end.

(** A slice is [None] when nil; elements are decoded into zero values. *)
Definition dec_elem {A} (d : decoder A) (zero : A) (j : json) (acc : list A * bool) :
    list A * bool :=
  let '(a, err) := d j zero in (a :: acc.1, err || acc.2).

Definition dec_slice {A} (d : decoder A) (zero : A) : decoder (option (list A)) := λ j old,
  match j with
  | JArr l => let '(r, err) := foldr (dec_elem d zero) ([], false) l in (Some r, err)
  | JNull => (None, false)
  | _ => (old, true)
  end.

(** [map[string]string]: a nil map is the empty one, members are set in order. *)
Definition dec_entry (acc : gmap string string * bool) (kv : bytes * json) :
    gmap string string * bool :=
  let '(v, err) := dec_string kv.2 "" in (<[of_bytes kv.1 := v]> acc.1, acc.2 || err).

Definition dec_map : decoder (gmap string string) := λ j old,
  match j with
  | JObj l => fold_left dec_entry l (old, false)
  | JNull => (∅, false)
  | _ => (old, true)
  end.

(** ** Integers *)

Fixpoint print_uint (d : uint) : bytes :=
  match d with
  | Nil => []
  | D0 d => x30 :: print_uint d | D1 d => x31 :: print_uint d
  | D2 d => x32 :: print_uint d | D3 d => x33 :: print_uint d
  | D4 d => x34 :: print_uint d | D5 d => x35 :: print_uint d
  | D6 d => x36 :: print_uint d | D7 d => x37 :: print_uint d
  | D8 d => x38 :: print_uint d | D9 d => x39 :: print_uint d
  end.

Definition digit_cons (b : byte) (d : uint) : option uint :=
  match b2z b - 48 with
  | 0 => Some (D0 d) | 1 => Some (D1 d) | 2 => Some (D2 d) | 3 => Some (D3 d)
  | 4 => Some (D4 d) | 5 => Some (D5 d) | 6 => Some (D6 d) | 7 => Some (D7 d)
  | 8 => Some (D8 d) | 9 => Some (D9 d) | _ => None
  end.

Fixpoint read_uint (s : bytes) : option uint :=
  match s with
  | [] => Some Nil
  | b :: r => match read_uint r with Some d => digit_cons b d | None => None end
  end.

(** [strconv.AppendInt(z, 10)]. *)
Definition print_int (z : Z) : bytes :=
  if z <? 0 then x2d :: print_uint (N.to_uint (Z.to_N (- z)))
  else print_uint (N.to_uint (Z.to_N z)).

(** [strconv.ParseInt] on a JSON number literal, the range left to the caller:
    a literal with a fraction or an exponent is an error. *)
Definition read_Z (s : bytes) : option Z :=
  match s with
  | [] => None
  | b :: r =>
      if b2z b =? 45 then
        match read_uint r with Some d => Some (- Z.of_N (N.of_uint d)) | None => None end
      else
        match read_uint s with Some d => Some (Z.of_N (N.of_uint d)) | None => None end
  end.

Definition dec_int (lo hi : Z) : decoder Z := λ j old,
  match j with
  | JNum l =>
      match read_Z l with
      | Some z => if (lo <=? z) && (z <=? hi) then (z, false) else (old, true)
      | None => (old, true)
      end
  | JNull => (old, false)
  | _ => (old, true)
  end.

Definition dec_int64 : decoder Z := dec_int min_int64 max_int64.
Definition dec_uint8 : decoder Z := dec_int 0 255.

(** ** Bytes as base64 *)

Definition b64_char (z : Z) : byte :=
  z2b (if z <? 26 then 65 + z else if z <? 52 then 71 + z
       else if z <? 62 then z - 4 else if z =? 62 then 43 else 47).

Definition b64_val (b : byte) : option Z :=
  let z := b2z b in
  if in_range 65 90 z then Some (z - 65)
  else if in_range 97 122 z then Some (z - 71)
  else if in_range 48 57 z then Some (z + 4)
  else if z =? 43 then Some 62
  else if z =? 47 then Some 63
  else None.

Fixpoint base64 (s : bytes) : bytes :=
  match s with
  | a :: b :: c :: r =>
      let n := b2z a * 65536 + b2z b * 256 + b2z c in
      b64_char (n / 262144) :: b64_char (n / 4096 mod 64) ::
      b64_char (n / 64 mod 64) :: b64_char (n mod 64) :: base64 r
  | [a; b] =>
      let n := b2z a * 65536 + b2z b * 256 in
      [b64_char (n / 262144); b64_char (n / 4096 mod 64); b64_char (n / 64 mod 64); x3d]
  | [a] =>
      let n := b2z a * 65536 in
      [b64_char (n / 262144); b64_char (n / 4096 mod 64); x3d; x3d]
  | [] => []
  end.

(** [base64.StdEncoding.Decode] after dropping the line breaks it ignores. *)
Fixpoint unbase64 (s : bytes) : option bytes :=
  match s with
  | [] => Some []
  | a :: b :: c :: d :: r =>
      match b64_val a, b64_val b with
      | Some a, Some b =>
          if Byte.eqb c x3d then
            if Byte.eqb d x3d && bool_decide (r = [])
            then Some [z2b (a * 4 + b / 16)] else None
          else
            match b64_val c with
            | Some c =>
                if Byte.eqb d x3d then
                  if bool_decide (r = [])
                  then Some [z2b (a * 4 + b / 16); z2b (b mod 16 * 16 + c / 4)] else None
                else
                  match b64_val d, unbase64 r with
                  | Some d, Some t =>
                      Some (z2b (a * 4 + b / 16) :: z2b (b mod 16 * 16 + c / 4) ::
                            z2b (c mod 4 * 64 + d) :: t)
                  | _, _ => None
                  end
            | None => None
            end
      | _, _ => None
      end
  | _ => None
  end.

Definition is_newline (b : byte) : bool := (b2z b =? 10) || (b2z b =? 13).

(** [[]byte]: base64, or an array of numbers; nil and empty are both []. *)
Definition dec_bytes : decoder bytes := λ j old,
  match j with
  | JStr s =>
      match unbase64 (filter (λ b, is_newline b = false) s) with
      | Some r => (r, false) | None => (old, true) end
  | JNull => ([], false)
  | JArr l => let '(r, err) := foldr (dec_elem dec_uint8 0) ([], false) l in (z2b <$> r, err)
  | _ => (old, true)
  end.

(** ** Encoders *)

Definition enc_string (s : string) : json := JStr (to_bytes s).
Definition enc_int (z : Z) : json := JNum (print_int z).
(** A nil slice prints as [null]; the program's empty [[]byte] and
    [[]string] values are nil, being made by [append([]T(nil), x...)]. *)
Definition enc_bytes (s : bytes) : json :=
  if bool_decide (s = []) then JNull else JStr (base64 s).
Definition enc_slice {A} (e : A → json) (l : option (list A)) : json :=
  match l with Some l => JArr (map e l) | None => JNull end.
Definition nil_if_empty {A} (l : list A) : option (list A) :=
  match l with [] => None | _ => Some l end.

Definition marshal (j : json) : bytes := print j.

Example int_ex : read_Z (print_int (-1203)) = Some (-1203) ∧ print_int 0 = [x30].
Proof. vm_compute. done. Qed.
Example b64_ex : base64 (lit "hello") = lit "aGVsbG8=" ∧ unbase64 (lit "aGVsbG8=") = Some (lit "hello").
Proof. vm_compute. done. Qed.

(** ** Round trips *)

Lemma unmarshal_marshal {A} (d : decoder A) zero j a :
  json_ok max_nesting j → d j zero = (a, false) → unmarshal d zero (marshal j) = Some a.
Proof. intros Hok Hd. unfold unmarshal, marshal. by rewrite parse_print, Hd. Qed.

Lemma unmarshal_strings_ok {A} (d : decoder A) zero raw a :
  unmarshal d zero raw = Some a → ∃ j, strings_ok j ∧ d j zero = (a, false).
Proof.
  unfold unmarshal. destruct (parse raw) as [j|] eqn:E; [|done].
  destruct (d j zero) as [a' []] eqn:Ed; [done|]. intros [= ->].
  exists j. split; [by eapply parse_strings_ok|done].
Qed.

Lemma dec_enc_string s old : dec_string (enc_string s) old = (s, false).
Proof. simpl. by rewrite of_to_bytes. Qed.

Lemma read_print_uint d : read_uint (print_uint d) = Some d.
Proof. induction d; simpl; rewrite ?IHd; done. Qed.

Lemma print_uint_digits d : forallb is_digit (print_uint d) = true.
Proof. induction d; simpl; done. Qed.

Lemma nzhead_nonzero d d' : nzhead d ≠ D0 d'.
Proof. induction d; simpl; congruence. Qed.

Lemma unorm_uint_lit d : unorm d = d → uint_lit (print_uint d).
Proof.
  intros Hd. destruct d as [|d| | | | | | | | |]; [by exfalso; eapply unorm_nonnil| |right..];
    try (do 2 eexists; split_and!; [done|vm_compute; done|apply print_uint_digits]).
  left. unfold unorm in Hd. pose proof (nzhead_nonzero (D0 d) d).
  destruct (nzhead (D0 d)); simplify_eq. done.
Qed.

Lemma print_N_lit n : uint_lit (print_uint (N.to_uint n)).
Proof.
  apply unorm_uint_lit.
  by rewrite <- (DecimalN.Unsigned.of_to n) at 2; rewrite DecimalN.Unsigned.to_of.
Qed.

Lemma print_int_lit z : int_lit (print_int z).
Proof.
  unfold print_int. destruct (z <? 0); [right|left; apply print_N_lit].
  eexists. split; [done|apply print_N_lit].
Qed.

Lemma uint_lit_no_sign s : uint_lit s → ∃ b r, s = b :: r ∧ (b2z b =? 45) = false.
Proof.
  intros [-> | (b & r & -> & Hb & _)]; [by do 2 eexists|]. exists b, r. split; [done|].
  unfold in_range in Hb. zbool. lia.
Qed.

Lemma read_print_int z : read_Z (print_int z) = Some z.
Proof.
  assert (∀ n, read_uint (print_uint (N.to_uint n)) = Some (N.to_uint n)) as Hr
    by (intros; apply read_print_uint).
  assert (∀ n, Z.of_N (N.of_uint (N.to_uint n)) = Z.of_N n) as Hn
    by (intros; by rewrite DecimalN.Unsigned.of_to).
  unfold print_int. destruct (Z.ltb_spec z 0).
  - cbn [read_Z]. change (b2z x2d =? 45) with true. cbv iota. rewrite Hr, Hn. f_equal. lia.
  - destruct (uint_lit_no_sign _ (print_N_lit (Z.to_N z))) as (b & r & E & Hb).
    pose proof (Hr (Z.to_N z)) as Hr'. rewrite E in *. cbn [read_Z]. rewrite Hb, Hr', Hn. f_equal. lia.
Qed.

Lemma dec_enc_int lo hi z old : lo ≤ z ≤ hi → dec_int lo hi (enc_int z) old = (z, false).
Proof.
  intros Hz. unfold dec_int, enc_int. rewrite read_print_int.
  by rewrite !(proj2 (Z.leb_le _ _)) by lia.
Qed.

(** Base64. *)
Lemma b64_char_val z : 0 ≤ z < 64 → b64_val (b64_char z) = Some z.
Proof.
  intros Hz. unfold b64_val, b64_char, in_range.
  destruct (Z.ltb_spec z 26); [|destruct (Z.ltb_spec z 52);
    [|destruct (Z.ltb_spec z 62); [|destruct (Z.eqb_spec z 62)]]];
    rewrite b2z_z2b by lia; zcases; f_equal; lia.
Qed.

Lemma b64_char_pad z : 0 ≤ z < 64 → Byte.eqb (b64_char z) x3d = false.
Proof.
  intros Hz. destruct (Byte.eqb (b64_char z) x3d) eqn:E; [|done].
  apply Byte.byte_dec_bl in E. pose proof (b64_char_val z Hz) as Hv. by rewrite E in Hv.
Qed.

Definition b64_ok (b : byte) : bool := (b2z b <? 128) && negb (is_newline b).

Lemma b64_char_ok z : 0 ≤ z < 64 → b64_ok (b64_char z) = true.
Proof.
  intros Hz. unfold b64_char, b64_ok, is_newline.
  destruct (Z.ltb_spec z 26); [|destruct (Z.ltb_spec z 52);
    [|destruct (Z.ltb_spec z 62); [|destruct (Z.eqb_spec z 62)]]];
    rewrite b2z_z2b by lia; zcases; done.
Qed.

(** Three-byte steps. *)
Lemma list_ind3 (P : bytes → Prop) :
  P [] → (∀ a, P [a]) → (∀ a b, P [a; b]) → (∀ a b c r, P r → P (a :: b :: c :: r)) → ∀ s, P s.
Proof.
  intros H0 H1 H2 H3 s. assert (P s ∧ (∀ a, P (a :: s)) ∧ (∀ a b, P (a :: b :: s))) as [? _]; [|done].
  induction s as [|x s (?&?&?)]; auto.
Qed.

Lemma base64_ok s : forallb b64_ok (base64 s) = true.
Proof.
  induction s as [|a|a b|a b c r IH] using list_ind3; [done| | |]; cbn [base64 forallb];
    rewrite !b64_char_ok; [done|..]; try done;
    pose proof (b2z_range a); try pose proof (b2z_range b); try pose proof (b2z_range c);
    Z.to_euclidean_division_equations; lia.
Qed.

Lemma unbase64_base64 s : unbase64 (base64 s) = Some s.
Proof.
  induction s as [|a|a b|a b c r IH] using list_ind3; [done| | |]; cbn [base64 unbase64];
    pose proof (b2z_range a); try pose proof (b2z_range b); try pose proof (b2z_range c).
  - set (n := b2z a * 65536).
    assert (0 ≤ n / 262144 < 64 ∧ 0 ≤ n / 4096 mod 64 < 64 ∧
      n / 262144 * 4 + n / 4096 mod 64 / 16 = b2z a) as (?&?&E)
      by (subst n; Z.to_euclidean_division_equations; lia).
    rewrite !b64_char_val by done. cbn. by rewrite E, z2b_b2z.
  - set (n := b2z a * 65536 + b2z b * 256).
    assert (0 ≤ n / 262144 < 64 ∧ 0 ≤ n / 4096 mod 64 < 64 ∧ 0 ≤ n / 64 mod 64 < 64 ∧
      n / 262144 * 4 + n / 4096 mod 64 / 16 = b2z a ∧
      (n / 4096 mod 64) mod 16 * 16 + n / 64 mod 64 / 4 = b2z b) as (?&?&?&E1&E2)
      by (subst n; Z.to_euclidean_division_equations; lia).
    rewrite !b64_char_val, b64_char_pad by done. cbn. by rewrite E1, E2, !z2b_b2z.
  - set (n := b2z a * 65536 + b2z b * 256 + b2z c).
    assert (0 ≤ n / 262144 < 64 ∧ 0 ≤ n / 4096 mod 64 < 64 ∧ 0 ≤ n / 64 mod 64 < 64 ∧
      0 ≤ n mod 64 < 64 ∧
      n / 262144 * 4 + n / 4096 mod 64 / 16 = b2z a ∧
      (n / 4096 mod 64) mod 16 * 16 + n / 64 mod 64 / 4 = b2z b ∧
      (n / 64 mod 64) mod 4 * 64 + n mod 64 = b2z c) as (?&?&?&?&E1&E2&E3)
      by (subst n; Z.to_euclidean_division_equations; lia).
    rewrite !b64_char_val, !b64_char_pad, IH by done. by rewrite E1, E2, E3, !z2b_b2z.
Qed.

Lemma base64_utf8 s : utf8 (base64 s).
Proof.
  apply utf8_ascii. pose proof (base64_ok s) as H. unfold ascii_only.
  rewrite !forallb_forall in *. intros b Hb. specialize (H b Hb).
  unfold b64_ok in H. by apply andb_true_iff in H as [? _].
Qed.

Lemma filter_base64 s : filter (λ b, is_newline b = false) (base64 s) = base64 s.
Proof.
  pose proof (base64_ok s) as H. induction (base64 s) as [|b l IH]; [done|].
  cbn [forallb] in H. apply andb_true_iff in H as [Hb Hl]. rewrite filter_cons_True, IH; [done..|].
  unfold b64_ok in Hb. apply andb_true_iff in Hb as [_ Hb]. by apply negb_true_iff in Hb.
Qed.

Lemma dec_enc_bytes s old : dec_bytes (enc_bytes s) old = (s, false).
Proof.
  unfold enc_bytes. case_bool_decide as E; [by subst|].
  cbn [dec_bytes]. by rewrite filter_base64, unbase64_base64.
Qed.

Lemma dec_enc_slice {A} (d : decoder A) (e : A → json) zero l old :
  (∀ a, a ∈ default [] l → d (e a) zero = (a, false)) →
  dec_slice d zero (enc_slice e l) old = (l, false).
Proof.
  destruct l as [l|]; [|done]. cbn [default enc_slice dec_slice]. intros H.
  assert (foldr (dec_elem d zero) ([], false) (map e l) = (l, false)) as ->; [|done].
  induction l as [|a l IH]; [done|]. cbn [map foldr]. unfold dec_elem at 1.
  rewrite H by set_solver. rewrite IH; [done|]. intros. apply H. set_solver.
Qed.

(** The encoders build values [parse] reads back. *)
Lemma enc_string_ok d s : utf8_string s → json_ok d (enc_string s).
Proof. intros. by constructor. Qed.
Lemma enc_int_ok d z : json_ok d (enc_int z).
Proof. constructor. apply print_int_lit. Qed.
Lemma enc_bytes_ok d s : json_ok d (enc_bytes s).
Proof. unfold enc_bytes. case_bool_decide; constructor. apply base64_utf8. Qed.
Lemma enc_slice_ok {A} (e : A → json) d l :
  0 < d → (∀ a, a ∈ default [] l → json_ok (d - 1) (e a)) → json_ok d (enc_slice e l).
Proof.
  intros Hd H. destruct l as [l|]; [|constructor]. constructor; [done|].
  apply Forall_forall. intros j Hj. apply in_map_iff in Hj as (a & <- & Ha).
  apply H. by apply list_elem_of_In.
Qed.

Create HintDb json.
#[export] Hint Resolve enc_string_ok enc_int_ok enc_bytes_ok enc_slice_ok : json.
#[export] Hint Constructors json_ok : json.

(** ** Struct round trips, field by field *)

Lemma first_field_hit {A} name (d : decoder A) fs key :
  name_is name key = true → first_field ((name, d) :: fs) key = Some d.
Proof. simpl. by intros ->. Qed.

Lemma first_field_miss {A} name (d d' : decoder A) fs key :
  name_is name key = false → first_field fs key = Some d' →
  first_field ((name, d) :: fs) key = Some d'.
Proof. simpl. by intros ->. Qed.

(** One member of the object at a time: its decoder, what it leaves. *)
Lemma dec_struct_step {A} (fs : fields A) key j l (a a' a'' : A) d :
  first_field fs key = Some d → d j a = (a', false) →
  dec_struct fs (JObj l) a' = (a'', false) →
  dec_struct fs (JObj ((key, j) :: l)) a = (a'', false).
Proof.
  intros Hf Hd. unfold dec_struct. cbn [fold_left].
  assert (dec_member fs (a, false) (key, j) = (a', false)) as ->; [|done].
  unfold dec_member. cbn [fst snd]. by rewrite Hf, Hd.
Qed.

Lemma dec_struct_nil {A} (fs : fields A) a : dec_struct fs (JObj []) a = (a, false).
Proof. done. Qed.

Lemma at_field_eq {A B} (get : A → B) set (d : decoder B) j a b :
  d j (get a) = (b, false) → at_field get set d j a = (set b a, false).
Proof. unfold at_field. by intros ->. Qed.

Lemma dec_enc_int64 z old : in_i64 z → dec_int64 (enc_int z) old = (z, false).
Proof. apply dec_enc_int. Qed.

Lemma dec_enc_uint8 z old : 0 ≤ z ≤ 255 → dec_uint8 (enc_int z) old = (z, false).
Proof. apply dec_enc_int. Qed.

Ltac find_field :=
  first [apply first_field_hit; vm_compute; reflexivity
        |apply first_field_miss; [vm_compute; reflexivity|find_field]].

(** Decodes an encoded struct, leaving one goal per field. *)
Ltac dec_fields :=
  first [apply dec_struct_nil
        |eapply dec_struct_step; [find_field|apply at_field_eq|cbn beta; dec_fields]].

#[export] Hint Resolve dec_enc_string dec_enc_int64 dec_enc_uint8 dec_enc_bytes : json.

(** The JSON of a struct. *)
Lemma struct_ok d (l : list (bytes * json)) :
  0 < d → Forall (λ kv, ascii_only kv.1 = true ∧ json_ok (d - 1) kv.2) l → json_ok d (JObj l).
Proof.
  intros Hd Hl. constructor; [done|]. induction Hl as [|kv l [? ?] _ IH]; constructor; [|done].
  split; [by apply utf8_ascii|done].
Qed.

(** The members of an encoded struct, one goal per field. *)
Ltac json_members :=
  repeat (apply Forall_cons_2; [split; [vm_compute; reflexivity|cbn [snd]]|]); try apply Forall_nil_2;
  eauto with json.

(** ** Invariants of decoded values *)

(** A property every field setter keeps holds of the decoded struct. *)
Lemma dec_struct_keeps {A} (P : A → Prop) (fs : fields A) j a :
  Forall (λ nd, ∀ j a, P a → P (nd.2 j a).1) fs → P a → P (dec_struct fs j a).1.
Proof.
  intros Hfs Ha. destruct j as [| | | | |l]; try done. cbn [dec_struct].
  assert (∀ acc, P acc.1 → P (fold_left (dec_member fs) l acc).1) as Hgo; [|by apply Hgo].
  clear a Ha. induction l as [|kv l IH]; intros acc Hacc; [done|]. cbn [fold_left]. apply IH.
  unfold dec_member. destruct (first_field fs kv.1) as [d|] eqn:E; [|done].
  assert (P (d kv.2 acc.1).1) as Hd; [|by destruct (d kv.2 acc.1)].
  clear IH. induction Hfs as [|[name d'] fs Hd' Hfs IHfs]; [done|]. cbn [first_field] in E.
  destruct (name_is name kv.1); [|by apply IHfs]. injection E as ->. by apply Hd'.
Qed.

Lemma at_field_keeps {A B} (P : A → Prop) (Q : B → Prop) get set (d : decoder B) j a :
  (∀ j b, Q b → Q (d j b).1) → (P a → Q (get a)) → (∀ b, Q b → P a → P (set b a)) →
  P a → P (at_field get set d j a).1.
Proof.
  intros Hd Hg Hs Ha. unfold at_field. specialize (Hd j (get a) (Hg Ha)).
  destruct (d j (get a)). by apply Hs.
Qed.

Lemma dec_int_range lo hi j z : lo ≤ z ≤ hi → lo ≤ (dec_int lo hi j z).1 ≤ hi.
Proof.
  intros Hz. destruct j as [| |l| | |]; try done. cbn [dec_int]. destruct (read_Z l) as [z'|]; [|done].
  destruct ((lo <=? z') && (z' <=? hi)) eqn:E; [|done]. cbn [fst].
  apply andb_true_iff in E as [??]. zbool. lia.
Qed.

Lemma dec_slice_keeps {A} (P : A → Prop) (d : decoder A) zero j old :
  (∀ j, P (d j zero).1) → Forall P (default [] old) →
  Forall P (default [] (dec_slice d zero j old).1).
Proof.
  intros Hd Ho. destruct j as [| | | |l|]; try done. cbn [dec_slice].
  assert (Forall P (foldr (dec_elem d zero) ([], false) l).1) as Hl;
    [|by destruct (foldr _ _ l)].
  induction l as [|j l IH]; [constructor|]. cbn [foldr]. unfold dec_elem at 1.
  specialize (Hd j). destruct (d j zero). by constructor.
Qed.

Lemma unmarshal_keeps {A} (P : A → Prop) (d : decoder A) zero raw a :
  (∀ j, P (d j zero).1) → unmarshal d zero raw = Some a → P a.
Proof.
  unfold unmarshal. intros Hd. destruct (parse raw) as [j|]; [|done].
  specialize (Hd j). destruct (d j zero) as [a' []]; [done|]. by intros [= ->].
Qed.
