(* ===== verification/KvStore.v ===== *)
(** * KvStore: the replicated key-value state machine

    [internal/kv/command.go] and [store.go]: the serialized commands and the
    store they are applied to.  A [Store] is its map; the read-write mutex
    makes every method one atomic step.  Commands and snapshots go through
    the JSON codec of GoJson.v; the telemetry spans carry no state.

    The theorems: a marshalled command does what it says, whatever the bytes
    of the log entry the store stays serializable, and restoring a snapshot
    gives back the store it was taken from. *)

From Stdlib Require Import Strings.Byte.
From S2P Require Import Prelude Types Utf8 Json GoJson GoStrings.
Open Scope Z_scope.

(** ** Errors of the key-value layer *)

Inductive kv_error : Type :=
  | ErrDecode                     (** an error of [json.Unmarshal] *)
  | ErrConsensus (e : error)      (** an error of the consensus engine *)
  | ErrNotLeader
  | ErrCommitTimeout.

#[export] Instance kv_error_eq_dec : EqDecision kv_error.
Proof. solve_decision. Defined.

(** ** Commands *)

Definition PutCmd : string := "put".
Definition DeleteCmd : string := "delete".

Module Command.
Record t : Type := mk { Type_ : string; Key : string; Value : string }.
End Command.
Notation Command := Command.t.

Definition zero_command : Command := Command.mk "" "" "".

Definition command_fields : fields Command := [
  ("type", at_field Command.Type_ (λ x c, Command.mk x (Command.Key c) (Command.Value c)) dec_string);
  ("key", at_field Command.Key (λ x c, Command.mk (Command.Type_ c) x (Command.Value c)) dec_string);
  ("value", at_field Command.Value (λ x c, Command.mk (Command.Type_ c) (Command.Key c) x) dec_string)].

Definition dec_command : decoder Command := dec_struct command_fields.

(** [json.Marshal(cmd)]: an empty value is omitted. *)
Definition enc_command (c : Command) : json :=
  JObj ([(lit "type", enc_string (Command.Type_ c)); (lit "key", enc_string (Command.Key c))] ++
        if bool_decide (Command.Value c = "") then []
        else [(lit "value", enc_string (Command.Value c))]).

(** ** The store *)

Record Store : Type := mkStore { data : gmap string string }.

Definition NewStore : Store := mkStore ∅.

Definition Get (key : string) (s : Store) : string * bool :=
  (map_get "" key (data s), bool_decide (is_Some (data s !! key))).

Definition applyPut (key value : string) (s : Store) : Store :=
  mkStore (<[key := value]> (data s)).

Definition applyDelete (key : string) (s : Store) : Store :=
  mkStore (delete key (data s)).

Definition Apply (raw : bytes) (s : Store) : Store * option kv_error :=
  match unmarshal dec_command zero_command raw with
  | None => (s, Some ErrDecode)
  | Some cmd =>
      if bool_decide (Command.Type_ cmd = PutCmd)
      then (applyPut (Command.Key cmd) (Command.Value cmd) s, None)
      else if bool_decide (Command.Type_ cmd = DeleteCmd)
      then (applyDelete (Command.Key cmd) s, None)
      else (s, None)
  end.

(** [json.Marshal] of a [map[string]string] prints the keys in order; it
    cannot fail. *)
Definition enc_map (m : gmap string string) : json :=
  JObj (map (λ k, (to_bytes k, enc_string (map_get "" k m))) (sorted_keys m)).

Definition TakeStoreSnapshot (s : Store) : bytes := marshal (enc_map (data s)).

Definition RestoreSnapshot (raw : bytes) (s : Store) : Store * option kv_error :=
  if bool_decide (raw = []) then (mkStore ∅, None) else
  match unmarshal dec_map ∅ raw with
  | None => (s, Some ErrDecode)
  | Some restored => (mkStore restored, None)
  end.

#[global] Arguments TakeStoreSnapshot : simpl never.
#[global] Arguments RestoreSnapshot : simpl never.
#[global] Arguments Apply : simpl never.

(** ** Marshalled commands *)

Definition command_ok (c : Command) : Prop :=
  utf8_string (Command.Type_ c) ∧ utf8_string (Command.Key c) ∧ utf8_string (Command.Value c).

Lemma utf8_lit s : ascii_only (to_bytes s) = true → utf8 (lit s).
Proof. apply utf8_ascii. Qed.

Lemma enc_command_ok c : command_ok c → json_ok max_nesting (enc_command c).
Proof.
  intros (?&?&?). unfold enc_command. constructor; [done|].
  case_bool_decide; cbn [app]; repeat constructor; cbn [fst snd];
    eauto using enc_string_ok; by apply utf8_lit.
Qed.

Lemma first_field_command :
  ∃ ft fk fv, first_field command_fields (lit "type") = Some ft ∧
    first_field command_fields (lit "key") = Some fk ∧
    first_field command_fields (lit "value") = Some fv ∧
    (∀ j c, ft j c = (Command.mk (dec_string j (Command.Type_ c)).1 (Command.Key c) (Command.Value c), (dec_string j (Command.Type_ c)).2)) ∧
    (∀ j c, fk j c = (Command.mk (Command.Type_ c) (dec_string j (Command.Key c)).1 (Command.Value c), (dec_string j (Command.Key c)).2)) ∧
    (∀ j c, fv j c = (Command.mk (Command.Type_ c) (Command.Key c) (dec_string j (Command.Value c)).1, (dec_string j (Command.Value c)).2)).
Proof.
  do 3 eexists. split_and!; [vm_compute; reflexivity..| | |];
    intros j c; by destruct j.
Qed.

Lemma unmarshal_command c :
  command_ok c → unmarshal dec_command zero_command (marshal (enc_command c)) = Some c.
Proof.
  intros Hok. apply unmarshal_marshal; [by apply enc_command_ok|].
  destruct first_field_command as (ft & fk & fv & Et & Ek & Ev & Ht & Hk & Hv).
  unfold enc_command, dec_command, dec_struct. destruct c as [ty k v]. cbn [Command.Type_ Command.Key Command.Value].
  case_bool_decide as E; cbn [app fold_left]; unfold dec_member; cbn [fst snd];
    rewrite Et, Ek, ?Ev, Ht, Hk, ?Hv, !dec_enc_string; cbn; [by subst|done].
Qed.

Lemma Apply_put k v s :
  utf8_string k → utf8_string v →
  Apply (marshal (enc_command (Command.mk PutCmd k v))) s = (applyPut k v s, None).
Proof.
  intros. unfold Apply. rewrite unmarshal_command; [done|].
  split_and!; [by apply utf8_string_ascii|done..].
Qed.

Lemma Apply_delete k s :
  utf8_string k →
  Apply (marshal (enc_command (Command.mk DeleteCmd k ""))) s = (applyDelete k s, None).
Proof.
  intros. unfold Apply. rewrite unmarshal_command; [done|].
  split_and!; [by apply utf8_string_ascii|done|constructor].
Qed.

(** ** The store stays serializable *)

(** Keys and values are UTF-8. *)
Definition store_ok (s : Store) : Prop :=
  ∀ k v, data s !! k = Some v → utf8_string k ∧ utf8_string v.

Lemma dec_string_utf8 j old s :
  strings_ok j → utf8_string old → dec_string j old = (s, false) → utf8_string s.
Proof.
  intros Hj Hold. destruct j; simpl; intros [= <-]; try done.
  unfold utf8_string. rewrite to_of_bytes. by inversion Hj.
Qed.

Lemma dec_string_err j old s : dec_string j old = (s, true) → s = old.
Proof. destruct j; simpl; congruence. Qed.

Lemma utf8_string_empty : utf8_string "".
Proof. constructor. Qed.

(** Every string the decoder of a command leaves behind is UTF-8. *)
Lemma dec_string_keeps j old : strings_ok j → utf8_string old → utf8_string (dec_string j old).1.
Proof.
  intros Hj Ho. destruct (dec_string j old) as [s []] eqn:E; simpl.
  - by rewrite (dec_string_err _ _ _ E).
  - by eapply dec_string_utf8.
Qed.

Lemma dec_member_command_ok acc kv :
  strings_ok kv.2 → command_ok acc.1 → command_ok (dec_member command_fields acc kv).1.
Proof.
  intros Hj (Ht & Hk & Hv). unfold dec_member.
  destruct (first_field command_fields kv.1) as [d|] eqn:E; [|done].
  unfold command_fields, first_field in E.
  destruct (name_is "type" kv.1); [|destruct (name_is "key" kv.1);
    [|destruct (name_is "value" kv.1); [|done]]]; injection E as <-; unfold at_field;
    [pose proof (dec_string_keeps kv.2 (Command.Type_ acc.1) Hj Ht) as Hd
    |pose proof (dec_string_keeps kv.2 (Command.Key acc.1) Hj Hk) as Hd
    |pose proof (dec_string_keeps kv.2 (Command.Value acc.1) Hj Hv) as Hd];
    by destruct (dec_string kv.2 _).
Qed.

Lemma unmarshal_command_ok raw c :
  unmarshal dec_command zero_command raw = Some c → command_ok c.
Proof.
  intros H. apply unmarshal_strings_ok in H as (j & Hj & Hd).
  assert (command_ok zero_command) as H0 by (split_and!; constructor).
  destruct Hj as [| | | | |l Hl]; simpl in Hd; try congruence.
  assert (command_ok (fold_left (dec_member command_fields) l (zero_command, false)).1) as Hc;
    [|by rewrite Hd in Hc].
  assert (∀ acc, command_ok acc.1 → command_ok (fold_left (dec_member command_fields) l acc).1) as Hgo;
    [|by apply Hgo].
  clear Hd. induction Hl as [|kv l [_ Hkv] _ IH]; intros acc Hacc; [done|].
  cbn [fold_left]. apply IH. by apply dec_member_command_ok.
Qed.

Lemma unmarshal_map_ok raw m :
  unmarshal dec_map ∅ raw = Some m → store_ok (mkStore m).
Proof.
  intros H. apply unmarshal_strings_ok in H as (j & Hj & Hd).
  assert (store_ok (mkStore ∅)) as H0 by (intros k v; cbn; by rewrite lookup_empty).
  destruct Hj as [| | | | |l Hl]; simpl in Hd; simplify_eq/=; try done.
  assert (store_ok (mkStore (fold_left dec_entry l (∅, false)).1)) as Hc; [|by rewrite Hd in Hc].
  assert (∀ acc, store_ok (mkStore acc.1) → store_ok (mkStore (fold_left dec_entry l acc).1)) as Hgo;
    [|by apply Hgo].
  clear Hd. induction Hl as [|[k j] l [Hk Hj] _ IH]; intros acc Hacc; [done|].
  cbn [fold_left]. apply IH. unfold dec_entry. cbn [fst snd] in *.
  pose proof (dec_string_keeps j "" Hj utf8_string_empty) as Hv.
  destruct (dec_string j "") as [v' err]. cbn [fst] in *.
  intros k' v. cbn [data]. rewrite lookup_insert_Some. intros [[<- <-]|[_ ?]]; [|by apply Hacc].
  split; [|done]. unfold utf8_string. by rewrite to_of_bytes.
Qed.

Lemma Apply_store_ok raw s : store_ok s → store_ok (Apply raw s).1.
Proof.
  intros Hs. unfold Apply.
  destruct (unmarshal dec_command zero_command raw) as [c|] eqn:E; [|done].
  apply unmarshal_command_ok in E as (_ & Hk & Hv).
  case_bool_decide; [|case_bool_decide; [|done]]; intros k v; cbn.
  - rewrite lookup_insert_Some. intros [[<- <-]|[_ ?]]; [done|by apply Hs].
  - rewrite lookup_delete_Some. intros [_ ?]. by apply Hs.
Qed.

Lemma RestoreSnapshot_store_ok raw s : store_ok s → store_ok (RestoreSnapshot raw s).1.
Proof.
  intros Hs. unfold RestoreSnapshot. case_bool_decide.
  { intros k v. cbn. by rewrite lookup_empty. }
  destruct (unmarshal dec_map ∅ raw) eqn:E; [|done]. by apply (unmarshal_map_ok raw).
Qed.

(** ** Snapshots *)

Lemma enc_map_ok m : store_ok (mkStore m) → json_ok max_nesting (enc_map m).
Proof.
  intros Hm. unfold enc_map. constructor; [done|]. apply Forall_fmap, list.Forall_forall.
  intros k Hk. cbn. apply elem_of_sorted_keys in Hk as [v Hv].
  unfold map_get. rewrite Hv. destruct (Hm k v Hv). split; [done|]. by constructor.
Qed.

(** Decoding the entries of a map one by one rebuilds the map. *)
Lemma dec_entries m ks acc :
  (∀ k, k ∈ ks → is_Some (m !! k)) → acc ⊆ m →
  ∃ m', fold_left dec_entry (map (λ k, (to_bytes k, enc_string (map_get "" k m))) ks) (acc, false)
        = (m', false) ∧ m' ⊆ m ∧ acc ⊆ m' ∧ ∀ k, k ∈ ks → m' !! k = m !! k.
Proof.
  revert acc. induction ks as [|k ks IH]; intros acc Hks Hacc.
  { exists acc. split_and!; [done..|set_solver]. }
  destruct (Hks k) as [v Hv]; [set_solver|].
  destruct (IH (<[k:=v]> acc)) as (m' & E & Hsub & Hacc' & Hm').
  { set_solver. }
  { by apply insert_subseteq_l. }
  exists m'. split_and!; [|done| |].
  - cbn [map fold_left]. unfold dec_entry at 2. cbn [fst snd].
    replace (map_get "" k m) with v by (unfold map_get; by rewrite Hv).
    rewrite dec_enc_string, of_to_bytes. exact E.
  - apply map_subseteq_spec. intros k' v' Hk'. eapply lookup_weaken; [|done].
    destruct (decide (k = k')) as [<-|]; [|by rewrite lookup_insert_ne].
    rewrite lookup_insert_eq. eapply lookup_weaken in Hk'; [|done]. congruence.
  - intros k' [->|Hk']%elem_of_cons; [|by apply Hm'].
    rewrite Hv. eapply lookup_weaken; [|done]. by rewrite lookup_insert_eq.
Qed.

Lemma restore_snapshot m s :
  store_ok (mkStore m) → RestoreSnapshot (TakeStoreSnapshot (mkStore m)) s = (mkStore m, None).
Proof.
  intros Hm. unfold RestoreSnapshot. rewrite bool_decide_eq_false_2 by done.
  assert (unmarshal dec_map ∅ (TakeStoreSnapshot (mkStore m)) = Some m) as ->; [|done].
  apply unmarshal_marshal; [by apply enc_map_ok|]. unfold dec_map, enc_map. cbn [data].
  destruct (dec_entries m (sorted_keys m) ∅) as (m' & -> & Hsub & _ & Hm').
  { intros k. by rewrite elem_of_sorted_keys. }
  { apply map_empty_subseteq. }
  f_equal. apply map_eq. intros k. destruct (m !! k) as [v|] eqn:E.
  - rewrite <- E. apply Hm'. by apply elem_of_sorted_keys.
  - destruct (m' !! k) as [v|] eqn:E'; [|done].
    eapply lookup_weaken in E'; [|done]. congruence.
Qed.

(** ** Reachable stores *)

(** Any sequence of [Apply] and [RestoreSnapshot] calls on a new store, with
    arbitrary bytes. *)
Inductive store_reachable : Store → Prop :=
  | sr_new : store_reachable NewStore
  | sr_apply raw s : store_reachable s → store_reachable (Apply raw s).1
  | sr_restore raw s : store_reachable s → store_reachable (RestoreSnapshot raw s).1.

Lemma store_reachable_ok s : store_reachable s → store_ok s.
Proof.
  induction 1 as [|raw s _ IH|raw s _ IH].
  - intros k v. cbn. by rewrite lookup_empty.
  - by apply Apply_store_ok.
  - by apply RestoreSnapshot_store_ok.
Qed.

(** C27. Snapshot round trip: for every store reached by applying arbitrary
    log bytes and restoring arbitrary snapshot bytes, restoring its snapshot
    into any other store succeeds and gives exactly that store. *)
Theorem store_snapshot_roundtrip (s other : Store) :
  store_reachable s → RestoreSnapshot (TakeStoreSnapshot s) other = (s, None).
Proof.
  intros Hs. destruct s as [m]. apply restore_snapshot. by apply store_reachable_ok.
Qed.

Definition demo_put (k v : string) : bytes := marshal (enc_command (Command.mk PutCmd k v)).
Definition demo_store : Store :=
  (Apply (demo_put "b" "<2>") (Apply (demo_put "a" "1") NewStore).1).1.

Example demo_snapshot_bytes :
  TakeStoreSnapshot demo_store = q "{'a':'1','b':'\u003c2\u003e'}".
Proof. vm_compute. reflexivity. Qed.

Lemma store_snapshot_roundtrip_witness :
  demo_store ≠ NewStore ∧
  RestoreSnapshot (TakeStoreSnapshot demo_store) NewStore = (demo_store, None).
Proof.
  split; [vm_compute; discriminate|].
  apply (store_snapshot_roundtrip demo_store NewStore). repeat constructor.
Defined.

(** C28. What the store does with a command the service proposed: a put of
    UTF-8 strings sets exactly its key, a delete removes exactly its key, a
    later [Get] sees it; and bytes that do not decode change nothing and are
    reported. *)
Theorem apply_marshalled (k v : string) (raw : bytes) (s : Store)
    (Hk : utf8_string k) (Hv : utf8_string v) :
  (∃ s', Apply (marshal (enc_command (Command.mk PutCmd k v))) s = (s', None) ∧
     Get k s' = (v, true) ∧ ∀ k', k' ≠ k → Get k' s' = Get k' s) ∧
  (∃ s', Apply (marshal (enc_command (Command.mk DeleteCmd k ""))) s = (s', None) ∧
     Get k s' = ("", false) ∧ ∀ k', k' ≠ k → Get k' s' = Get k' s) ∧
  (unmarshal dec_command zero_command raw = None → Apply raw s = (s, Some ErrDecode)).
Proof.
  split_and!.
  - exists (applyPut k v s). split; [by apply Apply_put|]. unfold Get, applyPut, map_get. cbn [data].
    split; [by rewrite lookup_insert_eq, bool_decide_eq_true_2|].
    intros. by rewrite lookup_insert_ne.
  - exists (applyDelete k s). split; [by apply Apply_delete|].
    unfold Get, applyDelete, map_get. cbn [data].
    split; [|intros; by rewrite lookup_delete_ne].
    rewrite lookup_delete_eq, bool_decide_eq_false_2; [done|]. by intros [? ?].
  - unfold Apply. by intros ->.
Qed.

Lemma apply_marshalled_witness :
  ∃ s', Apply (demo_put "k" "v") NewStore = (s', None) ∧ Get "k" s' = ("v", true).
Proof.
  destruct (apply_marshalled "k" "v" [] NewStore) as [(s' & H1 & H2 & _) _].
  - by apply utf8_string_ascii.
  - by apply utf8_string_ascii.
  - exists s'. split; assumption.
Defined.
