(* ===== verification/KvService.v ===== *)
(** * KvService: the service between clients, consensus and the store

    [internal/service/kv.go].  [KV] is the struct; the consensus engine it
    drives is any type with a [Consensus] instance (the Go interface of
    [internal/consensus/consensus.go]; KvReplica.v gives the Raft node one).
    [handleApply] is the apply loop's step, cut at the points where the lock
    is released ([recordApply], [notifyApply], [maybeSnapshot]) so that
    the waiters of [waitApplied] can be interleaved with it; a call of
    [Put]/[Delete] is [propose] followed by the steps of a waiter.  Telemetry
    carries no state; the clock is a parameter. *)

From Stdlib Require Import Strings.Byte.
From S2P Require Import Prelude Types Utf8 Json GoJson GoStrings KvStore.
Open Scope Z_scope.

(** ** The consensus engine *)

Class Consensus (C : Type) := {
  cStartCommand : Z → bytes → C → outcome (C * (Z * bool));
  cIsLeader : C → bool;
  cSnapshot : Z → bytes → C → outcome (C * option error) }.

(** What the service relies on: in its well-formed states the engine does not
    panic on a snapshot request for an index it has committed, stays well
    formed, commits nothing by it, and the snapshots it may hand out later are
    those it had and the one it was given. *)
Class ConsensusContract (C : Type) `{Consensus C} := {
  engine_ok : C → Prop;
  engine_commit : C → Z;
  engine_snapshots : C → Z → bytes → Prop;
  engine_snapshot_total idx data c :
    engine_ok c → idx ≤ engine_commit c →
    ∃ c' err, cSnapshot idx data c = Ret (c', err) ∧ engine_ok c' ∧
      engine_commit c' = engine_commit c ∧
      ∀ i d, engine_snapshots c' i d → engine_snapshots c i d ∨ (i = idx ∧ d = data) }.

(** ** State *)

Module KV.
Record t {C : Type} : Type := mk {
  consensus : C;
  store : Store;
  SnapshotEvery : Z;
  lastAppliedIndex : Z;
  appliedSinceSnap : Z;
  applyNotifyCh : bool;
  appliedAtByIndex : gmap Z Z }.
Arguments t C : clear implicits.
Arguments mk {C}.

Section setters.
Context {C : Type}.
#[global] Instance set_consensus : SetField (@consensus C) := λ f k,
  mk (f (consensus k)) (store k) (SnapshotEvery k) (lastAppliedIndex k) (appliedSinceSnap k) (applyNotifyCh k) (appliedAtByIndex k).
#[global] Instance set_store : SetField (@store C) := λ f k,
  mk (consensus k) (f (store k)) (SnapshotEvery k) (lastAppliedIndex k) (appliedSinceSnap k) (applyNotifyCh k) (appliedAtByIndex k).
#[global] Instance set_lastAppliedIndex : SetField (@lastAppliedIndex C) := λ f k,
  mk (consensus k) (store k) (SnapshotEvery k) (f (lastAppliedIndex k)) (appliedSinceSnap k) (applyNotifyCh k) (appliedAtByIndex k).
#[global] Instance set_appliedSinceSnap : SetField (@appliedSinceSnap C) := λ f k,
  mk (consensus k) (store k) (SnapshotEvery k) (lastAppliedIndex k) (f (appliedSinceSnap k)) (applyNotifyCh k) (appliedAtByIndex k).
#[global] Instance set_applyNotifyCh : SetField (@applyNotifyCh C) := λ f k,
  mk (consensus k) (store k) (SnapshotEvery k) (lastAppliedIndex k) (appliedSinceSnap k) (f (applyNotifyCh k)) (appliedAtByIndex k).
#[global] Instance set_appliedAtByIndex : SetField (@appliedAtByIndex C) := λ f k,
  mk (consensus k) (store k) (SnapshotEvery k) (lastAppliedIndex k) (appliedSinceSnap k) (applyNotifyCh k) (f (appliedAtByIndex k)).
End setters.
End KV.
Notation KV := KV.t.
(** [uint64] arithmetic. *)
Definition u64 (z : Z) : Z := z mod 18446744073709551616.

Definition appliedAtRetention : Z := 4096.

Section service.
Context {C : Type} {HC : Consensus C}.
Implicit Types (s : KV C) (msg : ApplyMsg).

(** [NewKV]; [SnapshotEvery] is set by the caller afterwards. *)
Definition NewKV (c : C) (st : Store) (every : Z) : KV C :=
  KV.mk c st every 0 0 false ∅.

(** [kv.go: Get], [IsLeader]. *)
Definition KVGet (key : string) s : string * bool := Get key (KV.store s).
Definition KVIsLeader s : bool := cIsLeader (KV.consensus s).

(** [notifyApply]: a send on the one-slot channel that does not block. *)
Definition notifyApply s : KV C := s <| KV.applyNotifyCh := true |>.

(** [snapshot]. *)
Definition snapshot s : outcome (KV C * option kv_error) :=
  let lastAppliedIndex := KV.lastAppliedIndex s in
  let data := TakeStoreSnapshot (KV.store s) in
  '(c, err) ← cSnapshot lastAppliedIndex data (KV.consensus s);
  let s := s <| KV.consensus := c |> in
  match err with
  | Some e => Ret (s, Some (ErrConsensus e))
  | None => Ret (s <| KV.appliedSinceSnap := 0 |>, None)
  end.

(** What [handleApply] does next. *)
Inductive apply_next : Type :=
  | NextDone              (** nothing more to do *)
  | NextNotify            (** wake a waiter, then return *)
  | NextNotifySnapshot    (** wake a waiter, then snapshot if it is time *)
  | NextFail (e : kv_error).

(** [handleApply] up to the release of the lock. *)
Definition recordApply (now : Z) msg s : KV C * apply_next :=
  if ApplyMsg.SnapshotValid msg then
    match RestoreSnapshot (ApplyMsg.Snapshot msg) (KV.store s) with
    | (_, Some err) => (s, NextFail err)
    | (st, None) =>
        (s <| KV.store := st |>
           <| KV.lastAppliedIndex := ApplyMsg.SnapshotIndex msg |>
           <| KV.appliedSinceSnap := 0 |>, NextNotify)
    end
  else if negb (ApplyMsg.CommandValid msg) then (s, NextDone) else
  match Apply (ApplyMsg.Command msg) (KV.store s) with
  | (_, Some err) => (s, NextFail err)
  | (st, None) =>
      let idx := ApplyMsg.CommandIndex msg in
      let s := s <| KV.store := st |>
                 <| KV.lastAppliedIndex := idx |>
                 <| KV.appliedSinceSnap := u64 (KV.appliedSinceSnap s + 1) |> in
      let m := <[idx := now]> (KV.appliedAtByIndex s) in
      let cutoff := idx -! appliedAtRetention in
      let m := if 0 <? cutoff then delete cutoff m else m in
      (s <| KV.appliedAtByIndex := m |>, NextNotifySnapshot)
  end.

(** The end of [handleApply] on a command. *)
Definition maybeSnapshot s : outcome (KV C * option kv_error) :=
  if (0 <? KV.SnapshotEvery s) && (KV.SnapshotEvery s <=? KV.appliedSinceSnap s)
  then snapshot s else Ret (s, None).

Definition handleApply (now : Z) msg s : outcome (KV C * option kv_error) :=
  match recordApply now msg s with
  | (s, NextDone) => Ret (s, None)
  | (s, NextNotify) => Ret (notifyApply s, None)
  | (s, NextNotifySnapshot) => maybeSnapshot (notifyApply s)
  | (s, NextFail e) => Ret (s, Some e)
  end.

(** [RunApplyLoop] on the messages received before the channel is closed or
    the context cancelled, each with the time of its handling. *)
Fixpoint RunApplyLoop (msgs : list (Z * ApplyMsg)) s : outcome (KV C * option kv_error) :=
  match msgs with
  | [] => Ret (s, None)
  | (now, msg) :: msgs =>
      '(s, err) ← handleApply now msg s;
      match err with
      | Some e => Ret (s, Some e)
      | None => RunApplyLoop msgs s
      end
  end.

(** [startCommand] up to [waitApplied]: the index to wait for. *)
Definition propose (now : Z) (cmd : Command) s : outcome (KV C * (Z + kv_error)) :=
  let raw := marshal (enc_command cmd) in
  '(c, (index, isLeader)) ← cStartCommand now raw (KV.consensus s);
  let s := s <| KV.consensus := c |> in
  if negb isLeader then Ret (s, inr ErrNotLeader) else Ret (s, inl index).

(** [Put] and [Delete] differ in the command. *)
Definition KVPut (now : Z) (key value : string) s := propose now (Command.mk PutCmd key value) s.
Definition KVDelete (now : Z) (key : string) s := propose now (Command.mk DeleteCmd key "") s.

(** ** [waitApplied]: a waiter and its steps *)

Inductive wait_pc : Type :=
  | Checking    (** about to read [lastAppliedIndex] *)
  | Blocked     (** in the select *)
  | Acked       (** returned nil *)
  | TimedOut.   (** returned ErrCommitTimeout *)

(** The locked read, and the cleanup on success. *)
Definition waitCheck (index : Z) s : KV C * wait_pc :=
  if index <=? KV.lastAppliedIndex s
  then (match KV.appliedAtByIndex s !! index with
        | Some _ => s <| KV.appliedAtByIndex := delete index (KV.appliedAtByIndex s) |>
        | None => s
        end, Acked)
  else (s, Blocked).

(** One step of a waiter: the check, a wake-up that takes the token from the
    channel, or the end of its context; the last two compete. *)
Inductive wait_step (index : Z) : KV C → wait_pc → KV C → wait_pc → Prop :=
  | w_check s s' pc : waitCheck index s = (s', pc) → wait_step index s Checking s' pc
  | w_wake s :
      KV.applyNotifyCh s = true →
      wait_step index s Blocked (s <| KV.applyNotifyCh := false |>) Checking
  | w_timeout s : wait_step index s Blocked s TimedOut.

End service.
