(* ===== verification/KvEngine.v ===== *)
(** * KvEngine: the Raft node as the engine of the service

    The Raft node behind the [Consensus] interface
    ([internal/consensus/consensus.go]): [StartCommand], [IsLeader] and
    [Snapshot] are the handlers of Handlers.v, and the node discharges the
    contract the service relies on. *)

From Stdlib Require Import Strings.Byte.
From S2P Require Import Prelude Types Storage Timing Node Handlers Replication.
From S2P Require Import LogSpec AppendSpec SnapshotSpec.
From S2P Require Import Utf8 Json GoJson GoStrings KvStore KvService.
Open Scope Z_scope.

Section engine.
Context {S : Type} {HS : Storage S}.
Implicit Types (n : Node S).

#[export] Instance Node_consensus : Consensus (Node S) := {
  cStartCommand := StartCommand;
  cIsLeader := IsLeader;
  cSnapshot := TakeSnapshot }.

(** The snapshots a node may still deliver. *)
Definition node_snapshots n (i : Z) (d : bytes) : Prop :=
  ∃ sn, (Node.snapshot n = Some sn ∨ pendingSnapshot n = Some sn) ∧
        Snapshot.LastIncludedIndex sn = i ∧ Snapshot.Data sn = d.

Lemma TakeSnapshot_contract idx data n :
  wf n → idx ≤ commitIndex n →
  ∃ n' err, TakeSnapshot idx data n = Ret (n', err) ∧ wf n' ∧ commitIndex n' = commitIndex n ∧
    ∀ i d, node_snapshots n' i d → node_snapshots n i d ∨ (i = idx ∧ d = data).
Proof.
  intros Hwf Hidx. pose proof Hwf as [? ? ? ? _].
  destruct (TakeSnapshot_post idx data n Hwf) as (n' & err & E & Hpost); [lia|].
  exists n', err. split; [exact E|]. clear E.
  destruct (Z.leb_spec idx (snapshotIndex n)); [destruct Hpost as [-> _]; split_and!; auto|].
  destruct (Z.ltb_spec (snapshotIndex n + zlen (log n)) idx);
    [destruct Hpost as [-> _]; split_and!; auto|].
  destruct Hpost as (st & [(e & _ & ->)|(_ & e & He & ->)]).
  - split_and!; [by apply (wf_same n); [done|node_eq..]|done|]. intros i d Hd. by left.
  - split_and!; [by apply compactedTo_wf|done|].
    intros i d (sn & Hsn & <- & <-). cbn in Hsn. destruct Hsn as [[= <-]|Hp]; [by right|].
    left. exists sn. split; [by right|done].
Qed.

#[export] Instance Node_contract : ConsensusContract (Node S) := {
  engine_ok := wf;
  engine_commit := commitIndex;
  engine_snapshots := node_snapshots;
  engine_snapshot_total := TakeSnapshot_contract }.
End engine.

(** A leader of two with two committed puts in its log. *)
Module DemoEngine.
Definition put1 : bytes := demo_put "x" "1".
Definition put2 : bytes := demo_put "y" "2".
Definition node : Node InMemoryStorage.t :=
  blank_node "a" {["b"]} InMemoryStorage.NewInMemoryStorage
    <| role := Leader |> <| currentTerm := 1 |>
    <| log := [LogEntry.mk 1 EntryCommand put1; LogEntry.mk 1 EntryCommand put2] |>
    <| commitIndex := 2 |> <| config := mkClusterConfig ["a"; "b"] |>
    <| nextIndex := {["b" := 3]} |>.
Definition commands (i : Z) : bytes := if i =? 1 then put1 else put2.
Definition service : KV (Node InMemoryStorage.t) := NewKV node NewStore 1.

Lemma node_wf : wf node.
Proof. split; vm_compute; try done; split; done. Qed.
End DemoEngine.
