(* ===== verification/KvSpec.v ===== *)
(** * KvSpec: the service implements the replicated map

    The abstract state of the key-value service is [replay L k]: the commands
    of the log [L] up to index [k] applied to an empty store.  A service that
    receives its messages in the order the apply loop delivers them
    ([Delivery.delivered]) has, after each, the store and index of that
    abstract state, however commands and snapshots are mixed, and hands the
    engine only snapshots of it.  The second half is about the waiters of
    [waitApplied]: who is woken, and what a wake-up lost costs. *)

From Stdlib Require Import Strings.Byte.
From S2P Require Import Prelude Types Utf8 Json GoJson GoStrings KvStore KvService.
From S2P Require Import Storage KvEngine Delivery.
Open Scope Z_scope.

(** ** The abstract state *)

Definition replay (L : Z → bytes) (k : Z) : Store :=
  fold_left (λ s i, (Apply (L i) s).1) (seqZ 1 k) NewStore.

Lemma replay_0 L : replay L 0 = NewStore.
Proof. done. Qed.

Lemma replay_succ L k : 0 ≤ k → replay L (k + 1) = (Apply (L (k + 1)) (replay L k)).1.
Proof.
  intros Hk. unfold replay. destruct (Z_of_nat_complete k Hk) as [n ->].
  replace (Z.of_nat n + 1) with (Z.of_nat (S n)) by lia.
  rewrite seqZ_S, fold_left_app. cbn [fold_left].
  by replace (1 + Z.of_nat n) with (Z.of_nat (S n)) by lia.
Qed.

Lemma replay_reachable L k : store_reachable (replay L k).
Proof.
  unfold replay. assert (store_reachable NewStore) as H by constructor.
  revert H. generalize NewStore. induction (seqZ 1 k) as [|i l IH]; intros s Hs; [done|].
  cbn [fold_left]. apply IH. by constructor.
Qed.

Lemma restore_replay L k s :
  RestoreSnapshot (TakeStoreSnapshot (replay L k)) s = (replay L k, None).
Proof.
  pose proof (store_reachable_ok _ (replay_reachable L k)).
  destruct (replay L k). by apply restore_snapshot.
Qed.

(** A message the log [L] justifies. *)
Definition good_msg (L : Z → bytes) (msg : ApplyMsg) : Prop :=
  (ApplyMsg.SnapshotValid msg = true →
     ApplyMsg.Snapshot msg = TakeStoreSnapshot (replay L (ApplyMsg.SnapshotIndex msg))) ∧
  (ApplyMsg.CommandValid msg = true → ApplyMsg.Command msg = L (ApplyMsg.CommandIndex msg)).

Section refinement.
Context {C : Type} `{ConsensusContract C}.
Context (L : Z → bytes).
Implicit Types (s : KV C).

(** The service stands at index [k] of the log, its engine having committed
    up to [kc] at least. *)
Context (kc : Z).

Record reflects s (k : Z) : Prop := {
  r_store : KV.store s = replay L k;
  r_index : KV.lastAppliedIndex s = k;
  r_nonneg : 0 ≤ k;
  r_engine : engine_ok (KV.consensus s);
  r_commit : kc ≤ engine_commit (KV.consensus s);
  r_snapshots i d :
    engine_snapshots (KV.consensus s) i d → d = TakeStoreSnapshot (replay L i) }.

Lemma reflects_notify s k : reflects s k → reflects (notifyApply s) k.
Proof. by intros []. Qed.

Lemma snapshot_reflects s k :
  reflects s k → k ≤ kc →
  ∃ s' err, snapshot s = Ret (s', err) ∧ reflects s' k ∧ err ≠ Some ErrDecode ∧
    (err = None → KV.appliedSinceSnap s' = 0 ∧ KV.SnapshotEvery s' = KV.SnapshotEvery s).
Proof.
  intros [Hst Hidx Hk Hok Hc Hsn] Hle. unfold snapshot.
  destruct (engine_snapshot_total (KV.lastAppliedIndex s) (TakeStoreSnapshot (KV.store s))
    (KV.consensus s) Hok) as (c & err & E & Hc1 & Hc2 & Hsn'); [lia|].
  rewrite E. cbn [mbind outcome_bind].
  assert (∀ i d, engine_snapshots c i d → d = TakeStoreSnapshot (replay L i)) as Hsn1.
  { intros i d Hd. destruct (Hsn' _ _ Hd) as [|[-> ->]]; [by apply Hsn|]. by rewrite Hst, Hidx. }
  rewrite <- Hc2 in Hc.
  destruct err as [e|]; do 2 eexists; (split; [reflexivity|]); split_and!; by try split.
Qed.

(** One message, on every branch. *)
Lemma handle_command now s k :
  reflects s k → k + 1 ≤ kc →
  ∃ s' err, handleApply now (ApplyMsg.of_command (L (k + 1)) (k + 1)) s = Ret (s', err) ∧
    reflects s' (if bool_decide (err = Some ErrDecode) then k else k + 1).
Proof.
  intros Hr Hle. pose proof Hr as [Hst Hidx Hk Hok Hc Hsn].
  unfold handleApply, recordApply. cbn [ApplyMsg.SnapshotValid ApplyMsg.CommandValid ApplyMsg.of_command negb
    ApplyMsg.Command ApplyMsg.CommandIndex].
  pose proof (replay_succ L k Hk) as Hsucc. rewrite <- Hst in Hsucc.
  destruct (Apply (L (k + 1)) (KV.store s)) as [st [e|]] eqn:E.
  - assert (e = ErrDecode) as ->.
    { unfold Apply in E. repeat case_match; congruence. }
    by exists s, (Some ErrDecode).
  - cbn [fst] in Hsucc.
    match goal with |- context [maybeSnapshot (notifyApply ?x)] => set (s1 := x) end.
    assert (reflects s1 (k + 1)) as Hr1 by (split; cbn; [done|done|lia|done|done|done]).
    clearbody s1. apply reflects_notify in Hr1. unfold maybeSnapshot.
    destruct (_ && _).
    + destruct (snapshot_reflects _ _ Hr1 Hle) as (s' & err & -> & Hr' & Herr & _).
      exists s', err. split; [done|]. by rewrite bool_decide_eq_false_2.
    + by do 2 eexists.
Qed.

Lemma handle_snapshot now s i :
  0 ≤ i → engine_ok (KV.consensus s) → kc ≤ engine_commit (KV.consensus s) →
  (∀ i d, engine_snapshots (KV.consensus s) i d → d = TakeStoreSnapshot (replay L i)) →
  ∃ s', handleApply now (ApplyMsg.of_snapshot (TakeStoreSnapshot (replay L i)) i) s = Ret (s', None) ∧
    reflects s' i.
Proof.
  intros Hi Hok Hc Hsn. unfold handleApply, recordApply.
  cbn [ApplyMsg.SnapshotValid ApplyMsg.of_snapshot ApplyMsg.Snapshot ApplyMsg.SnapshotIndex].
  rewrite restore_replay. eexists. split; [reflexivity|]. by split.
Qed.

Lemma RunApplyLoop_app l1 l2 s :
  RunApplyLoop (l1 ++ l2) s =
    '(s, err) ← RunApplyLoop l1 s;
    match err with Some e => Ret (s, Some e) | None => RunApplyLoop l2 s end.
Proof.
  revert s. induction l1 as [|[now msg] l1 IH]; intros s; [done|].
  cbn [app RunApplyLoop]. destruct (handleApply now msg s) as [[s1 [e|]]|]; [done| |done].
  cbn [mbind outcome_bind]. apply IH.
Qed.

(** Fresh from index 0, or about to restore a snapshot. *)
Definition can_start (base : Z) (l : list ApplyMsg) s : Prop :=
  reflects s base ∨
  (engine_ok (KV.consensus s) ∧ kc ≤ engine_commit (KV.consensus s) ∧ 0 ≤ base ∧
   (∀ i d, engine_snapshots (KV.consensus s) i d → d = TakeStoreSnapshot (replay L i)) ∧
   ∃ data i l', l = ApplyMsg.of_snapshot data i :: l').

Lemma run_loop base l k tl s :
  delivered base l k → tl.*2 = l → Forall (good_msg L) l → can_start base l s → l ≠ [] ∨ reflects s base →
  k ≤ kc →
  ∃ s' err j, RunApplyLoop tl s = Ret (s', err) ∧ reflects s' j ∧ base ≤ j ≤ k ∧
    (err = None → j = k).
Proof.
  intros Hd. revert tl. induction Hd as [|l k cmd Hd IH|l k data idx Hd IH Hle];
    intros tl Htl Hgood Hstart Hne Hkc.
  - destruct tl; [|done]. destruct Hne as [?|Hr]; [done|].
    exists s, None, base. split_and!; [done..|lia|lia|done].
  - destruct tl as [|[now msg] tl _] using rev_ind; [by destruct l|].
    rewrite fmap_app in Htl. apply app_inj_tail in Htl as [Htl [= ->]].
    apply Forall_app in Hgood as [Hgl Hgm]. inversion_clear Hgm as [|?? [_ Hcmd] _].
    specialize (Hcmd eq_refl). cbn in Hcmd. subst cmd.
    destruct (IH tl Htl Hgl) as (s1 & err & j & Hrun & Hr & Hj & Herr).
    { destruct Hstart as [?|(?&?&?&?&d&i&l'&E)]; [by left|].
      destruct l as [|m l]; [done|]. right. split_and!; try done. injection E as -> _. by do 3 eexists. }
    { destruct Hstart as [?|(?&?&?&?&d&i&l'&E)]; [by right|]. left. by intros ->. }
    { lia. }
    rewrite RunApplyLoop_app, Hrun. cbn [mbind outcome_bind].
    destruct err as [e|]; [exists s1, (Some e), j; split_and!; [done..|lia|lia|done]|].
    specialize (Herr eq_refl) as ->. cbn [RunApplyLoop].
    destruct (handle_command now s1 k Hr Hkc) as (s2 & err & -> & Hr2). cbn [mbind outcome_bind].
    exists s2, err. case_bool_decide as Ee.
    + subst err. exists k. split_and!; [done..|lia|lia|done].
    + exists (k + 1). split_and!; [by destruct err|done|lia|lia|done].
  - destruct tl as [|[now msg] tl _] using rev_ind; [by destruct l|].
    rewrite fmap_app in Htl. apply app_inj_tail in Htl as [Htl [= ->]].
    apply Forall_app in Hgood as [Hgl Hgm]. inversion_clear Hgm as [|?? [Hsn _] _].
    specialize (Hsn eq_refl). cbn in Hsn. subst data.
    assert (∃ s1 err j, RunApplyLoop tl s = Ret (s1, err) ∧
      (err = None → engine_ok (KV.consensus s1) ∧ kc ≤ engine_commit (KV.consensus s1) ∧ 0 ≤ j ∧ base ≤ j ≤ k ∧
        ∀ i d, engine_snapshots (KV.consensus s1) i d → d = TakeStoreSnapshot (replay L i)) ∧
      (err ≠ None → reflects s1 j ∧ base ≤ j ≤ k)) as (s1 & err & j & Hrun & Hok & Hfail).
    { destruct Hstart as [Hr|(Hok&Hc&Hb&Hsn&d&i&l'&E)].
      - destruct (IH tl Htl Hgl) as (s1 & err & j & Hrun & Hr1 & Hj & Herr); [by left|by right|lia|].
        exists s1, err, j. split_and!; [done| |done]. intros He. by destruct Hr1.
      - destruct l as [|m l].
        + destruct tl; [|done]. exists s, None, base. inversion Hd; subst; [|by destruct l..].
          split_and!; [done| |done]. done.
        + destruct (IH tl Htl Hgl) as (s1 & err & j & Hrun & Hr1 & Hj & Herr).
          { right. split_and!; try done. injection E as -> _. by do 3 eexists. }
          { by left. }
          { lia. }
          exists s1, err, j. split_and!; [done| |done]. intros He. by destruct Hr1. }
    rewrite RunApplyLoop_app, Hrun. cbn [mbind outcome_bind].
    destruct err as [e|].
    { destruct Hfail as [Hr Hj]; [done|]. exists s1, (Some e), j. split_and!; [done..|lia|lia|done]. }
    destruct Hok as (Hok & ? & ? & ? & Hsn); [done|]. cbn [RunApplyLoop].
    destruct (handle_snapshot now s1 idx) as (s2 & -> & Hr2); [lia|done..|].
    cbn [mbind outcome_bind]. exists s2, None, idx. split_and!; [done..|lia|lia|done].
Qed.

(** C29. Refinement: fed the messages the apply loop delivers for the log [L],
    the service never panics, and at every point its store and index are those
    of the abstract map [replay L j]; with no error it has reached the last
    index delivered, and every snapshot in the engine is the abstract state at
    its index. *)
Theorem kv_refines_log base l k tl s :
  delivered base l k → tl.*2 = l → Forall (good_msg L) l → l ≠ [] → can_start base l s → k ≤ kc →
  ∃ s' err j, RunApplyLoop tl s = Ret (s', err) ∧
    KV.store s' = replay L j ∧ KV.lastAppliedIndex s' = j ∧ base ≤ j ≤ k ∧
    (err = None → j = k) ∧
    ∀ i d, engine_snapshots (KV.consensus s') i d → d = TakeStoreSnapshot (replay L i).
Proof.
  intros Hd Htl Hg Hne Hs Hkc.
  destruct (run_loop base l k tl s Hd Htl Hg Hs) as (s' & err & j & Hrun & [] & Hj & Herr); [by left|done|].
  destruct Hj. exists s', err, j. by split_and!.
Qed.
End refinement.

Definition demo_messages : list (Z * ApplyMsg) :=
  [(0, ApplyMsg.of_command DemoEngine.put1 1); (0, ApplyMsg.of_command DemoEngine.put2 2)].

Lemma kv_refines_log_witness :
  ∃ s' err j, RunApplyLoop demo_messages DemoEngine.service = Ret (s', err) ∧
    KV.store s' = replay DemoEngine.commands j ∧ KV.lastAppliedIndex s' = j ∧ 0 ≤ j ≤ 2 ∧
    (err = None → j = 2) ∧
    ∀ i d, engine_snapshots (KV.consensus s') i d →
      d = TakeStoreSnapshot (replay DemoEngine.commands i).
Proof.
  apply (kv_refines_log DemoEngine.commands 2 0 demo_messages.*2 2 demo_messages).
  - apply (d_command 0 [ApplyMsg.of_command DemoEngine.put1 1] 1 DemoEngine.put2).
    apply (d_command 0 [] 0 DemoEngine.put1). constructor.
  - reflexivity.
  - repeat constructor; discriminate.
  - discriminate.
  - left. split; [reflexivity|reflexivity|lia|apply DemoEngine.node_wf|cbn; lia|].
    intros i d (sn & [Hsn|Hsn] & _); discriminate.
  - lia.
Defined.

(** ** Waiters *)

(** The service with its apply loop, which holds what is left of the current
    [handleApply], and the calls of [waitApplied] in progress or returned. *)
Inductive loop_pc : Type :=
  | LIdle
  | LPending (next : apply_next)
  | LSnapshot
  | LStopped.

Record system (C : Type) : Type := mkSystem {
  svc : KV C;
  loop : loop_pc;
  waiters : list (Z * wait_pc) }.
Arguments mkSystem {C}.
Arguments svc {C}.
Arguments loop {C}.
Arguments waiters {C}.

Section waiters.
Context {C : Type} {HC : Consensus C}.
Implicit Types (s : KV C) (y : system C) (ws : list (Z * wait_pc)).

Inductive sys_step : system C → system C → Prop :=
  | y_record now msg s s' next ws :
      recordApply now msg s = (s', next) →
      sys_step (mkSystem s LIdle ws) (mkSystem s' (LPending next) ws)
  | y_done s ws : sys_step (mkSystem s (LPending NextDone) ws) (mkSystem s LIdle ws)
  | y_fail s e ws : sys_step (mkSystem s (LPending (NextFail e)) ws) (mkSystem s LStopped ws)
  | y_notify s ws :
      sys_step (mkSystem s (LPending NextNotify) ws) (mkSystem (notifyApply s) LIdle ws)
  | y_notify_snapshot s ws :
      sys_step (mkSystem s (LPending NextNotifySnapshot) ws)
               (mkSystem (notifyApply s) LSnapshot ws)
  | y_snapshot s s' err ws :
      maybeSnapshot s = Ret (s', err) →
      sys_step (mkSystem s LSnapshot ws)
               (mkSystem s' (match err with Some _ => LStopped | None => LIdle end) ws)
  | y_propose now cmd s s' idx pc ws :
      propose now cmd s = Ret (s', inl idx) →
      sys_step (mkSystem s pc ws) (mkSystem s' pc (ws ++ [(idx, Checking)]))
  | y_wait i idx wpc wpc' s s' pc ws :
      ws !! i = Some (idx, wpc) → wait_step idx s wpc s' wpc' →
      sys_step (mkSystem s pc ws) (mkSystem s' pc (<[i := (idx, wpc')]> ws)).

(** A run in which at most one call of [waitApplied] is unfinished at a time. *)
Definition active (w : Z * wait_pc) : Prop := w.2 = Checking ∨ w.2 = Blocked.

Definition one_active ws : Prop :=
  ∀ i j w w', ws !! i = Some w → ws !! j = Some w' → active w → active w' → i = j.

Definition lone_step y y' : Prop := sys_step y y' ∧ one_active (waiters y').

(** A blocked waiter whose index is applied has a wake-up coming. *)
Definition wake_coming y : Prop :=
  ∀ i idx, waiters y !! i = Some (idx, Blocked) → idx ≤ KV.lastAppliedIndex (svc y) →
    KV.applyNotifyCh (svc y) = true ∨
    loop y = LPending NextNotify ∨ loop y = LPending NextNotifySnapshot.

Lemma recordApply_cases now msg s s' next :
  recordApply now msg s = (s', next) →
  KV.applyNotifyCh s' = KV.applyNotifyCh s ∧
  (KV.lastAppliedIndex s' = KV.lastAppliedIndex s ∨ next = NextNotify ∨ next = NextNotifySnapshot).
Proof.
  unfold recordApply. intros H. repeat case_match; simplify_eq/=; auto.
Qed.

Lemma maybeSnapshot_frame s s' err :
  maybeSnapshot s = Ret (s', err) →
  KV.applyNotifyCh s' = KV.applyNotifyCh s ∧ KV.lastAppliedIndex s' = KV.lastAppliedIndex s ∧
  KV.store s' = KV.store s.
Proof.
  unfold maybeSnapshot, snapshot. destruct (_ && _); [|by intros [= <- <-]].
  destruct (cSnapshot _ _ _) as [[c e]|]; [|done]. cbn [mbind outcome_bind].
  destruct e; by intros [= <- <-].
Qed.

Lemma propose_frame now cmd s s' r :
  propose now cmd s = Ret (s', r) →
  KV.applyNotifyCh s' = KV.applyNotifyCh s ∧ KV.lastAppliedIndex s' = KV.lastAppliedIndex s ∧
  KV.store s' = KV.store s.
Proof.
  unfold propose. destruct (cStartCommand _ _ _) as [[c [idx leader]]|]; [|done].
  cbn [mbind outcome_bind]. destruct leader; by intros [= <- <-].
Qed.

Lemma wait_step_frame idx s pc s' pc' :
  wait_step idx s pc s' pc' →
  KV.lastAppliedIndex s' = KV.lastAppliedIndex s ∧ KV.store s' = KV.store s ∧
  (KV.applyNotifyCh s' = KV.applyNotifyCh s ∨ pc = Blocked ∧ pc' = Checking) ∧
  (pc = Checking ∧ pc' = Blocked → KV.lastAppliedIndex s < idx) ∧ (pc = Blocked → pc' ≠ Blocked) ∧
  (pc = Checking ∨ pc = Blocked).
Proof.
  destruct 1 as [s s' pc H|s H|s].
  - unfold waitCheck in H. destruct (Z.leb_spec idx (KV.lastAppliedIndex s)).
    + injection H as <- <-. case_match; split_and!; naive_solver.
    + injection H as <- <-. split_and!; naive_solver.
  - split_and!; naive_solver.
  - split_and!; naive_solver.
Qed.

Lemma lone_step_wake y y' :
  one_active (waiters y) → wake_coming y → lone_step y y' → wake_coming y'.
Proof.
  intros Hone Hw [Hstep _]. destruct Hstep; intros j idx' Hj Hle; cbn in *;
    try (specialize (Hw j idx' Hj); cbn in Hw; naive_solver).
  - apply recordApply_cases in H as [Ht Hl].
    destruct Hl as [Hl|[->| ->]]; [|by auto..]. rewrite Hl in Hle.
    destruct (Hw j idx' Hj Hle) as [Hx|[Hx|Hx]]; cbn in Hx; [|done..]. left. congruence.
  - apply maybeSnapshot_frame in H as (Ht & Hl & _). rewrite Hl in Hle. rewrite Ht.
    destruct (Hw j idx' Hj Hle) as [Hx|[Hx|Hx]]; cbn in Hx; by auto.
  - apply propose_frame in H as (Ht & Hl & _). rewrite Hl in Hle. rewrite Ht.
    apply lookup_app_Some in Hj as [Hj|[_ Hj]]; [exact (Hw j idx' Hj Hle)|].
    by destruct (j - length ws)%nat.
  - apply wait_step_frame in H0 as (Hl & _ & Ht & Hb & Hnb & Ha). rewrite Hl in Hle.
    destruct (decide (i = j)) as [<-|Hij].
    + rewrite list_lookup_insert_eq in Hj by (by eapply lookup_lt_Some). injection Hj as -> ->.
      destruct Ha as [->| ->]; [|by destruct (Hnb eq_refl)]. specialize (Hb (conj eq_refl eq_refl)). lia.
    + rewrite list_lookup_insert_ne in Hj by done.
      destruct Ht as [Ht|[-> ->]]; [rewrite Ht; by apply (Hw j idx' Hj Hle)|].
      destruct Hij. eapply Hone; [done..| |]; by right.
Qed.

(** C30. No lost wake-up with one waiter: in every run in which at most one
    call waits at a time, a blocked waiter whose index has been applied has a
    token in the channel, or the apply loop is about to put one; it then
    returns nil within two of its own steps, unless the deadline comes first. *)
Theorem lone_waiter_woken y0 y (i : nat) (idx : Z) :
  waiters y0 = [] → rtc lone_step y0 y → waiters y !! i = Some (idx, Blocked) →
  idx ≤ KV.lastAppliedIndex (svc y) →
  (KV.applyNotifyCh (svc y) = true ∧
     ∃ s1 s2, wait_step idx (svc y) Blocked s1 Checking ∧ wait_step idx s1 Checking s2 Acked) ∨
  (KV.applyNotifyCh (svc y) = false ∧
     (loop y = LPending NextNotify ∨ loop y = LPending NextNotifySnapshot) ∧
     ∃ y', sys_step y y' ∧ KV.applyNotifyCh (svc y') = true ∧ waiters y' = waiters y).
Proof.
  intros H0 Hrun Hi Hle.
  assert (one_active (waiters y0) ∧ wake_coming y0) as [Ho Hw].
  { unfold wake_coming, one_active. rewrite H0. split; intros ?; by rewrite lookup_nil. }
  assert (wake_coming y) as Hwy.
  { clear H0 Hi Hle. induction Hrun as [|a b c Hab _ IH]; [done|].
    apply IH; [by destruct Hab|by eapply lone_step_wake]. }
  specialize (Hwy i idx Hi Hle).
  destruct (KV.applyNotifyCh (svc y)) eqn:E.
  - left. split; [done|].
    destruct (waitCheck idx (svc y <| KV.applyNotifyCh := false |>)) as [s2 pc] eqn:Ec.
    assert (pc = Acked) as ->.
    { unfold waitCheck in Ec. cbn [KV.lastAppliedIndex set_field] in Ec.
      rewrite (proj2 (Z.leb_le _ _)) in Ec by done. by injection Ec. }
    do 2 eexists. split; [by constructor|by constructor].
  - right. split; [done|]. destruct Hwy as [?|Hl]; [done|]. split; [done|].
    destruct y as [s l ws]. cbn in *.
    destruct Hl as [-> | ->]; eexists; (split; [by constructor|done]).
Qed.
End waiters.

(** A waiter for index 1 blocked, then the message for it applied. *)
Definition demo_blocked : system (Node.Node InMemoryStorage.t) :=
  mkSystem DemoEngine.service LIdle [].

Lemma lone_waiter_woken_witness :
  ∃ y, rtc lone_step demo_blocked y ∧ waiters y !! 0%nat = Some (3, Blocked) ∧
    KV.lastAppliedIndex (svc y) = 3 ∧
    ((KV.applyNotifyCh (svc y) = true ∧
       ∃ s1 s2, wait_step 3 (svc y) Blocked s1 Checking ∧ wait_step 3 s1 Checking s2 Acked) ∨
     (KV.applyNotifyCh (svc y) = false ∧
       (loop y = LPending NextNotify ∨ loop y = LPending NextNotifySnapshot) ∧
       ∃ y', sys_step y y' ∧ KV.applyNotifyCh (svc y') = true ∧ waiters y' = waiters y)).
Proof.
  destruct (propose 0 (Command.mk PutCmd "z" "3") DemoEngine.service) as [[s1 r]|] eqn:E1;
    [|vm_compute in E1; discriminate].
  assert (r = inl 3) as -> by (vm_compute in E1; congruence).
  assert (KV.lastAppliedIndex s1 = 0) as H1 by (apply propose_frame in E1 as (_ & -> & _); done).
  destruct (recordApply 0 (ApplyMsg.of_command (demo_put "z" "3") 3) s1) as [s2 next] eqn:E2.
  assert (KV.lastAppliedIndex s2 = 3) as H2.
  { clear E1. unfold recordApply in E2.
    cbn [ApplyMsg.SnapshotValid ApplyMsg.CommandValid ApplyMsg.of_command negb
         ApplyMsg.Command ApplyMsg.CommandIndex] in E2.
    unfold demo_put in E2. rewrite Apply_put in E2 by (by apply utf8_string_ascii). by injection E2 as <- _. }
  assert (rtc lone_step demo_blocked (mkSystem s2 (LPending next) [(3, Blocked)])) as Hrun.
  { eapply rtc_l; [split; [by eapply y_propose|]|].
    { intros [|i] [|j] w w' Hi Hj _ _; by inversion Hi || by inversion Hj || done. }
    eapply rtc_l; [split; [eapply (y_wait 0); [reflexivity|]|]|].
    { apply (w_check 3 s1 s1 Blocked). unfold waitCheck. by rewrite H1. }
    { intros [|i] [|j] w w' Hi Hj _ _; by inversion Hi || by inversion Hj || done. }
    eapply rtc_l; [split; [by eapply y_record|]|reflexivity].
    intros [|i] [|j] w w' Hi Hj _ _; by inversion Hi || by inversion Hj || done. }
  eexists. split; [exact Hrun|]. split; [reflexivity|]. split; [exact H2|].
  apply (lone_waiter_woken demo_blocked _ 0 3).
  - reflexivity.
  - exact Hrun.
  - reflexivity.
  - cbn. lia.
Defined.
