(* ===== verification/KvReplica.v ===== *)
(** * KvReplica: the service on a Raft node

    The whole replica: handlers, apply loop and key-value service together.
    The store of a replica is the replay of its committed log; two replicas
    at the same index answer reads alike; and two ways, for any state that
    meets their conditions, in which [waitApplied] goes wrong. *)

From Stdlib Require Import Strings.Byte.
From S2P Require Import Prelude Types Storage Timing Node Handlers Replication.
From S2P Require Import LogSpec AppendSpec AppendProtocol CommitSpec ApplyLoop Recovery Replica Delivery.
From S2P Require Import Utf8 Json GoJson GoStrings KvStore KvService KvEngine KvSpec.
Open Scope Z_scope.

(** The commands of a node's log by index. *)
Definition log_command {S} (n : Node S) (i : Z) : bytes :=
  match entry_at n i with Some e => LogEntry.Command e | None => [] end.

(** A command some [Put] or [Delete] proposed. *)
Definition proposed_command (raw : bytes) : Prop :=
  ∃ c, command_ok c ∧ raw = marshal (enc_command c).

Lemma proposed_applies raw st : proposed_command raw → (Apply raw st).2 = None.
Proof.
  intros (c & Hc & ->). unfold Apply. rewrite unmarshal_command by done. by repeat case_match.
Qed.

Section replica.
Context {S : Type} {HS : Storage S}.

(** The contract without its clause on snapshots, for a service that takes
    none. *)
Definition plain_contract : ConsensusContract (Node S).
Proof.
  refine {| engine_ok := wf; engine_commit := commitIndex; engine_snapshots _ _ _ := False |}.
  intros idx data n Hwf Hi.
  destruct (TakeSnapshot_contract idx data n Hwf Hi) as (n' & err & ? & ? & ? & _).
  exists n', err. by split_and!.
Defined.

(** With snapshots disabled, applying proposed commands cannot fail. *)
Lemma run_no_error (tl : list (Z * ApplyMsg)) (s s' : KV (Node S)) err :
  KV.SnapshotEvery s = 0 →
  (∀ msg, msg ∈ tl.*2 → ApplyMsg.SnapshotValid msg = false ∧
     (ApplyMsg.CommandValid msg = true → proposed_command (ApplyMsg.Command msg))) →
  RunApplyLoop tl s = Ret (s', err) → err = None.
Proof.
  revert s. induction tl as [|[now msg] tl IH]; intros s Hev Htl; [by intros [= _ <-]|].
  destruct (Htl msg) as [Hsv Hcv]; [set_solver|].
  cbn [RunApplyLoop]. unfold handleApply, recordApply. rewrite Hsv.
  destruct (ApplyMsg.CommandValid msg); cbn [negb].
  - pose proof (proposed_applies _ (KV.store s) (Hcv eq_refl)) as Ha.
    destruct (Apply (ApplyMsg.Command msg) (KV.store s)) as [st e]. cbn in Ha. subst e.
    match goal with |- context [maybeSnapshot ?x] => set (s1 := x) end.
    assert (KV.SnapshotEvery s1 = 0) as Hev1 by done. clearbody s1.
    unfold maybeSnapshot. rewrite Hev1. cbn [Z.ltb Z.compare andb mbind outcome_bind].
    apply IH; [done|]. set_solver.
  - cbn [mbind outcome_bind]. apply IH; [done|]. set_solver.
Qed.

(** C31. The store of a replica is its committed log, for a service without
    snapshots ([SnapshotEvery = 0]).  A fresh node whose log starts at index 0
    goes through any interleaving of handlers and apply loop that neither
    compacts the log nor delivers a snapshot message, and every command it has
    committed is one that [Put] or [Delete] marshalled.  Then the service,
    started on an empty store and fed all the messages the loop sent so far,
    ends without a panic or an error at the last delivered index [k], at most
    the commit index, with the store that replaying the log up to [k] gives. *)
Theorem replica_store_is_log (n : Node S) (M : machine S) (tl : list (Z * ApplyMsg)) :
  fresh n → snapshotIndex n = 0 → rtc mstep (mkMachine AwaitNotify n []) M →
  snapshotIndex (mnode M) = 0 →
  (∀ msg, msg ∈ sent M → ApplyMsg.SnapshotValid msg = false) →
  (∀ i, 0 < i ≤ commitIndex (mnode M) → proposed_command (log_command (mnode M) i)) →
  tl.*2 = sent M →
  ∃ s' k, RunApplyLoop tl (NewKV (mnode M) NewStore 0) = Ret (s', None) ∧
    0 ≤ k ≤ commitIndex (mnode M) ∧ delivered 0 (sent M) k ∧
    KV.lastAppliedIndex s' = k ∧ KV.store s' = replay (log_command (mnode M)) k.
Proof.
  intros Hf Hn Hr HM Hsv Hcmd Htl. pose proof Hf as (_ & _ & Ha & _).
  destruct (minv_reachable n M Hf Hr) as [Hwf Hok (k & Hd & Hk) _ Hc].
  rewrite Ha, Hn in Hd. pose proof Hwf as [? ? ? ? Hsn].
  assert (k ≤ commitIndex (mnode M)) as Hkc by (destruct (mpc M); simpl in Hk; lia).
  assert (∀ l j, delivered 0 l j → (∀ msg, msg ∈ l → msg ∈ sent M) →
    0 ≤ j ∧ ∀ msg, msg ∈ l → ApplyMsg.CommandValid msg = true → 0 < ApplyMsg.CommandIndex msg) as Hpos.
  { induction 1 as [|l j c Hl IH|l j d i Hl IH Hji]; intros Hin; [split; [lia|set_solver]| |];
      (destruct IH as [Hj Hm]; [set_solver|]; split; [lia|]);
      intros msg [?| ->%list_elem_of_singleton]%elem_of_app; try (by apply Hm); cbn; [lia|done]. }
  assert (∀ msg, msg ∈ sent M → ApplyMsg.CommandValid msg = true →
    ApplyMsg.Command msg = log_command (mnode M) (ApplyMsg.CommandIndex msg) ∧
    0 < ApplyMsg.CommandIndex msg ≤ commitIndex (mnode M)) as Hmsg.
  { intros msg Hin Hv. destruct (Hc msg Hin Hv) as [Hle Hent].
    pose proof (proj2 (Hpos _ _ Hd (λ _ H, H)) msg Hin Hv) as Hgt. split; [|done].
    unfold log_command.
    destruct (log_at_is_Some (snapshotIndex (mnode M)) (log (mnode M)) (ApplyMsg.CommandIndex msg))
      as [e He]; [lia|]. unfold entry_at in *. rewrite He. symmetry. by apply Hent. }
  destruct (@run_loop _ _ plain_contract (log_command (mnode M)) k 0 (sent M) k tl
    (NewKV (mnode M) NewStore 0)) as (s' & err & j & Hrun & [] & Hj & Herr); try done.
  - apply list.Forall_forall. intros msg Hin. split; [by rewrite Hsv|]. intros Hv. by apply Hmsg.
  - left. by split.
  - right. by split.
  - assert (err = None) as ->.
    { eapply run_no_error; [|..|exact Hrun]; [done|]. rewrite Htl. intros msg Hin.
      split; [by apply Hsv|]. intros Hv. destruct (Hmsg msg Hin Hv) as [-> ?]. by apply Hcmd. }
    specialize (Herr eq_refl) as ->. exists s', k. split_and!; try done; lia.
Qed.
End replica.

(** A fresh replica with two committed puts, notified. *)
Definition demo_replica : Node InMemoryStorage.t :=
  DemoEngine.node <| Node.applyNotifyCh := true |>.

Definition observed (r : outcome (apply_pc * Node InMemoryStorage.t * list ApplyMsg)) :=
  match r with
  | Ret (_, n, msgs) => Some (snapshotIndex n, commitIndex n, log n, msgs)
  | Panic => None
  end.

Lemma demo_replica_run :
  observed (applyRun 9 0 AwaitNotify demo_replica) =
  Some (0, 2, log DemoEngine.node,
        [ApplyMsg.of_command DemoEngine.put1 1; ApplyMsg.of_command DemoEngine.put2 2]).
Proof. vm_compute. reflexivity. Qed.

Lemma demo_replica_fresh : fresh demo_replica.
Proof.
  split_and!; [|by vm_compute..]. split; vm_compute; try done; split; done.
Qed.

Lemma demo_put_proposed k v : utf8_string k → utf8_string v → proposed_command (demo_put k v).
Proof. intros. exists (Command.mk PutCmd k v). split; [|done]. split_and!; try done. by apply utf8_string_ascii. Qed.

Lemma replica_store_is_log_witness :
  ∃ M s', rtc mstep (mkMachine AwaitNotify demo_replica []) M ∧
    RunApplyLoop demo_messages (NewKV (mnode M) NewStore 0) = Ret (s', None) ∧
    KV.store s' = replay (log_command (mnode M)) (KV.lastAppliedIndex s').
Proof.
  pose proof demo_replica_run as Hrun.
  destruct (applyRun 9 0 AwaitNotify demo_replica) as [[[pc n'] msgs]|] eqn:E; [|discriminate].
  cbn [observed] in Hrun. injection Hrun as Hsi Hci Hlog Hmsgs. subst msgs.
  pose proof (applyRun_steps _ _ _ _ _ _ _ [] E) as Hr. cbn [app] in Hr.
  set (M := mkMachine _ _ _) in Hr at 2.
  destruct (replica_store_is_log demo_replica M demo_messages) as (s' & k & Hs & _ & _ & Hk & Hst).
  - exact demo_replica_fresh.
  - reflexivity.
  - exact Hr.
  - exact Hsi.
  - intros msg Hin. subst M. cbn in Hin. repeat (apply elem_of_cons in Hin as [->|Hin]; [done|]).
    by apply elem_of_nil in Hin.
  - intros i Hi. subst M. cbn [mnode] in *. rewrite Hci in Hi. unfold log_command, entry_at.
    rewrite Hsi, Hlog. assert (i = 1 ∨ i = 2) as [-> | ->] by lia.
    + change (proposed_command DemoEngine.put1).
      apply (demo_put_proposed "x" "1"); by apply utf8_string_ascii.
    + change (proposed_command DemoEngine.put2).
      apply (demo_put_proposed "y" "2"); by apply utf8_string_ascii.
  - reflexivity.
  - exists M, s'. split; [exact Hr|]. split; [exact Hs|]. by rewrite Hk.
Defined.

(** ** What [waitApplied] acknowledges *)

Section overwritten.
Context {S : Type} {HS : Storage S}.
Implicit Types (s : KV (Node S)).

(** An accepted call: the command is the last entry of the leader's log, in
    the leader's term, and its index is what the caller waits for. *)
Lemma propose_accepted now cmd s s1 i :
  let n := KV.consensus s in
  let n1 := KV.consensus s1 in
  wf n → snapshotIndex n + zlen (log n) + 1 < max_int64 →
  propose now cmd s = Ret (s1, inl i) →
  s1 = s <| KV.consensus := n1 |> ∧ wf n1 ∧ snapshotIndex n < i ∧ snapshotIndex n1 = snapshotIndex n ∧
  currentTerm n1 = currentTerm n ∧ lastApplied n1 = lastApplied n ∧
  pendingSnapshot n1 = pendingSnapshot n ∧
  entry_at n1 i = Some (LogEntry.mk (currentTerm n) EntryCommand (marshal (enc_command cmd))).
Proof.
  intros n n1 Hwf Hroom. subst n1. unfold propose. cbn [cStartCommand Node_consensus].
  destruct (StartCommand_post now (marshal (enc_command cmd)) n Hwf Hroom) as (n' & [j b] & E & Hpost).
  unfold n in E. rewrite E. cbn [mbind outcome_bind]. destruct b; cbn [negb]; [|done]. intros [= <- <-].
  cbn [KV.consensus set_field KV.set_consensus]. split; [done|].
  pose proof (zlen_nonneg (log n)).
  inversion Hpost as [| |st ? ? ? p Hn'|st st' c ? ? ? p Hc Hcm Hn']; subst; try done.
  - destruct (proposed_client now (marshal (enc_command cmd)) st n p (notifyReplicate p))
      as (? & (_ & _ & ? & _) & _); [by apply proposed_wf|done|apply Hwf|subst p; node_eq..|].
    split_and!; try (by subst p); lia.
  - pose proof (committed_wf c now st' p (proposed_wf _ _ st n Hwf Hroom) Hc) as Hwfc.
    destruct Hn' as [-> | ->];
      match goal with |- wf ?m ∧ _ =>
        destruct (proposed_client now (marshal (enc_command cmd)) st n (committed c now st' p) m)
          as (? & (_ & _ & ? & _) & _) end;
      try (subst p; node_eq); try done; try apply Hwf; split_and!; (by subst p) || (simpl in *; lia).
Qed.

(** A request of a higher term that replaces the entry at its first index and
    commits it there. *)
Lemma replaced_entry now req n n2 resp x e :
  let i := AppendEntriesRequest.PrevLogIndex req + 1 in
  wf n → req_fits req → snapshotIndex n < i → commitIndex n < i →
  entry_at n i = Some x → LogEntry.Term x ≠ LogEntry.Term e →
  AppendEntriesRequest.Entries req !! 0%nat = Some e →
  AppendEntriesRequest.LeaderCommit req = i →
  HandleAppendEntries now req n = Ret (n2, Val resp) →
  AppendEntriesResponse.Success resp = true →
  wf n2 ∧ entry_at n2 i = Some e ∧ commitIndex n2 = i ∧ applyNotifyCh n2 = true ∧
  lastApplied n2 = lastApplied n ∧ snapshotIndex n2 = snapshotIndex n.
Proof.
  intros i Hwf Hfit Hsn Hci Hx Hne He Hlc Hop Hs.
  destruct (HandleAppendEntries_post now req n Hwf Hfit) as (? & ? & E & Hp).
  rewrite Hop in E. injection E as <- <-.
  assert (no_committed_conflict req n) as Hno by (intros j e' y _ _ ?; unfold i in *; lia).
  destruct (append_post_invariant req n n2 _ Hwf Hfit Hno Hp) as (Hwf2 & _ & _ & _ & Ha).
  destruct (append_post_success _ _ _ _ Hp Hs) as (Hpm & _ & _ & _ & Hsi & Hl & Hc & Hnot).
  destruct (merged_received req n n2 Hpm Hsi Hl) as (_ & Hrec & _).
  assert (AppendEntriesRequest.PrevLogIndex req + Z.of_nat 0 + 1 = i) as Ei by (unfold i; lia).
  destruct (Hrec 0%nat e He) as (y & Hy & Hyt & Hor); [lia|]. rewrite Ei in Hy, Hor.
  assert (y = e) as -> by (destruct Hor as [?|Hold]; [done|congruence]).
  assert (commitIndex n2 = i) as Hc2.
  { rewrite Hc. unfold followed. apply log_at_Some in Hy. rewrite Hsi, Hl in Hy.
    destruct Hwf2 as [? ? ? Hroom2 _]. rewrite Hsi, Hl in Hroom2.
    rewrite lastLogIndex_eq by (simpl; lia). simpl. rewrite Hlc.
    rewrite (proj2 (Z.ltb_lt _ _)) by lia. lia. }
  split_and!; try done. apply Hnot. lia.
Qed.

(** C32. [waitApplied] acknowledges an index, not a command.  A leader accepts
    [Put key mine] for index [i], everything before [i] being applied and
    nothing from [i] on committed, and the caller blocks.  A leader of a later
    term replaces the entry by its own put of [theirs] for the same key and
    commits it, by an AppendEntries request this node acknowledges.  Then the
    apply loop delivers that entry, the service applies it, wakes the waiter,
    and the first call returns success, although its command is in no log and
    the store holds [theirs]. *)
Theorem overwritten_write_acknowledged
    now key mine theirs (s s1 : KV (Node S)) i req (n2 : Node S) resp fuel :
  utf8_string key → utf8_string theirs → KV.SnapshotEvery s = 0 →
  let n := KV.consensus s in
  wf n → snapshotIndex n + zlen (log n) + 1 < max_int64 →
  lastApplied n = i - 1 → KV.lastAppliedIndex s = i - 1 → pendingSnapshot n2 = None →
  KVPut now key mine s = Ret (s1, inl i) →
  commitIndex (KV.consensus s1) < i →
  let theirs_entry := LogEntry.mk (AppendEntriesRequest.Term req) EntryCommand
    (marshal (enc_command (Command.mk PutCmd key theirs))) in
  currentTerm n < AppendEntriesRequest.Term req → req_fits req →
  AppendEntriesRequest.PrevLogIndex req = i - 1 →
  AppendEntriesRequest.Entries req !! 0%nat = Some theirs_entry →
  AppendEntriesRequest.LeaderCommit req = i →
  HandleAppendEntries now req (KV.consensus s1) = Ret (n2, Val resp) →
  AppendEntriesResponse.Success resp = true →
  (9 ≤ fuel)%nat →
  waitCheck i s1 = (s1, Blocked) ∧
  entry_at (KV.consensus s1) i = Some (LogEntry.mk (currentTerm n) EntryCommand
    (marshal (enc_command (Command.mk PutCmd key mine)))) ∧
  entry_at n2 i = Some theirs_entry ∧ commitIndex n2 = i ∧
  ∃ n3 msgs s3,
    applyRun fuel now AwaitNotify n2 = Ret (AwaitNotify, n3, msgs) ∧
    RunApplyLoop ((λ msg, (now, msg)) <$> msgs) (s1 <| KV.consensus := n3 |>) = Ret (s3, None) ∧
    KV.applyNotifyCh s3 = true ∧ (waitCheck i s3).2 = Acked ∧ KVGet key s3 = (theirs, true).
Proof.
  intros Hk Hv Hev n Hwf Hroom Ha Hka Hps Hput Hci te HT Hfit Hprev He Hlc Hop Hs Hfuel. subst n.
  destruct (propose_accepted _ _ _ _ _ Hwf Hroom Hput) as (E1 & Hwf1 & Hsn & Hsi1 & Ht1 & Ha1 & _ & Hx).
  assert (AppendEntriesRequest.PrevLogIndex req + 1 = i) as Ei by lia.
  destruct (replaced_entry now req (KV.consensus s1) n2 resp
    (LogEntry.mk (currentTerm (KV.consensus s)) EntryCommand
      (marshal (enc_command (Command.mk PutCmd key mine)))) te)
    as (Hwf2 & He2 & Hc2 & Hn2 & Ha2 & Hs2); rewrite ?Ei; try done; [lia|simpl; lia|].
  rewrite Ei in *. split_and!; try done.
  { unfold waitCheck. rewrite E1. cbn. by rewrite (proj2 (Z.leb_gt _ _)) by lia. }
  destruct fuel as [|fuel]; [lia|].
  destruct (drain_from now (i - 1) fuel n2 (n2 <| applyNotifyCh := false |>))
    as (n3 & Hrun & _); try done; [destruct Hwf1; lia|lia|simpl; lia|lia|].
  assert (commands n2 (i - 1) (commitIndex n2) = [ApplyMsg.of_command (LogEntry.Command te) i]) as Hcmds.
  { rewrite Hc2, (commands_cons n2 (i - 1) i te) by (lia || (by replace (i - 1 + 1) with i by lia)).
    unfold commands. by replace (i - (i - 1 + 1)) with 0 by lia; replace (i - 1 + 1) with i by lia. }
  exists n3, [ApplyMsg.of_command (LogEntry.Command te) i]. eexists. split_and!.
  - rewrite applyRun_S. cbn [applyStep]. rewrite Hn2. cbn [mbind outcome_bind].
    rewrite Hrun, Hcmds. done.
  - cbn [fmap list_fmap RunApplyLoop]. unfold handleApply, recordApply.
    cbn [ApplyMsg.SnapshotValid ApplyMsg.CommandValid ApplyMsg.of_command negb
         ApplyMsg.Command ApplyMsg.CommandIndex LogEntry.Command te].
    rewrite Apply_put by done. unfold maybeSnapshot.
    match goal with |- context [KV.SnapshotEvery ?x] =>
      replace (KV.SnapshotEvery x) with 0 by (rewrite E1; symmetry; exact Hev) end.
    reflexivity.
  - done.
  - unfold waitCheck. cbn. rewrite Z.leb_refl. by case_match.
  - unfold KVGet, Get, map_get. cbn. by rewrite lookup_insert_eq, bool_decide_eq_true_2.
Qed.
End overwritten.

(** Three replicas; the leader of term 1 has an empty log, and the leader of
    term 2 puts another value at index 1. *)
Module Overwritten.
Definition old_leader : Node InMemoryStorage.t :=
  blank_node "a" {["b"; "c"]} InMemoryStorage.NewInMemoryStorage
    <| role := Leader |> <| currentTerm := 1 |>
    <| config := mkClusterConfig ["a"; "b"; "c"] |> <| nextIndex := {["b" := 1; "c" := 1]} |>.

Definition service : KV (Node InMemoryStorage.t) := NewKV old_leader NewStore 0.

Definition from_new_leader : AppendEntriesRequest :=
  AppendEntriesRequest.mk 2 "b" 0 0 [LogEntry.mk 2 EntryCommand (demo_put "k" "theirs")] 1.

Lemma old_leader_wf : wf old_leader.
Proof. split; vm_compute; try done; split; done. Qed.

Lemma from_new_leader_fits : req_fits from_new_leader.
Proof. by split; vm_compute. Qed.

(** The put and the request, and what the theorem asks about them. *)
Lemma accepted_then_replaced :
  ∃ s1 n2 resp, KVPut 0 "k" "mine" service = Ret (s1, inl 1) ∧
    commitIndex (KV.consensus s1) = 0 ∧
    HandleAppendEntries 0 from_new_leader (KV.consensus s1) = Ret (n2, Val resp) ∧
    AppendEntriesResponse.Success resp = true ∧ pendingSnapshot n2 = None.
Proof.
  assert (match KVPut 0 "k" "mine" service with
    | Ret (s1, inl 1) =>
        match HandleAppendEntries 0 from_new_leader (KV.consensus s1) with
        | Ret (n2, Val resp) => (commitIndex (KV.consensus s1) =? 0) &&
            AppendEntriesResponse.Success resp &&
            match pendingSnapshot n2 with None => true | Some _ => false end
        | _ => false
        end
    | _ => false
    end = true) as H by (vm_compute; reflexivity).
  destruct (KVPut 0 "k" "mine" service) as [[s1 [[|[]|]|]]|] eqn:E1; try discriminate.
  destruct (HandleAppendEntries 0 from_new_leader (KV.consensus s1)) as [[n2 [resp|]]|] eqn:E2;
    try discriminate.
  apply andb_prop in H as [[H1%Z.eqb_eq H2]%andb_prop H3].
  exists s1, n2, resp. split_and!; try done. by destruct (pendingSnapshot n2).
Qed.
End Overwritten.

Lemma overwritten_write_acknowledged_witness :
  ∃ s1 n2 (s3 : KV (Node InMemoryStorage.t)) resp, KVPut 0 "k" "mine" Overwritten.service = Ret (s1, inl 1) ∧
    HandleAppendEntries 0 Overwritten.from_new_leader (KV.consensus s1) = Ret (n2, Val resp) ∧
    waitCheck 1 s1 = (s1, Blocked) ∧ (waitCheck 1 s3).2 = Acked ∧ KVGet "k" s3 = ("theirs", true).
Proof.
  destruct Overwritten.accepted_then_replaced as (s1 & n2 & resp & Hput & Hc & Hop & Hs & Hp).
  destruct (overwritten_write_acknowledged 0 "k" "mine" "theirs" Overwritten.service s1 1
    Overwritten.from_new_leader n2 resp 9) as (H1 & _ & _ & _ & n3 & msgs & s3 & _ & _ & _ & H2 & H3).
  - by apply utf8_string_ascii.
  - by apply utf8_string_ascii.
  - reflexivity.
  - exact Overwritten.old_leader_wf.
  - by vm_compute.
  - reflexivity.
  - reflexivity.
  - exact Hp.
  - exact Hput.
  - rewrite Hc. lia.
  - reflexivity.
  - exact Overwritten.from_new_leader_fits.
  - reflexivity.
  - reflexivity.
  - reflexivity.
  - exact Hop.
  - exact Hs.
  - lia.
  - exists s1, n2, s3, resp. split_and!; [exact Hput|exact Hop|exact H1|exact H2|exact H3].
Defined.

(** ** Two waiters *)

Section two_waiters.
Context {C : Type} {HC : Consensus C}.
Implicit Types (s : KV C).

(** Handling a put for the next index, as three steps of the system. *)
Lemma handle_put_steps s k v idx ws :
  utf8_string k → utf8_string v → KV.SnapshotEvery s = 0 →
  ∃ s', rtc sys_step (mkSystem s LIdle ws) (mkSystem s' LIdle ws) ∧
    KV.lastAppliedIndex s' = idx ∧ KV.applyNotifyCh s' = true ∧ KV.SnapshotEvery s' = 0.
Proof.
  intros Hk Hv Hev.
  destruct (recordApply 0 (ApplyMsg.of_command (demo_put k v) idx) s) as [s1 next] eqn:E.
  assert (KV.lastAppliedIndex s1 = idx ∧ KV.SnapshotEvery s1 = 0 ∧ next = NextNotifySnapshot)
    as (H1 & H2 & ->).
  { unfold recordApply in E.
    cbn [ApplyMsg.SnapshotValid ApplyMsg.CommandValid ApplyMsg.of_command negb
         ApplyMsg.Command ApplyMsg.CommandIndex] in E.
    unfold demo_put in E. rewrite Apply_put in E by done. by injection E as <- <-. }
  exists (KvService.notifyApply s1). split; [|done].
  eapply rtc_l; [by eapply y_record|]. eapply rtc_l; [apply y_notify_snapshot|].
  eapply rtc_l; [|reflexivity].
  apply (y_snapshot _ (KvService.notifyApply s1) None).
  assert (KV.SnapshotEvery (KvService.notifyApply s1) = 0) as H3 by exact H2.
  unfold maybeSnapshot. by rewrite H3.
Qed.

(** C33. A wake-up is lost with two waiters: after two accepted puts whose
    callers block, and both messages handled before either caller runs, the
    channel held one token for two of them; one caller is acknowledged, the
    other stays blocked although its index is applied, with an idle loop and
    an empty channel, and the only step it has left is the timeout. *)
Theorem lost_wakeup s s1 s2 cmd1 cmd2 i j :
  propose 0 cmd1 s = Ret (s1, inl i) → propose 0 cmd2 s1 = Ret (s2, inl j) → i < j →
  KV.SnapshotEvery s2 = 0 → KV.applyNotifyCh s2 = false → KV.lastAppliedIndex s2 < i →
  ∃ y, rtc sys_step (mkSystem s LIdle []) y ∧
    waiters y = [(i, Acked); (j, Blocked)] ∧ loop y = LIdle ∧
    KV.lastAppliedIndex (svc y) = j ∧
    ∀ s' pc', wait_step j (svc y) Blocked s' pc' → pc' = TimedOut.
Proof.
  intros E1 E2 Hij Hev Htok Hlast.
  assert (∀ idx, i ≤ idx → waitCheck idx s2 = (s2, Blocked)) as Hblock.
  { intros idx ?. unfold waitCheck. by rewrite (proj2 (Z.leb_gt _ _)) by lia. }
  assert (rtc sys_step (mkSystem s LIdle []) (mkSystem s2 LIdle [(i, Blocked); (j, Blocked)])) as Hr1.
  { eapply rtc_l; [by eapply y_propose|]. eapply rtc_l; [by eapply y_propose|].
    eapply rtc_l; [eapply (y_wait 0); [reflexivity|apply w_check, Hblock; lia]|].
    eapply rtc_l; [eapply (y_wait 1); [reflexivity|apply w_check, Hblock; lia]|]. reflexivity. }
  destruct (handle_put_steps s2 "x" "1" i [(i, Blocked); (j, Blocked)]) as (s3 & Hr2 & _ & _ & Hev3);
    [by apply utf8_string_ascii..|done|].
  destruct (handle_put_steps s3 "y" "2" j [(i, Blocked); (j, Blocked)]) as (s4 & Hr3 & Hl4 & Ht4 & _);
    [by apply utf8_string_ascii..|done|].
  set (s5 := s4 <| KV.applyNotifyCh := false |>).
  assert (KV.lastAppliedIndex s5 = j ∧ KV.applyNotifyCh s5 = false) as [Hl5 Ht5] by done.
  destruct (waitCheck i s5) as [s6 pc] eqn:Ec.
  assert (pc = Acked ∧ KV.lastAppliedIndex s6 = j ∧ KV.applyNotifyCh s6 = false) as (-> & Hl6 & Ht6).
  { clearbody s5. unfold waitCheck in Ec. rewrite (proj2 (Z.leb_le _ _)) in Ec by lia.
    destruct (KV.appliedAtByIndex s5 !! i); by injection Ec as <- <-. }
  exists (mkSystem s6 LIdle [(i, Acked); (j, Blocked)]). split_and!; [|done..|].
  - etransitivity; [exact Hr1|]. etransitivity; [exact Hr2|]. etransitivity; [exact Hr3|].
    eapply rtc_l; [eapply (y_wait 0); [reflexivity|by apply w_wake]|].
    eapply rtc_l; [eapply (y_wait 0); [reflexivity|by apply w_check]|]. reflexivity.
  - cbn [svc]. intros s' pc' Hw. inversion Hw; subst; [congruence|done].
Qed.
End two_waiters.

Definition demo_idle : KV (Node InMemoryStorage.t) := NewKV DemoEngine.node NewStore 0.

(** Two accepted calls, and the fields of the service after them. *)
Definition two_calls (c1 c2 : Command) (s : KV (Node InMemoryStorage.t)) :
    outcome (Z * Z * (Z * bool * Z)) :=
  '(s1, r1) ← propose 0 c1 s;
  '(s2, r2) ← propose 0 c2 s1;
  match r1, r2 with
  | inl i, inl j => Ret (i, j, (KV.SnapshotEvery s2, KV.applyNotifyCh s2, KV.lastAppliedIndex s2))
  | _, _ => Panic
  end.

Lemma two_calls_inv c1 c2 s i j v :
  two_calls c1 c2 s = Ret (i, j, v) →
  ∃ s1 s2, propose 0 c1 s = Ret (s1, inl i) ∧ propose 0 c2 s1 = Ret (s2, inl j) ∧
    v = (KV.SnapshotEvery s2, KV.applyNotifyCh s2, KV.lastAppliedIndex s2).
Proof.
  unfold two_calls.
  destruct (propose 0 c1 s) as [[s1 [i'|e]]|]; cbn [mbind outcome_bind]; [| |done];
    destruct (propose 0 c2 s1) as [[s2 [j'|e']]|] eqn:E; cbn [mbind outcome_bind]; try done.
  intros [= <- <- <-]. by exists s1, s2.
Qed.

Lemma two_calls_run :
  two_calls (Command.mk PutCmd "x" "3") (Command.mk PutCmd "y" "4") demo_idle =
  Ret (3, 4, (0, false, 0)).
Proof. vm_compute. reflexivity. Qed.

Lemma lost_wakeup_witness :
  ∃ y, rtc sys_step (mkSystem demo_idle LIdle []) y ∧
    waiters y = [(3, Acked); (4, Blocked)] ∧ loop y = LIdle ∧
    KV.lastAppliedIndex (svc y) = 4 ∧
    ∀ s' pc', wait_step 4 (svc y) Blocked s' pc' → pc' = TimedOut.
Proof.
  destruct (two_calls_inv _ _ _ _ _ _ two_calls_run) as (s1 & s2 & E1 & E2 & [= Hev Htok Hl]).
  apply (lost_wakeup _ s1 s2 _ _ 3 4 E1 E2); [lia|by symmetry|by symmetry|lia].
Defined.
