(* ===== verification/JsonStorage.v ===== *)
(** * JsonStorage: the Raft state in JSON files

    [internal/consensus/raft/storage_json.go].  The directory is a map from
    file names to contents; [writeJSONAtomically] goes through its operating
    system calls one by one, each of which may fail (the [faults] oracle), and
    [unreadable] names the files that cannot be read.  The theorem
    [json_storage_refines] states the storage contract of Storage.v for this
    implementation: a successful write is what the next [Load] sees, a failed
    one left the old contents or the new ones. *)

From Stdlib Require Import Strings.Byte.
From S2P Require Import Prelude Types Storage Utf8 Json GoJson.
Open Scope Z_scope.

(** ** The files and the system calls *)

Record JSONStorage : Type := mkJSON {
  files : gmap string bytes;
  tmp : option bytes;            (** the temporary file, while it exists *)
  faults : list bool;            (** does the next system call fail? *)
  unreadable : list string }.

Definition NewJSONStorage (fs : gmap string bytes) (faults : list bool) : JSONStorage :=
  mkJSON fs None faults [].

Definition hardStatePath : string := "hard_state.json".
Definition logPath : string := "log.json".
Definition snapshotPath : string := "snapshot.json".

(** A system call with effect [eff]; nothing is done when it fails. *)
Definition syscall (eff : JSONStorage → JSONStorage) (s : JSONStorage) : JSONStorage * bool :=
  match faults s with
  | true :: k => (mkJSON (files s) (tmp s) k (unreadable s), false)
  | false :: k => (eff (mkJSON (files s) (tmp s) k (unreadable s)), true)
  | [] => (eff s, true)
  end.

Definition create_tmp s := mkJSON (files s) (Some []) (faults s) (unreadable s).
Definition write_tmp (payload : bytes) s := mkJSON (files s) (Some payload) (faults s) (unreadable s).
Definition rename_tmp (path : string) s :=
  match tmp s with
  | Some c => mkJSON (<[path := c]> (files s)) None (faults s) (unreadable s)
  | None => s
  end.
Definition remove_tmp s := mkJSON (files s) None (faults s) (unreadable s).

Definition os_error : option error := Some (ErrStorage "os").

(** [writeJSONAtomically]: the deferred [os.Remove] runs on every return after
    the temporary file was created. *)
Definition writeJSONAtomically (path : string) (v : json) (s : JSONStorage)
    : JSONStorage * option error :=
  let '(s, ok) := syscall id s in                          (* os.MkdirAll *)
  if negb ok then (s, os_error) else
  let payload := marshal v in
  let '(s, ok) := syscall create_tmp s in                  (* os.CreateTemp *)
  if negb ok then (s, os_error) else
  let '(s, ok) := syscall (write_tmp payload) s in         (* tmp.Write *)
  if negb ok then (remove_tmp s, os_error) else
  let '(s, ok) := syscall id s in                          (* tmp.Sync *)
  if negb ok then (remove_tmp s, os_error) else
  let '(s, ok) := syscall id s in                          (* tmp.Close *)
  if negb ok then (remove_tmp s, os_error) else
  let '(s, ok) := syscall (rename_tmp path) s in           (* os.Rename *)
  if negb ok then (remove_tmp s, os_error) else
  let '(s, ok) := syscall id s in                          (* os.Open(dir) *)
  if negb ok then (remove_tmp s, os_error) else
  let '(s, ok) := syscall id s in                          (* dirFile.Sync *)
  if negb ok then (remove_tmp s, os_error) else (remove_tmp s, None).

(** [os.ReadFile]: [None] is [os.ErrNotExist]. *)
Definition readFile (path : string) (s : JSONStorage) : result (option bytes) :=
  if bool_decide (path ∈ unreadable s) then Err (ErrStorage "read") else Val (files s !! path).

(** ** The JSON of the stored types *)

Definition zero_config : ClusterConfig := mkClusterConfig [].
Definition zero_hard : HardState := HardState.mk 0 "" 0 zero_config.
Definition zero_entry : LogEntry := LogEntry.mk 0 0 [].
Definition zero_snapshot : Snapshot := Snapshot.mk 0 0 zero_config [].

Definition dec_config : decoder ClusterConfig :=
  dec_struct [("members",
    at_field (λ c, Some (Members c)) (λ l _, mkClusterConfig (default [] l)) (dec_slice dec_string ""))].

Definition enc_config (c : ClusterConfig) : json :=
  JObj [(lit "members", enc_slice enc_string (nil_if_empty (Members c)))].

Definition dec_hard : decoder HardState := dec_struct [
  ("current_term", at_field HardState.CurrentTerm
     (λ x h, HardState.mk x (HardState.VotedFor h) (HardState.CommitIndex h) (HardState.Config h)) dec_int64);
  ("voted_for", at_field HardState.VotedFor
     (λ x h, HardState.mk (HardState.CurrentTerm h) x (HardState.CommitIndex h) (HardState.Config h)) dec_string);
  ("commit_index", at_field HardState.CommitIndex
     (λ x h, HardState.mk (HardState.CurrentTerm h) (HardState.VotedFor h) x (HardState.Config h)) dec_int64);
  ("config", at_field HardState.Config
     (λ x h, HardState.mk (HardState.CurrentTerm h) (HardState.VotedFor h) (HardState.CommitIndex h) x) dec_config)].

Definition enc_hard (h : HardState) : json := JObj [
  (lit "current_term", enc_int (HardState.CurrentTerm h));
  (lit "voted_for", enc_string (HardState.VotedFor h));
  (lit "commit_index", enc_int (HardState.CommitIndex h));
  (lit "config", enc_config (HardState.Config h))].

(** [LogEntry] has no field tags. *)
Definition dec_entry : decoder LogEntry := dec_struct [
  ("Term", at_field LogEntry.Term
     (λ x e, LogEntry.mk x (LogEntry.Type_ e) (LogEntry.Command e)) dec_int64);
  ("Type", at_field LogEntry.Type_
     (λ x e, LogEntry.mk (LogEntry.Term e) x (LogEntry.Command e)) dec_uint8);
  ("Command", at_field LogEntry.Command
     (λ x e, LogEntry.mk (LogEntry.Term e) (LogEntry.Type_ e) x) dec_bytes)].

Definition enc_entry (e : LogEntry) : json := JObj [
  (lit "Term", enc_int (LogEntry.Term e));
  (lit "Type", enc_int (LogEntry.Type_ e));
  (lit "Command", enc_bytes (LogEntry.Command e))].

Definition dec_snapshot : decoder Snapshot := dec_struct [
  ("last_included_index", at_field Snapshot.LastIncludedIndex
     (λ x s, Snapshot.mk x (Snapshot.LastIncludedTerm s) (Snapshot.Config s) (Snapshot.Data s)) dec_int64);
  ("last_included_term", at_field Snapshot.LastIncludedTerm
     (λ x s, Snapshot.mk (Snapshot.LastIncludedIndex s) x (Snapshot.Config s) (Snapshot.Data s)) dec_int64);
  ("config", at_field Snapshot.Config
     (λ x s, Snapshot.mk (Snapshot.LastIncludedIndex s) (Snapshot.LastIncludedTerm s) x (Snapshot.Data s)) dec_config);
  ("data", at_field Snapshot.Data
     (λ x s, Snapshot.mk (Snapshot.LastIncludedIndex s) (Snapshot.LastIncludedTerm s) (Snapshot.Config s) x) dec_bytes)].

Definition enc_snapshot (s : Snapshot) : json := JObj [
  (lit "last_included_index", enc_int (Snapshot.LastIncludedIndex s));
  (lit "last_included_term", enc_int (Snapshot.LastIncludedTerm s));
  (lit "config", enc_config (Snapshot.Config s));
  (lit "data", enc_bytes (Snapshot.Data s))].

(** [storedLog]: [None] is a nil slice. *)
Record storedLog : Type := mkStored { Base : Z; Entries : option (list LogEntry) }.

Definition dec_stored : decoder storedLog := dec_struct [
  ("base", at_field Base (λ x l, mkStored x (Entries l)) dec_int64);
  ("entries", at_field Entries (λ x l, mkStored (Base l) x) (dec_slice dec_entry zero_entry))].

Definition enc_stored (l : storedLog) : json := JObj [
  (lit "base", enc_int (Base l)); (lit "entries", enc_slice enc_entry (Entries l))].

(** ** Loading *)

Definition json_error : error := ErrStorage "json".

Definition loadHardState (s : JSONStorage) : result HardState :=
  match readFile hardStatePath s with
  | Err e => Err e
  | Val None => Val zero_hard
  | Val (Some data) =>
      if bool_decide (data = []) then Val zero_hard else
      match unmarshal dec_hard zero_hard data with Some h => Val h | None => Err json_error end
  end.

Definition loadSnapshot (s : JSONStorage) : result (option Snapshot) :=
  match readFile snapshotPath s with
  | Err e => Err e
  | Val None => Val None
  | Val (Some data) =>
      if bool_decide (data = []) then Val None else
      match unmarshal dec_snapshot zero_snapshot data with
      | Some sn => Val (Some sn) | None => Err json_error end
  end.

(** Both the current format and the bare array of entries it replaced. *)
Definition loadLog (s : JSONStorage) : result (Z * list LogEntry) :=
  match readFile logPath s with
  | Err e => Err e
  | Val None => Val (0, [])
  | Val (Some data) =>
      if bool_decide (data = []) then Val (0, []) else
      let legacy :=
        match unmarshal (dec_slice dec_entry zero_entry) None data with
        | Some l => Val (0, cloneLogEntries (default [] l))
        | None => Err json_error
        end in
      match unmarshal dec_stored (mkStored 0 None) data with
      | Some sl =>
          if bool_decide (Entries sl ≠ None) || negb (Base sl =? 0)
          then Val (Base sl, cloneLogEntries (default [] (Entries sl))) else legacy
      | None => legacy
      end
  end.

Definition Load (s : JSONStorage) : result PersistentState :=
  match loadHardState s with
  | Err e => Err e
  | Val hs =>
      match loadSnapshot s with
      | Err e => Err e
      | Val snap =>
          match loadLog s with
          | Err e => Err e
          | Val (logBase, logEntries) => Val (PersistentState.mk hs logBase snap logEntries)
          end
      end
  end.

(** ** Writing *)

Definition SaveHardState (state : HardState) (s : JSONStorage) : JSONStorage * option error :=
  writeJSONAtomically hardStatePath (enc_hard state) s.

Definition writeLog (base : Z) (entries : option (list LogEntry)) (s : JSONStorage)
    : JSONStorage * option error :=
  writeJSONAtomically logPath (enc_stored (mkStored base entries)) s.

(** [loadLog] returns a nil slice for an empty log ([cloneLogEntries]);
    appending to it or slicing a non-empty one gives a slice that is not nil. *)
Definition AppendLog (entries : list LogEntry) (s : JSONStorage) : JSONStorage * option error :=
  if zlen entries =? 0 then (s, None) else
  match loadLog s with
  | Err e => (s, Some e)
  | Val (base, existing) => writeLog base (Some (existing ++ cloneLogEntries entries)) s
  end.

Definition TruncateLog (keepN : Z) (s : JSONStorage) : JSONStorage * option error :=
  match loadLog s with
  | Err e => (s, Some e)
  | Val (base, existing) =>
      let keepN := if keepN <? 0 then 0 else keepN in
      let keepN := if zlen existing <? keepN then zlen existing else keepN in
      writeLog base (take (Z.to_nat keepN) <$> nil_if_empty existing) s
  end.

(** Whether an empty slice the node passes is nil is not visible in a list;
    here it is, the case that loses information. *)
Definition SetLog (baseIndex : Z) (entries : list LogEntry) (s : JSONStorage)
    : JSONStorage * option error :=
  writeLog baseIndex (nil_if_empty entries) s.

Definition SaveSnapshot (snap : Snapshot) (s : JSONStorage) : JSONStorage * option error :=
  writeJSONAtomically snapshotPath (enc_snapshot snap) s.

#[export] Instance JSONStorage_storage : Storage JSONStorage := {
  Storage.Load := Load;
  Storage.SaveHardState := SaveHardState;
  Storage.AppendLog := AppendLog;
  Storage.TruncateLog := TruncateLog;
  Storage.SetLog := SetLog;
  Storage.SaveSnapshot := SaveSnapshot }.

Example json_ex :
  let s := NewJSONStorage ∅ [] in
  let s := (SaveHardState (HardState.mk 3 "a" 1 (mkClusterConfig ["a"; "b"])) s).1 in
  let s := (AppendLog [LogEntry.mk 3 0 (lit "hi")] s).1 in
  (files s !! logPath, Load s) =
  (Some (q "{'base':0,'entries':[{'Term':3,'Type':0,'Command':'aGk='}]}"),
   Val (PersistentState.mk (HardState.mk 3 "a" 1 (mkClusterConfig ["a"; "b"])) 0 None
          [LogEntry.mk 3 0 (lit "hi")])).
Proof. vm_compute. reflexivity. Qed.

(** ** What the files can hold *)

(** The values JSON gives back: [int64] fields, UTF-8 strings, byte types. *)
Definition config_ok (c : ClusterConfig) : Prop := Forall utf8_string (Members c).
Definition hard_ok (h : HardState) : Prop :=
  in_i64 (HardState.CurrentTerm h) ∧ utf8_string (HardState.VotedFor h) ∧
  in_i64 (HardState.CommitIndex h) ∧ config_ok (HardState.Config h).
Definition entry_ok (e : LogEntry) : Prop := in_i64 (LogEntry.Term e) ∧ 0 ≤ LogEntry.Type_ e ≤ 255.
Definition snap_ok (s : Snapshot) : Prop :=
  in_i64 (Snapshot.LastIncludedIndex s) ∧ in_i64 (Snapshot.LastIncludedTerm s) ∧
  config_ok (Snapshot.Config s).
Definition log_ok (base : Z) (l : list LogEntry) : Prop := in_i64 base ∧ Forall entry_ok l.

Lemma default_nil_if_empty {A} (l : list A) : default [] (nil_if_empty l) = l.
Proof. by destruct l. Qed.

Lemma dec_enc_config c old : dec_config (enc_config c) old = (c, false).
Proof.
  destruct c as [ms]. unfold dec_config, enc_config.
  eapply dec_struct_step; [find_field|apply at_field_eq|].
  - apply dec_enc_slice. intros. apply dec_enc_string.
  - cbn beta. rewrite default_nil_if_empty. apply dec_struct_nil.
Qed.

Lemma dec_enc_hard h : hard_ok h → dec_hard (enc_hard h) zero_hard = (h, false).
Proof.
  destruct h as [t v c cfg]. intros (?&?&?&?). unfold dec_hard, enc_hard.
  dec_fields; eauto using dec_enc_config with json.
Qed.

Lemma dec_enc_entry e : entry_ok e → dec_entry (enc_entry e) zero_entry = (e, false).
Proof.
  destruct e as [t ty c]. intros (?&?). unfold dec_entry, enc_entry.
  dec_fields; eauto with json.
Qed.

Lemma dec_enc_snapshot s : snap_ok s → dec_snapshot (enc_snapshot s) zero_snapshot = (s, false).
Proof.
  destruct s as [i t cfg d]. intros (?&?&?). unfold dec_snapshot, enc_snapshot.
  dec_fields; eauto using dec_enc_config with json.
Qed.

Lemma dec_enc_stored base l :
  log_ok base (default [] l) →
  dec_stored (enc_stored (mkStored base l)) (mkStored 0 None) = (mkStored base l, false).
Proof.
  intros [? Hl]. unfold dec_stored, enc_stored.
  dec_fields; eauto with json. apply dec_enc_slice.
  intros e He. apply dec_enc_entry. cbn in *. rewrite list.Forall_forall in Hl. auto.
Qed.

Lemma enc_config_ok d c : 1 < d → config_ok c → json_ok d (enc_config c).
Proof.
  intros Hd Hc. apply struct_ok; [lia|]. json_members.
  apply enc_slice_ok; [lia|]. rewrite default_nil_if_empty. intros s Hs. apply enc_string_ok.
  unfold config_ok in Hc. rewrite list.Forall_forall in Hc. auto.
Qed.

Lemma enc_hard_ok d h : 2 < d → hard_ok h → json_ok d (enc_hard h).
Proof.
  intros Hd (?&?&?&?). apply struct_ok; [lia|]. json_members. apply enc_config_ok; [lia|done].
Qed.

Lemma enc_entry_ok d e : 1 < d → json_ok d (enc_entry e).
Proof. intros Hd. apply struct_ok; [lia|]. json_members. Qed.

Lemma enc_snapshot_ok d s : 2 < d → snap_ok s → json_ok d (enc_snapshot s).
Proof.
  intros Hd (?&?&?). apply struct_ok; [lia|]. json_members. apply enc_config_ok; [lia|done].
Qed.

Lemma enc_stored_ok d l : 3 < d → json_ok d (enc_stored l).
Proof.
  intros Hd. apply struct_ok; [lia|]. json_members.
  apply enc_slice_ok; [lia|]. intros e _. apply enc_entry_ok. lia.
Qed.

(** ** [writeJSONAtomically] *)

Definition with_faults (k : list bool) s := mkJSON (files s) (tmp s) k (unreadable s).

Lemma syscall_cases eff s :
  ∃ k, syscall eff s = (eff (with_faults k s), true) ∨ syscall eff s = (with_faults k s, false).
Proof.
  unfold syscall, with_faults. destruct s as [f t [|[] k] u]; cbn; eexists; by auto.
Qed.

(** Every failure leaves the file as it was or, from the rename on, new. *)
Lemma writeJSONAtomically_spec path v s s' e :
  writeJSONAtomically path v s = (s', e) →
  unreadable s' = unreadable s ∧
  (e = None → files s' = <[path := marshal v]> (files s)) ∧
  (files s' = files s ∨ files s' = <[path := marshal v]> (files s)).
Proof.
  unfold writeJSONAtomically.
  repeat match goal with
  | |- context [syscall ?eff ?s] =>
      let k := fresh "k" in let E := fresh "E" in
      destruct (syscall_cases eff s) as (k & [E|E]); rewrite E; clear E; cbn [negb]
  end; intros [= <- <-]; cbn; split_and!; auto; try discriminate.
Qed.

(** ** What [Load] returns *)

(** [logFile base l]: the log file exists and holds [l] above [base]. *)
Lemma loadLog_written base l s :
  readFile logPath s = Val (Some (marshal (enc_stored (mkStored base l)))) →
  log_ok base (default [] l) → base ≠ 0 ∨ l ≠ None →
  loadLog s = Val (base, default [] l).
Proof.
  intros Hr Hl Hne. unfold loadLog. rewrite Hr. rewrite bool_decide_eq_false_2 by done.
  rewrite (unmarshal_marshal dec_stored _ _ (mkStored base l));
    [|apply enc_stored_ok; done|by apply dec_enc_stored].
  cbn [Entries Base]. rewrite cloneLogEntries_id.
  assert (bool_decide (l ≠ None) || negb (base =? 0) = true) as ->; [|done].
  apply orb_true_iff. destruct Hne as [Hb|Hl']; [right|left; by apply bool_decide_eq_true_2].
  by rewrite (proj2 (Z.eqb_neq _ _)).
Qed.

Lemma loadHardState_written h s :
  readFile hardStatePath s = Val (Some (marshal (enc_hard h))) → hard_ok h →
  loadHardState s = Val h.
Proof.
  intros Hr Hh. unfold loadHardState. rewrite Hr, bool_decide_eq_false_2 by done.
  rewrite (unmarshal_marshal dec_hard _ _ h); [done|by apply enc_hard_ok|by apply dec_enc_hard].
Qed.

Lemma loadSnapshot_written sn s :
  readFile snapshotPath s = Val (Some (marshal (enc_snapshot sn))) → snap_ok sn →
  loadSnapshot s = Val (Some sn).
Proof.
  intros Hr Hs. unfold loadSnapshot. rewrite Hr, bool_decide_eq_false_2 by done.
  rewrite (unmarshal_marshal dec_snapshot _ _ sn);
    [done|by apply enc_snapshot_ok|by apply dec_enc_snapshot].
Qed.

(** A file is read as long as its name is readable, whatever else changes. *)
Lemma readFile_same path s s' :
  unreadable s' = unreadable s → files s' !! path = files s !! path →
  readFile path s' = readFile path s.
Proof. unfold readFile. by intros -> ->. Qed.

Lemma Load_inv s d :
  Load s = Val d →
  loadHardState s = Val (PersistentState.Hard d) ∧ loadSnapshot s = Val (PersistentState.Snap d) ∧
  loadLog s = Val (PersistentState.LogBase d, PersistentState.Log d).
Proof.
  unfold Load. destruct (loadHardState s); [|done]. destruct (loadSnapshot s); [|done].
  destruct (loadLog s) as [[]|]; [|done]. by intros [= <-].
Qed.

Lemma Load_intro s hs snap base l :
  loadHardState s = Val hs → loadSnapshot s = Val snap → loadLog s = Val (base, l) →
  Load s = Val (PersistentState.mk hs base snap l).
Proof. unfold Load. by intros -> -> ->. Qed.

(** What the three loaders depend on. *)
Lemma load_frame s s' path c :
  unreadable s' = unreadable s → files s' = <[path := c]> (files s) →
  (path ≠ hardStatePath → loadHardState s' = loadHardState s) ∧
  (path ≠ snapshotPath → loadSnapshot s' = loadSnapshot s) ∧
  (path ≠ logPath → loadLog s' = loadLog s).
Proof.
  intros Hu Hf.
  split_and!; intros Hne; unfold loadHardState, loadSnapshot, loadLog;
    rewrite (readFile_same _ s s'); try done; by rewrite Hf, lookup_insert_ne.
Qed.

Lemma load_untouched s s' :
  unreadable s' = unreadable s → files s' = files s → Load s' = Load s.
Proof.
  intros Hu Hf. unfold Load, loadHardState, loadSnapshot, loadLog.
  by rewrite !(readFile_same _ s s') by (by rewrite ?Hf).
Qed.

Lemma readFile_written s path (d : result (option bytes)) :
  readFile path s = d → (∀ e, d ≠ Err e) →
  ∀ s' c, unreadable s' = unreadable s → files s' = <[path := c]> (files s) →
  readFile path s' = Val (Some c).
Proof.
  unfold readFile. intros <- He s' c Hu Hf. rewrite Hu, Hf.
  case_bool_decide; [by destruct (He (ErrStorage "read"))|]. by rewrite lookup_insert_eq.
Qed.

(** Whatever the files hold, a log that loads is in range. *)
Lemma dec_entry_keeps j e : entry_ok e → entry_ok (dec_entry j e).1.
Proof.
  apply (dec_struct_keeps entry_ok).
  repeat apply Forall_cons_2; [..|apply Forall_nil_2]; cbn [snd]; intros j' a.
  - apply (at_field_keeps entry_ok in_i64); [intros; by apply dec_int_range|by intros []|by intros ?? []].
  - apply (at_field_keeps entry_ok (λ z, 0 ≤ z ≤ 255));
      [intros; by apply dec_int_range|by intros []|by intros ?? []].
  - apply (at_field_keeps entry_ok (λ _, True)); [done|done|by intros ?? []].
Qed.

Lemma zero_entry_ok : entry_ok zero_entry.
Proof. split; vm_compute; by split. Qed.

Definition stored_ok (l : storedLog) : Prop := log_ok (Base l) (default [] (Entries l)).

Lemma dec_stored_keeps j l : stored_ok l → stored_ok (dec_stored j l).1.
Proof.
  apply (dec_struct_keeps stored_ok).
  repeat apply Forall_cons_2; [..|apply Forall_nil_2]; cbn [snd]; intros j' a.
  - apply (at_field_keeps stored_ok in_i64);
      [intros; by apply dec_int_range|by intros []|by intros ?? []].
  - apply (at_field_keeps stored_ok (λ o, Forall entry_ok (default [] o)));
      [|by intros []|by intros ?? []].
    intros. apply dec_slice_keeps; [|done]. intros. apply dec_entry_keeps, zero_entry_ok.
Qed.

Lemma loadLog_ok s base l : loadLog s = Val (base, l) → log_ok base l.
Proof.
  assert (log_ok 0 []) as H0 by (split; [vm_compute; by split|constructor]).
  unfold loadLog. destruct (readFile logPath s) as [[data|]|]; [|by intros [= <- <-]|done].
  case_bool_decide; [by intros [= <- <-]|].
  assert (∀ o, unmarshal (dec_slice dec_entry zero_entry) None data = o →
    match o with Some l => Val (0, cloneLogEntries (default [] l)) | None => Err json_error end
      = Val (base, l) → log_ok base l) as Hlegacy.
  { intros [l'|] E; [|done]. intros [= <- <-]. rewrite cloneLogEntries_id. split; [apply H0|].
    apply (unmarshal_keeps (λ o, Forall entry_ok (default [] o))) in E; [done|].
    intros j. apply dec_slice_keeps; [|constructor]. intros. apply dec_entry_keeps, zero_entry_ok. }
  destruct (unmarshal dec_stored (mkStored 0 None) data) as [sl|] eqn:E; [|by apply Hlegacy].
  destruct (_ || _); [|by apply Hlegacy]. intros [= <- <-]. rewrite cloneLogEntries_id.
  apply (unmarshal_keeps stored_ok) in E; [done|].
  intros j. by apply dec_stored_keeps.
Qed.

(** ** The storage contract *)

(** [op] performs [upd] on what [Load] returns, or fails having performed it
    or not: [Storage.writes] at one state. *)
Definition performs (op : JSONStorage → JSONStorage * option error)
    (upd : PersistentState → PersistentState) (s : JSONStorage) (d : PersistentState) : Prop :=
  match op s with
  | (s', None) => Load s' = Val (upd d)
  | (s', Some _) => Load s' = Val d ∨ Load s' = Val (upd d)
  end.

Lemma performs_write path v upd s d :
  Load s = Val d →
  (∀ s', unreadable s' = unreadable s → files s' = <[path := marshal v]> (files s) →
     Load s' = Val (upd d)) →
  performs (writeJSONAtomically path v) upd s d.
Proof.
  intros Hd Hnew. unfold performs. destruct (writeJSONAtomically path v s) as [s' e] eqn:E.
  apply writeJSONAtomically_spec in E as (Hu & Hok & Hor).
  destruct e as [e|]; [|by apply Hnew; auto].
  destruct Hor as [Hf|Hf]; [left; by rewrite (load_untouched s s')|right; auto].
Qed.

Lemma performs_log base l upd s d :
  Load s = Val d → log_ok base (default [] l) → base ≠ 0 ∨ l ≠ None →
  upd d = PersistentState.mk (PersistentState.Hard d) base (PersistentState.Snap d) (default [] l) →
  performs (writeLog base l) upd s d.
Proof.
  intros Hd Hl Hne Hupd. apply performs_write; [done|]. intros s' Hu Hf. rewrite Hupd.
  destruct (Load_inv s d Hd) as (H1 & H2 & H3).
  destruct (load_frame s s' logPath _ Hu Hf) as (F1 & F2 & _).
  apply Load_intro; [by rewrite F1|by rewrite F2|]. apply loadLog_written; [|done|done].
  eapply readFile_written; [reflexivity| |done|done].
  intros e He. unfold loadLog in H3. by rewrite He in H3.
Qed.

(** C34. The JSON storage implements the storage contract, whichever system
    call of a write fails: in every state whose files load as [d], saving a
    hard state or a snapshot, appending, truncating and replacing the log
    do, when they succeed, exactly the documented update of [d], as the next
    [Load] sees it, and when they fail leave [d] or the update.  The one
    exception is a write of an empty log at base 0, which cannot be read
    back: it is stored as [null] and falls through to the format of old
    versions. *)
Theorem json_storage_refines s d :
  Load s = Val d →
  (∀ hs, hard_ok hs → performs (SaveHardState hs) (Disk.save_hard hs) s d) ∧
  (∀ sn, snap_ok sn → performs (SaveSnapshot sn) (Disk.save_snapshot sn) s d) ∧
  (∀ es, Forall entry_ok es → performs (AppendLog es) (Disk.append_log es) s d) ∧
  (∀ k, PersistentState.LogBase d ≠ 0 ∨ PersistentState.Log d ≠ [] →
     performs (TruncateLog k) (Disk.truncate_log k) s d) ∧
  (∀ b es, log_ok b es → b ≠ 0 ∨ es ≠ [] → performs (SetLog b es) (Disk.set_log b es) s d) ∧
  (∀ k s', PersistentState.LogBase d = 0 → PersistentState.Log d = [] →
     TruncateLog k s = (s', None) → Load s' = Err json_error).
Proof.
  intros Hd. destruct (Load_inv s d Hd) as (H1 & H2 & H3).
  pose proof (loadLog_ok _ _ _ H3) as [Hb Hl]. split_and!.
  - intros hs Hhs. apply performs_write; [done|]. intros s' Hu Hf.
    destruct (load_frame s s' hardStatePath _ Hu Hf) as (_ & F2 & F3).
    apply Load_intro; [|by rewrite F2|by rewrite F3, H3]. apply loadHardState_written; [|done].
    eapply readFile_written; [reflexivity| |done|done].
    intros e He. unfold loadHardState in H1. by rewrite He in H1.
  - intros sn Hsn. apply performs_write; [done|]. intros s' Hu Hf.
    destruct (load_frame s s' snapshotPath _ Hu Hf) as (F1 & _ & F3).
    apply Load_intro; [by rewrite F1| |by rewrite F3, H3]. apply loadSnapshot_written; [|done].
    eapply readFile_written; [reflexivity| |done|done].
    intros e He. unfold loadSnapshot in H2. by rewrite He in H2.
  - intros es Hes. unfold performs, AppendLog. destruct (Z.eqb_spec (zlen es) 0) as [E|_].
    { assert (es = []) as -> by (destruct es; unfold zlen in E; simpl in E; [done|lia]).
      unfold Disk.append_log. rewrite app_nil_r. by destruct d. }
    rewrite H3, cloneLogEntries_id.
    apply (performs_log _ _ (Disk.append_log es)); [done| |by right|done].
    split; [done|]. by apply Forall_app.
  - intros k Hne. unfold performs, TruncateLog. rewrite H3.
    set (l := PersistentState.Log d) in *.
    set (k' := if _ <? _ then _ else _).
    assert (take (Z.to_nat k') l = take (Z.to_nat k) l) as Ek.
    { subst k'. unfold zlen. destruct (Z.ltb_spec k 0).
      - replace (Z.to_nat k) with 0%nat by lia.
        destruct (Z.ltb_spec (Z.of_nat (length l)) 0); [lia|done].
      - destruct (Z.ltb_spec (Z.of_nat (length l)) k); [|done].
        rewrite Nat2Z.id, !take_ge; [done|lia..]. }
    clearbody k'.
    apply (performs_log _ _ (Disk.truncate_log k)); [done| | |].
    + split; [done|]. destruct (nil_if_empty l) eqn:E; [|constructor]. cbn.
      destruct l; [done|]. injection E as <-. by apply Forall_take.
    + destruct Hne as [?|Hne]; [by left|right]. by destruct l.
    + unfold Disk.truncate_log. fold l. rewrite <- Ek. f_equal.
      destruct l; [by destruct (Z.to_nat k')|done].
  - intros b es Hes Hne. apply (performs_log _ _ (Disk.set_log b es)); [done| | |].
    + by rewrite default_nil_if_empty.
    + destruct Hne as [?|?]; [by left|right; by destruct es].
    + by rewrite default_nil_if_empty.
  - intros k s' Hb0 Hl0 Ht. unfold TruncateLog in Ht. rewrite H3, Hl0, Hb0 in Ht. cbn [nil_if_empty] in Ht.
    unfold writeLog in Ht. apply writeJSONAtomically_spec in Ht as (Hu & Hf & _).
    specialize (Hf eq_refl).
    destruct (load_frame s s' logPath _ Hu Hf) as (F1 & F2 & _).
    unfold Load. rewrite F1, F2, H1, H2 by done. unfold loadLog.
    rewrite (readFile_written s logPath _ eq_refl) with (s' := s') (c := marshal (enc_stored (mkStored 0 None)));
      [|by intros e He; unfold loadLog in H3; rewrite He in H3|done|done].
    vm_compute. reflexivity.
Qed.

Definition demo_hard : HardState := HardState.mk 3 "a" 1 (mkClusterConfig ["a"; "b"]).
Definition demo_entry : LogEntry := LogEntry.mk 3 0 (lit "hi").
Definition demo_files : JSONStorage :=
  (AppendLog [demo_entry] (SaveHardState demo_hard (NewJSONStorage ∅ [])).1).1.
Definition demo_state : PersistentState := PersistentState.mk demo_hard 0 None [demo_entry].

Lemma demo_files_load : Load demo_files = Val demo_state.
Proof. vm_compute. reflexivity. Qed.

(** The rename succeeds and the directory cannot be opened: an error is
    reported, the entry is in the file. *)
Definition demo_faulty : JSONStorage :=
  with_faults [false; false; false; false; false; false; true] demo_files.

Lemma demo_late_failure :
  (AppendLog [demo_entry] demo_faulty).2 = os_error ∧
  Load (AppendLog [demo_entry] demo_faulty).1 = Val (Disk.append_log [demo_entry] demo_state).
Proof. vm_compute. done. Qed.

Lemma json_storage_refines_witness :
  performs (AppendLog [demo_entry]) (Disk.append_log [demo_entry]) demo_faulty demo_state ∧
  performs (TruncateLog 0) (Disk.truncate_log 0) demo_faulty demo_state ∧
  performs (SetLog 1 []) (Disk.set_log 1 []) demo_faulty demo_state.
Proof.
  destruct (json_storage_refines demo_faulty demo_state) as (_ & _ & Ha & Ht & Hs & _).
  - vm_compute. reflexivity.
  - split; [apply Ha|split; [apply Ht|apply Hs]].
    + repeat constructor; vm_compute; discriminate.
    + right. discriminate.
    + split; [vm_compute; split; discriminate|constructor].
    + left. discriminate.
Defined.
