(* ===== verification/Transport.v ===== *)
(** * Transport: the Raft RPCs over gRPC

    [internal/transport/grpc/raft]: the mapping between the Raft messages and
    the protobuf ones (mapping.go), the server adapter (server.go) and the
    client adapter (client.go).  gRPC itself carries the protobuf message and
    the status; spans carry no state.  [Module PB] has the fields of the
    generated structs of [pkg/proto/raftv1] that the adapters use; a pointer
    that may be nil is an [option].

    The theorem says that an RPC made through the two adapters is the handler
    call on the same request, up to the entry types, which the wire format
    does not have, and up to errors, of which the status code arrives (the
    message text is not modelled).  The node that made the call treats every
    error alike ([RpcError] of the Replication file). *)

From Stdlib Require Import Strings.Byte.
From S2P Require Import Prelude Types Storage Timing Node Handlers Replication.
Open Scope Z_scope.

Module PB.
Module RequestVoteRequest.
Record t : Type := mk { Term : Z; CandidateId : string; LastLogIndex : Z; LastLogTerm : Z }.
End RequestVoteRequest.
Module RequestVoteResponse.
Record t : Type := mk { Term : Z; VoteGranted : bool }.
End RequestVoteResponse.
Module LogEntry.
Record t : Type := mk { Term : Z; Command : bytes }.
End LogEntry.
Module AppendEntriesRequest.
Record t : Type := mk {
  Term : Z; LeaderId : string; PrevLogIndex : Z; PrevLogTerm : Z;
  Entries : list (option LogEntry.t); LeaderCommit : Z }.
End AppendEntriesRequest.
Module AppendEntriesResponse.
Record t : Type := mk { Term : Z; Success : bool; ConflictIndex : Z; ConflictTerm : Z }.
End AppendEntriesResponse.
Module ClusterConfig.
Record t : Type := mk { Members : list string }.
End ClusterConfig.
Module InstallSnapshotRequest.
Record t : Type := mk {
  Term : Z; LeaderId : string; LastIncludedIndex : Z; LastIncludedTerm : Z;
  Config : option ClusterConfig.t; Data : bytes }.
End InstallSnapshotRequest.
Module InstallSnapshotResponse.
Record t : Type := mk { Term : Z }.
End InstallSnapshotResponse.
End PB.

(** ** mapping.go *)

Definition requestVoteRequestFromPB (pb : PB.RequestVoteRequest.t) : RequestVoteRequest :=
  RequestVoteRequest.mk (PB.RequestVoteRequest.Term pb) (PB.RequestVoteRequest.CandidateId pb)
    (PB.RequestVoteRequest.LastLogIndex pb) (PB.RequestVoteRequest.LastLogTerm pb).

Definition requestVoteRequestToPB (r : RequestVoteRequest) : PB.RequestVoteRequest.t :=
  PB.RequestVoteRequest.mk (RequestVoteRequest.Term r) (RequestVoteRequest.CandidateID r)
    (RequestVoteRequest.LastLogIndex r) (RequestVoteRequest.LastLogTerm r).

Definition requestVoteResponseFromPB (pb : PB.RequestVoteResponse.t) : RequestVoteResponse :=
  RequestVoteResponse.mk (PB.RequestVoteResponse.Term pb) (PB.RequestVoteResponse.VoteGranted pb).

Definition requestVoteResponseToPB (r : RequestVoteResponse) : PB.RequestVoteResponse.t :=
  PB.RequestVoteResponse.mk (RequestVoteResponse.Term r) (RequestVoteResponse.VoteGranted r).

(** One entry: the fields of a nil pointer cannot be read; [Type] keeps its
    zero value. *)
Definition logEntryFromPB (e : option PB.LogEntry.t) : outcome LogEntry :=
  match e with
  | Some e => Ret (LogEntry.mk (PB.LogEntry.Term e) 0 (PB.LogEntry.Command e))
  | None => Panic
  end.

Fixpoint entriesFromPB (es : list (option PB.LogEntry.t)) : outcome (list LogEntry) :=
  match es with
  | [] => Ret []
  | e :: es => e ← logEntryFromPB e; es ← entriesFromPB es; Ret (e :: es)
  end.

Definition appendEntriesRequestFromPB (pb : PB.AppendEntriesRequest.t)
    : outcome AppendEntriesRequest :=
  entries ← entriesFromPB (PB.AppendEntriesRequest.Entries pb);
  Ret (AppendEntriesRequest.mk (PB.AppendEntriesRequest.Term pb)
         (PB.AppendEntriesRequest.LeaderId pb) (PB.AppendEntriesRequest.PrevLogIndex pb)
         (PB.AppendEntriesRequest.PrevLogTerm pb) entries
         (PB.AppendEntriesRequest.LeaderCommit pb)).

Definition appendEntriesRequestToPB (r : AppendEntriesRequest) : PB.AppendEntriesRequest.t :=
  let entries :=
    (λ e, Some (PB.LogEntry.mk (LogEntry.Term e) (LogEntry.Command e)))
      <$> AppendEntriesRequest.Entries r in
  PB.AppendEntriesRequest.mk (AppendEntriesRequest.Term r) (AppendEntriesRequest.LeaderID r)
    (AppendEntriesRequest.PrevLogIndex r) (AppendEntriesRequest.PrevLogTerm r) entries
    (AppendEntriesRequest.LeaderCommit r).

Definition appendEntriesResponseFromPB (pb : PB.AppendEntriesResponse.t) : AppendEntriesResponse :=
  AppendEntriesResponse.mk (PB.AppendEntriesResponse.Term pb) (PB.AppendEntriesResponse.Success pb)
    (PB.AppendEntriesResponse.ConflictTerm pb) (PB.AppendEntriesResponse.ConflictIndex pb).

Definition appendEntriesResponseToPB (r : AppendEntriesResponse) : PB.AppendEntriesResponse.t :=
  PB.AppendEntriesResponse.mk (AppendEntriesResponse.Term r) (AppendEntriesResponse.Success r)
    (AppendEntriesResponse.ConflictIndex r) (AppendEntriesResponse.ConflictTerm r).

Definition clusterConfigFromPB (pb : option PB.ClusterConfig.t) : ClusterConfig :=
  match pb with
  | None => mkClusterConfig []
  | Some pb => mkClusterConfig ([] ++ PB.ClusterConfig.Members pb)
  end.

Definition clusterConfigToPB (cfg : ClusterConfig) : option PB.ClusterConfig.t :=
  Some (PB.ClusterConfig.mk ([] ++ Members cfg)).

Definition installSnapshotRequestFromPB (pb : PB.InstallSnapshotRequest.t) : InstallSnapshotRequest :=
  InstallSnapshotRequest.mk (PB.InstallSnapshotRequest.Term pb)
    (PB.InstallSnapshotRequest.LeaderId pb) (PB.InstallSnapshotRequest.LastIncludedIndex pb)
    (PB.InstallSnapshotRequest.LastIncludedTerm pb)
    (clusterConfigFromPB (PB.InstallSnapshotRequest.Config pb))
    ([] ++ PB.InstallSnapshotRequest.Data pb).

Definition installSnapshotRequestToPB (r : InstallSnapshotRequest) : PB.InstallSnapshotRequest.t :=
  PB.InstallSnapshotRequest.mk (InstallSnapshotRequest.Term r) (InstallSnapshotRequest.LeaderID r)
    (InstallSnapshotRequest.LastIncludedIndex r) (InstallSnapshotRequest.LastIncludedTerm r)
    (clusterConfigToPB (InstallSnapshotRequest.Config r)) ([] ++ InstallSnapshotRequest.Data r).

Definition installSnapshotResponseFromPB (pb : PB.InstallSnapshotResponse.t) : InstallSnapshotResponse :=
  InstallSnapshotResponse.mk (PB.InstallSnapshotResponse.Term pb).

Definition installSnapshotResponseToPB (r : InstallSnapshotResponse) : PB.InstallSnapshotResponse.t :=
  PB.InstallSnapshotResponse.mk (InstallSnapshotResponse.Term r).

(** ** server.go *)

(** The gRPC status codes the program uses. *)
Inductive status_code : Type :=
  | Unavailable | Internal | FailedPrecondition | DeadlineExceeded | Unimplemented.

#[export] Instance status_code_eq_dec : EqDecision status_code.
Proof. solve_decision. Defined.

Definition toGRPCStatus (e : error) : status_code :=
  if bool_decide (e = ErrNodeDegraded) then Unavailable else Internal.

Section rpc.
Context {S : Type} {HS : Storage S}.
Implicit Types (n : Node S).

Definition serverRequestVote (pb : PB.RequestVoteRequest.t) n
    : Node S * (PB.RequestVoteResponse.t + status_code) :=
  match HandleRequestVote (requestVoteRequestFromPB pb) n with
  | (n, Err e) => (n, inr (toGRPCStatus e))
  | (n, Val resp) => (n, inl (requestVoteResponseToPB resp))
  end.

Definition serverAppendEntries (now : Z) (pb : PB.AppendEntriesRequest.t) n
    : outcome (Node S * (PB.AppendEntriesResponse.t + status_code)) :=
  req ← appendEntriesRequestFromPB pb;
  '(n, r) ← HandleAppendEntries now req n;
  match r with
  | Err e => Ret (n, inr (toGRPCStatus e))
  | Val resp => Ret (n, inl (appendEntriesResponseToPB resp))
  end.

Definition serverInstallSnapshot (pb : PB.InstallSnapshotRequest.t) n
    : outcome (Node S * (PB.InstallSnapshotResponse.t + status_code)) :=
  '(n, r) ← HandleInstallSnapshot (installSnapshotRequestFromPB pb) n;
  match r with
  | Err e => Ret (n, inr (toGRPCStatus e))
  | Val resp => Ret (n, inl (installSnapshotResponseToPB resp))
  end.

(** ** client.go

    [wire] is the generated client: the answer of the other side, or the
    status of a failed call, which the adapters return as it is. *)

Definition clientRequestVote (wire : PB.RequestVoteRequest.t → PB.RequestVoteResponse.t + status_code)
    (req : RequestVoteRequest) : RequestVoteResponse + status_code :=
  match wire (requestVoteRequestToPB req) with
  | inl pb => inl (requestVoteResponseFromPB pb)
  | inr err => inr err
  end.

Definition clientAppendEntries
    (wire : PB.AppendEntriesRequest.t → PB.AppendEntriesResponse.t + status_code)
    (req : AppendEntriesRequest) : AppendEntriesResponse + status_code :=
  match wire (appendEntriesRequestToPB req) with
  | inl pb => inl (appendEntriesResponseFromPB pb)
  | inr err => inr err
  end.

Definition clientInstallSnapshot
    (wire : PB.InstallSnapshotRequest.t → PB.InstallSnapshotResponse.t + status_code)
    (req : InstallSnapshotRequest) : InstallSnapshotResponse + status_code :=
  match wire (installSnapshotRequestToPB req) with
  | inl pb => inl (installSnapshotResponseFromPB pb)
  | inr err => inr err
  end.

(** ** A whole RPC *)

(** The request as it arrives: entries without their type. *)
Definition untyped (req : AppendEntriesRequest) : AppendEntriesRequest :=
  AppendEntriesRequest.mk (AppendEntriesRequest.Term req) (AppendEntriesRequest.LeaderID req)
    (AppendEntriesRequest.PrevLogIndex req) (AppendEntriesRequest.PrevLogTerm req)
    ((λ e, LogEntry.mk (LogEntry.Term e) EntryCommand (LogEntry.Command e))
       <$> AppendEntriesRequest.Entries req)
    (AppendEntriesRequest.LeaderCommit req).

(** What the caller of a remote handler receives. *)
Definition received {A} (r : result A) : A + status_code :=
  match r with Val a => inl a | Err e => inr (toGRPCStatus e) end.

(** [wire] carries calls to a server: what [serve] answers comes back. *)
Definition carries {P A} (serve : P → outcome (Node S * (A + status_code))) (wire : P → A + status_code)
    : Prop := ∀ pb n' a, serve pb = Ret (n', a) → wire pb = a.

Lemma entries_roundtrip es :
  entriesFromPB ((λ e, Some (PB.LogEntry.mk (LogEntry.Term e) (LogEntry.Command e))) <$> es) =
  Ret ((λ e, LogEntry.mk (LogEntry.Term e) EntryCommand (LogEntry.Command e)) <$> es).
Proof. induction es as [|e es IH]; [done|]. cbn. by rewrite IH. Qed.

Lemma append_request_roundtrip req :
  appendEntriesRequestFromPB (appendEntriesRequestToPB req) = Ret (untyped req).
Proof.
  unfold appendEntriesRequestFromPB, appendEntriesRequestToPB.
  cbn [PB.AppendEntriesRequest.Entries]. by rewrite entries_roundtrip.
Qed.

Lemma untyped_id req :
  Forall (λ e, LogEntry.Type_ e = EntryCommand) (AppendEntriesRequest.Entries req) →
  untyped req = req.
Proof.
  intros H. destruct req as [t l pi pt es c]. unfold untyped. cbn in *. f_equal.
  induction H as [|[et ety ec] es He _ IH]; [done|]. cbn in *. subst ety. by f_equal.
Qed.

(** C35. An RPC through the client adapter, a wire that carries it and the
    server adapter is the call of the node's handler.  The node's state is the
    handler's, a response arrives as the handler returned it, and an error as
    the status the server gave it: Unavailable for a degraded node, Internal
    for every other error, so the cause itself does not cross.  RequestVote
    and InstallSnapshot requests reach the handler unchanged; an AppendEntries
    request reaches it with the entry types reset to [EntryCommand], which is
    the same request when all its entries are commands. *)
Theorem rpc_is_handler_call now vreq areq sreq vwire awire swire n :
  carries (λ pb, Ret (serverRequestVote pb n)) vwire →
  carries (λ pb, serverAppendEntries now pb n) awire →
  carries (λ pb, serverInstallSnapshot pb n) swire →
  (∀ n' r, HandleRequestVote vreq n = (n', r) →
     (serverRequestVote (requestVoteRequestToPB vreq) n).1 = n' ∧
     clientRequestVote vwire vreq = received r) ∧
  (∀ n' r, HandleAppendEntries now (untyped areq) n = Ret (n', r) →
     (∃ a, serverAppendEntries now (appendEntriesRequestToPB areq) n = Ret (n', a)) ∧
     clientAppendEntries awire areq = received r) ∧
  (Forall (λ e, LogEntry.Type_ e = EntryCommand) (AppendEntriesRequest.Entries areq) →
   untyped areq = areq) ∧
  (∀ n' r, HandleInstallSnapshot sreq n = Ret (n', r) →
     (∃ a, serverInstallSnapshot (installSnapshotRequestToPB sreq) n = Ret (n', a)) ∧
     clientInstallSnapshot swire sreq = received r) ∧
  (∀ e, toGRPCStatus e = if decide (e = ErrNodeDegraded) then Unavailable else Internal).
Proof.
  intros Hvw Haw Hsw. split_and!.
  - intros n' r H. assert (serverRequestVote (requestVoteRequestToPB vreq) n =
      (n', match r with Val a => inl (requestVoteResponseToPB a) | Err e => inr (toGRPCStatus e) end)) as E.
    { unfold serverRequestVote. replace (requestVoteRequestFromPB _) with vreq by by destruct vreq.
      rewrite H. by destruct r. }
    split; [by rewrite E|]. unfold clientRequestVote. rewrite (Hvw _ _ _ (f_equal Ret E)).
    by destruct r as [[]|].
  - intros n' r H. assert (serverAppendEntries now (appendEntriesRequestToPB areq) n =
      Ret (n', match r with Val a => inl (appendEntriesResponseToPB a) | Err e => inr (toGRPCStatus e) end)) as E.
    { unfold serverAppendEntries. rewrite append_request_roundtrip. cbn [mbind outcome_bind].
      rewrite H. cbn [mbind outcome_bind]. by destruct r. }
    split; [by eexists|]. unfold clientAppendEntries. rewrite (Haw _ _ _ E). by destruct r as [[]|].
  - apply untyped_id.
  - intros n' r H. assert (serverInstallSnapshot (installSnapshotRequestToPB sreq) n =
      Ret (n', match r with Val a => inl (installSnapshotResponseToPB a) | Err e => inr (toGRPCStatus e) end)) as E.
    { unfold serverInstallSnapshot.
      replace (installSnapshotRequestFromPB _) with sreq by by destruct sreq as [? ? ? ? [] ?].
      rewrite H. cbn [mbind outcome_bind]. by destruct r. }
    split; [by eexists|]. unfold clientInstallSnapshot. rewrite (Hsw _ _ _ E). by destruct r as [[]|].
  - intros e. unfold toGRPCStatus. case_bool_decide; by case_decide.
Qed.
End rpc.

(** A degraded node and a healthy one, and wires that serve them. *)
Definition demo_append : AppendEntriesRequest :=
  AppendEntriesRequest.mk 2 "a" 0 0 [LogEntry.mk 1 EntryCommand [x61]] 1.

Definition demo_peer : Node InMemoryStorage.t :=
  blank_node "b" {["a"]} InMemoryStorage.NewInMemoryStorage.

Definition demo_wire {P A} (serve : P → outcome (Node InMemoryStorage.t * (A + status_code)))
    (pb : P) : A + status_code :=
  match serve pb with Ret (_, a) => a | Panic => inr Internal end.

Lemma demo_wire_carries {P A} (serve : P → outcome (Node InMemoryStorage.t * (A + status_code))) :
  carries serve (demo_wire serve).
Proof. intros pb n' a E. unfold demo_wire. by rewrite E. Qed.

Lemma demo_handled :
  match HandleAppendEntries 0 demo_append demo_peer,
        HandleAppendEntries 0 demo_append (demo_peer <| degraded := true |>) with
  | Ret (_, Val resp), Ret (_, Err e) => AppendEntriesResponse.Success resp && bool_decide (e = ErrNodeDegraded)
  | _, _ => false
  end = true.
Proof. vm_compute. reflexivity. Qed.

Lemma rpc_is_handler_call_witness :
  (∃ resp, clientAppendEntries (demo_wire (λ pb, serverAppendEntries 0 pb demo_peer)) demo_append = inl resp ∧
     AppendEntriesResponse.Success resp = true) ∧
  clientAppendEntries (demo_wire (λ pb, serverAppendEntries 0 pb (demo_peer <| degraded := true |>)))
    demo_append = inr Unavailable.
Proof.
  pose proof demo_handled as H.
  destruct (HandleAppendEntries 0 demo_append demo_peer) as [[n1 [resp|]]|] eqn:E1; try discriminate.
  destruct (HandleAppendEntries 0 demo_append (demo_peer <| degraded := true |>))
    as [[n2 [|e]]|] eqn:E2; try discriminate.
  apply andb_prop in H as [Hs He%bool_decide_eq_true]. split.
  - destruct (rpc_is_handler_call 0 (RequestVoteRequest.mk 2 "a" 0 0) demo_append
      (InstallSnapshotRequest.mk 2 "a" 0 0 (mkClusterConfig []) []) _ _ _ demo_peer
      (demo_wire_carries _) (demo_wire_carries _) (demo_wire_carries _)) as (_ & Ha & _).
    exists resp. split; [|exact Hs]. exact (proj2 (Ha n1 (Val resp) E1)).
  - destruct (rpc_is_handler_call 0 (RequestVoteRequest.mk 2 "a" 0 0) demo_append
      (InstallSnapshotRequest.mk 2 "a" 0 0 (mkClusterConfig []) []) _ _ _
      (demo_peer <| degraded := true |>)
      (demo_wire_carries _) (demo_wire_carries _) (demo_wire_carries _)) as (_ & Ha & _).
    rewrite He in E2. exact (proj2 (Ha n2 (Err ErrNodeDegraded) E2)).
Defined.
