(* ===== verification/KvClient.v ===== *)
(** * KvClient: the client side of the key-value service

    [internal/transport/grpc/kv]: the status a server answers with
    ([toGRPCStatus] of server.go), what the client makes of it
    ([fromGRPCStatus]) and the [ClusterClient] that looks for the leader
    (client.go).  A node is its index in the list of clients.  What each node
    would answer and whether the context has expired once it has answered are
    functions of the node, which is no restriction: a call never asks a node
    twice ([cluster_write]).  [rand.Perm] is any permutation.

    The theorems: a write asks every node at most once, the hinted one first,
    stops at the first that accepts, and fails with [ErrNoLeader] exactly when
    every node was passed over, having refused as not the leader or failed
    with the context not yet expired; a rejected leader hint is forgotten; a failed
    [DialCluster] leaves no connection open and [Close] closes the others. *)

From S2P Require Import Prelude Types GoStrings Utf8 Json GoJson KvStore KvService Transport.
Open Scope Z_scope.

(** ** server.go *)

Definition kvToGRPCStatus (e : kv_error) : status_code :=
  match e with
  | ErrNotLeader => FailedPrecondition
  | ErrCommitTimeout => Unavailable
  | _ => Internal
  end.

(** What [Put] and [Delete] of the server answer for the service's result. *)
Definition serverWrite (r : Z + kv_error) : Z + status_code :=
  match r with inl index => inl index | inr e => inr (kvToGRPCStatus e) end.

(** ** client.go: one node *)

Inductive client_error : Type :=
  | ClientNotLeader                (** ErrNotLeader *)
  | ClientNoLeader                 (** ErrNoLeader *)
  | ClientStatus (c : status_code) (** any other error of the call *)
  | ClientContext                  (** ctx.Err() *)
  | ClientUnavailable (n : nat).   (** kv: all n nodes unavailable *)

Definition fromGRPCStatus (c : status_code) : client_error :=
  if bool_decide (c = FailedPrecondition) then ClientNotLeader else ClientStatus c.

(** [Client.Put] and [Client.Delete]. *)
Definition clientWrite (wire : Z + status_code) : Z + client_error :=
  match wire with inl index => inl index | inr c => inr (fromGRPCStatus c) end.

(** [Client.Get]. *)
Definition clientGet (wire : (string * bool) + status_code) : (string * bool) + client_error :=
  match wire with inl v => inl v | inr c => inr (fromGRPCStatus c) end.

(** ** client.go: the cluster *)

Record ClusterClient : Type := mkCluster { clients : nat; leaderHint : Z }.

(** The connections, by their index in the list of addresses. *)
Inductive conn_event : Type := Dialed (i : nat) | Closed (i : nat).

Section dial.
(** The error of [grpc.NewClient] for an address, if any; of closing a
    connection. *)
Context (newClient : string → option string) (closeErr : nat → option string).

(** The loop of [DialCluster], [k] connections open. *)
Fixpoint dialAll (k : nat) (addrs : list string) : list conn_event * option string :=
  match addrs with
  | [] => ([], None)
  | addr :: addrs =>
      match newClient addr with
      | Some err => (Closed <$> seq 0 k, Some ("kv client: dial " +:+ addr +:+ ": " +:+ err))
      | None => let '(evs, r) := dialAll (S k) addrs in (Dialed k :: evs, r)
      end
  end.

Definition DialCluster (addrs : list string) : list conn_event * (ClusterClient + string) :=
  if bool_decide (addrs = []) then ([], inr "kv cluster client: no addresses provided") else
  match dialAll 0 addrs with
  | (evs, Some err) => (evs, inr err)
  | (evs, None) => (evs, inl (mkCluster (length addrs) (-1)))
  end.

(** [ClusterClient.Close]: every connection is closed, the errors joined. *)
Definition Close (c : ClusterClient) : list conn_event * option string :=
  (Closed <$> seq 0 (clients c),
   let errs := omap closeErr (seq 0 (clients c)) in
   if bool_decide (errs = []) then None else Some (join_with nl errs)).
End dial.

Definition getLeaderHint (c : ClusterClient) : Z := leaderHint c.
Definition setLeaderHint (i : nat) (c : ClusterClient) : ClusterClient :=
  mkCluster (clients c) (Z.of_nat i).
Definition clearLeaderHintIf (i : nat) (c : ClusterClient) : ClusterClient :=
  if leaderHint c =? Z.of_nat i then mkCluster (clients c) (-1) else c.

(** [writeOrder], given the value of [rand.Perm(n)]. *)
Definition writeOrder (perm : list nat) (c : ClusterClient) : list nat :=
  let n := Z.of_nat (clients c) in
  let hint := getLeaderHint c in
  (if (0 <=? hint) && (hint <? n) then [Z.to_nat hint] else []) ++
  filter (λ i, Z.of_nat i ≠ hint) perm.

Section writes.
(** What node [i] answers, and whether the context is done after that. *)
Context (fn : nat → Z + client_error) (expired : nat → bool).

(** The loop of [writeToLeader]. *)
Fixpoint tryNodes (order : list nat) (c : ClusterClient) : ClusterClient * (Z + client_error) :=
  match order with
  | [] => (c, inr ClientNoLeader)
  | i :: order =>
      match fn i with
      | inl index => (setLeaderHint i c, inl index)
      | inr ClientNotLeader => tryNodes order (clearLeaderHintIf i c)
      | inr _ => if expired i then (c, inr ClientContext) else tryNodes order c
      end
  end.

Definition writeToLeader (perm : list nat) (c : ClusterClient) : ClusterClient * (Z + client_error) :=
  tryNodes (writeOrder perm c) c.
End writes.

(** [ClusterClient.Put] and [Delete]: the same request to each node in turn;
    [put] and [delete] are what the wire brings back from a node. *)
Definition ClusterPut (put : nat → string → string → Z + status_code) expired perm key value c :=
  writeToLeader (λ i, clientWrite (put i key value)) expired perm c.
Definition ClusterDelete (delete : nat → string → Z + status_code) expired perm key c :=
  writeToLeader (λ i, clientWrite (delete i key)) expired perm c.

Section reads.
Context (get : nat → string → (string * bool) + status_code) (expired : nat → bool).

(** [ClusterClient.Get]: the nodes in random order. *)
Fixpoint getFrom (total : nat) (order : list nat) (key : string) : (string * bool) + client_error :=
  match order with
  | [] => inr (ClientUnavailable total)
  | i :: order =>
      match clientGet (get i key) with
      | inl v => inl v
      | inr _ => if expired i then inr ClientContext else getFrom total order key
      end
  end.

Definition ClusterGet (perm : list nat) (key : string) (c : ClusterClient)
    : (string * bool) + client_error :=
  getFrom (clients c) perm key.
End reads.

(** ** Connections *)

(** The connections open after a run of events. *)
Fixpoint open_conns (evs : list conn_event) (open : gset nat) : gset nat :=
  match evs with
  | [] => open
  | Dialed i :: evs => open_conns evs ({[i]} ∪ open)
  | Closed i :: evs => open_conns evs (open ∖ {[i]})
  end.

Lemma open_conns_app e1 e2 o : open_conns (e1 ++ e2) o = open_conns e2 (open_conns e1 o).
Proof. revert o. induction e1 as [|[] e1 IH]; intros o; simpl; auto. Qed.

Lemma open_conns_closed l o : open_conns (Closed <$> l) o = o ∖ list_to_set l.
Proof.
  revert o. induction l as [|i l IH]; intros o; cbn [fmap list_fmap open_conns]; [set_solver|].
  rewrite IH. set_solver.
Qed.

Lemma dialAll_open newClient k addrs :
  let '(evs, r) := dialAll newClient k addrs in
  open_conns evs (list_to_set (seq 0 k)) =
  match r with Some _ => ∅ | None => list_to_set (seq 0 (k + length addrs)) end.
Proof.
  revert k. induction addrs as [|addr addrs IH]; intros k; cbn [dialAll].
  { cbn. by rewrite Nat.add_0_r. }
  destruct (newClient addr) as [err|].
  { rewrite open_conns_closed. set_solver. }
  specialize (IH (S k)). destruct (dialAll newClient (S k) addrs) as [evs r]. cbn [open_conns].
  assert ((list_to_set (seq 0 (S k)) : gset nat) = {[k]} ∪ list_to_set (seq 0 k)) as E
    by (rewrite seq_S; set_solver).
  rewrite E in IH. replace (k + length (addr :: addrs))%nat with (S k + length addrs)%nat by (simpl; lia).
  exact IH.
Qed.

(** A failed [DialCluster] leaves no connection open, and [Close] closes those
    of a successful one. *)
Lemma DialCluster_open newClient addrs :
  let '(evs, r) := DialCluster newClient addrs in
  match r with
  | inl c => open_conns (evs ++ (Close (λ _, None) c).1) ∅ = ∅ ∧
             clients c = length addrs ∧ leaderHint c = -1 ∧ addrs ≠ []
  | inr _ => open_conns evs ∅ = ∅
  end.
Proof.
  unfold DialCluster. case_bool_decide as E; [done|].
  pose proof (dialAll_open newClient 0 addrs) as H. destruct (dialAll newClient 0 addrs) as [evs [err|]]; [done|].
  split_and!; [|done..]. rewrite open_conns_app. change (list_to_set (seq 0 0)) with (∅ : gset nat) in H.
  rewrite H. cbn [Close fst clients]. rewrite open_conns_closed. simpl. set_solver.
Qed.

(** ** The order of a write *)

Lemma writeOrder_perm perm c :
  perm ≡ₚ seq 0 (clients c) → writeOrder perm c ≡ₚ seq 0 (clients c).
Proof.
  intros Hp. unfold writeOrder, getLeaderHint. set (h := leaderHint c).
  destruct ((0 <=? h) && (h <? Z.of_nat (clients c))) eqn:E.
  - apply andb_true_iff in E as [E1 E2]. zbool.
    assert (Z.to_nat h ∈ perm) as Hin by (rewrite Hp; apply elem_of_seq; lia).
    apply list_elem_of_split in Hin as (l1 & l2 & ->).
    assert (NoDup (l1 ++ Z.to_nat h :: l2)) as Hnd by (rewrite Hp; apply NoDup_seq).
    rewrite <- Hp. cbn [app]. rewrite <- Permutation_middle. apply perm_skip.
    rewrite filter_cons_False by (rewrite Z2Nat.id by lia; naive_solver).
    assert (∀ l : list nat, Z.to_nat h ∉ l → filter (λ i, Z.of_nat i ≠ h) l = l) as Hf.
    { induction l as [|x l IH]; intros Hx; [done|]. rewrite filter_cons_True, IH; [done|set_solver|].
      intros Hxh. apply Hx. rewrite <- Hxh, Nat2Z.id. set_solver. }
    rewrite Hf; [done|]. rewrite <- Permutation_middle in Hnd. by apply list.NoDup_cons in Hnd as [? _].
  - cbn [app]. rewrite <- Hp.
    assert (∀ l : list nat, (∀ x, x ∈ l → (x < clients c)%nat) → filter (λ i, Z.of_nat i ≠ h) l = l) as Hf.
    { induction l as [|x l IH]; intros Hx; [done|]. rewrite filter_cons_True, IH; [done|set_solver|].
      specialize (Hx x ltac:(set_solver)). apply andb_false_iff in E as [E|E]; zbool; lia. }
    rewrite Hf; [done|]. intros x Hx. rewrite Hp in Hx. apply elem_of_seq in Hx. lia.
Qed.

Section theorems.
Context (fn : nat → Z + client_error) (expired : nat → bool).

Definition refuses (i : nat) : Prop := fn i = inr ClientNotLeader.
Definition passed_over (i : nat) : Prop :=
  refuses i ∨ ∃ e, fn i = inr e ∧ e ≠ ClientNotLeader ∧ expired i = false.

(** The hint after refusals of the nodes [l]. *)
Lemma tryNodes_spec order c c' r :
  tryNodes fn expired order c = (c', r) →
  clients c' = clients c ∧
  ∃ asked rest, order = asked ++ rest ∧
    match r with
    | inl index => ∃ l i, asked = l ++ [i] ∧ Forall passed_over l ∧ fn i = inl index ∧
        leaderHint c' = Z.of_nat i
    | inr ClientNoLeader => rest = [] ∧ Forall passed_over asked ∧
        (leaderHint c' = leaderHint c ∨ leaderHint c' = -1) ∧
        ∀ i, i ∈ asked → refuses i → leaderHint c' ≠ Z.of_nat i
    | inr ClientContext => ∃ l i e, asked = l ++ [i] ∧ Forall passed_over l ∧ fn i = inr e ∧
        e ≠ ClientNotLeader ∧ expired i = true
    | inr _ => False
    end.
Proof.
  revert c. induction order as [|i order IH]; intros c; cbn [tryNodes].
  { intros [= <- <-]. split; [done|]. exists [], []. split_and!; try done; [auto|]. intros i. set_solver. }
  assert (∀ c1, passed_over i → clients c1 = clients c →
    (leaderHint c1 = leaderHint c ∨ leaderHint c1 = -1) →
    (refuses i → leaderHint c1 ≠ Z.of_nat i) →
    tryNodes fn expired order c1 = (c', r) →
    clients c' = clients c ∧ ∃ asked rest, i :: order = asked ++ rest ∧
      match r with
      | inl index => ∃ l i, asked = l ++ [i] ∧ Forall passed_over l ∧ fn i = inl index ∧
          leaderHint c' = Z.of_nat i
      | inr ClientNoLeader => rest = [] ∧ Forall passed_over asked ∧
          (leaderHint c' = leaderHint c ∨ leaderHint c' = -1) ∧
          ∀ i, i ∈ asked → refuses i → leaderHint c' ≠ Z.of_nat i
      | inr ClientContext => ∃ l i e, asked = l ++ [i] ∧ Forall passed_over l ∧ fn i = inr e ∧
          e ≠ ClientNotLeader ∧ expired i = true
      | inr _ => False
      end) as Hnext.
  { intros c1 Hp Hc1 Hh1 Hr1 Ht. destruct (IH c1 Ht) as (Hc & asked & rest & -> & Hm).
    split; [congruence|]. exists (i :: asked), rest. split; [done|].
    destruct r as [idx|[| | | |]]; try done.
    - destruct Hm as (l & j & -> & Hl & ? & ?). exists (i :: l), j. split_and!; [done|by constructor|done..].
    - destruct Hm as (-> & Hl & Hh & Hr). split_and!; [done|by constructor|naive_solver congruence|].
      intros j [->|Hj]%elem_of_cons Hj'; [|by apply Hr]. specialize (Hr1 Hj').
      destruct Hh as [Hh|Hh]; rewrite Hh; [done|lia].
    - destruct Hm as (l & j & e & -> & Hl & ? & ? & ?). exists (i :: l), j, e.
      split_and!; [done|by constructor|done..]. }
  destruct (fn i) as [idx|e] eqn:E.
  { intros [= <- <-]. split; [done|]. exists [i], order. split; [done|].
    exists [], i. by split_and!. }
  assert (e = ClientNotLeader ∨ (e ≠ ClientNotLeader ∧
    match e with
    | ClientNotLeader => tryNodes fn expired order (clearLeaderHintIf i c)
    | _ => if expired i then (c, inr ClientContext) else tryNodes fn expired order c
    end = if expired i then (c, inr ClientContext) else tryNodes fn expired order c)) as [-> |[He ->]]
    by (destruct e; auto).
  - apply (Hnext (clearLeaderHintIf i c)); [by left|..]; unfold clearLeaderHintIf.
    { by destruct (leaderHint c =? Z.of_nat i). }
    { destruct (leaderHint c =? Z.of_nat i); auto. }
    intros _. destruct (Z.eqb_spec (leaderHint c) (Z.of_nat i)); cbn; lia.
  - destruct (expired i) eqn:Ex.
    + intros [= <- <-]. split; [done|]. exists [i], order. split; [done|].
      exists [], i, e. by split_and!.
    + apply (Hnext c); [right; by exists e|done|by left|].
      unfold refuses. rewrite E. intros [= ->]. done.
Qed.

(** C36. A write of the cluster client: the nodes asked form a prefix of an
    order in which every node occurs exactly once, the hinted leader, if any,
    first.  A node is passed over when it refuses as not the leader, or when
    its call fails and the context has not expired.  The write ends with the
    first node that is not passed over: one that accepts, whose index it
    returns and which becomes the hint, or one that failed with the context
    expired, and then with the context's error.  When every node of the
    cluster is passed over it ends with [ErrNoLeader], and the hint is no node
    that refused. *)
Theorem cluster_write (perm : list nat) c c' r :
  perm ≡ₚ seq 0 (clients c) →
  writeToLeader fn expired perm c = (c', r) →
  NoDup (writeOrder perm c) ∧ (∀ i, i ∈ writeOrder perm c ↔ (i < clients c)%nat) ∧
  (0 ≤ leaderHint c < Z.of_nat (clients c) →
     head (writeOrder perm c) = Some (Z.to_nat (leaderHint c))) ∧
  ∃ asked rest, writeOrder perm c = asked ++ rest ∧
    match r with
    | inl index => ∃ l i, asked = l ++ [i] ∧ Forall passed_over l ∧ fn i = inl index ∧
        leaderHint c' = Z.of_nat i
    | inr ClientNoLeader => rest = [] ∧ Forall passed_over asked ∧
        (leaderHint c' = leaderHint c ∨ leaderHint c' = -1) ∧
        ∀ i, i ∈ asked → refuses i → leaderHint c' ≠ Z.of_nat i
    | inr ClientContext => ∃ l i e, asked = l ++ [i] ∧ Forall passed_over l ∧ fn i = inr e ∧
        e ≠ ClientNotLeader ∧ expired i = true
    | inr _ => False
    end.
Proof.
  intros Hp Hw. pose proof (writeOrder_perm perm c Hp) as Ho. split_and!.
  - rewrite Ho. apply NoDup_seq.
  - intros i. rewrite Ho, elem_of_seq. lia.
  - intros Hh. unfold writeOrder, getLeaderHint.
    rewrite (proj2 (Z.leb_le _ _)), (proj2 (Z.ltb_lt _ _)) by lia. done.
  - by eapply tryNodes_spec.
Qed.
End theorems.

(** Node 0 is the hint and refuses, node 2 is down, node 1 leads. *)
Definition demo_answers (i : nat) : Z + client_error :=
  clientWrite (serverWrite match i with
    | 0%nat => inr ErrNotLeader | 1%nat => inl 7 | _ => inr (ErrConsensus ErrNilStorage) end).

Example demo_write :
  writeToLeader demo_answers (λ _, false) [2; 0; 1]%nat (mkCluster 3 0) = (mkCluster 3 1, inl 7) ∧
  writeOrder [2; 0; 1]%nat (mkCluster 3 0) = [0; 2; 1]%nat.
Proof. vm_compute. done. Qed.

Lemma cluster_write_witness :
  ∃ asked rest, writeOrder [2; 0; 1]%nat (mkCluster 3 0) = asked ++ rest ∧
    ∃ l i, asked = l ++ [i] ∧ Forall (passed_over demo_answers (λ _, false)) l ∧
      demo_answers i = inl 7 ∧ 1 = Z.of_nat i.
Proof.
  destruct (cluster_write demo_answers (λ _, false) [2; 0; 1]%nat (mkCluster 3 0) (mkCluster 3 1) (inl 7))
    as (_ & _ & _ & H).
  - apply (Permutation_middle [0; 1]%nat [] 2%nat).
  - vm_compute. reflexivity.
  - exact H.
Defined.
