(* ===== verification/AppConfig.v ===== *)
(** * AppConfig: the configuration of a node process

    [internal/app/config.go].  The environment is a function from names to
    values ([os.LookupEnv]); an error is the message of [fmt.Errorf], of which
    the format string is kept.  [strconv.ParseBool] and [ParseUint] are
    modelled on the strings they accept.

    The theorems: a configuration loads exactly when it is valid and each of
    its settings is the trimmed value of its variable or the default; and the
    peer map holds exactly the listed peers, with an error for a malformed
    entry or an identifier listed twice. *)

From Stdlib Require Import Strings.Byte Strings.Ascii.
From S2P Require Import Prelude Types GoStrings Utf8 Json GoJson.
Open Scope Z_scope.

Definition ConsensusTypeRaft : string := "raft".

Record Config : Type := mkConfig {
  NodeID : string;
  ConsensusType : string;
  LogLevel : string;
  TracingEnabled : bool;
  TracingEndpoint : string;
  TracingServiceName : string;
  GRPCAddr : string;
  MetricsAddr : string;
  PprofAddr : string;
  DataDir : string;
  PeerAddrs : list string;
  SnapshotEvery : Z }.

Definition DefaultConfig : Config :=
  mkConfig "node-1" ConsensusTypeRaft "info" false "" "consensus-node" ":8080" ":9090" ""
    "./var/node-1" [] 0.

(** [splitCSV]. *)
Definition splitCSV (raw : string) : list string :=
  filter (λ p, p ≠ "") (trim_space <$> split "," raw).

(** [strconv.ParseBool]. *)
Definition ParseBool (v : string) : option bool :=
  if bool_decide (v ∈ ["1"; "t"; "T"; "TRUE"; "true"; "True"]) then Some true
  else if bool_decide (v ∈ ["0"; "f"; "F"; "FALSE"; "false"; "False"]) then Some false
  else None.

(** [strconv.ParseUint(v, 10, 64)]. *)
Definition ParseUint (v : string) : option Z :=
  if bool_decide (v = "") then None else
  match read_uint (to_bytes v) with
  | Some d => let z := Z.of_N (N.of_uint d) in
              if z <=? 18446744073709551615 then Some z else None
  | None => None
  end.

(** [Validate]: the error, if any. *)
Definition Validate (c : Config) : option string :=
  if bool_decide (trim_space (NodeID c) = "") then Some "app: node id is required"
  else if negb (bool_decide (ConsensusType c = ConsensusTypeRaft)) then
    Some "app: unsupported consensus type %q"
  else if negb (bool_decide (to_lower (trim_space (LogLevel c)) ∈ ["debug"; "info"; "warn"; "error"]))
  then Some "app: unsupported log level %q"
  else if bool_decide (trim_space (GRPCAddr c) = "") then Some "app: grpc addr is required"
  else if bool_decide (trim_space (DataDir c) = "") then Some "app: data dir is required"
  else if TracingEnabled c then
    if bool_decide (trim_space (TracingEndpoint c) = "")
    then Some "app: tracing endpoint is required when tracing is enabled"
    else if bool_decide (trim_space (TracingServiceName c) = "")
    then Some "app: tracing service name is required when tracing is enabled"
    else None
  else None.

Section env.
Context (env : string → option string).

(** [strings.TrimSpace(os.Getenv(name))]: empty when unset. *)
Definition getenv (name : string) : string := trim_space (default "" (env name)).

(** [if v := ...; v != "" { field = v }] *)
Definition setting (name : string) (dflt : string) : string :=
  if bool_decide (getenv name = "") then dflt else getenv name.

(** [if v, ok := os.LookupEnv(name); ok { field = strings.TrimSpace(v) }] *)
Definition lookup_setting (name : string) (dflt : string) : string :=
  match env name with Some v => trim_space v | None => dflt end.

Definition LoadConfigFromEnv : Config + string :=
  let d := DefaultConfig in
  let tracing := getenv "APP_TRACING_ENABLED" in
  match (if bool_decide (tracing = "") then Some (TracingEnabled d) else ParseBool tracing) with
  | None => inr "app: invalid APP_TRACING_ENABLED %q: %w"
  | Some tracingEnabled =>
      let peers := getenv "APP_PEERS" in
      let every := getenv "APP_SNAPSHOT_EVERY" in
      match (if bool_decide (every = "") then Some (SnapshotEvery d) else ParseUint every) with
      | None => inr "app: invalid APP_SNAPSHOT_EVERY %q: %w"
      | Some snapshotEvery =>
          let cfg := mkConfig
            (setting "APP_NODE_ID" (NodeID d))
            (setting "APP_CONSENSUS_TYPE" (ConsensusType d))
            (if bool_decide (getenv "APP_LOG_LEVEL" = "") then LogLevel d
             else to_lower (getenv "APP_LOG_LEVEL"))
            tracingEnabled
            (setting "APP_TRACING_ENDPOINT" (TracingEndpoint d))
            (setting "APP_TRACING_SERVICE_NAME" (TracingServiceName d))
            (setting "APP_GRPC_ADDR" (GRPCAddr d))
            (lookup_setting "APP_METRICS_ADDR" (MetricsAddr d))
            (lookup_setting "APP_PPROF_ADDR" (PprofAddr d))
            (setting "APP_DATA_DIR" (DataDir d))
            (if bool_decide (peers = "") then PeerAddrs d else splitCSV peers)
            snapshotEvery in
          match Validate cfg with
          | Some err => inr err
          | None => inl cfg
          end
      end
  end.
End env.

(** One entry of [PeerAddrMap]'s loop. *)
Inductive peer_entry : Type :=
  | Skip
  | Invalid
  | Peer (id addr : string).

#[export] Instance peer_entry_eq_dec : EqDecision peer_entry.
Proof. solve_decision. Defined.

Definition parsePeer (raw : string) : peer_entry :=
  let raw := trim_space raw in
  if bool_decide (raw = "") then Skip else
  let '(id, addr) :=
    match cut "=" raw with
    | Some (l, r) => (trim_space l, trim_space r)
    | None => (raw, raw)
    end in
  if bool_decide (id = "") || bool_decide (addr = "") then Invalid else Peer id addr.

Fixpoint peerLoop (raws : list string) (out : gmap string string) : gmap string string + string :=
  match raws with
  | [] => inl out
  | raw :: raws =>
      match parsePeer raw with
      | Skip => peerLoop raws out
      | Invalid => inr "app: invalid peer entry %q"
      | Peer id addr =>
          match out !! id with
          | Some _ => inr "app: duplicate peer id %q"
          | None => peerLoop raws (<[id := addr]> out)
          end
      end
  end.

Definition PeerAddrMap (c : Config) : gmap string string + string := peerLoop (PeerAddrs c) ∅.

(** ** Loading *)

(** What a valid configuration is, as a proposition. *)
Definition config_valid (c : Config) : Prop :=
  trim_space (NodeID c) ≠ "" ∧ ConsensusType c = ConsensusTypeRaft ∧
  to_lower (trim_space (LogLevel c)) ∈ ["debug"; "info"; "warn"; "error"] ∧
  trim_space (GRPCAddr c) ≠ "" ∧ trim_space (DataDir c) ≠ "" ∧
  (TracingEnabled c = true →
     trim_space (TracingEndpoint c) ≠ "" ∧ trim_space (TracingServiceName c) ≠ "").

Lemma Validate_spec c : Validate c = None ↔ config_valid c.
Proof.
  unfold Validate, config_valid.
  repeat case_bool_decide; cbn [negb]; try (split; [done|tauto]);
    destruct (TracingEnabled c); repeat case_bool_decide; cbn [negb];
    split; try done; try tauto; try (intros _; split_and!; done); naive_solver.
Qed.

Lemma splitCSV_clean raw : Forall (λ p, p ≠ "" ∧ trim_space p = p) (splitCSV raw).
Proof.
  unfold splitCSV. apply list.Forall_forall. intros p.
  rewrite list_elem_of_filter. intros [Hne Hp]. split; [done|].
  apply list_elem_of_fmap in Hp as (x & -> & _). apply trim_space_idemp.
Qed.

Lemma ParseUint_range v z : ParseUint v = Some z → 0 ≤ z ≤ 18446744073709551615.
Proof.
  unfold ParseUint. case_bool_decide; [done|]. destruct (read_uint _) as [d|]; [|done].
  cbv zeta. destruct (Z.leb_spec (Z.of_N (N.of_uint d)) 18446744073709551615); [|done].
  intros [= <-]. lia.
Qed.

(** The value of a variable that counts as unset when it is blank, and of one
    that may be set to nothing. *)
Definition reads (env : string → option string) (name dflt val : string) : Prop :=
  (∃ v, env name = Some v ∧ trim_space v ≠ "" ∧ val = trim_space v) ∨
  ((∀ v, env name = Some v → trim_space v = "") ∧ val = dflt).

Definition reads_if_set (env : string → option string) (name dflt val : string) : Prop :=
  (∃ v, env name = Some v ∧ val = trim_space v) ∨ (env name = None ∧ val = dflt).

Lemma reads_setting env name dflt val : reads env name dflt val ↔ val = setting env name dflt.
Proof.
  unfold reads, setting, getenv. destruct (env name) as [v|]; cbn [default from_option].
  - case_bool_decide; naive_solver.
  - rewrite bool_decide_eq_true_2 by done. naive_solver.
Qed.

Lemma reads_lookup env name dflt val :
  reads_if_set env name dflt val ↔ val = lookup_setting env name dflt.
Proof. unfold reads_if_set, lookup_setting. destruct (env name); naive_solver. Qed.

(** Every setting of a configuration, by its variable and its default. *)
Record loaded (env : string → option string) (c : Config) : Prop := {
  ld_node : reads env "APP_NODE_ID" "node-1" (NodeID c);
  ld_consensus : reads env "APP_CONSENSUS_TYPE" "raft" (ConsensusType c);
  ld_level : ∃ v, reads env "APP_LOG_LEVEL" "info" v ∧ LogLevel c = to_lower v;
  ld_tracing : ∃ v, reads env "APP_TRACING_ENABLED" "false" v ∧
    ParseBool v = Some (TracingEnabled c);
  ld_endpoint : reads env "APP_TRACING_ENDPOINT" "" (TracingEndpoint c);
  ld_service : reads env "APP_TRACING_SERVICE_NAME" "consensus-node" (TracingServiceName c);
  ld_grpc : reads env "APP_GRPC_ADDR" ":8080" (GRPCAddr c);
  ld_metrics : reads_if_set env "APP_METRICS_ADDR" ":9090" (MetricsAddr c);
  ld_pprof : reads_if_set env "APP_PPROF_ADDR" "" (PprofAddr c);
  ld_data : reads env "APP_DATA_DIR" "./var/node-1" (DataDir c);
  ld_peers : ∃ v, reads env "APP_PEERS" "" v ∧
    PeerAddrs c = filter (λ p, p ≠ "") (trim_space <$> split "," v);
  ld_every : ∃ v, reads env "APP_SNAPSHOT_EVERY" "0" v ∧ ParseUint v = Some (SnapshotEvery c) }.

Lemma reads_default env name dflt : reads env name dflt (setting env name dflt).
Proof. by apply reads_setting. Qed.

Lemma setting_cases env name dflt :
  getenv env name = "" ∧ setting env name dflt = dflt ∨
  getenv env name ≠ "" ∧ setting env name dflt = getenv env name.
Proof. unfold setting. case_bool_decide; auto. Qed.

Lemma loaded_level env :
  (if bool_decide (getenv env "APP_LOG_LEVEL" = "") then "info"
   else to_lower (getenv env "APP_LOG_LEVEL")) = to_lower (setting env "APP_LOG_LEVEL" "info").
Proof. unfold setting. by case_bool_decide. Qed.

Lemma loaded_tracing env :
  (if bool_decide (getenv env "APP_TRACING_ENABLED" = "") then Some false
   else ParseBool (getenv env "APP_TRACING_ENABLED")) =
  ParseBool (setting env "APP_TRACING_ENABLED" "false").
Proof. unfold setting. by case_bool_decide. Qed.

Lemma loaded_peers env :
  (if bool_decide (getenv env "APP_PEERS" = "") then [] else splitCSV (getenv env "APP_PEERS")) =
  splitCSV (setting env "APP_PEERS" "").
Proof. unfold setting. by case_bool_decide. Qed.

Lemma loaded_every env :
  (if bool_decide (getenv env "APP_SNAPSHOT_EVERY" = "") then Some 0
   else ParseUint (getenv env "APP_SNAPSHOT_EVERY")) =
  ParseUint (setting env "APP_SNAPSHOT_EVERY" "0").
Proof. unfold setting. by case_bool_decide. Qed.

(** Loading, with the two parsed settings named. *)
Lemma LoadConfigFromEnv_eq env :
  ∀ c, LoadConfigFromEnv env = inl c ↔
  ∃ tr ev, ParseBool (setting env "APP_TRACING_ENABLED" "false") = Some tr ∧
    ParseUint (setting env "APP_SNAPSHOT_EVERY" "0") = Some ev ∧ Validate c = None ∧
    c = mkConfig (setting env "APP_NODE_ID" "node-1") (setting env "APP_CONSENSUS_TYPE" "raft")
      (to_lower (setting env "APP_LOG_LEVEL" "info")) tr (setting env "APP_TRACING_ENDPOINT" "")
      (setting env "APP_TRACING_SERVICE_NAME" "consensus-node")
      (setting env "APP_GRPC_ADDR" ":8080") (lookup_setting env "APP_METRICS_ADDR" ":9090")
      (lookup_setting env "APP_PPROF_ADDR" "") (setting env "APP_DATA_DIR" "./var/node-1")
      (splitCSV (setting env "APP_PEERS" "")) ev.
Proof.
  intros c. unfold LoadConfigFromEnv. cbn [DefaultConfig TracingEnabled SnapshotEvery LogLevel PeerAddrs
    NodeID ConsensusType TracingEndpoint TracingServiceName GRPCAddr MetricsAddr PprofAddr DataDir].
  cbv zeta. change ConsensusTypeRaft with "raft".
  rewrite loaded_tracing, loaded_every, loaded_level, loaded_peers.
  destruct (ParseBool _) as [tr|]; [|split; [done|naive_solver]].
  destruct (ParseUint _) as [ev|]; [|split; [done|naive_solver]].
  set (cfg := mkConfig _ _ _ _ _ _ _ _ _ _ _ _). split.
  - destruct (Validate cfg) eqn:Ev; [done|]. intros [= <-]. by exists tr, ev.
  - intros (tr' & ev' & [= <-] & [= <-] & Hv & Hc). fold cfg in Hc. subst c. by rewrite Hv.
Qed.

(** C37. Loading is exact: a configuration loads if and only if it is valid
    and every one of its twelve settings is the trimmed value of its
    environment variable, or the default when the variable is unset or (but
    for the metrics and pprof addresses, which may be set to nothing) blank:
    the log level in lower case, the tracing flag and the snapshot interval
    parsed, the peers the non-empty trimmed entries of the comma-separated
    list.  In particular a value that does not parse, or a setting that does
    not validate, is an error; and the snapshot interval is a [uint64]. *)
Theorem load_config_valid env c :
  (LoadConfigFromEnv env = inl c ↔ loaded env c ∧ config_valid c) ∧
  (LoadConfigFromEnv env = inl c → 0 ≤ SnapshotEvery c ≤ 18446744073709551615).
Proof.
  rewrite LoadConfigFromEnv_eq. split; [split|].
  - intros (tr & ev & Htr & Hev & Hv%Validate_spec & Hc). split; [|done]. clear Hv. subst c.
    split; cbn [NodeID ConsensusType LogLevel TracingEnabled TracingEndpoint TracingServiceName
      GRPCAddr MetricsAddr PprofAddr DataDir PeerAddrs SnapshotEvery];
      try apply reads_default; try (by apply reads_lookup);
      eexists; (split; [apply reads_default|done]).
  - intros [[H1 H2 (l & H3 & El) (t & H4 & Et) H5 H6 H7 H8 H9 H10 (p & H11 & Ep) (e & H12 & Ee)] Hv].
    apply reads_setting in H1, H2, H3, H4, H5, H6, H7, H10, H11, H12. apply reads_lookup in H8, H9.
    subst t e l p. exists (TracingEnabled c), (SnapshotEvery c).
    split_and!; [done|done|by apply Validate_spec|].
    destruct c; cbn in *. unfold splitCSV. by f_equal.
  - intros (tr & ev & _ & Hev & _ & ->). by eapply ParseUint_range.
Qed.

Definition demo_env (name : string) : option string :=
  if bool_decide (name = "APP_NODE_ID") then Some " n1 "
  else if bool_decide (name = "APP_PEERS") then Some "a=h:1, ,b = h:2"
  else if bool_decide (name = "APP_SNAPSHOT_EVERY") then Some "128"
  else if bool_decide (name = "APP_METRICS_ADDR") then Some "" else None.

Definition demo_config : Config :=
  mkConfig "n1" "raft" "info" false "" "consensus-node" ":8080" "" "" "./var/node-1"
    ["a=h:1"; "b = h:2"] 128.

Lemma load_config_valid_witness :
  loaded demo_env demo_config ∧ config_valid demo_config ∧
  0 ≤ SnapshotEvery demo_config ≤ 18446744073709551615.
Proof.
  destruct (load_config_valid demo_env demo_config) as [[H1 _] H2].
  assert (LoadConfigFromEnv demo_env = inl demo_config) as E by (vm_compute; reflexivity).
  destruct (H1 E) as [H3 H4]. split; [exact H3|]. split; [exact H4|exact (H2 E)].
Defined.

Example default_config_loads : LoadConfigFromEnv (λ _, None) = inl DefaultConfig.
Proof. vm_compute. reflexivity. Qed.

(** ** Peers *)

Definition peer_pair (raw : string) : option (string * string) :=
  match parsePeer raw with Peer id addr => Some (id, addr) | _ => None end.

Lemma parsePeer_nonempty raw id addr :
  parsePeer raw = Peer id addr → id ≠ "" ∧ addr ≠ "" ∧ trim_space id = id ∧ trim_space addr = addr.
Proof.
  unfold parsePeer. case_bool_decide; [done|].
  destruct (cut "=" (trim_space raw)) as [[l r]|];
    repeat case_bool_decide; cbn [orb]; try done; intros [= <- <-];
    split_and!; try done; apply trim_space_idemp.
Qed.

(** The loop from a map that holds the peers seen so far. *)
Lemma peerLoop_spec raws out :
  match peerLoop raws out with
  | inl m => Invalid ∉ parsePeer <$> raws ∧ NoDup (omap peer_pair raws).*1 ∧
      (∀ id, id ∈ (omap peer_pair raws).*1 → out !! id = None) ∧
      m = list_to_map (omap peer_pair raws) ∪ out
  | inr _ => Invalid ∈ parsePeer <$> raws ∨ ¬ NoDup (omap peer_pair raws).*1 ∨
      ∃ id, id ∈ (omap peer_pair raws).*1 ∧ is_Some (out !! id)
  end.
Proof.
  revert out. induction raws as [|raw raws IH]; intros out.
  { cbn. split_and!; [set_solver|constructor|set_solver|by rewrite (left_id_L ∅ (∪))]. }
  cbn [peerLoop fmap list_fmap omap list_omap].
  destruct (parsePeer raw) as [| |id addr] eqn:E;
    [assert (peer_pair raw = None) as -> by (unfold peer_pair; by rewrite E)
    |assert (peer_pair raw = None) as -> by (unfold peer_pair; by rewrite E)
    |assert (peer_pair raw = Some (id, addr)) as -> by (unfold peer_pair; by rewrite E)].
  - specialize (IH out). destruct (peerLoop raws out); [|set_solver].
    destruct IH as (? & ? & ? & ?). split_and!; [set_solver|done..].
  - left. set_solver.
  - destruct (out !! id) as [a|] eqn:Eo.
    { right. right. exists id. split; [set_solver|by eexists]. }
    specialize (IH (<[id := addr]> out)). cbn [fmap list_fmap fst].
    destruct (peerLoop raws (<[id := addr]> out)) as [m|e].
    + destruct IH as (Hinv & Hnd & Hout & ->).
      assert (id ∉ (omap peer_pair raws).*1) as Hid.
      { intros Hin. specialize (Hout id Hin). by rewrite lookup_insert_eq in Hout. }
      split_and!; [set_solver|by apply list.NoDup_cons|..].
      * intros id' [->|Hin]%elem_of_cons; [done|]. specialize (Hout id' Hin).
        rewrite lookup_insert_None in Hout. by destruct Hout.
      * cbn [list_to_map foldr fst snd]. rewrite <- insert_union_l, insert_union_r; [done|].
        by apply not_elem_of_list_to_map_1.
    + destruct IH as [?|[Hnd|(id' & Hin & Hs)]]; [left; set_solver| |].
      * right. left. intros [_ ?]%list.NoDup_cons. done.
      * destruct (decide (id = id')) as [<-|Hne].
        { right. left. by intros [? _]%list.NoDup_cons. }
        right. right. exists id'. rewrite lookup_insert_ne in Hs by done.
        split; [set_solver|done].
Qed.

(** The peer map: when it succeeds, no entry is malformed, no identifier
    occurs twice, every identifier and address is trimmed and not empty, and
    the map has exactly the peers of the list; when it fails, some entry is
    malformed or some identifier occurs twice. *)
Theorem peer_addr_map_exact c :
  match PeerAddrMap c with
  | inl m => Invalid ∉ parsePeer <$> PeerAddrs c ∧ NoDup (omap peer_pair (PeerAddrs c)).*1 ∧
      ∀ id addr, m !! id = Some addr ↔
        (∃ raw, raw ∈ PeerAddrs c ∧ parsePeer raw = Peer id addr) ∧
        id ≠ "" ∧ addr ≠ "" ∧ trim_space id = id ∧ trim_space addr = addr
  | inr _ => Invalid ∈ parsePeer <$> PeerAddrs c ∨ ¬ NoDup (omap peer_pair (PeerAddrs c)).*1
  end.
Proof.
  pose proof (peerLoop_spec (PeerAddrs c) ∅) as H. unfold PeerAddrMap.
  destruct (peerLoop (PeerAddrs c) ∅) as [m|e].
  - destruct H as (? & Hnd & _ & ->). split_and!; [done..|].
    intros id addr. rewrite (right_id_L ∅ (∪)), <- elem_of_list_to_map by done.
    rewrite list_elem_of_omap. split.
    + intros (raw & Hin & Hp). unfold peer_pair in Hp.
      destruct (parsePeer raw) as [| |id' addr'] eqn:E; try done. injection Hp as -> ->.
      pose proof (parsePeer_nonempty _ _ _ E). split; [by exists raw|done].
    + intros [(raw & Hin & Hp) _]. exists raw. split; [done|]. unfold peer_pair. by rewrite Hp.
  - destruct H as [?|[?|(id & _ & [? Hs])]]; [by left|by right|]. by rewrite lookup_empty in Hs.
Qed.

Example peer_addr_map_ex :
  PeerAddrMap demo_config = inl (<["a" := "h:1"]> {["b" := "h:2"]}) ∧
  PeerAddrMap (mkConfig "n" "raft" "info" false "" "" "" "" "" "" ["a=1"; "a=2"] 0) =
    inr "app: duplicate peer id %q".
Proof. vm_compute. done. Qed.
