(* ===== verification/Admin.v ===== *)
(** * Admin: what the node reports about itself

    [Node.AdminState] of [internal/consensus/raft/admin.go] and the admin
    service of [internal/transport/grpc/admin/server.go].  The records are the
    Go structs and the fields of the generated messages of
    [pkg/proto/adminv1] the service fills; a nil pointer is [None], the zero
    time is 0 on the clock of the model. *)

From S2P Require Import Prelude Types Storage Timing Node Handlers GoStrings.
From S2P Require Import LogSpec AppendSpec.
Open Scope Z_scope.

(** ** admin.go *)

Module AdminPeerState.
Record t : Type := mk { NodeID : string; MatchIndex : Z; NextIndex : Z }.
End AdminPeerState.

Module AdminState.
Record t : Type := mk {
  NodeID : string;
  LeaderID : string;
  Role : Types.Role;
  Status : Types.NodeStatus;
  Term : Z;
  CommitIndex : Z;
  LastApplied : Z;
  LastAppliedAt : Z;
  LastLogIndex : Z;
  LastLogTerm : Z;
  SnapshotLastIndex : Z;
  SnapshotLastTerm : Z;
  SnapshotSizeBytes : Z;
  ClusterMembers : list string;
  QuorumSize : Z;
  Peers : list AdminPeerState.t }.
End AdminState.

Section node.
Context {S : Type}.
Implicit Types (n : Node S).

(** The order in which Go iterates the peer map does not matter: the
    identifiers are sorted. *)
Definition GetAdminState n : AdminState.t :=
  let peerIDs := sort_strings (elements (peers n)) in
  AdminState.mk (id n)
    (if role_eqb (role n) Leader then id n else "")
    (role n)
    (if degraded n then NodeStatusDegraded else NodeStatusHealthy)
    (currentTerm n) (commitIndex n) (lastApplied n) (lastAppliedAt n)
    (lastLogIndex n) (lastLogTerm n) (snapshotIndex n) (snapshotTerm n)
    (match snapshot n with Some s => zlen (Snapshot.Data s) | None => 0 end)
    (if 0 <? zlen (Members (config n)) then sort_strings ([] ++ Members (config n)) else [])
    (quorumSize n)
    ((λ p, AdminPeerState.mk p (map_get 0 p (matchIndex n)) (map_get 0 p (nextIndex n))) <$> peerIDs).
End node.

(** ** server.go *)

Inductive ConsensusTypePB : Type := CONSENSUS_TYPE_UNSPECIFIED | CONSENSUS_TYPE_RAFT.
Inductive NodeRolePB : Type :=
  | NODE_ROLE_UNSPECIFIED | NODE_ROLE_LEADER | NODE_ROLE_FOLLOWER | NODE_ROLE_CANDIDATE.
Inductive NodeStatusPB : Type :=
  | NODE_STATUS_UNSPECIFIED | NODE_STATUS_HEALTHY | NODE_STATUS_DEGRADED.

Module RaftPeerInfo.
Record t : Type := mk {
  NodeId : string; Status : NodeStatusPB; MatchIndex : Z; NextIndex : Z; Lag : Z }.
End RaftPeerInfo.

Module RaftNodeInfo.
Record t : Type := mk {
  Term : Z;
  LeaderId : string;
  CommitIndex : Z;
  LastApplied : Z;
  LastLogIndex : Z;
  LastLogTerm : Z;
  SnapshotLastIndex : Z;
  SnapshotLastTerm : Z;
  SnapshotSizeBytes : Z;
  ClusterMembers : list string;
  QuorumSize : Z;
  Peers : list RaftPeerInfo.t;
  LastAppliedAt : option Z }.
End RaftNodeInfo.

Module PeerInfo.
Record t : Type := mk { NodeId : string; Address : string }.
End PeerInfo.

Module NodeInfo.
Record t : Type := mk {
  NodeId : string;
  ConsensusType : ConsensusTypePB;
  Role : NodeRolePB;
  Status : NodeStatusPB;
  Peers : list PeerInfo.t;
  Raft : option RaftNodeInfo.t }.
End NodeInfo.

Definition mapConsensusType (v : string) : ConsensusTypePB :=
  if bool_decide (v = "raft") then CONSENSUS_TYPE_RAFT else CONSENSUS_TYPE_UNSPECIFIED.

Definition mapRaftRole (v : Role) : NodeRolePB :=
  match v with
  | Leader => NODE_ROLE_LEADER
  | Follower => NODE_ROLE_FOLLOWER
  | Candidate => NODE_ROLE_CANDIDATE
  end.

Definition mapRaftStatus (v : NodeStatus) : NodeStatusPB :=
  match v with
  | NodeStatusHealthy => NODE_STATUS_HEALTHY
  | NodeStatusDegraded => NODE_STATUS_DEGRADED
  end.

Definition max_int32 : Z := 2147483647.
Definition min_int32 : Z := -2147483648.

Definition safeInt32 (v : Z) : Z :=
  if max_int32 <? v then max_int32 else if v <? min_int32 then min_int32 else v.

Definition peerInfosFromMap (peerAddrs : gmap string string) : list PeerInfo.t :=
  if bool_decide (peerAddrs = ∅) then [] else
  (λ id, PeerInfo.mk id (map_get "" id peerAddrs)) <$> sorted_keys peerAddrs.

(** The server: its identity, the peer addresses and, if there is one, the
    state of the Raft node it inspects. *)
Record AdminServer : Type := mkAdmin {
  nodeID : string;
  consensusType : string;
  peerAddrs : gmap string string;
  raft : option AdminState.t }.

(** The progress of one peer. *)
Definition raftPeerInfo (lastLog : Z) (p : AdminPeerState.t) : RaftPeerInfo.t :=
  let lag := lastLog -! AdminPeerState.MatchIndex p in
  let lag := if lag <? 0 then 0 else lag in
  RaftPeerInfo.mk (AdminPeerState.NodeID p) NODE_STATUS_UNSPECIFIED
    (AdminPeerState.MatchIndex p) (AdminPeerState.NextIndex p) lag.

Definition raftNodeInfo (rs : AdminState.t) : RaftNodeInfo.t :=
  RaftNodeInfo.mk (AdminState.Term rs) (AdminState.LeaderID rs) (AdminState.CommitIndex rs)
    (AdminState.LastApplied rs) (AdminState.LastLogIndex rs) (AdminState.LastLogTerm rs)
    (AdminState.SnapshotLastIndex rs) (AdminState.SnapshotLastTerm rs)
    (AdminState.SnapshotSizeBytes rs) ([] ++ AdminState.ClusterMembers rs)
    (safeInt32 (AdminState.QuorumSize rs))
    (raftPeerInfo (AdminState.LastLogIndex rs) <$> AdminState.Peers rs)
    (if AdminState.LastAppliedAt rs =? 0 then None else Some (AdminState.LastAppliedAt rs)).

Definition GetNodeInfo (s : AdminServer) : NodeInfo.t :=
  match raft s with
  | None =>
      NodeInfo.mk (nodeID s) (mapConsensusType (consensusType s)) NODE_ROLE_UNSPECIFIED
        NODE_STATUS_HEALTHY (peerInfosFromMap (peerAddrs s)) None
  | Some rs =>
      NodeInfo.mk (nodeID s) (mapConsensusType (consensusType s)) (mapRaftRole (AdminState.Role rs))
        (mapRaftStatus (AdminState.Status rs)) (peerInfosFromMap (peerAddrs s))
        (Some (raftNodeInfo rs))
  end.

(** ** What is reported *)

Lemma safeInt32_range v : min_int32 ≤ safeInt32 v ≤ max_int32.
Proof. unfold safeInt32, min_int32, max_int32. repeat case_match; zbool; lia. Qed.

Lemma safeInt32_id v : min_int32 ≤ v ≤ max_int32 → safeInt32 v = v.
Proof. unfold safeInt32, min_int32, max_int32. intros. repeat case_match; zbool; lia. Qed.

Lemma peerInfosFromMap_spec m :
  PeerInfo.NodeId <$> peerInfosFromMap m = sorted_keys m ∧
  ∀ id a, PeerInfo.mk id a ∈ peerInfosFromMap m ↔ m !! id = Some a.
Proof.
  unfold peerInfosFromMap. case_bool_decide as E.
  { subst m. split; [vm_compute; done|]. intros. rewrite lookup_empty. set_solver. }
  split.
  - rewrite <- list_fmap_compose. apply list_fmap_id.
  - intros id a. rewrite list_elem_of_fmap. split.
    + intros (k & [= -> ->] & [v Hk]%elem_of_sorted_keys). unfold map_get. by rewrite Hk.
    + intros H. exists id. unfold map_get. rewrite H. split; [done|].
      apply elem_of_sorted_keys. by eexists.
Qed.

(** The Raft part of the answer, field by field, from the node itself. *)
Record faithful {S : Type} (n : Node S) (info : RaftNodeInfo.t) : Prop := {
  fa_term : RaftNodeInfo.Term info = currentTerm n;
  fa_leader : RaftNodeInfo.LeaderId info = if decide (role n = Leader) then id n else "";
  fa_commit : RaftNodeInfo.CommitIndex info = commitIndex n;
  fa_applied : RaftNodeInfo.LastApplied info = lastApplied n;
  fa_last : RaftNodeInfo.LastLogIndex info = snapshotIndex n + zlen (log n);
  fa_last_term : RaftNodeInfo.LastLogTerm info =
    match list.last (log n) with Some e => LogEntry.Term e | None => snapshotTerm n end;
  fa_snap : RaftNodeInfo.SnapshotLastIndex info = snapshotIndex n;
  fa_snap_term : RaftNodeInfo.SnapshotLastTerm info = snapshotTerm n;
  fa_snap_size : RaftNodeInfo.SnapshotSizeBytes info =
    match snapshot n with Some s => zlen (Snapshot.Data s) | None => 0 end;
  fa_members : RaftNodeInfo.ClusterMembers info = sort_strings (Members (config n));
  fa_quorum_range : 0 < RaftNodeInfo.QuorumSize info ≤ max_int32;
  fa_quorum : zlen (Members (config n)) / 2 + 1 ≤ max_int32 →
    RaftNodeInfo.QuorumSize info = zlen (Members (config n)) / 2 + 1;
  fa_peers : RaftPeerInfo.NodeId <$> RaftNodeInfo.Peers info = sort_strings (elements (peers n));
  fa_progress : ∀ p, p ∈ RaftNodeInfo.Peers info →
    RaftPeerInfo.MatchIndex p = map_get 0 (RaftPeerInfo.NodeId p) (matchIndex n) ∧
    RaftPeerInfo.NextIndex p = map_get 0 (RaftPeerInfo.NodeId p) (nextIndex n) ∧
    RaftPeerInfo.Lag p = Z.max 0 (snapshotIndex n + zlen (log n) - RaftPeerInfo.MatchIndex p);
  fa_applied_at : RaftNodeInfo.LastAppliedAt info =
    if decide (lastAppliedAt n = 0) then None else Some (lastAppliedAt n) }.

Lemma raftNodeInfo_faithful {S : Type} (n : Node S) :
  wf n → (∀ p, p ∈ peers n → 0 ≤ map_get 0 p (matchIndex n) ≤ max_int64) →
  faithful n (raftNodeInfo (GetAdminState n)).
Proof.
  intros Hwf Hm. pose proof Hwf as [Hs Hc _ Hr _].
  assert (lastLogIndex n = snapshotIndex n + zlen (log n)) as Hlast by (apply lastLogIndex_eq; lia).
  pose proof (zlen_nonneg (Members (config n))).
  pose proof (Z.div_pos (zlen (Members (config n))) 2).
  split; try done.
  - cbn. unfold role_eqb. by destruct (decide (role n = Leader)) as [E|E];
      [rewrite bool_decide_eq_true_2|rewrite bool_decide_eq_false_2].
  - cbn. unfold zlen. destruct (Members (config n)); [done|]. cbn [length].
    rewrite (proj2 (Z.ltb_lt _ _)) by lia. done.
  - cbn. unfold quorumSize, safeInt32, max_int32, min_int32 in *. repeat case_match; zbool; lia.
  - cbn. intros. apply safeInt32_id. unfold quorumSize, min_int32. lia.
  - cbn. rewrite <- !list_fmap_compose. apply list_fmap_id.
  - cbn. intros p. rewrite list_elem_of_fmap. intros (ap & -> & (q & -> & Hq')%list_elem_of_fmap).
    rewrite elem_of_sort_strings, elem_of_elements in Hq'. specialize (Hm q Hq').
    cbn [raftPeerInfo RaftPeerInfo.NodeId RaftPeerInfo.MatchIndex RaftPeerInfo.NextIndex RaftPeerInfo.Lag
      AdminPeerState.NodeID AdminPeerState.MatchIndex AdminPeerState.NextIndex]. split_and!; [done..|].
    rewrite Hlast. i64_norm. destruct (Z.ltb_spec (snapshotIndex n + zlen (log n)
      - map_get 0 q (matchIndex n)) 0); lia.
  - cbn. by destruct (Z.eqb_spec (lastAppliedAt n) 0); case_decide.
Qed.


Definition demo_node : Node InMemoryStorage.t :=
  blank_node "b" {["c"; "a"]} InMemoryStorage.NewInMemoryStorage
    <| role := Leader |> <| currentTerm := 4 |>
    <| log := [LogEntry.mk 4 EntryCommand []; LogEntry.mk 4 EntryCommand []] |>
    <| commitIndex := 1 |> <| config := mkClusterConfig ["c"; "b"; "a"] |>
    <| matchIndex := {["a" := 1]} |>.

Example demo_view :
  RaftNodeInfo.Peers (raftNodeInfo (GetAdminState demo_node)) =
  [RaftPeerInfo.mk "a" NODE_STATUS_UNSPECIFIED 1 0 1; RaftPeerInfo.mk "c" NODE_STATUS_UNSPECIFIED 0 0 2].
Proof. vm_compute. reflexivity. Qed.

