(* ===== verification/RaftSpec.v ===== *)
(** * RaftSpec: the protocol the replicas implement, and why it is safe

    An abstract replicated log.  A replica is its term, whether it is leader,
    its log and its commit index; the rest of the state is what the protocol
    has said so far: the votes, the log each elected leader has had, the
    acknowledgements and the requests sent.  A step is one thing the protocol
    allows; nothing here mentions storage, channels, maps of indices or
    machine integers.

    The invariant gives the two properties of the Raft paper the code relies
    on: log matching (an entry determines the log up to it) and leader
    completeness (what is committed in a term is in the log of every later
    leader).  The Network file shows that the code refines this protocol,
    which transfers state machine safety to the code. *)

From S2P Require Import Prelude Types Storage Timing Node Handlers.
From S2P Require Import LogSpec.
Open Scope Z_scope.

Module Spec.

Implicit Types (l : list LogEntry) (v i c : string) (t : Z) (k : nat).

(** ** Logs and their prefixes *)

(** The term of entry [k], counting from 1; 0 before the first entry. *)
Definition term_at l k : Z :=
  match k with
  | O => 0
  | S j => match l !! j with Some e => LogEntry.Term e | None => 0 end
  end.

(** Two logs with the same first [k] entries, both that long. *)
Definition agree k l1 l2 : Prop :=
  (k ≤ length l1)%nat ∧ (k ≤ length l2)%nat ∧ take k l1 = take k l2.

(** Different entries at a position up to [k]. *)
Definition conflict_at k l1 l2 : Prop :=
  ∃ j x y, (j < k)%nat ∧ l1 !! j = Some x ∧ l2 !! j = Some y ∧ x ≠ y.

Definition sorted l : Prop :=
  ∀ j1 j2 e1 e2, (j1 ≤ j2)%nat → l !! j1 = Some e1 → l !! j2 = Some e2 →
    LogEntry.Term e1 ≤ LogEntry.Term e2.

Lemma agree_refl k l : (k ≤ length l)%nat → agree k l l.
Proof. by unfold agree. Qed.

#[export] Instance agree_sym k : Symmetric (agree k).
Proof. intros l1 l2 (? & ? & ?). by unfold agree. Qed.

#[export] Instance agree_trans k : Transitive (agree k).
Proof. intros l1 l2 l3 (? & ? & E1) (? & ? & E2). split_and!; [done..|]. congruence. Qed.

Lemma agree_le k k' l1 l2 : (k' ≤ k)%nat → agree k l1 l2 → agree k' l1 l2.
Proof.
  intros Hle (? & ? & E). split_and!; [lia..|].
  apply (f_equal (take k')) in E. by rewrite !take_take, !Nat.min_l in E.
Qed.

Lemma agree_lookup k l1 l2 j : agree k l1 l2 → (j < k)%nat → l1 !! j = l2 !! j.
Proof. intros (_ & _ & E) Hj. by rewrite <- (lookup_take_lt l1 k), E, lookup_take_lt. Qed.

Lemma agree_term k l1 l2 j : agree k l1 l2 → (j ≤ k)%nat → term_at l1 j = term_at l2 j.
Proof. intros Ha Hj. destruct j as [|j]; [done|]. simpl. by rewrite (agree_lookup k l1 l2). Qed.

Lemma agree_app_l k l1 l2 l : agree k l1 l2 → agree k (l1 ++ l) l2.
Proof.
  intros (? & ? & E). split_and!; [rewrite length_app; lia|done|]. by rewrite take_app_le.
Qed.

Lemma agree_no_conflict k k' l1 l2 : agree k l1 l2 → (k' ≤ k)%nat → ¬ conflict_at k' l1 l2.
Proof.
  intros Ha Hk (j & x & y & Hj & Hx & Hy & Hne). rewrite (agree_lookup k l1 l2) in Hx by (auto; lia).
  congruence.
Qed.

(** Agreement on more entries, from a shared longer stretch. *)
Lemma agree_take k l : (k ≤ length l)%nat → agree k (take k l) l.
Proof. intros. split_and!; [rewrite length_take; lia|done|]. by rewrite take_take, Nat.min_id. Qed.

Lemma sorted_agree l l' : agree (length l) l l' → sorted l' → sorted l.
Proof.
  intros Ha Hs j1 j2 e1 e2 Hj H1 H2. apply (Hs j1 j2 e1 e2 Hj).
  - by rewrite <- (agree_lookup _ _ _ _ Ha) by (eapply lookup_lt_Some; eauto).
  - by rewrite <- (agree_lookup _ _ _ _ Ha) by (eapply lookup_lt_Some; eauto).
Qed.

Lemma term_at_lookup l k e : l !! k = Some e → term_at l (S k) = LogEntry.Term e.
Proof. intros H. simpl. by rewrite H. Qed.

Lemma term_at_app l l' k : (k ≤ length l)%nat → term_at (l ++ l') k = term_at l k.
Proof. destruct k as [|j]; [done|]. intros. simpl. by rewrite lookup_app_l by lia. Qed.

(** ** The state *)

Record rep := mkRep { r_term : Z; r_lead : bool; r_log : list LogEntry; r_commit : nat }.

(** A vote: the term, the voter, the candidate and what it said of its log,
    and the voter's log at that time. *)
Record vote := mkVote {
  v_term : Z; v_voter : string; v_cand : string;
  v_lastTerm : Z; v_lastIndex : nat; v_log : list LogEntry }.

(** A request to append [m_entries] after [m_prev]. *)
Record msg := mkMsg {
  m_term : Z; m_prev : nat; m_prevTerm : Z; m_entries : list LogEntry; m_commit : nat }.

(** [leaders] gives the leader elected in a term and the log it has had; an
    acknowledgement [(t, v, k)] says that [v] held the first [k] entries of
    the leader of term [t]. *)
Record state := mkState {
  reps : gmap string rep;
  votes : list vote;
  leaders : gmap Z (string * list LogEntry);
  acks : list (Z * string * nat);
  sent : list msg }.

Implicit Types (A : state) (r : rep) (V : vote) (m : msg).

Definition m_last (m : msg) : nat := (m_prev m + length (m_entries m))%nat.

(** The log after accepting a request. *)
Definition accept (m : msg) l : list LogEntry :=
  merge 0 (Z.of_nat (m_prev m) + 1) (m_entries m) l.

(** The voter's side of the election restriction. *)
Definition up_to_date l (lastTerm : Z) (lastIndex : nat) : Prop :=
  term_at l (length l) < lastTerm ∨
  (lastTerm = term_at l (length l) ∧ (length l ≤ lastIndex)%nat).

Section protocol.
Context (members : gset string).

Definition quorum (Q : gset string) : Prop :=
  Q ⊆ members ∧ (size members < 2 * size Q)%nat.

Definition set_rep v (r : rep) (A : state) : state :=
  mkState (<[v := r]> (reps A)) (votes A) (leaders A) (acks A) (sent A).

(** [step v]: a step of replica [v]. *)
Inductive step : string → state → state → Prop :=
  (** A replica enters a term at least as high, stops leading, or restarts
      with a commit index it has already had. *)
  | step_follow A v r t n :
      reps A !! v = Some r → r_term r ≤ t → (n ≤ r_commit r)%nat →
      step v A (set_rep v (mkRep t false (r_log r) n) A)
  | step_vote A v r c lastTerm lastIndex :
      reps A !! v = Some r → up_to_date (r_log r) lastTerm lastIndex →
      (∀ V, V ∈ votes A → v_term V = r_term r → v_voter V = v → v_cand V = c) →
      step v A (mkState (reps A)
        (mkVote (r_term r) v c lastTerm lastIndex (r_log r) :: votes A)
        (leaders A) (acks A) (sent A))
  | step_elect A i r Q :
      reps A !! i = Some r → 0 < r_term r → quorum Q →
      (∀ l, leaders A !! r_term r ≠ Some (i, l)) →
      (∀ q, q ∈ Q → ∃ V, V ∈ votes A ∧ v_term V = r_term r ∧ v_voter V = q ∧ v_cand V = i ∧
         v_lastTerm V = term_at (r_log r) (length (r_log r)) ∧
         v_lastIndex V = length (r_log r)) →
      step i A (mkState (<[i := mkRep (r_term r) true (r_log r) (r_commit r)]> (reps A))
        (votes A) (<[r_term r := (i, r_log r)]> (leaders A)) (acks A) (sent A))
  | step_propose A i r e :
      reps A !! i = Some r → r_lead r = true → LogEntry.Term e = r_term r →
      step i A (mkState
        (<[i := mkRep (r_term r) true (r_log r ++ [e]) (r_commit r)]> (reps A)) (votes A)
        (<[r_term r := (i, r_log r ++ [e])]> (leaders A))
        ((r_term r, i, length (r_log r ++ [e])) :: acks A) (sent A))
  | step_send A i r prev :
      reps A !! i = Some r → r_lead r = true → (prev ≤ length (r_log r))%nat →
      step i A (mkState (reps A) (votes A) (leaders A) (acks A)
        (mkMsg (r_term r) prev (term_at (r_log r) prev) (drop prev (r_log r)) (r_commit r)
         :: sent A))
  | step_accept A v r m :
      reps A !! v = Some r → m ∈ sent A → r_term r = m_term m →
      (m_prev m ≤ length (r_log r))%nat → term_at (r_log r) (m_prev m) = m_prevTerm m →
      step v A (mkState
        (<[v := mkRep (r_term r) false (accept m (r_log r))
                  (r_commit r `max` (m_commit m `min` length (accept m (r_log r))))]> (reps A))
        (votes A) (leaders A) ((r_term r, v, m_last m) :: acks A) (sent A))
  | step_commit A i r Q k :
      reps A !! i = Some r → r_lead r = true → quorum Q →
      (r_commit r < k ≤ length (r_log r))%nat → term_at (r_log r) k = r_term r →
      (∀ q, q ∈ Q → ∃ k', (k ≤ k')%nat ∧ (r_term r, q, k') ∈ acks A) →
      step i A (set_rep i (mkRep (r_term r) true (r_log r) k) A).

Definition initial (A : state) : Prop :=
  (∀ v r, reps A !! v = Some r → v ∈ members ∧ r_lead r = false ∧ r_log r = [] ∧ r_commit r = 0%nat) ∧
  votes A = [] ∧ leaders A = ∅ ∧ acks A = [] ∧ sent A = [].

(** ** The invariant *)

Definition lead_log (A : state) t l : Prop := ∃ i, leaders A !! t = Some (i, l).

(** Log matching, in terms of the leaders: an entry of term [t] comes with
    everything before it from the log of the leader of [t]. *)
Definition log_ok (A : state) l : Prop :=
  ∀ k e, l !! k = Some e → ∃ G, lead_log A (LogEntry.Term e) G ∧ agree (S k) l G.

(** What an acknowledgement of [k] entries in term [t] is worth in a log [l]
    of a replica that has been in terms up to [upper]: the entries are still
    there, or a leader of a later term has others. *)
Definition holds (A : state) t k l (upper : Z) : Prop :=
  ∃ G, lead_log A t G ∧ ∀ j, (j ≤ k)%nat → agree j l G ∨
    ∃ t' G', t < t' ≤ upper ∧ lead_log A t' G' ∧ conflict_at j G' G.

(** Index [k] is committed in term [t]. *)
Definition committed (A : state) t k : Prop :=
  ∃ G Q, lead_log A t G ∧ quorum Q ∧ (0 < k ≤ length G)%nat ∧ term_at G k = t ∧
    ∀ q, q ∈ Q → ∃ k', (k ≤ k')%nat ∧ (t, q, k') ∈ acks A.

(** A commit index [n] of a log [l] in a term up to [upper] is justified. *)
Definition commit_ok (A : state) (n : nat) l (upper : Z) : Prop :=
  n = 0%nat ∨ ∃ t k G, committed A t k ∧ (n ≤ k)%nat ∧ t ≤ upper ∧ lead_log A t G ∧ agree n l G.

(** The votes that elected the leader of term [t] with [base] entries. *)
Definition elected_by (A : state) t i (base : list LogEntry) : Prop :=
  ∃ Q, quorum Q ∧ ∀ q, q ∈ Q → ∃ V, V ∈ votes A ∧ v_term V = t ∧ v_voter V = q ∧ v_cand V = i ∧
    up_to_date (v_log V) (term_at base (length base)) (length base) ∧
    log_ok A (v_log V) ∧
    ∀ t' k, (t', q, k) ∈ acks A → t' < t → holds A t' k (v_log V) (t - 1).

Record leader_inv (A : state) t i l : Prop := {
  li_member : i ∈ members;
  li_pos : 0 < t;
  li_ok : log_ok A l;
  li_sorted : sorted l;
  li_own : ∃ base own, l = base ++ own ∧ elected_by A t i base ∧
    (∀ e, e ∈ base → LogEntry.Term e < t) ∧
    (∀ e, e ∈ own → LogEntry.Term e = t);
  li_acked : ∀ k e, l !! k = Some e → LogEntry.Term e = t → (t, i, S k) ∈ acks A }.

Record rep_inv (A : state) v (r : rep) : Prop := {
  rp_member : v ∈ members;
  rp_lead : r_lead r = true → leaders A !! r_term r = Some (v, r_log r);
  rp_ok : log_ok A (r_log r);
  rp_terms : ∀ e, e ∈ r_log r → LogEntry.Term e ≤ r_term r;
  rp_acks : ∀ t k, (t, v, k) ∈ acks A → t ≤ r_term r ∧ holds A t k (r_log r) (r_term r);
  rp_commit : commit_ok A (r_commit r) (r_log r) (r_term r) }.

Record vote_inv (A : state) (V : vote) : Prop := {
  vt_rep : ∃ r, reps A !! v_voter V = Some r ∧ v_term V ≤ r_term r;
  vt_date : up_to_date (v_log V) (v_lastTerm V) (v_lastIndex V);
  vt_ok : log_ok A (v_log V);
  vt_acks : ∀ t k, (t, v_voter V, k) ∈ acks A → t < v_term V →
    holds A t k (v_log V) (v_term V) }.

Record msg_inv (A : state) (m : msg) : Prop := {
  ms_log : ∃ G, lead_log A (m_term m) G ∧ (m_last m ≤ length G)%nat ∧
    m_entries m = take (length (m_entries m)) (drop (m_prev m) G) ∧
    m_prevTerm m = term_at G (m_prev m) ∧
    commit_ok A (m_commit m) G (m_term m);
  ms_commit : (m_commit m ≤ m_last m)%nat }.

Record inv (A : state) : Prop := {
  inv_reps : ∀ v r, reps A !! v = Some r → rep_inv A v r;
  inv_votes : ∀ V, V ∈ votes A → vote_inv A V;
  inv_unique : ∀ V V', V ∈ votes A → V' ∈ votes A → v_term V = v_term V' →
    v_voter V = v_voter V' → v_cand V = v_cand V';
  inv_leaders : ∀ t i l, leaders A !! t = Some (i, l) → leader_inv A t i l;
  inv_acks : ∀ t v k, (t, v, k) ∈ acks A → ∃ r G, reps A !! v = Some r ∧ lead_log A t G ∧ (k ≤ length G)%nat;
  inv_sent : ∀ m, m ∈ sent A → msg_inv A m }.

Lemma lead_log_fun A t G G' : lead_log A t G → lead_log A t G' → G = G'.
Proof. intros [i Hi] [j Hj]. congruence. Qed.

Lemma quorums_meet Q1 Q2 : quorum Q1 → quorum Q2 → ∃ q, q ∈ Q1 ∧ q ∈ Q2.
Proof.
  intros [H1 S1] [H2 S2]. destruct (decide (Q1 ∩ Q2 = ∅)) as [Hd|Hd].
  - assert (size (Q1 ∪ Q2) ≤ size members)%nat by (apply subseteq_size; set_solver).
    rewrite size_union in H by set_solver. lia.
  - apply set_choose_L in Hd as [q Hq]. exists q. set_solver.
Qed.

(** ** What a step keeps *)

(** [A'] has said at least what [A] has; a new acknowledgement is made in the
    current term of its replica. *)
Record grows (A A' : state) : Prop := {
  gr_reps : ∀ v r, reps A !! v = Some r → ∃ r', reps A' !! v = Some r' ∧ r_term r ≤ r_term r';
  gr_votes : ∀ V, V ∈ votes A → V ∈ votes A';
  gr_leaders : ∀ t i l, leaders A !! t = Some (i, l) → ∃ l', leaders A' !! t = Some (i, l ++ l');
  gr_acks : ∀ a, a ∈ acks A → a ∈ acks A';
  gr_new : ∀ t v k, (t, v, k) ∈ acks A' → (t, v, k) ∈ acks A ∨
    ∃ r, reps A !! v = Some r ∧ t = r_term r }.

Section grows.
Context (A A' : state) (Hg : grows A A').

Lemma lead_mono t G : lead_log A t G → ∃ l, lead_log A' t (G ++ l).
Proof. intros [i Hi]. destruct (gr_leaders _ _ Hg _ _ _ Hi) as [l Hl]. by exists l, i. Qed.

Lemma log_ok_mono l : log_ok A l → log_ok A' l.
Proof.
  intros Hok k e He. destruct (Hok k e He) as (G & [l' HG]%lead_mono & Ha).
  exists (G ++ l'). split; [done|]. symmetry. by apply agree_app_l.
Qed.

Lemma conflict_app k l1 l2 x y : conflict_at k l1 l2 → conflict_at k (l1 ++ x) (l2 ++ y).
Proof.
  intros (j & e1 & e2 & ? & ? & ? & ?). exists j, e1, e2. split_and!; try done; by apply lookup_app_l_Some.
Qed.

Lemma holds_mono t k l u u' : u ≤ u' → holds A t k l u → holds A' t k l u'.
Proof.
  intros Hu (G & [x HG]%lead_mono & H). exists (G ++ x). split; [done|]. intros j Hj.
  destruct (H j Hj) as [Hag|(t' & G' & Ht & [y HG']%lead_mono & Hc)].
  - left. symmetry. by apply agree_app_l.
  - right. exists t', (G' ++ y). split_and!; [lia|lia|done|]. by apply conflict_app.
Qed.

Lemma committed_mono t k : committed A t k → committed A' t k.
Proof.
  intros (G & Q & [x HG]%lead_mono & HQ & Hk & Ht & Hq). exists (G ++ x), Q.
  split_and!; try done; [lia|rewrite length_app; lia|by rewrite term_at_app by lia|].
  intros q (k' & ? & ?%(gr_acks _ _ Hg))%Hq. eauto.
Qed.

Lemma commit_ok_mono n l u u' : u ≤ u' → commit_ok A n l u → commit_ok A' n l u'.
Proof.
  intros Hu [->|(t & k & G & Hc & Hn & Ht & [x HG]%lead_mono & Ha)]; [by left|right].
  exists t, k, (G ++ x). split_and!; [by apply committed_mono|done|lia|done|].
  symmetry. by apply agree_app_l.
Qed.

Lemma vote_mono V : vote_inv A V → vote_inv A' V.
Proof.
  intros [(r & Hr & Ht) Hd Hok Ha]. split; [|done|by apply log_ok_mono|].
  - destruct (gr_reps _ _ Hg _ _ Hr) as (r' & ? & ?). exists r'. split; [done|lia].
  - intros t k [Hin|(r' & Hr' & ->)]%(gr_new _ _ Hg) Hlt; [|simplify_eq; lia].
    eapply holds_mono; [reflexivity|by apply Ha].
Qed.

Lemma elected_mono t i base : inv A → elected_by A t i base → elected_by A' t i base.
Proof.
  intros HI (Q & HQ & Hq). exists Q. split; [done|]. intros q Hin.
  destruct (Hq q Hin) as (V & HV & HT & Hv & Hc & Hd & Hok & Ha). exists V.
  split_and!; try done; [by apply (gr_votes _ _ Hg)|by apply log_ok_mono|].
  intros t' k [Hin'|(r & Hr & ->)]%(gr_new _ _ Hg) Hlt.
  - eapply holds_mono; [reflexivity|by apply Ha].
  - destruct (vt_rep _ _ (inv_votes _ HI V HV)) as (r' & Hr' & ?). simplify_eq. lia.
Qed.

Lemma leader_mono t i l : inv A → leader_inv A t i l → leader_inv A' t i l.
Proof.
  intros HI [? ? Hok ? (base & own & -> & He & Hb & Ho) Ha]. split; try done.
  - by apply log_ok_mono.
  - exists base, own. split_and!; try done. by apply elected_mono.
  - intros k e Hk Ht. by apply (gr_acks _ _ Hg), (Ha k e).
Qed.

Lemma msg_mono m : msg_inv A m → msg_inv A' m.
Proof.
  intros [(G & HG & Hl & He & Ht & Hc) Hm]. split; [|done].
  destruct (lead_mono _ _ HG) as [x HG']. exists (G ++ x). unfold m_last in *. split_and!; try done.
  - rewrite length_app. lia.
  - rewrite drop_app_le, take_app_le; [done|rewrite length_drop; lia|lia].
  - by rewrite term_at_app by lia.
  - destruct (commit_ok_mono _ _ _ (m_term m) (Z.le_refl _) Hc) as [->|(t & k & G2 & H)]; [by left|].
    right. exists t, k, G2. intuition. by apply agree_app_l.
Qed.

Lemma rep_mono v r :
  (∀ t k, (t, v, k) ∈ acks A' → (t, v, k) ∈ acks A) →
  (r_lead r = true → leaders A' !! r_term r = leaders A !! r_term r) →
  rep_inv A v r → rep_inv A' v r.
Proof.
  intros Hacks Hl [? Hlead Hok ? Ha Hc]. split; try done.
  - intros E. by rewrite Hl, Hlead.
  - by apply log_ok_mono.
  - intros t k Hin%Hacks. destruct (Ha t k Hin). split; [done|]. eapply holds_mono; [reflexivity|done].
  - eapply commit_ok_mono; [reflexivity|done].
Qed.

Lemma acks_mono t v k : inv A → (t, v, k) ∈ acks A →
  ∃ r G, reps A' !! v = Some r ∧ lead_log A' t G ∧ (k ≤ length G)%nat.
Proof.
  intros HI Hin. destruct (inv_acks _ HI _ _ _ Hin) as (r & G & Hr & [x HG]%lead_mono & Hk).
  destruct (gr_reps _ _ Hg _ _ Hr) as (r' & Hr' & _). exists r', (G ++ x).
  rewrite length_app. split_and!; [done..|lia].
Qed.
End grows.

(** ** Log matching *)

Lemma log_match A l1 l2 k e1 e2 :
  log_ok A l1 → log_ok A l2 → l1 !! k = Some e1 → l2 !! k = Some e2 →
  LogEntry.Term e1 = LogEntry.Term e2 → agree (S k) l1 l2.
Proof.
  intros H1 H2 E1 E2 Ht. destruct (H1 k e1 E1) as (G1 & HG1 & A1).
  destruct (H2 k e2 E2) as (G2 & HG2 & A2). rewrite <- Ht in HG2.
  rewrite (lead_log_fun _ _ _ _ HG2 HG1) in A2. etrans; [exact A1|by symmetry].
Qed.

Lemma log_ok_agree A l l' : agree (length l) l l' → log_ok A l' → log_ok A l.
Proof.
  intros Ha Hok k e He. pose proof (lookup_lt_Some _ _ _ He).
  rewrite (agree_lookup _ _ _ _ Ha) in He by done.
  destruct (Hok k e He) as (G & HG & HaG). exists G. split; [done|].
  transitivity l'; [|done]. by eapply agree_le; [|exact Ha].
Qed.

Lemma log_ok_take A n l : log_ok A l → log_ok A (take n l).
Proof.
  intros Hok. apply (log_ok_agree _ _ l); [|done]. rewrite length_take.
  destruct (le_lt_dec n (length l)).
  - rewrite Nat.min_l by done. by apply agree_take.
  - rewrite take_ge, Nat.min_r by lia. by apply agree_refl.
Qed.

Lemma log_sorted A l : inv A → log_ok A l → sorted l.
Proof.
  intros HI Hok j1 j2 e1 e2 Hj H1 H2. destruct (Hok j2 e2 H2) as (G & [i HG] & Ha).
  pose proof (li_sorted _ _ _ _ (inv_leaders _ HI _ _ _ HG)) as Hs.
  apply (Hs j1 j2 e1 e2 Hj); by rewrite <- (agree_lookup _ _ _ _ Ha) by lia.
Qed.

Lemma log_pos A l k e : inv A → log_ok A l → l !! k = Some e → 0 < LogEntry.Term e.
Proof.
  intros HI Hok He. destruct (Hok k e He) as (G & [i HG] & _).
  by apply (li_pos _ _ _ _ (inv_leaders _ HI _ _ _ HG)).
Qed.

(** The last entry of a log. *)
Lemma last_entry l : term_at l (length l) ≠ 0 →
  ∃ e, l !! pred (length l) = Some e ∧ LogEntry.Term e = term_at l (length l) ∧
    length l = S (pred (length l)).
Proof.
  destruct (length l) as [|n] eqn:E; [done|]. simpl. intros _.
  destruct (l !! n) as [e|] eqn:He; [by exists e|].
  apply lookup_ge_None in He. lia.
Qed.

Lemma last_term_ge A l k e :
  inv A → log_ok A l → l !! k = Some e → LogEntry.Term e ≤ term_at l (length l).
Proof.
  intros HI Hok He. pose proof (lookup_lt_Some _ _ _ He).
  destruct (length l) as [|n] eqn:E; [lia|]. simpl.
  destruct (l !! n) as [e'|] eqn:He'; [|apply lookup_ge_None in He'; lia].
  by apply (log_sorted A l HI Hok k n e e'); [lia|..].
Qed.

(** ** Leader completeness *)

(** The election restriction: a candidate at least as up to date as a log
    that holds a committed prefix holds it too. *)
Lemma up_to_date_agree A t k G lv base (tmax : Z) :
  inv A → lead_log A t G → (0 < k)%nat → term_at G k = t → agree k lv G →
  log_ok A lv → log_ok A base → (∀ e, e ∈ base → LogEntry.Term e < tmax) →
  up_to_date lv (term_at base (length base)) (length base) →
  (∀ t' G', t ≤ t' < tmax → lead_log A t' G' → agree k G G') →
  agree k base G.
Proof.
  intros HI HG Hk Ht Hlv Hokv Hokb Hb Hup IH.
  destruct k as [|k]; [lia|]. clear Hk.
  destruct (lookup_lt_is_Some_2 lv k) as [e He]; [destruct Hlv as (? & ? & _); lia|].
  assert (LogEntry.Term e = t) as Het.
  { rewrite (agree_lookup _ _ _ _ Hlv) in He by lia. simpl in Ht. by rewrite He in Ht. }
  pose proof (last_term_ge A lv k e HI Hokv He) as Hlast.
  pose proof (log_pos A lv k e HI Hokv He) as Hpos.
  set (s := term_at base (length base)) in *. set (sv := term_at lv (length lv)) in *.
  assert (t ≤ s) as Hs by (destruct Hup as [?|[-> _]]; lia).
  destruct (last_entry base) as (eb & Heb & Hebt & Hlen); [fold s; lia|]. fold s in Hebt.
  destruct (Hokb _ _ Heb) as (Gs & HGs & Has). rewrite <- Hlen in Has. rewrite Hebt in HGs.
  assert (s < tmax) as Hst by (rewrite <- Hebt; apply Hb; by eapply list_elem_of_lookup_2).
  destruct Hup as [Hlt|[Heq Hle]].
  - pose proof (IH s Gs ltac:(lia) HGs) as HaG.
    assert (S k ≤ length base)%nat.
    { destruct (le_lt_dec (S k) (length base)); [done|]. exfalso.
      destruct (lookup_lt_is_Some_2 Gs k) as [x Hx]; [destruct HaG as (? & ? & _); lia|].
      assert (LogEntry.Term x = t) as Hxt.
      { rewrite <- (agree_lookup _ _ _ _ HaG) in Hx by lia. simpl in Ht. by rewrite Hx in Ht. }
      rewrite (agree_lookup _ _ _ _ Has) in Heb by lia.
      destruct HGs as [i HGs].
      pose proof (li_sorted _ _ _ _ (inv_leaders _ HI _ _ _ HGs) (pred (length base)) k eb x
        ltac:(lia) Heb Hx).
      lia. }
    transitivity Gs; [|by symmetry]. by eapply agree_le; [|exact Has].
  - change (s = sv) in Heq.
    destruct (last_entry lv) as (ev & Hev & Hevt & Hlenv); [fold sv; lia|].
    fold sv in Hevt. destruct (Hokv _ _ Hev) as (Gv & HGv & Hav). rewrite <- Hlenv in Hav.
    rewrite Hevt, <- Heq in HGv. rewrite (lead_log_fun _ _ _ _ HGv HGs) in Hav.
    destruct Hlv as (Hkl & ? & Htk).
    transitivity lv; [|by split_and!]. transitivity Gs.
    + by eapply agree_le; [|exact Has]; lia.
    + symmetry. by eapply agree_le; [|exact Hav].
Qed.

Lemma leader_agrees A t k G :
  inv A → committed A t k → lead_log A t G →
  ∀ t' G', t ≤ t' → lead_log A t' G' → agree k G G'.
Proof.
  intros HI (G0 & Q & HG0 & HQ & Hk & Ht & Hacks) HG t' G' Hle.
  rewrite (lead_log_fun _ _ _ _ HG0 HG) in *. clear G0 HG0.
  revert G'. remember (Z.to_nat (t' - t)) as d eqn:Hd. revert t' Hle Hd.
  induction (lt_wf d) as [d _ IH]. intros t' Hle -> G' HG'.
  destruct (decide (t' = t)) as [->|Hne].
  { rewrite (lead_log_fun _ _ _ _ HG' HG). apply agree_refl. lia. }
  destruct HG' as [i HG'].
  destruct (inv_leaders _ HI _ _ _ HG') as [_ _ Hok _ (base & own & -> & (Q' & HQ' & Hv) & Hb & _) _].
  destruct (quorums_meet Q Q' HQ HQ') as (q & Hq & Hq').
  destruct (Hacks q Hq) as (k' & Hkk & Hack).
  destruct (Hv q Hq') as (V & _ & _ & _ & _ & Hd & HokV & HaV).
  assert (∀ s Gs, t ≤ s < t' → lead_log A s Gs → agree k G Gs) as IH'.
  { intros s Gs Hs. apply (IH (Z.to_nat (s - t))); [lia|lia|done]. }
  symmetry. apply agree_app_l.
  apply (up_to_date_agree A t k G (v_log V) base t'); try done; try lia.
  - destruct (HaV t k' Hack) as (G0 & HG0 & Hh); [lia|].
    rewrite (lead_log_fun _ _ _ _ HG0 HG) in Hh.
    destruct (Hh k Hkk) as [?|(s & Gs & Hs & HGs & Hc)]; [done|].
    exfalso. eapply agree_no_conflict; [symmetry; apply (IH' s Gs)| |exact Hc]; [lia|done|done].
  - apply (log_ok_agree _ _ (base ++ own)); [|done].
    split_and!; [done|rewrite length_app; lia|]. by rewrite take_app_length, take_ge.
Qed.

(** ** Accepting a request *)

Lemma term_at_match A l1 l2 n :
  log_ok A l1 → log_ok A l2 → (n ≤ length l1)%nat → (n ≤ length l2)%nat →
  term_at l1 n = term_at l2 n → agree n l1 l2.
Proof.
  intros H1 H2 L1 L2 Ht. destruct n as [|n]; [by split_and!; [lia..|]|].
  destruct (lookup_lt_is_Some_2 l1 n) as [e1 E1]; [lia|].
  destruct (lookup_lt_is_Some_2 l2 n) as [e2 E2]; [lia|].
  simpl in Ht. rewrite E1, E2 in Ht. by eapply log_match.
Qed.

(** The received entries, seen as a stretch of the leader's log. *)
Lemma segment_lookup m G k :
  m_entries m = take (length (m_entries m)) (drop (m_prev m) G) → (k < length (m_entries m))%nat →
  m_entries m !! k = G !! (m_prev m + k)%nat.
Proof. intros E Hk. by rewrite E, lookup_take_lt, lookup_drop by done. Qed.

Lemma accept_spec A m l G :
  log_ok A l → log_ok A G → (m_prev m ≤ length l)%nat →
  term_at l (m_prev m) = term_at G (m_prev m) → (m_last m ≤ length G)%nat →
  m_entries m = take (length (m_entries m)) (drop (m_prev m) G) →
  agree (m_last m) (accept m l) G ∧
  (accept m l = l ∨ accept m l = take (m_last m) G) ∧
  (∀ n G2, agree n l G2 → agree n (accept m l) G2 ∨ conflict_at n G G2).
Proof.
  intros Hl HG Hp Ht Hlast He. unfold m_last in *.
  set (p := m_prev m) in *. set (es := m_entries m) in *.
  assert (∀ k, (k < length es)%nat → es !! k = G !! (p + k)%nat) as Hes
    by (intros; by apply segment_lookup).
  assert (agree p l G) as Hprev by (apply (term_at_match A); try done; lia).
  (* held entries carry the agreement *)
  assert (∀ n, (n ≤ length es)%nat → (∀ j e, (j < n)%nat → es !! j = Some e →
      held 0 l (Z.of_nat p + 1 + Z.of_nat j) e) → agree (p + n) l G) as Hheld.
  { intros [|n] Hn Hh; [by rewrite Nat.add_0_r|].
    destruct (lookup_lt_is_Some_2 es n) as [e E]; [lia|].
    destruct (Hh n e ltac:(lia) E) as (x & Hx & Hxe); [lia|].
    unfold log_at in Hx. destruct (Z.leb_spec (Z.of_nat p + 1 + Z.of_nat n) 0); [done|].
    replace (Z.to_nat _) with (p + n)%nat in Hx by lia.
    replace (p + S n)%nat with (S (p + n)) by lia.
    rewrite Hes in E by lia. by apply (log_match A l G (p + n) x e). }
  destruct (merge_shape 0 (Z.of_nat p + 1) es l) as
    [[Hm Hall]|(k & Hk & Hd & Hm & Hall & Hc)]; [unfold zlen; lia| |];
    unfold accept; fold p es; rewrite Hm.
  - split_and!; [|by left|by left]. apply Hheld; [done|]. intros j e _. apply Hall.
  - assert (agree (p + k) l G) as Ha.
    { apply Hheld; [lia|]. intros j e Hj. by apply Hall. }
    replace (Z.to_nat _) with (p + k)%nat by lia.
    assert (take (p + k) l ++ drop k es = take (p + length es) G) as ->.
    { destruct Ha as (_ & _ & ->). subst es. rewrite He at 1.
      apply list_eq. intros j. destruct (decide (j < p + k)%nat).
      - rewrite lookup_app_l by (rewrite length_take; lia). by rewrite !lookup_take_lt by lia.
      - rewrite lookup_app_r by (rewrite length_take; lia). rewrite length_take, Nat.min_l by lia.
        rewrite lookup_drop. destruct (decide (j < p + length (m_entries m))%nat).
        + rewrite !lookup_take_lt by lia. rewrite lookup_drop. f_equal. lia.
        + rewrite !lookup_take_ge by lia. done. }
    split_and!; [by apply agree_take|by right|].
    intros n G2 Hn. destruct (le_lt_dec n (p + k)) as [Hle|Hgt].
    + left. transitivity G; [|transitivity l; [|done]].
      * eapply agree_le; [|apply agree_take; done]. lia.
      * symmetry. by eapply agree_le; [|exact Ha].
    + right. destruct (lookup_lt_is_Some_2 l (p + k)) as [x Hx]; [destruct Hn as (? & ? & _); lia|].
      destruct (lookup_lt_is_Some_2 es k) as [y Hy]; [done|]. exists (p + k)%nat, y, x.
      split_and!; [done|by rewrite <- Hes|by rewrite <- (agree_lookup _ _ _ _ Hn)|].
      intros ->. apply (Hc x x); [|done|done]. unfold log_at.
      destruct (Z.leb_spec (Z.of_nat p + 1 + Z.of_nat k) 0); [lia|].
      by replace (Z.to_nat _) with (p + k)%nat by lia.
Qed.

(** ** Every step keeps the invariant *)

(** What is left to check of a step: the objects it made or changed. *)
Lemma inv_grow A A' :
  inv A → grows A A' →
  (∀ v r, reps A' !! v = Some r → rep_inv A' v r) →
  (∀ V, V ∈ votes A' → V ∈ votes A ∨ vote_inv A' V) →
  (∀ V V', V ∈ votes A' → V' ∈ votes A' → v_term V = v_term V' →
     v_voter V = v_voter V' → v_cand V = v_cand V') →
  (∀ t i l, leaders A' !! t = Some (i, l) → leaders A !! t = Some (i, l) ∨ leader_inv A' t i l) →
  (∀ t v k, (t, v, k) ∈ acks A' → (t, v, k) ∈ acks A ∨
     ∃ r G, reps A' !! v = Some r ∧ lead_log A' t G ∧ (k ≤ length G)%nat) →
  (∀ m, m ∈ sent A' → m ∈ sent A ∨ msg_inv A' m) →
  inv A'.
Proof.
  intros HI Hg HR HV HU HL HA HM. split; try done.
  - intros V [Hin|?]%HV; [|done]. by eapply vote_mono, inv_votes.
  - intros t i l [H|?]%HL; [|done]. by eapply leader_mono, inv_leaders.
  - intros t v k [Hin|?]%HA; [|done]. by eapply acks_mono.
  - intros m [Hin|?]%HM; [|done]. by eapply msg_mono, inv_sent.
Qed.

(** Changing one replica, everything said staying as it is. *)
Lemma grows_rep A v (r r' : rep) :
  reps A !! v = Some r → r_term r ≤ r_term r' → grows A (set_rep v r' A).
Proof.
  intros Hr Ht. split; simpl; auto; [|by intros t i l H; exists []; rewrite app_nil_r].
  intros w rw Hw. destruct (decide (v = w)) as [<-|]; simplify_map_eq; eauto; by eexists.
Qed.

Lemma rep_others A A' v w (r r' : rep) :
  inv A → grows A A' → v ≠ w → reps A' = <[v := r']> (reps A) → reps A' !! w = Some r →
  (∀ t k, (t, w, k) ∈ acks A' → (t, w, k) ∈ acks A) →
  (∀ t l, leaders A !! t = Some (w, l) → leaders A' !! t = leaders A !! t) →
  rep_inv A' w r.
Proof.
  intros HI Hg Hne HR Hw Ha Hl. rewrite HR, lookup_insert_ne in Hw by done.
  pose proof (inv_reps _ HI _ _ Hw) as Hr. eapply rep_mono; try done.
  intros E. eapply Hl. by apply Hr.
Qed.

Lemma commit_ok_agree A n l l' u :
  commit_ok A n l u → (∀ G, agree n l G → agree n l' G) → commit_ok A n l' u.
Proof.
  intros [->|(t & k & G & ? & ? & ? & ? & Hag)] Ha; [by left|]. right. exists t, k, G.
  by pose proof (Ha G Hag).
Qed.

Lemma commit_ok_le A n n' l u : (n' ≤ n)%nat → commit_ok A n l u → commit_ok A n' l u.
Proof.
  intros Hn [->|(t & k & G & Hc & Hk & Hu & HG & Ha)]; [left; lia|]. right. exists t, k, G.
  split_and!; try done; [lia|]. by eapply agree_le; [|exact Ha].
Qed.

Lemma commit_ok_length A n l u : commit_ok A n l u → (n ≤ length l)%nat.
Proof. intros [->|(t & k & G & _ & _ & _ & _ & ? & _)]; [lia|done]. Qed.

Lemma rep_log_fun A v r t i l l' :
  leaders A !! t = Some (i, l) → leaders A !! t = Some (v, l') → i = v ∧ l = l'.
Proof. naive_solver. Qed.

Lemma inv_follow A v r t n :
  inv A → reps A !! v = Some r → r_term r ≤ t → (n ≤ r_commit r)%nat →
  inv (set_rep v (mkRep t false (r_log r) n) A).
Proof.
  intros HI Hr Ht Hn. set (r' := mkRep t false (r_log r) n).
  assert (grows A (set_rep v r' A)) as Hg by by eapply grows_rep.
  apply (inv_grow A); try done; try (simpl; by auto); [|by apply HI].
  intros w rw Hw. destruct (decide (v = w)) as [<-|Hne].
  - simpl in Hw. simplify_map_eq. destruct (inv_reps _ HI _ _ Hr) as [? _ ? Hterms Ha Hc].
    split; simpl; try done.
    + intros e He. specialize (Hterms e He). lia.
    + intros t' k Hin. destruct (Ha t' k Hin). split; [lia|]. by eapply holds_mono.
    + eapply commit_ok_mono; [exact Hg|exact Ht|]. by eapply commit_ok_le.
  - by eapply (rep_others A _ v w rw r').
Qed.

Lemma inv_vote A v r c lastTerm lastIndex :
  inv A → reps A !! v = Some r → up_to_date (r_log r) lastTerm lastIndex →
  (∀ V, V ∈ votes A → v_term V = r_term r → v_voter V = v → v_cand V = c) →
  inv (mkState (reps A) (mkVote (r_term r) v c lastTerm lastIndex (r_log r) :: votes A)
    (leaders A) (acks A) (sent A)).
Proof.
  intros HI Hr Hd Hu. set (A' := mkState _ _ _ _ _).
  assert (grows A A') as Hg.
  { split; simpl; auto; [by intros w rw Hw; exists rw|by intros; right|].
    intros t i l H. exists []. by rewrite app_nil_r. }
  pose proof (inv_reps _ HI _ _ Hr) as [Hm _ Hok Ht Ha _].
  apply (inv_grow A); try done; try (simpl; by auto).
  - intros w rw Hw. eapply rep_mono; try done. by apply HI.
  - intros V [->|Hin]%elem_of_cons; [right|by left]. split; simpl; try done.
    + by exists r.
    + intros t k Hin _. by destruct (Ha t k Hin).
  - simpl. intros V V' [->|H1]%elem_of_cons [->|H2]%elem_of_cons; simpl; try done; intros.
    + symmetry. by apply Hu.
    + by apply Hu.
    + by eapply (inv_unique _ HI).
Qed.

(** Two candidates elected in a term are the same. *)
Lemma elected_same A t i j base Q :
  inv A → elected_by A t j base → quorum Q →
  (∀ q, q ∈ Q → ∃ V, V ∈ votes A ∧ v_term V = t ∧ v_voter V = q ∧ v_cand V = i) → i = j.
Proof.
  intros HI (Q' & HQ' & Hj) HQ Hi. destruct (quorums_meet Q Q' HQ HQ') as (q & H1 & H2).
  destruct (Hi q H1) as (V & HV & ? & ? & <-).
  destruct (Hj q H2) as (V' & HV' & ? & ? & <- & _).
  by apply (inv_unique _ HI); congruence.
Qed.

(** The leader of a term is elected once. *)
Lemma elect_fresh A i r Q :
  inv A → quorum Q → (∀ l, leaders A !! r_term r ≠ Some (i, l)) →
  (∀ q, q ∈ Q → ∃ V, V ∈ votes A ∧ v_term V = r_term r ∧ v_voter V = q ∧ v_cand V = i) →
  leaders A !! r_term r = None.
Proof.
  intros HI HQ Hfirst HV. destruct (leaders A !! r_term r) as [[j l]|] eqn:E; [|done]. exfalso.
  destruct (inv_leaders _ HI _ _ _ E) as [_ _ _ _ (base & own & _ & He & _) _].
  assert (i = j) as <-; [|by apply (Hfirst l)]. by eapply elected_same.
Qed.

Lemma inv_elect A i r Q :
  inv A → reps A !! i = Some r → 0 < r_term r → quorum Q →
  (∀ l, leaders A !! r_term r ≠ Some (i, l)) →
  (∀ q, q ∈ Q → ∃ V, V ∈ votes A ∧ v_term V = r_term r ∧ v_voter V = q ∧ v_cand V = i ∧
     v_lastTerm V = term_at (r_log r) (length (r_log r)) ∧
     v_lastIndex V = length (r_log r)) →
  inv (mkState (<[i := mkRep (r_term r) true (r_log r) (r_commit r)]> (reps A))
    (votes A) (<[r_term r := (i, r_log r)]> (leaders A)) (acks A) (sent A)).
Proof.
  intros HI Hr Hpos HQ Hfirst HV. set (r' := mkRep _ _ _ _). set (A' := mkState _ _ _ _ _).
  assert (leaders A !! r_term r = None) as Hnone.
  { apply (elect_fresh A i r Q); try done. intros q Hq.
    destruct (HV q Hq) as (V & ? & ? & ? & ? & _). by exists V. }
  assert (grows A A') as Hg.
  { split; simpl; auto.
    - intros w rw Hw. destruct (decide (i = w)) as [<-|]; simplify_map_eq; eauto; by eexists.
    - intros t j l H. exists []. rewrite app_nil_r. by rewrite lookup_insert_ne by congruence. }
  pose proof (inv_reps _ HI _ _ Hr) as [Hm _ Hok Ht Ha Hc].
  assert (∀ e, e ∈ r_log r → LogEntry.Term e < r_term r) as Hlt.
  { intros e He. pose proof (Ht e He). apply list_elem_of_lookup_1 in He as [k Hk].
    destruct (Hok k e Hk) as (G & [j HG] & _). assert (LogEntry.Term e ≠ r_term r) by congruence. lia. }
  apply (inv_grow A); try done; try (simpl; by auto); [|by apply HI|].
  - intros w rw Hw. destruct (decide (i = w)) as [<-|Hne].
    + simpl in Hw. simplify_map_eq. split; simpl; try done; [by rewrite lookup_insert_eq|..].
      * by eapply log_ok_mono.
      * intros t k Hin. destruct (Ha t k Hin). split; [done|].
        eapply holds_mono; [exact Hg|reflexivity|done].
      * eapply commit_ok_mono; [exact Hg|reflexivity|done].
    + eapply (rep_others A _ i w rw r'); try done. intros t l Hl. simpl.
      by rewrite lookup_insert_ne by congruence.
  - intros t j l. simpl. destruct (decide (t = r_term r)) as [->|]; simplify_map_eq; [|by left].
    intros [= <- <-]. right. split; try done; [by eapply log_ok_mono|by eapply log_sorted| |].
    + exists (r_log r), []. rewrite app_nil_r. split_and!; [done| |done|by intros e ?%elem_of_nil].
      exists Q. split; [done|]. intros q Hq.
      destruct (HV q Hq) as (V & Hin & HT & Hvo & Hca & HlT & HlI). exists V.
      pose proof (inv_votes _ HI V Hin) as [_ Hd HokV HaV]. rewrite HlT, HlI in Hd.
      split_and!; try done; [by eapply log_ok_mono|].
      intros t' k Hack Hlt'. rewrite <- Hvo in Hack.
      destruct (HaV t' k Hack) as (G & HG & Hh); [lia|].
      eapply holds_mono; [done|reflexivity|]. exists G. split; [done|]. intros j Hj.
      destruct (Hh j Hj) as [?|(s & Gs & Hs & HGs & ?)]; [by left|right]. exists s, Gs.
      split_and!; try done; [lia|]. destruct (decide (s = r_term r)) as [->|]; [|lia].
      destruct HGs as [? HGs]. congruence.
    + intros k e Hk Hte. apply list_elem_of_lookup_2, Hlt in Hk. lia.
Qed.

Lemma holds_app A t k l x u : holds A t k l u → holds A t k (l ++ x) u.
Proof.
  intros (G & HG & H). exists G. split; [done|]. intros j Hj.
  destruct (H j Hj) as [?|?]; [left; by apply agree_app_l|by right].
Qed.

Lemma sorted_snoc l e :
  sorted l → (∀ x, x ∈ l → LogEntry.Term x ≤ LogEntry.Term e) → sorted (l ++ [e]).
Proof.
  intros Hs Hle j1 j2 e1 e2 Hj H1 H2.
  apply lookup_app_Some in H2 as [H2|[Hge H2]].
  - pose proof (lookup_lt_Some _ _ _ H2). rewrite lookup_app_l in H1 by lia. by apply (Hs j1 j2).
  - apply list_lookup_singleton_Some in H2 as [? <-].
    apply lookup_app_Some in H1 as [H1|[_ H1]].
    + apply Hle. by eapply list_elem_of_lookup_2.
    + apply list_lookup_singleton_Some in H1 as [_ <-]. lia.
Qed.

Lemma inv_propose A i r e :
  inv A → reps A !! i = Some r → r_lead r = true → LogEntry.Term e = r_term r →
  inv (mkState (<[i := mkRep (r_term r) true (r_log r ++ [e]) (r_commit r)]> (reps A)) (votes A)
    (<[r_term r := (i, r_log r ++ [e])]> (leaders A))
    ((r_term r, i, length (r_log r ++ [e])) :: acks A) (sent A)).
Proof.
  intros HI Hr Hlead He. set (r' := mkRep _ _ _ _). set (A' := mkState _ _ _ _ _).
  pose proof (inv_reps _ HI _ _ Hr) as [Hm Hl Hok Ht Ha Hc]. specialize (Hl Hlead).
  assert (grows A A') as Hg.
  { split; simpl; auto.
    - intros w rw Hw. destruct (decide (i = w)) as [<-|]; simplify_map_eq; eauto; by eexists.
    - intros t j l H. destruct (decide (t = r_term r)) as [->|].
      + simplify_map_eq. exists [e]. done.
      + exists []. rewrite app_nil_r. by rewrite lookup_insert_ne by done.
    - intros a ?. by right.
    - intros t w k [[= -> -> ->]|Hin]%elem_of_cons; [right; by exists r|by left]. }
  assert (lead_log A' (r_term r) (r_log r ++ [e])) as HG.
  { exists i. simpl. by rewrite lookup_insert_eq. }
  assert (log_ok A' (r_log r ++ [e])) as Hok'.
  { intros k x Hx. apply lookup_app_Some in Hx as [Hx|[Hge Hx]].
    - destruct (log_ok_mono _ _ Hg _ Hok k x Hx) as (G & ? & ?). exists G. split; [done|].
      by apply agree_app_l.
    - apply list_lookup_singleton_Some in Hx as [? <-]. rewrite He. exists (r_log r ++ [e]).
      split; [done|]. apply agree_refl. rewrite length_app. simpl. lia. }
  destruct (inv_leaders _ HI _ _ _ Hl) as [_ Hpos _ Hs (base & own & Hlog & Hel & Hb & Ho) Hack].
  apply (inv_grow A); try done; try (simpl; by auto); [|by apply HI|..].
  - intros w rw Hw. destruct (decide (i = w)) as [<-|Hne].
    + simpl in Hw. rewrite lookup_insert_eq in Hw. injection Hw as <-. split; simpl; try done.
      * intros _. by rewrite lookup_insert_eq.
      * intros x [Hx|Hx]%elem_of_app; [by apply Ht|].
        apply list_elem_of_singleton in Hx as ->. lia.
      * intros t k [[= -> ->]|Hin]%elem_of_cons.
        -- split; [done|]. exists (r_log r ++ [e]). split; [done|]. intros j Hj. left.
           by apply agree_refl.
        -- destruct (Ha t k Hin). split; [done|]. apply holds_app.
           eapply holds_mono; [exact Hg|reflexivity|done].
      * eapply commit_ok_agree; [eapply commit_ok_mono; [exact Hg|reflexivity|done]|].
        intros G. apply agree_app_l.
    + eapply (rep_others A _ i w rw r'); try done.
      * intros t k [[= -> -> ->]|Hin]%elem_of_cons; done.
      * intros t l Hw'. simpl. rewrite lookup_insert_ne; [done|]. intros <-. congruence.
  - intros t j l. simpl. destruct (decide (t = r_term r)) as [->|]; simplify_map_eq; [|by left].
    intros [= <- <-]. right. split; try done.
    + apply sorted_snoc; [done|]. intros x Hx. rewrite He. by apply Ht.
    + exists base, (own ++ [e]). rewrite Hlog, app_assoc. split_and!; [done| |done|].
      * by eapply elected_mono.
      * intros x [Hx|Hx]%elem_of_app; [by apply Ho|].
        by apply list_elem_of_singleton in Hx as ->.
    + intros k x Hx Hxt. apply elem_of_cons. apply lookup_app_Some in Hx as [Hx|[Hge Hx]].
      * right. by eapply Hack.
      * left. apply list_lookup_singleton_Some in Hx as [? _]. rewrite length_app. simpl.
        do 2 f_equal. lia.
  - intros t w k [[= -> -> ->]|Hin]%elem_of_cons; [right|by left].
    exists r', (r_log r ++ [e]). simpl. by rewrite lookup_insert_eq.
Qed.

Lemma inv_send A i r prev :
  inv A → reps A !! i = Some r → r_lead r = true → (prev ≤ length (r_log r))%nat →
  inv (mkState (reps A) (votes A) (leaders A) (acks A)
    (mkMsg (r_term r) prev (term_at (r_log r) prev) (drop prev (r_log r)) (r_commit r) :: sent A)).
Proof.
  intros HI Hr Hlead Hp. set (A' := mkState _ _ _ _ _).
  assert (grows A A') as Hg.
  { split; simpl; auto; [by intros w rw Hw; exists rw|].
    intros t j l H. exists []. by rewrite app_nil_r. }
  pose proof (inv_reps _ HI _ _ Hr) as [Hm Hl Hok Ht Ha Hc].
  pose proof (commit_ok_length _ _ _ _ Hc) as Hcl.
  apply (inv_grow A); try done; try (simpl; by auto); [|by apply HI|].
  - intros w rw Hw. eapply rep_mono; try done. by apply HI.
  - intros m [->|Hin]%elem_of_cons; [right|by left]. split.
    + exists (r_log r). unfold m_last. simpl. rewrite length_drop. split_and!; try done; [|lia|].
      * exists i. by apply Hl.
      * by rewrite take_ge by (rewrite length_drop; lia).
    + unfold m_last. simpl. rewrite length_drop. lia.
Qed.

Lemma inv_commit A i r Q k :
  inv A → reps A !! i = Some r → r_lead r = true → quorum Q →
  (r_commit r < k ≤ length (r_log r))%nat → term_at (r_log r) k = r_term r →
  (∀ q, q ∈ Q → ∃ k', (k ≤ k')%nat ∧ (r_term r, q, k') ∈ acks A) →
  inv (set_rep i (mkRep (r_term r) true (r_log r) k) A).
Proof.
  intros HI Hr Hlead HQ Hk Ht Hacks. set (r' := mkRep _ _ _ _).
  assert (grows A (set_rep i r' A)) as Hg by (eapply grows_rep; [exact Hr|done]).
  pose proof (inv_reps _ HI _ _ Hr) as [Hm Hl Hok Hterms Ha Hc]. specialize (Hl Hlead).
  apply (inv_grow A); try done; try (simpl; by auto); [|by apply HI].
  intros w rw Hw. destruct (decide (i = w)) as [<-|Hne].
  - simpl in Hw. rewrite lookup_insert_eq in Hw. injection Hw as <-. split; simpl; try done.
    right. exists (r_term r), k, (r_log r).
    split_and!; try done; try lia; [|by exists i|apply agree_refl; lia].
    exists (r_log r), Q. split_and!; try done; try lia. by exists i.
  - by eapply (rep_others A _ i w rw r').
Qed.

Lemma inv_accept A v r m :
  inv A → reps A !! v = Some r → m ∈ sent A → r_term r = m_term m →
  (m_prev m ≤ length (r_log r))%nat → term_at (r_log r) (m_prev m) = m_prevTerm m →
  inv (mkState
    (<[v := mkRep (r_term r) false (accept m (r_log r))
              (r_commit r `max` (m_commit m `min` length (accept m (r_log r))))]> (reps A))
    (votes A) (leaders A) ((r_term r, v, m_last m) :: acks A) (sent A)).
Proof.
  intros HI Hr Hin Ht Hp Hpt. set (r' := mkRep _ _ _ _). set (A' := mkState _ _ _ _ _).
  pose proof (inv_reps _ HI _ _ Hr) as [Hm Hl Hok Hterms Ha Hc].
  destruct (inv_sent _ HI m Hin) as [(G & HG & Hlast & Hes & HpG & HcG) Hmc].
  rewrite <- Ht in HG, HcG. rewrite HpG in Hpt.
  destruct HG as [i Hi]. pose proof (inv_leaders _ HI _ _ _ Hi) as [_ _ HokG _ (base & own & HGo & _ & Hb & Ho) _].
  assert (lead_log A (r_term r) G) as HG by by exists i.
  destruct (accept_spec A m (r_log r) G) as (Hagree & Hcases & Hkeep); try done.
  set (l' := accept m (r_log r)) in *.
  assert (grows A A') as Hg.
  { split; simpl; auto.
    - intros w rw Hw. destruct (decide (v = w)) as [<-|]; simplify_map_eq; eauto; by eexists.
    - intros t j l H. exists []. by rewrite app_nil_r.
    - intros a ?. by right.
    - intros t w k [[= -> -> ->]|?]%elem_of_cons; [right; by exists r|by left]. }
  (* what the leader of this term has is what any earlier commit was *)
  assert (∀ n, commit_ok A n (r_log r) (r_term r) → commit_ok A n l' (r_term r)) as Hcommit.
  { intros n [->|(t & k & G2 & Hcm & Hn & Htu & HG2 & Hag)]; [by left|right].
    exists t, k, G2. split_and!; try done.
    destruct (Hkeep n G2 Hag) as [?|Hcf]; [done|]. exfalso.
    eapply agree_no_conflict; [symmetry; by eapply (leader_agrees A t k G2)|exact Hn|exact Hcf]. }
  apply (inv_grow A); try done; try (simpl; by auto); [|by apply HI|].
  - intros w rw Hw. destruct (decide (v = w)) as [<-|Hne].
    + simpl in Hw. rewrite lookup_insert_eq in Hw. injection Hw as <-. split; simpl; try done.
      * apply (log_ok_mono _ _ Hg). destruct Hcases as [->| ->]; [done|by apply log_ok_take].
      * intros e He. destruct Hcases as [E|E]; rewrite E in He; [by apply Hterms|].
        apply elem_of_take in He as (? & He & _). apply list_elem_of_lookup_2 in He.
        rewrite HGo in He. apply elem_of_app in He as [He|He]; [specialize (Hb e He); lia|].
        rewrite (Ho e He). lia.
      * intros t k [[= -> ->]|Hack]%elem_of_cons.
        -- split; [done|]. exists G. split; [done|]. intros j Hj. left. by eapply agree_le.
        -- destruct (Ha t k Hack) as [Htt (G2 & HG2 & Hh)]. split; [done|].
           exists G2. split; [done|]. intros j Hj. destruct (Hh j Hj) as [Hag|?]; [|by right].
           destruct (Hkeep j G2 Hag) as [?|Hcf]; [by left|right]. exists (r_term r), G.
           split_and!; try done. destruct (decide (t = r_term r)) as [->|]; [|lia].
           rewrite (lead_log_fun _ _ _ _ HG2 HG) in Hcf.
           destruct Hcf as (? & ? & ? & ? & ? & ? & ?). congruence.
      * eapply commit_ok_mono; [exact Hg|reflexivity|].
        assert (commit_ok A (m_commit m `min` length l') l' (r_term r)) as Hm'.
        { apply (commit_ok_le _ (m_commit m)); [lia|].
          destruct HcG as [->|(t & k & G2 & Hcm & Hn & Htu & HG2 & Hag)]; [by left|right].
          exists t, k, G2. split_and!; try done. transitivity G; [|done].
          by eapply agree_le; [|exact Hagree]. }
        destruct (Nat.max_spec (r_commit r) (m_commit m `min` length l')) as [[_ ->]|[_ ->]];
          [done|by apply Hcommit].
    + eapply (rep_others A _ v w rw r'); try done.
      intros t k [[= -> -> ->]|?]%elem_of_cons; done.
  - intros t w k [[= -> -> ->]|Hack]%elem_of_cons; [right|by left].
    exists r', G. simpl. by rewrite lookup_insert_eq.
Qed.

Lemma step_inv v A A' : inv A → step v A A' → inv A'.
Proof.
  intros HI Hs. destruct Hs;
    [by eapply inv_follow|by eapply inv_vote|by eapply inv_elect|by eapply inv_propose|
     by eapply inv_send|by eapply inv_accept|by eapply inv_commit].
Qed.

Lemma initial_inv A : initial A → inv A.
Proof.
  intros (HR & HV & HL & HA & HS). split; rewrite ?HV, ?HL, ?HA, ?HS.
  - intros v r Hr. destruct (HR v r Hr) as (Hm & Hl & Hlog & Hc).
    split; rewrite ?HL, ?Hlog, ?Hc, ?HA; [done|congruence| |by intros ? ?%elem_of_nil|
      by intros ? ? ?%elem_of_nil|by left].
    intros k e He. by rewrite lookup_nil in He.
  - by intros V ?%elem_of_nil.
  - by intros V V' ?%elem_of_nil.
  - intros t i l. by rewrite lookup_empty.
  - by intros t v k ?%elem_of_nil.
  - by intros m ?%elem_of_nil.
Qed.

Definition steps (A A' : state) : Prop := rtc (λ A A', ∃ v, step v A A') A A'.

Definition reachable (A : state) : Prop := ∃ A0, initial A0 ∧ steps A0 A.

Lemma reachable_inv A : reachable A → inv A.
Proof.
  intros (A0 & H0 & Hr). apply initial_inv in H0.
  induction Hr as [|A1 A2 A3 [v Hs]]; eauto using step_inv.
Qed.

(** ** What a replica can touch *)

(** The steps of [v] add to what was said, and what they add is about [v]. *)
Record touches v (A A' : state) : Prop := {
  tc_votes V : V ∈ votes A → V ∈ votes A';
  tc_acks a : a ∈ acks A → a ∈ acks A';
  tc_sent m : m ∈ sent A → m ∈ sent A';
  tc_leaders t i l : leaders A !! t = Some (i, l) → ∃ l', leaders A' !! t = Some (i, l ++ l');
  tc_reps w : w ≠ v → reps A' !! w = reps A !! w;
  tc_new_votes V : V ∈ votes A' → V ∈ votes A ∨ v_voter V = v;
  tc_new_leaders t i l : leaders A' !! t = Some (i, l) → i = v ∨ leaders A !! t = Some (i, l) }.

#[export] Instance touches_refl v : Reflexive (touches v).
Proof. intros A. split; auto. intros t i l H. exists []. by rewrite app_nil_r. Qed.

#[export] Instance touches_trans v : Transitive (touches v).
Proof.
  intros A B C [] []. split; auto.
  - intros t i l H. destruct (tc_leaders0 t i l H) as [l1 H1].
    destruct (tc_leaders1 t i _ H1) as [l2 H2]. exists (l1 ++ l2). by rewrite app_assoc.
  - intros w Hw. rewrite tc_reps1, tc_reps0; done.
  - intros V [?|?]%tc_new_votes1; auto.
  - intros t i l [?|?]%tc_new_leaders1; auto.
Qed.

Lemma step_touches v A A' : inv A → step v A A' → touches v A A'.
Proof.
  intros HI Hs.
  assert (∀ t i l, leaders A !! t = Some (i, l) → ∃ l', leaders A !! t = Some (i, l ++ l')) as Hl.
  { intros t i l H. exists []. by rewrite app_nil_r. }
  assert (∀ w (r : rep), w ≠ v → <[v := r]> (reps A) !! w = reps A !! w) as Hw.
  { intros. by rewrite lookup_insert_ne. }
  destruct Hs; split; simpl; auto; try (intros; by right).
  - intros V [->|?]%elem_of_cons; auto.
  - intros t j l Ht. rewrite lookup_insert_ne; [by apply Hl|]. intros <-.
    rewrite (elect_fresh A i r Q) in Ht; try done.
    intros q Hq. destruct (H3 q Hq) as (V & ? & ? & ? & ? & _). by exists V.
  - intros t j l. destruct (decide (t = r_term r)) as [->|]; [rewrite lookup_insert_eq|
      rewrite lookup_insert_ne by done]; [intros [= <- _]; by left|by right].
  - intros t j l Ht. destruct (decide (t = r_term r)) as [->|].
    + rewrite lookup_insert_eq. rewrite (rp_lead _ _ _ (inv_reps _ HI _ _ H)) in Ht by done.
      injection Ht as <- <-. by exists [e].
    + rewrite lookup_insert_ne by done. by apply Hl.
  - intros t j l. destruct (decide (t = r_term r)) as [->|]; [rewrite lookup_insert_eq|
      rewrite lookup_insert_ne by done]; [intros [= <- _]; by left|by right].
Qed.

Lemma steps_of v A A' :
  reachable A → rtc (step v) A A' → reachable A' ∧ steps A A' ∧ touches v A A'.
Proof.
  intros Hr Hs. induction Hs as [A|A1 A2 A3 H12 _ IH]; [split_and!; [done|constructor|done]|].
  assert (reachable A2) as H2.
  { destruct Hr as (A0 & H0 & Hr). exists A0. split; [done|]. eapply rtc_r; [exact Hr|by exists v]. }
  destruct (IH H2) as (? & ? & ?). split_and!; [done| |].
  - eapply rtc_l; [by exists v|done].
  - etrans; [eapply step_touches; [by apply reachable_inv|done]|done].
Qed.

(** ** What the protocol guarantees *)

Lemma spec_log_matching A v w rv rw k ev ew :
  inv A → reps A !! v = Some rv → reps A !! w = Some rw →
  r_log rv !! k = Some ev → r_log rw !! k = Some ew →
  LogEntry.Term ev = LogEntry.Term ew → take (S k) (r_log rv) = take (S k) (r_log rw).
Proof.
  intros HI Hv Hw H1 H2 Ht.
  by destruct (log_match A (r_log rv) (r_log rw) k ev ew) as (_ & _ & ?);
    [apply (inv_reps _ HI v)|apply (inv_reps _ HI w)|..].
Qed.

(** A leader has everything any replica has committed in its term or before. *)
Lemma spec_leader_complete A v rv t G k :
  inv A → reps A !! v = Some rv → committed A t k → lead_log A t G →
  r_lead rv = true → t ≤ r_term rv → agree k (r_log rv) G.
Proof.
  intros HI Hv Hc HG Hl Ht. symmetry. eapply (leader_agrees A t k G); try done.
  exists v. by apply (inv_reps _ HI v).
Qed.

Lemma commit_agree A n1 n2 l1 l2 u1 u2 :
  inv A → (n1 ≤ n2)%nat → commit_ok A n1 l1 u1 → commit_ok A n2 l2 u2 → agree n1 l1 l2.
Proof.
  intros HI Hn [->|(t1 & k1 & G1 & C1 & K1 & _ & HG1 & A1)] H2; [split_and!; [lia..|done]|].
  destruct H2 as [->|(t2 & k2 & G2 & C2 & K2 & _ & HG2 & A2)].
  { assert (n1 = 0)%nat as -> by lia. split_and!; [lia..|done]. }
  assert (agree n1 G1 G2) as HG.
  { destruct (Z.le_ge_cases t1 t2).
    - eapply agree_le; [exact K1|]. by eapply (leader_agrees A t1 k1 G1).
    - eapply (agree_le k2); [lia|]. symmetry. by eapply (leader_agrees A t2 k2 G2). }
  etrans; [exact A1|]. etrans; [exact HG|]. symmetry. by eapply agree_le; [|exact A2].
Qed.

Lemma spec_state_machine_safety A v w rv rw :
  inv A → reps A !! v = Some rv → reps A !! w = Some rw → (r_commit rv ≤ r_commit rw)%nat →
  take (r_commit rv) (r_log rv) = take (r_commit rv) (r_log rw).
Proof.
  intros HI Hv Hw Hle.
  destruct (commit_agree A (r_commit rv) (r_commit rw) (r_log rv) (r_log rw) (r_term rv) (r_term rw))
    as (_ & _ & ?); try done; [apply (inv_reps _ HI v rv Hv)|apply (inv_reps _ HI w rw Hw)].
Qed.
End protocol.
End Spec.
