(* ===== verification/Network.v ===== *)
(** * Network: replicas that replicate a log to each other

    The whole of a cluster without log compaction ([SnapshotEvery = 0], the
    default configuration): every replica with its role loop, its apply loop
    and its storage, and the network between them.  A step is one locked
    section of one replica, one step of its apply loop, or a crash followed by
    [NewNode] on what the storage holds.

    The network is the three histories of what was sent: a RequestVote is
    arbitrary, an AppendEntries request must have been built by
    [appendEntriesRequestForPeer] of some replica, a response must have been
    returned by the handler; all of them are delivered any number of times, in
    any order, or never.  [applied] is the history of what the apply loops
    have handed to the state machines, across restarts.

    Bounds, as in the Cluster file: terms and logs stay below the largest
    [int64], and a replica that panics takes no step other than the restart.
    Storage writes succeed (what failures do is in the Durability file). *)

From S2P Require Import Prelude Types Storage Timing Node Handlers Replication.
From S2P Require Import LogSpec AppendSpec AppendProtocol CommitSpec CatchUp.
From S2P Require Import ApplyLoop Recovery Replica Delivery VoteSafety Cluster.
Open Scope Z_scope.

Record Server (S : Type) : Type := mkServer { sloop : loop_pc; smachine : machine S }.
Arguments mkServer {S}.
Arguments sloop {S}.
Arguments smachine {S}.

Record Network (S : Type) : Type := mkNetwork {
  servers : gmap string (Server S);
  voteResps : list (string * RequestVoteRequest * RequestVoteResponse);
  appendReqs : list AppendEntriesRequest;
  appendResps : list (string * AppendEntriesRequest * AppendEntriesResponse);
  applied : list (string * ApplyMsg) }.
Arguments mkNetwork {S}.
Arguments servers {S}.
Arguments voteResps {S}.
Arguments appendReqs {S}.
Arguments appendResps {S}.
Arguments applied {S}.

Section network.
Context {S : Type} {HS : Storage S} {HC : StorageContract S}.
Context (members : gset string).
Implicit Types (n : Node S) (R : Server S) (W : Network S) (i v p : string).

Definition snode R : Node S := mnode (smachine R).

(** The server with another node, the loops being where they were. *)
Definition on_node n R : Server S :=
  mkServer (sloop R) (mkMachine (mpc (smachine R)) n (sent (smachine R))).

(** The server with another node, its role loop going on at [pc]. *)
Definition at_loop (pc : loop_pc) n R : Server S :=
  mkServer pc (mkMachine (mpc (smachine R)) n (sent (smachine R))).

Definition set_server i R W : Network S :=
  mkNetwork (<[i := R]> (servers W)) (voteResps W) (appendReqs W) (appendResps W) (applied W).

Definition append_returned v (req : AppendEntriesRequest) (r : result AppendEntriesResponse)
    : list (string * AppendEntriesRequest * AppendEntriesResponse) :=
  match r with Val resp => [(v, req, resp)] | Err _ => [] end.

Inductive net_step : Network S → Network S → Prop :=
  | net_vote_request W v R req n' r :
      servers W !! v = Some R →
      HandleRequestVote req (snode R) = (n', r) →
      net_step W (mkNetwork (<[v := on_node n' R]> (servers W))
        (returned v req r ++ voteResps W) (appendReqs W) (appendResps W) (applied W))
  | net_append W v R now req n' r :
      servers W !! v = Some R → req ∈ appendReqs W →
      HandleAppendEntries now req (snode R) = Ret (n', r) →
      net_step W (mkNetwork (<[v := on_node n' R]> (servers W))
        (voteResps W) (appendReqs W) (append_returned v req r ++ appendResps W) (applied W))
  | net_start W i R now cmd n' r :
      servers W !! i = Some R → zlen (log (snode R)) + 1 < max_int64 →
      StartCommand now cmd (snode R) = Ret (n', r) →
      net_step W (set_server i (on_node n' R) W)
  | net_send W i R p n' req ok :
      servers W !! i = Some R →
      appendEntriesRequestForPeer p (snode R) = Ret (n', (req, ok)) →
      net_step W (mkNetwork (<[i := on_node n' R]> (servers W))
        (voteResps W) (option_list req ++ appendReqs W) (appendResps W) (applied W))
  | net_snapshot_round W i R p n' r :
      servers W !! i = Some R →
      installSnapshotRequestForPeer p (snode R) = Ret (n', r) →
      net_step W (set_server i (on_node n' R) W)
  | net_append_response W i R p now req resp n' :
      servers W !! i = Some R →
      req ∈ appendReqs W → (p, req, resp) ∈ appendResps W →
      onAppendResponse now p req resp (snode R) = Ret n' →
      net_step W (set_server i (on_node n' R) W)
  | net_append_finish W i R p :
      servers W !! i = Some R →
      net_step W (set_server i (on_node (finishRPC p (snode R)) R) W)
  | net_apply W i R ev now pc' n' msg :
      servers W !! i = Some R →
      applyStep ev now (mpc (smachine R)) (snode R) = Ret (pc', n', msg) →
      net_step W (mkNetwork
        (<[i := mkServer (sloop R) (mkMachine pc' n' (sent (smachine R) ++ option_list msg))]>
           (servers W))
        (voteResps W) (appendReqs W) (appendResps W)
        (((λ m, (i, m)) <$> option_list msg) ++ applied W))
  | net_run W i R :
      servers W !! i = Some R →
      net_step W (set_server i (on_node (notifyApply (snode R)) R) W)
  | net_reset W i R :
      servers W !! i = Some R →
      net_step W (set_server i (on_node (onElectionReset (snode R)) R) W)
  | net_dispatch W i R :
      servers W !! i = Some R → sloop R = Dispatch → degraded (snode R) = false →
      net_step W (set_server i (at_loop (dispatch (snode R)) (snode R) R) W)
  | net_timeout W i R :
      servers W !! i = Some R → sloop R = AtFollower →
      net_step W (set_server i (at_loop Dispatch (onElectionTimeout (snode R)) R) W)
  | net_campaign W i R n' c :
      servers W !! i = Some R → sloop R = AtCandidate →
      currentTerm (snode R) < max_int64 →
      startCampaign (snode R) = (n', c) →
      let pc := match c with Some c => InCampaign c ∅ ∅ | None => Dispatch end in
      net_step W (set_server i (at_loop pc n' R) W)
  | net_vote_response W i R c responded granted p resp n' c' :
      servers W !! i = Some R → sloop R = InCampaign c responded granted →
      p ∈ peers (snode R) → p ∉ responded →
      (p, voteRequest c (snode R), resp) ∈ voteResps W →
      onVoteResponse resp c (snode R) = (n', c') →
      let granted' := if RequestVoteResponse.VoteGranted resp
                      then {[p]} ∪ granted else granted in
      let pc := match c' with
                | Some c1 => InCampaign c1 ({[p]} ∪ responded) granted'
                | None => Dispatch
                end in
      net_step W (set_server i (at_loop pc n' R) W)
  | net_campaign_timeout W i R c responded granted :
      servers W !! i = Some R → sloop R = InCampaign c responded granted →
      net_step W (set_server i (at_loop Dispatch (snode R) R) W)
  | net_leader_done W i R :
      servers W !! i = Some R → sloop R = AtLeader → role (snode R) ≠ Leader →
      net_step W (set_server i (at_loop Dispatch (snode R) R) W)
  | net_restart W i R n' :
      servers W !! i = Some R →
      NewNode i members (storage (snode R)) true = Ret (Val n') →
      net_step W (set_server i (mkServer Dispatch (mkMachine AwaitNotify n' [])) W).

(** A storage no node has written to. *)
Definition blank_disk (d : PersistentState) : Prop :=
  HardState.CurrentTerm (PersistentState.Hard d) = 0 ∧
  HardState.VotedFor (PersistentState.Hard d) = "" ∧
  HardState.CommitIndex (PersistentState.Hard d) = 0 ∧
  cfg_ok (N members) (HardState.Config (PersistentState.Hard d)) ∧
  PersistentState.LogBase d = 0 ∧ PersistentState.Snap d = None ∧ PersistentState.Log d = [].

(** Every member a fresh [NewNode] on a blank storage. *)
Definition net_initial W : Prop :=
  (∀ i R, servers W !! i = Some R → i ∈ members ∧
     ∃ s n, blank_disk (contents s) ∧ NewNode i members (Some s) true = Ret (Val n) ∧
       R = mkServer Dispatch (mkMachine AwaitNotify n [])) ∧
  voteResps W = [] ∧ appendReqs W = [] ∧ appendResps W = [] ∧ applied W = [].

Definition net_reachable W : Prop := ∃ W0, net_initial W0 ∧ rtc net_step W0 W.

End network.
