(* ===== verification/Refinement.v ===== *)
(** * Refinement: the network implements the protocol

    The simulation between the Network and the abstract protocol of RaftSpec:
    every step of the network is a sequence of steps of the protocol
    ([net_refines]), so what the protocol guarantees holds of the code: log
    matching, leader completeness, and that no two state machines are handed
    different commands for the same index.

    The first part collects, per handler, what the simulation needs of a
    node: its log and commit index ([wf]), what its storage holds ([synced],
    and [saved] for the commit index), its identity and configuration
    ([evolves]); all of them come from the files on the single replica. *)

From S2P Require Import Prelude Types Storage Timing Node Handlers Replication.
From S2P Require Import LogSpec AppendSpec AppendProtocol CommitSpec CatchUp.
From S2P Require Import ApplyLoop Recovery Replica Delivery VoteSafety Cluster.
From S2P Require Import Durability RaftSpec Network.
Open Scope Z_scope.

(** ** The stored commit index *)

Section saved.
Context {S : Type} {HS : Storage S} {HC : StorageContract S}.
Implicit Types (n : Node S).

(** The stored commit index is one the node has had. *)
Definition saved n : Prop :=
  ∀ d, disk_of n = Some d → HardState.CommitIndex (PersistentState.Hard d) ≤ commitIndex n.

(** The commit index does not go down and [saved] is kept. *)
Definition advances n n' : Prop := commitIndex n ≤ commitIndex n' ∧ (saved n → saved n').

#[export] Instance advances_refl : Reflexive advances.
Proof. intros n. split; [lia|done]. Qed.
#[export] Instance advances_trans : Transitive advances.
Proof. intros a b c [? ?] [? ?]. split; [lia|auto]. Qed.

Lemma advances_frame n n' :
  storage n' = storage n → commitIndex n ≤ commitIndex n' → advances n n'.
Proof.
  intros Hs Hc. split; [done|]. intros H d Hd. unfold disk_of in *. rewrite Hs in Hd.
  specialize (H d Hd). lia.
Qed.

Lemma advances_write op upd n n' e :
  writes contents op upd → with_storage op n = (n', e) →
  (∀ d, HardState.CommitIndex (PersistentState.Hard d) ≤ commitIndex n →
        HardState.CommitIndex (PersistentState.Hard (upd d)) ≤ commitIndex n) →
  advances n n'.
Proof.
  intros Hw Hop Hu. destruct (with_storage_contents _ _ _ _ _ Hw Hop) as (st & -> & _ & Hst).
  split; [done|]. intros Hs d Hd. unfold disk_of in Hd. simpl in *.
  destruct st as [s'|]; [|done]. injection Hd as <-.
  destruct (Hst s' eq_refl) as (s & Es & Hc).
  assert (HardState.CommitIndex (PersistentState.Hard (contents s)) ≤ commitIndex n) as Hle.
  { apply Hs. unfold disk_of. by rewrite Es. }
  destruct Hc as [->|[_ ->]]; auto.
Qed.

Lemma advances_persist n n' e : persistHardState n = (n', e) → advances n n'.
Proof. intros Hop. eapply advances_write; [apply contract_save_hard|exact Hop|]. simpl. lia. Qed.

Lemma advances_append es n n' e : persistAppendLog es n = (n', e) → advances n n'.
Proof. intros Hop. by eapply advances_write; [apply contract_append|exact Hop|]. Qed.

Lemma advances_truncate i n n' e : persistTruncateLog i n = (n', e) → advances n n'.
Proof. intros Hop. by eapply advances_write; [apply contract_truncate|exact Hop|]. Qed.

Lemma advances_saving n0 n n1 n' e :
  persistHardState n = (n1, e) → storage n = storage n0 → commitIndex n0 ≤ commitIndex n →
  storage n' = storage n1 → commitIndex n1 ≤ commitIndex n' → advances n0 n'.
Proof.
  intros Hop Hs Hc Hs' Hc'. etrans; [by apply (advances_frame n0 n)|].
  etrans; [by eapply advances_persist|by apply advances_frame].
Qed.

Lemma advances_grantVote req n n' r : grantVote req n = (n', r) → advances n n'.
Proof.
  unfold grantVote. case_match; [|by intros [= <- _]].
  destruct (tracePersistHardState _) as [m [err|]] eqn:E; intros [= <- _];
    by eapply (advances_saving n); [exact E|..].
Qed.

Lemma advances_HandleRequestVote req n n' r : HandleRequestVote req n = (n', r) → advances n n'.
Proof.
  unfold HandleRequestVote. do 2 (case_match; [by intros [= <- _]|]).
  case_match; [|by apply advances_grantVote].
  destruct (tracePersistHardState _) as [m [err|]] eqn:E.
  - intros [= <- _]. by eapply (advances_saving n); [exact E|..].
  - intros Hg%advances_grantVote. etrans; [|exact Hg]. by eapply (advances_saving n); [exact E|..].
Qed.

Lemma advances_adoptTerm t n n' e : adoptTerm t n = (n', e) → advances n n'.
Proof.
  unfold adoptTerm. case_match; [|by intros [= <- _]].
  destruct (tracePersistHardState _) as [m [err|]] eqn:E; intros [= <- _];
    by eapply (advances_saving n); [exact E|..].
Qed.

Lemma advances_appendLoop prev i es n n' e :
  appendLoop prev i es n = Ret (n', e) → advances n n'.
Proof.
  revert i n. induction es as [|x es IH]; intros i n; cbn [appendLoop]; [by intros [= <- _]|].
  cbv zeta. case_match; [apply IH|]. case_match.
  { destruct (tracePersistAppendLog _ _) as [m [err|]] eqn:E; intros [= <- _];
      [by eapply advances_append|]. etrans; [by eapply advances_append|by apply advances_frame]. }
  destruct (entryAt _ n) as [y|]; [|done]. cbn [mbind outcome_bind]. case_match; [apply IH|].
  destruct (tracePersistTruncateLog _ _) as [m [err|]] eqn:E;
    [intros [= <- _]; by eapply advances_truncate|].
  destruct (slice_to _ _) as [kept|] eqn:Hk; [|done]. cbn [mbind outcome_bind].
  assert (advances n (m <| log := kept |>)) as Hm.
  { etrans; [by eapply advances_truncate|by apply advances_frame]. }
  destruct (tracePersistAppendLog _ _) as [m' [err|]] eqn:E2; intros [= <- _];
    (etrans; [exact Hm|]); [by eapply advances_append|].
  etrans; [by eapply advances_append|by apply advances_frame].
Qed.

Lemma advances_followCommit lc now n n' e :
  commitIndex n ≤ lastLogIndex n → followCommit lc now n = (n', e) → advances n n'.
Proof.
  intros Hle. unfold followCommit. destruct (Z.ltb_spec (commitIndex n) lc); [|by intros [= <- _]].
  assert (commitIndex n ≤ (if lc <? lastLogIndex n then lc else lastLogIndex n)) by (case_match; lia).
  destruct (tracePersistHardState _) as [m [err|]] eqn:E; intros [= <- _];
    eapply (advances_saving n); [exact E|..]; done.
Qed.

Lemma advances_advance now n n' b : wf n → advanceCommitIndex now n = Ret (n', b) → advances n n'.
Proof.
  intros Hwf Hop.
  destruct (advanceCommitIndex_spec now n Hwf) as (? & ? & E & Hpost). rewrite Hop in E.
  injection E as <- <-. revert Hop. unfold advanceCommitIndex.
  destruct (advanceLoop _ _ _) as [[c|]|] eqn:El; [|by intros [= <- _]|done]. cbn [mbind outcome_bind].
  assert (commitIndex n ≤ c) as Hc.
  { destruct (advanceLoop_spec (Z.to_nat (lastLogIndex n - commitIndex n)) (lastLogIndex n) n Hwf)
      as (r & Hr & Hspec); [|lia|].
    - rewrite lastLogIndex_eq by apply Hwf. lia.
    - rewrite El in Hr. injection Hr as <-. simpl in Hspec. lia. }
  destruct (persistHardState _) as [m [err|]] eqn:E; intros [= <- _];
    (eapply (advances_saving n); [exact E|..]); try done; unfold markDegraded; by case_match.
Qed.

Lemma advances_startCampaign n n' c : startCampaign n = (n', c) → advances n n'.
Proof.
  unfold startCampaign. cbv zeta.
  destruct (tracePersistHardState _) as [m [err|]] eqn:E; intros [= <- _];
    (eapply (advances_saving n); [exact E|..]); try done; unfold markDegraded; by case_match.
Qed.

Lemma advances_stepDown t n : advances n (stepDown t n).
Proof.
  unfold stepDown. cbv zeta. destruct (tracePersistHardState _) as [m err] eqn:E.
  (eapply (advances_saving n); [exact E|..]); try done; unfold markDegraded; by repeat case_match.
Qed.

Lemma advances_HandleAppendEntries now req n n' r :
  wf n → req_fits req → no_committed_conflict req n →
  HandleAppendEntries now req n = Ret (n', r) → advances n n'.
Proof.
  intros Hwf Hfit Hno. unfold HandleAppendEntries. case_match; [by intros [= <- _]|].
  destruct (Z.ltb_spec (AppendEntriesRequest.Term req) (currentTerm n)) as [?|Ht]; [by intros [= <- _]|].
  destruct (adoptTerm _ n) as [n1 e1] eqn:E1. pose proof (advances_adoptTerm _ _ _ _ E1) as H1.
  destruct (adoptTerm_frame _ _ _ _ Ht E1) as [st F1].
  destruct e1; [by intros [= <- _]|]. cbv zeta.
  set (t := AppendEntriesRequest.Term req) in *. set (v := kept_vote t n) in *.
  assert (resetElectionTimeout (n1 <| role := Follower |>) = as_follower t v st n) as ->
    by (subst n1; by destruct n).
  assert (advances n (as_follower t v st n)) as H2.
  { etrans; [exact H1|]. subst n1. by apply advances_frame. }
  destruct (checkPrev_follower req t v st n Hwf Hfit) as (c & -> & Hc). cbn [mbind outcome_bind].
  destruct c as [[ct ci]|]; [by intros [= <- _]|].
  destruct (appendLoop_follower req t v st n Hwf Hfit Hc) as (n2 & e2 & E2 & st2 & F2).
  rewrite E2. cbn [mbind outcome_bind].
  pose proof (advances_appendLoop _ _ _ _ _ _ E2) as H3.
  assert (advances n n2) as H4 by by etrans. destruct e2 as [err|]; [by intros [= <- _]|].
  assert (commitIndex n2 ≤ lastLogIndex n2) as Hle.
  { pose proof (merged_covers req n Hwf Hfit Hno Hc). subst n2.
    rewrite lastLogIndex_eq; simpl; [lia|apply Hwf|lia]. }
  destruct (followCommit _ now n2) as [n3 e3] eqn:E3.
  apply advances_followCommit in E3; [|done].
  destruct e3; intros [= <- _]; by etrans.
Qed.

Lemma advances_StartCommand now cmd n n' r :
  wf n → snapshotIndex n + zlen (log n) + 1 < max_int64 →
  StartCommand now cmd n = Ret (n', r) → advances n n'.
Proof.
  intros Hwf Hroom. unfold StartCommand. case_match; [by intros [= <- _]|].
  destruct (persistAppendLog _ _) as [m [err|]] eqn:E.
  - destruct (slice_to _ _); [|done]. cbn [mbind outcome_bind]. intros [= <- _].
    etrans; [|etrans; [by eapply advances_append|by apply advances_frame]]. by apply advances_frame.
  - destruct (with_storage_frame _ _ _ _ E) as [st Hm].
    assert (advances n m) as H1.
    { etrans; [|by eapply advances_append]. by apply advances_frame. }
    cbv zeta. match goal with |- context [advanceCommitIndex now ?x] => set (k := x) end.
    assert (wf k) as Hwfk.
    { assert (zlen (log n ++ [LogEntry.mk (currentTerm n) EntryCommand ([] ++ cmd)]) = zlen (log n) + 1)
        by (rewrite zlen_app; change (zlen [_]) with 1; lia).
      apply (wf_with n (log n ++ [LogEntry.mk (currentTerm n) EntryCommand ([] ++ cmd)]) (commitIndex n));
        subst k m; try done; [|lia]. pose proof Hwf as [? ? ? ? ?]. lia. }
    assert (advances m k) as H2 by (apply advances_frame; [done|subst k m; simpl; lia]). clearbody k.
    destruct (advanceCommitIndex now k) as [[n2 b]|] eqn:E2; [|done]. cbn [mbind outcome_bind].
    apply advances_advance in E2; [|done]. intros [= <- _].
    etrans; [exact H1|]. etrans; [exact H2|]. etrans; [exact E2|]. destruct b; by apply advances_frame.
Qed.

Lemma advances_becomeLeader n : advances n (becomeLeader n).
Proof. destruct (becomeLeader_fields n) as (? & ? & ->). by apply advances_frame. Qed.

Lemma advances_onVoteResponse resp c n n' c' : onVoteResponse resp c n = (n', c') → advances n n'.
Proof.
  unfold onVoteResponse. case_match.
  { pose proof (advances_stepDown (RequestVoteResponse.Term resp) n) as H1. unfold stepDown in H1.
    cbv zeta in *. destruct (tracePersistHardState _) as [m err]. by intros [= <- _]. }
  case_match; [by intros [= <- _]|]. cbv zeta.
  case_match; intros [= <- _]; [apply advances_becomeLeader|done].
Qed.

Lemma advances_finishRPC p n : advances n (finishRPC p n).
Proof. unfold finishRPC. cbv zeta. destruct (map_get false p _); by apply advances_frame. Qed.

Lemma advances_onAppendResponse now p req resp n n' :
  wf n → onAppendResponse now p req resp n = Ret n' → advances n n'.
Proof.
  intros Hwf. unfold onAppendResponse.
  case_match; [intros [= <-]; apply advances_stepDown|].
  do 2 (case_match; [by intros [= <-]|]). cbv zeta.
  case_match; [intros [= <-]; by apply advances_frame|].
  set (k := recordProgress _ _ _).
  assert (quiet n k) as Hq by apply quiet_recordProgress.
  assert (advances n k) as Hk.
  { apply advances_frame; [|by rewrite (q_commit _ _ Hq)].
    subst k. unfold recordProgress. cbv zeta. by repeat case_match. }
  assert (wf k) as Hwfk by (destruct Hq; by apply (wf_same n)). clearbody k.
  destruct (advanceCommitIndex now k) as [[k2 b]|] eqn:E2; [|done]. cbn [mbind outcome_bind].
  apply advances_advance in E2; [|done]. intros [= <-]. etrans; [exact Hk|]. etrans; [exact E2|].
  destruct b; case_match; by apply advances_frame.
Qed.
End saved.

(** ** The simulation relation *)

(** A node as a replica of the protocol, and a request as a message. *)
Definition view {S} (n : Node S) : Spec.rep :=
  Spec.mkRep (currentTerm n) (role_eqb (role n) Leader) (log n) (Z.to_nat (commitIndex n)).

Definition msg_of (req : AppendEntriesRequest) : Spec.msg :=
  Spec.mkMsg (AppendEntriesRequest.Term req) (Z.to_nat (AppendEntriesRequest.PrevLogIndex req))
    (AppendEntriesRequest.PrevLogTerm req) (AppendEntriesRequest.Entries req)
    (Z.to_nat (AppendEntriesRequest.LeaderCommit req)).

Section simulation.
Context {S : Type} {HS : Storage S} {HC : StorageContract S} {HR : ReliableStorage S}.
Context (members : gset string).
Implicit Types (n : Node S) (R : Server S) (W : Network S) (A : Spec.state) (i v p : string).

(** *** The node and its storage *)

Definition uncompacted n : Prop :=
  snapshotIndex n = 0 ∧ snapshotTerm n = 0 ∧ snapshot n = None.

Record node_ok i n : Prop := {
  nk_member : i ∈ members;
  nk_wf : wf n;
  nk_snap : uncompacted n;
  nk_id : id n = i;
  nk_peers : peers n = normalizePeers i members;
  nk_storage : is_Some (storage n);
  nk_cfg : cfg_inv (N members) n;
  nk_synced : synced n;
  nk_saved : saved n;
  nk_term : 0 ≤ currentTerm n }.

(** Who the node is, and a term that does not go down. *)
Record kept n n' : Prop := {
  ke_id : id n' = id n;
  ke_peers : peers n' = peers n;
  ke_storage : is_Some (storage n) → is_Some (storage n');
  ke_cfg : cfg_inv (N members) n → cfg_inv (N members) n';
  ke_term : currentTerm n ≤ currentTerm n' }.

Lemma evolves_kept n n' : evolves (N members) n n' → kept n n'.
Proof. intros []. by split. Qed.

Lemma node_ok_handler i n n' :
  node_ok i n → handler n n' → kept n n' → advances n n' → uncompacted n' → node_ok i n'.
Proof.
  intros [] Hh [] Ha Hu. split; try done; try congruence.
  - apply (handler_effect _ _ nk_wf0 Hh).
  - auto.
  - auto.
  - by eapply handler_synced.
  - by apply Ha.
  - lia.
Qed.

Lemma uncompacted_quiet n n' : quiet n n' → uncompacted n → uncompacted n'.
Proof. unfold uncompacted. intros [] (? & ? & ?). split_and!; congruence. Qed.

(** *** The replica in the protocol *)

(** What the role loop at [pc] remembers of a campaign. *)
Definition campaign_ok A i n (c : Campaign) (responded granted : gset string) : Prop :=
  granted ⊆ responded ∧ granted ⊆ peers n ∧
  Campaign.votes c = 1 + Z.of_nat (size granted) ∧
  Campaign.majority c = N members / 2 + 1 ∧
  (role n = Candidate → currentTerm n = Campaign.term c ∧ 0 < Campaign.term c ∧
     Campaign.lastLogIndex c = zlen (log n) ∧
     Campaign.lastLogTerm c = Spec.term_at (log n) (length (log n)) ∧
     ∀ l, Spec.leaders A !! Campaign.term c ≠ Some (i, l)) ∧
  ∀ p, p ∈ {[i]} ∪ granted → ∃ V, V ∈ Spec.votes A ∧ Spec.v_term V = Campaign.term c ∧
    Spec.v_voter V = p ∧ Spec.v_cand V = i ∧ Spec.v_lastTerm V = Campaign.lastLogTerm c ∧
    Spec.v_lastIndex V = Z.to_nat (Campaign.lastLogIndex c).

Definition loop_ok A i n (pc : loop_pc) : Prop :=
  match pc with
  | Dispatch | AtLeader => True
  | AtFollower | AtCandidate => role n ≠ Leader
  | InCampaign c responded granted => role n ≠ Leader ∧ campaign_ok A i n c responded granted
  end.

Record abs A i n (pc : loop_pc) : Prop := {
  ab_rep : Spec.reps A !! i = Some (view n);
  ab_vote : ∀ V, V ∈ Spec.votes A → Spec.v_voter V = i → Spec.v_term V = currentTerm n →
    Spec.v_cand V ≠ "" ∧ votedFor n = Spec.v_cand V;
  ab_match : role n = Leader → ∀ p, p ∈ peers n →
    map_get 0 p (matchIndex n) ≤ 0 ∨
    ∃ k, map_get 0 p (matchIndex n) ≤ Z.of_nat k ∧ (currentTerm n, p, k) ∈ Spec.acks A;
  ab_next : ∀ p, map_get 0 p (nextIndex n) ≤ max_int64;
  ab_led : ∀ t l, Spec.leaders A !! t = Some (i, l) → t ≤ currentTerm n;
  ab_loop : loop_ok A i n pc }.

Record sim_server A i R : Prop := {
  ss_node : node_ok i (snode R);
  ss_machine : minv 0 (smachine R);
  ss_abs : abs A i (snode R) (sloop R) }.

(** A command handed to a state machine is a committed one. *)
Definition applied_ok A (msg : ApplyMsg) : Prop :=
  ApplyMsg.CommandValid msg = true →
  ∃ t k G e, Spec.committed members A t k ∧ Spec.lead_log A t G ∧
    0 < ApplyMsg.CommandIndex msg ≤ Z.of_nat k ∧
    G !! Z.to_nat (ApplyMsg.CommandIndex msg - 1) = Some e ∧
    LogEntry.Command e = ApplyMsg.Command msg.

(** A granted vote, a request and an acknowledgement, in the protocol. *)
Definition vote_said A v (req : RequestVoteRequest) : Prop :=
  RequestVoteRequest.CandidateID req ≠ "" →
  ∃ V, V ∈ Spec.votes A ∧ Spec.v_term V = RequestVoteRequest.Term req ∧ Spec.v_voter V = v ∧
    Spec.v_cand V = RequestVoteRequest.CandidateID req ∧
    Spec.v_lastTerm V = RequestVoteRequest.LastLogTerm req ∧
    Spec.v_lastIndex V = Z.to_nat (RequestVoteRequest.LastLogIndex req).

Definition request_said A (req : AppendEntriesRequest) : Prop :=
  msg_of req ∈ Spec.sent A ∧ req_fits req ∧ 0 ≤ AppendEntriesRequest.LeaderCommit req.

Definition answer_said A v (req : AppendEntriesRequest) (resp : AppendEntriesResponse) : Prop :=
  AppendEntriesResponse.ConflictIndex resp ≤ max_int64 ∧
  (AppendEntriesResponse.Success resp = true →
   (AppendEntriesRequest.Term req, v, Spec.m_last (msg_of req)) ∈ Spec.acks A).

Record sim W A : Prop := {
  sm_reach : Spec.reachable members A;
  sm_servers : ∀ i R, servers W !! i = Some R → sim_server A i R;
  sm_votes : ∀ v req resp, (v, req, resp) ∈ voteResps W →
    RequestVoteResponse.VoteGranted resp = true → vote_said A v req;
  sm_reqs : ∀ req, req ∈ appendReqs W → request_said A req;
  sm_resps : ∀ v req resp, (v, req, resp) ∈ appendResps W → answer_said A v req resp;
  sm_applied : ∀ v msg, (v, msg) ∈ applied W → applied_ok A msg }.

(** *** What other replicas do *)

Lemma campaign_ok_mono A A' i n c re gr :
  (∀ V, V ∈ Spec.votes A → V ∈ Spec.votes A') →
  (∀ t l, Spec.leaders A' !! t = Some (i, l) → ∃ l', Spec.leaders A !! t = Some (i, l')) →
  campaign_ok A i n c re gr → campaign_ok A' i n c re gr.
Proof.
  intros Hv Hl (? & ? & ? & ? & Hc & Hg). split_and!; try done.
  - intros Hr. destruct (Hc Hr) as (? & ? & ? & ? & Hno). split_and!; try done.
    intros l [l' H']%Hl. by apply (Hno l').
  - intros p (V & ? & ?)%Hg. exists V. auto.
Qed.

Lemma abs_other A A' v i n pc :
  Spec.touches v A A' → i ≠ v → abs A i n pc → abs A' i n pc.
Proof.
  intros [] Hne []. split; auto.
  - by rewrite tc_reps.
  - intros V [?|?]%tc_new_votes; [auto|congruence].
  - intros Hr p Hp. destruct (ab_match0 Hr p Hp) as [?|(k & ? & ?)]; [by left|right; eauto].
  - intros t l [?|?]%tc_new_leaders; [done|by eapply ab_led0].
  - destruct pc; try done. destruct ab_loop0. split; [done|].
    eapply campaign_ok_mono; [exact tc_votes| |done].
    intros t l [?|?]%tc_new_leaders; [done|by eexists].
Qed.

Lemma touches_lead v A A' t G :
  Spec.touches v A A' → Spec.lead_log A t G → ∃ l, Spec.lead_log A' t (G ++ l).
Proof. intros Ht [i Hi]. destruct (Spec.tc_leaders _ _ _ Ht _ _ _ Hi) as [l Hl]. by exists l, i. Qed.

Lemma touches_committed v A A' t k :
  Spec.touches v A A' → Spec.committed members A t k → Spec.committed members A' t k.
Proof.
  intros Ht (G & Q & HG & HQ & Hk & Htk & Hq). destruct (touches_lead _ _ _ _ _ Ht HG) as [l HG'].
  exists (G ++ l), Q. rewrite length_app. split_and!; try done; [lia|lia| |].
  - by rewrite Spec.term_at_app by lia.
  - intros q (k' & ? & ?)%Hq. exists k'. split; [done|]. by apply (Spec.tc_acks _ _ _ Ht).
Qed.

Lemma applied_mono v A A' msg : Spec.touches v A A' → applied_ok A msg → applied_ok A' msg.
Proof.
  intros Ht Hok Hv. destruct (Hok Hv) as (t & k & G & e & Hc & HG & Hi & He & Hcmd).
  destruct (touches_lead _ _ _ _ _ Ht HG) as [l HG']. exists t, k, (G ++ l), e.
  split_and!; try done; try lia; [by eapply touches_committed|]. by apply lookup_app_l_Some.
Qed.

Lemma said_mono v A A' :
  Spec.touches v A A' →
  (∀ w req, vote_said A w req → vote_said A' w req) ∧
  (∀ req, request_said A req → request_said A' req) ∧
  (∀ w req resp, answer_said A w req resp → answer_said A' w req resp).
Proof.
  intros Ht. split_and!.
  - intros w req H Hne. destruct (H Hne) as (V & ? & ?). exists V. split; [|done].
    by apply (Spec.tc_votes _ _ _ Ht).
  - intros req (? & ?). split; [|done]. by apply (Spec.tc_sent _ _ _ Ht).
  - intros w req resp (? & H). split; [done|]. intros Hs. by apply (Spec.tc_acks _ _ _ Ht), H.
Qed.

(** A step of server [v]: what is new is said in [A']. *)
Lemma sim_update W A A' v R' (vr : list (string * RequestVoteRequest * RequestVoteResponse))
    (ar : list AppendEntriesRequest)
    (aa : list (string * AppendEntriesRequest * AppendEntriesResponse)) ap :
  sim W A → rtc (Spec.step members v) A A' → sim_server A' v R' →
  (∀ w req resp, (w, req, resp) ∈ vr → RequestVoteResponse.VoteGranted resp = true →
     vote_said A' w req) →
  (∀ req, req ∈ ar → request_said A' req) →
  (∀ w req resp, (w, req, resp) ∈ aa → answer_said A' w req resp) →
  (∀ w msg, (w, msg) ∈ ap → applied_ok A' msg) →
  sim (mkNetwork (<[v := R']> (servers W)) (vr ++ voteResps W) (ar ++ appendReqs W)
         (aa ++ appendResps W) (ap ++ applied W)) A' ∧ Spec.steps members A A'.
Proof.
  intros [Hreach HRs Hvs Hrs Has Hap] Hst HR' Hv Hr Ha Happ.
  destruct (Spec.steps_of _ _ _ _ Hreach Hst) as (Hreach' & Hsteps & Ht).
  destruct (said_mono _ _ _ Ht) as (M1 & M2 & M3). split; [|done]. split; simpl; try done.
  - intros i R HiR. destruct (decide (v = i)) as [<-|Hne].
    + rewrite lookup_insert_eq in HiR. by injection HiR as <-.
    + rewrite lookup_insert_ne in HiR by done. destruct (HRs i R HiR). split; try done.
      by eapply abs_other.
  - intros w req resp [?|?]%elem_of_app; eauto.
  - intros req [?|?]%elem_of_app; eauto.
  - intros w req resp [?|?]%elem_of_app; eauto.
  - intros w msg [?|?]%elem_of_app; [eauto|]. eapply applied_mono; eauto.
Qed.
End simulation.
