(* ===== verification/Simulation.v ===== *)
(** * Simulation: each handler is a sequence of protocol steps

    One lemma per handler of the Network: from a server simulated by the
    protocol state [A], what the handler does is matched by steps of that
    replica to an [A'] that simulates the server it leaves. *)

From S2P Require Import Prelude Types Storage Timing Node Handlers Replication.
From S2P Require Import LogSpec AppendSpec AppendProtocol CommitSpec CatchUp.
From S2P Require Import ApplyLoop Recovery Replica Delivery VoteSafety Cluster.
From S2P Require Import Durability RaftSpec Network Refinement.
Open Scope Z_scope.

Section simulation.
Context {S : Type} {HS : Storage S} {HC : StorageContract S} {HR : ReliableStorage S}.
Context (members : gset string).
Implicit Types (n : Node S) (R : Server S) (A : Spec.state) (i v p : string) (pc : loop_pc).

Notation step i := (Spec.step members i).
Notation abs A i n pc := (abs (S := S) members A i n pc).

(** ** Changes the protocol does not see *)

(** What the protocol sees of a node, and who its peers are. *)
Record alike n n' : Prop := {
  al_term : currentTerm n' = currentTerm n;
  al_role : role n' = role n;
  al_log : log n' = log n;
  al_commit : commitIndex n' = commitIndex n;
  al_peers : peers n' = peers n;
  al_vote : votedFor n' = votedFor n ∨ votedFor n = "" }.

Lemma alike_view n n' : alike n n' → view n' = view n.
Proof. intros [Ht Hr Hl Hc _ _]. unfold view. by rewrite Ht, Hr, Hl, Hc. Qed.

(** A replica's progress maps: each recorded index is acknowledged. *)
Definition progress_ok A n : Prop :=
  (role n = Leader → ∀ p, p ∈ peers n →
    map_get 0 p (matchIndex n) ≤ 0 ∨
    ∃ k, map_get 0 p (matchIndex n) ≤ Z.of_nat k ∧ (currentTerm n, p, k) ∈ Spec.acks A) ∧
  ∀ p, map_get 0 p (nextIndex n) ≤ max_int64.

Lemma abs_progress A i n pc : abs A i n pc → progress_ok A n.
Proof. intros []. by split. Qed.

Lemma loop_alike A i n n' pc : alike n n' → loop_ok members A i n pc → loop_ok members A i n' pc.
Proof.
  intros [Ht Hr Hl _ Hp _]. destruct pc; simpl; try done; rewrite ?Hr; try done.
  unfold campaign_ok. by rewrite Hr, Hp, Ht, Hl.
Qed.

Lemma loop_follower A i n n' pc :
  role n' = Follower → peers n' = peers n → loop_ok members A i n pc → loop_ok members A i n' pc.
Proof.
  intros Hr Hp. destruct pc; simpl; rewrite ?Hr; try done.
  intros (_ & ? & ? & ? & ? & _ & ?). split; [done|]. unfold campaign_ok. rewrite Hr, Hp. by split_and!.
Qed.

Lemma abs_alike A i n n' pc :
  alike n n' → progress_ok A n' → abs A i n pc → abs A i n' pc.
Proof.
  intros Hal [Hm Hn] []. pose proof Hal as [Ht Hr Hl Hc Hp Hv]. split; try done.
  - by rewrite (alike_view n n').
  - intros V HV Hvo HT. rewrite Ht in HT. destruct (ab_vote V HV Hvo HT) as [? E].
    split; [done|]. destruct Hv as [->|Hv]; congruence.
  - by rewrite Ht.
  - by eapply loop_alike.
Qed.

(** The same progress maps. *)
Lemma progress_same A n n' :
  role n' = role n → currentTerm n' = currentTerm n → peers n' = peers n →
  matchIndex n' = matchIndex n → nextIndex n' = nextIndex n → progress_ok A n → progress_ok A n'.
Proof. intros Hr Ht Hp Hm Hn [H1 H2]. unfold progress_ok. by rewrite Hr, Ht, Hp, Hm, Hn. Qed.

Lemma abs_same A i n n' pc :
  alike n n' → matchIndex n' = matchIndex n → nextIndex n' = nextIndex n →
  abs A i n pc → abs A i n' pc.
Proof.
  intros Hal Hm Hn H. pose proof Hal as [? ? _ _ ? _]. eapply abs_alike; [done| |done].
  eapply progress_same; try done. by eapply abs_progress.
Qed.

Lemma abs_loop A i n pc pc' : loop_ok members A i n pc' → abs A i n pc → abs A i n pc'.
Proof. intros Hl []. by split. Qed.

(** ** Steps of the protocol *)

(** Following: a term at least as high, no leadership. *)
Lemma abs_follow A i n n' pc pc' :
  Spec.inv members A → abs A i n pc → currentTerm n ≤ currentTerm n' → role n' ≠ Leader →
  log n' = log n → commitIndex n' ≤ commitIndex n → peers n' = peers n →
  (currentTerm n' = currentTerm n → votedFor n' = votedFor n ∨ votedFor n = "") →
  (∀ p, map_get 0 p (nextIndex n') ≤ max_int64) → loop_ok members A i n' pc' →
  ∃ A', step i A A' ∧ abs A' i n' pc' ∧ Spec.votes A' = Spec.votes A ∧
        Spec.leaders A' = Spec.leaders A ∧ Spec.acks A' = Spec.acks A ∧ Spec.sent A' = Spec.sent A.
Proof.
  intros HI [] Ht Hr Hl Hc Hp Hv Hn Hloop.
  exists (Spec.set_rep i (view n') A).
  assert (view n' = Spec.mkRep (currentTerm n') false (Spec.r_log (view n)) (Z.to_nat (commitIndex n'))) as E.
  { unfold view. simpl. rewrite Hl. f_equal. unfold role_eqb. by rewrite bool_decide_eq_false_2. }
  split; [rewrite E; apply Spec.step_follow; simpl; [done|done|lia]|]. split; [|done].
  split; simpl; try done.
  - by rewrite lookup_insert_eq.
  - intros V HV Hvo HT. destruct (Spec.vt_rep _ _ (Spec.inv_votes _ _ HI V HV)) as (r & Hr' & Hle).
    rewrite Hvo, ab_rep in Hr'. injection Hr' as <-. simpl in Hle.
    assert (currentTerm n' = currentTerm n) as HT' by lia.
    destruct (ab_vote V HV Hvo ltac:(lia)) as [? E']. split; [done|].
    destruct (Hv HT') as [->|?]; congruence.
  - intros t l H. specialize (ab_led t l H). lia.
Qed.

(** A vote for the candidate the node has recorded. *)
Lemma abs_vote A i n pc c lastTerm lastIndex :
  Spec.inv members A → abs A i n pc → c ≠ "" → votedFor n = c →
  Spec.up_to_date (log n) lastTerm lastIndex →
  ∃ A', step i A A' ∧ abs A' i n pc ∧ Spec.leaders A' = Spec.leaders A ∧
    Spec.mkVote (currentTerm n) i c lastTerm lastIndex (log n) ∈ Spec.votes A' ∧
    ∀ V, V ∈ Spec.votes A → V ∈ Spec.votes A'.
Proof.
  intros HI [] Hc Hv Hu. eexists. split.
  { apply (Spec.step_vote _ A i (view n) c lastTerm lastIndex); [done|done|].
    simpl. intros V HV HT Hvo. destruct (ab_vote V HV Hvo HT). congruence. }
  split; [|split_and!; [done|simpl; by left|simpl; intros; by right]].
  split; simpl; try done.
  - intros V [->|HV]%elem_of_cons; simpl; [done|by apply ab_vote].
  - destruct pc; try done. destruct ab_loop. split; [done|].
    apply (campaign_ok_mono members A); [intros; simpl; by right|by eauto|done].
Qed.

(** The server with the node a handler left. *)
Lemma server_node A A' i R n' pc' :
  sim_server members A i R → handler (snode R) n' → kept members (snode R) n' →
  advances (snode R) n' → uncompacted n' → abs A' i n' pc' →
  sim_server members A' i (at_loop pc' n' R).
Proof.
  intros [Hn Hm Ha] Hh Hk Had Hu Ha'. split; [by eapply node_ok_handler| |done].
  unfold at_loop. eapply minv_effect; [by eapply handler_effect; [apply Hn|]|].
  destruct R as [pc [apc m l]]. exact Hm.
Qed.

(** ** RequestVote *)

(** The two stages of a vote: the term, then the vote. *)
Lemma HandleRequestVote_stages req n n' r :
  HandleRequestVote req n = (n', r) →
  (n' = n ∧ ∀ resp, r = Val resp → RequestVoteResponse.VoteGranted resp = false) ∨
  ∃ m, currentTerm m = RequestVoteRequest.Term req ∧
    (m = n ∨ currentTerm n < RequestVoteRequest.Term req ∧ ∃ st,
       m = n <| currentTerm := RequestVoteRequest.Term req |> <| votedFor := "" |>
             <| role := Follower |> <| storage := st |>) ∧
    (n' = m ∧ (∀ resp, r = Val resp → RequestVoteResponse.VoteGranted resp = false) ∨
     (votedFor m = "" ∨ votedFor m = RequestVoteRequest.CandidateID req) ∧
     upToDate req m = true ∧ ∃ st,
       n' = m <| votedFor := RequestVoteRequest.CandidateID req |> <| storage := st |>
              <| electionTimeoutResetCh := true |>).
Proof.
  assert (∀ m m' r', grantVote req m = (m', r') →
    m' = m ∧ (∀ resp, r' = Val resp → RequestVoteResponse.VoteGranted resp = false) ∨
    (votedFor m = "" ∨ votedFor m = RequestVoteRequest.CandidateID req) ∧
    upToDate req m = true ∧ ∃ st,
      m' = m <| votedFor := RequestVoteRequest.CandidateID req |> <| storage := st |>
             <| electionTimeoutResetCh := true |>) as Hgrant.
  { intros m m' r'. unfold grantVote. cbv zeta.
    destruct ((bool_decide (votedFor m = "") || bool_decide (votedFor m = RequestVoteRequest.CandidateID req))
      && upToDate req m)%bool eqn:Hc; [|intros [= <- <-]; left; split; [done|by intros ? [= <-]]].
    apply andb_true_iff in Hc as [Hv Hup].
    destruct (tracePersistHardState _) as [m1 err] eqn:E.
    destruct (with_storage_frame _ _ _ _ E) as [st ->].
    apply with_storage_reliable in E as ->; [|intros; apply reliable_hard].
    intros [= <- _]. right. split_and!; [|done|by exists st].
    apply orb_true_iff in Hv as [Hv|Hv]; apply bool_decide_eq_true in Hv; auto. }
  unfold HandleRequestVote. case_match; [intros [= <- <-]; by left|].
  destruct (Z.ltb_spec (RequestVoteRequest.Term req) (currentTerm n));
    [intros [= <- <-]; left; split; [done|by intros ? [= <-]]|].
  destruct (Z.ltb_spec (currentTerm n) (RequestVoteRequest.Term req)); cbv zeta.
  - destruct (tracePersistHardState _) as [m err] eqn:E.
    destruct (with_storage_frame _ _ _ _ E) as [st ->].
    apply with_storage_reliable in E as ->; [|intros; apply reliable_hard].
    intros Hg%Hgrant. right. eexists. split; [|split; [right; split; [done|by exists st]|exact Hg]]. done.
  - intros Hg%Hgrant. right. exists n. split_and!; [lia|by left|exact Hg].
Qed.

Lemma lastLogTerm_eq n :
  snapshotTerm n = 0 → lastLogTerm n = Spec.term_at (log n) (length (log n)).
Proof.
  intros Ht. unfold lastLogTerm. rewrite list.last_lookup. destruct (length (log n)) as [|k] eqn:E.
  - apply nil_length_inv in E. by rewrite E.
  - simpl. destruct (log n !! k) eqn:Ek; [done|]. apply lookup_ge_None in Ek. lia.
Qed.

Lemma upToDate_spec req n :
  uncompacted n → zlen (log n) < max_int64 → upToDate req n = true →
  Spec.up_to_date (log n) (RequestVoteRequest.LastLogTerm req)
    (Z.to_nat (RequestVoteRequest.LastLogIndex req)).
Proof.
  intros (Hi & Ht & _) Hroom. unfold upToDate. cbv zeta.
  rewrite lastLogTerm_eq, lastLogIndex_eq, Hi by lia. intros Hu. unfold Spec.up_to_date.
  apply orb_true_iff in Hu as [Hu|Hu]; zbool; [by left|right]. unfold zlen in *. split; [done|lia].
Qed.

Lemma local_vote_request A i R req n' r :
  Spec.inv members A → sim_server members A i R → HandleRequestVote req (snode R) = (n', r) →
  ∃ A', rtc (step i) A A' ∧ sim_server members A' i (on_node n' R) ∧
    ∀ resp, r = Val resp → RequestVoteResponse.VoteGranted resp = true → vote_said A' i req.
Proof.
  intros HI Hsv Hop. pose proof Hsv as [Hn Hm Ha]. set (n := snode R) in *.
  pose proof (quiet_HandleRequestVote _ _ _ _ Hop) as Hq.
  assert (∀ A', abs A' i n' (sloop R) → sim_server members A' i (on_node n' R)) as Hwrap.
  { intros A' Ha'. apply (server_node A A'); try done; [by eapply h_vote| | |].
    - eapply evolves_kept, evolves_HandleRequestVote; exact Hop.
    - by eapply advances_HandleRequestVote.
    - eapply uncompacted_quiet; [exact Hq|apply Hn]. }
  destruct (HandleRequestVote_stages _ _ _ _ Hop) as [[-> Hno]|(m & HT & Hm' & Hres)].
  { exists A. split_and!; [constructor|by apply Hwrap|]. intros resp ->. by rewrite Hno. }
  (* the term *)
  assert (∃ A1, rtc (step i) A A1 ∧ Spec.inv members A1 ∧ abs A1 i m (sloop R) ∧ uncompacted m ∧
            log m = log n) as (A1 & Hst & HI1 & Ham & Hum & Hlm).
  { destruct Hm' as [->|(Hlt & st & ->)].
    { exists A. split_and!; [constructor|done|done|apply Hn|done]. }
    destruct (abs_follow A i n (n <| currentTerm := RequestVoteRequest.Term req |>
      <| votedFor := "" |> <| role := Follower |> <| storage := st |>) (sloop R) (sloop R))
      as (A1 & H1 & H2 & _); try done; [simpl; lia|simpl; lia|apply Ha| |].
    { by apply (loop_follower A i n), Ha. }
    exists A1. split_and!; [by apply rtc_once|by eapply Spec.step_inv|done|apply Hn|done]. }
  destruct Hres as [[-> Hno]|(Hv & Hup & st & ->)].
  { exists A1. split_and!; [done|by apply Hwrap|]. intros resp ->. by rewrite Hno. }
  set (n' := m <| votedFor := _ |> <| storage := st |> <| electionTimeoutResetCh := true |>) in *.
  assert (abs A1 i n' (sloop R)) as Ha'.
  { apply (abs_same A1 i m); try done. split; try done.
    destruct Hv as [->|Hv]; [by right|left]. by rewrite Hv. }
  destruct (decide (RequestVoteRequest.CandidateID req = "")) as [Hc|Hc].
  { exists A1. split_and!; [done|by apply Hwrap|]. by intros resp _ _ ?. }
  destruct (abs_vote A1 i n' (sloop R) (RequestVoteRequest.CandidateID req)
    (RequestVoteRequest.LastLogTerm req) (Z.to_nat (RequestVoteRequest.LastLogIndex req)))
    as (A2 & Hs2 & Ha2 & _ & HV & _); try done.
  { apply (upToDate_spec req m); [done| |done]. rewrite Hlm. pose proof (wf_room _ (nk_wf _ _ _ Hn)).
    pose proof (wf_snap _ (nk_wf _ _ _ Hn)). lia. }
  exists A2. split_and!; [by eapply rtc_r|by apply Hwrap|]. intros resp _ _ _.
  eexists. split; [exact HV|]. by split_and!.
Qed.

(** ** AppendEntries *)

Lemma on_node_same R : on_node (snode R) R = R.
Proof. by destruct R as [pc [apc m l]]. Qed.

Lemma entry_at_uncompacted n j :
  uncompacted n → entry_at n (Z.of_nat j + 1) = log n !! j.
Proof.
  intros (Hi & _ & _). unfold entry_at, log_at. rewrite Hi.
  destruct (Z.leb_spec (Z.of_nat j + 1) 0); [lia|]. f_equal. lia.
Qed.

(** A request of a leader does not contradict what the replica has
    committed: the hypothesis under which [HandleAppendEntries] is safe. *)
Lemma request_no_conflict A i n pc req :
  Spec.inv members A → abs A i n pc → uncompacted n → wf n → request_said A req →
  currentTerm n ≤ AppendEntriesRequest.Term req → no_committed_conflict req n.
Proof.
  intros HI Ha Hu Hwf (Hin & Hfit & _) Ht j e x He Hx Hle.
  pose proof (Spec.inv_sent _ _ HI _ Hin) as [(G & HG & Hlast & Hes & _ & _) _]. simpl in *.
  pose proof (Spec.inv_reps _ _ HI _ _ (ab_rep _ _ _ _ _ Ha)) as [_ _ _ _ _ Hc]. simpl in Hc.
  set (prev := AppendEntriesRequest.PrevLogIndex req) in *.
  pose proof (proj1 Hfit) as Hp. fold prev in Hp.
  assert (prev + Z.of_nat j + 1 = Z.of_nat (Z.to_nat prev + j) + 1) as E by lia.
  rewrite E, entry_at_uncompacted in Hx by done.
  assert (e = x) as ->; [|done].
  apply lookup_lt_Some in He as Hj.
  pose proof (Spec.segment_lookup (msg_of req) G j Hes Hj) as Hseg. simpl in Hseg. fold prev in Hseg.
  destruct Hc as [Hc|(t & k & G2 & Hcm & Hk & Htk & HG2 & Hag)]; [lia|].
  rewrite (Spec.agree_lookup _ _ _ _ Hag) in Hx by lia.
  assert (Spec.agree k G2 G) as Hcomplete.
  { eapply Spec.leader_agrees; [done|done|done| |done]. lia. }
  rewrite (Spec.agree_lookup _ _ _ _ Hcomplete) in Hx by lia. congruence.
Qed.

(** The request accepted, in the protocol. *)
Lemma abs_accept A i f n' pc req :
  Spec.inv members A → abs A i f pc → role f = Follower → wf f → uncompacted f →
  request_said A req → currentTerm f = AppendEntriesRequest.Term req → prev_matches req f →
  zlen (merged req f) < max_int64 → commitIndex f ≤ zlen (merged req f) →
  log n' = merged req f →
  commitIndex n' = followed (AppendEntriesRequest.LeaderCommit req) (f <| log := merged req f |>) →
  currentTerm n' = currentTerm f → role n' = Follower → votedFor n' = votedFor f →
  peers n' = peers f → nextIndex n' = nextIndex f →
  ∃ A', step i A A' ∧ abs A' i n' pc ∧
    (AppendEntriesRequest.Term req, i, Spec.m_last (msg_of req)) ∈ Spec.acks A'.
Proof.
  intros HI [] Hrf Hwf (Hi & Ht & _) (Hin & Hfit & Hlc) HT (Hp1 & Hp2 & Hp3) Hroom Hcov
    Hl Hc Hterm Hr Hv Hpe Hn.
  set (prev := AppendEntriesRequest.PrevLogIndex req) in *. destruct Hfit as [Hprev Hfit]. fold prev in Hprev, Hfit.
  rewrite Hi in *.
  assert (followed (AppendEntriesRequest.LeaderCommit req) (f <| log := merged req f |>) =
    if commitIndex f <? AppendEntriesRequest.LeaderCommit req
    then Z.min (AppendEntriesRequest.LeaderCommit req) (zlen (merged req f)) else commitIndex f) as Hf.
  { unfold followed. rewrite lastLogIndex_eq; simpl; rewrite Hi; [done|lia|lia]. }
  rewrite Hf in Hc. clear Hf.
  assert (Spec.accept (msg_of req) (log f) = merged req f) as Hacc.
  { unfold Spec.accept, merged. simpl. fold prev. rewrite Hi. by rewrite Z2Nat.id by done. }
  eexists. split.
  { apply (Spec.step_accept _ A i (view f) (msg_of req)); [done|done|done| |].
    - simpl. fold prev. unfold zlen in Hp1. lia.
    - simpl. fold prev. destruct (decide (prev = 0)) as [E|E].
      + rewrite E. simpl. rewrite Hp3, Ht; done.
      + destruct Hp2 as (x & Hx & <-); [lia|]. unfold entry_at, log_at in Hx. rewrite Hi in Hx.
        destruct (Z.leb_spec prev 0); [lia|].
        replace (Z.to_nat prev) with (Datatypes.S (Z.to_nat (prev - 0 - 1))) by lia. simpl. by rewrite Hx. }
  split; [|simpl; rewrite HT; by left]. split; simpl.
  - rewrite lookup_insert_eq. f_equal. rewrite Hacc. unfold view. rewrite Hterm, Hr, Hl, Hc. f_equal.
    destruct (Z.ltb_spec (commitIndex f) (AppendEntriesRequest.LeaderCommit req)); unfold zlen in *; lia.
  - intros V HV Hvo. rewrite Hterm, Hv. by apply ab_vote.
  - by rewrite Hr.
  - by rewrite Hn.
  - rewrite Hterm. done.
  - apply (loop_follower _ i f); [done|done|]. destruct pc; try done.
Qed.

Lemma answer_rejected A i req resp :
  AppendEntriesResponse.ConflictIndex resp ≤ max_int64 →
  AppendEntriesResponse.Success resp = false → answer_said A i req resp.
Proof. intros Hc Hs. split; [done|]. by rewrite Hs. Qed.

Lemma local_append A i R now req n' r :
  Spec.inv members A → sim_server members A i R → request_said A req →
  HandleAppendEntries now req (snode R) = Ret (n', r) →
  ∃ A', rtc (step i) A A' ∧ sim_server members A' i (on_node n' R) ∧
    ∀ resp, r = Val resp → answer_said A' i req resp.
Proof.
  intros HI Hsv Hreq Hop. pose proof Hsv as [Hn Hm Ha]. set (n := snode R) in *.
  pose proof (nk_wf _ _ _ Hn) as Hwf. pose proof (nk_snap _ _ _ Hn) as Hu.
  pose proof Hreq as (_ & Hfit & _).
  destruct (HandleAppendEntries_post now req n Hwf Hfit) as (? & ? & E & Hpost).
  rewrite Hop in E. injection E as <- <-.
  destruct (decide (degraded n = true ∨ AppendEntriesRequest.Term req < currentTerm n)) as [Hd|Hd].
  { assert (n' = n ∧ ∀ resp, r = Val resp → resp = AppendEntriesResponse.mk (currentTerm n) false 0 0)
      as [-> Hr].
    { destruct Hpost; try (exfalso; destruct Hd; [congruence|lia]); split; try done.
      by intros ? [= <-]. }
    exists A. unfold n at 1. rewrite on_node_same. split_and!; [constructor|done|].
    intros resp ->. rewrite (Hr resp) by done. by apply answer_rejected. }
  assert (degraded n = false) as Hdeg by (destruct (degraded n); [exfalso; auto|done]).
  assert (currentTerm n ≤ AppendEntriesRequest.Term req) as Ht by lia.
  destruct (HandleAppendEntries_reliable now req n n' r Hdeg Hop) as [resp ->].
  assert (no_committed_conflict req n) as Hno by by eapply request_no_conflict.
  assert (∀ A', abs A' i n' (sloop R) → sim_server members A' i (on_node n' R)) as Hwrap.
  { intros A' Ha'. apply (server_node A A'); try done; [by eapply h_append| | |].
    - eapply evolves_kept, evolves_HandleAppendEntries; exact Hop.
    - by eapply advances_HandleAppendEntries.
    - destruct Hpost; apply Hu. }
  (* the term and the step down *)
  assert (∀ v st, v = kept_vote (AppendEntriesRequest.Term req) n →
    ∃ A1, rtc (step i) A A1 ∧ Spec.inv members A1 ∧
      abs A1 i (as_follower (AppendEntriesRequest.Term req) v st n) (sloop R) ∧
      request_said A1 req) as Hfollow.
  { intros v st ->. edestruct (abs_follow A i n
      (as_follower (AppendEntriesRequest.Term req) (kept_vote (AppendEntriesRequest.Term req) n) st n)
      (sloop R) (sloop R)) as (A1 & H1 & H2 & _ & _ & _ & Hsent); try done; [|apply Ha| |].
    - simpl. intros HT. left. unfold kept_vote. rewrite HT. destruct (Z.ltb_spec (currentTerm n) (currentTerm n)); [lia|done].
    - by apply (loop_follower A i n), Ha.
    - exists A1. split_and!; [by apply rtc_once|by eapply Spec.step_inv|done|].
      destruct Hreq as (? & ? & ?). split_and!; try done. by rewrite Hsent. }
  inversion Hpost as [|? ?|st err ? ?|v st ct ci _ _ Hv Hcf|v st k err ? ? ? ? ?|v st ci cs an ? _ _ Hv Hprev Hci Hr Han];
    subst; try congruence; try lia.
  - destruct (Hfollow _ st eq_refl) as (A1 & Hst & _ & Ha1 & _).
    exists A1. split_and!; [done|by apply Hwrap|]. intros ? [= <-]. apply answer_rejected; [|done]. simpl.
    pose proof (wf_room _ Hwf). pose proof Hfit as [? ?].
    pose proof (zlen_nonneg (AppendEntriesRequest.Entries req)). pose proof (zlen_nonneg (log n)).
    destruct Hcf; lia.
  - destruct Hr as [[= ->]|[[err [=]] _]].
    destruct (Hfollow _ st eq_refl) as (A1 & Hst & HI1 & Ha1 & Hreq1).
    set (v := kept_vote _ n) in *. set (f := as_follower _ v st n) in *.
    pose proof (merged_covers req n Hwf Hfit Hno Hprev) as Hcov.
    destruct Hu as (Hu1 & Hu2 & Hu3). rewrite Hu1, Z.add_0_l in Hcov.
    match type of Hop with _ = Ret (?x, _) => set (m := x) in * end.
    destruct (abs_accept A1 i f m (sloop R) req HI1 Ha1) as (A2 & Hs2 & Ha2 & Hack);
      [done|by apply (wf_same n)|done|exact Hreq1|done|done|apply Hcov|apply Hcov|done..|].
    exists A2. split_and!; [by eapply rtc_r|by apply Hwrap|]. intros ? [= <-]. by split.
Qed.

(** ** The leader: proposals and commits *)

Lemma leader_view n : role n = Leader →
  view n = Spec.mkRep (currentTerm n) true (log n) (Z.to_nat (commitIndex n)).
Proof. intros H. unfold view. by rewrite H. Qed.

Lemma leader_loop A A' i n n' pc :
  role n = Leader → loop_ok members A i n pc → loop_ok members A' i n' pc.
Proof. destruct pc; simpl; try done. by intros ? [? _]. Qed.

(** The members are the replica and its peers. *)
Lemma peers_members i q : q ∈ normalizePeers i members → q ∈ members ∧ q ≠ i.
Proof. unfold normalizePeers. rewrite elem_of_filter. tauto. Qed.

Lemma quorum_of_acked i n c :
  i ∈ members → id n = i → peers n = normalizePeers i members →
  zlen (Members (config n)) = N members → quorumSize n ≤ replicaVotes c n → Spec.quorum members (acked c n).
Proof.
  intros Hm Hid Hp Hcfg Hq. unfold quorumSize in Hq. rewrite Hcfg in Hq.
  rewrite replicaVotes_acked in Hq by (rewrite Hp, Hid; by intros [_ ?]%peers_members).
  split.
  - unfold acked. rewrite Hid, Hp. intros q [->%elem_of_singleton|Hin]%elem_of_union; [done|].
    apply elem_of_filter in Hin as [_ Hin]. by apply peers_members in Hin as [? _].
  - unfold N in Hq. pose proof (Z_div_mod_eq_full (Z.of_nat (size members)) 2).
    pose proof (Z.mod_pos_bound (Z.of_nat (size members)) 2). lia.
Qed.

Lemma abs_commit A i n pc c :
  Spec.inv members A → abs A i n pc → role n = Leader → i ∈ members → id n = i →
  peers n = normalizePeers i members → zlen (Members (config n)) = N members →
  snapshotIndex n = 0 →
  0 ≤ commitIndex n < c → c ≤ zlen (log n) → committable n c →
  ∃ A', step i A A' ∧ ∀ n', currentTerm n' = currentTerm n → role n' = role n → log n' = log n →
    commitIndex n' = c → peers n' = peers n → votedFor n' = votedFor n →
    matchIndex n' = matchIndex n → nextIndex n' = nextIndex n → abs A' i n' pc.
Proof.
  intros HI [] Hr Hm Hid Hp Hcfg Hi Hc Hcl (e & He & Het & Hq).
  unfold entry_at, log_at in He. rewrite Hi in He. destruct (Z.leb_spec c 0); [done|].
  set (k := Z.to_nat (c - 0 - 1)) in *.
  assert (Z.to_nat c = Datatypes.S k) as Hk by lia.
  rewrite leader_view in ab_rep by done.
  pose proof (Spec.rp_lead _ _ _ _ (Spec.inv_reps _ _ HI _ _ ab_rep) eq_refl) as Hlead. simpl in Hlead.
  pose proof (Spec.li_acked _ _ _ _ _ (Spec.inv_leaders _ _ HI _ _ _ Hlead) k e He Het) as Hself.
  eexists. split.
  { apply (Spec.step_commit _ A i _ (acked c n) (Z.to_nat c) ab_rep); simpl;
      [done|by apply (quorum_of_acked i)|unfold zlen in Hcl; lia|by rewrite Hk, (Spec.term_at_lookup _ _ _ He)|].
    unfold acked. rewrite Hid. intros q [->%elem_of_singleton|Hin]%elem_of_union.
    - exists (Datatypes.S k). split; [lia|done].
    - apply elem_of_filter in Hin as [Hle Hin]. destruct (ab_match Hr q Hin) as [?|(k' & ? & ?)]; [lia|].
      exists k'. split; [lia|done]. }
  intros n' Ht' Hr' Hl' Hc' Hp' Hv' Hm' Hn'. split; simpl; rewrite ?Ht', ?Hr', ?Hp', ?Hv', ?Hm', ?Hn'; try done.
  - rewrite lookup_insert_eq, leader_view by congruence. by rewrite Ht', Hl', Hc'.
  - by apply (leader_loop A _ i n).
Qed.

Lemma abs_propose A i n n' pc e idx :
  Spec.inv members A → abs A i n pc → role n = Leader → id n = i →
  peers n = normalizePeers i members → LogEntry.Term e = currentTerm n →
  currentTerm n' = currentTerm n → role n' = role n → log n' = log n ++ [e] →
  commitIndex n' = commitIndex n → peers n' = peers n → votedFor n' = votedFor n →
  matchIndex n' = <[id n := idx]> (matchIndex n) →
  (∀ p, map_get 0 p (nextIndex n') ≤ max_int64) →
  ∃ A', step i A A' ∧ abs A' i n' pc.
Proof.
  intros HI [] Hr Hid Hp Het Ht' Hr' Hl' Hc' Hp' Hv' Hm' Hn'.
  rewrite leader_view in ab_rep by done. eexists. split.
  { by apply (Spec.step_propose _ A i _ e ab_rep). }
  split; simpl; rewrite ?Ht', ?Hr', ?Hp', ?Hv', ?Hm'; try done.
  - rewrite lookup_insert_eq, leader_view by congruence. by rewrite Ht', Hl', Hc'.
  - intros _ p Hin. rewrite map_get_insert_ne.
    + destruct (ab_match Hr p Hin) as [?|(k & ? & ?)]; [by left|right]. exists k.
      split; [done|]. by right.
    + rewrite Hp in Hin. rewrite Hid. by apply peers_members in Hin as [_ ?].
  - intros t l. destruct (decide (t = currentTerm n)) as [->|Hne]; [done|].
    rewrite lookup_insert_ne by done. apply ab_led.
  - by apply (leader_loop A _ i n).
Qed.

Lemma local_start A i R now cmd n' r :
  Spec.inv members A → sim_server members A i R → zlen (log (snode R)) + 1 < max_int64 →
  StartCommand now cmd (snode R) = Ret (n', r) →
  ∃ A', rtc (step i) A A' ∧ sim_server members A' i (on_node n' R).
Proof.
  intros HI Hsv Hroom Hop. pose proof Hsv as [Hn Hm Ha]. set (n := snode R) in *.
  pose proof (nk_wf _ _ _ Hn) as Hwf. pose proof (nk_snap _ _ _ Hn) as (Hu1 & Hu2 & Hu3).
  assert (snapshotIndex n + zlen (log n) + 1 < max_int64) as Hroom' by lia.
  destruct (StartCommand_post now cmd n Hwf Hroom') as (? & ? & E & Hpost).
  rewrite Hop in E. injection E as <- <-.
  assert (∀ A', abs A' i n' (sloop R) → sim_server members A' i (on_node n' R)) as Hwrap.
  { intros A' Ha'. apply (server_node A A'); try done; [by eapply h_start| | |].
    - eapply evolves_kept, evolves_StartCommand; exact Hop.
    - by eapply advances_StartCommand.
    - destruct Hpost as [?|st ? ?|st n' ? ? p -> _|st st' c n' ? ? p Hcp _ [-> | ->]];
        split_and!; done. }
  destruct Hpost as [?|st ? ?|st n' ? Hr p -> _|st st' c n' ? Hr p Hcp Hcm Hn'].
  - exists A. split; [constructor|]. by apply Hwrap.
  - exists A. split; [constructor|]. apply Hwrap.
    apply (abs_same A i n); [split; [done..|by left]|done..].
  - destruct (abs_propose A i n (notifyReplicate p) (sloop R) (LogEntry.mk (currentTerm n) EntryCommand cmd)
      (snapshotIndex n + zlen (log n) + 1) HI Ha Hr (nk_id _ _ _ Hn) (nk_peers _ _ _ Hn))
      as (A' & Hs & Ha'); try done.
    { intros q. simpl. destruct (decide (q = id n)) as [->|];
        [rewrite map_get_insert; lia|rewrite map_get_insert_ne by done; by apply Ha]. }
    exists A'. split; [by apply rtc_once|by apply Hwrap].
  - destruct (abs_propose A i n p (sloop R) (LogEntry.mk (currentTerm n) EntryCommand cmd)
      (snapshotIndex n + zlen (log n) + 1) HI Ha Hr (nk_id _ _ _ Hn) (nk_peers _ _ _ Hn))
      as (A1 & Hs & Ha1); try done.
    { intros q. simpl. destruct (decide (q = id n)) as [->|];
        [rewrite map_get_insert; lia|rewrite map_get_insert_ne by done; by apply Ha]. }
    assert (Spec.inv members A1) as HI1 by by eapply Spec.step_inv.
    pose proof Hwf as [_ Hci _ _ _].
    assert (snapshotIndex p = 0) as Hp0 by done. rewrite Hp0, Z.add_0_l in Hcp.
    destruct (abs_commit A1 i p (sloop R) c HI1 Ha1 Hr (nk_member _ _ _ Hn) (nk_id _ _ _ Hn)
      (nk_peers _ _ _ Hn)) as (A2 & Hs2 & Ha2); [apply (proj1 (nk_cfg _ _ _ Hn))|done| |lia|done|].
    { change (commitIndex p) with (commitIndex n) in *. lia. }
    exists A2. split; [eapply rtc_l; [exact Hs|by apply rtc_once]|]. apply Hwrap.
    apply Ha2; by destruct Hn' as [-> | ->].
Qed.

(** ** Building a request *)

(** A request that was built is the rest of the log after some index. *)
Lemma append_request_built p n n' req ok :
  wf n → uncompacted n → map_get 0 p (nextIndex n) ≤ max_int64 →
  appendEntriesRequestForPeer p n = Ret (n', (Some req, ok)) →
  role n = Leader ∧ 0 ≤ AppendEntriesRequest.PrevLogIndex req ≤ zlen (log n) ∧
  AppendEntriesRequest.Term req = currentTerm n ∧
  AppendEntriesRequest.PrevLogTerm req =
    Spec.term_at (log n) (Z.to_nat (AppendEntriesRequest.PrevLogIndex req)) ∧
  AppendEntriesRequest.Entries req = drop (Z.to_nat (AppendEntriesRequest.PrevLogIndex req)) (log n) ∧
  AppendEntriesRequest.LeaderCommit req = commitIndex n.
Proof.
  intros Hwf (Hi & Hst & _) Hmax Hop.
  assert (role n = Leader ∧ map_get false p (replicateInFlight n) = false) as [Hr Hf].
  { unfold appendEntriesRequestForPeer, role_eqb in Hop. case_bool_decide; simpl in Hop; [|done].
    destruct (map_get false p (replicateInFlight n)); [done|]. done. }
  pose proof (appendEntriesRequestForPeer_spec p n Hwf Hmax Hr Hf) as Hspec. cbv zeta in Hspec.
  rewrite Hi in Hspec. case_bool_decide as Hrange; [|congruence].
  destruct Hspec as (req' & E & Hreq). rewrite Hop in E. injection E as _ <- _.
  destruct Hreq as (HT & _ & Hp & Hlc & Hes & Hb & He). rewrite Hi in Hes, Hb. rewrite Z.sub_0_r in Hes.
  split_and!; try done; try lia; rewrite Hp; [|done].
  destruct (decide (nextFor p n - 1 = 0)) as [E|E].
  - rewrite E. simpl. by rewrite Hb, Hst.
  - destruct (log_at_is_Some (snapshotIndex n) (log n) (nextFor p n - 1)) as [x Hx]; [lia|].
    rewrite (He x Hx). unfold log_at in Hx. rewrite Hi in Hx. destruct (Z.leb_spec (nextFor p n - 1) 0); [done|].
    replace (Z.to_nat (nextFor p n - 1)) with (Datatypes.S (Z.to_nat (nextFor p n - 1 - 0 - 1))) by lia.
    simpl. by rewrite Hx.
Qed.

(** Building a request changes the bookkeeping of the rounds only. *)
Lemma append_request_frame p n n' r :
  appendEntriesRequestForPeer p n = Ret (n', r) →
  ∃ rf rp, n' = n <| replicateInFlight := rf |> <| replicatePending := rp |>.
Proof.
  assert (∀ m : Node S, m = m <| replicateInFlight := replicateInFlight m |>
    <| replicatePending := replicatePending m |>) as Heta by by intros [].
  unfold appendEntriesRequestForPeer. case_match; [intros [= <- _]; eauto|].
  case_match; [intros [= <- _]; exists (replicateInFlight n), (<[p := true]> (replicatePending n)); by destruct n|].
  cbv zeta. intros Hop. apply outcome_bind_Ret in Hop as (? & _ & Hop).
  apply outcome_bind_Ret in Hop as (? & _ & Hop). injection Hop as <- _.
  exists (<[p := true]> (replicateInFlight n)), (replicatePending n). by destruct n.
Qed.

Lemma local_send A i R p n' req ok :
  Spec.inv members A → sim_server members A i R →
  appendEntriesRequestForPeer p (snode R) = Ret (n', (req, ok)) →
  ∃ A', rtc (step i) A A' ∧ sim_server members A' i (on_node n' R) ∧
    ∀ q, q ∈ option_list req → request_said A' q.
Proof.
  intros HI Hsv Hop. pose proof Hsv as [Hn Hm Ha]. set (n := snode R) in *.
  pose proof (nk_wf _ _ _ Hn) as Hwf. pose proof (nk_snap _ _ _ Hn) as Hu.
  destruct (append_request_frame _ _ _ _ Hop) as (rf & rp & Hf).
  assert (∀ A', abs A' i n (sloop R) → sim_server members A' i (on_node n' R)) as Hwrap.
  { intros A' Ha'. apply (server_node A A'); try done; [by eapply h_append_request| | | |].
    - eapply evolves_kept, evolves_appendEntriesRequestForPeer; exact Hop.
    - subst n'. by apply advances_frame.
    - by subst n'.
    - subst n'. apply (abs_same A' i n); [split; [done..|by left]|done..]. }
  destruct req as [req|].
  2:{ exists A. split_and!; [constructor|by apply Hwrap|by intros q ?%elem_of_nil]. }
  destruct (append_request_built p n n' req ok Hwf Hu (ab_next _ _ _ _ _ Ha p) Hop)
    as (Hr & Hp & HT & HpT & Hes & Hlc).
  pose proof (ab_rep _ _ _ _ _ Ha) as Hrep. rewrite leader_view in Hrep by done.
  set (prev := AppendEntriesRequest.PrevLogIndex req) in *.
  pose proof (Spec.step_send members A i _ (Z.to_nat prev) Hrep eq_refl) as Hs. simpl in Hs.
  eexists. split; [apply rtc_once, Hs; unfold zlen in Hp; lia|]. split.
  - apply Hwrap. destruct Ha. split; simpl; try done.
  - intros q ->%list_elem_of_singleton. pose proof Hwf as [_ Hci _ Hroom _].
    assert (msg_of req = Spec.mkMsg (currentTerm n) (Z.to_nat prev)
      (Spec.term_at (log n) (Z.to_nat prev)) (drop (Z.to_nat prev) (log n)) (Z.to_nat (commitIndex n))) as E.
    { unfold msg_of. fold prev. by rewrite HT, HpT, Hes, Hlc. }
    destruct Hu as (Hi & _ & _). split_and!.
    + rewrite E. by left.
    + split; fold prev; [lia|]. rewrite Hes. unfold zlen in *. rewrite length_drop. lia.
    + lia.
Qed.

(** ** The response to a request *)

Lemma finishRPC_frame p n :
  ∃ rf rp b, finishRPC p n =
    n <| replicateInFlight := rf |> <| replicatePending := rp |> <| replicateNotifyCh := b |>.
Proof.
  unfold finishRPC. cbv zeta. destruct (map_get false p _).
  - do 3 eexists. reflexivity.
  - exists (<[p:=false]> (replicateInFlight n)), (replicatePending n), (replicateNotifyCh n). by destruct n.
Qed.

Lemma stepDown_frame t n :
  ∃ st d, stepDown t n = n <| currentTerm := t |> <| votedFor := "" |> <| role := Follower |>
                           <| storage := st |> <| degraded := d |>.
Proof.
  unfold stepDown. cbv zeta. destruct (tracePersistHardState _) as [m err] eqn:E.
  destruct (with_storage_frame _ _ _ _ E) as [st ->]. unfold markDegraded. exists st.
  clear E. destruct n as [], err; simpl; repeat case_match; by eexists.
Qed.

Lemma recordProgress_frame p k n :
  ∃ mi ni, recordProgress p k n = n <| matchIndex := mi |> <| nextIndex := ni |>.
Proof.
  assert (∀ m : Node S, ∃ mi ni, m = m <| matchIndex := mi |> <| nextIndex := ni |>) as Hid.
  { intros m. exists (matchIndex m), (nextIndex m). by destruct m. }
  unfold recordProgress. cbv zeta. repeat case_match; [..|apply Hid].
  - do 2 eexists. reflexivity.
  - exists (matchIndex n), (<[p := k +! 1]> (nextIndex n)). by destruct n.
  - exists (<[p := k]> (matchIndex n)), (nextIndex n). by destruct n.
Qed.

(** Stepping down on a response of a later term. *)
Lemma abs_stepDown A i n pc t :
  Spec.inv members A → abs A i n pc → currentTerm n < t →
  ∃ A', rtc (step i) A A' ∧ abs A' i (stepDown t n) pc.
Proof.
  intros HI Ha Ht. destruct (stepDown_frame t n) as (st & d & E). rewrite E. clear E.
  edestruct (abs_follow A i n (n <| currentTerm := t |> <| votedFor := "" |> <| role := Follower |>
    <| storage := st |> <| degraded := d |>) pc pc) as (A' & Hs & Ha' & _);
    try done; [simpl; lia|simpl; lia|apply Ha|by apply (loop_follower A i n), Ha|].
  exists A'. split; [by apply rtc_once|done].
Qed.

Lemma backoffNext_max resp prev n :
  AppendEntriesResponse.ConflictIndex resp ≤ max_int64 → prev ≤ max_int64 →
  backoffNext resp prev n ≤ max_int64.
Proof.
  intros Hc Hp. unfold backoffNext, conflictNext. cbv zeta.
  pose proof (i64_range (prev - 1)) as [_ H1].
  pose proof (i64_range (lastIndexOfTerm (AppendEntriesResponse.ConflictTerm resp) n + 1)) as [_ H2].
  repeat (case_match; try lia).
Qed.

Lemma local_progress A i n pc p req k :
  abs A i n pc → req_fits req → AppendEntriesRequest.Term req = currentTerm n →
  (AppendEntriesRequest.Term req, p, Spec.m_last (msg_of req)) ∈ Spec.acks A →
  k = recordProgress p (AppendEntriesRequest.PrevLogIndex req
                        +! zlen (AppendEntriesRequest.Entries req)) n →
  abs A i k pc.
Proof.
  intros Ha [Hf1 Hf2] HT Hack ->. pose proof (zlen_nonneg (AppendEntriesRequest.Entries req)).
  i64_norm. set (m := AppendEntriesRequest.PrevLogIndex req + zlen (AppendEntriesRequest.Entries req)) in *.
  destruct (recordProgress_spec p m n) as (H1 & H2 & H3); [lia|lia|].
  destruct (recordProgress_frame p m n) as (mi & ni & E). rewrite E in *. clear E.
  apply (abs_alike A i n); [split; [done..|by left]| |done].
  pose proof (abs_progress _ _ _ _ Ha) as [Hm Hn]. split.
  - intros Hr q Hq. destruct (decide (q = p)) as [->|Hne].
    + rewrite H1. destruct (Z.max_spec m (map_get 0 p (matchIndex n))) as [[? ->]|[? ->]]; [by apply Hm|].
      right. exists (Spec.m_last (msg_of req)). split; [|rewrite HT in Hack; exact Hack].
      unfold Spec.m_last. simpl. unfold m, zlen. lia.
    + destruct (H3 q Hne) as [-> _]. by apply Hm.
  - intros q. destruct (decide (q = p)) as [->|Hne].
    + rewrite H2. specialize (Hn p). lia.
    + destruct (H3 q Hne) as [_ ->]. apply Hn.
Qed.

Lemma local_on_response A i R now p req resp m :
  Spec.inv members A → sim_server members A i R → req_fits req → answer_said A p req resp →
  onAppendResponse now p req resp (snode R) = Ret m →
  uncompacted m ∧ ∃ A', rtc (step i) A A' ∧ abs A' i m (sloop R).
Proof.
  intros HI [Hn Hm Ha] Hfit [Hci Hack]. set (n := snode R) in *.
  pose proof (nk_wf _ _ _ Hn) as Hwf. pose proof (nk_snap _ _ _ Hn) as Hu.
  unfold onAppendResponse. destruct (Z.ltb_spec (currentTerm n) (AppendEntriesResponse.Term resp)).
  { intros [= <-]. split; [|by apply abs_stepDown].
    destruct (stepDown_frame (AppendEntriesResponse.Term resp) n) as (? & ? & ->). apply Hu. }
  assert (uncompacted n ∧ ∃ A', rtc (step i) A A' ∧ abs A' i n (sloop R)) as Hsame.
  { split; [done|]. exists A. by split; [constructor|]. }
  unfold role_eqb. case_bool_decide as Hr; simpl; [|by intros [= <-]].
  destruct (Z.eqb_spec (AppendEntriesRequest.Term req) (currentTerm n)) as [HT|HT]; simpl; [|by intros [= <-]].
  destruct (AppendEntriesResponse.Success resp) eqn:Hs; simpl.
  2:{ intros [= <-]. split; [apply Hu|]. exists A. split; [constructor|].
      apply (abs_alike A i n); [split; [done..|by left]| |done].
      pose proof (abs_progress _ _ _ _ Ha) as [H1 H2]. split; [done|]. intros q. simpl.
      destruct (decide (q = p)) as [->|]; [rewrite map_get_insert|by rewrite map_get_insert_ne].
      by apply backoffNext_max. }
  set (match_ := _ +! _). set (k := recordProgress p match_ n).
  pose proof (local_progress A i n (sloop R) p req k Ha Hfit HT (Hack eq_refl) eq_refl) as Hak.
  assert (wf k ∧ uncompacted k ∧ role k = Leader ∧ commitIndex k = commitIndex n ∧ log k = log n ∧
          id k = id n ∧ peers k = peers n ∧ config k = config n) as (Hwfk & Huk & Hrk & Hck & Hlk & Hik & Hpk & Hcfk).
  { destruct (recordProgress_frame p match_ n) as (mi & ni & E). subst k. rewrite E.
    split; [by apply (wf_same n)|]. by split_and!. }
  clearbody k. destruct (advanceCommitIndex_spec now k Hwfk) as (k2 & b & -> & Hpost).
  cbn [mbind outcome_bind]. intros [= <-].
  pose proof Huk as (Hi0 & _ & _). pose proof Hwf as [_ Hcn _ _ _]. destruct Hu as (Hin & _).
  assert (∀ x y : Node S, (∃ a r, y = x <| applyNotifyCh := a |> <| replicateNotifyCh := r |>) →
    (uncompacted x ∧ ∃ A', rtc (step i) A A' ∧ abs A' i x (sloop R)) →
    uncompacted y ∧ ∃ A', rtc (step i) A A' ∧ abs A' i y (sloop R)) as Hnotify.
  { intros x y (a & r & ->) (Hux & A' & Hs' & Hax). split; [apply Hux|]. exists A'. split; [done|].
    apply (abs_same A' i x); [split; [done..|by left]|done..]. }
  apply (Hnotify k2).
  { destruct b; case_bool_decide; [exists true, (replicateNotifyCh k2)|exists true, true|
      exists (applyNotifyCh k2), (replicateNotifyCh k2)|exists (applyNotifyCh k2), true];
      by destruct k2. }
  destruct Hpost as [(-> & _)|(c & st & Hc & Hcm & _ & Hk2)].
  { split; [done|]. exists A. by split; [constructor|]. }
  split; [destruct Hk2 as [[_ ->]|[_ ->]]; apply Huk|].
  destruct (abs_commit A i k (sloop R) c HI Hak Hrk (nk_member _ _ _ Hn)) as (A' & Hs' & Ha');
    [by rewrite Hik; apply Hn|by rewrite Hpk; apply Hn|by rewrite Hcfk; apply (proj1 (nk_cfg _ _ _ Hn))|
     done|lia|lia|done|].
  exists A'. split; [by apply rtc_once|]. apply Ha'; by destruct Hk2 as [[_ ->]|[_ ->]].
Qed.

Lemma local_append_response A i R p now req resp n' :
  Spec.inv members A → sim_server members A i R → request_said A req →
  answer_said A p req resp →
  onAppendResponse now p req resp (snode R) = Ret n' →
  ∃ A', rtc (step i) A A' ∧ sim_server members A' i (on_node n' R).
Proof.
  intros HI Hsv (_ & Hfit & _) Hresp Hop. pose proof Hsv as [Hn Hm Ha].
  assert (uncompacted n' ∧ ∃ A', rtc (step i) A A' ∧ abs A' i n' (sloop R))
    as (Hu & A' & Hs & Ha') by by eapply local_on_response.
  exists A'. split; [done|].
  apply (server_node A A'); try done; [by eapply h_append_response| |].
  - by eapply evolves_kept, evolves_onAppendResponse.
  - by eapply advances_onAppendResponse; [apply Hn|].
Qed.

(** The deferred cleanup of an outgoing request is no step of the protocol. *)
Lemma local_append_finish A i R p :
  Spec.inv members A → sim_server members A i R →
  sim_server members A i (on_node (finishRPC p (snode R)) R).
Proof.
  intros HI Hsv. pose proof Hsv as [Hn Hm Ha]. destruct (finishRPC_frame p (snode R)) as (rf & rp & b & E).
  apply (server_node A A); try done; [by apply h_append_finish| | | |].
  - apply evolves_kept, evolves_finishRPC.
  - apply advances_finishRPC.
  - rewrite E. apply Hn.
  - rewrite E. apply (abs_same A i (snode R)); [split; [done..|by left]|done..].
Qed.
End simulation.
