(* ===== verification/SimElection.v ===== *)
(** * SimElection: elections, the apply loop and restarts as protocol steps

    The rest of the simulation: the sections of the role loop, the vote
    responses, the apply loop, and a crash followed by [NewNode]. *)

From S2P Require Import Prelude Types Storage Timing Node Handlers Replication.
From S2P Require Import LogSpec AppendSpec AppendProtocol CommitSpec CatchUp.
From S2P Require Import ApplyLoop Recovery Replica Delivery VoteSafety Cluster.
From S2P Require Import Durability RaftSpec Network Refinement Simulation.
Open Scope Z_scope.

Section simulation.
Context {S : Type} {HS : Storage S} {HC : StorageContract S} {HR : ReliableStorage S}.
Context (members : gset string).
Implicit Types (n : Node S) (R : Server S) (A : Spec.state) (i v p : string) (pc : loop_pc).

Notation step i := (Spec.step members i).
Notation abs A i n pc := (abs (S := S) members A i n pc).

(** ** Sections that do not step *)

(** A handler that changes nothing the protocol sees. *)
Lemma local_frame A i R n' pc' :
  sim_server members A i R → handler (snode R) n' → evolves (N members) (snode R) n' →
  advances (snode R) n' → uncompacted n' → alike (snode R) n' →
  matchIndex n' = matchIndex (snode R) → nextIndex n' = nextIndex (snode R) →
  loop_ok members A i (snode R) pc' →
  sim_server members A i (at_loop pc' n' R).
Proof.
  intros Hsv Hh He Ha Hu Hal Hm Hn Hl. pose proof Hsv as [_ _ Hab].
  apply (server_node members A A); try done; [by apply evolves_kept|].
  by apply (abs_same members A i (snode R)), (abs_loop members A i _ (sloop R)).
Qed.

Lemma local_snapshot_round A i R p n' r :
  sim_server members A i R → installSnapshotRequestForPeer p (snode R) = Ret (n', r) →
  sim_server members A i (on_node n' R).
Proof.
  intros Hsv. pose proof (nk_snap _ _ _ (ss_node _ _ _ _ Hsv)) as (Hi & _ & _).
  unfold installSnapshotRequestForPeer. rewrite Hi. simpl.
  case_match; intros [= <- _]; by rewrite on_node_same.
Qed.

Lemma local_run A i R :
  sim_server members A i R → sim_server members A i (on_node (notifyApply (snode R)) R).
Proof.
  intros Hsv. pose proof Hsv as [Hn _ Ha].
  by apply local_frame; [done|apply h_run|by apply evolves_frame|by apply advances_frame|
    apply Hn|split; [done..|by left]|done|done|apply Ha].
Qed.

Lemma local_reset A i R :
  sim_server members A i R → sim_server members A i (on_node (onElectionReset (snode R)) R).
Proof.
  intros Hsv. pose proof Hsv as [Hn _ Ha].
  by apply local_frame; [done|apply h_reset|by apply evolves_frame|by apply advances_frame|
    apply Hn|split; [done..|by left]|done|done|apply Ha].
Qed.

(** The role loop moves on, the node as it was. *)
Lemma local_loop A i R pc' :
  sim_server members A i R → loop_ok members A i (snode R) pc' →
  sim_server members A i (at_loop pc' (snode R) R).
Proof.
  intros [Hn Hm Ha] Hl. split; [done| |by apply (abs_loop members A i _ (sloop R))].
  destruct R as [? [? ? ?]]. exact Hm.
Qed.

Lemma local_dispatch A i R :
  sim_server members A i R → sim_server members A i (at_loop (dispatch (snode R)) (snode R) R).
Proof. intros Hsv. apply local_loop; [done|]. unfold dispatch. by destruct (role (snode R)) eqn:E; simpl; rewrite ?E. Qed.

(** A role that does not lead, with the rest as it was. *)
Lemma abs_unled A i n n' pc pc' :
  abs A i n pc → role n ≠ Leader → role n' ≠ Leader → currentTerm n' = currentTerm n →
  log n' = log n → commitIndex n' = commitIndex n → votedFor n' = votedFor n →
  nextIndex n' = nextIndex n → loop_ok members A i n' pc' → abs A i n' pc'.
Proof.
  intros [] Hr Hr' Ht Hl Hc Hv Hn Hlo. split; rewrite ?Ht, ?Hv, ?Hn; try done.
  unfold view, role_eqb in *. rewrite bool_decide_eq_false_2 in * by done. by rewrite Ht, Hl, Hc.
Qed.

Lemma local_timeout A i R :
  sim_server members A i R → sloop R = AtFollower →
  sim_server members A i (at_loop Dispatch (onElectionTimeout (snode R)) R).
Proof.
  intros Hsv Hpc. pose proof Hsv as [Hn _ Ha]. pose proof (ab_loop _ _ _ _ _ Ha) as Hl.
  rewrite Hpc in Hl. simpl in Hl.
  apply (server_node members A A); try done; [apply h_timeout|apply Hn|].
  by apply (abs_unled A i (snode R) _ (sloop R)).
Qed.

(** ** The apply loop *)

(** The apply loop changes the apply state only. *)
Record apply_frame n n' : Prop := {
  af_id : id n' = id n; af_peers : peers n' = peers n; af_storage : storage n' = storage n;
  af_role : role n' = role n; af_term : currentTerm n' = currentTerm n;
  af_vote : votedFor n' = votedFor n; af_log : log n' = log n;
  af_commit : commitIndex n' = commitIndex n; af_index : snapshotIndex n' = snapshotIndex n;
  af_sterm : snapshotTerm n' = snapshotTerm n; af_snap : snapshot n' = snapshot n;
  af_config : config n' = config n; af_match : matchIndex n' = matchIndex n;
  af_next : nextIndex n' = nextIndex n }.

Lemma noteApplied_apply now n n' : apply_frame n n' → apply_frame n (noteApplied now n').
Proof. intros []. destruct (noteApplied_frame now n') as (cs & ss & ->). by split. Qed.

Lemma applyStep_frame ev now (pc pc' : apply_pc) n n' msg :
  applyStep ev now pc n = Ret (pc', n', msg) → apply_frame n n'.
Proof.
  intros Hop. destruct pc; simpl in Hop.
  - destruct ev; [case_match|]; injection Hop as <- <- <-; by split.
  - case_match; injection Hop as <- <- <-; by split.
  - destruct ev; injection Hop as <- <- <-; by split.
  - injection Hop as <- <- <-. apply noteApplied_apply. case_match; by split.
  - destruct (takeEntry n) as [[pc1 n1]|] eqn:E; [|done]. injection Hop as <- <- <-.
    apply takeEntry_frame in E as [[-> _]|(e & -> & _)]; by split.
  - destruct ev; injection Hop as <- <- <-; by split.
  - injection Hop as <- <- <-. by apply noteApplied_apply.
  - injection Hop as <- <- <-. by split.
Qed.

Lemma delivered_positive l k :
  delivered 0 l k → 0 ≤ k ∧ ∀ msg, msg ∈ l → ApplyMsg.CommandValid msg = true → 0 < ApplyMsg.CommandIndex msg.
Proof.
  intros Hd. induction Hd as [|l k cmd _ [Hk IH]|l k data idx _ [Hk IH] Hi]; (split; [lia|]).
  - by intros msg ?%elem_of_nil.
  - intros msg [?| ->%list_elem_of_singleton]%elem_of_app Hv; [by apply IH|simpl; lia].
  - intros msg [?| ->%list_elem_of_singleton]%elem_of_app Hv; [by apply IH|done].
Qed.

(** What was sent to the state machine is committed. *)
Lemma machine_applied A i n pc apc l msg :
  Spec.inv members A → abs A i n pc → uncompacted n → wf n → minv 0 (mkMachine apc n l) →
  msg ∈ l → applied_ok members A msg.
Proof.
  intros HI Ha Hu Hwf [_ _ (k & Hd & _) _ Hc] Hin Hv. simpl in *.
  destruct (Hc msg Hin Hv) as [Hle Hcmd]. apply delivered_positive in Hd as [_ Hpos].
  specialize (Hpos msg Hin Hv). set (j := ApplyMsg.CommandIndex msg) in *.
  pose proof Hwf as [_ Hcl _ _ _]. destruct Hu as (Hi & Hu2 & Hu3). rewrite Hi in Hcl.
  destruct (lookup_lt_is_Some_2 (log n) (Z.to_nat (j - 1))) as [e He]; [unfold zlen in *; lia|].
  pose proof (entry_at_uncompacted n (Z.to_nat (j - 1)) (conj Hi (conj Hu2 Hu3))) as Hat.
  replace (Z.of_nat (Z.to_nat (j - 1)) + 1) with j in Hat by lia. rewrite He in Hat.
  pose proof (Spec.inv_reps _ _ HI _ _ (ab_rep _ _ _ _ _ Ha)) as [_ _ _ _ _ [Hz|Hcm]]; simpl in *; [lia|].
  destruct Hcm as (t & q & G & Hcom & Hq & Ht & HG & Hag). exists t, q, G, e.
  split_and!; try done; [lia| |by apply Hcmd].
  rewrite <- (Spec.agree_lookup _ _ _ _ Hag) by lia. done.
Qed.

Lemma local_apply A i R ev now (pc' : apply_pc) n' msg :
  Spec.inv members A → sim_server members A i R →
  applyStep ev now (mpc (smachine R)) (snode R) = Ret (pc', n', msg) →
  sim_server members A i
    (mkServer (sloop R) (mkMachine pc' n' (Delivery.sent (smachine R) ++ option_list msg))) ∧
  ∀ m, m ∈ option_list msg → applied_ok members A m.
Proof.
  intros HI [Hn Hm Ha] Hop. destruct R as [lpc [apc n l]].
  unfold snode in *. simpl in *.
  pose proof (minv_apply 0 ev now apc n l pc' n' msg Hop Hm) as Hm'.
  destruct (applyStep_frame _ _ _ _ _ _ _ Hop).
  assert (node_ok members i n') as Hn'.
  { pose proof (mi_wf _ _ Hm') as Hwf'. simpl in Hwf'. destruct Hn. split; try congruence.
    - unfold uncompacted in *. by rewrite af_index0, af_sterm0, af_snap0.
    - unfold cfg_inv in *. by rewrite af_config0, af_storage0.
    - by eapply synced_same; [split|].
    - intros d Hd. unfold disk_of in Hd. rewrite af_storage0 in Hd. rewrite af_commit0. by apply nk_saved. }
  assert (abs A i n' lpc) as Ha'.
  { apply (abs_same members A i n); [split; [done..|by left]|done..]. }
  split; [done|]. intros m Hin.
  eapply machine_applied; [done|exact Ha'|apply Hn'|apply Hn'|exact Hm'|]. apply elem_of_app. by right.
Qed.

(** ** Starting a campaign *)

Lemma startCampaign_reliable n n' c :
  startCampaign n = (n', c) →
  ∃ st, n' = n <| currentTerm := currentTerm n +! 1 |> <| votedFor := id n |> <| storage := st |> ∧
    c = Some (Campaign.mk (currentTerm n +! 1) (lastLogIndex n) (lastLogTerm n) 1 (quorumSize n)).
Proof.
  unfold startCampaign. cbv zeta. destruct (tracePersistHardState _) as [m err] eqn:E.
  destruct (with_storage_frame _ _ _ _ E) as [st ->].
  apply with_storage_reliable in E as ->; [|intros; apply reliable_hard].
  intros [= <- <-]. by exists st.
Qed.

Lemma local_campaign A i R n' c :
  "" ∉ members → Spec.inv members A → sim_server members A i R → sloop R = AtCandidate →
  currentTerm (snode R) < max_int64 → startCampaign (snode R) = (n', c) →
  ∃ A', rtc (step i) A A' ∧
    sim_server members A' i
      (at_loop (match c with Some c => InCampaign c ∅ ∅ | None => Dispatch end) n' R).
Proof.
  intros Hempty HI Hsv Hpc Hlt Hop. pose proof Hsv as [Hn _ Ha]. set (n := snode R) in *.
  pose proof (ab_loop _ _ _ _ _ Ha) as Hr. rewrite Hpc in Hr. simpl in Hr.
  pose proof (nk_term _ _ _ Hn) as Hpos. pose proof (nk_id _ _ _ Hn) as Hid.
  destruct (startCampaign_reliable _ _ _ Hop) as (st & E & ->).
  assert (in_i64 (currentTerm n)) as Hin by (unfold in_i64; lia).
  destruct (evolves_startCampaign (N members) n n' (Some _) Hlt Hin Hr Hop) as (Hev & _).
  revert E. i64_norm. intros E. set (c := Campaign.mk _ _ _ _ _) in *.
  assert (i ≠ "") as Hi by (pose proof (nk_member _ _ _ Hn); congruence).
  destruct (abs_follow members A i n n' (sloop R) Dispatch HI Ha) as (A1 & Hs1 & Ha1 & _ & HL1 & _);
    try (subst n'; done); [subst n'; simpl; lia..|subst n'; apply Ha|].
  destruct (abs_vote members A1 i n' Dispatch i (lastLogTerm n) (Z.to_nat (lastLogIndex n)))
    as (A2 & Hs2 & Ha2 & HL2 & HV & _); try done.
  { by eapply Spec.step_inv. }
  { subst n'. exact Hid. }
  { pose proof (nk_snap _ _ _ Hn) as (Hsi & Hst & _). pose proof (nk_wf _ _ _ Hn) as [_ _ _ Hroom _].
    subst n'. right. simpl. rewrite lastLogTerm_eq, lastLogIndex_eq, Hsi by lia.
    split; [done|]. unfold zlen. lia. }
  exists A2. split; [eapply rtc_l; [exact Hs1|by apply rtc_once]|].
  apply (server_node members A A2); try done.
  - by eapply h_campaign.
  - destruct Hev. by split.
  - by eapply advances_startCampaign.
  - subst n'. apply Hn.
  - apply (abs_loop members A2 i n' Dispatch); [|done]. split; [by subst n'|].
    pose proof (nk_snap _ _ _ Hn) as (Hsi & Hst & _). pose proof (nk_wf _ _ _ Hn) as [_ _ _ Hroom _].
    split_and!; [done|apply empty_subseteq|done| | |].
    + simpl. unfold quorumSize. by rewrite (proj1 (nk_cfg _ _ _ Hn)).
    + intros _. subst n'. simpl. rewrite lastLogTerm_eq, lastLogIndex_eq, Hsi by lia.
      split_and!; [done|lia|done|done|]. rewrite HL2, HL1. intros l Hl%(ab_led _ _ _ _ _ Ha). lia.
    + intros p Hp. assert (p = i) as -> by set_solver. eexists. split; [exact HV|].
      subst n'. by split_and!.
Qed.

(** ** Counting votes *)

Lemma becomeLeader_progress n :
  (∀ p, map_get 0 p (nextIndex n) ≤ max_int64) →
  (∀ p, p ∈ peers n → map_get 0 p (matchIndex (becomeLeader n)) = 0) ∧
  (∀ p, map_get 0 p (nextIndex (becomeLeader n)) ≤ max_int64).
Proof.
  intros Hn. unfold becomeLeader. cbv zeta. set (n1 := _ <| matchIndex := _ |>).
  change (peers n1) with (peers n).
  assert (∀ p, map_get 0 p (nextIndex n1) ≤ max_int64) as Hn1.
  { intros p. simpl. destruct (decide (p = id n)) as [->|];
      [rewrite map_get_insert; apply i64_range|by rewrite map_get_insert_ne]. }
  assert (∀ ps, let k := foldr (λ peerID n,
           n <| nextIndex := <[peerID := lastLogIndex n +! 1]> (nextIndex n) |>
             <| matchIndex := <[peerID := 0]> (matchIndex n) |>) n1 ps in
    (∀ p, p ∈ ps → map_get 0 p (matchIndex k) = 0) ∧
    ∀ p, map_get 0 p (nextIndex k) ≤ max_int64) as Hfold.
  { clearbody n1. intros ps. induction ps as [|q ps [IH1 IH2]]; simpl; [by split; [intros p ?%elem_of_nil|]|].
    split; intros p.
    - intros Hp. destruct (decide (p = q)) as [->|Hne]; [by rewrite map_get_insert|].
      rewrite map_get_insert_ne by done. apply IH1. by apply elem_of_cons in Hp as [?|?].
    - destruct (decide (p = q)) as [->|Hne]; [rewrite map_get_insert; apply i64_range|].
      by rewrite map_get_insert_ne. }
  destruct (Hfold (elements (peers n))) as [H1 H2]. split; [|done].
  intros p Hp. apply H1. by apply elem_of_elements.
Qed.

(** Winning an election. *)
Lemma abs_elect A i n c re gr pc :
  Spec.inv members A → abs A i n pc → node_ok members i n → role n = Candidate →
  campaign_ok members A i n c re gr → Campaign.majority c ≤ Campaign.votes c →
  ∃ A', step i A A' ∧ abs A' i (becomeLeader n) Dispatch.
Proof.
  intros HI Ha Hn Hr (_ & Hgp & Hvo & Hmaj & Hcand & HV) Hwon.
  destruct (Hcand Hr) as (Ht & Htp & Hli & Hlt & Hled).
  set (Q := {[i]} ∪ gr : gset string).
  assert (i ∉ gr) as Hi.
  { intros Hin%Hgp. rewrite (nk_peers _ _ _ Hn) in Hin. unfold normalizePeers in Hin.
    apply elem_of_filter in Hin. naive_solver. }
  assert (Spec.quorum members Q) as HQ.
  { split.
    - intros p [->%elem_of_singleton|Hp%Hgp]%elem_of_union; [apply Hn|].
      rewrite (nk_peers _ _ _ Hn) in Hp. unfold normalizePeers in Hp. apply elem_of_filter in Hp. tauto.
    - unfold Q. rewrite size_union by set_solver. rewrite size_singleton. unfold N in *.
      pose proof (Z_div_mod_eq_full (Z.of_nat (size members)) 2).
      pose proof (Z.mod_pos_bound (Z.of_nat (size members)) 2 ltac:(lia)). lia. }
  pose proof (ab_rep _ _ _ _ _ Ha) as Hrep.
  eexists. split.
  { apply (Spec.step_elect members A i (view n) Q); simpl; try done; [lia|by rewrite Ht|].
    intros q Hq. destruct (HV q Hq) as (V & ? & ? & ? & ? & ? & ?). exists V.
    split_and!; try done; [congruence|congruence|]. unfold zlen in *. lia. }
  destruct Ha. destruct (becomeLeader_progress n ab_next) as [Hm Hnx].
  destruct (becomeLeader_fields n) as (ni & mi & E). rewrite E in *.
  split; simpl; try done.
  - by rewrite lookup_insert_eq.
  - intros _ p Hp. left. rewrite Hm by done. lia.
  - intros t l. destruct (decide (t = currentTerm n)) as [->|]; [lia|].
    rewrite lookup_insert_ne by done. apply ab_led.
Qed.

(** The campaign with one more response. *)
Lemma campaign_counted A i n c re gr p resp c1 :
  "" ∉ members → node_ok members i n → campaign_ok members A i n c re gr →
  p ∈ peers n → p ∉ re →
  (RequestVoteResponse.VoteGranted resp = true → vote_said A p (voteRequest c n)) →
  c1 = Campaign.mk (Campaign.term c) (Campaign.lastLogIndex c) (Campaign.lastLogTerm c)
         (if RequestVoteResponse.VoteGranted resp then Campaign.votes c + 1 else Campaign.votes c)
         (Campaign.majority c) →
  campaign_ok members A i n c1 ({[p]} ∪ re) (counted resp p gr).
Proof.
  intros Hempty Hn (Hsub & Hgp & Hvo & Hmaj & Hcand & HV) Hp Hre Hsaid ->.
  assert (p ∉ gr) as Hpg by set_solver.
  unfold campaign_ok. simpl. rewrite (size_counted resp p gr Hpg).
  split_and!; try done.
  - unfold counted. case_match; set_solver.
  - unfold counted. case_match; set_solver.
  - case_match; lia.
  - intros q Hq. assert (q ∈ {[i]} ∪ gr ∨ q = p ∧ RequestVoteResponse.VoteGranted resp = true) as [?|[-> Hg]].
    { unfold counted in Hq. case_match; set_solver. }
    { by apply HV. }
    destruct (Hsaid Hg) as (V & ? & ? & ? & Hc & ? & ?).
    { simpl. rewrite (nk_id _ _ _ Hn). pose proof (nk_member _ _ _ Hn). congruence. }
    exists V. split_and!; try done. rewrite Hc. simpl. apply Hn.
Qed.

Lemma local_vote_response A i R c re gr p resp n' c' :
  "" ∉ members → Spec.inv members A → sim_server members A i R → sloop R = InCampaign c re gr →
  p ∈ peers (snode R) → p ∉ re →
  (RequestVoteResponse.VoteGranted resp = true → vote_said A p (voteRequest c (snode R))) →
  onVoteResponse resp c (snode R) = (n', c') →
  ∃ A', rtc (step i) A A' ∧
    sim_server members A' i
      (at_loop (match c' with
                | Some c1 => InCampaign c1 ({[p]} ∪ re) (counted resp p gr)
                | None => Dispatch
                end) n' R).
Proof.
  intros Hempty HI Hsv Hpc Hp Hre Hsaid Hop. pose proof Hsv as [Hn _ Ha]. set (n := snode R) in *.
  pose proof (ab_loop _ _ _ _ _ Ha) as Hl. rewrite Hpc in Hl. destruct Hl as [Hnl Hc].
  assert (∃ A', rtc (step i) A A' ∧ abs A' i n' (match c' with
      | Some c1 => InCampaign c1 ({[p]} ∪ re) (counted resp p gr) | None => Dispatch end))
    as (A' & Hs & Ha').
  { revert Hop. unfold onVoteResponse.
    destruct (Z.ltb_spec (currentTerm n) (RequestVoteResponse.Term resp)) as [Ht|_].
    { pose proof (abs_stepDown members A i n Dispatch _ HI (abs_loop members A i n _ Dispatch I Ha) Ht) as Hd.
      unfold stepDown in Hd. cbv zeta in *. destruct (tracePersistHardState _) as [m err].
      by intros [= <- <-]. }
    unfold role_eqb. case_bool_decide as Hr; simpl.
    2:{ intros [= <- <-]. exists A. split; [constructor|]. by apply (abs_loop members A i n (sloop R)). }
    pose proof (campaign_counted A i n c re gr p resp _ Hempty Hn Hc Hp Hre Hsaid eq_refl) as Hc1.
    cbv zeta. match goal with |- context [_ <=? ?x] => destruct (Z.leb_spec (Campaign.majority c) x) end;
      intros [= <- <-].
    - edestruct (abs_elect A i n) as (A' & Hs' & Ha'); [done|exact Ha|done|done|exact Hc1|simpl; done|].
      exists A'. split; [by apply rtc_once|done].
    - exists A. split; [constructor|]. by apply (abs_loop members A i n (sloop R)). }
  exists A'. split; [done|]. apply (server_node members A A'); try done.
  - by eapply h_vote_response.
  - destruct (evolves_onVoteResponse (N members) resp c n n' c' Hop) as [[He _]|(-> & _)];
      [by apply evolves_kept|]. destruct (becomeLeader_fields n) as (? & ? & ->). split; try done.
  - by eapply advances_onVoteResponse.
  - eapply uncompacted_quiet; [by eapply quiet_onVoteResponse|apply Hn].
Qed.

(** ** NewNode *)

Lemma NewNode_nextIndex i ps s n :
  NewNode i ps (Some s) true = Ret (Val n) → nextIndex n = ∅.
Proof.
  unfold NewNode. simpl. rewrite contract_load. intros Hop.
  apply outcome_bind_Ret in Hop as (m & Hm & [= <-]).
  unfold restore_log in Hm. apply outcome_bind_Ret in Hm as (t & _ & [= <-]).
  unfold clamp_commit, restore_snapshot, restore_config. by repeat case_match.
Qed.

(** A node rebuilt from the disk of [n]. *)
Lemma restarted_node i n s n' :
  i ∈ members → wf n → uncompacted n → recorded (contents s) n →
  disk_cfg_ok (N members) (contents s) → 0 ≤ currentTerm n →
  HardState.CommitIndex (PersistentState.Hard (contents s)) ≤ commitIndex n →
  NewNode i members (Some s) true = Ret (Val n') →
  node_ok members i n' ∧ minv 0 (mkMachine AwaitNotify n' []) ∧
  currentTerm n' = currentTerm n ∧ votedFor n' = votedFor n ∧ log n' = log n ∧
  commitIndex n' ≤ commitIndex n ∧ role n' = Follower ∧ nextIndex n' = ∅.
Proof.
  intros Hi Hwf (Hsi & Hst & Hsn) Hrec Hcfg Hpos Hsaved Hop.
  destruct (NewNode_restarted i members s n Hwf Hrec) as (n1 & E & Hre & Hs & Hc).
  rewrite Hop in E. injection E as <-. destruct Hre as [Ht Hv Hl Hidx Hstm Hsnp Hr Hd Hfresh].
  destruct (NewNode_spec members i s n' Hop) as (Hid & Hp & _).
  unfold recovered_commit in Hc. rewrite Hsn, Hsi in Hc.
  destruct Hrec as ([Hdt Hdv] & Hds & _ & Hdb & Hdl).
  pose proof Hwf as [_ Hci _ _ _]. pose proof Hfresh as (Hwf' & Hok' & Ha & _).
  split_and!; try done; [|..|lia|by eapply NewNode_nextIndex].
  - split; try done.
    + split_and!; congruence.
    + by eapply NewNode_cfg.
    + exists (contents s). unfold disk_of, log_synced, hard_synced. rewrite Hs. simpl.
      assert (PersistentState.LogBase (contents s) = 0) as Hb by lia.
      rewrite Hsi, Hb in Hdl. rewrite drop_0 in Hdl. split_and!; congruence.
    + intros d Hd'. unfold disk_of in Hd'. rewrite Hs in Hd'. injection Hd' as <-. lia.
    + lia.
  - assert (lastApplied n' = 0) as E by congruence.
    pose proof (minv_fresh n' Hfresh) as Hm. by rewrite E in Hm.
Qed.

Lemma local_restart A i R n' :
  Spec.inv members A → sim_server members A i R →
  NewNode i members (storage (snode R)) true = Ret (Val n') →
  ∃ A', rtc (step i) A A' ∧
    sim_server members A' i (mkServer Dispatch (mkMachine AwaitNotify n' [])).
Proof.
  intros HI Hsv Hop. pose proof Hsv as [Hn _ Ha]. set (n := snode R) in *.
  destruct (nk_storage _ _ _ Hn) as [s Hs]. rewrite Hs in Hop.
  destruct (nk_synced _ _ _ Hn) as (d & Hd & Hl & Hh). unfold disk_of in Hd. rewrite Hs in Hd.
  injection Hd as <-. pose proof (nk_snap _ _ _ Hn) as Hu.
  destruct (restarted_node i n s n') as (Hn' & Hm & Ht & Hv & Hlog & Hc & Hr & Hnx); try done; try apply Hn.
  - apply synced_recorded; try done; [apply Hn|]. destruct Hu as (? & ? & E). unfold snapshot_ok. by rewrite E.
  - done.
  - unfold disk_of. by rewrite Hs.
  - destruct (abs_follow members A i n n' (sloop R) Dispatch HI Ha) as (A' & Hs' & Ha' & _);
      try done; try lia; [by rewrite Hr| | |intros p; by rewrite Hnx|].
    + by rewrite (nk_peers _ _ _ Hn'), (nk_peers _ _ _ Hn).
    + intros _. by left.
    + exists A'. split; [by apply rtc_once|done].
Qed.
End simulation.
