(* ===== verification/RaftSafety.v ===== *)
(** * RaftSafety: the replicated log is one log

    The refinement of the protocol by the network of replicas, and what it
    gives: log matching, leader completeness and state machine safety, across
    elections, replication, crashes and restarts. *)

From S2P Require Import Prelude Types Storage Timing Node Handlers Replication.
From S2P Require Import LogSpec AppendSpec AppendProtocol CommitSpec CatchUp.
From S2P Require Import ApplyLoop Recovery Replica Delivery VoteSafety Cluster.
From S2P Require Import Durability RaftSpec Network Refinement Simulation SimElection.
Open Scope Z_scope.

Section safety.
Context {S : Type} {HS : Storage S} {HC : StorageContract S} {HR : ReliableStorage S}.
Context (members : gset string).
Implicit Types (n : Node S) (R : Server S) (W : Network S) (A : Spec.state) (i v p : string).

Notation sim := (sim (S := S) members).

(** ** The start *)

Definition spec_of W : Spec.state :=
  Spec.mkState ((λ R, view (snode R)) <$> servers W) [] ∅ [] [].

Lemma blank_node_recorded i s :
  blank_disk members (contents s) →
  let n := blank_node i members s in
  wf n ∧ uncompacted n ∧ recorded (contents s) n ∧ disk_cfg_ok (N members) (contents s).
Proof.
  intros (Ht & Hv & _ & Hcfg & Hb & Hs & Hl) n.
  assert (disk_cfg_ok (N members) (contents s)) as Hd by (split; [done|by rewrite Hs]).
  assert (wf n) as Hwf by (split; unfold zlen; simpl; try done; lia).
  split; [done|]. split; [done|]. split; [|done].
  unfold recorded, snapshot_ok. rewrite Hb, Hs, Hl. by split_and!.
Qed.

Lemma initial_node i s n :
  i ∈ members → blank_disk members (contents s) → NewNode i members (Some s) true = Ret (Val n) →
  node_ok members i n ∧ minv 0 (mkMachine AwaitNotify n []) ∧
  view n = Spec.mkRep (currentTerm n) false [] 0 ∧ currentTerm n = 0 ∧ nextIndex n = ∅ ∧ role n = Follower.
Proof.
  intros Hi Hb Hop. destruct (blank_node_recorded i s Hb) as (Hwf & Hu & Hrec & Hcfg).
  destruct (restarted_node members i (blank_node i members s) s n)
    as (Hn & Hm & Ht & Hv & Hlog & Hc & Hr & Hnx); try done.
  { destruct Hb as (_ & _ & Hc & _). simpl. lia. }
  split_and!; try done. unfold view. rewrite Hlog, Hr. f_equal.
  pose proof (wf_commit _ (nk_wf _ _ _ Hn)). pose proof (nk_snap _ _ _ Hn) as (? & _). simpl in Hc. lia.
Qed.

Lemma sim_initial W :
  net_initial members W → Spec.initial members (spec_of W) ∧ sim W (spec_of W).
Proof.
  intros (HRs & Hv & Hq & Ha & Hap).
  assert (Spec.initial members (spec_of W)) as Hinit.
  { split; [|done]. intros i r Hr. simpl in Hr. rewrite lookup_fmap in Hr.
    apply fmap_Some in Hr as (R & HR' & ->).
    destruct (HRs i R HR') as (Hi & s & n & Hb & Hop & ->).
    destruct (initial_node i s n Hi Hb Hop) as (_ & _ & E & _). change (view (snode _)) with (view n). by rewrite E. }
  split; [done|]. split; rewrite ?Hv, ?Hq, ?Ha, ?Hap; try (by intros; set_solver).
  - exists (spec_of W). split; [done|constructor].
  - intros i R HR'. destruct (HRs i R HR') as (Hi & s & n & Hb & Hop & ->).
    destruct (initial_node i s n Hi Hb Hop) as (Hn & Hm & _ & _ & Hnx & Hr). split; [done|done|].
    unfold snode. simpl. split; simpl; try done.
    + rewrite lookup_fmap, HR'. done.
    + by intros V ?%elem_of_nil.
    + by rewrite Hr.
    + intros p. by rewrite Hnx.
Qed.

(** ** A step *)

(** Nothing new was said. *)
Ltac nothing := by intros; match goal with H : _ ∈ [] |- _ => apply elem_of_nil in H end.

Lemma sim_step W W' A :
  "" ∉ members → sim W A → net_step members W W' →
  ∃ A', Spec.steps members A A' ∧ sim W' A'.
Proof.
  intros Hempty Hsim Hstep. pose proof (sm_reach _ _ _ Hsim) as Hreach.
  pose proof (Spec.reachable_inv _ _ Hreach) as HI. pose proof (sm_servers _ _ _ Hsim) as Hss.
  assert (∀ A' i R' vr ar aa ap, rtc (Spec.step members i) A A' → sim_server members A' i R' →
    (∀ w req resp, (w, req, resp) ∈ vr → RequestVoteResponse.VoteGranted resp = true → vote_said A' w req) →
    (∀ req, req ∈ ar → request_said A' req) →
    (∀ w req resp, (w, req, resp) ∈ aa → answer_said A' w req resp) →
    (∀ w msg, (w, msg) ∈ ap → applied_ok members A' msg) →
    ∃ A', Spec.steps members A A' ∧ sim (mkNetwork (<[i := R']> (servers W)) (vr ++ voteResps W)
      (ar ++ appendReqs W) (aa ++ appendResps W) (ap ++ applied W)) A') as Hup.
  { intros A' i R' vr ar aa ap Hs HR' H1 H2 H3 H4. exists A'.
    destruct (sim_update members W A A' i R' vr ar aa ap); auto. }
  assert (∀ A' i R', rtc (Spec.step members i) A A' → sim_server members A' i R' →
    ∃ A', Spec.steps members A A' ∧ sim (set_server i R' W) A') as Hset.
  { intros A' i R' Hs HR'. apply (Hup A' i R' [] [] [] [] Hs HR'); nothing. }
  destruct Hstep as [W v R req n' r HvR Hop|W v R now req n' r HvR Hin Hop|W i R now cmd n' r HiR Hroom Hop
    |W i R p n' req ok HiR Hop|W i R p n' r HiR Hop|W i R p now req resp n' HiR Hin Hresp Hop|W i R p HiR
    |W i R ev now pc' n' msg HiR Hop|W i R HiR|W i R HiR|W i R HiR Hpc Hd|W i R HiR Hpc
    |W i R n' c HiR Hpc Hlt Hop|W i R c re gr p resp n' c' HiR Hpc Hp Hre Hin Hop
    |W i R c re gr HiR Hpc|W i R HiR Hpc Hr|W i R n' HiR Hop].
  - destruct (local_vote_request members A v R req n' r HI (Hss v R HvR) Hop) as (A' & Hs & HR' & Hgr).
    apply (Hup A' v _ (returned v req r) [] [] []); try done; try nothing.
    intros w q resp Hw Hg. destruct r as [resp'|]; simpl in Hw; [|set_solver].
    apply list_elem_of_singleton in Hw. injection Hw as -> -> ->. by eapply Hgr.
  - destruct (local_append members A v R now req n' r HI (Hss v R HvR) (sm_reqs _ _ _ Hsim req Hin) Hop)
      as (A' & Hs & HR' & Hans).
    apply (Hup A' v _ [] [] (append_returned v req r) []); try done; try nothing.
    intros w q resp Hw. destruct r as [resp'|]; simpl in Hw; [|set_solver].
    apply list_elem_of_singleton in Hw. injection Hw as -> -> ->. by apply Hans.
  - destruct (local_start members A i R now cmd n' r HI (Hss i R HiR) Hroom Hop) as (A' & Hs & HR').
    by apply (Hset A').
  - destruct (local_send members A i R p n' req ok HI (Hss i R HiR) Hop) as (A' & Hs & HR' & Hq).
    apply (Hup A' i _ [] (option_list req) [] []); try done; intros; set_solver.
  - apply (Hset A); [constructor|]. by eapply local_snapshot_round; [apply Hss|].
  - destruct (local_append_response members A i R p now req resp n' HI (Hss i R HiR)
      (sm_reqs _ _ _ Hsim req Hin) (sm_resps _ _ _ Hsim p req resp Hresp) Hop) as (A' & Hs & HR').
    by apply (Hset A').
  - apply (Hset A); [constructor|]. by apply local_append_finish, Hss.
  - destruct (local_apply members A i R ev now pc' n' msg HI (Hss i R HiR) Hop) as [HR' Hap].
    apply (Hup A i _ [] [] [] ((λ m, (i, m)) <$> option_list msg));
      try done; intros; set_solver.
  - apply (Hset A); [constructor|]. by apply local_run, Hss.
  - apply (Hset A); [constructor|]. by apply local_reset, Hss.
  - apply (Hset A); [constructor|]. by apply local_dispatch, Hss.
  - apply (Hset A); [constructor|]. by apply local_timeout, Hpc; apply Hss.
  - destruct (local_campaign members A i R n' c Hempty HI (Hss i R HiR) Hpc Hlt Hop) as (A' & Hs & HR').
    by apply (Hset A').
  - destruct (local_vote_response members A i R c re gr p resp n' c' Hempty HI (Hss i R HiR) Hpc Hp Hre)
      as (A' & Hs & HR'); [|done|by apply (Hset A')].
    intros Hg. by eapply sm_votes.
  - apply (Hset A); [constructor|]. by apply local_loop; [apply Hss|].
  - apply (Hset A); [constructor|]. by apply local_loop; [apply Hss|].
  - destruct (local_restart members A i R n' HI (Hss i R HiR) Hop) as (A' & Hs & HR').
    by apply (Hset A').
Qed.

Lemma sim_reachable W :
  "" ∉ members → net_reachable members W → ∃ A, Spec.inv members A ∧ sim W A.
Proof.
  intros Hempty (W0 & Hinit & Hsteps). apply sim_initial in Hinit as [_ Hsim].
  assert (∃ A, sim W A) as [A HA].
  { revert Hsim. generalize (spec_of W0). induction Hsteps as [W|W1 W2 W3 H12 _ IH]; [by eauto|].
    intros A HA. destruct (sim_step W1 W2 A Hempty HA H12) as (A' & _ & HA'). by apply (IH A'). }
  exists A. split; [|done]. by apply Spec.reachable_inv, (sm_reach _ _ _ HA).
Qed.

Lemma sim_view W A i R :
  sim W A → servers W !! i = Some R → Spec.reps A !! i = Some (view (snode R)).
Proof. intros Hsim HR'. apply (ab_rep _ _ _ _ _ (ss_abs _ _ _ _ (sm_servers _ _ _ Hsim i R HR'))). Qed.

(** ** The theorems *)

(** C4. Refinement: the network of replicas implements the abstract protocol
    of the RaftSpec file.  A network of fresh nodes simulates an initial state
    of the protocol; every step of the network — a handler, a role loop or
    apply loop section, a crash and restart — is matched by protocol steps to
    a state that simulates the result; and the simulation shows each replica's
    term, leadership, log and commit index in the protocol. *)
Theorem network_refines :
  "" ∉ members →
  (∀ W, net_initial members W → ∃ A, Spec.initial members A ∧ sim W A) ∧
  (∀ W W' A, sim W A → net_step members W W' → ∃ A', Spec.steps members A A' ∧ sim W' A') ∧
  (∀ W A i R, sim W A → servers W !! i = Some R → Spec.reps A !! i = Some (view (snode R))).
Proof.
  intros Hempty. split_and!.
  - intros W Hinit. exists (spec_of W). by apply sim_initial.
  - intros W W' A. by apply sim_step.
  - intros W A i R. apply sim_view.
Qed.

(** C3. Log matching: when the logs of two replicas of a reachable network
    have entries of the same term at the same index, they are equal up to
    that index, whatever elections, retries, truncations and restarts led
    there. *)
Theorem log_matching W i j Ri Rj k ei ej :
  "" ∉ members → net_reachable members W →
  servers W !! i = Some Ri → servers W !! j = Some Rj →
  log (snode Ri) !! k = Some ei → log (snode Rj) !! k = Some ej →
  LogEntry.Term ei = LogEntry.Term ej →
  take (Datatypes.S k) (log (snode Ri)) = take (Datatypes.S k) (log (snode Rj)).
Proof.
  intros Hempty (A & HI & Hsim)%sim_reachable Hi Hj H1 H2 Ht; [|done].
  apply (sim_view W A _ _ Hsim) in Hi, Hj.
  by apply (Spec.spec_log_matching members A i j (view (snode Ri)) (view (snode Rj)) k ei ej).
Qed.

(** C2. Leader completeness: the log of a leader holds, at the same indices,
    every entry that any replica of its term or an earlier one considers
    committed. *)
Theorem leader_complete W i j Ri Rj :
  "" ∉ members → net_reachable members W →
  servers W !! i = Some Ri → servers W !! j = Some Rj →
  role (snode Ri) = Leader → currentTerm (snode Rj) ≤ currentTerm (snode Ri) →
  take (Z.to_nat (commitIndex (snode Rj))) (log (snode Ri)) =
  take (Z.to_nat (commitIndex (snode Rj))) (log (snode Rj)) ∧
  commitIndex (snode Rj) ≤ zlen (log (snode Ri)).
Proof.
  intros Hempty (A & HI & Hsim)%sim_reachable Hi Hj Hr Ht; [|done].
  apply (sim_view W A _ _ Hsim) in Hi, Hj.
  pose proof (Spec.rp_commit _ _ _ _ (Spec.inv_reps _ _ HI _ _ Hj)) as Hc. simpl in Hc.
  assert (Spec.agree (Z.to_nat (commitIndex (snode Rj))) (log (snode Ri)) (log (snode Rj)))
    as (Hl & _ & Htk); [|split; [done|unfold zlen; lia]].
  destruct Hc as [->|(t & k & G & Hcm & Hk & Htt & HG & Hag)]; [split_and!; [lia..|done]|].
  eapply Spec.agree_trans; [|apply Spec.agree_sym; exact Hag]. eapply Spec.agree_le; [exact Hk|].
  apply (Spec.spec_leader_complete members A i (view (snode Ri)) t G k); try done; [|simpl; lia].
  simpl. unfold role_eqb. by rewrite bool_decide_eq_true.
Qed.

(** C1. State machine safety: the committed prefixes of any two replicas
    agree, and no two state machines are ever handed different commands for
    the same index, across replicas, elections, crashes and restarts. *)
Theorem state_machine_safety W :
  "" ∉ members → net_reachable members W →
  (∀ i j Ri Rj, servers W !! i = Some Ri → servers W !! j = Some Rj →
     commitIndex (snode Ri) ≤ commitIndex (snode Rj) →
     take (Z.to_nat (commitIndex (snode Ri))) (log (snode Ri)) =
     take (Z.to_nat (commitIndex (snode Ri))) (log (snode Rj))) ∧
  (∀ i j mi mj, (i, mi) ∈ applied W → (j, mj) ∈ applied W →
     ApplyMsg.CommandValid mi = true → ApplyMsg.CommandValid mj = true →
     ApplyMsg.CommandIndex mi = ApplyMsg.CommandIndex mj →
     ApplyMsg.Command mi = ApplyMsg.Command mj).
Proof.
  intros Hempty (A & HI & Hsim)%sim_reachable; [|done]. split.
  - intros i j Ri Rj Hi Hj Hle. apply (sim_view W A _ _ Hsim) in Hi, Hj.
    apply (Spec.spec_state_machine_safety members A i j (view (snode Ri)) (view (snode Rj))); try done.
    simpl. lia.
  - intros i j mi mj Hi Hj Vi Vj Hidx.
    destruct (sm_applied _ _ _ Hsim _ _ Hi Vi) as (t1 & k1 & G1 & e1 & C1 & HG1 & I1 & L1 & <-).
    destruct (sm_applied _ _ _ Hsim _ _ Hj Vj) as (t2 & k2 & G2 & e2 & C2 & HG2 & I2 & L2 & <-).
    rewrite Hidx in *. set (m := ApplyMsg.CommandIndex mj) in *.
    assert (∀ t k G e, Spec.committed members A t k → Spec.lead_log A t G → 0 < m ≤ Z.of_nat k →
      G !! Z.to_nat (m - 1) = Some e → Spec.commit_ok members A (Z.to_nat m) G t) as Hok.
    { intros t k G e HC' HG Hm He%lookup_lt_Some. right. exists t, k, G.
      split_and!; try done; [lia|]. apply Spec.agree_refl. lia. }
    assert (Spec.agree (Z.to_nat m) G1 G2) as Hag
      by by apply (Spec.commit_agree members A (Z.to_nat m) (Z.to_nat m) G1 G2 t1 t2); eauto.
    rewrite (Spec.agree_lookup _ _ _ _ Hag) in L1 by lia. congruence.
Qed.
End safety.

(** ** Witnesses: a run of two replicas

    [event] names a step of the network and [exec] computes it: an election
    of [a], a command, its replication to [b], and both apply loops. *)

Module Run.

Definition members : gset string := {["a"; "b"]}.

Inductive event :=
  | VoteRequest (v : string) (req : RequestVoteRequest)
  | Append (v : string) (k : nat)
  | Start (i : string) (cmd : list Byte.byte)
  | Send (i p : string)
  | AppendResponse (i : string) (k : nat)
  | Finish (i p : string)
  | Apply (i : string)
  | Dispatched (i : string)
  | Timeout (i : string)
  | Campaigns (i : string)
  | VoteResponse (i : string) (k : nat)
  | Restart (i : string).

#[local] Instance AppendEntriesRequest_eq_dec : EqDecision AppendEntriesRequest.
Proof. solve_decision. Defined.
#[local] Instance ApplyMsg_eq_dec : EqDecision ApplyMsg.
Proof. solve_decision. Defined.

Notation network := (Network InMemoryStorage.t).
Implicit Types W : network.

Definition exec (ev : event) W : option network :=
  match ev with
  | VoteRequest v req =>
      R ← servers W !! v;
      let '(n', r) := HandleRequestVote req (snode R) in
      Some (mkNetwork (<[v := on_node n' R]> (servers W))
        (returned v req r ++ voteResps W) (appendReqs W) (appendResps W) (applied W))
  | Append v k =>
      R ← servers W !! v;
      req ← appendReqs W !! k;
      match HandleAppendEntries 0 req (snode R) with
      | Ret (n', r) =>
          Some (mkNetwork (<[v := on_node n' R]> (servers W))
            (voteResps W) (appendReqs W) (append_returned v req r ++ appendResps W) (applied W))
      | Panic => None
      end
  | Start i cmd =>
      R ← servers W !! i;
      if decide (zlen (log (snode R)) + 1 < max_int64) then
        match StartCommand 0 cmd (snode R) with
        | Ret (n', _) => Some (set_server i (on_node n' R) W)
        | Panic => None
        end
      else None
  | Send i p =>
      R ← servers W !! i;
      match appendEntriesRequestForPeer p (snode R) with
      | Ret (n', (req, _)) =>
          Some (mkNetwork (<[i := on_node n' R]> (servers W))
            (voteResps W) (option_list req ++ appendReqs W) (appendResps W) (applied W))
      | Panic => None
      end
  | AppendResponse i k =>
      R ← servers W !! i;
      '(p, req, resp) ← appendResps W !! k;
      if decide (req ∈ appendReqs W) then
        match onAppendResponse 0 p req resp (snode R) with
        | Ret n' => Some (set_server i (on_node n' R) W)
        | Panic => None
        end
      else None
  | Finish i p =>
      R ← servers W !! i;
      Some (set_server i (on_node (finishRPC p (snode R)) R) W)
  | Apply i =>
      R ← servers W !! i;
      match applyStep Proceed 0 (mpc (smachine R)) (snode R) with
      | Ret (pc', n', msg) =>
          Some (mkNetwork
            (<[i := mkServer (sloop R)
                      (mkMachine pc' n' (Delivery.sent (smachine R) ++ option_list msg))]> (servers W))
            (voteResps W) (appendReqs W) (appendResps W)
            (((λ m, (i, m)) <$> option_list msg) ++ applied W))
      | Panic => None
      end
  | Dispatched i =>
      R ← servers W !! i;
      match sloop R, degraded (snode R) with
      | Dispatch, false => Some (set_server i (at_loop (dispatch (snode R)) (snode R) R) W)
      | _, _ => None
      end
  | Timeout i =>
      R ← servers W !! i;
      match sloop R with
      | AtFollower => Some (set_server i (at_loop Dispatch (onElectionTimeout (snode R)) R) W)
      | _ => None
      end
  | Campaigns i =>
      R ← servers W !! i;
      match sloop R with
      | AtCandidate =>
          if decide (currentTerm (snode R) < max_int64) then
            let '(n', c) := startCampaign (snode R) in
            Some (set_server i
              (at_loop (match c with Some c => InCampaign c ∅ ∅ | None => Dispatch end) n' R) W)
          else None
      | _ => None
      end
  | VoteResponse i k =>
      R ← servers W !! i;
      '(p, req, resp) ← voteResps W !! k;
      match sloop R with
      | InCampaign c responded granted =>
          if decide (p ∈ peers (snode R) ∧ p ∉ responded ∧ req = voteRequest c (snode R)) then
            let '(n', c') := onVoteResponse resp c (snode R) in
            let granted' := if RequestVoteResponse.VoteGranted resp
                            then {[p]} ∪ granted else granted in
            Some (set_server i
              (at_loop (match c' with
                        | Some c1 => InCampaign c1 ({[p]} ∪ responded) granted'
                        | None => Dispatch
                        end) n' R) W)
          else None
      | _ => None
      end
  | Restart i =>
      R ← servers W !! i;
      match NewNode i members (storage (snode R)) true with
      | Ret (Val n') => Some (set_server i (mkServer Dispatch (mkMachine AwaitNotify n' [])) W)
      | _ => None
      end
  end.

Lemma exec_step ev W W' : exec ev W = Some W' → net_step members W W'.
Proof.
  destruct ev; simpl; intros E; apply bind_Some in E as (R & HR & E).
  - destruct (HandleRequestVote _ _) as [n' r] eqn:Hop. injection E as <-. by eapply net_vote_request.
  - apply bind_Some in E as (req & Hreq & E).
    destruct (HandleAppendEntries _ _ _) as [[n' r]|] eqn:Hop; [|done]. injection E as <-.
    eapply net_append; [done|by eapply list_elem_of_lookup_2|done].
  - case_decide; [|done]. destruct (StartCommand _ _ _) as [[n' r]|] eqn:Hop; [|done].
    injection E as <-. by eapply net_start.
  - destruct (appendEntriesRequestForPeer _ _) as [[n' [req ok]]|] eqn:Hop; [|done].
    injection E as <-. by eapply net_send.
  - apply bind_Some in E as ([[p req] resp] & Hresp & E). case_decide; [|done].
    destruct (onAppendResponse _ _ _ _ _) as [n'|] eqn:Hop; [|done]. injection E as <-.
    eapply net_append_response; [done|done| |done]. by eapply list_elem_of_lookup_2.
  - injection E as <-. by apply net_append_finish.
  - destruct (applyStep _ _ _ _) as [[[pc' n'] msg]|] eqn:Hop; [|done]. injection E as <-.
    by eapply net_apply.
  - destruct (sloop R) eqn:Hpc; try done. destruct (degraded (snode R)) eqn:Hd; [done|].
    injection E as <-. by apply net_dispatch.
  - destruct (sloop R) eqn:Hpc; try done. injection E as <-. by apply net_timeout.
  - destruct (sloop R) eqn:Hpc; try done. case_decide; [|done].
    destruct (startCampaign _) as [n' c] eqn:Hop. injection E as <-. by eapply net_campaign.
  - apply bind_Some in E as ([[p req] resp] & Hresp & E).
    destruct (sloop R) eqn:Hpc; try done. case_decide as Hok; [|done]. destruct Hok as (? & ? & ->).
    destruct (onVoteResponse _ _ _) as [n' c'] eqn:Hop. injection E as <-.
    eapply net_vote_response; try done. by eapply list_elem_of_lookup_2.
  - destruct (NewNode _ _ _ _) as [[n'|]|] eqn:Hop; [|done..]. injection E as <-.
    by eapply net_restart.
Qed.

Fixpoint run (evs : list event) W : option network :=
  match evs with
  | [] => Some W
  | ev :: evs => W ← exec ev W; run evs W
  end.

Lemma run_steps evs W W' : run evs W = Some W' → rtc (net_step members) W W'.
Proof.
  revert W. induction evs as [|ev evs IH]; intros W; simpl; [by intros [= <-]|].
  intros (W1 & H1%exec_step & H2)%bind_Some. eapply rtc_l; eauto.
Qed.

(** Two fresh replicas. *)
Definition disk : InMemoryStorage.t :=
  InMemoryStorage.mk (HardState.mk 0 "" 0 (mkClusterConfig [])) 0 [] None.

Definition boot i : option (Server InMemoryStorage.t) :=
  match NewNode i members (Some disk) true with
  | Ret (Val n) => Some (mkServer Dispatch (mkMachine AwaitNotify n []))
  | _ => None
  end.

Definition start : option network :=
  Ra ← boot "a"; Rb ← boot "b";
  Some (mkNetwork (<["a" := Ra]> (<["b" := Rb]> ∅)) [] [] [] []).

Lemma start_initial W : start = Some W → net_initial members W.
Proof.
  unfold start. intros (Ra & Ha & (Rb & Hb & [= <-])%bind_Some)%bind_Some. split; [|done]. simpl.
  assert (∀ i R, boot i = Some R → i ∈ members → i ∈ members ∧
     ∃ s n, blank_disk members (contents s) ∧ NewNode i members (Some s) true = Ret (Val n) ∧
       R = mkServer Dispatch (mkMachine AwaitNotify n [])) as Hboot.
  { intros i R HR Hi. split; [done|]. unfold boot in HR.
    destruct (NewNode i members (Some disk) true) as [[n|]|] eqn:E; [|done..].
    injection HR as <-. exists disk, n. split; [|done]. unfold blank_disk, cfg_ok; simpl. auto 10. }
  intros i R. destruct (decide (i = "a")) as [->|]; [|destruct (decide (i = "b")) as [->|]]; intros HR;
    simplify_map_eq; apply Hboot; try done; unfold members; set_solver.
Qed.

(** The election of [i], with the vote of [p]. *)
Definition election i p (last lastTerm term : Z) : list event :=
  [Dispatched i; Timeout i; Dispatched i; Campaigns i;
   VoteRequest p (RequestVoteRequest.mk term i last lastTerm); VoteResponse i 0].

(** One round of replication. *)
Definition round i p : list event := [Send i p; Append p 0; AppendResponse i 0; Finish i p].

Definition cmd : list Byte.byte := [Byte.x41].

(** [a] is elected, [cmd] is committed by both and applied by both; [a]
    crashes and restarts, and [b] is elected. *)
Definition story : list event :=
  election "a" "b" 0 0 1 ++ [Start "a" cmd] ++ round "a" "b" ++ round "a" "b" ++
  replicate 4 (Apply "a") ++ replicate 4 (Apply "b") ++ [Restart "a"] ++
  [Dispatched "b"; Timeout "b"; Dispatched "b"; Campaigns "b";
   VoteRequest "a" (RequestVoteRequest.mk 2 "b" 1 1); VoteResponse "b" 0].

Definition final : option network := W ← start; run story W.

Lemma final_reachable W : final = Some W → net_reachable members W.
Proof.
  intros (W0 & H0%start_initial & H1%run_steps)%bind_Some. by exists W0.
Qed.

Definition entry : LogEntry := LogEntry.mk 1 EntryCommand cmd.

Record ended W (Ra Rb : Server InMemoryStorage.t) : Prop := {
  en_reach : net_reachable members W;
  en_a : servers W !! "a" = Some Ra;
  en_b : servers W !! "b" = Some Rb;
  en_lead : role (snode Rb) = Leader;
  en_terms : currentTerm (snode Ra) = 2 ∧ currentTerm (snode Rb) = 2;
  en_logs : log (snode Ra) = [entry] ∧ log (snode Rb) = [entry];
  en_commit : commitIndex (snode Ra) = 1 ∧ commitIndex (snode Rb) = 1;
  en_applied : applied W = [("b", ApplyMsg.of_command cmd 1); ("a", ApplyMsg.of_command cmd 1)] }.

Lemma the_end : ∃ W Ra Rb, ended W Ra Rb.
Proof.
  assert (match final with
    | Some W =>
        match servers W !! "a", servers W !! "b" with
        | Some Ra, Some Rb => bool_decide (
            role (snode Rb) = Leader ∧ currentTerm (snode Ra) = 2 ∧ currentTerm (snode Rb) = 2 ∧
            log (snode Ra) = [entry] ∧ log (snode Rb) = [entry] ∧
            commitIndex (snode Ra) = 1 ∧ commitIndex (snode Rb) = 1 ∧
            applied W = [("b", ApplyMsg.of_command cmd 1); ("a", ApplyMsg.of_command cmd 1)])
        | _, _ => false
        end
    | None => false
    end = true) as Hb by (vm_compute; reflexivity).
  destruct final as [W|] eqn:Hf; [|done].
  destruct (servers W !! "a") as [Ra|] eqn:Ha; [|done].
  destruct (servers W !! "b") as [Rb|] eqn:Hb'; [|done].
  apply bool_decide_eq_true in Hb as (? & ? & ? & ? & ? & ? & ? & ?).
  exists W, Ra, Rb. split; [exact (final_reachable W Hf)|assumption..| | | |assumption];
    split; assumption.
Qed.

Lemma no_empty : "" ∉ members.
Proof. unfold members. set_solver. Qed.

End Run.

Lemma network_refines_witness :
  ∃ W A, net_initial Run.members W ∧ Spec.initial Run.members A ∧ sim Run.members W A.
Proof.
  assert (match Run.start with Some _ => true | None => false end = true) as Hs by (vm_compute; done).
  destruct Run.start as [W|] eqn:HW; [clear Hs|done].
  apply Run.start_initial in HW.
  destruct (network_refines Run.members Run.no_empty) as (Hinit & _ & _).
  destruct (Hinit W HW) as (A & HA & Hsim). by exists W, A.
Defined.

Lemma log_matching_witness :
  ∃ W Ra Rb, Run.ended W Ra Rb ∧ take 1 (log (snode Ra)) = take 1 (log (snode Rb)).
Proof.
  destruct Run.the_end as (W & Ra & Rb & He). exists W, Ra, Rb. split; [exact He|].
  destruct He as [Hr Ha Hb _ _ [La Lb] _ _].
  apply (log_matching Run.members W "a" "b" Ra Rb 0 Run.entry Run.entry Run.no_empty Hr Ha Hb);
    [by rewrite La|by rewrite Lb|done].
Defined.

Lemma leader_complete_witness :
  ∃ W Ra Rb, Run.ended W Ra Rb ∧ commitIndex (snode Ra) ≤ zlen (log (snode Rb)).
Proof.
  destruct Run.the_end as (W & Ra & Rb & He). exists W, Ra, Rb. split; [exact He|].
  destruct He as [Hr Ha Hb Hl [Ta Tb] _ _ _].
  apply (leader_complete Run.members W "b" "a" Rb Ra Run.no_empty Hr Hb Ha Hl). lia.
Defined.

Lemma state_machine_safety_witness :
  ∃ W Ra Rb, Run.ended W Ra Rb ∧
    take 1 (log (snode Ra)) = take 1 (log (snode Rb)) ∧
    ∀ mi mj, ("a", mi) ∈ applied W → ("b", mj) ∈ applied W →
      ApplyMsg.CommandValid mi = true → ApplyMsg.CommandValid mj = true →
      ApplyMsg.CommandIndex mi = ApplyMsg.CommandIndex mj →
      ApplyMsg.Command mi = ApplyMsg.Command mj.
Proof.
  destruct Run.the_end as (W & Ra & Rb & He). exists W, Ra, Rb. split; [exact He|].
  destruct He as [Hr Ha Hb _ _ _ [Ca Cb] _].
  destruct (state_machine_safety Run.members W Run.no_empty Hr) as [Hlog Happ].
  split; [|apply Happ]. specialize (Hlog "a" "b" Ra Rb Ha Hb). rewrite Ca, Cb in Hlog. by apply Hlog.
Defined.
