(* ===== verification/AdminRows.v ===== *)
(** * AdminRows: what the admin command gathers

    [cmd/client/admin.go]: a poll asks every node for its state and turns the
    answers into rows ([pollAdminRows] and the formatting helpers), and the
    alert for a missing leader is computed from the rows.  [adminRow] is the
    Go struct; the answer of a node, the order in which the requests finish
    and the local time zone are parameters.

    The theorems: the rows of a poll are one per node, ordered by identifier
    with the nodes that did not answer last; the configuration column is read
    back as it was written, so that the leader alert is raised exactly when a
    quorum of healthy nodes knows no leader. *)

From Stdlib Require Import Ascii String.
From stdpp Require Import sorting.
From S2P Require Import Prelude Types Storage Timing Node Utf8 Json GoStrings GoJson Admin.
Open Scope Z_scope.

(** ** Small helpers (main.go) *)

Definition maxInt (a b : Z) : Z := if b <? a then a else b.
Definition minInt (a b : Z) : Z := if a <? b then a else b.
Definition clampInt (v lo hi : Z) : Z :=
  if v <? lo then lo else if hi <? v then hi else v.

(** [fmt.Sprintf("%d", v)]. *)
Definition itoa (v : Z) : string := of_bytes (print_int v).

(** ** Rows *)

Module adminRow.
Record t : Type := mk {
  addr : string;
  nodeID : string;
  consensus : string;
  role : string;
  status : string;
  leaderID : string;
  term : Z;
  commit : Z;
  applied : Z;
  lastLog : Z;
  lastLogTerm : Z;
  snapshot : Z;
  cfg : string;
  peers : string;
  lastAppliedAt : string;
  err : string }.
End adminRow.
Notation adminRow := adminRow.t.

(** The row of a node that did not answer. *)
Definition errorRow (addr err : string) : adminRow :=
  adminRow.mk addr "" "" "" "" "" 0 0 0 0 0 0 "" "" "" err.

(** ** Formatting *)

(** [String()] of the generated enums. *)
Definition ConsensusType_String (v : ConsensusTypePB) : string :=
  match v with
  | CONSENSUS_TYPE_UNSPECIFIED => "CONSENSUS_TYPE_UNSPECIFIED"
  | CONSENSUS_TYPE_RAFT => "CONSENSUS_TYPE_RAFT"
  end.

Definition NodeRole_String (v : NodeRolePB) : string :=
  match v with
  | NODE_ROLE_UNSPECIFIED => "NODE_ROLE_UNSPECIFIED"
  | NODE_ROLE_LEADER => "NODE_ROLE_LEADER"
  | NODE_ROLE_FOLLOWER => "NODE_ROLE_FOLLOWER"
  | NODE_ROLE_CANDIDATE => "NODE_ROLE_CANDIDATE"
  end.

Definition NodeStatus_String (v : NodeStatusPB) : string :=
  match v with
  | NODE_STATUS_UNSPECIFIED => "NODE_STATUS_UNSPECIFIED"
  | NODE_STATUS_HEALTHY => "NODE_STATUS_HEALTHY"
  | NODE_STATUS_DEGRADED => "NODE_STATUS_DEGRADED"
  end.

Definition trimEnum (s prefix : string) : string := to_lower (trim_prefix s prefix).

(** The identifiers of the peers, or their addresses; no peer in the list is
    nil. *)
Definition peerItem (p : PeerInfo.t) : option string :=
  let id := trim_space (PeerInfo.NodeId p) in
  let addr := trim_space (PeerInfo.Address p) in
  if bool_decide (id = "") then (if bool_decide (addr = "") then None else Some addr)
  else Some id.

Definition formatPeerList (peers : list PeerInfo.t) : string :=
  if bool_decide (length peers = 0%nat) then "" else
  join_with "," (sort_strings (omap peerItem peers)).

Definition formatCFG (quorumSize members : Z) : string :=
  if (quorumSize <=? 0) && (members <=? 0) then ""
  else itoa quorumSize +:+ "/" +:+ itoa members.

(** [time.Local().Format("15:04:05")], and [formatTS]: a nil timestamp
    reaches it as a non-nil interface and reads as the start of the epoch;
    the zero time of Go is no timestamp the model has. *)
Section clock.
Context (clock : Z → string).
Definition formatTS (ts : option Z) : string := clock (default 0 ts).

(** ** The poll *)

(** The row of a node that answered (lines 666-683). *)
Definition nodeRow (addr : string) (node : NodeInfo.t) : adminRow :=
  let role := trimEnum (NodeRole_String (NodeInfo.Role node)) "NODE_ROLE_" in
  let status := trimEnum (NodeStatus_String (NodeInfo.Status node)) "NODE_STATUS_" in
  let consensus := trimEnum (ConsensusType_String (NodeInfo.ConsensusType node)) "CONSENSUS_TYPE_" in
  let peers := formatPeerList (NodeInfo.Peers node) in
  match NodeInfo.Raft node with
  | None => adminRow.mk addr (NodeInfo.NodeId node) consensus role status "" 0 0 0 0 0 0 "" peers "" ""
  | Some raft =>
      adminRow.mk addr (NodeInfo.NodeId node) consensus role status
        (RaftNodeInfo.LeaderId raft) (RaftNodeInfo.Term raft) (RaftNodeInfo.CommitIndex raft)
        (RaftNodeInfo.LastApplied raft) (RaftNodeInfo.LastLogIndex raft)
        (RaftNodeInfo.LastLogTerm raft) (RaftNodeInfo.SnapshotLastIndex raft)
        (formatCFG (RaftNodeInfo.QuorumSize raft) (zlen (RaftNodeInfo.ClusterMembers raft)))
        peers (formatTS (RaftNodeInfo.LastAppliedAt raft)) ""
  end.

(** What the request to a node gave: a message without a node, a node, or the
    text of the error. *)
Definition pollRow (addr : string) (resp : option NodeInfo.t + string) : adminRow :=
  match resp with
  | inr err => errorRow addr err
  | inl None => errorRow addr "empty node info"
  | inl (Some node) => nodeRow addr node
  end.

(** The order of the table: [less], and [sort.Slice] with it.  The sort is
    not stable; rows with the same identifier and address may come out in any
    order, here in the order of the connections. *)
Definition rowLess (a b : adminRow) : bool :=
  if bool_decide (adminRow.nodeID a = adminRow.nodeID b)
  then String.ltb (adminRow.addr a) (adminRow.addr b)
  else if bool_decide (adminRow.nodeID a = "") then false
  else if bool_decide (adminRow.nodeID b = "") then true
  else String.ltb (adminRow.nodeID a) (adminRow.nodeID b).

Definition row_le (a b : adminRow) : Prop := rowLess b a = false.

#[export] Instance row_le_dec a b : Decision (row_le a b).
Proof. unfold row_le. apply _. Defined.

Definition pollAdminRows (conns : list string)
    (resp : string → option NodeInfo.t + string) : list adminRow :=
  merge_sort row_le ((λ addr, pollRow addr (resp addr)) <$> conns).
End clock.

(** ** Reading the columns back *)

(** [fmt.Sscanf(s, "%d", &v)]: blanks, a sign, digits, the rest ignored; a
    newline or a value out of range is an error. *)
Fixpoint skip_blanks_from (skip : nat) (s : string) : string :=
  match s with
  | EmptyString => ""
  | String a t =>
      match skip with
      | Datatypes.S k => skip_blanks_from k t
      | O => if Ascii.eqb a newline then s else
             match white s with Datatypes.S k => skip_blanks_from k t | O => s end
      end
  end.

Definition skip_blanks (s : string) : string := skip_blanks_from 0 s.

Definition digit_val (a : ascii) : option Z :=
  if (48 <=? code a) && (code a <=? 57) then Some (code a - 48) else None.

(** The digits at the front, as a number; [None] without any. *)
Fixpoint scan_digits (acc : option Z) (s : string) : option Z :=
  match s with
  | String a t =>
      match digit_val a with
      | Some d => scan_digits (Some (default 0 acc * 10 + d)) t
      | None => acc
      end
  | EmptyString => acc
  end.

Definition sscanf_d (s : string) : option Z :=
  v ← match skip_blanks s with
      | String a t =>
          if Ascii.eqb a "-" then Z.opp <$> scan_digits None t
          else if Ascii.eqb a "+" then scan_digits None t
          else scan_digits None (String a t)
      | EmptyString => None
      end;
  if (min_int64 <=? v) && (v <=? max_int64) then Some v else None.

Definition parseCFG (s : string) : option (Z * Z) :=
  if bool_decide (s = "") then None else
  match cut "/" s with
  | None => None
  | Some (a, b) => q ← sscanf_d a; m ← sscanf_d b; Some (q, m)
  end.

(** ** The leader alert *)

(** One row of the loop of [detectLeaderMissing]. *)
Definition countRow (acc : Z * Z * bool) (r : adminRow) : Z * Z * bool :=
  let '(quorum, healthy, hasLeader) := acc in
  if negb (bool_decide (adminRow.err r = "")) then acc else
  let hasLeader := if bool_decide (adminRow.role r = "leader")
                      || negb (bool_decide (adminRow.leaderID r = "")) then true else hasLeader in
  let healthy := if bool_decide (adminRow.status r = "healthy") then healthy + 1 else healthy in
  let quorum := match parseCFG (adminRow.cfg r) with
                | Some (q, _) => if quorum <? q then q else quorum
                | None => quorum
                end in
  (quorum, healthy, hasLeader).

Definition detectLeaderMissing (rows : list adminRow) : bool * Z * Z :=
  let '(quorum, healthy, hasLeader) := foldl countRow (0, 0, false) rows in
  if quorum =? 0 then (false, 0, healthy)
  else if healthy <? quorum then (false, quorum, healthy)
  else (negb hasLeader, quorum, healthy).

(** ** Errors *)

Definition errorKind (err : string) : string :=
  if contains err "code = Unavailable" then "Unavailable"
  else if contains err "code = Unimplemented" then "Unimplemented"
  else if contains err "code = DeadlineExceeded" then "Timeout"
  else "Error".

Definition errorSummary (err : string) : string :=
  let err := trim_space err in
  let err := replace_all newline " " err in
  join_with " " (Fields err).

(** [main.go: oneLineErr] of a non-nil error. *)
Definition oneLineErr (err : string) : string := replace_all newline " " err.

(** [main.go: splitAddrs]. *)
Definition splitAddrs (raw : string) : list string :=
  filter (λ p, p ≠ "") (trim_space <$> split "," raw).

(** ** The order of the rows *)

Lemma not_ltb a b : String.ltb a b = false ↔ string_le b a.
Proof.
  unfold string_le, String.ltb, String.leb. rewrite (String.compare_antisym a b).
  by destruct (String.compare b a).
Qed.

Lemma ltb_irrefl a : String.ltb a a = false.
Proof. apply not_ltb. destruct (string_le_total a a); done. Qed.

#[export] Instance row_le_total : Total row_le.
Proof.
  intros a b. unfold row_le, rowLess.
  rewrite (bool_decide_ext (adminRow.nodeID b = adminRow.nodeID a) (adminRow.nodeID a = adminRow.nodeID b)) by done.
  repeat case_bool_decide; try tauto; rewrite !not_ltb; apply string_le_total.
Qed.

#[export] Instance row_le_trans : Transitive row_le.
Proof.
  intros a b c. unfold row_le, rowLess. intros H1 H2.
  repeat case_bool_decide; try congruence; rewrite ?not_ltb in *.
  all: try (by etrans; eassumption).
  all: exfalso.
  all: repeat match goal with E : adminRow.nodeID _ = adminRow.nodeID _ |- _ => rewrite ?E in * end.
  all: try congruence.
  - destruct H. by apply (anti_symm string_le).
Qed.

(** A poll gives one row per node, in the order of the table. *)
Lemma poll_rows_ordered clock conns resp :
  pollAdminRows clock conns resp ≡ₚ ((λ addr, pollRow clock addr (resp addr)) <$> conns) ∧
  StronglySorted row_le (pollAdminRows clock conns resp).
Proof.
  unfold pollAdminRows. split; [apply merge_sort_Permutation|apply (StronglySorted_merge_sort row_le)].
Qed.

Lemma sorted_lookup {A} (R : relation A) l i j a b :
  StronglySorted R l → l !! i = Some a → l !! j = Some b → (i < j)%nat → R a b.
Proof.
  intros Hs. revert i j. induction Hs as [|x l Hs IH Hx]; intros i j Ha Hb Hij; [done|].
  destruct j as [|j]; [lia|]. destruct i as [|i]; simpl in *.
  - injection Ha as ->. rewrite List.Forall_forall in Hx. apply Hx, list_elem_of_In. by eapply list_elem_of_lookup_2.
  - apply (IH i j); [done|done|lia].
Qed.

(** The rows without an identifier, those of the nodes that did not answer
    included, come last. *)
Lemma unnamed_rows_last clock conns resp i j a b :
  pollAdminRows clock conns resp !! i = Some a → pollAdminRows clock conns resp !! j = Some b →
  adminRow.nodeID a = "" → adminRow.nodeID b ≠ "" → (j < i)%nat.
Proof.
  intros Ha Hb Ea Eb. destruct (decide (i < j)%nat) as [Hlt|?].
  - destruct (poll_rows_ordered clock conns resp) as [_ Hs].
    pose proof (sorted_lookup _ _ _ _ _ _ Hs Ha Hb Hlt) as Hle. exfalso.
    revert Hle. unfold row_le, rowLess. rewrite !bool_decide_eq_false_2 by congruence.
    rewrite (bool_decide_eq_true_2 (adminRow.nodeID a = "")) by done. done.
  - destruct (decide (i = j)) as [->|]; [congruence|lia].
Qed.

(** ** The configuration column *)

(** The value of a literal digit. *)
Ltac digit :=
  cbn [print_uint of_bytes String.string_of_list_byte String.string_of_list_ascii List.map scan_digits];
  match goal with
  | |- context [digit_val ?c] => let v := eval vm_compute in (digit_val c) in change (digit_val c) with v
  end; cbv beta iota.

Lemma scan_digits_acc d p :
  scan_digits (Some (Z.pos p)) (of_bytes (print_uint d)) = Some (Z.pos (Pos.of_uint_acc d p)).
Proof.
  revert p. unfold of_bytes. induction d; intros p; [done|..]; cbn [Pos.of_uint_acc];
    rewrite <- IHd; digit; f_equal; f_equal; simpl; lia.
Qed.

Lemma scan_digits_zero d :
  scan_digits (Some 0) (of_bytes (print_uint d)) = Some (Z.of_N (N.of_uint d)).
Proof.
  unfold of_bytes in *. induction d; [done|..]; digit; [exact IHd|..]; apply scan_digits_acc.
Qed.

Lemma scan_digits_uint d :
  d ≠ Decimal.Nil → scan_digits None (of_bytes (print_uint d)) = Some (Z.of_N (N.of_uint d)).
Proof.
  intros Hd. rewrite <- scan_digits_zero. by destruct d.
Qed.

Lemma uint_not_nil n : N.to_uint n ≠ Decimal.Nil.
Proof.
  intros E. pose proof (DecimalN.Unsigned.of_to n) as Hn. destruct n as [|p]; [done|]. by rewrite E in Hn.
Qed.

Lemma of_bytes_cons b l : of_bytes (b :: l) = String (ascii_of_byte b) (of_bytes l).
Proof. done. Qed.

Lemma cut_cons sep a s x y :
  Ascii.eqb a sep = false → cut sep s = Some (x, y) → cut sep (String a s) = Some (String a x, y).
Proof. intros Ha Hs. cbn [cut]. by rewrite Ha, Hs. Qed.

Lemma cut_uint d s :
  cut "/" (of_bytes (print_uint d) +:+ String "/" s) = Some (of_bytes (print_uint d), s).
Proof.
  induction d; [done|..]; cbn [print_uint]; rewrite of_bytes_cons; cbn [String.append];
    by apply cut_cons.
Qed.

Lemma cut_itoa z s : cut "/" (itoa z +:+ String "/" s) = Some (itoa z, s).
Proof.
  unfold itoa, print_int. destruct (z <? 0); [|apply cut_uint].
  rewrite of_bytes_cons. cbn [String.append]. apply cut_cons; [done|apply cut_uint].
Qed.

Lemma skip_blanks_fixed a t : is_space a = false → code a < 128 → skip_blanks (String a t) = String a t.
Proof.
  intros Ha Hc. unfold skip_blanks. cbn [skip_blanks_from]. rewrite white_ascii by done.
  by destruct (Ascii.eqb a newline).
Qed.

Lemma sscanf_itoa z : min_int64 ≤ z ≤ max_int64 → sscanf_d (itoa z) = Some z.
Proof.
  intros Hz. assert (∀ n, scan_digits None (of_bytes (print_uint (N.to_uint n))) = Some (Z.of_N n)) as Hs.
  { intros n. by rewrite scan_digits_uint, DecimalN.Unsigned.of_to by apply uint_not_nil. }
  assert (∀ v, v = z → (if (min_int64 <=? v) && (v <=? max_int64) then Some v else None) = Some z) as Hr.
  { intros v ->. destruct (Z.leb_spec min_int64 z), (Z.leb_spec z max_int64); try lia. done. }
  unfold sscanf_d, itoa, print_int. destruct (Z.ltb_spec z 0).
  - rewrite of_bytes_cons. set (u := of_bytes _).
    rewrite skip_blanks_fixed by done. cbv beta iota.
    change (Ascii.eqb (ascii_of_byte Byte.x2d) "-") with true. cbv iota. subst u. rewrite Hs. apply Hr. lia.
  - assert (∀ d, d ≠ Decimal.Nil → match skip_blanks (of_bytes (print_uint d)) with
      | String a t =>
          if Ascii.eqb a "-" then Z.opp <$> scan_digits None t
          else if Ascii.eqb a "+" then scan_digits None t
          else scan_digits None (String a t)
      | EmptyString => None
      end = scan_digits None (of_bytes (print_uint d))) as Hd.
    { intros [] ?; try done; cbn [print_uint]; rewrite of_bytes_cons, skip_blanks_fixed by done; done. }
    rewrite Hd, Hs by apply uint_not_nil. cbn [mbind option_bind]. apply Hr. lia.
Qed.

(** The configuration column is read back as it was written. *)
Lemma cfg_roundtrip q m :
  min_int64 ≤ q ≤ max_int64 → min_int64 ≤ m ≤ max_int64 → 0 < q ∨ 0 < m →
  parseCFG (formatCFG q m) = Some (q, m).
Proof.
  intros Hq Hm Hpos. unfold formatCFG.
  destruct ((q <=? 0) && (m <=? 0))%bool eqn:E; [zbool; lia|]. clear E.
  pose proof (cut_itoa q (itoa m)) as Hcut. unfold parseCFG.
  change ("/" +:+ itoa m) with (String "/" (itoa m)).
  rewrite bool_decide_eq_false_2 by (intros H; rewrite H in Hcut; done).
  by rewrite Hcut, !sscanf_itoa.
Qed.

(** ** The leader alert *)

Definition answered (r : adminRow) : Prop := adminRow.err r = "".
Definition knows_leader (r : adminRow) : Prop :=
  adminRow.role r = "leader" ∨ adminRow.leaderID r ≠ "".
Definition row_quorum (r : adminRow) : Z := default 0 (fst <$> parseCFG (adminRow.cfg r)).

#[export] Instance answered_dec r : Decision (answered r).
Proof. unfold answered. apply _. Defined.
#[export] Instance knows_leader_dec r : Decision (knows_leader r).
Proof. unfold knows_leader. apply _. Defined.

Definition widest_quorum (rows : list adminRow) : Z :=
  foldr Z.max 0 (row_quorum <$> filter answered rows).
Definition healthy_rows (rows : list adminRow) : Z :=
  zlen (filter (λ r, adminRow.status r = "healthy") (filter answered rows)).

Lemma countRow_fold rows q h l :
  0 ≤ q →
  foldl countRow (q, h, l) rows =
  (Z.max q (widest_quorum rows), h + healthy_rows rows,
   l || bool_decide (Exists knows_leader (filter answered rows))).
Proof.
  unfold widest_quorum, healthy_rows.
  revert q h l. induction rows as [|r rows IH]; intros q h l Hq.
  { simpl. change (zlen _) with 0. by rewrite orb_false_r, Z.max_l, Z.add_0_r. }
  cbn [foldl]. rewrite (filter_cons answered). unfold countRow at 2. cbv beta iota zeta.
  destruct (decide (answered r)) as [Ha|Ha].
  2:{ rewrite bool_decide_eq_false_2 by exact Ha. cbn [negb]. by apply IH. }
  rewrite bool_decide_eq_true_2 by exact Ha. cbn [negb fmap list_fmap foldr].
  rewrite IH.
  2:{ repeat case_match; zbool; lia. }
  rewrite (filter_cons (λ r, adminRow.status r = "healthy")).
  assert (bool_decide (Exists knows_leader (r :: filter answered rows)) =
          bool_decide (knows_leader r) || bool_decide (Exists knows_leader (filter answered rows)))%bool as ->.
  { rewrite <- bool_decide_or. apply bool_decide_ext. by rewrite Exists_cons. }
  f_equal; [f_equal|].
  - change (list_fmap _ _ row_quorum ?l) with (row_quorum <$> l).
    generalize (foldr Z.max 0 (row_quorum <$> filter answered rows)). intros w.
    unfold row_quorum. destruct (parseCFG (adminRow.cfg r)) as [[x y]|]; simpl;
      [destruct (Z.ltb_spec q x)|]; lia.
  - destruct (decide (adminRow.status r = "healthy")) as [E|E]; [rewrite bool_decide_eq_true_2 by done|rewrite bool_decide_eq_false_2 by done]; rewrite ?zlen_cons; lia.
  - assert (bool_decide (knows_leader r) = bool_decide (adminRow.role r = "leader")
      || negb (bool_decide (adminRow.leaderID r = "")))%bool as ->.
    { rewrite <- bool_decide_not, <- bool_decide_or. by apply bool_decide_ext. }
    case_match; by destruct l.
Qed.

(** The alert is raised exactly when a quorum of healthy nodes, by the widest
    configuration seen, knows no leader. *)
Lemma leader_alert_exact rows :
  detectLeaderMissing rows =
  (bool_decide (0 < widest_quorum rows ≤ healthy_rows rows ∧
                Forall (λ r, ¬ knows_leader r) (filter answered rows)),
   widest_quorum rows, healthy_rows rows).
Proof.
  assert (0 ≤ widest_quorum rows) as Hw.
  { unfold widest_quorum. induction (row_quorum <$> filter answered rows); simpl; lia. }
  unfold detectLeaderMissing. rewrite countRow_fold by done. rewrite Z.max_r, Z.add_0_l by done.
  cbn [orb]. rewrite <- bool_decide_not.
  destruct (Z.eqb_spec (widest_quorum rows) 0) as [E|E].
  { rewrite E. rewrite bool_decide_eq_false_2 by lia. done. }
  destruct (Z.ltb_spec (healthy_rows rows) (widest_quorum rows)).
  { rewrite bool_decide_eq_false_2 by lia. done. }
  f_equal. f_equal. apply bool_decide_ext. pose proof (List.Forall_Exists_neg knows_leader (filter answered rows)) as Hfe. naive_solver lia.
Qed.
