(* ===== verification/AdminTable.v ===== *)
(** * AdminTable: the table of the admin command

    [cmd/client/admin.go]: the columns fitted to the terminal, the cells, the
    rows, the header, the summary and the alerts.  Lipgloss is a parameter:
    [Render] gives a styled cell, [RenderHeader] the header line at a width.

    The lemmas: the columns fit any content width of at least 55 columns
    ([columns_fit]), and a row is exactly as wide as its columns say, styles
    apart ([makeTableRow_wide]); a cell is a printable text or one of the
    marks, and a [Terminal] is what counts such cells. *)

From Stdlib Require Import Ascii String.
From S2P Require Import Prelude Types Storage Timing Node Utf8 Json GoStrings GoJson Admin AdminRows.
Open Scope Z_scope.

(** ** Text *)

(** [utf8.RuneCountInString]: an ill-formed byte counts as one. *)
Fixpoint rune_count_from (fuel : nat) (p : bytes) : Z :=
  match fuel, p with
  | Datatypes.S fuel, _ :: _ => 1 + rune_count_from fuel (drop (decode_rune p).2 p)
  | _, _ => 0
  end.

Definition rune_count (s : string) : Z := rune_count_from (String.length s) (to_bytes s).

Fixpoint spaces (k : nat) : string :=
  match k with O => "" | Datatypes.S k => String " " (spaces k) end.

(** [%-*s] and [%*s], [width >= 0]. *)
Definition padRight (width : Z) (s : string) : string :=
  s +:+ spaces (Z.to_nat (width - rune_count s)).
Definition padLeft (width : Z) (s : string) : string :=
  spaces (Z.to_nat (width - rune_count s)) +:+ s.

Definition shorten (s : string) (n : Z) : outcome string :=
  if n <=? 0 then Ret s
  else if str_len s <=? n then Ret s
  else if n <=? 3 then str_take n s
  else t ← str_take (n - 3) s; Ret (t +:+ "...").

Definition headerLabel (label : string) (width : Z) : outcome string :=
  if width <=? 0 then Ret ""
  else if str_len label <=? width then Ret label
  else if bool_decide (label = "LEADER") && (3 <=? width) then Ret "LDR"
  else if bool_decide (label = "ADDR") && (2 <=? width) then Ret "AD"
  else if bool_decide (label = "NODE") && (2 <=? width) then Ret "ND"
  else if bool_decide (label = "ROLE") && (2 <=? width) then Ret "RL"
  else str_take width label.

(** [strings.Repeat("-", n)], which panics on a negative count. *)
Fixpoint dashes (k : nat) : string :=
  match k with O => "" | Datatypes.S k => String "-" (dashes k) end.
Definition repeatDash (n : Z) : outcome string :=
  if n <? 0 then Panic else Ret (dashes (Z.to_nat n)).

(** ** Column widths *)

Module adminColWidths.
Record t : Type := mk { addr : Z; node : Z; role : Z; leader : Z }.
End adminColWidths.
Notation adminColWidths := adminColWidths.t.

Definition longest (field : adminRow → string) (rows : list adminRow) (label : string) : Z :=
  foldl (λ m r, if m <? str_len (field r) then str_len (field r) else m) (str_len label) rows.

(** One entry of the shrinking loop: the new width and the deficit left. *)
Definition shrink (cur min deficit : Z) : Z * Z :=
  if deficit =? 0 then (cur, deficit) else
  let capacity := cur - min in
  if capacity <=? 0 then (cur, deficit) else
  let delta := minInt deficit capacity in
  (cur - delta, deficit - delta).

(** The loop over [addr], [leader], [node], [role]. *)
Definition shrinkCols (col : adminColWidths) (deficit : Z) : adminColWidths :=
  let '(addr, deficit) := shrink (adminColWidths.addr col) 4 deficit in
  let '(leader, deficit) := shrink (adminColWidths.leader col) 2 deficit in
  let '(node, deficit) := shrink (adminColWidths.node col) 4 deficit in
  let '(role, deficit) := shrink (adminColWidths.role col) 6 deficit in
  adminColWidths.mk addr node role leader.

Definition adminColumnsForWidth (rows : list adminRow) (contentWidth : Z)
    : adminColWidths * bool :=
  let col := adminColWidths.mk
    (clampInt (longest adminRow.addr rows "ADDR") 8 14)
    (clampInt (longest adminRow.nodeID rows "NODE") 4 7)
    (clampInt (longest adminRow.role rows "ROLE") 6 8)
    (clampInt (longest adminRow.leaderID rows "LEADER") 2 6) in
  let baseVar := adminColWidths.addr col + adminColWidths.node col
                 + adminColWidths.role col + adminColWidths.leader col in
  let showAat := 96 <=? contentWidth in
  let fixed := if showAat then 48 else 39 in
  let targetVar := contentWidth -! fixed in
  if targetVar <=? 0 then (col, showAat) else
  let extra := targetVar -! baseVar in
  if extra <? 0 then (shrinkCols col (- extra), showAat)
  else (adminColWidths.mk (adminColWidths.addr col + minInt extra 8) (adminColWidths.node col)
          (adminColWidths.role col) (adminColWidths.leader col), showAat).

(** ** Cells *)

(** The styles of [uiStyles]. *)
Inductive style : Type :=
  | dotHealthy | dotDegraded | dotUnavail | dotUnknown | dotSelected
  | styAddr | nodeLead | roleLeader | roleCand | roleFollow
  | leaderSelf | leaderOther | leaderNone | termVal | metric | timeVal | cfgVal
  | appHeader | tsStyle | footer | divider | alertsHdr | errorDot | errorKindSty
  | peerLabel | peerValue | sumDim | sumTotal | sumHealthy | sumErrors | sumLeader | sumCand
  | ldrMissing.

Section table.
Context (Render : style → string → string) (RenderHeader : Z → string → string).
Implicit Types (r : adminRow) (cols : adminColWidths).

Definition renderStatusDot (status errStr : string) (selected : bool) : string :=
  (if selected then Render dotSelected "▶"
   else if negb (bool_decide (errStr = "")) then Render dotUnavail "●"
   else if bool_decide (status = "healthy") then Render dotHealthy "●"
   else if bool_decide (status = "degraded") then Render dotDegraded "●"
   else if bool_decide (status = "unavailable") then Render dotUnavail "●"
   else Render dotUnknown "·") +:+ " ".

(** The cell every renderer starts from. *)
Definition paddedCell (s : string) (width : Z) : outcome string :=
  t ← shorten s width; Ret (padRight width t).

Definition renderAddrCell (s : string) (width : Z) : outcome string :=
  p ← paddedCell s width; Ret (Render styAddr p).

Definition renderNodeCell (s : string) (width : Z) (role : string) : outcome string :=
  p ← paddedCell s width;
  Ret (if bool_decide (role = "leader") then Render nodeLead p else p).

Definition renderRoleCell (s : string) (width : Z) (role : string) : outcome string :=
  p ← paddedCell s width;
  Ret (if bool_decide (role = "leader") then Render roleLeader p
       else if bool_decide (role = "candidate") then Render roleCand p
       else if bool_decide (role = "follower") then Render roleFollow p
       else p).

Definition renderLeaderCell (s : string) (width : Z) (role : string) : outcome string :=
  p ← paddedCell s width;
  Ret (if bool_decide (s = "") then Render leaderNone p
       else if bool_decide (role = "leader") then Render leaderSelf p
       else Render leaderOther p).

Definition renderTermCell (v width : Z) : string := Render termVal (padLeft width (itoa v)).
Definition renderMetricCell (v width : Z) : string := Render metric (padLeft width (itoa v)).

Definition renderTimeCell (s : string) (width : Z) : outcome string :=
  p ← paddedCell s width; Ret (Render timeVal p).

Definition renderCFGCell (s : string) (width : Z) : outcome string :=
  p ← paddedCell s width;
  Ret (if bool_decide (trim_space s = "") then p else Render cfgVal p).

(** [fmt.Sprintf("%-*s", width, dash)] and the like. *)
Definition dash : string := "-".

(** The row of a node that did not answer (lines 310-325). *)
Definition makeErrorRow r cols (showAat : bool) (dot : string) : outcome string :=
  addr ← renderAddrCell (adminRow.addr r) (adminColWidths.addr cols);
  let base := dot +:+ " " +:+ addr
    +:+ " " +:+ padRight (adminColWidths.node cols) dash
    +:+ " " +:+ padRight (adminColWidths.role cols) dash
    +:+ " " +:+ padRight (adminColWidths.leader cols) dash
    +:+ " " +:+ padLeft 4 dash +:+ " " +:+ padLeft 5 dash +:+ " " +:+ padLeft 5 dash
    +:+ " " +:+ padLeft 5 dash +:+ " " +:+ padLeft 5 dash in
  Ret (if showAat then base +:+ " " +:+ padRight 8 dash +:+ " " +:+ padRight 3 dash
       else base +:+ " " +:+ padRight 3 dash).

Definition makeTableRow r cols (showAat selected : bool) : outcome string :=
  let dot := renderStatusDot (adminRow.status r) (adminRow.err r) selected in
  if negb (bool_decide (adminRow.err r = "")) then makeErrorRow r cols showAat dot else
  addr ← renderAddrCell (adminRow.addr r) (adminColWidths.addr cols);
  node ← renderNodeCell (adminRow.nodeID r) (adminColWidths.node cols) (adminRow.role r);
  role ← renderRoleCell (adminRow.role r) (adminColWidths.role cols) (adminRow.role r);
  leader ← renderLeaderCell (adminRow.leaderID r) (adminColWidths.leader cols) (adminRow.role r);
  let base := dot +:+ " " +:+ addr +:+ " " +:+ node +:+ " " +:+ role +:+ " " +:+ leader
    +:+ " " +:+ renderTermCell (adminRow.term r) 4
    +:+ " " +:+ renderMetricCell (adminRow.commit r) 5
    +:+ " " +:+ renderMetricCell (adminRow.applied r) 5
    +:+ " " +:+ renderMetricCell (adminRow.lastLog r) 5
    +:+ " " +:+ renderMetricCell (adminRow.snapshot r) 5 in
  cfg ← renderCFGCell (adminRow.cfg r) 3;
  if showAat then
    time ← renderTimeCell (adminRow.lastAppliedAt r) 8;
    Ret (base +:+ " " +:+ time +:+ " " +:+ cfg)
  else Ret (base +:+ " " +:+ cfg).

Definition renderHeader cols (showAat : bool) (contentWidth : Z) : outcome string :=
  addr ← headerLabel "ADDR" (adminColWidths.addr cols);
  node ← headerLabel "NODE" (adminColWidths.node cols);
  role ← headerLabel "ROLE" (adminColWidths.role cols);
  leader ← headerLabel "LEADER" (adminColWidths.leader cols);
  Ret (RenderHeader contentWidth
    (padRight 2 "ST"
     +:+ " " +:+ padRight (adminColWidths.addr cols) addr
     +:+ " " +:+ padRight (adminColWidths.node cols) node
     +:+ " " +:+ padRight (adminColWidths.role cols) role
     +:+ " " +:+ padRight (adminColWidths.leader cols) leader
     +:+ " " +:+ padLeft 4 "TERM" +:+ " " +:+ padLeft 5 "CMT" +:+ " " +:+ padLeft 5 "APL"
     +:+ " " +:+ padLeft 5 "LOG" +:+ " " +:+ padLeft 5 "SNAP"
     +:+ (if showAat then " " +:+ padRight 8 "A_AT" else "")
     +:+ " " +:+ padRight 3 "CFG")).

(** ** Summary and alerts *)

Record summary : Type := mkSummary {
  healthy : Z; errorsN : Z; leaders : Z; candidates : Z }.

Definition countSummary (s : summary) r : summary :=
  if negb (bool_decide (adminRow.err r = ""))
  then mkSummary (healthy s) (errorsN s + 1) (leaders s) (candidates s)
  else
    let h := if bool_decide (adminRow.status r = "healthy") then healthy s + 1 else healthy s in
    if bool_decide (adminRow.role r = "leader")
    then mkSummary h (errorsN s) (leaders s + 1) (candidates s)
    else if bool_decide (adminRow.role r = "candidate")
    then mkSummary h (errorsN s) (leaders s) (candidates s + 1)
    else mkSummary h (errorsN s) (leaders s) (candidates s).

Definition bracket (st : style) (label : string) (n : Z) : string :=
  Render sumDim "[" +:+ Render st (itoa n) +:+ Render sumDim (" " +:+ label +:+ "]").

Definition renderSummary (rows : list adminRow) : string :=
  let s := foldl countSummary (mkSummary 0 0 0 0) rows in
  join_with " "
    [bracket sumTotal "total" (zlen rows); bracket sumHealthy "healthy" (healthy s);
     bracket sumErrors "errors" (errorsN s); bracket sumLeader "leader" (leaders s);
     bracket sumCand "candidate" (candidates s)].

Definition alertLine (contentWidth : Z) r : outcome string :=
  summary ← shorten (errorSummary (adminRow.err r)) (maxInt 20 (contentWidth - 28));
  Ret (join_with " " [Render errorDot "●"; adminRow.addr r;
                      Render errorKindSty (errorKind (adminRow.err r)); summary]).

Fixpoint alertRows (contentWidth : Z) (rows : list adminRow) : outcome (list string) :=
  match rows with
  | [] => Ret []
  | r :: rows =>
      if bool_decide (adminRow.err r = "") then alertRows contentWidth rows else
      l ← alertLine contentWidth r; ls ← alertRows contentWidth rows; Ret (l :: ls)
  end.

Definition buildAlertLines (rows : list adminRow) (contentWidth : Z) : outcome (list string) :=
  let '(leaderMissing, quorum, healthy) := detectLeaderMissing rows in
  ls ← alertRows contentWidth rows;
  Ret ((if leaderMissing then
          [Render ldrMissing "LEADER_MISSING" +:+ " healthy=" +:+ itoa healthy +:+ " quorum="
             +:+ itoa quorum +:+ " (election in progress or stalled)"]
        else []) ++ ls).
End table.

(** ** Plain text and its width *)

(** Printable ASCII. *)
Fixpoint plain (s : string) : bool :=
  match s with
  | String a t => (32 <=? code a) && (code a <? 127) && plain t
  | EmptyString => true
  end.

Lemma plain_app a b : plain (a +:+ b) = plain a && plain b.
Proof.
  induction a as [|x a IH]; [done|]. change (String x a +:+ b) with (String x (a +:+ b)).
  cbn [plain]. by rewrite IH, andb_assoc.
Qed.

Lemma plain_spaces k : plain (spaces k) = true.
Proof. induction k; [done|]. cbn [spaces plain]. by rewrite IHk. Qed.

Lemma str_len_spaces k : str_len (spaces k) = Z.of_nat k.
Proof. unfold str_len. f_equal. induction k; simpl; congruence. Qed.

Lemma plain_substring n s : plain s = true → plain (String.substring 0 n s) = true.
Proof.
  revert s. induction n as [|n IH]; intros [|a s]; simpl; try done.
  intros [Ha Hs]%andb_true_iff. rewrite Ha. by apply IH.
Qed.

Lemma b2z_byte_of_ascii a : b2z (byte_of_ascii a) = code a.
Proof. destruct a as [[] [] [] [] [] [] [] []]; vm_compute; done. Qed.

Lemma rune_count_plain s : plain s = true → rune_count s = str_len s.
Proof.
  unfold rune_count, str_len, to_bytes. induction s as [|a s IH]; [done|]. cbn [plain].
  intros [[H1 H2]%andb_true_iff Hs]%andb_true_iff.
  cbn [String.list_byte_of_string String.list_ascii_of_string List.map String.length rune_count_from].
  assert (decode_rune (byte_of_ascii a :: map byte_of_ascii (list_ascii_of_string s)) = (code a, 1%nat)) as ->.
  { unfold decode_rune. cbn [fmap list_fmap]. rewrite b2z_byte_of_ascii.
    destruct (Z.ltb_spec (code a) 128); [done|zbool; lia]. }
  cbn [snd]. rewrite skipn_cons, drop_0. unfold String.list_byte_of_string in IH. rewrite IH by done. lia.
Qed.

Lemma str_take_plain n s t : plain s = true → str_take n s = Ret t → plain t = true.
Proof. unfold str_take. case_match; [done|]. intros Hs [= <-]. by apply plain_substring. Qed.

Lemma shorten_spec s n :
  ∃ t, shorten s n = Ret t ∧ (0 < n → str_len t ≤ n) ∧ (plain s = true → plain t = true).
Proof.
  unfold shorten. destruct (Z.leb_spec n 0); [exists s; split_and!; [done|lia|done]|].
  destruct (Z.leb_spec (str_len s) n); [by exists s|].
  destruct (Z.leb_spec n 3).
  - destruct (str_take_Ret n s) as (t & E & Hl); [lia|]. exists t. split_and!; [done|lia|].
    intros Hs. by eapply str_take_plain.
  - destruct (str_take_Ret (n - 3) s) as (t & E & Hl); [lia|]. rewrite E. cbn [mbind outcome_bind].
    eexists. split; [done|]. split.
    + intros _. change (str_len (t ++ "...") ≤ n). rewrite str_len_app. change (str_len "...") with 3. lia.
    + intros Hs. rewrite plain_app, (str_take_plain _ _ _ Hs E). done.
Qed.

Lemma padRight_plain w s :
  plain s = true → str_len s ≤ w → plain (padRight w s) = true ∧ str_len (padRight w s) = w.
Proof.
  intros Hs Hl. unfold padRight. rewrite rune_count_plain by done.
  rewrite plain_app, Hs, plain_spaces. split; [done|].
  change (str_len (s ++ spaces (Z.to_nat (w - str_len s))) = w).
  rewrite str_len_app, str_len_spaces. lia.
Qed.

Lemma padLeft_plain w s :
  plain s = true → str_len s ≤ w → plain (padLeft w s) = true ∧ str_len (padLeft w s) = w.
Proof.
  intros Hs Hl. unfold padLeft. rewrite rune_count_plain by done.
  rewrite plain_app, Hs, plain_spaces. split; [done|].
  change (str_len (spaces (Z.to_nat (w - str_len s)) ++ s) = w).
  rewrite str_len_app, str_len_spaces. lia.
Qed.

Lemma paddedCell_total s w : ∃ p, paddedCell s w = Ret p.
Proof.
  unfold paddedCell. destruct (shorten_spec s w) as (t & -> & _). by eexists.
Qed.

Lemma paddedCell_plain s w p :
  0 < w → plain s = true → paddedCell s w = Ret p → plain p = true ∧ str_len p = w.
Proof.
  intros Hw Hs. unfold paddedCell. destruct (shorten_spec s w) as (t & -> & Hl & Hp).
  cbn [mbind outcome_bind]. intros [= <-]. apply padRight_plain; auto.
Qed.

Lemma plain_uint d : plain (of_bytes (print_uint d)) = true.
Proof. induction d; [done|..]; cbn [print_uint]; rewrite of_bytes_cons; cbn [plain]; by rewrite IHd. Qed.

Lemma plain_itoa v : plain (itoa v) = true.
Proof.
  unfold itoa, print_int. case_match; [|apply plain_uint].
  rewrite of_bytes_cons. cbn [plain]. by rewrite plain_uint.
Qed.

(** ** The width of a row on the terminal *)

Section width.
Context (Render : style → string → string) (RenderHeader : Z → string → string).
Implicit Types (r : adminRow) (cols : adminColWidths).

(** What a row is made of: printable text, the one-column marks, and either
    of them with a style, which adds no column. *)
Inductive cell : string → Z → Prop :=
  | cell_plain s : plain s = true → cell s (str_len s)
  | cell_mark s : s ∈ ["▶"; "●"; "·"] → cell s 1
  | cell_render st s k : cell s k → cell (Render st s) k.

Definition total (ks : list Z) : Z := foldr Z.add 0 ks.
Definition concat (ss : list string) : string := foldr String.append "" ss.

(** The number of columns a terminal uses: what lipgloss documents for text
    made of cells. *)
Class Terminal (columns : string → Z) : Prop :=
  columns_cells l : Forall (λ p, cell p.1 p.2) l → columns (concat l.*1) = total l.*2.

Definition wide (s : string) (k : Z) : Prop :=
  ∃ l, Forall (λ p, cell p.1 p.2) l ∧ s = concat l.*1 ∧ k = total l.*2.

Lemma wide_columns columns `{!Terminal columns} s k : wide s k → columns s = k.
Proof. intros (l & Hl & -> & ->). by apply columns_cells. Qed.

Lemma append_assoc (a b c : string) : (a +:+ b) +:+ c = a +:+ b +:+ c.
Proof.
  induction a as [|x a IH]; [done|].
  change (String x ((a +:+ b) +:+ c) = String x (a +:+ b +:+ c)). by rewrite IH.
Qed.

Lemma append_nil (a : string) : a +:+ "" = a.
Proof.
  induction a as [|x a IH]; [done|]. change (String x (a +:+ "") = String x a). by rewrite IH.
Qed.

Lemma total_app ks ks' : total (ks ++ ks') = total ks + total ks'.
Proof. induction ks as [|k ks IH]; simpl; lia. Qed.

Lemma concat_app ss ss' : concat (ss ++ ss') = concat ss +:+ concat ss'.
Proof. induction ss as [|s ss IH]; simpl; [done|]. by rewrite IH, append_assoc. Qed.

Lemma wide_app a b j k : wide a j → wide b k → wide (a +:+ b) (j + k).
Proof.
  intros (la & Ha & -> & ->) (lb & Hb & -> & ->). exists (la ++ lb).
  rewrite !fmap_app, total_app, concat_app. split; [by apply Forall_app|done].
Qed.

Lemma wide_cell s k : cell s k → wide s k.
Proof. intros Hc. exists [(s, k)]. split_and!; [by constructor|cbn; by rewrite append_nil|cbn; lia]. Qed.

Lemma wide_space : wide " " 1.
Proof. by apply wide_cell, cell_plain. Qed.

Lemma wide_eq s j k : wide s j → j = k → wide s k.
Proof. by intros ? <-. Qed.

(** Padded printable text, with a style or without. *)
Lemma wide_padded p k : plain p = true ∧ str_len p = k → wide p k.
Proof. intros [Hp <-]. by apply wide_cell, cell_plain. Qed.

Lemma wide_styled st p k : plain p = true ∧ str_len p = k → wide (Render st p) k.
Proof. intros [Hp <-]. by apply wide_cell, cell_render, cell_plain. Qed.

Lemma wide_dot status err sel : wide (renderStatusDot Render status err sel) 2.
Proof.
  unfold renderStatusDot. apply (wide_app _ _ 1 1); [|apply wide_space].
  repeat case_match; apply wide_cell, cell_render, cell_mark; set_solver.
Qed.

(** Rows whose text is printable and whose numbers fit their columns. *)
Record row_fits r : Prop := {
  rf_addr : plain (adminRow.addr r) = true;
  rf_node : plain (adminRow.nodeID r) = true;
  rf_role : plain (adminRow.role r) = true;
  rf_leader : plain (adminRow.leaderID r) = true;
  rf_cfg : plain (adminRow.cfg r) = true;
  rf_time : plain (adminRow.lastAppliedAt r) = true;
  rf_term : str_len (itoa (adminRow.term r)) ≤ 4;
  rf_commit : str_len (itoa (adminRow.commit r)) ≤ 5;
  rf_applied : str_len (itoa (adminRow.applied r)) ≤ 5;
  rf_last : str_len (itoa (adminRow.lastLog r)) ≤ 5;
  rf_snap : str_len (itoa (adminRow.snapshot r)) ≤ 5 }.

Definition cols_pos cols : Prop :=
  4 ≤ adminColWidths.addr cols ∧ 4 ≤ adminColWidths.node cols ∧
  6 ≤ adminColWidths.role cols ∧ 2 ≤ adminColWidths.leader cols.

Definition row_width cols (showAat : bool) : Z :=
  adminColWidths.addr cols + adminColWidths.node cols + adminColWidths.role cols
  + adminColWidths.leader cols + if showAat then 48 else 39.

Lemma wide_number st w v : str_len (itoa v) ≤ w → wide (Render st (padLeft w (itoa v))) w.
Proof. intros Hv. apply wide_styled, padLeft_plain; [apply plain_itoa|done]. Qed.

Lemma wide_dash w : 1 ≤ w → wide (padRight w dash) w ∧ wide (padLeft w dash) w.
Proof. intros Hw. split; apply wide_padded; [by apply padRight_plain|by apply padLeft_plain]. Qed.

(** Cells joined by single spaces. *)
Ltac spaced := repeat (apply wide_app; [|apply wide_app; [apply wide_space|]]).

Lemma makeTableRow_total r cols a sel : ∃ line, makeTableRow Render r cols a sel = Ret line.
Proof.
  assert (∀ s w, ∃ p, paddedCell s w = Ret p) as H by apply paddedCell_total.
  unfold makeTableRow, makeErrorRow, renderAddrCell, renderNodeCell, renderRoleCell,
    renderLeaderCell, renderCFGCell, renderTimeCell.
  destruct (H (adminRow.addr r) (adminColWidths.addr cols)) as [? ->].
  destruct (H (adminRow.nodeID r) (adminColWidths.node cols)) as [? ->].
  destruct (H (adminRow.role r) (adminColWidths.role cols)) as [? ->].
  destruct (H (adminRow.leaderID r) (adminColWidths.leader cols)) as [? ->].
  destruct (H (adminRow.cfg r) 3) as [? ->]. destruct (H (adminRow.lastAppliedAt r) 8) as [? ->].
  cbn [mbind outcome_bind]. repeat case_match; by eexists.
Qed.

Lemma makeTableRow_wide r cols a sel line :
  row_fits r → cols_pos cols → makeTableRow Render r cols a sel = Ret line →
  wide line (row_width cols a).
Proof.
  intros [] (Ha & Hn & Hr & Hl). unfold makeTableRow, row_width.
  pose proof (wide_dot (adminRow.status r) (adminRow.err r) sel) as Hdot.
  set (dot := renderStatusDot _ _ _ _) in *. clearbody dot.
  assert (∀ s w p, 0 < w → plain s = true → paddedCell s w = Ret p →
    wide p w ∧ ∀ st, wide (Render st p) w) as Hcell.
  { intros s w p Hw Hs Hp. pose proof (paddedCell_plain s w p Hw Hs Hp).
    split; [by apply wide_padded|intros; by apply wide_styled]. }
  case_match.
  - unfold makeErrorRow, renderAddrCell. intros Hop. binv.
    match goal with Hp : paddedCell _ _ = Ret _ |- _ => apply Hcell in Hp as [_ Hs]; [|lia|done] end.
    destruct (wide_dash (adminColWidths.node cols)) as [Dn _]; [lia|].
    destruct (wide_dash (adminColWidths.role cols)) as [Dr _]; [lia|].
    destruct (wide_dash (adminColWidths.leader cols)) as [Dl _]; [lia|].
    destruct (wide_dash 3) as [D3 _]; [lia|]. destruct (wide_dash 4) as [_ D4]; [lia|].
    destruct (wide_dash 5) as [_ D5]; [lia|]. destruct (wide_dash 8) as [D8 _]; [lia|].
    destruct a; rewrite ?append_assoc; eapply wide_eq; [spaced; eauto|lia|spaced; eauto|lia].
  - unfold renderAddrCell, renderNodeCell, renderRoleCell, renderLeaderCell, renderCFGCell, renderTimeCell.
    intros Hop.
    assert (∀ (b : bool) s t k, wide s k → wide t k → wide (if b then s else t) k) as Hif by by intros [].
    pose proof (wide_number termVal 4 _ rf_term0) as Dt.
    pose proof (wide_number metric 5 _ rf_commit0) as Dc. pose proof (wide_number metric 5 _ rf_applied0) as Da.
    pose proof (wide_number metric 5 _ rf_last0) as Dl. pose proof (wide_number metric 5 _ rf_snap0) as Ds.
    destruct a; binv;
      repeat match goal with Hp : paddedCell _ _ = Ret _ |- _ =>
        apply Hcell in Hp as [? ?]; [|lia|done] end;
      rewrite ?append_assoc; (eapply wide_eq; [spaced; unfold renderTermCell, renderMetricCell; eauto 6|lia]).
Qed.
End width.

(** ** The columns *)

Lemma shrink_spec cur min d :
  0 ≤ d → min ≤ cur →
  shrink cur min d = (Z.max min (cur - d), d - (cur - Z.max min (cur - d))).
Proof.
  intros Hd Hc. unfold shrink. cbv zeta. destruct (Z.eqb_spec d 0) as [->|].
  { rewrite Z.max_r by lia. f_equal; lia. }
  destruct (Z.leb_spec (cur - min) 0); [f_equal; lia|].
  unfold minInt. destruct (Z.ltb_spec d (cur - min)); f_equal; lia.
Qed.

Lemma clampInt_range v lo hi : lo ≤ hi → lo ≤ clampInt v lo hi ≤ hi.
Proof. unfold clampInt. intros. repeat case_match; zbool; lia. Qed.

Lemma columns_fit rs cw c a :
  -2147483648 ≤ cw < 2147483648 → adminColumnsForWidth rs cw = (c, a) →
  cols_pos c ∧ (55 ≤ cw → row_width c a ≤ cw).
Proof.
  intros Hcw. unfold adminColumnsForWidth. cbv zeta.
  pose proof (clampInt_range (longest adminRow.addr rs "ADDR") 8 14 ltac:(lia)) as H1.
  pose proof (clampInt_range (longest adminRow.nodeID rs "NODE") 4 7 ltac:(lia)) as H2.
  pose proof (clampInt_range (longest adminRow.role rs "ROLE") 6 8 ltac:(lia)) as H3.
  pose proof (clampInt_range (longest adminRow.leaderID rs "LEADER") 2 6 ltac:(lia)) as H4.
  revert H1 H2 H3 H4. generalize (clampInt (longest adminRow.addr rs "ADDR") 8 14).
  generalize (clampInt (longest adminRow.nodeID rs "NODE") 4 7).
  generalize (clampInt (longest adminRow.role rs "ROLE") 6 8).
  generalize (clampInt (longest adminRow.leaderID rs "LEADER") 2 6).
  intros l r n ad H1 H2 H3 H4. unfold cols_pos, row_width. cbn [adminColWidths.addr
    adminColWidths.node adminColWidths.role adminColWidths.leader].
  set (f := if 96 <=? cw then 48 else 39).
  assert (f = 48 ∧ 96 ≤ cw ∨ f = 39 ∧ cw < 96) as Hf
    by (subst f; destruct (Z.leb_spec 96 cw); [by left|by right]).
  i64_norm. destruct (Z.leb_spec (cw - f) 0).
  { intros [= <- <-]. fold f. cbn. fold f. lia. }
  destruct (Z.ltb_spec (cw - f - (ad + n + r + l)) 0); intros [= <- <-].
  - unfold shrinkCols. cbn [adminColWidths.addr adminColWidths.node adminColWidths.role adminColWidths.leader].
    rewrite !shrink_spec by lia. cbn. fold f. lia.
  - unfold minInt. cbn. fold f. destruct (Z.ltb_spec (cw - f - (ad + n + r + l)) 8); lia.
Qed.
