(* ===== verification/AdminScreen.v ===== *)
(** * AdminScreen: the screen of the admin command

    [cmd/client/admin.go]: the bubbletea model with its cursor and its window
    ([Update], [View]).  [adminModel] is the Go struct without the connections
    and the timeout, which it only passes to the poll; the clock's format and
    what bubbletea calls a key are parameters.

    The theorem: whatever rows, window sizes and keys arrive, in any order,
    [Update] and [View] never index out of range and the cursor stays on a
    row; and in a window of at least 57 columns no row of printable ASCII text
    whose numbers fit their columns is wider than the window. *)

From Stdlib Require Import Ascii String.
From S2P Require Import Prelude Types Storage Timing Node Utf8 Json GoStrings GoJson Admin AdminRows AdminTable.
Open Scope Z_scope.

(** ** The model *)

Record adminModel : Type := mkModel {
  rows : list adminRow;
  ts : Z;
  width : Z;
  height : Z;
  cursor : Z;
  scrollOff : Z;
  selectedID : string;
  showAat : bool;
  mcols : adminColWidths }.

Section screen.
Context (Render : style → string → string) (RenderHeader : Z → string → string).
Implicit Types (m : adminModel).

Definition newAdminModel : adminModel :=
  mkModel [] 0 120 40 0 0 "" false (adminColWidths.mk 0 0 0 0).

Definition contentWidth m : Z :=
  let w := width m -! 2 in if w <=? 0 then 80 else w.

Definition recalcCols m : adminModel :=
  let '(c, a) := adminColumnsForWidth (rows m) (contentWidth m) in
  mkModel (rows m) (ts m) (width m) (height m) (cursor m) (scrollOff m) (selectedID m) a c.

Definition visibleRowCount m : Z := maxInt 2 (height m -! 9).

Definition set_cursor (c : Z) m : adminModel :=
  mkModel (rows m) (ts m) (width m) (height m) c (scrollOff m) (selectedID m) (showAat m) (mcols m).
Definition set_scroll (s : Z) m : adminModel :=
  mkModel (rows m) (ts m) (width m) (height m) (cursor m) s (selectedID m) (showAat m) (mcols m).
Definition set_selected (s : string) m : adminModel :=
  mkModel (rows m) (ts m) (width m) (height m) (cursor m) (scrollOff m) s (showAat m) (mcols m).

Definition clampScroll m : adminModel :=
  let visRows := visibleRowCount m in
  let s := if cursor m <? scrollOff m then cursor m
           else if scrollOff m +! visRows <=? cursor m then cursor m - visRows + 1
           else scrollOff m in
  set_scroll (if s <? 0 then 0 else s) m.

Definition moveCursor (delta : Z) m : outcome adminModel :=
  if bool_decide (rows m = []) then Ret m else
  let m := set_cursor (clampInt (cursor m +! delta) 0 (zlen (rows m) - 1)) m in
  let m := clampScroll m in
  r ← zget (rows m) (cursor m);
  Ret (set_selected (adminRow.nodeID r) m).

(** The position of the first row with the identifier, from [i]. *)
Fixpoint find_row (id : string) (i : Z) (rs : list adminRow) : option Z :=
  match rs with
  | [] => None
  | r :: rs => if bool_decide (adminRow.nodeID r = id) then Some i else find_row id (i + 1) rs
  end.

Definition restoreSelection m : outcome adminModel :=
  if bool_decide (selectedID m = "") then
    match rows m with
    | [] => Ret m
    | r :: _ => Ret (set_selected (adminRow.nodeID r) (set_cursor 0 m))
    end
  else
    match find_row (selectedID m) 0 (rows m) with
    | Some i => Ret (clampScroll (set_cursor i m))
    | None =>
        let m := if zlen (rows m) <=? cursor m
                 then set_cursor (maxInt 0 (zlen (rows m) - 1)) m else m in
        if bool_decide (rows m = []) then Ret m else
        r ← zget (rows m) (cursor m);
        Ret (set_selected (adminRow.nodeID r) m)
    end.

(** The messages of the program, and the commands it answers with. *)
Inductive message : Type :=
  | WindowSizeMsg (w h : Z)
  | TickMsg
  | RowsMsg (rs : list adminRow) (t : Z)
  | KeyMsg (key : string)
  | OtherMsg.

Inductive command : Type := NoCmd | PollCmd | TickCmd | QuitCmd.

Definition is_key (key : string) (l : list string) : bool := bool_decide (key ∈ l).

Definition Update (msg : message) m : outcome (adminModel * command) :=
  match msg with
  | WindowSizeMsg w h =>
      Ret (recalcCols (mkModel (rows m) (ts m) w h (cursor m) (scrollOff m) (selectedID m)
                         (showAat m) (mcols m)), NoCmd)
  | TickMsg => Ret (m, PollCmd)
  | RowsMsg rs t =>
      m ← restoreSelection (recalcCols (mkModel rs t (width m) (height m) (cursor m)
             (scrollOff m) (selectedID m) (showAat m) (mcols m)));
      Ret (m, TickCmd)
  | KeyMsg key =>
      if is_key key ["ctrl+c"; "q"] then Ret (m, QuitCmd)
      else if is_key key ["up"; "k"] then m ← moveCursor (-1) m; Ret (m, NoCmd)
      else if is_key key ["down"; "j"] then m ← moveCursor 1 m; Ret (m, NoCmd)
      else Ret (m, NoCmd)
  | OtherMsg => Ret (m, NoCmd)
  end.

(** ** The view *)

(** The rows on screen: [count] of them from index [i]. *)
Fixpoint tableLines (count : nat) (i : Z) m : outcome (list string) :=
  match count with
  | O => Ret []
  | Datatypes.S count =>
      r ← zget (rows m) i;
      line ← makeTableRow Render r (mcols m) (showAat m) (i =? cursor m);
      lines ← tableLines count (i + 1) m;
      Ret (line :: lines)
  end.

Definition tableBody m : outcome (list string) :=
  let start := scrollOff m in
  let end_ := minInt (start +! visibleRowCount m) (zlen (rows m)) in
  tableLines (Z.to_nat (end_ - start)) start m.

Definition peersPane m : string :=
  match rows m !! Z.to_nat (cursor m) with
  | Some r => if (0 <=? cursor m) && negb (bool_decide (adminRow.peers r = ""))
              then adminRow.peers r else "-"
  | None => "-"
  end.

Definition unlines (ls : list string) : string := String.concat "" ((λ l, l +:+ nl) <$> ls).

Definition alertSection (cw : Z) m : outcome string :=
  alerts ← buildAlertLines Render (rows m) cw;
  if bool_decide (alerts = []) then Ret "" else
  d ← repeatDash cw;
  Ret (unlines ([Render divider d; Render alertsHdr "Alerts"] ++ alerts)).

(** The frame padded with blank lines to the height of the terminal. *)
Definition padHeight (h : Z) (out : string) : string :=
  if 0 <? h then
    let lines := split newline out in
    join_with nl (lines ++ replicate (Z.to_nat (h - zlen lines)) "")
  else out.

Context (formatTime : Z → string).

Definition View m : outcome string :=
  let cw := contentWidth m in
  header ← renderHeader RenderHeader (mcols m) (showAat m) cw;
  body ← tableBody m;
  peers ← shorten (peersPane m) (maxInt 10 (cw - 12));
  alerts ← alertSection cw m;
  Ret (padHeight (height m)
    (unlines (["  " +:+ Render appHeader "Admin view" +:+ "  " +:+ Render tsStyle (formatTime (ts m));
               renderSummary Render (rows m); ""; header] ++ body ++
              [""; "  " +:+ Render peerLabel "peers:" +:+ " " +:+ Render peerValue peers])
     +:+ alerts +:+ nl +:+ "  " +:+ Render footer "Ctrl+C to exit")).

(** The program: a sequence of messages, and what is on screen after it. *)
Fixpoint updates (msgs : list message) m : outcome adminModel :=
  match msgs with
  | [] => Ret m
  | msg :: msgs => '(m, _) ← Update msg m; updates msgs m
  end.

End screen.

(** ** Well-formed models *)

Section model.
Context (Render : style → string → string) (RenderHeader : Z → string → string).
Context (formatTime : Z → string).
Implicit Types (m : adminModel).

Notation small z := (0 ≤ z < 2147483648).

(** What the terminal and the poll can send. *)
Definition msg_fits (msg : message) : Prop :=
  match msg with
  | WindowSizeMsg w h => small w ∧ small h
  | RowsMsg rs _ => zlen rs < 2147483648
  | _ => True
  end.

Record model_ok m : Prop := {
  mo_rows : zlen (rows m) < 2147483648;
  mo_cursor : small (cursor m);
  mo_range : rows m ≠ [] → cursor m < zlen (rows m);
  mo_scroll : small (scrollOff m);
  mo_height : small (height m);
  mo_width : small (width m);
  mo_cols : rows m = [] ∨ adminColumnsForWidth (rows m) (contentWidth m) = (mcols m, showAat m) }.

(** The cursor is among the rows on screen. *)
Definition on_screen m : Prop := scrollOff m ≤ cursor m < scrollOff m + visibleRowCount m.

Lemma contentWidth_range m : small (width m) → 0 < contentWidth m < 2147483648.
Proof. intros Hw. unfold contentWidth. cbv zeta. i64_norm. case_match; zbool; lia. Qed.

Lemma visibleRowCount_range m :
  small (height m) → 2 ≤ visibleRowCount m < 2147483648 ∧ visibleRowCount m = Z.max 2 (height m - 9).
Proof. intros Hh. unfold visibleRowCount, maxInt. i64_norm. case_match; zbool; lia. Qed.

Lemma clampScroll_ok m :
  model_ok m → model_ok (clampScroll m) ∧ on_screen (clampScroll m).
Proof.
  intros []. destruct (visibleRowCount_range m mo_height0) as [Hv _].
  assert (∃ s, clampScroll m = set_scroll s m ∧ small s ∧
    s ≤ cursor m < s + visibleRowCount m) as (s & -> & Hs & Hc).
  { unfold clampScroll. cbv zeta. i64_norm. eexists. split; [done|].
    destruct (Z.ltb_spec (cursor m) (scrollOff m)); [case_match; zbool; lia|].
    destruct (Z.leb_spec (scrollOff m + visibleRowCount m) (cursor m)); case_match; zbool; lia. }
  split; [|done]. by split.
Qed.

(** A model with other rows, window, cursor or selection. *)
Lemma recalcCols_ok m :
  zlen (rows m) < 2147483648 → small (cursor m) → (rows m ≠ [] → cursor m < zlen (rows m)) →
  small (scrollOff m) → small (height m) → small (width m) → model_ok (recalcCols m).
Proof.
  intros. unfold recalcCols. destruct (adminColumnsForWidth _ _) as [c a] eqn:E. split; try done. by right.
Qed.

Lemma model_ok_cursor m c :
  model_ok m → small c → (rows m ≠ [] → c < zlen (rows m)) → model_ok (set_cursor c m).
Proof. by intros [] ? ?; split. Qed.

Lemma model_ok_selected m id : model_ok m → model_ok (set_selected id m).
Proof. by intros []; split. Qed.

Lemma zlen_pos {A} (l : list A) : l ≠ [] → 0 < zlen l.
Proof. destruct l; [done|]. intros _. rewrite zlen_cons. pose proof (zlen_nonneg l). lia. Qed.

Lemma moveCursor_ok d m :
  model_ok m → -1 ≤ d ≤ 1 →
  ∃ m', moveCursor d m = Ret m' ∧ model_ok m' ∧ (rows m ≠ [] → on_screen m').
Proof.
  intros Hm Hd. unfold moveCursor. case_bool_decide as Hr; [by exists m|]. pose proof Hm as [].
  pose proof (zlen_pos _ Hr). i64_norm. set (c := clampInt _ _ _).
  pose proof (clampInt_range (cursor m + d) 0 (zlen (rows m) - 1) ltac:(lia)) as Hc. fold c in Hc.
  destruct (clampScroll_ok (set_cursor c m)) as [Hok Hon].
  { apply model_ok_cursor; [done|lia|]. intros _. simpl. lia. }
  cbv zeta. set (k := clampScroll _) in *.
  assert (rows k = rows m ∧ cursor k = c) as [Hkr Hkc] by done.
  destruct (zget_in_range (rows k) (cursor k)) as [r ->]; [rewrite Hkr, Hkc; lia|].
  cbn [mbind outcome_bind]. eexists. split; [done|]. split; [by apply model_ok_selected|done].
Qed.

Lemma find_row_spec id rs i :
  match find_row id i rs with
  | Some j => i ≤ j < i + zlen rs ∧ ∃ r, rs !! Z.to_nat (j - i) = Some r ∧ adminRow.nodeID r = id
  | None => ∀ r, r ∈ rs → adminRow.nodeID r ≠ id
  end.
Proof.
  revert i. induction rs as [|r rs IH]; intros i; cbn [find_row]; [by intros r ?%elem_of_nil|].
  rewrite zlen_cons. pose proof (zlen_nonneg rs). case_bool_decide as Hid.
  { split; [lia|]. exists r. by rewrite Z.sub_diag. }
  specialize (IH (i + 1)). destruct (find_row id (i + 1) rs) as [j|].
  - destruct IH as (Hj & r' & Hr' & E). split; [lia|]. exists r'. split; [|done].
    replace (Z.to_nat (j - i)) with (Datatypes.S (Z.to_nat (j - (i + 1)))) by lia. done.
  - intros r' [->|?]%elem_of_cons; [done|by apply IH].
Qed.

(** After a poll the selected node, if it answered, is still selected and on
    screen. *)
Definition still_selected id m : Prop :=
  on_screen m ∧ ∃ r, rows m !! Z.to_nat (cursor m) = Some r ∧ adminRow.nodeID r = id.

Lemma restoreSelection_ok m :
  (rows m ≠ [] → model_ok (set_cursor 0 m)) → (rows m = [] → model_ok m) → small (cursor m) →
  ∃ m', restoreSelection m = Ret m' ∧ model_ok m' ∧ rows m' = rows m ∧
    (selectedID m ≠ "" → (∃ r, r ∈ rows m ∧ adminRow.nodeID r = selectedID m) →
       still_selected (selectedID m) m').
Proof.
  intros Hm Hnil Hcur. unfold restoreSelection. case_bool_decide as Hsel.
  { destruct (rows m) as [|r rs] eqn:E.
    - exists m. split_and!; [done|by apply Hnil|done|done].
    - eexists. split; [done|]. split; [by apply model_ok_selected, Hm|]. done. }
  pose proof (find_row_spec (selectedID m) (rows m) 0) as Hf.
  destruct (find_row (selectedID m) 0 (rows m)) as [j|].
  - destruct Hf as (Hj & r & Hr & Hid). rewrite Z.add_0_l in Hj. rewrite Z.sub_0_r in Hr.
    assert (rows m ≠ []) as Hne by (intros E; rewrite E in Hr; done).
    pose proof (mo_rows _ (Hm Hne)) as Hl. simpl in Hl.
    destruct (clampScroll_ok (set_cursor j m)) as [Hok Hon].
    { apply (model_ok_cursor (set_cursor 0 m)); [by apply Hm|lia|]. intros _. simpl. lia. }
    eexists. split; [done|]. split_and!; [done|done|]. intros _ _. split; [done|]. by exists r.
  - set (k := if zlen (rows m) <=? cursor m then _ else m).
    assert (∃ c, k = set_cursor c m ∧ small c ∧ (rows m ≠ [] → c < zlen (rows m))) as (c & -> & Hc & Hlt).
    { subst k. pose proof (zlen_nonneg (rows m)). destruct (Z.leb_spec (zlen (rows m)) (cursor m)).
      - exists (maxInt 0 (zlen (rows m) - 1)). split; [done|]. unfold maxInt.
        split; [case_match; zbool; lia|]. intros ?%zlen_pos. case_match; zbool; lia.
      - exists (cursor m). split; [by destruct m|]. split; [done|lia]. }
    cbv zeta. change (rows (set_cursor c m)) with (rows m). case_bool_decide as Hr.
    + eexists. split; [done|]. split; [|split; [done|]].
      * apply (model_ok_cursor m); [by apply Hnil|done|done].
      * intros _ (r & Hin & Hid). by destruct (Hf r Hin).
    + destruct (zget_in_range (rows m) c) as [r E]; [split; [lia|by apply Hlt]|].
      change (cursor (set_cursor c m)) with c. rewrite E. cbn [mbind outcome_bind].
      eexists. split; [done|]. split; [|split; [done|]].
      * by apply model_ok_selected, (model_ok_cursor (set_cursor 0 m)); [apply Hm|..].
      * intros _ (r' & Hin & Hid). by destruct (Hf r' Hin).
Qed.

(** What a message changes on the screen: a poll keeps the selected node
    selected if it answered, an arrow key brings the cursor on screen. *)
Definition follows (msg : message) m m' : Prop :=
  match msg with
  | RowsMsg rs _ =>
      rows m' = rs ∧
      (selectedID m ≠ "" → (∃ r, r ∈ rs ∧ adminRow.nodeID r = selectedID m) →
         still_selected (selectedID m) m')
  | KeyMsg key => is_key key ["up"; "k"; "down"; "j"] = true → rows m ≠ [] → on_screen m'
  | _ => rows m' = rows m
  end.

Lemma is_key_disjoint key :
  is_key key ["up"; "k"; "down"; "j"] = true → is_key key ["ctrl+c"; "q"] = false ∧
  (is_key key ["up"; "k"] = true ∨ is_key key ["down"; "j"] = true).
Proof.
  unfold is_key. intros H%bool_decide_eq_true.
  rewrite !elem_of_cons in H. destruct H as [->|[->|[->|[->|[]%elem_of_nil]]]]; vm_compute; auto.
Qed.

Lemma recalcCols_cursor c m : recalcCols (set_cursor c m) = set_cursor c (recalcCols m).
Proof.
  unfold recalcCols. change (contentWidth (set_cursor c m)) with (contentWidth m).
  change (rows (set_cursor c m)) with (rows m). by destruct (adminColumnsForWidth _ _).
Qed.

Lemma Update_ok msg m :
  model_ok m → msg_fits msg →
  ∃ m' c, Update msg m = Ret (m', c) ∧ model_ok m' ∧ follows msg m m'.
Proof.
  intros Hm Hmsg. destruct msg as [w h| |rs t|key|]; cbn [Update].
  - eexists _, _. split; [done|]. destruct Hmsg, Hm. split; [by apply recalcCols_ok|].
    unfold follows, recalcCols. by case_match.
  - by eexists m, _.
  - set (k := recalcCols _).
    assert (rows k = rs ∧ cursor k = cursor m ∧ selectedID k = selectedID m ∧
      ∃ n, k = recalcCols n ∧ n = mkModel rs t (width m) (height m) (cursor m) (scrollOff m)
        (selectedID m) (showAat m) (mcols m)) as (Er & Ec & Es & n & Ek & En).
    { subst k. split_and!; [unfold recalcCols; simpl; by case_match..|by eauto]. }
    destruct (restoreSelection_ok k) as (m' & -> & Hok & Hr & Hs).
    + intros Hne. rewrite Ek. pose proof Hm as [].
      replace (set_cursor 0 (recalcCols n)) with (recalcCols (set_cursor 0 n))
        by apply recalcCols_cursor.
      subst n. apply recalcCols_ok; simpl; try done. intros ?%zlen_pos. lia.
    + intros E. rewrite Ek. subst n. pose proof Hm as [].
      apply recalcCols_ok; simpl; try done. simpl in *. by rewrite <- Er, E.
    + rewrite Ec. apply Hm.
    + cbn [mbind outcome_bind]. eexists m', _. split; [done|]. split; [done|].
      split; [congruence|]. rewrite Er, Es in Hs. done.
  - destruct (is_key key ["ctrl+c"; "q"]) eqn:Eq.
    { eexists m, _. split; [done|]. split; [done|]. intros [Hk _]%is_key_disjoint. congruence. }
    destruct (moveCursor_ok (-1) m Hm) as (up & Eup & Hup & Oup); [lia|].
    destruct (moveCursor_ok 1 m Hm) as (dn & Edn & Hdn & Odn); [lia|].
    destruct (is_key key ["up"; "k"]) eqn:Eu.
    { rewrite Eup. cbn [mbind outcome_bind]. eexists up, _. split; [done|]. split; [done|].
      intros _. done. }
    destruct (is_key key ["down"; "j"]) eqn:Ed.
    { rewrite Edn. cbn [mbind outcome_bind]. eexists dn, _. split; [done|]. split; [done|].
      intros _. done. }
    eexists m, _. split; [done|]. split; [done|].
    intros [_ [?|?]]%is_key_disjoint; congruence.
  - by eexists m, _.
Qed.

Lemma headerLabel_total label w : ∃ l, headerLabel label w = Ret l.
Proof.
  unfold headerLabel. repeat case_match; eauto. zbool.
  destruct (str_take_Ret w label) as (t & -> & _); [lia|by eexists].
Qed.

Lemma renderHeader_total cols a cw : ∃ h, renderHeader RenderHeader cols a cw = Ret h.
Proof.
  unfold renderHeader.
  destruct (headerLabel_total "ADDR" (adminColWidths.addr cols)) as [? ->].
  destruct (headerLabel_total "NODE" (adminColWidths.node cols)) as [? ->].
  destruct (headerLabel_total "ROLE" (adminColWidths.role cols)) as [? ->].
  destruct (headerLabel_total "LEADER" (adminColWidths.leader cols)) as [? ->]. by eexists.
Qed.

Lemma alertRows_total cw rs : ∃ ls, alertRows Render cw rs = Ret ls.
Proof.
  induction rs as [|r rs [ls IH]]; [by exists []|]. cbn [alertRows]. case_bool_decide; [by eexists|].
  unfold alertLine. destruct (shorten_spec (errorSummary (adminRow.err r)) (maxInt 20 (cw - 28))) as (t & -> & _).
  rewrite IH. by eexists.
Qed.

Lemma alertSection_total cw m : 0 < cw → ∃ s, alertSection Render cw m = Ret s.
Proof.
  intros Hcw. unfold alertSection, buildAlertLines.
  destruct (detectLeaderMissing (rows m)) as [[lm q] h]. destruct (alertRows_total cw (rows m)) as [ls ->].
  cbn [mbind outcome_bind]. case_bool_decide; [by eexists|].
  unfold repeatDash. destruct (Z.ltb_spec cw 0); [lia|by eexists].
Qed.

(** The lines of the table are those of the rows from [i]. *)
Lemma tableLines_spec count i m :
  0 ≤ i → i + Z.of_nat count ≤ zlen (rows m) →
  ∃ ls, tableLines Render count i m = Ret ls ∧ length ls = count ∧
    ∀ k line, ls !! k = Some line → ∃ r, rows m !! (Z.to_nat i + k)%nat = Some r ∧
      makeTableRow Render r (mcols m) (showAat m) (i + Z.of_nat k =? cursor m) = Ret line.
Proof.
  revert i. induction count as [|count IH]; intros i Hi Hl; cbn [tableLines]; [by exists []|].
  destruct (zget_in_range (rows m) i) as [r Er]; [lia|]. rewrite Er. cbn [mbind outcome_bind].
  destruct (makeTableRow_total Render r (mcols m) (showAat m) (i =? cursor m)) as [line El].
  destruct (IH (i + 1)) as (ls & -> & Hlen & Hls); [lia|lia|]. rewrite El. cbn [mbind outcome_bind].
  eexists. split; [done|]. split; [simpl; lia|]. intros [|k] l; cbn [lookup list_lookup].
  - intros [= <-]. exists r. rewrite Nat.add_0_r, Z.add_0_r. split; [|done]. by apply zget_Ret in Er as [_ ?].
  - intros (r' & Hr' & Hline)%Hls. exists r'.
    replace (Z.to_nat i + Datatypes.S k)%nat with (Z.to_nat (i + 1) + k)%nat by lia.
    by replace (i + Z.of_nat (Datatypes.S k)) with (i + 1 + Z.of_nat k) by lia.
Qed.

(** The table pane: as many rows as the window shows, from [scrollOff]. *)
Definition body_of m (body : list string) : Prop :=
  zlen body = Z.max 0 (Z.min (scrollOff m + visibleRowCount m) (zlen (rows m)) - scrollOff m) ∧
  ∀ k line, body !! k = Some line → ∃ r, rows m !! (Z.to_nat (scrollOff m) + k)%nat = Some r ∧
    makeTableRow Render r (mcols m) (showAat m) (scrollOff m + Z.of_nat k =? cursor m) = Ret line.

Lemma tableBody_spec m : model_ok m → ∃ body, tableBody Render m = Ret body ∧ body_of m body.
Proof.
  intros Hm. pose proof Hm as []. destruct (visibleRowCount_range m mo_height0) as [Hv _].
  pose proof (zlen_nonneg (rows m)). unfold tableBody, body_of. cbv zeta. i64_norm.
  assert (minInt (scrollOff m + visibleRowCount m) (zlen (rows m))
          = Z.min (scrollOff m + visibleRowCount m) (zlen (rows m))) as ->
    by (unfold minInt; case_match; zbool; lia).
  set (e := Z.min _ _). destruct (Z.leb_spec e (scrollOff m)) as [Hle|Hlt].
  { replace (Z.to_nat (e - scrollOff m)) with 0%nat by lia. exists []. split; [done|]. split; [change (0 = Z.max 0 (e - scrollOff m)); lia|done]. }
  destruct (tableLines_spec (Z.to_nat (e - scrollOff m)) (scrollOff m) m) as (ls & -> & Hlen & Hls); [lia|lia|].
  exists ls. split; [done|]. split; [unfold zlen; lia|done].
Qed.

Lemma View_total m : model_ok m → ∃ frame, View Render RenderHeader formatTime m = Ret frame.
Proof.
  intros Hm. unfold View. cbv zeta.
  destruct (renderHeader_total (mcols m) (showAat m) (contentWidth m)) as [? ->].
  destruct (tableBody_spec m Hm) as (body & -> & _).
  destruct (shorten_spec (peersPane m) (maxInt 10 (contentWidth m - 12))) as (p & -> & _).
  destruct (alertSection_total (contentWidth m) m) as [? ->]; [by apply contentWidth_range, Hm|].
  by eexists.
Qed.

Lemma newAdminModel_ok : model_ok newAdminModel.
Proof. by split; try done; left. Qed.

Lemma updates_ok msgs m :
  model_ok m → Forall msg_fits msgs → ∃ m', updates msgs m = Ret m' ∧ model_ok m'.
Proof.
  revert m. induction msgs as [|msg msgs IH]; intros m Hm Hmsgs; [by exists m|].
  inversion Hmsgs as [|? ? Hmsg Hms]; subst. cbn [updates].
  destruct (Update_ok msg m Hm Hmsg) as (m' & c & -> & Hm' & _). cbn [mbind outcome_bind]. by apply IH.
Qed.
End model.

(** C40. Whatever windows, polls and keys arrive, in any order, the admin
    screen stays coherent (window sides, and the number of rows, below 2^31;
    a terminal that shows the pieces of a line in the columns they take):
    - [Update] and [View] return: no index of Go panics;
    - when there are rows the cursor is on one of them;
    - the lines drawn are those of the rows from the scroll offset on, as many
      as the window shows;
    - a drawn line is no wider than the content of the window if that is at
      least 55 columns (a window of 57) and the row's text is printable ASCII,
      its term below 10000 and its indices below 100000 ([row_fits]); narrower
      windows and wider numbers overflow;
    - after a poll that brings a row of the selected node, when a node is
      selected, that node is still selected (a node that cannot be reached
      answers with a row that has no identifier, and is deselected);
    - an arrow key, when there are rows, leaves the cursor on screen. *)
Theorem admin_screen_safe Render RenderHeader formatTime columns msgs :
  Terminal Render columns →
  Forall msg_fits msgs →
  ∃ m, updates msgs newAdminModel = Ret m ∧
    (∃ frame, View Render RenderHeader formatTime m = Ret frame) ∧
    (rows m ≠ [] → 0 ≤ cursor m < zlen (rows m)) ∧
    (∃ body, tableBody Render m = Ret body ∧ body_of Render m body ∧ zlen body ≤ visibleRowCount m ∧
       ∀ k line, body !! k = Some line →
         ∃ r, rows m !! (Z.to_nat (scrollOff m) + k)%nat = Some r ∧
           (row_fits r → 55 ≤ contentWidth m → columns line ≤ contentWidth m)) ∧
    (∀ msg, msg_fits msg → ∃ m' c, Update msg m = Ret (m', c) ∧ follows msg m m').
Proof.
  intros HT Hmsgs. destruct (updates_ok msgs newAdminModel newAdminModel_ok Hmsgs) as (m & Em & Hm).
  exists m. split; [done|]. split; [by apply View_total|]. pose proof Hm as [].
  split; [intros Hne; split; [apply mo_cursor0|by apply mo_range0]|]. split.
  - destruct (tableBody_spec Render m Hm) as (body & -> & Hlen & Hbody).
    destruct (visibleRowCount_range m mo_height0) as [Hv _]. exists body.
    split; [done|]. split; [by split|]. split; [lia|]. intros k line Hk.
    destruct (Hbody k line Hk) as (r & Hr & Hline). exists r. split; [done|]. intros Hfit Hcw.
    destruct mo_cols0 as [E|Hcols]; [by rewrite E in Hr|].
    pose proof (contentWidth_range m mo_width0) as Hc. apply columns_fit in Hcols as [Hpos Hw]; [|lia].
    rewrite (wide_columns Render columns _ _ (makeTableRow_wide Render _ _ _ _ _ Hfit Hpos Hline)). by apply Hw.
  - intros msg Hmsg. destruct (Update_ok msg m Hm Hmsg) as (m' & c & E & _ & Hf). by exists m', c.
Qed.

(** A terminal without styles: it counts the bytes that start a rune. *)
Fixpoint starts (s : string) : Z :=
  match s with
  | String a t => (if (128 <=? code a) && (code a <? 192) then 0 else 1) + starts t
  | EmptyString => 0
  end.

Lemma starts_app a b : starts (a +:+ b) = starts a + starts b.
Proof.
  induction a as [|x a IH]; [done|]. change (String x a +:+ b) with (String x (a +:+ b)).
  cbn [starts]. lia.
Qed.

#[export] Instance starts_terminal : Terminal (λ _ s, s) starts.
Proof.
  intros l Hl. induction Hl as [|[s k] l Hc Hl IH]; [done|].
  change (starts (s +:+ concat l.*1) = k + total l.*2). rewrite starts_app, IH. f_equal. clear -Hc.
  cbn [fst snd] in Hc. induction Hc as [s Hs|s Hs|st s k Hc IH]; [|by apply list_elem_of_In in Hs; simpl in Hs; destruct_or?; subst|done].
  induction s as [|a s IH]; [done|]. cbn [plain] in Hs. apply andb_true_iff in Hs as [[H1 H2]%andb_true_iff Hs].
  cbn [starts]. rewrite IH by done. unfold str_len. cbn [String.length].
  zbool. destruct (Z.leb_spec 128 (code a)); [lia|]. cbn [andb]. unfold str_len. lia.
Qed.

Definition sampleRow (id role : string) : adminRow :=
  adminRow.mk "127.0.0.1:9001" id "raft" role "healthy" "node-1" 3 17 17 17 3 0 "A3" "-" "12:00:00" "".

Lemma admin_screen_safe_witness :
  let msgs := [WindowSizeMsg 60 10; RowsMsg [sampleRow "node-1" "leader"; sampleRow "node-2" "follower";
                 sampleRow "node-3" "follower"] 0; KeyMsg "down"; KeyMsg "j"] in
  ∃ m, updates msgs newAdminModel = Ret m ∧ cursor m = 2 ∧ scrollOff m = 1 ∧ selectedID m = "node-3" ∧
    ∃ body, tableBody (λ _ s, s) m = Ret body ∧
      Forall (λ line, starts line ≤ contentWidth m) body ∧
      ∃ m' c, Update (RowsMsg [sampleRow "node-3" "leader"; sampleRow "node-2" "follower"] 1) m = Ret (m', c) ∧
        still_selected "node-3" m'.
Proof.
  intros msgs.
  destruct (admin_screen_safe (λ _ s, s) (λ _ s, s) (λ _, "now") starts msgs)
    as (m & E & _ & _ & (body & Hb & _ & _ & Hw) & Hnext).
  { apply starts_terminal. }
  { subst msgs. repeat constructor; vm_compute; done. }
  exists m. split; [done|].
  assert (Hm : updates msgs newAdminModel = Ret m) by done. vm_compute in Hm. injection Hm as Hm.
  rewrite <- Hm. split_and!; [done..|]. rewrite Hm. exists body. split; [done|]. split.
  - apply Forall_lookup. intros k line Hk. destruct (Hw k line Hk) as (r & Hr & Hle).
    apply Hle; [|by rewrite <- Hm]. rewrite <- Hm in Hr. apply list_elem_of_lookup_2 in Hr. simpl in Hr.
    repeat (apply elem_of_cons in Hr as [->|Hr]; [by split; vm_compute|]). destruct (not_elem_of_nil _ Hr).
  - destruct (Hnext (RowsMsg [sampleRow "node-3" "leader"; sampleRow "node-2" "follower"] 1))
      as (m' & c & Em & Hr & Hs); [done|]. exists m', c. split; [done|].
    rewrite <- Hm in Hs. apply Hs; [done|]. exists (sampleRow "node-3" "leader"). split; [by left|done].
Defined.
