(* ===== verification/Cli.v ===== *)
(** * Cli: the command-line client

    [cmd/client/main.go]: [run] with its subcommands, the single requests and
    the three batch commands over the [ClusterClient] of KvClient.  The flags
    before the subcommand, the files, the answers of the nodes, the clock and
    the terminal program of [admin] are parameters; the [--in] flag of the
    batch commands and [bufio.Scanner] are the standard library's, written
    out.  An effect is an [event]: a connection, a file or a line printed.

    The lemmas: a batch prints exactly one line per line of input that is not
    blank, in order and numbered from 1, whatever the keys and the errors
    hold, so that the output splits back into its records
    ([batch_output]); and [run] leaves no connection and no file open,
    whatever it is given ([run_closes]). *)

From Stdlib Require Import Ascii String.
From S2P Require Import Prelude Types Utf8 Json GoStrings GoJson Transport KvClient AdminRows AdminTable.
Open Scope Z_scope.

Definition tab : ascii := Ascii.ascii_of_N 9.
Definition ht : string := String tab "".

(** ** Lines of input: [bufio.Scanner] *)

(** What a reader gives: its bytes, then the end or an error. *)
Record reader : Type := mkReader { content : string; readErr : option string }.

(** [bufio.MaxScanTokenSize]. *)
Definition MaxScanTokenSize : Z := 65536.

Definition carriage : ascii := Ascii.ascii_of_N 13.

(** [dropCR]. *)
Fixpoint dropCR (s : string) : string :=
  match s with
  | EmptyString => ""
  | String a EmptyString => if Ascii.eqb a carriage then "" else s
  | String a t => String a (dropCR t)
  end.

(** The tokens of [ScanLines], and whether a line was too long: nothing after
    it is read. *)
Fixpoint scanLines (pieces : list string) : list string * bool :=
  match pieces with
  | [] => ([], false)
  | p :: ps =>
      if MaxScanTokenSize <=? str_len p then ([], true) else
      match ps with
      | [] => if bool_decide (p = "") then ([], false) else ([dropCR p], false)
      | _ => let '(lines, long) := scanLines ps in (dropCR p :: lines, long)
      end
  end.

Definition scan (r : reader) : list string * option string :=
  let '(lines, long) := scanLines (split newline (content r)) in
  (lines, if (long : bool) then Some "bufio.Scanner: token too long" else readErr r).

(** ** Requests *)

(** What the world answers to one request of the client: the order of
    [rand.Perm], the nodes, when the deadline expires and the time it took. *)
Record call : Type := mkCall {
  c_perm : list nat;
  c_put : nat → string → string → Z + status_code;
  c_get : nat → string → (string * bool) + status_code;
  c_delete : nat → string → Z + status_code;
  c_expired : nat → bool;
  c_elapsed : Z }.

Inductive event : Type :=
  | Conn (e : conn_event)
  | FileOpened (path : string) | FileClosed (path : string)
  | Out (line : string)                   (** standard output, without the final newline *)
  | Usage                                 (** the usage text, on standard error *)
  | Tui (addrs : list string).            (** the admin screen *)

Inductive cli_error : Type :=
  | Errorf (msg : string)
  | UnknownSubcommand (name : string).

Section client.
(** The text of a gRPC status error. *)
Context (statusText : status_code → string).

Definition errText (e : client_error) : string :=
  match e with
  | ClientNotLeader => "kv: node is not the leader"
  | ClientNoLeader => "kv: no leader found in cluster"
  | ClientStatus c => statusText c
  | ClientContext => "context deadline exceeded"
  | ClientUnavailable n => "kv: all " +:+ itoa (Z.of_nat n) +:+ " nodes unavailable"
  end.

(** [errors.Is(err, context.DeadlineExceeded)] or the status of that name. *)
Definition isTimeout (e : client_error) : bool :=
  match e with
  | ClientContext => true
  | ClientStatus c => bool_decide (c = DeadlineExceeded)
  | _ => false
  end.

Definition callPut (w : call) key value c :=
  ClusterPut (c_put w) (c_expired w) (c_perm w) key value c.
Definition callDelete (w : call) key c :=
  ClusterDelete (c_delete w) (c_expired w) (c_perm w) key c.
Definition callGet (w : call) key c := ClusterGet (c_get w) (c_expired w) (c_perm w) key c.

Definition cmdGet (w : call) (key : string) (c : ClusterClient) : list event * option cli_error :=
  match callGet w key c with
  | inr e => ([], Some (Errorf (errText e)))
  | inl (_, false) => ([Out ("(not found) " +:+ key)], None)
  | inl (value, true) => ([Out (key +:+ " = " +:+ value)], None)
  end.

Definition noLeaderMsg : string := "no leader available, cluster may be degraded".

Definition cmdPut (w : call) (key value : string) (c : ClusterClient)
    : list event * option cli_error :=
  match (callPut w key value c).2 with
  | inr ClientNoLeader => ([], Some (Errorf noLeaderMsg))
  | inr e => ([], Some (Errorf (errText e)))
  | inl index => ([Out ("ok (index " +:+ itoa index +:+ ")")], None)
  end.

Definition cmdDelete (w : call) (key : string) (c : ClusterClient)
    : list event * option cli_error :=
  match (callDelete w key c).2 with
  | inr ClientNoLeader => ([], Some (Errorf noLeaderMsg))
  | inr e => ([], Some (Errorf (errText e)))
  | inl index => ([Out ("ok (index " +:+ itoa index +:+ ")")], None)
  end.

(** ** The batch commands *)

(** One turn of the loop: [None] for a blank line; else the line printed and
    the client afterwards.  [env seq] is the world of the request [seq]. *)
Context (env : Z → call).
Definition batch_step : Type := Z → string → ClusterClient → option (string * ClusterClient).

Definition record (l : list string) : string := join_with ht l.

Definition putStep : batch_step := λ seq line c,
  if bool_decide (trim_space line = "") then None else Some
  match cut tab line with
  | None => (record ["err"; itoa seq; "0"; ""; "invalid_tsv_line"], c)
  | Some (key, value) =>
      let ms := itoa (c_elapsed (env seq)) in
      match callPut (env seq) key value c with
      | (c, inl index) => (record ["ok"; itoa seq; ms; itoa index; key], c)
      | (c, inr e) =>
          (record [if isTimeout e then "timeout" else "err"; itoa seq; ms; "0"; key;
                   oneLineErr (errText e)], c)
      end
  end.

Definition getStep : batch_step := λ seq line c,
  let key := trim_space line in
  let us := itoa (c_elapsed (env seq)) in
  if bool_decide (key = "") then None else Some
  (match callGet (env seq) key c with
   | inl (value, true) => record ["ok"; itoa seq; us; key; itoa (str_len value)]
   | inl (_, false) => record ["notfound"; itoa seq; us; key; "0"]
   | inr e => record [if isTimeout e then "timeout" else "err"; itoa seq; us; key;
                      oneLineErr (errText e)]
   end, c).

Definition deleteStep : batch_step := λ seq line c,
  let key := trim_space line in
  let ms := itoa (c_elapsed (env seq)) in
  if bool_decide (key = "") then None else Some
  match callDelete (env seq) key c with
  | (c, inl index) => (record ["ok"; itoa seq; ms; itoa index; key], c)
  | (c, inr e) =>
      (record [if isTimeout e then "timeout" else "err"; itoa seq; ms; "0"; key;
               oneLineErr (errText e)], c)
  end.

(** The loop over the lines, [seq] of them numbered before. *)
Fixpoint batchLoop (step : batch_step) (seq : Z) (lines : list string) (c : ClusterClient)
    : list string :=
  match lines with
  | [] => []
  | line :: lines =>
      match step (seq +! 1) line c with
      | None => batchLoop step seq lines c
      | Some (out, c) => out :: batchLoop step (seq +! 1) lines c
      end
  end.

(** A file by its name: its reader or the error of [os.Open]. *)
Context (stdin : reader) (files : string → reader + string).

Definition cmdBatch (step : batch_step) (inPath : string) (c : ClusterClient)
    : list event * option cli_error :=
  let body r := let '(lines, err) := scan r in (Out <$> batchLoop step 0 lines c, Errorf <$> err) in
  if bool_decide (inPath = "-") then body stdin else
  match files inPath with
  | inr err => ([], Some (Errorf err))
  | inl r => let '(out, err) := body r in (FileOpened inPath :: out ++ [FileClosed inPath], err)
  end.

Definition cmdPutBatch := cmdBatch putStep.
Definition cmdGetBatch := cmdBatch getStep.
Definition cmdDeleteBatch := cmdBatch deleteStep.

(** ** The flag of a batch command: [flag.FlagSet.Parse] with [--in] *)

Inductive flag_arg : Type :=
  | NotFlag | Terminator | BadFlag | Flag (name : string) (value : option string).

Definition flagArg (s : string) : flag_arg :=
  match s with
  | String a (String b t) =>
      if negb (Ascii.eqb a "-") then NotFlag
      else if Ascii.eqb b "-" && bool_decide (t = "") then Terminator else
      let name := if Ascii.eqb b "-" then t else String b t in
      match name with
      | EmptyString => BadFlag
      | String c _ =>
          if Ascii.eqb c "-" || Ascii.eqb c "=" then BadFlag else
          match cut "=" name with
          | Some (name, value) => Flag name (Some value)
          | None => Flag name None
          end
      end
  | _ => NotFlag
  end.

(** The value of [in] and the arguments left. *)
Fixpoint parseIn (path : string) (args : list string) : option (string * list string) :=
  match args with
  | [] => Some (path, [])
  | s :: args' =>
      match flagArg s with
      | NotFlag => Some (path, args)
      | Terminator => Some (path, args')
      | BadFlag => None
      | Flag name value =>
          if negb (bool_decide (name = "in")) then None else
          match value, args' with
          | Some v, _ => parseIn v args'
          | None, v :: args'' => parseIn v args''
          | None, [] => None
          end
      end
  end.

(** ** [run] *)

Context (newClient : string → option string) (closeErr : nat → option string).
(** What the admin screen ends with. *)
Context (tui : list string → option string).

(** The connections of a subcommand: dialled before it, closed after it. *)
Definition withCluster (addrs : list string)
    (body : ClusterClient → list event * option cli_error) : list event * option cli_error :=
  match DialCluster newClient addrs with
  | (evs, inr err) => (Conn <$> evs, Some (Errorf err))
  | (evs, inl c) =>
      let '(out, r) := body c in ((Conn <$> evs) ++ out ++ (Conn <$> (Close closeErr c).1), r)
  end.

Definition withBatch (usage : string) (addrs args : list string)
    (body : string → ClusterClient → list event * option cli_error) : list event * option cli_error :=
  match parseIn "-" args with
  | Some (inPath, []) => withCluster addrs (body inPath)
  | _ => ([], Some (Errorf usage))
  end.

(** The loop of [openAdminConns], [k] connections open. *)
Fixpoint openAdminConns (k : nat) (addrs : list string) : list conn_event * option string :=
  match addrs with
  | [] => ([], None)
  | addr :: addrs =>
      match newClient addr with
      | Some err => (Closed <$> seq 0 k, Some ("dial admin " +:+ addr +:+ ": " +:+ err))
      | None => let '(evs, r) := openAdminConns (S k) addrs in (Dialed k :: evs, r)
      end
  end.

Definition cmdAdmin (addrs : list string) : list event * option cli_error :=
  if bool_decide (addrs = []) then ([], Some (Errorf "no addresses provided")) else
  match openAdminConns 0 addrs with
  | (evs, Some err) => (Conn <$> evs, Some (Errorf err))
  | (evs, None) =>
      ((Conn <$> evs) ++ [Tui addrs] ++ (Conn <$> (Closed <$> seq 0 (length addrs))),
       Errorf <$> tui addrs)
  end.

(** [run] after [flag.Parse]: [addr] is the flag, [args] what follows. *)
Definition run (addr : string) (args : list string) : list event * option cli_error :=
  let addrs := splitAddrs addr in
  match args with
  | [] => ([Usage], Some (Errorf
      "subcommand required: get | get-batch | put | put-batch | delete | delete-batch | admin"))
  | cmd :: rest =>
      if bool_decide (cmd = "get") then withCluster addrs (λ c,
        match rest with [key] => cmdGet (env 0) key c | _ => ([], Some (Errorf "usage: get <key>")) end)
      else if bool_decide (cmd = "get-batch") then
        withBatch "usage: get-batch [--in <file|->]" addrs rest cmdGetBatch
      else if bool_decide (cmd = "put") then withCluster addrs (λ c,
        match rest with
        | [key; value] => cmdPut (env 0) key value c
        | _ => ([], Some (Errorf "usage: put <key> <value>"))
        end)
      else if bool_decide (cmd = "put-batch") then
        withBatch "usage: put-batch [--in <file|->]" addrs rest cmdPutBatch
      else if bool_decide (cmd = "delete") then withCluster addrs (λ c,
        match rest with [key] => cmdDelete (env 0) key c | _ => ([], Some (Errorf "usage: delete <key>")) end)
      else if bool_decide (cmd = "delete-batch") then
        withBatch "usage: delete-batch [--in <file|->]" addrs rest cmdDeleteBatch
      else if bool_decide (cmd = "admin") then
        match rest with [] => cmdAdmin addrs | _ => ([], Some (Errorf "usage: admin")) end
      else ([Usage], Some (UnknownSubcommand cmd))
  end.

(** [main]: the exit status, the error going to standard error. *)
Definition exitStatus (r : option cli_error) : Z := match r with None => 0 | Some _ => 1 end.
End client.

(** ** One line per record *)

Fixpoint one_line (s : string) : bool :=
  match s with String a t => negb (Ascii.eqb a newline) && one_line t | EmptyString => true end.

Lemma one_line_app a b : one_line (a +:+ b) = one_line a && one_line b.
Proof.
  induction a as [|x a IH]; [done|]. change (String x a +:+ b) with (String x (a +:+ b)).
  cbn [one_line]. by rewrite IH, andb_assoc.
Qed.

Lemma one_line_plain s : plain s = true → one_line s = true.
Proof.
  induction s as [|a s IH]; [done|]. cbn [plain one_line].
  intros [[H1 H2]%andb_true_iff Hs]%andb_true_iff. rewrite IH, andb_true_r by done.
  destruct (Ascii.eqb_spec a newline) as [->|]; [|done]. vm_compute in H1. done.
Qed.

Lemma one_line_itoa z : one_line (itoa z) = true.
Proof. apply one_line_plain, plain_itoa. Qed.

Lemma one_line_oneLineErr s : one_line (oneLineErr s) = true.
Proof.
  unfold oneLineErr. induction s as [|a s IH]; [done|]. cbn [replace_all one_line]. rewrite IH, andb_true_r.
  destruct (Ascii.eqb_spec a newline) as [->|Ha]; [done|]. by destruct (Ascii.eqb_spec a newline).
Qed.

Lemma one_line_trim s : one_line s = true → one_line (trim_space s) = true.
Proof.
  assert (∀ k s, one_line s = true → one_line (trim_left_from k s) = true) as Hl.
  { intros k t. revert k. induction t as [|a t IH]; intros k Ht; [done|]. pose proof Ht as Ht'.
    cbn [one_line] in Ht. apply andb_true_iff in Ht as [_ Ht]. cbn [trim_left_from].
    destruct k as [|k]; [case_match|]; auto. }
  intros Hs. unfold trim_space. destruct (trim_right_app (trim_left s)) as (t & E & _).
  pose proof (Hl 0%nat s Hs) as H. change (trim_left_from 0 s) with (trim_left s) in H. rewrite E in H.
  change (?a ++ ?b)%string with (a +:+ b) in H. rewrite one_line_app in H.
  by apply andb_true_iff in H as [? _].
Qed.

Lemma one_line_cut sep s a b :
  cut sep s = Some (a, b) → one_line s = true → one_line a = true.
Proof.
  revert a. induction s as [|x s IH]; intros a; cbn [cut one_line]; [done|].
  intros H [Hx Hs]%andb_true_iff. destruct (Ascii.eqb x sep); [by injection H as <- _|].
  destruct (cut sep s) as [[l r]|]; [|done]. injection H as <- <-. cbn [one_line]. rewrite Hx. by apply IH.
Qed.

Lemma one_line_dropCR s : one_line s = true → one_line (dropCR s) = true.
Proof.
  induction s as [|a s IH]; [done|]. intros Hs. cbn [dropCR]. destruct s as [|b s]; [by case_match|].
  cbn [one_line] in *. apply andb_true_iff in Hs as [Ha Hs]. rewrite Ha. by apply IH.
Qed.

Lemma split_one_line s : Forall (λ p, one_line p = true) (split newline s).
Proof.
  induction s as [|a s IH]; [by constructor|]. cbn [split].
  destruct (Ascii.eqb a newline) eqn:Ea; [by constructor|].
  destruct (split newline s) as [|p ps]; [constructor; [cbn [one_line]; by rewrite Ea|done]|].
  inversion IH; subst. constructor; [|done]. cbn [one_line]. by rewrite Ea.
Qed.

Lemma scanLines_one_line pieces :
  Forall (λ p, one_line p = true) pieces → Forall (λ p, one_line p = true) (scanLines pieces).1.
Proof.
  induction 1 as [|p ps Hp Hps IH]; [constructor|]. cbn [scanLines].
  destruct (_ <=? _); [constructor|]. destruct ps as [|q ps].
  - case_bool_decide; repeat constructor. by apply one_line_dropCR.
  - destruct (scanLines (q :: ps)) as [lines long]. constructor; [by apply one_line_dropCR|done].
Qed.

Lemma scan_one_line r : Forall (λ p, one_line p = true) (scan r).1.
Proof.
  unfold scan. pose proof (scanLines_one_line _ (split_one_line (content r))) as H.
  by destruct (scanLines _).
Qed.

Lemma split_line l s :
  one_line l = true → split newline (l +:+ String newline s) = l :: split newline s.
Proof.
  induction l as [|a l IH]; [done|]. cbn [one_line]. intros [Ha Hl]%andb_true_iff.
  change (String a l +:+ String newline s) with (String a (l +:+ String newline s)). cbn [split].
  apply negb_true_iff in Ha. by rewrite Ha, IH.
Qed.

(** What is printed, and how a reader of it gets the lines back. *)
Definition stdout (lines : list string) : string :=
  concat ((λ l, l +:+ nl) <$> lines).

Lemma split_stdout ls :
  Forall (λ l, one_line l = true) ls → split newline (stdout ls) = ls ++ [""].
Proof.
  induction 1 as [|l ls Hl Hls IH]; [done|]. unfold stdout. cbn [fmap list_fmap].
  change (concat (?x :: ?xs)) with (x +:+ concat xs). rewrite append_assoc.
  change (nl +:+ ?t) with (String newline t).
  rewrite split_line by done. unfold stdout in IH. cbn [app]. f_equal. exact IH.
Qed.

Lemma one_line_record l : Forall (λ s, one_line s = true) l → one_line (record l) = true.
Proof.
  unfold record, join_with. induction 1 as [|s l Hs Hl IH]; [done|]. cbn [String.concat].
  destruct l as [|s' l]; [done|]. change (one_line (s +:+ ht +:+ String.concat ht (s' :: l)) = true).
  rewrite !one_line_app, Hs, IH. done.
Qed.

(** A record: its status, its number, and more. *)
Definition numbered (seq : Z) (out : string) : Prop :=
  ∃ st rest, st ∈ ["ok"; "notfound"; "timeout"; "err"] ∧ out = st +:+ ht +:+ itoa seq +:+ ht +:+ rest.

Lemma numbered_record st seq f l :
  st ∈ ["ok"; "notfound"; "timeout"; "err"] → numbered seq (record (st :: itoa seq :: f :: l)).
Proof. intros Hst. by exists st, (record (f :: l)). Qed.

(** What the turns of the three loops have in common. *)
Definition step_ok (step : batch_step) : Prop :=
  ∀ seq line c, one_line line = true →
    match step seq line c with
    | None => trim_space line = ""
    | Some (out, _) => trim_space line ≠ "" ∧ one_line out = true ∧ numbered seq out
    end.

(** A record of one-line fields; its status is decided by [set_solver]. *)
Ltac record_ok :=
  split; [done|]; split;
  [ apply one_line_record; repeat (apply List.Forall_cons; [auto using one_line_itoa, one_line_oneLineErr|]);
    apply List.Forall_nil
  | apply numbered_record; repeat case_match; set_solver ].

Section records.
Context (statusText : status_code → string) (env : Z → call).

Lemma timeout_one_line (b : bool) : one_line (if b then "timeout" else "err") = true.
Proof. by destruct b. Qed.
Local Hint Resolve timeout_one_line one_line_trim : core.

Lemma putStep_ok : step_ok (putStep statusText env).
Proof.
  intros seq line c Hl. unfold putStep. case_bool_decide as Hb; [done|].
  destruct (cut tab line) as [[key value]|] eqn:E; [|record_ok].
  pose proof (one_line_cut _ _ _ _ E Hl). destruct (callPut _ _ _ _) as [c' [index|e]]; record_ok.
Qed.

Lemma getStep_ok : step_ok (getStep statusText env).
Proof.
  intros seq line c Hl. unfold getStep. cbv zeta. case_bool_decide as Hb; [done|].
  destruct (callGet _ _ _) as [[value []]|e]; record_ok.
Qed.

Lemma deleteStep_ok : step_ok (deleteStep statusText env).
Proof.
  intros seq line c Hl. unfold deleteStep. cbv zeta. case_bool_decide as Hb; [done|].
  destruct (callDelete _ _ _) as [c' [index|e]]; record_ok.
Qed.
End records.

(** The lines a batch turns into requests. *)
Definition requests (lines : list string) : list string := filter (λ l, trim_space l ≠ "") lines.

Lemma batchLoop_spec step seq lines c :
  step_ok step → Forall (λ l, one_line l = true) lines → 0 ≤ seq → seq + zlen lines ≤ max_int64 →
  let outs := batchLoop step seq lines c in
  length outs = length (requests lines) ∧ Forall (λ l, one_line l = true) outs ∧
  ∀ k out, outs !! k = Some out → numbered (seq + Z.of_nat k + 1) out.
Proof.
  intros Hstep Hl. revert seq c. induction Hl as [|line lines Hline Hl IH]; intros seq c Hs Hmax; [done|].
  rewrite zlen_cons in Hmax. pose proof (zlen_nonneg lines). cbn [batchLoop]. cbv zeta.
  unfold requests. rewrite filter_cons. fold (requests lines).
  specialize (Hstep (seq +! 1) line c Hline). i64_norm. destruct (step (seq + 1) line c) as [[out c']|].
  - destruct Hstep as (Hb & Ho & Hn). rewrite decide_True by done.
    destruct (IH (seq + 1) c') as (Hlen & Hone & Hnum); [lia..|]. cbv zeta in *.
    split; [simpl; by rewrite Hlen|]. split; [by constructor|].
    intros [|k] o; cbn [lookup list_lookup].
    + intros [= <-]. by rewrite Z.add_0_r.
    + intros Hk. replace (seq + Z.of_nat (Datatypes.S k) + 1) with (seq + 1 + Z.of_nat k + 1) by lia. by apply Hnum.
  - rewrite decide_False by (intros Hn; by apply Hn). apply IH; lia.
Qed.

Definition printed (evs : list event) : list string :=
  omap (λ e, match e with Out l => Some l | _ => None end) evs.

Lemma printed_out ls : printed (Out <$> ls) = ls.
Proof. induction ls as [|l ls IH]; [done|]. cbn. by f_equal. Qed.

(** A batch command prints one record per line that is not blank, numbered in
    order; the output splits back into the records; and the command fails
    exactly when the input could not be read to its end. *)
Lemma batch_output step files stdin inPath r c :
  step_ok step →
  (if bool_decide (inPath = "-") then r = stdin else files inPath = inl r) →
  zlen (scan r).1 ≤ max_int64 →
  let '(evs, err) := cmdBatch stdin files step inPath c in
  length (printed evs) = length (requests (scan r).1) ∧
  (∀ k out, printed evs !! k = Some out → numbered (Z.of_nat k + 1) out) ∧
  split newline (stdout (printed evs)) = printed evs ++ [""] ∧
  err = Errorf <$> (scan r).2.
Proof.
  intros Hstep Hr Hmax. pose proof (scan_one_line r) as Hone. unfold cmdBatch. cbv zeta.
  destruct (scan r) as [lines e] eqn:Er. cbn [fst snd] in *.
  destruct (batchLoop_spec step 0 lines c Hstep Hone ltac:(lia) ltac:(lia)) as (Hlen & Ho & Hn).
  cbv zeta in *. set (outs := batchLoop _ _ _ _) in *.
  assert (∀ evs, printed evs = outs →
    length (printed evs) = length (requests lines) ∧
    (∀ k out, printed evs !! k = Some out → numbered (Z.of_nat k + 1) out) ∧
    split newline (stdout (printed evs)) = printed evs ++ [""] ∧ Errorf <$> e = Errorf <$> e) as H.
  { intros evs ->. split_and!; [done|exact Hn|by apply split_stdout|done]. }
  case_bool_decide.
  - subst r. rewrite Er. apply H, printed_out.
  - rewrite Hr, Er. apply H. unfold printed. cbn [omap list_omap].
    change (printed ((Out <$> outs) ++ [FileClosed inPath]) = outs).
    unfold printed. rewrite omap_app. fold (printed (Out <$> outs)). rewrite printed_out. by apply app_nil_r.
Qed.

(** ** What [run] leaves open *)

Definition conns (evs : list event) : list conn_event :=
  omap (λ e, match e with Conn e => Some e | _ => None end) evs.

(** No connection, and no file, is left open. *)
Definition closes (evs : list event) : Prop :=
  open_conns (conns evs) ∅ = ∅ ∧ ∀ p, FileOpened p ∈ evs ↔ FileClosed p ∈ evs.

(** The same of a body that touches no connection. *)
Definition quiet (evs : list event) : Prop :=
  conns evs = [] ∧ ∀ p, FileOpened p ∈ evs ↔ FileClosed p ∈ evs.

Lemma conns_app e1 e2 : conns (e1 ++ e2) = conns e1 ++ conns e2.
Proof. apply omap_app. Qed.

Lemma conns_conn l : conns (Conn <$> l) = l.
Proof. induction l as [|e l IH]; [done|]. cbn. by f_equal. Qed.

Lemma conns_out l : conns (Out <$> l) = [].
Proof. by induction l. Qed.

Lemma quiet_closes evs : quiet evs → closes evs.
Proof. intros [Hc Hf]. split; [by rewrite Hc|done]. Qed.

Lemma closes_wrapped l1 evs l2 :
  quiet evs → open_conns (l1 ++ l2) ∅ = ∅ → closes ((Conn <$> l1) ++ evs ++ (Conn <$> l2)).
Proof.
  intros [Hc Hf] Ho. split; [by rewrite !conns_app, !conns_conn, Hc|]. intros p. specialize (Hf p).
  rewrite !elem_of_app, !list_elem_of_fmap. naive_solver.
Qed.

Lemma quiet_nil : quiet [].
Proof. split; [done|]. intros p. set_solver. Qed.

Lemma quiet_out l : quiet (Out <$> l).
Proof. split; [apply conns_out|]. intros p. rewrite !list_elem_of_fmap. naive_solver. Qed.

Section run.
Context (statusText : status_code → string) (env : Z → call).
Context (stdin : reader) (files : string → reader + string).
Context (newClient : string → option string) (closeErr : nat → option string).
Context (tui : list string → option string).

Lemma cmdBatch_quiet step inPath c : quiet (cmdBatch stdin files step inPath c).1.
Proof.
  unfold cmdBatch. cbv zeta. case_bool_decide.
  { destruct (scan stdin) as [lines e]. apply quiet_out. }
  destruct (files inPath) as [r|err]; [|apply quiet_nil]. destruct (scan r) as [lines e]. cbn [fst].
  destruct (quiet_out (batchLoop step 0 lines c)) as [Hc Hf]. split.
  - change (conns ((Out <$> batchLoop step 0 lines c) ++ [FileClosed inPath]) = []).
    by rewrite conns_app, Hc.
  - intros p. specialize (Hf p). rewrite elem_of_cons, !elem_of_app, !list_elem_of_singleton, Hf.
    rewrite elem_of_cons, elem_of_app, list_elem_of_singleton. naive_solver.
Qed.

Lemma withCluster_closes addrs body :
  (∀ c, quiet (body c).1) → closes (withCluster newClient closeErr addrs body).1.
Proof.
  intros Hb. unfold withCluster. pose proof (DialCluster_open newClient addrs) as Hd.
  destruct (DialCluster newClient addrs) as [evs [c|err]].
  - specialize (Hb c). destruct (body c) as [out r]. destruct Hd as [Hd _].
    apply closes_wrapped; [done|exact Hd].
  - rewrite <- (app_nil_r (Conn <$> evs)). apply (closes_wrapped evs [] []); [apply quiet_nil|].
    by rewrite app_nil_r.
Qed.

Lemma withBatch_closes usage addrs args body :
  (∀ p c, quiet (body p c).1) → closes (withBatch newClient closeErr usage addrs args body).1.
Proof.
  intros Hb. unfold withBatch.
  destruct (parseIn "-" args) as [[inPath [|]]|]; try apply quiet_closes, quiet_nil.
  by apply withCluster_closes.
Qed.

Lemma openAdminConns_dialAll k addrs :
  (openAdminConns newClient k addrs).1 = (dialAll newClient k addrs).1 ∧
  ((openAdminConns newClient k addrs).2 = None ↔ (dialAll newClient k addrs).2 = None).
Proof.
  revert k. induction addrs as [|addr addrs IH]; intros k; cbn [openAdminConns dialAll]; [done|].
  destruct (newClient addr); [done|]. specialize (IH (Datatypes.S k)).
  destruct (openAdminConns _ _ _), (dialAll _ _ _). cbn in *. by destruct IH as [-> ?].
Qed.

Lemma cmdAdmin_closes addrs : closes (cmdAdmin newClient tui addrs).1.
Proof.
  unfold cmdAdmin. case_bool_decide; [apply quiet_closes, quiet_nil|].
  pose proof (dialAll_open newClient 0 addrs) as Hd. pose proof (openAdminConns_dialAll 0 addrs) as [He Hn].
  destruct (openAdminConns newClient 0 addrs) as [evs [err|]], (dialAll newClient 0 addrs) as [evs' r];
    cbn in He, Hn; subst evs'; change (list_to_set (seq 0 0)) with (∅ : gset nat) in Hd.
  - rewrite <- (app_nil_r (Conn <$> evs)). apply (closes_wrapped evs [] []); [apply quiet_nil|].
    rewrite app_nil_r, Hd. destruct r; [done|]. by destruct Hn as [_ Hn]; specialize (Hn eq_refl).
  - destruct Hn as [Hn _]. rewrite Hn in Hd by done. apply closes_wrapped.
    + split; [done|]. intros p. set_solver.
    + rewrite open_conns_app, Hd, open_conns_closed. simpl. set_solver.
Qed.

Lemma run_closes addr args :
  closes (run statusText env stdin files newClient closeErr tui addr args).1.
Proof.
  assert (∀ w key c, quiet (cmdGet statusText w key c).1) as Hg.
  { intros. unfold cmdGet. destruct (callGet _ _ _) as [[v []]|e]; apply quiet_nil || apply (quiet_out [_]). }
  assert (∀ w key v c, quiet (cmdPut statusText w key v c).1) as Hp.
  { intros. unfold cmdPut. destruct (callPut _ _ _ _).2 as [|[]]; apply quiet_nil || apply (quiet_out [_]). }
  assert (∀ w key c, quiet (cmdDelete statusText w key c).1) as Hd.
  { intros. unfold cmdDelete. destruct (callDelete _ _ _).2 as [|[]]; apply quiet_nil || apply (quiet_out [_]). }
  assert (closes [Usage]) as Hu by (apply quiet_closes; split; [done|intros p; set_solver]).
  unfold run. cbv zeta. destruct args as [|cmd rest]; [done|].
  repeat case_bool_decide; try done.
  all: try (apply withBatch_closes; intros; apply cmdBatch_quiet).
  all: try (apply withCluster_closes; intros; repeat case_match; auto using quiet_nil).
  destruct rest; [apply cmdAdmin_closes|apply quiet_closes, quiet_nil].
Qed.
End run.

(** ** Examples *)

Example parseIn_ex :
  parseIn "-" ["--in"; "keys.txt"; "x"] = Some ("keys.txt", ["x"]) ∧
  parseIn "-" ["-in=a=b"; "--"; "--in"] = Some ("a=b", ["--in"]) ∧
  parseIn "-" ["--out"; "y"] = None ∧ parseIn "-" ["--in"] = None.
Proof. vm_compute. done. Qed.

(** Node 0 is not the leader, node 1 is; the deadline never expires. *)
Definition demo_call : call :=
  mkCall [0; 1]%nat (λ i _ _, if Nat.eqb i 0 then inr FailedPrecondition else inl 7)
    (λ _ _, inl ("v", true)) (λ _ _, inr Unavailable) (λ _, false) 3.

Definition demo_stdin : reader :=
  mkReader ("a" +:+ ht +:+ "1" +:+ nl +:+ "   " +:+ nl +:+ "bad" +:+ nl +:+ "b" +:+ ht +:+ "2") None.

Example demo_put_batch :
  run (λ _, "down") (λ _, demo_call) demo_stdin (λ _, inr "no such file") (λ _, None) (λ _, None)
    (λ _, None) "h1:1, h2:2" ["put-batch"] =
  ([Conn (Dialed 0); Conn (Dialed 1);
    Out (record ["ok"; "1"; "3"; "7"; "a"]); Out (record ["err"; "2"; "0"; ""; "invalid_tsv_line"]);
    Out (record ["ok"; "3"; "3"; "7"; "b"]);
    Conn (Closed 0); Conn (Closed 1)], None).
Proof. vm_compute. done. Qed.
