(* ===== verification/Process.v ===== *)
(** * Process: the node process

    [cmd/node/main.go] ([run]), [internal/app] ([New], [App.Run], [serve], the
    metrics and pprof servers, tracing), [DialPeers] of
    [internal/transport/grpc/raft/peers.go] and [Run] and [Stop] of the Raft
    node: how a process is put together from its configuration and what it
    leaves behind.  The world, that is what the operating system and the
    libraries answer, is the record [World]; the effects are [pevent]s.

    The theorems: a process never panics at its start and never fails in
    [New], since a configuration that loads is valid; its node is the one
    [NewNode] recovers from the storage, without itself among its peers; and on
    every path, startup failures included, everything it opened is closed
    again, two failures apart: the connections to the peers stay open when the
    metrics cannot be registered, and the trace exporter when the tracing
    resource cannot be built ([process_closes], [metrics_failure_leaks],
    [tracing_failure_leaks]).  The deferred shutdowns are taken to do their
    work; what they report is only logged. *)

From S2P Require Import Prelude Types Storage Timing Node Utf8 Json GoStrings GoJson KvStore KvService.
From S2P Require Import KvEngine Admin AppConfig.
Open Scope Z_scope.

(** ** Effects *)

Inductive server : Type := GrpcServer | MetricsServer | PprofServer.
Inductive loop : Type := RaftLoop | RaftApplyLoop | KvApplyLoop.

(** What a process holds open. *)
Inductive handle : Type :=
  | PeerConn (id : string)
  | Goroutine (l : loop)
  | TraceExporter
  | TracerProvider
  | ListenerOf (s : server)
  | ServerOf (s : server).

#[export] Instance server_eq_dec : EqDecision server.
Proof. solve_decision. Defined.
#[export] Instance loop_eq_dec : EqDecision loop.
Proof. solve_decision. Defined.
#[export] Instance handle_eq_dec : EqDecision handle.
Proof. solve_decision. Defined.

(** A handle is opened or closed; a closed one may be closed again. *)
Inductive pevent : Type := Opens (h : handle) | Closes (h : handle).

Inductive run_error : Type :=
  | Msg (text : string)
  | NodeError (e : error).

Record World (S : Type) : Type := mkWorld {
  w_env : string → option string;          (** the environment *)
  w_newClient : string → option string;    (** an error of [grpc.NewClient] *)
  w_disk : string → S;                     (** the storage in a data directory *)
  w_prometheus : option string;            (** an error of [NewPrometheus] *)
  w_collectors : option string;            (** an error of the runtime collectors *)
  w_exporter : option string;              (** an error of [otlptracegrpc.New] *)
  w_resource : option string;              (** an error of [resource.New] *)
  w_listen : string → option string;       (** an error of [net.Listen] *)
  w_end : option string }.                 (** a fatal error, or the signal *)
Arguments mkWorld {S}.
Arguments w_env {S}. Arguments w_newClient {S}. Arguments w_disk {S}. Arguments w_prometheus {S}.
Arguments w_collectors {S}. Arguments w_exporter {S}. Arguments w_resource {S}. Arguments w_listen {S}. Arguments w_end {S}.

(** ** The Raft node *)

Section process.
Context {S : Type} {HS : Storage S}.
Implicit Types (n : Node S) (w : World S) (cfg : Config).

(** [Run] with an apply channel: the loops it starts. *)
Definition NodeRun n : Node S * list pevent :=
  if degraded n then (n, [])
  else (Node.notifyApply n, [Opens (Goroutine RaftLoop); Opens (Goroutine RaftApplyLoop)]).

(** [Stop]: the peers are closed, then the loops have ended. *)
Definition NodeStop n : list pevent :=
  ((λ p, Closes (PeerConn p)) <$> elements (peers n)) ++
  [Closes (Goroutine RaftLoop); Closes (Goroutine RaftApplyLoop)].

(** ** The peers *)

(** The loop of [DialPeers], over the map in some order; [dialed] are the
    peers connected so far. *)
Fixpoint dialPeers (newClient : string → option string) (dialed : list string)
    (addresses : list (string * string)) : list pevent * option string :=
  match addresses with
  | [] => ([], None)
  | (id, addr) :: addresses =>
      match newClient addr with
      | Some err => ((λ p, Closes (PeerConn p)) <$> dialed,
                     Some ("dial peer " +:+ id +:+ " at " +:+ addr +:+ ": " +:+ err))
      | None => let '(evs, r) := dialPeers newClient (id :: dialed) addresses in
                (Opens (PeerConn id) :: evs, r)
      end
  end.

Definition DialPeers (newClient : string → option string) (addresses : gmap string string)
    : list pevent * option string :=
  dialPeers newClient [] (map_to_list addresses).

(** ** [internal/app] *)

(** [initTracing]: nothing unless tracing is enabled; the exporter is a client
    with its connection, which the provider owns once it is made. *)
Definition initTracing w cfg : list pevent * option string :=
  if negb (TracingEnabled cfg) then ([], None) else
  match w_exporter w with
  | Some err => ([], Some ("init tracing exporter: " +:+ err))
  | None =>
      match w_resource w with
      | Some err => ([Opens TraceExporter], Some ("init tracing resource: " +:+ err))
      | None => ([Opens TraceExporter; Opens TracerProvider], None)
      end
  end.

(** [shutdownTracing]: the provider shuts its exporter down. *)
Definition shutdownTracing cfg : list pevent :=
  if TracingEnabled cfg then [Closes TraceExporter; Closes TracerProvider] else [].

(** [metricsServer]: whether there is one, or an error. *)
Definition metricsServer w cfg : bool * list pevent * option string :=
  if bool_decide (MetricsAddr cfg = "") then (false, [], None) else
  match w_collectors w with
  | Some err => (false, [], Some err)
  | None =>
      match w_listen w (MetricsAddr cfg) with
      | Some err => (false, [], Some ("listen metrics " +:+ MetricsAddr cfg +:+ ": " +:+ err))
      | None => (true, [Opens (ListenerOf MetricsServer)], None)
      end
  end.

Definition pprofServer w cfg : bool * list pevent * option string :=
  if bool_decide (PprofAddr cfg = "") then (false, [], None) else
  match w_listen w (PprofAddr cfg) with
  | Some err => (false, [], Some ("listen pprof " +:+ PprofAddr cfg +:+ ": " +:+ err))
  | None => (true, [Opens (ListenerOf PprofServer)], None)
  end.

(** An event of a server that may be absent. *)
Definition if_any (b : bool) (evs : list pevent) : list pevent := if b then evs else [].

(** The deferred calls of [serve] for one of the two HTTP servers. *)
Definition deferHTTP (b : bool) (s : server) : list pevent :=
  if_any b [Closes (ServerOf s); Closes (ListenerOf s)].

Definition serve w cfg : list pevent * option run_error :=
  let '(metrics, e1, err) := metricsServer w cfg in
  match err with
  | Some err => (e1, Some (Msg err))
  | None =>
      let '(pprof, e2, err) := pprofServer w cfg in
      match err with
      | Some err => (e1 ++ e2 ++ deferHTTP metrics MetricsServer, Some (Msg err))
      | None =>
          let start := [Opens (Goroutine KvApplyLoop); Opens (ServerOf GrpcServer)]
            ++ if_any metrics [Opens (ServerOf MetricsServer)]
            ++ if_any pprof [Opens (ServerOf PprofServer)] in
          (* ctx.Done: graceful; an error of one of the goroutines: at once *)
          let stop := if_any metrics [Closes (ServerOf MetricsServer)]
            ++ if_any pprof [Closes (ServerOf PprofServer)] ++ [Closes (ServerOf GrpcServer)] in
          (e1 ++ e2 ++ start ++ stop ++ deferHTTP pprof PprofServer ++ deferHTTP metrics MetricsServer,
           Msg <$> w_end w)
      end
  end.

(** [App.Run], with the node as [Run] leaves it. *)
Definition AppRun w cfg n : Node S * (list pevent * option run_error) :=
  let '(e1, err) := initTracing w cfg in
  match err with
  | Some err => (n, (e1, Some (Msg err)))
  | None =>
      let '(n, e2) := NodeRun n in
      let shutdown := shutdownTracing cfg in
      match w_listen w (GRPCAddr cfg) with
      | Some err => (n, (e1 ++ e2 ++ shutdown,
                         Some (Msg ("listen grpc " +:+ GRPCAddr cfg +:+ ": " +:+ err))))
      | None =>
          let '(e3, err) := serve w cfg in
          (n, (e1 ++ e2 ++ [Opens (ListenerOf GrpcServer)] ++ e3
               ++ [Closes (ListenerOf GrpcServer)] ++ shutdown, err))
      end
  end.

(** [New]: no dependency is nil in this program. *)
Definition New cfg : option string := Validate cfg.

(** ** [run] *)

Record Process : Type := mkProcess {
  p_cfg : Config;
  p_kv : KV (Node S);
  p_admin : AdminServer }.

(** Up to [New], which is left out: the process or an error. *)
Definition start w : outcome (list pevent * (Process + run_error)) :=
  match LoadConfigFromEnv (w_env w) with
  | inr err => Ret ([], inr (Msg err))
  | inl cfg =>
      match PeerAddrMap cfg with
      | inr err => Ret ([], inr (Msg err))
      | inl addrs =>
          let peerAddrs := delete (NodeID cfg) addrs in
          match DialPeers (w_newClient w) peerAddrs with
          | (e1, Some err) => Ret (e1, inr (Msg err))
          | (e1, None) =>
              match w_prometheus w with
              | Some err => Ret (e1, inr (Msg err))
              | None =>
                  r ← NewNode (NodeID cfg) (dom peerAddrs) (Some (w_disk w (DataDir cfg))) true;
                  match r with
                  | Err e =>
                      Ret (e1 ++ ((λ p, Closes (PeerConn p)) <$> elements (dom peerAddrs)),
                           inr (NodeError e))
                  | Val n =>
                      Ret (e1, inl (mkProcess cfg (NewKV n NewStore (SnapshotEvery cfg))
                        (mkAdmin (NodeID cfg) (ConsensusType cfg) peerAddrs (Some (GetAdminState n)))))
                  end
              end
          end
      end
  end.

(** The process from its start to its end; the deferred calls cancel the
    context, which ends the apply loop of the service, and stop the node. *)
Definition run w : outcome (list pevent * option run_error) :=
  '(e1, r) ← start w;
  match r with
  | inr err => Ret (e1, Some err)
  | inl p =>
      let n := KV.consensus (p_kv p) in
      match New (p_cfg p) with
      | Some err => Ret (e1 ++ NodeStop n, Some (Msg err))
      | None =>
          let '(n, (e2, err)) := AppRun w (p_cfg p) n in
          Ret (e1 ++ e2 ++ [Closes (Goroutine KvApplyLoop)] ++ NodeStop n, err)
      end
  end.
End process.

(** ** What is open after a run of events *)

Definition open_step (h : handle) (b : bool) (e : pevent) : bool :=
  match e with
  | Opens h' => if bool_decide (h = h') then true else b
  | Closes h' => if bool_decide (h = h') then false else b
  end.

Definition open_from (b : bool) (evs : list pevent) (h : handle) : bool := foldl (open_step h) b evs.
Definition is_open (evs : list pevent) (h : handle) : bool := open_from false evs h.

Lemma open_from_app b e1 e2 h : open_from b (e1 ++ e2) h = open_from (open_from b e1 h) e2 h.
Proof. apply foldl_app. Qed.

Lemma open_from_closes b l h :
  open_from b ((λ p, Closes (PeerConn p)) <$> l) h = b && negb (bool_decide (h ∈ PeerConn <$> l)).
Proof.
  unfold open_from. revert b. induction l as [|p l IH]; intros b; rewrite ?fmap_cons; cbn [foldl].
  { rewrite bool_decide_eq_false_2 by apply not_elem_of_nil. by rewrite andb_true_r. }
  rewrite IH. cbn [open_step].
  rewrite (bool_decide_ext (h ∈ PeerConn p :: (PeerConn <$> l)) (h = PeerConn p ∨ h ∈ PeerConn <$> l))
    by apply elem_of_cons.
  repeat case_bool_decide; destruct b; naive_solver.
Qed.

Lemma open_from_other evs h b :
  Forall (λ e, match e with Opens h' | Closes h' => h' ≠ h end) evs → open_from b evs h = b.
Proof.
  unfold open_from. intros H. revert b. induction H as [|e evs He Hevs IH]; intros b; [done|]. cbn [foldl].
  rewrite IH. destruct e; cbn [open_step]; by rewrite bool_decide_eq_false_2 by congruence.
Qed.

(** Dialling opens the peers it was given, or closes again those it opened. *)
Lemma dialPeers_open newClient dialed addresses h :
  let '(evs, r) := dialPeers newClient dialed addresses in
  open_from (bool_decide (h ∈ PeerConn <$> dialed)) evs h =
  match r with
  | Some _ => false
  | None => bool_decide (h ∈ PeerConn <$> dialed ∨ h ∈ PeerConn <$> addresses.*1)
  end.
Proof.
  revert dialed. induction addresses as [|[id addr] addresses IH]; intros dialed; cbn [dialPeers].
  { apply bool_decide_ext. set_solver. }
  destruct (newClient addr).
  { rewrite open_from_closes. by repeat case_bool_decide. }
  specialize (IH (id :: dialed)). destruct (dialPeers newClient (id :: dialed) addresses) as [evs r].
  change (open_from ?b (Opens (PeerConn id) :: evs) h) with (open_from (open_step h b (Opens (PeerConn id))) evs h).
  cbn [open_step]. rewrite (bool_decide_ext (h ∈ PeerConn <$> id :: dialed)
    (h = PeerConn id ∨ h ∈ PeerConn <$> dialed)) in IH by (cbn; by rewrite elem_of_cons).
  replace (if bool_decide (h = PeerConn id) then true else bool_decide (h ∈ PeerConn <$> dialed))
    with (bool_decide (h = PeerConn id ∨ h ∈ PeerConn <$> dialed))
    by (repeat case_bool_decide; naive_solver).
  rewrite IH. destruct r; [done|]. apply bool_decide_ext. cbn. rewrite !elem_of_cons. naive_solver.
Qed.

Lemma DialPeers_open newClient addresses h :
  let '(evs, r) := DialPeers newClient addresses in
  is_open evs h =
  match r with
  | Some _ => false
  | None => bool_decide (h ∈ PeerConn <$> elements (dom addresses))
  end.
Proof.
  unfold DialPeers. pose proof (dialPeers_open newClient [] (map_to_list addresses) h) as H.
  destruct (dialPeers newClient [] (map_to_list addresses)) as [evs r].
  unfold is_open. change false with (bool_decide (h ∈ PeerConn <$> [])) at 1.
  rewrite H. destruct r; [done|]. apply bool_decide_ext. rewrite !list_elem_of_fmap.
  setoid_rewrite elem_of_elements. setoid_rewrite elem_of_dom. split.
  - intros [(? & _ & []%elem_of_nil)|(id & -> & ([i a] & -> & Hi)%list_elem_of_fmap)].
    apply elem_of_map_to_list in Hi. exists i. by split; [|exists a].
  - intros (id & -> & a & Ha). right. exists id. split; [done|]. apply list_elem_of_fmap.
    exists (id, a). split; [done|]. by apply elem_of_map_to_list.
Qed.

(** ** Starting *)

Section theorems.
Context {S : Type} {HS : Storage S}.
Implicit Types (n : Node S) (w : World S).

(** [NewNode] never panics, whatever the storage holds. *)
Lemma NewNode_total i ps (s : S) :
  ∃ r, NewNode i ps (Some s) true = Ret r ∧
    ∀ n, r = Val n → id n = i ∧ peers n = normalizePeers i ps ∧ storage n = Some s ∧ degraded n = false.
Proof.
  unfold NewNode. cbn [negb]. destruct (Load s) as [pst|e]; [|by eexists]. cbv zeta.
  unfold restore_log. set (n := Node.restore_snapshot _ _).
  assert (0 ≤ stale_count (snapshotIndex n) pst ≤ zlen (PersistentState.Log pst)) as Hc.
  { unfold stale_count. pose proof (zlen_nonneg (PersistentState.Log pst)). repeat case_match; zbool; lia. }
  rewrite slice_from_Ret by done. cbn [mbind outcome_bind]. eexists. split; [done|]. intros n' [= <-].
  subst n. unfold clamp_commit, Node.restore_snapshot, restore_config.
  repeat (case_match; simpl); auto.
Qed.

Lemma LoadConfigFromEnv_valid env cfg : LoadConfigFromEnv env = inl cfg → Validate cfg = None.
Proof.
  unfold LoadConfigFromEnv. cbv zeta. repeat case_match; try done; by intros [= <-].
Qed.

(** The process of a start: its node is what the storage of the configured
    directory gives, with every listed node but itself as a peer. *)
Definition started w (p : Process) : Prop :=
  LoadConfigFromEnv (w_env w) = inl (p_cfg p) ∧ New (p_cfg p) = None ∧
  ∃ addrs n, PeerAddrMap (p_cfg p) = inl addrs ∧
    NewNode (NodeID (p_cfg p)) (dom (delete (NodeID (p_cfg p)) addrs))
      (Some (w_disk w (DataDir (p_cfg p)))) true = Ret (Val n) ∧
    p_kv p = NewKV n NewStore (SnapshotEvery (p_cfg p)) ∧
    id n = NodeID (p_cfg p) ∧ peers n = dom addrs ∖ {[NodeID (p_cfg p)]} ∧ degraded n = false ∧
    peerAddrs (p_admin p) = delete (NodeID (p_cfg p)) addrs.

Lemma start_spec w :
  ∃ evs r, start w = Ret (evs, r) ∧
    match r with
    | inl p => started w p ∧
        ∀ h, is_open evs h = bool_decide (h ∈ PeerConn <$> elements (peers (KV.consensus (p_kv p))))
    | inr _ => ∀ h, is_open evs h = true → (∃ p, h = PeerConn p) ∧ is_Some (w_prometheus w)
    end.
Proof.
  unfold start. destruct (LoadConfigFromEnv (w_env w)) as [cfg|err] eqn:Ec; [|by eexists _, _].
  destruct (PeerAddrMap cfg) as [addrs|err] eqn:Ea; [|by eexists _, _]. cbv zeta.
  set (pa := delete (NodeID cfg) addrs).
  assert (∀ h, let '(evs, r) := DialPeers (w_newClient w) pa in is_open evs h =
    match r with Some _ => false | None => bool_decide (h ∈ PeerConn <$> elements (dom pa)) end) as Hd
    by apply DialPeers_open.
  destruct (DialPeers (w_newClient w) pa) as [e1 [err|]]; [eexists _, _; split; [done|]; intros h; by rewrite Hd|].
  destruct (w_prometheus w) as [err|].
  { eexists _, _. split; [done|]. intros h. rewrite Hd. intros Hh%bool_decide_eq_true.
    apply list_elem_of_fmap in Hh as (id & -> & _). eauto. }
  destruct (NewNode_total (NodeID cfg) (dom pa) (w_disk w (DataDir cfg))) as (r & En & Hn).
  rewrite En. cbn [mbind outcome_bind]. destruct r as [n|e].
  - eexists _, _. split; [done|]. destruct (Hn n eq_refl) as (Hid & Hp & Hs & Hdg).
    assert (normalizePeers (NodeID cfg) (dom pa) = dom pa) as Hnorm.
    { unfold normalizePeers. apply set_eq. intros x. rewrite elem_of_filter. subst pa. set_solver. }
    cbn [p_cfg p_kv p_admin]. rewrite Hnorm in Hp. split.
    + split; [done|]. split; [by eapply LoadConfigFromEnv_valid|]. exists addrs, n.
      split_and!; try done. rewrite Hp. subst pa. by rewrite dom_delete_L.
    + intros h. cbn. rewrite Hp. apply Hd.
  - eexists _, _. split; [done|]. intros h. unfold is_open. rewrite open_from_app.
    specialize (Hd h). unfold is_open in Hd. rewrite Hd, open_from_closes. by case_bool_decide.
Qed.


(** [AppRun] and the deferred calls close all they opened, but the exporter
    when the resource is refused, and leave the connections to the peers
    alone. *)
Definition stopped : list pevent :=
  [Closes (Goroutine KvApplyLoop); Closes (Goroutine RaftLoop); Closes (Goroutine RaftApplyLoop)].

Lemma AppRun_open w cfg n b h :
  (∃ p, h = PeerConn p) ∨ b = false →
  let '(n', (evs, err)) := AppRun w cfg n in
  peers n' = peers n ∧
  (open_from b (evs ++ stopped) h = b ∨ h = TraceExporter ∧ is_Some (w_resource w)).
Proof.
  intros Hb. unfold AppRun, NodeRun, initTracing.
  assert (∀ evs, (∀ p, open_from b (evs ++ stopped) (PeerConn p) = b) →
    (open_from false (evs ++ stopped) h = false) → open_from b (evs ++ stopped) h = b) as Hh.
  { intros evs Hp Hf. destruct Hb as [[p ->]| ->]; [apply Hp|exact Hf]. }
  destruct (TracingEnabled cfg) eqn:Ht, (w_exporter w) eqn:Ex, (w_resource w) eqn:Er; cbn [negb].
  3:{ split; [reflexivity|]. destruct (decide (h = TraceExporter)); [by right|left].
      apply Hh; [intros p; reflexivity|by destruct h as [|[]| | |[]|[]]]. }
  all: unfold serve, metricsServer, pprofServer, shutdownTracing;
    destruct (degraded n), (w_listen w (GRPCAddr cfg)),
    (bool_decide (MetricsAddr cfg = "")), (w_collectors w), (w_listen w (MetricsAddr cfg)),
    (bool_decide (PprofAddr cfg = "")), (w_listen w (PprofAddr cfg)); rewrite ?Ht;
    cbv beta iota zeta delta [if_any deferHTTP];
    (split; [reflexivity|left; apply Hh; [intros p; reflexivity|by destruct h as [|[]| | |[]|[]]]]).
Qed.

(** The events of [run] after [start]: those of [AppRun], the end of the
    service's loop, and [NodeStop]. *)
Lemma shutdown_open b evs n h :
  open_from b (evs ++ [Closes (Goroutine KvApplyLoop)] ++ NodeStop n) h =
  open_from b (evs ++ stopped) h && negb (bool_decide (h ∈ PeerConn <$> elements (peers n))).
Proof.
  unfold NodeStop. rewrite !open_from_app, open_from_closes.
  set (c := open_from b evs h). destruct (bool_decide (h ∈ PeerConn <$> elements (peers n))) eqn:E; cbn [negb].
  - rewrite !andb_false_r. apply bool_decide_eq_true in E.
    apply list_elem_of_fmap in E as (p & -> & _). reflexivity.
  - rewrite !andb_true_r. unfold stopped. by rewrite <- open_from_app.
Qed.

Lemma serve_end w cfg : (serve w cfg).2 = None → w_end w = None.
Proof.
  unfold serve. destruct (metricsServer w cfg) as [[m e1] [err|]]; [done|].
  destruct (pprofServer w cfg) as [[pp e2] [err|]]; [done|]. cbn. by destruct (w_end w).
Qed.

(** C38. A process never panics at its start and never fails in [New].  It
    ends without an error only after it has [started], its node recovered from
    the storage of its configuration, and been signalled.  Whatever ends it,
    start-up failures included, every connection, loop, listener, server,
    tracer provider and exporter it opened is closed, two failures apart: with
    the metrics refused the connections to the peers may be open, and with the
    tracing resource refused the trace exporter. *)
Theorem process_closes w :
  ∃ evs err, run w = Ret (evs, err) ∧
    (∀ h, is_open evs h = true →
       (∃ p, h = PeerConn p) ∧ is_Some (w_prometheus w) ∨
       h = TraceExporter ∧ is_Some (w_resource w)) ∧
    (err = None → w_end w = None ∧ ∃ p, started w p).
Proof.
  unfold run. destruct (start_spec w) as (e1 & r & -> & Hr). cbn [mbind outcome_bind].
  destruct r as [p|err]; [|eexists _, _; split; [done|]; split; [|done]; intros h Hh; left; by apply Hr].
  destruct Hr as [Hp Ho]. pose proof Hp as (_ & -> & _).
  pose proof (AppRun_open w (p_cfg p) (KV.consensus (p_kv p))) as Hrun.
  assert (∀ n' evs err, AppRun w (p_cfg p) (KV.consensus (p_kv p)) = (n', (evs, err)) →
    err = None → w_end w = None) as Herr.
  { intros n' evs err. unfold AppRun. destruct (initTracing _ _) as [? [?|]], (NodeRun (KV.consensus (p_kv p))), (w_listen w (GRPCAddr (p_cfg p)));
      try by intros [= _ _ <-].
    pose proof (serve_end w (p_cfg p)) as He. destruct (serve _ _). intros [= _ _ <-]. exact He. }
  destruct (AppRun w (p_cfg p) (KV.consensus (p_kv p))) as [n' [e2 err]]. eexists _, _. split; [done|].
  split; [|intros ->; split; [by eapply Herr|by exists p]].
  intros h. unfold is_open. rewrite open_from_app. fold (is_open e1 h). rewrite Ho, shutdown_open.
  destruct (Hrun false h ltac:(by right)) as [-> _].
  case_bool_decide as Hh; [by rewrite andb_false_r|].
  destruct (Hrun false h ltac:(by right)) as [_ [->|[-> ?]]]; [done|]. intros _. by right.
Qed.

(** With the metrics registry refused, [run] returns without closing the
    connections to the peers it has just dialled. *)
Lemma metrics_failure_leaks w cfg addrs err :
  LoadConfigFromEnv (w_env w) = inl cfg → PeerAddrMap cfg = inl addrs →
  (∀ addr, w_newClient w addr = None) → w_prometheus w = Some err →
  ∃ evs, run w = Ret (evs, Some (Msg err)) ∧
    ∀ p, p ∈ dom addrs → p ≠ NodeID cfg → is_open evs (PeerConn p) = true.
Proof.
  intros Hc Ha Hd Hm. unfold run, start. rewrite Hc, Ha, Hm. cbv zeta.
  set (pa := delete (NodeID cfg) addrs).
  assert ((DialPeers (w_newClient w) pa).2 = None) as Hnone.
  { unfold DialPeers. generalize (map_to_list pa), (@nil string).
    induction l as [|[i a] l IH]; intros dialed; cbn [dialPeers]; [done|]. rewrite Hd.
    specialize (IH (i :: dialed)). by destruct (dialPeers _ _ _). }
  assert (∀ h, let '(evs, r) := DialPeers (w_newClient w) pa in is_open evs h =
    match r with Some _ => false | None => bool_decide (h ∈ PeerConn <$> elements (dom pa)) end) as Ho
    by apply DialPeers_open.
  destruct (DialPeers (w_newClient w) pa) as [e1 r]. cbn in Hnone. subst r. cbn [mbind outcome_bind].
  eexists. split; [done|]. intros p Hp Hne. rewrite Ho. apply bool_decide_eq_true.
  apply list_elem_of_fmap. exists p. split; [done|]. rewrite elem_of_elements. subst pa. set_solver.
Qed.

(** With the tracing resource refused, [Run] returns before its deferred
    shutdown is in place, and nothing closes the exporter. *)
Lemma tracing_failure_leaks w cfg n err :
  TracingEnabled cfg = true → w_exporter w = None → w_resource w = Some err →
  AppRun w cfg n = (n, ([Opens TraceExporter], Some (Msg ("init tracing resource: " +:+ err)))) ∧
  is_open ([Opens TraceExporter] ++ [Closes (Goroutine KvApplyLoop)] ++ NodeStop n) TraceExporter = true.
Proof.
  intros Ht Hx Hr. split; [unfold AppRun, initTracing; by rewrite Ht, Hx, Hr|].
  unfold is_open. rewrite open_from_app, open_from_other; [reflexivity|]. unfold NodeStop.
  apply list.Forall_forall. intros e [He%list_elem_of_singleton|He]%elem_of_app; [by subst|].
  apply elem_of_app in He as [(p & -> & _)%list_elem_of_fmap|[->|He%list_elem_of_singleton]%elem_of_cons];
    by subst.
Qed.
End theorems.

(** A process of three nodes that serves until the signal. *)
Definition demo_world : World InMemoryStorage.t :=
  mkWorld (λ name, if bool_decide (name = "APP_NODE_ID") then Some "a"
                   else if bool_decide (name = "APP_PEERS") then Some "a=h:1,b=h:2,c=h:3" else None)
    (λ _, None) (λ _, InMemoryStorage.NewInMemoryStorage) None None None None (λ _, None) None.

Example demo_process :
  ∃ evs, run demo_world = Ret (evs, None) ∧
    Opens (ServerOf GrpcServer) ∈ evs ∧ Closes (PeerConn "b") ∈ evs ∧ is_open evs (PeerConn "c") = false.
Proof. eexists. split; [vm_compute; reflexivity|]. split_and!; [set_solver..|reflexivity]. Qed.
