(* ===== verification/Metrics.v ===== *)
(** * Metrics: the Prometheus sink

    [internal/observability/metrics/prometheus.go].  The vectors of metrics
    with their names, labels and buckets, their registration, and the methods
    through which the node and the service report.  The Prometheus client is
    the state [samples] with its documented panics (a number of label values
    other than that of the labels, a negative amount added to a counter,
    buckets that do not increase), and the class [Registerer].  A duration is
    in nanoseconds; an amount that the code converts to [float64] is kept an
    integer.

    The lemmas: the literals are well formed, so no constructor and no method
    panics ([method_total]); a counter never decreases ([counters_grow]); and
    a second [NewPrometheus] on the same registry gives the collectors of the
    first ([NewPrometheus_again]). *)

From Stdlib Require Import QArith.
From S2P Require Import Prelude Types.
Open Scope Z_scope.

Inductive vec_kind : Type := Histogram | Counter | Gauge.

#[export] Instance vec_kind_eq_dec : EqDecision vec_kind.
Proof. solve_decision. Defined.

(** [HistogramOpts], [CounterOpts], [GaugeOpts] and the label names. *)
Record vec : Type := mkVec {
  kind : vec_kind; Subsystem : string; Name : string; Buckets : list Q; labels : list string }.

Inductive metric : Type :=
  | kvWaitAppliedDuration
  | kvStartToApplyDuration
  | kvApplyToWakeDuration
  | kvWaitAppliedWakeupsTotal
  | kvWaitAppliedCallsTotal
  | kvProposalTotal
  | kvSnapshotDuration
  | kvSnapshotBytes
  | kvSnapshotTotal
  | raftAppendEntriesRPCDuration
  | raftAppendEntriesRejectTotal
  | raftAppendEntriesRPCError
  | raftInstallSnapshotRPCDur
  | raftInstallSnapshotSendBytes
  | raftInstallSnapshotSendTotal
  | raftElectionStartedTotal
  | raftElectionWonTotal
  | raftElectionLostTotal
  | raftStorageErrorTotal
  | raftApplyLag
  | raftIsLeader
  | raftStartToCommitDuration
  | raftCommitToApplyDuration.

#[export] Instance metric_eq_dec : EqDecision metric.
Proof. solve_decision. Defined.

Definition all_metrics : list metric :=
  [kvWaitAppliedDuration; kvStartToApplyDuration; kvApplyToWakeDuration; kvWaitAppliedWakeupsTotal; kvWaitAppliedCallsTotal; kvProposalTotal; kvSnapshotDuration; kvSnapshotBytes; kvSnapshotTotal; raftAppendEntriesRPCDuration; raftAppendEntriesRejectTotal; raftAppendEntriesRPCError; raftInstallSnapshotRPCDur; raftInstallSnapshotSendBytes; raftInstallSnapshotSendTotal; raftElectionStartedTotal; raftElectionWonTotal; raftElectionLostTotal; raftStorageErrorTotal; raftApplyLag; raftIsLeader; raftStartToCommitDuration; raftCommitToApplyDuration].

(** The literals of [NewPrometheus]. *)
Definition newVec (m : metric) : vec :=
  match m with
  | kvWaitAppliedDuration => mkVec Histogram "kv" "wait_applied_duration_seconds" ([0.001; 0.0025; 0.005; 0.01; 0.02; 0.05; 0.1; 0.2; 0.5; 1])%Q ["node_id"; "result"]
  | kvStartToApplyDuration => mkVec Histogram "kv" "start_to_apply_duration_seconds" ([0.0005; 0.001; 0.0025; 0.005; 0.01; 0.02; 0.05; 0.1; 0.2; 0.5])%Q ["node_id"]
  | kvApplyToWakeDuration => mkVec Histogram "kv" "apply_to_waiter_wakeup_duration_seconds" ([0.00005; 0.0001; 0.00025; 0.0005; 0.001; 0.0025; 0.005; 0.01; 0.02])%Q ["node_id"]
  | kvWaitAppliedWakeupsTotal => mkVec Counter "kv" "wait_applied_wakeups_total" ([])%Q ["node_id"]
  | kvWaitAppliedCallsTotal => mkVec Counter "kv" "wait_applied_calls_total" ([])%Q ["node_id"; "result"]
  | kvProposalTotal => mkVec Counter "kv" "proposal_total" ([])%Q ["node_id"; "result"]
  | kvSnapshotDuration => mkVec Histogram "kv" "snapshot_duration_seconds" ([0.001; 0.0025; 0.005; 0.01; 0.02; 0.05; 0.1; 0.2; 0.5; 1; 2])%Q ["node_id"]
  | kvSnapshotBytes => mkVec Histogram "kv" "snapshot_bytes" ([256; 1024; 4096; 16384; 65536; 262144; 1048576; 4194304; 16777216])%Q ["node_id"]
  | kvSnapshotTotal => mkVec Counter "kv" "snapshot_total" ([])%Q ["node_id"; "result"]
  | raftAppendEntriesRPCDuration => mkVec Histogram "raft" "appendentries_rpc_duration_seconds" ([0.0005; 0.001; 0.0025; 0.005; 0.01; 0.02; 0.05; 0.1; 0.2; 0.5])%Q ["node_id"; "peer_id"; "heartbeat"]
  | raftAppendEntriesRejectTotal => mkVec Counter "raft" "appendentries_reject_total" ([])%Q ["node_id"; "peer_id"; "heartbeat"]
  | raftAppendEntriesRPCError => mkVec Counter "raft" "appendentries_rpc_error_total" ([])%Q ["node_id"; "peer_id"; "heartbeat"; "kind"]
  | raftInstallSnapshotRPCDur => mkVec Histogram "raft" "installsnapshot_rpc_duration_seconds" ([0.001; 0.0025; 0.005; 0.01; 0.02; 0.05; 0.1; 0.2; 0.5; 1; 2])%Q ["node_id"; "peer_id"]
  | raftInstallSnapshotSendBytes => mkVec Histogram "raft" "installsnapshot_send_bytes" ([256; 1024; 4096; 16384; 65536; 262144; 1048576; 4194304; 16777216])%Q ["node_id"; "peer_id"]
  | raftInstallSnapshotSendTotal => mkVec Counter "raft" "installsnapshot_send_total" ([])%Q ["node_id"; "peer_id"; "result"]
  | raftElectionStartedTotal => mkVec Counter "raft" "election_started_total" ([])%Q ["node_id"]
  | raftElectionWonTotal => mkVec Counter "raft" "election_won_total" ([])%Q ["node_id"]
  | raftElectionLostTotal => mkVec Counter "raft" "election_lost_total" ([])%Q ["node_id"; "reason"]
  | raftStorageErrorTotal => mkVec Counter "raft" "storage_error_total" ([])%Q ["node_id"; "op"]
  | raftApplyLag => mkVec Gauge "raft" "apply_lag" ([])%Q ["node_id"]
  | raftIsLeader => mkVec Gauge "raft" "is_leader" ([])%Q ["node_id"]
  | raftStartToCommitDuration => mkVec Histogram "raft" "start_to_commit_duration_seconds" ([0.0005; 0.001; 0.0025; 0.005; 0.01; 0.02; 0.05; 0.1; 0.2; 0.5])%Q ["node_id"]
  | raftCommitToApplyDuration => mkVec Histogram "raft" "commit_to_apply_duration_seconds" ([0.0001; 0.00025; 0.0005; 0.001; 0.0025; 0.005; 0.01; 0.02; 0.05; 0.1])%Q ["node_id"]
  end.

(** What [register] adds to an error. *)
Definition registerContext (m : metric) : string :=
  match m with
  | kvWaitAppliedDuration => "register kv waitApplied histogram"
  | kvStartToApplyDuration => "register kv start->apply histogram"
  | kvApplyToWakeDuration => "register kv apply->wake histogram"
  | kvWaitAppliedWakeupsTotal => "register kv wait wakeups counter"
  | kvWaitAppliedCallsTotal => "register kv wait calls counter"
  | kvProposalTotal => "register kv proposal counter"
  | kvSnapshotDuration => "register kv snapshot duration histogram"
  | kvSnapshotBytes => "register kv snapshot bytes histogram"
  | kvSnapshotTotal => "register kv snapshot counter"
  | raftAppendEntriesRPCDuration => "register raft appendentries rpc histogram"
  | raftAppendEntriesRejectTotal => "register raft appendentries reject counter"
  | raftAppendEntriesRPCError => "register raft appendentries rpc error counter"
  | raftInstallSnapshotRPCDur => "register raft installsnapshot rpc duration histogram"
  | raftInstallSnapshotSendBytes => "register raft installsnapshot bytes histogram"
  | raftInstallSnapshotSendTotal => "register raft installsnapshot counter"
  | raftElectionStartedTotal => "register raft election started counter"
  | raftElectionWonTotal => "register raft election won counter"
  | raftElectionLostTotal => "register raft election lost counter"
  | raftStorageErrorTotal => "register raft storage error counter"
  | raftApplyLag => "register raft apply lag gauge"
  | raftIsLeader => "register raft is_leader gauge"
  | raftStartToCommitDuration => "register raft start->commit histogram"
  | raftCommitToApplyDuration => "register raft commit->apply histogram"
  end.

(** ** Registration *)

(** What [Register] answers: done, another collector with the same
    description is there, or an error. *)
Inductive register_result (H : Type) : Type :=
  | Registered | Already (existing : H) | Refused (err : string).
Arguments Registered {H}. Arguments Already {H}. Arguments Refused {H}.

(** A registry and its collectors: [vec_of] is what a collector was made
    with. *)
Class Registerer (Reg H : Type) := {
  vec_of : H → vec;
  Register : Reg → H → Reg * register_result H }.

(** What the Prometheus client documents of a registry: it holds at most one
    collector per description and keeps it, and it answers a second one with
    the first. *)
Class RegistererLaws (Reg H : Type) `{Registerer Reg H} := {
  lookup_vec : Reg → vec → option H;
  lookup_kind reg v h : lookup_vec reg v = Some h → vec_of h = v;
  register_new reg h reg' : Register reg h = (reg', Registered) →
    lookup_vec reg' (vec_of h) = Some h ∧
    ∀ v, v ≠ vec_of h → lookup_vec reg' v = lookup_vec reg v;
  register_already reg h e : lookup_vec reg (vec_of h) = Some e ↔ Register reg h = (reg, Already e);
  register_same reg h reg' r : Register reg h = (reg', r) → r ≠ Registered → reg' = reg }.

Section registration.
Context {Reg H : Type} {HR : Registerer Reg H}.

(** [registerOrReuseHistogramVec], [CounterVec], [GaugeVec]. *)
Definition registerOrReuse (k : vec_kind) (reg : Reg) (c : H) : Reg * (H + string) :=
  match Register reg c with
  | (reg, Registered) => (reg, inl c)
  | (reg, Already existing) =>
      if bool_decide (kind (vec_of existing) = k) then (reg, inl existing)
      else (reg, inr "collector type mismatch")
  | (reg, Refused err) => (reg, inr err)
  end.

(** [register]: the fields of [Prometheus] that are in [ms], in order. *)
Fixpoint register (reg : Reg) (ms : list metric) (m : metric → H) : Reg * ((metric → H) + string) :=
  match ms with
  | [] => (reg, inl m)
  | x :: ms =>
      match registerOrReuse (kind (newVec x)) reg (m x) with
      | (reg, inl c) => register reg ms (λ y, if bool_decide (y = x) then c else m y)
      | (reg, inr err) => (reg, inr (registerContext x +:+ ": " +:+ err))
      end
  end.

(** [NewPrometheus] with the collectors it has just made: [fresh]. *)
Definition NewPrometheus (reg : Reg) (fresh : metric → H) : Reg * ((metric → H) + string) :=
  register reg all_metrics fresh.
End registration.

(** ** Reporting *)

Inductive amount : Type := Observe (x : Z) | Add (x : Z) | SetTo (x : Z).

(** [m.field.WithLabelValues(values...)] and what is done with it. *)
Record report : Type := mkReport { field : metric; values : list string; what : amount }.

Definition boolString (v : bool) : string := if v then "true" else "false".
Definition okResult (ok : bool) : string := if ok then "ok" else "timeout".
Definition atLeast0 (n : Z) : Z := if n <? 0 then 0 else n.

(** The methods, one constructor each. *)
Inductive method : Type :=
  | ObserveKVWaitAppliedDuration (nodeID : string) (d : Z) (ok : bool)
  | ObserveKVStartToApplyDuration (nodeID : string) (d : Z)
  | ObserveKVApplyToWakeDuration (nodeID : string) (d : Z)
  | AddKVWaitAppliedWakeups (nodeID : string) (n : Z)
  | IncKVWaitAppliedCall (nodeID : string) (ok : bool)
  | IncKVProposalResult (nodeID result : string)
  | ObserveKVSnapshotDuration (nodeID : string) (d : Z)
  | ObserveKVSnapshotBytes (nodeID : string) (n : Z)
  | IncKVSnapshot (nodeID result : string)
  | ObserveRaftAppendEntriesRPCDuration (nodeID peerID : string) (heartbeat : bool) (d : Z)
  | IncRaftAppendEntriesReject (nodeID peerID : string) (heartbeat : bool)
  | IncRaftAppendEntriesRPCError (nodeID peerID : string) (heartbeat : bool) (errKind : string)
  | ObserveRaftInstallSnapshotRPCDuration (nodeID peerID : string) (d : Z)
  | ObserveRaftInstallSnapshotSendBytes (nodeID peerID : string) (n : Z)
  | IncRaftInstallSnapshotSend (nodeID peerID result : string)
  | IncRaftElectionStarted (nodeID : string)
  | IncRaftElectionWon (nodeID : string)
  | IncRaftElectionLost (nodeID reason : string)
  | IncRaftStorageError (nodeID op : string)
  | SetRaftApplyLag (nodeID : string) (lag : Z)
  | SetRaftIsLeader (nodeID : string) (isLeader : bool)
  | ObserveRaftCommitToApplyDuration (nodeID : string) (d : Z)
  | ObserveRaftStartToCommitDuration (nodeID : string) (d : Z).

(** The body of a method: the report it makes, if any. *)
Definition reportOf (m : method) : option report :=
  match m with
  | ObserveKVWaitAppliedDuration n d ok =>
      Some (mkReport kvWaitAppliedDuration [n; okResult ok] (Observe d))
  | ObserveKVStartToApplyDuration n d => Some (mkReport kvStartToApplyDuration [n] (Observe d))
  | ObserveKVApplyToWakeDuration n d => Some (mkReport kvApplyToWakeDuration [n] (Observe d))
  | AddKVWaitAppliedWakeups n k =>
      if k <=? 0 then None else Some (mkReport kvWaitAppliedWakeupsTotal [n] (Add k))
  | IncKVWaitAppliedCall n ok => Some (mkReport kvWaitAppliedCallsTotal [n; okResult ok] (Add 1))
  | IncKVProposalResult n r => Some (mkReport kvProposalTotal [n; r] (Add 1))
  | ObserveKVSnapshotDuration n d => Some (mkReport kvSnapshotDuration [n] (Observe d))
  | ObserveKVSnapshotBytes n k => Some (mkReport kvSnapshotBytes [n] (Observe (atLeast0 k)))
  | IncKVSnapshot n r => Some (mkReport kvSnapshotTotal [n; r] (Add 1))
  | ObserveRaftAppendEntriesRPCDuration n p h d =>
      Some (mkReport raftAppendEntriesRPCDuration [n; p; boolString h] (Observe d))
  | IncRaftAppendEntriesReject n p h =>
      Some (mkReport raftAppendEntriesRejectTotal [n; p; boolString h] (Add 1))
  | IncRaftAppendEntriesRPCError n p h k =>
      Some (mkReport raftAppendEntriesRPCError [n; p; boolString h; k] (Add 1))
  | ObserveRaftInstallSnapshotRPCDuration n p d =>
      Some (mkReport raftInstallSnapshotRPCDur [n; p] (Observe d))
  | ObserveRaftInstallSnapshotSendBytes n p k =>
      Some (mkReport raftInstallSnapshotSendBytes [n; p] (Observe (atLeast0 k)))
  | IncRaftInstallSnapshotSend n p r => Some (mkReport raftInstallSnapshotSendTotal [n; p; r] (Add 1))
  | IncRaftElectionStarted n => Some (mkReport raftElectionStartedTotal [n] (Add 1))
  | IncRaftElectionWon n => Some (mkReport raftElectionWonTotal [n] (Add 1))
  | IncRaftElectionLost n r => Some (mkReport raftElectionLostTotal [n; r] (Add 1))
  | IncRaftStorageError n op => Some (mkReport raftStorageErrorTotal [n; op] (Add 1))
  | SetRaftApplyLag n lag => Some (mkReport raftApplyLag [n] (SetTo (atLeast0 lag)))
  | SetRaftIsLeader n b => Some (mkReport raftIsLeader [n] (SetTo (if b then 1 else 0)))
  | ObserveRaftCommitToApplyDuration n d => Some (mkReport raftCommitToApplyDuration [n] (Observe d))
  | ObserveRaftStartToCommitDuration n d => Some (mkReport raftStartToCommitDuration [n] (Observe d))
  end.

(** ** The client library *)

(** The samples of each vector: the value of a counter or gauge, the
    observations of a histogram, newest first. *)
Definition samples : Type := metric → list string → list Z.

(** The increasing buckets [NewHistogramVec] asks for. *)
Fixpoint increasing (l : list Q) : bool :=
  match l with
  | a :: ((b :: _) as t) => negb (Qle_bool b a) && increasing t
  | _ => true
  end.

Definition well_formed (v : vec) : bool :=
  increasing (Buckets v) && bool_decide (NoDup (labels v)).

Definition value (st : samples) (m : metric) (vs : list string) : Z := default 0 (head (st m vs)).

Definition update (m : metric) (vs : list string) (l : list Z) (st : samples) : samples :=
  λ m' vs', if bool_decide (m' = m ∧ vs' = vs) then l else st m' vs'.

Definition emit (r : report) (st : samples) : outcome samples :=
  let '(mkReport m vs a) := r in
  if negb (Nat.eqb (length vs) (length (labels (newVec m)))) then Panic else
  match kind (newVec m), a with
  | Histogram, Observe x => Ret (update m vs (x :: st m vs) st)
  | Counter, Add x => if x <? 0 then Panic else Ret (update m vs [value st m vs + x] st)
  | Gauge, SetTo x => Ret (update m vs [x] st)
  | _, _ => Panic
  end.

Definition callMethod (m : method) (st : samples) : outcome samples :=
  match reportOf m with None => Ret st | Some r => emit r st end.

(** ** Lemmas *)

Lemma all_metrics_complete m : m ∈ all_metrics.
Proof. unfold all_metrics. rewrite !elem_of_cons. destruct m; tauto. Qed.

Lemma all_metrics_NoDup : NoDup all_metrics.
Proof. apply (bool_decide_unpack _). vm_compute. exact I. Qed.

(** Every vector is well formed, and no two have the same name. *)
Lemma vectors_well_formed :
  (∀ m, well_formed (newVec m) = true) ∧
  NoDup ((λ m, (Subsystem (newVec m), Name (newVec m))) <$> all_metrics).
Proof.
  split; [intros []; vm_compute; reflexivity|]. apply (bool_decide_unpack _). vm_compute. exact I.
Qed.

(** No method panics, whatever it is given. *)
Lemma method_total m st : ∃ st', callMethod m st = Ret st'.
Proof.
  destruct m; unfold callMethod; cbn -[Z.leb];
    try (by eexists); destruct (Z.leb_spec n 0); [by eexists|].
  unfold emit. cbn -[Z.ltb]. destruct (Z.ltb_spec n 0); [lia|by eexists].
Qed.

(** A counter never decreases. *)
Lemma counters_grow m st st' x vs :
  callMethod m st = Ret st' → kind (newVec x) = Counter → value st x vs ≤ value st' x vs.
Proof.
  unfold callMethod. destruct (reportOf m) as [[y ws a]|]; [|by intros [= <-]].
  unfold emit. case_match; [done|]. intros Hop Hk.
  assert (∀ l, y = x → ws = vs → value st x vs ≤ default 0 (head l) → value st x vs ≤ value (update y ws l st) x vs) as Hsame.
  { intros l -> -> Hl. unfold value at 2, update. by rewrite bool_decide_eq_true_2. }
  assert (∀ l, ¬ (x = y ∧ vs = ws) → value (update y ws l st) x vs = value st x vs) as Hother.
  { intros l Hne. unfold value, update. by rewrite bool_decide_eq_false_2. }
  destruct (decide (x = y ∧ vs = ws)) as [[-> ->]|Hne].
  - rewrite Hk in Hop. destruct a as [|z|]; try done. destruct (Z.ltb_spec z 0); [done|].
    injection Hop as <-. apply Hsame; [done..|]. cbn. lia.
  - repeat case_match; try done; injection Hop as <-; by rewrite Hother.
Qed.

(** ** Registering twice *)

Section twice.
Context {Reg H : Type} `{HL : RegistererLaws Reg H}.

Lemma registerOrReuse_spec k reg c reg' h :
  kind (vec_of c) = k → registerOrReuse k reg c = (reg', inl h) →
  lookup_vec reg' (vec_of c) = Some h ∧
  ∀ v h', lookup_vec reg v = Some h' → lookup_vec reg' v = Some h'.
Proof.
  intros Hk. unfold registerOrReuse. destruct (Register reg c) as [r [|e|err]] eqn:E; [| |done].
  - intros [= <- <-]. destruct (register_new _ _ _ E) as [Hc Ho]. split; [done|]. intros v h' Hv.
    destruct (decide (lookup_vec reg (vec_of c) = None)) as [Hn|Hn].
    + rewrite Ho; [done|]. intros ->. congruence.
    + destruct (lookup_vec reg (vec_of c)) as [e|] eqn:Ee; [|done].
      apply register_already in Ee. congruence.
  - assert (r = reg) as -> by by eapply register_same.
    apply register_already in E. case_bool_decide; intros [= <- <-]. done.
Qed.

Lemma register_spec reg ms m reg' p :
  NoDup ms → (∀ x, x ∈ ms → vec_of (m x) = newVec x) → register reg ms m = (reg', inl p) →
  (∀ x, x ∈ ms → lookup_vec reg' (newVec x) = Some (p x)) ∧
  (∀ x, x ∉ ms → p x = m x) ∧
  ∀ v h, lookup_vec reg v = Some h → lookup_vec reg' v = Some h.
Proof.
  intros Hnd. revert reg m. induction Hnd as [|x ms Hx Hnd IH]; intros reg m Hm; cbn [register].
  { intros [= <- <-]. split_and!; [by intros x ?%elem_of_nil|done|done]. }
  destruct (registerOrReuse (kind (newVec x)) reg (m x)) as [r [c|]] eqn:E; [|done].
  apply registerOrReuse_spec in E as [Hc Hmono]; [|by rewrite Hm by left].
  rewrite Hm in Hc by left. set (m' := λ y, _). intros Hr.
  assert (∀ y, y ≠ x → m' y = m y) as Hm' by (intros y Hy; subst m'; simpl; by rewrite bool_decide_eq_false_2).
  assert (m' x = c) as Hmx by (subst m'; simpl; by rewrite bool_decide_eq_true_2).
  apply IH in Hr as (Hin & Hout & Hmono'); [|intros y Hy; rewrite Hm' by congruence; apply Hm; by right].
  split_and!; [|intros y Hy; rewrite Hout, Hm'; [done|..]; set_solver|auto].
  intros y [->|Hy]%elem_of_cons; [|by apply Hin]. rewrite Hout, Hmx by done. by apply Hmono'.
Qed.

Lemma register_again reg ms m p :
  NoDup ms → (∀ x, x ∈ ms → vec_of (m x) = newVec x) →
  (∀ x, x ∈ ms → lookup_vec reg (newVec x) = Some (p x)) →
  ∃ q, register reg ms m = (reg, inl q) ∧ (∀ x, x ∈ ms → q x = p x) ∧ ∀ x, x ∉ ms → q x = m x.
Proof.
  intros Hnd. revert m. induction Hnd as [|x ms Hx Hnd IH]; intros m Hm Hp; cbn [register].
  { exists m. split_and!; [done|by intros x ?%elem_of_nil|done]. }
  assert (registerOrReuse (kind (newVec x)) reg (m x) = (reg, inl (p x))) as ->.
  { pose proof (Hp x ltac:(left)) as Hl. pose proof (lookup_kind _ _ _ Hl) as Hk.
    rewrite <- (Hm x) in Hl by left. apply register_already in Hl. unfold registerOrReuse.
    rewrite Hl. by rewrite bool_decide_eq_true_2 by congruence. }
  set (m' := λ y, if bool_decide (y = x) then p x else m y).
  assert (∀ y, y ≠ x → m' y = m y) as Hm' by (intros y Hy; subst m'; simpl; by rewrite bool_decide_eq_false_2).
  assert (m' x = p x) as Hmx by (subst m'; simpl; by rewrite bool_decide_eq_true_2).
  destruct (IH m') as (q & -> & Hin & Hout); [|intros y Hy; apply Hp; by right|].
  { intros y Hy. rewrite Hm' by congruence. apply Hm. by right. }
  exists q. split_and!; [done| |intros y Hy; rewrite Hout, Hm'; [done|..]; set_solver].
  intros y [->|Hy]%elem_of_cons; [by rewrite Hout|by apply Hin].
Qed.

(** A second [NewPrometheus] on the registry succeeds, registers nothing and
    reports to the collectors of the first. *)
Lemma NewPrometheus_again reg reg' fresh fresh' p :
  (∀ m, vec_of (fresh m) = newVec m) → (∀ m, vec_of (fresh' m) = newVec m) →
  NewPrometheus reg fresh = (reg', inl p) →
  ∃ q, NewPrometheus reg' fresh' = (reg', inl q) ∧ ∀ m, q m = p m.
Proof.
  intros Hf Hf' Hp.
  destruct (register_spec _ _ _ _ _ all_metrics_NoDup (λ x _, Hf x) Hp) as (Hin & _ & _).
  destruct (register_again reg' all_metrics fresh' p all_metrics_NoDup (λ x _, Hf' x) Hin)
    as (q & Hq & Hqp & _).
  exists q. split; [exact Hq|]. intros m. apply Hqp, all_metrics_complete.
Qed.
End twice.

(** A registry that is the list of its collectors, a collector being what it
    was made with and an address. *)
#[export] Instance Q_eq_dec : EqDecision Q.
Proof. solve_decision. Defined.
#[export] Instance vec_eq_dec : EqDecision vec.
Proof. solve_decision. Defined.

Definition list_lookup_vec (reg : list (nat * vec)) (v : vec) : option (nat * vec) :=
  find (λ h, bool_decide (h.2 = v)) reg.

#[export] Instance list_registerer : Registerer (list (nat * vec)) (nat * vec) := {
  vec_of := snd;
  Register reg h := match list_lookup_vec reg h.2 with
                    | Some e => (reg, Already e)
                    | None => (h :: reg, Registered)
                    end }.

#[export] Program Instance list_laws : RegistererLaws (list (nat * vec)) (nat * vec) := {
  lookup_vec := list_lookup_vec }.
Next Obligation. intros reg v h [_ Hv]%find_some. by apply bool_decide_eq_true in Hv. Qed.
Next Obligation.
  intros reg h reg'. cbn. destruct (list_lookup_vec reg h.2); [done|]. intros [= <-].
  unfold list_lookup_vec. cbn. rewrite bool_decide_eq_true_2 by done. split; [done|].
  intros v Hv. by rewrite bool_decide_eq_false_2.
Qed.
Next Obligation.
  intros reg h e. cbn. destruct (list_lookup_vec reg h.2); [|by split]. split; [by intros [= ->]|].
  by intros [= ->].
Qed.
Next Obligation. intros reg h reg' r. cbn. destruct (list_lookup_vec _ _); by intros [= <- <-]. Qed.

Example NewPrometheus_twice :
  let '(reg, r) := NewPrometheus [] (λ m, (0%nat, newVec m)) in
  let '(reg', r') := NewPrometheus reg (λ m, (1%nat, newVec m)) in
  length reg = 23%nat ∧ reg' = reg ∧
  match r, r' with
  | inl p, inl q => (λ m, (q m).1) <$> all_metrics = replicate 23 0%nat
  | _, _ => False
  end.
Proof. vm_compute. done. Qed.
